(* ===== verification/_CoqProject ===== *)
-Q . S2P
Prelude.v
RustStd.v
RustStdFacts.v
Storage.v
Resp.v
Concrete.v
StorageFacts.v
StorageInv.v
StorageOps.v
StorageThms.v
StorageSpec.v
StorageHist.v
Memcached.v
MemcachedFacts.v
MemcachedThms.v
RespFacts.v
RespThms.v
Ping.v
Echo.v
Request.v
RequestFacts.v
RequestThms.v
RequestBounds.v
Buffer.v
BufferFacts.v
BufferThms.v
Slab.v
Connection.v
ConnectionThms.v
Token.v
BufRing.v
Mio.v
MioFacts.v
MioRun.v
MioThms.v
Uring.v
UringFacts.v
UringRun.v
UringThms.v
SockAddr.v
Config.v
Server.v
Locks.v
Concurrent.v
ConcurrentSolo.v
ConcurrentSpec.v
ConcurrentThms.v
ConcurrentMem.v
ConcurrentTokens.v
ConcurrentRaces.v
Runtimes.v
Clients.v
MioClients.v
UringClients.v
Tests.v
TestsStorage.v
TestsConfig.v
TestsMemcached.v
TestsResp.v
TestsPing.v
TestsEcho.v
TestsRuntime.v
TestsPass.v
