(* ===== verification/Prelude.v ===== *)
(** * grow-a-cache: a verification development

    grow-a-cache (src/) is a memory-bounded key-value cache server in Rust.  [main]
    loads the configuration and starts worker threads, each with its own listener,
    connections and buffers, driven by one of two event loops (mio or io_uring).  Bytes
    from a connection go to a protocol parser, the parsed command is executed by the
    request layer against one store that all workers share, and the answer goes back
    through buffers of the worker's pool.  This library models the server from the
    flags of the command line to the bytes on the sockets and the change of the store,
    and proves it correct where it is; where it is not, it proves that too.

    ** Files and what they model

    - [Prelude]: bytes, machine integers, the two effects ([comp] for code that can
      panic, [st] for code on shared state, with [Running] for loops out of fuel),
      slices and indexing with their panics, the build profile (overflow checks and
      debug assertions), tactics and the lemmas all files share.
    - [RustStd], [RustStdFacts]: what the code uses of the standard library: searching
      CR LF, decimal numbers at their widths, UTF-8 strict and lossy, white space,
      case folding.  The non-ASCII case tables are the parameter [UnicodeCase].
    - [Storage] (src/storage.rs): the record [Storage] has the fields of the struct
      (item map, memory counter, LRU map, the two counters) and whether the lock of
      [data] is poisoned.  One definition per method.  [StorageFacts], [StorageInv],
      [StorageOps] hold its lemmas and closed forms, [StorageThms], [StorageSpec] and
      [StorageHist] its theorems.
    - [Memcached] (src/protocols/memcached/parser.rs): commands, [parse],
      [parse_with_data] and the module [Response]; [MemcachedFacts], [MemcachedThms].
    - [Resp] (src/protocols/resp/parser.rs): frames, [encode] and the recursive
      [parse]; [RespFacts], [RespThms].
    - [Ping], [Echo] (src/protocols/ping/parser.rs, src/protocols/echo/parser.rs).
    - [Request] (src/request.rs): [process_memcached], [process_resp],
      [process_ping], [process_echo] and every command handler; [RequestFacts],
      [RequestThms], [RequestBounds].
    - [Locks] (src/storage.rs again): the two locks of the store.  Every operation is
      the sequence of acquisitions and releases it makes; any number of threads
      interleave them in a step relation.
    - [Concurrent] (src/storage.rs once more): the operations of [Storage] cut into the
      pieces that other threads can see apart, and any number of threads whose pieces
      a schedule interleaves.  [ConcurrentSolo] ties it to [Storage],
      [ConcurrentSpec] is the contract for threads, [ConcurrentThms], [ConcurrentMem],
      [ConcurrentTokens] and [ConcurrentRaces] have the theorems.
    - [Buffer] (src/runtime/buffer.rs): [BufferPool] and [BufferChain];
      [BufferFacts], [BufferThms].
    - [Slab]: the interface to the slab crate, with the laws it documents.
    - [Connection] (src/runtime/connection.rs): phases, data states and the registry;
      [ConnectionThms].
    - [Mio] (src/runtime/mio/event_loop.rs): the state of a worker and one definition
      per handler, with the answers of the operating system as arguments;
      [worker_event] is one event, [worker_loop] a sequence of them.  [MioFacts] has
      the invariant and that every handler keeps it, [MioRun] the course of a request,
      [MioThms] the theorems.
    - [Token], [BufRing], [Uring] (src/runtime/uring/): tokens of operations in flight,
      the ring of provided buffers, and the event loop; [kernel] is what the kernel
      does when an operation completes and [cqe_ok] what it promises about it.
      [UringFacts], [UringRun], [UringThms] as for mio.
    - [SockAddr]: the parser of socket addresses of the standard library.
    - [Config] (src/config.rs): defaults, merging and the listen address.
    - [Server] (src/main.rs, src/runtime/mod.rs and the [run] functions): from the
      flags to the workers that enter their event loops, or to the error or silence with
      which [main] returns.
    - [Runtimes]: conversations of single requests, specified by the request layer alone,
      on both event loops.
    - [Clients]: the sessions of the clients of one worker, specified by the request
      layer: connecting, sending one request at a time, receiving, leaving, being
      disconnected; [MioClients] and [UringClients] relate the workers to it.
    - [Tests], [TestsStorage], [TestsConfig], [TestsMemcached], [TestsResp],
      [TestsPing], [TestsEcho], [TestsRuntime] (the [tests] modules of src/): the unit
      tests of the program as definitions on the model; [TestsPass] runs them, as a
      sanity check of the definitions.
    - [Concrete]: one concrete platform, for the executable witnesses.

    ** Platform parameters

    What the sources leave to the compiler or the platform is a class: [Layout] (the
    size of a [CacheItem]), [HashOrder] (the iteration order of a [HashMap], any
    permutation of its keys), [FrameLayout] (the size of a [Frame], the largest block the
    allocator hands out and the number of nested calls the stack holds), [UnicodeCase]
    and [BuildProfile].  Other crates and
    the operating system are classes too: [SlabLib] with its laws [SlabLaws], [Files]
    (the file system and the TOML parser) and [Os] (threads and system calls).  All
    theorems hold for every instance, except where they exhibit a concrete run.

    ** What the theorems show

    - The store.  [StorageSpec]: every operation refines an operation on an abstract
      map that may lose entries, and is exact when the entry fits; this is the
      contract the request layer relies on.  [StorageThms]: a well-formedness
      invariant (exact accounting, LRU map, fresh CAS tokens) is preserved, memory
      stays within the limit in every reachable store, eviction follows LRU order and
      every operation terminates.  [StorageHist]: over histories of operations that run
      one at a time, reads return the last write of any kind or nothing, and a
      successful [cas] replaces the item that was read;
      and the two defects, the accounting of [cas] and the overflow of the clock that
      poisons the store.
    - The store under concurrency.  A thread that is alone behaves as the sequential
      model, so the pieces of [Concurrent] put together are the operations of
      [Storage].  Every interleaving of any number of threads refines a contract on one
      map: between its call and its reply an operation takes effect in one step, except
      [add], [replace] and [cas], which test in one step and, if the test passes, store
      in a later one over whatever is there by then; entries only disappear when the
      store says that it forgets them.  An entry that is neither written nor forgotten
      stays.  Without [cas] the memory
      counter exceeds the limit by at most one entry for each further thread and is
      exact whenever nobody writes; two entries never have the same CAS token.
      What the contract does not promise does go wrong: [checks_are_not_atomic] and
      [get_drops_fresh_item] are runs in which [add], [cas] and [get] break the
      promise their sequential versions keep.
    - The parsers never panic (memcached: when the announced size fits [usize]; RESP:
      within the limits of allocator and stack that its theorems name), frame
      their input (an answer depends on the bytes it consumes only), and invert the
      printers of commands and frames.
    - The request layer executes what a request spells and consumes exactly its bytes;
      SET and GET are followed end to end over both protocols; [incr] and [decr] wrap
      and saturate; consumed and produced bytes stay in bounds.  Its defects (lost
      updates, a swallowed data block, a stalled connection, a bypass of the size
      limit) are theorems as well.
    - Buffers: exclusive ownership of pool buffers, appended data is read back,
      release returns everything; resumption and reuse of a chain are wrong, and the
      theorems say how.
    - The locks: without eviction no schedule of any number of threads deadlocks; with
      eviction two threads can, and then no call returns.
    - The event loops.  For both: an invariant of every reachable worker (each buffer
      has one owner and none is lost, each connection waits for exactly one thing,
      limits hold), no event panics unless the request layer does on the very bytes of
      the event, what ends a worker, and the exchange of a request and its response
      when each fits one buffer and the response is not empty, however the bytes are
      split: the socket gets exactly the answer of the request layer.  From the start of
      a worker, clients that send such requests one at a time, in any order and while
      other workers change the store, are each sent the answers to their own requests
      ([MioClients], up to the configured limit and also when clients break off;
      [UringClients], up to 4096 clients at once, for which the pool has buffers, and as
      long as none breaks off while it is answered).  mio: connections do not disturb
      each other.  io_uring: the invariant holds as long as every write sends something;
      a write that fails or is empty frees its buffer twice, and a run shows one client
      receiving the request of another.  The defects of the mio loop (lost pipelined
      requests, closed connections, stalled chains) are theorems in [MioThms].
      A conversation of any number of single requests, with requests and responses split
      in any way, is the same on both runtimes ([Runtimes]).
    - Connections, tokens and the buffer ring implement a bounded map, a correlation of
      completions with operations, and a first-in first-out queue across the wrap-around
      of its counters.
    - Configuration and start: the documented precedence, with its exception; listen
      addresses; which workers of [main] serve where, depending on the system calls that
      succeed; every worker starts inside the invariant of its event loop, so the
      theorems about the loops apply.

    ** Fuel

    [evict_loop] runs with one round per entry and one more, and each round deletes an
    entry ([operations_terminate]).  [parse_elems] and [append_loop] run with one
    round per byte and one more, and each round consumes a byte; running out is a
    [Panic] or [Running], so the theorems that these functions return also show that
    the fuel is enough.  [chunks_aux] reads one character per byte at most, and
    [dec_aux] one digit per bit.

    ** Not modelled

    Memory is sequentially consistent: the counters of the store are only accessed with
    [SeqCst] ordering and everything else under a lock.  [Concurrent] leaves waiting for
    the locks to the schedule and [Locks] leaves out the data; in the event loops other
    workers change the store between the events of a worker, not during one
    ([incr_decr_lost_update] is an explicit interleaving inside a request).  An
    operation of [Storage] reads the clock once and a piece of [Concurrent] once; a
    handler that makes several calls reads it once per call.  The lock of
    [access_order] cannot be poisoned, since nothing panics while it is held.  Logging,
    raw pointers ([get_ptr], [as_iovecs], the memory behind the buffer ring),
    exhaustion of memory (but for the array that a RESP header announces), and the inside of the kernel and of other crates are left
    out.  The number of completions handled between two submissions ([batch_size]) is
    arbitrary in the model, and so are the events between two calls of [poll].

    ** Plan

    Next: requests and responses that need chains among several clients of a mio worker,
    and workers whose handlers interleave with each other on the store of
    [Concurrent]. *)

From Stdlib Require Export ZArith Lia Strings.Byte.
From stdpp Require Export prelude gmap list strings.

#[global] Open Scope Z_scope.
#[global] Set Default Goal Selector "!".

(** ** Bytes

    A Rust [&[u8]], [Vec<u8>], [Bytes] or [BytesMut] is a list of bytes; a Rust
    [String] or [&str] is the list of its UTF-8 bytes. *)

Abbreviation bytes := (list Byte.byte).

Declare Scope cache_scope.
Delimit Scope cache_scope with cache.

(** A Rust byte-string literal, written [« s »]; the two bytes CR LF of an escape
    sequence are written separately. *)
Definition lit (s : string) : bytes := String.list_byte_of_string s.
Notation "« s »" := (lit s) (at level 0, s at level 200) : cache_scope.
#[global] Open Scope cache_scope.

Definition CR : byte := Byte.x0d.
Definition LF : byte := Byte.x0a.
Definition crlf : bytes := [CR; LF].

#[export] Instance byte_eq_dec : EqDecision byte := Byte.byte_eq_dec.

#[export] Program Instance byte_countable : Countable byte :=
  inj_countable Byte.to_N Byte.of_N _.
Next Obligation. intros x. apply Byte.of_to_N. Qed.

(** The numeric value of a byte. *)
Definition byte_val (b : byte) : Z := Z.of_N (Byte.to_N b).

(** [slice.len()] as a machine integer. *)
Definition len {A} (l : list A) : Z := Z.of_nat (length l).

(** ** Machine integers

    The target is 64-bit: [usize] and [u64] have the same range.  A width-bounded
    integer is a [Z] and every place where the code can leave the range is written
    out, either as a wrap-around ([u64]) or as a checked operation. *)

Definition U64_MAX : Z := 18446744073709551615.
Definition USIZE_MAX : Z := U64_MAX.
Definition U32_MAX : Z := 4294967295.
Definition I64_MAX : Z := 9223372036854775807.
Definition I64_MIN : Z := -9223372036854775808.

Definition u64 (z : Z) : Z := z mod 18446744073709551616.

(** ** Computations that can panic

    [comp A] is a pure Rust computation: it returns or it panics (index out of
    bounds, checked arithmetic, a failed [expect]). *)

Inductive comp (A : Type) : Type :=
| Val (a : A)
| Panic.
Arguments Val {A} a.
Arguments Panic {A}.

#[export] Instance comp_ret : MRet comp := fun A a => Val a.
#[export] Instance comp_bind : MBind comp := fun A B f m =>
  match m with Val a => f a | Panic => Panic end.

(** [outcome S A] is the end of a computation on shared state: it returns a value
    and the new state, it panics and leaves the state it had reached, or (only for
    loops run with fuel) it is still running. *)

Inductive outcome (S A : Type) : Type :=
| Done (a : A) (s : S)
| Panicked (s : S)
| Running (s : S).
Arguments Done {S A} a s.
Arguments Panicked {S A} s.
Arguments Running {S A} s.

Definition st (S A : Type) : Type := S -> outcome S A.

#[export] Instance st_ret {S} : MRet (st S) := fun A a s => Done a s.
#[export] Instance st_bind {S} : MBind (st S) := fun A B f m s =>
  match m s with
  | Done a s' => f a s'
  | Panicked s' => Panicked s'
  | Running s' => Running s'
  end.

(** The state a computation ends in. *)
Definition state_of {S A} (o : outcome S A) : S :=
  match o with Done _ s | Panicked s | Running s => s end.

Definition lift {S A} (c : comp A) : st S A := fun s =>
  match c with Val a => Done a s | Panic => Panicked s end.
Definition gets {S A} (f : S -> A) : st S A := fun s => Done (f s) s.
Definition modify {S} (f : S -> S) : st S unit := fun s => Done tt (f s).

(** [try m f] is the operator [?]: an error of [m] is the result, a value goes to
    [f]. *)
Definition try {S E A B} (m : st S (E + A)) (f : A -> st S (E + B)) : st S (E + B) := fun s =>
  match m s with
  | Done (inr a) s' => f a s'
  | Done (inl e) s' => Done (inl e) s'
  | Panicked s' => Panicked s'
  | Running s' => Running s'
  end.
Notation "x ←? y ; z" := (try y (fun x => z))
  (at level 20, y at level 100, z at level 200) : cache_scope.

Definition ok {S E A} (a : A) : st S (E + A) := fun s => Done (inr a) s.
Definition err {S E A} (e : E) : st S (E + A) := fun s => Done (inl e) s.
Definition noerr {S E A} (m : st S A) : st S (E + A) := a ← m; ok a.

(** An operation on a part of the state, reached by [get] and [put]. *)
Definition zoom {S T A} (get : S -> T) (put : T -> S -> S) (m : st T A) : st S A := fun s =>
  match m (get s) with
  | Done a t => Done a (put t s)
  | Panicked t => Panicked (put t s)
  | Running t => Running (put t s)
  end.

(** ** The build profile

    The compiler's flags of these names: with [overflow_checks] an overflowing [+]
    panics, without it the sum wraps; with [debug_assertions] a failing
    [debug_assert!] panics.  Debug builds set both, release builds neither. *)

Class BuildProfile := { overflow_checks : bool; debug_assertions : bool }.

Definition usize_add `{BuildProfile} (a b : Z) : comp Z :=
  if a + b <=? USIZE_MAX then Val (a + b)
  else if overflow_checks then Panic else Val (u64 (a + b)).

(** [v[i]]: panics out of bounds. *)
Definition index {A} (l : list A) (i : Z) : comp A :=
  if i <? 0 then Panic
  else match l !! Z.to_nat i with Some a => Val a | None => Panic end.

(** [&v[a..b]]: panics unless [a <= b <= v.len()]. *)
Definition slice {A} (l : list A) (a b : Z) : comp (list A) :=
  if (0 <=? a) && (a <=? b) && (b <=? len l)
  then Val (take (Z.to_nat (b - a)) (drop (Z.to_nat a) l))
  else Panic.

(** [output[a..b].copy_from_slice(src)]: panics unless the range is in bounds and as
    long as [src]. *)
Definition write_range (output : bytes) (a b : Z) (src : bytes) : comp bytes :=
  if (0 <=? a) && (a <=? b) && (b <=? len output) && (len src =? b - a)
  then Val (take (Z.to_nat a) output ++ src ++ drop (Z.to_nat b) output)
  else Panic.

(** ** Tactics and hints *)

Create HintDb cache.
Create Rewrite HintDb cache.

(** Case analysis on the condition or scrutinee that blocks the goal. *)
Ltac step :=
  match goal with
  | |- context [match ?x with _ => _ end] => destruct x eqn:?
  end.

(** Turn boolean comparisons into propositions. *)
Ltac boolify :=
  repeat match goal with
  | H : (_ <=? _) = true |- _ => apply Z.leb_le in H
  | H : (_ <=? _) = false |- _ => apply Z.leb_gt in H
  | H : (_ <? _) = true |- _ => apply Z.ltb_lt in H
  | H : (_ <? _) = false |- _ => apply Z.ltb_ge in H
  | H : (_ =? _) = true |- _ => apply Z.eqb_eq in H
  | H : (_ =? _) = false |- _ => apply Z.eqb_neq in H
  | H : (_ && _) = true |- _ => apply andb_true_iff in H as [? ?]
  | H : (_ || _) = false |- _ => apply orb_false_iff in H as [? ?]
  | H : negb _ = true |- _ => apply negb_true_iff in H
  | H : negb _ = false |- _ => apply negb_false_iff in H
  | H : bool_decide _ = true |- _ => apply bool_decide_eq_true in H
  | H : bool_decide _ = false |- _ => apply bool_decide_eq_false in H
  end.

(** Follow a computation that returned, in hypothesis [H]. *)
Ltac comp_cases H :=
  repeat (simplify_eq; match type of H with
  | context [match ?x with _ => _ end] => destruct x eqn:?
  end); simplify_eq.

(** Close an equation between closed terms by evaluation, without storing the
    evaluated terms in the proof. *)
Ltac by_vm := match goal with |- _ = ?b => vm_cast_no_check (@eq_refl _ b) end.

(** ** Generic lemmas *)

Lemma len_nonneg {A} (l : list A) : 0 <= len l.
Proof. unfold len. lia. Qed.

Lemma len_app {A} (l k : list A) : len (l ++ k) = len l + len k.
Proof. unfold len. rewrite length_app. lia. Qed.

Lemma len_cons {A} (x : A) (l : list A) : len (x :: l) = 1 + len l.
Proof. unfold len. simpl. lia. Qed.

Lemma len_nil {A} : len (@nil A) = 0.
Proof. reflexivity. Qed.

#[export] Hint Resolve len_nonneg : cache.
#[export] Hint Rewrite @len_app @len_cons @len_nil : cache.

Lemma u64_range z : 0 <= u64 z <= U64_MAX.
Proof. unfold u64, U64_MAX. pose proof (Z.mod_pos_bound z 18446744073709551616). lia. Qed.

Lemma u64_small z : 0 <= z <= U64_MAX -> u64 z = z.
Proof. unfold u64, U64_MAX. intros. apply Z.mod_small. lia. Qed.

Lemma usize_add_small `{BuildProfile} a b : a + b <= USIZE_MAX -> usize_add a b = Val (a + b).
Proof. intros Hb. unfold usize_add. by rewrite (proj2 (Z.leb_le _ _) Hb). Qed.

Lemma index_app_l {A} (l k : list A) i : i < len l -> index (l ++ k) i = index l i.
Proof.
  unfold index, len. intros Hi. destruct (i <? 0) eqn:E; [done|]. boolify.
  rewrite lookup_app_l by lia. done.
Qed.

Lemma slice_prefix {A} (l k : list A) : slice (l ++ k) 0 (len l) = Val l.
Proof.
  unfold slice. rewrite len_app. pose proof (len_nonneg l). pose proof (len_nonneg k).
  rewrite (proj2 (Z.leb_le 0 (len l))), (proj2 (Z.leb_le (len l) (len l + len k))) by lia.
  simpl. unfold len. rewrite Z.sub_0_r, Nat2Z.id, drop_0. by rewrite take_app_length.
Qed.

Lemma slice_middle {A} (p l k : list A) :
  slice (p ++ l ++ k) (len p) (len p + len l) = Val l.
Proof.
  unfold slice. rewrite !len_app.
  pose proof (len_nonneg p). pose proof (len_nonneg l). pose proof (len_nonneg k).
  rewrite (proj2 (Z.leb_le 0 (len p))), (proj2 (Z.leb_le (len p) (len p + len l))),
    (proj2 (Z.leb_le (len p + len l) (len p + (len l + len k)))) by lia.
  simpl. unfold len. rewrite Z.add_simpl_l, !Nat2Z.id.
  by rewrite drop_app_length, take_app_length.
Qed.

Lemma index_lookup {A} (l : list A) i : 0 <= i < len l -> exists x, index l i = Val x /\ x ∈ l.
Proof.
  unfold index, len. intros Hi. rewrite (proj2 (Z.ltb_ge i 0)) by lia.
  destruct (lookup_lt_is_Some_2 l (Z.to_nat i) ltac:(lia)) as [x Hx]. rewrite Hx.
  exists x. split; [done|]. by eapply list_elem_of_lookup_2.
Qed.

Lemma slice_from {A} (x : A) (l : list A) : slice (x :: l) 1 (len (x :: l)) = Val l.
Proof.
  pose proof (slice_middle [x] l []) as H. rewrite app_nil_r in H. simpl in H.
  rewrite len_cons. exact H.
Qed.

Lemma slice_Val {A} (l q : list A) a b :
  slice l a b = Val q ->
  q = take (Z.to_nat (b - a)) (drop (Z.to_nat a) l) /\ 0 <= a <= b /\ b <= len l.
Proof. unfold slice. destruct (_ && _) eqn:E; [|done]. boolify. intros [= <-]. done. Qed.

Lemma slice_app_l {A} (l k : list A) a b : b <= len l -> slice (l ++ k) a b = slice l a b.
Proof.
  intros Hb. unfold slice. rewrite len_app. pose proof (len_nonneg k).
  rewrite (proj2 (Z.leb_le b (len l + len k))), (proj2 (Z.leb_le b (len l))) by lia.
  destruct (0 <=? a) eqn:Ea; [|done]. destruct (a <=? b) eqn:Eb; [|done]. simpl. boolify.
  f_equal. unfold len in *. rewrite drop_app_le by lia. by rewrite take_app_le by (rewrite length_drop; lia).
Qed.

Lemma write_range_eq (pre old post src : bytes) :
  len src = len old ->
  write_range (pre ++ old ++ post) (len pre) (len pre + len old) src = Val (pre ++ src ++ post).
Proof.
  intros Hl. unfold write_range. rewrite !len_app.
  pose proof (len_nonneg pre). pose proof (len_nonneg old). pose proof (len_nonneg post).
  rewrite (proj2 (Z.leb_le 0 (len pre))), (proj2 (Z.leb_le (len pre) (len pre + len old))),
    (proj2 (Z.leb_le (len pre + len old) (len pre + (len old + len post)))),
    (proj2 (Z.eqb_eq (len src) (len pre + len old - len pre))) by lia.
  cbn [andb]. do 2 f_equal.
  - unfold len. by rewrite Nat2Z.id, take_app_length.
  - f_equal. rewrite app_assoc, drop_app_length'; [done|]. rewrite length_app. unfold len. lia.
Qed.

Lemma write_range_Val output a b src out :
  write_range output a b src = Val out -> len out = len output.
Proof.
  unfold write_range. destruct (_ && _) eqn:E; [|done]. boolify. intros [= <-].
  rewrite !len_app. unfold len in *. rewrite length_take, length_drop. lia.
Qed.

(** A list cut at position [n]. *)
Lemma split_at {A} (l : list A) n :
  0 <= n <= len l -> exists a b, l = a ++ b /\ len a = n.
Proof.
  intros Hn. exists (take (Z.to_nat n) l), (drop (Z.to_nat n) l). rewrite take_drop.
  split; [done|]. unfold len in *. rewrite length_take. lia.
Qed.

(** A step of a stateful computation that returns. *)
Lemma bind_done {S A B} (m : st S A) (f : A -> st S B) s a s' :
  m s = Done a s' -> (m ≫= f) s = f a s'.
Proof. intros H. unfold mbind, st_bind. by rewrite H. Qed.

(** ** Postconditions of stateful code

    [wp F m Q s]: from [s], [m] returns with [Q], unless [F]. *)

Definition wp {S A} (F : Prop) (m : st S A) (Q : A -> S -> Prop) (s : S) : Prop :=
  match m s with Done a s' => Q a s' | _ => F end.

Section wp.
Context {S : Type} (F : Prop).
Implicit Types (s : S).

Lemma wp_mono {A} (m : st S A) (Q R : A -> S -> Prop) s :
  wp F m Q s -> (forall a s', Q a s' -> R a s') -> wp F m R s.
Proof. unfold wp. destruct (m s); auto. Qed.

Lemma wp_bind {A B} (m : st S A) (f : A -> st S B) Q s :
  wp F m (fun a => wp F (f a) Q) s -> wp F (m ≫= f) Q s.
Proof. unfold wp, mbind, st_bind. by destruct (m s). Qed.

Lemma wp_try {E A B} (m : st S (E + A)) (f : A -> st S (E + B)) Q s :
  wp F m (fun r => match r with inl e => Q (inl e) | inr a => wp F (f a) Q end) s -> wp F (try m f) Q s.
Proof. unfold wp, try. by destruct (m s) as [[e|a] s'| |]. Qed.

Lemma wp_done {A} (m : st S A) (Q : A -> S -> Prop) s a s' : m s = Done a s' -> Q a s' -> wp F m Q s.
Proof. unfold wp. by intros ->. Qed.

Lemma wp_returns {A} (m : st S A) (Q : A -> S -> Prop) s :
  wp False m Q s -> exists a s', m s = Done a s' /\ Q a s'.
Proof. unfold wp. destruct (m s) as [a s'| |]; [|done..]. by exists a, s'. Qed.

Lemma wp_lift {A} (c : comp A) (Q : A -> S -> Prop) s a : c = Val a -> Q a s -> wp F (lift c) Q s.
Proof. by intros ->. Qed.

Lemma wp_zoom {T A} (get : S -> T) put (m : st T A) (Q : A -> S -> Prop) s a t :
  m (get s) = Done a t -> Q a (put t s) -> wp F (zoom get put m) Q s.
Proof. unfold wp, zoom. by intros ->. Qed.

End wp.
