(* ===== verification/RustStd.v ===== *)
(** * The parts of Rust's standard library that the server relies on

    Byte search, ASCII case folding, decimal parsing and printing of machine
    integers, UTF-8 validation (strict and lossy), Unicode white space, and case
    conversion.  The case tables for characters outside ASCII are data of the
    standard library and stay abstract ([UnicodeCase]). *)

From S2P Require Import Prelude.

(** ** Searching CR LF

    [(0..buffer.len().saturating_sub(1)).find(|&i| buffer[i] == b'\r' &&
    buffer[i + 1] == b'\n')], the body of the [find_crlf] of the four parsers. *)

Definition crlf_at (buffer : bytes) (i : nat) : bool :=
  bool_decide (buffer !! i = Some CR) && bool_decide (buffer !! S i = Some LF).

Definition find_crlf (buffer : bytes) : option Z :=
  Z.of_nat <$> List.find (crlf_at buffer) (seq 0 (length buffer - 1)).

(** [buffer[i] != b'\r' || buffer[i + 1] != b'\n'], the second test only when the
    first one fails: how the memcached and RESP parsers check the end of a block. *)
Definition missing_crlf `{BuildProfile} (buffer : bytes) (i : Z) : comp bool :=
  c ← index buffer i;
  if bool_decide (c <> CR) then mret true
  else i' ← usize_add i 1; c' ← index buffer i'; mret (bool_decide (c' <> LF)).

(** ** ASCII *)

Definition byte_of_val (z : Z) : byte :=
  match Byte.of_N (Z.to_N z) with Some b => b | None => Byte.x00 end.

(** [u8::to_ascii_lowercase] *)
Definition ascii_lower (b : byte) : byte :=
  if (65 <=? byte_val b) && (byte_val b <=? 90) then byte_of_val (byte_val b + 32) else b.

Definition ascii_upper (b : byte) : byte :=
  if (97 <=? byte_val b) && (byte_val b <=? 122) then byte_of_val (byte_val b - 32) else b.

(** [<[u8]>::eq_ignore_ascii_case] and [str::eq_ignore_ascii_case] *)
Definition eq_ignore_ascii_case (a b : bytes) : bool :=
  bool_decide (map ascii_lower a = map ascii_lower b).

(** ** Decimal numbers *)

Definition digit (d : Z) : byte := byte_of_val (48 + d).

(** [n.to_string()] for a non-negative [n]; [2 ^ fuel > n] digits suffice. *)
Fixpoint dec_aux (fuel : nat) (n : Z) (acc : bytes) : bytes :=
  let acc' := digit (n mod 10) :: acc in
  match fuel with
  | O => acc'
  | S f => if n / 10 =? 0 then acc' else dec_aux f (n / 10) acc'
  end.

Definition dec (n : Z) : bytes := dec_aux (Z.to_nat (Z.log2 n)) n [].

(** [i64::to_string] *)
Definition dec_signed (n : Z) : bytes :=
  if n <? 0 then Byte.x2d :: dec (- n) else dec n.

Definition PLUS : byte := Byte.x2b.
Definition MINUS : byte := Byte.x2d.

(** The digit loop of [from_str_radix(_, 10)] with its checked multiply-and-add. *)
Fixpoint digits_up (max acc : Z) (l : bytes) : option Z :=
  match l with
  | [] => Some acc
  | b :: l' =>
      let d := byte_val b - 48 in
      if (0 <=? d) && (d <=? 9) then
        let acc' := acc * 10 + d in
        if acc' <=? max then digits_up max acc' l' else None
      else None
  end.

Fixpoint digits_down (min acc : Z) (l : bytes) : option Z :=
  match l with
  | [] => Some acc
  | b :: l' =>
      let d := byte_val b - 48 in
      if (0 <=? d) && (d <=? 9) then
        let acc' := acc * 10 - d in
        if min <=? acc' then digits_down min acc' l' else None
      else None
  end.

(** [str::parse] at an unsigned type: a leading [+] is accepted, a lone sign and
    the empty string are errors, and so is a value above [max]. *)
Definition parse_unsigned (max : Z) (s : bytes) : option Z :=
  match s with
  | [] => None
  | [b] => if bool_decide (b = PLUS) then None else digits_up max 0 s
  | b :: s' => if bool_decide (b = PLUS) then digits_up max 0 s' else digits_up max 0 s
  end.

Definition parse_u16 : bytes -> option Z := parse_unsigned 65535.
Definition parse_u32 : bytes -> option Z := parse_unsigned U32_MAX.
Definition parse_u64 : bytes -> option Z := parse_unsigned U64_MAX.
Definition parse_usize : bytes -> option Z := parse_unsigned USIZE_MAX.

(** [str::parse::<i64>] *)
Definition parse_i64 (s : bytes) : option Z :=
  match s with
  | [] => None
  | [b] => if bool_decide (b = PLUS) || bool_decide (b = MINUS) then None
           else digits_up I64_MAX 0 s
  | b :: s' =>
      if bool_decide (b = PLUS) then digits_up I64_MAX 0 s'
      else if bool_decide (b = MINUS) then digits_down I64_MIN 0 s'
      else digits_up I64_MAX 0 s
  end.

(** ** UTF-8

    [utf8_next] reads one character, or the maximal invalid prefix, of a byte
    sequence: the loop body of the standard library's validation and of
    [Utf8Chunks]. *)

Inductive chunk : Type :=
| Char (enc : bytes) (cp : Z)
| Bad (enc : bytes).

Definition chunk_bytes (c : chunk) : bytes :=
  match c with Char e _ => e | Bad e => e end.

Definition within (lo hi : Z) (b : byte) : bool :=
  (lo <=? byte_val b) && (byte_val b <=? hi).

Definition cont (b : byte) : bool := within 128 191 b.

(** Second byte of a three-byte and of a four-byte sequence. *)
Definition second3 (b0 b1 : byte) : bool :=
  (within 224 224 b0 && within 160 191 b1) || (within 225 236 b0 && within 128 191 b1)
  || (within 237 237 b0 && within 128 159 b1) || (within 238 239 b0 && within 128 191 b1).

Definition second4 (b0 b1 : byte) : bool :=
  (within 240 240 b0 && within 144 191 b1) || (within 241 243 b0 && within 128 191 b1)
  || (within 244 244 b0 && within 128 143 b1).

Definition cp2 (b0 b1 : byte) : Z :=
  Z.lor (Z.shiftl (Z.land (byte_val b0) 31) 6) (Z.land (byte_val b1) 63).
Definition cp3 (b0 b1 b2 : byte) : Z :=
  Z.lor (Z.shiftl (Z.land (byte_val b0) 15) 12)
    (Z.lor (Z.shiftl (Z.land (byte_val b1) 63) 6) (Z.land (byte_val b2) 63)).
Definition cp4 (b0 b1 b2 b3 : byte) : Z :=
  Z.lor (Z.shiftl (Z.land (byte_val b0) 7) 18)
    (Z.lor (Z.shiftl (Z.land (byte_val b1) 63) 12)
       (Z.lor (Z.shiftl (Z.land (byte_val b2) 63) 6) (Z.land (byte_val b3) 63))).

Definition utf8_next (l : bytes) : option (chunk * bytes) :=
  match l with
  | [] => None
  | b0 :: r0 => Some (
      if within 0 127 b0 then (Char [b0] (byte_val b0), r0)
      else if within 194 223 b0 then
        match r0 with
        | b1 :: r1 => if cont b1 then (Char [b0; b1] (cp2 b0 b1), r1) else (Bad [b0], r0)
        | [] => (Bad [b0], r0)
        end
      else if within 224 239 b0 then
        match r0 with
        | b1 :: r1 =>
            if second3 b0 b1 then
              match r1 with
              | b2 :: r2 => if cont b2 then (Char [b0; b1; b2] (cp3 b0 b1 b2), r2)
                            else (Bad [b0; b1], r1)
              | [] => (Bad [b0; b1], r1)
              end
            else (Bad [b0], r0)
        | [] => (Bad [b0], r0)
        end
      else if within 240 244 b0 then
        match r0 with
        | b1 :: r1 =>
            if second4 b0 b1 then
              match r1 with
              | b2 :: r2 =>
                  if cont b2 then
                    match r2 with
                    | b3 :: r3 => if cont b3 then (Char [b0; b1; b2; b3] (cp4 b0 b1 b2 b3), r3)
                                  else (Bad [b0; b1; b2], r2)
                    | [] => (Bad [b0; b1; b2], r2)
                    end
                  else (Bad [b0; b1], r1)
              | [] => (Bad [b0; b1], r1)
              end
            else (Bad [b0], r0)
        | [] => (Bad [b0], r0)
        end
      else (Bad [b0], r0))
  end.

(** Every step consumes at least one byte, so [length l] steps read all of [l]. *)
Fixpoint chunks_aux (fuel : nat) (l : bytes) : list chunk :=
  match fuel with
  | O => []
  | S f => match utf8_next l with
           | None => []
           | Some (c, r) => c :: chunks_aux f r
           end
  end.

Definition utf8_chunks (l : bytes) : list chunk := chunks_aux (length l) l.

Definition is_char (c : chunk) : bool := match c with Char _ _ => true | Bad _ => false end.

Definition valid_utf8 (l : bytes) : bool := forallb is_char (utf8_chunks l).

(** [str::from_utf8] *)
Definition from_utf8 (l : bytes) : option bytes := if valid_utf8 l then Some l else None.

(** [String::from_utf8_lossy]: an invalid chunk becomes U+FFFD. *)
Definition replacement : bytes := [Byte.xef; Byte.xbf; Byte.xbd].
Definition lossy_chunk (c : chunk) : bytes :=
  match c with Char e _ => e | Bad _ => replacement end.
Definition from_utf8_lossy (l : bytes) : bytes := concat (lossy_chunk <$> utf8_chunks l).

(** [char::encode_utf8] *)
Definition encode_char (cp : Z) : bytes :=
  if cp <? 128 then [byte_of_val cp]
  else if cp <? 2048 then
    [byte_of_val (192 + Z.shiftr cp 6); byte_of_val (128 + Z.land cp 63)]
  else if cp <? 65536 then
    [byte_of_val (224 + Z.shiftr cp 12); byte_of_val (128 + Z.land (Z.shiftr cp 6) 63);
     byte_of_val (128 + Z.land cp 63)]
  else
    [byte_of_val (240 + Z.shiftr cp 18); byte_of_val (128 + Z.land (Z.shiftr cp 12) 63);
     byte_of_val (128 + Z.land (Z.shiftr cp 6) 63); byte_of_val (128 + Z.land cp 63)].

(** [char::is_whitespace]: the Unicode property White_Space. *)
Definition is_whitespace (cp : Z) : bool :=
  ((9 <=? cp) && (cp <=? 13)) || (cp =? 32) || (cp =? 133) || (cp =? 160) || (cp =? 5760)
  || ((8192 <=? cp) && (cp <=? 8202)) || (cp =? 8232) || (cp =? 8233) || (cp =? 8239)
  || (cp =? 8287) || (cp =? 12288).

Definition chunk_ws (c : chunk) : bool :=
  match c with Char _ cp => is_whitespace cp | Bad _ => false end.

(** [str::split_whitespace]: the maximal runs of other characters. *)
Definition flush_word (cur : bytes) : list bytes :=
  match cur with [] => [] | _ => [cur] end.

Fixpoint split_ws (cur : bytes) (cs : list chunk) : list bytes :=
  match cs with
  | [] => flush_word cur
  | c :: cs' => if chunk_ws c then flush_word cur ++ split_ws [] cs'
                else split_ws (cur ++ chunk_bytes c) cs'
  end.

Definition split_whitespace (s : bytes) : list bytes := split_ws [] (utf8_chunks s).

(** [str::trim] *)
Fixpoint drop_ws (cs : list chunk) : list chunk :=
  match cs with
  | c :: cs' => if chunk_ws c then drop_ws cs' else cs
  | [] => []
  end.

Definition trim (s : bytes) : bytes :=
  concat (chunk_bytes <$> rev (drop_ws (rev (drop_ws (utf8_chunks s))))).

(** ** Case conversion

    [lower_nonascii before c after] is [str::to_lowercase]'s image of the character
    [c], which may depend on its context (final sigma); [upper_nonascii c] is
    [char::to_uppercase].  Both are only used above U+007F. *)

Class UnicodeCase := {
  lower_nonascii : list Z -> Z -> list Z -> list Z;
  upper_nonascii : Z -> list Z
}.

Definition chunk_cp (c : chunk) : Z := match c with Char _ cp => cp | Bad _ => 65533 end.

Fixpoint lower_chars `{UnicodeCase} (before : list Z) (cs : list chunk) : bytes :=
  match cs with
  | [] => []
  | c :: cs' =>
      (if chunk_cp c <? 128 then map ascii_lower (chunk_bytes c)
       else concat (encode_char <$> lower_nonascii before (chunk_cp c) (chunk_cp <$> cs')))
      ++ lower_chars (before ++ [chunk_cp c]) cs'
  end.

(** [str::to_lowercase] *)
Definition to_lowercase `{UnicodeCase} (s : bytes) : bytes := lower_chars [] (utf8_chunks s).

Definition upper_chunk `{UnicodeCase} (c : chunk) : bytes :=
  if chunk_cp c <? 128 then map ascii_upper (chunk_bytes c)
  else concat (encode_char <$> upper_nonascii (chunk_cp c)).

(** [str::to_uppercase] *)
Definition to_uppercase `{UnicodeCase} (s : bytes) : bytes :=
  concat (upper_chunk <$> utf8_chunks s).
