(* ===== verification/RustStdFacts.v ===== *)
(** * Facts about the standard-library model

    CR LF search, decimal round trips, compositionality of UTF-8 decoding and of
    white-space splitting: what the protocol proofs use. *)

From S2P Require Import Prelude RustStd.

(** ** CR LF search *)

Lemma find_seq_Some (f : nat -> bool) a k i :
  List.find f (seq a k) = Some i <->
  (a <= i < a + k)%nat /\ f i = true /\ forall j, (a <= j < i)%nat -> f j = false.
Proof.
  revert a. induction k as [|k IH]; intros a; simpl.
  - split; [done|]. lia.
  - destruct (f a) eqn:E.
    + split; [intros [= <-]; split; [lia|split; [done|intros; lia]]|].
      intros (? & ? & Hj). destruct (decide (a = i)) as [->|]; [done|].
      rewrite (Hj a) in E by lia. done.
    + rewrite IH. split; intros (? & Hf & Hj).
      * split_and!; [lia..|done|]. intros j ?. destruct (decide (j = a)) as [->|]; [done|].
        apply Hj. lia.
      * assert (a <> i) by congruence. split_and!; [lia..|done|]. intros; apply Hj; lia.
Qed.

Lemma crlf_at_true l i : crlf_at l i = true <-> l !! i = Some CR /\ l !! S i = Some LF.
Proof. unfold crlf_at. rewrite andb_true_iff, !bool_decide_eq_true. done. Qed.

Lemma crlf_at_bound l i : crlf_at l i = true -> (S i < length l)%nat.
Proof. rewrite crlf_at_true. intros [_ H]. by apply lookup_lt_Some in H. Qed.

Lemma find_crlf_Some l z :
  find_crlf l = Some z <->
  exists n, z = Z.of_nat n /\ crlf_at l n = true /\ forall j, (j < n)%nat -> crlf_at l j = false.
Proof.
  unfold find_crlf. rewrite fmap_Some. split.
  - intros (n & Hf & ->). apply find_seq_Some in Hf as (? & ? & Hj).
    exists n. split_and!; [done..|]. intros; apply Hj; lia.
  - intros (n & -> & Hn & Hj). exists n. split; [|done].
    apply find_seq_Some. pose proof (crlf_at_bound _ _ Hn).
    split_and!; [lia..|done|]. intros; apply Hj; lia.
Qed.

Lemma find_crlf_None l : find_crlf l = None <-> forall j, crlf_at l j = false.
Proof.
  unfold find_crlf. rewrite fmap_None. split.
  - intros Hn j. destruct (crlf_at l j) eqn:E; [|done].
    pose proof (crlf_at_bound _ _ E).
    rewrite <- E. apply (List.find_none _ _ Hn), in_seq. lia.
  - intros Hj. destruct (List.find _ _) eqn:E; [|done].
    apply List.find_some in E as [_ E]. by rewrite Hj in E.
Qed.

Lemma crlf_at_app l k i : (S i < length l)%nat -> crlf_at (l ++ k) i = crlf_at l i.
Proof. intros. unfold crlf_at. by rewrite !lookup_app_l by lia. Qed.

Lemma find_crlf_app l k z : find_crlf l = Some z -> find_crlf (l ++ k) = Some z.
Proof.
  rewrite !find_crlf_Some. intros (n & -> & Hn & Hj). exists n.
  pose proof (crlf_at_bound _ _ Hn).
  split_and!; [done| by rewrite crlf_at_app by lia |].
  intros. rewrite crlf_at_app by lia. by apply Hj.
Qed.

Lemma find_crlf_line line rest :
  find_crlf line = None -> find_crlf (line ++ crlf ++ rest) = Some (len line).
Proof.
  rewrite find_crlf_None, find_crlf_Some. intros Hn. exists (length line). split_and!; [done| |].
  - apply crlf_at_true. rewrite !(lookup_app_r line) by lia.
    replace (S (length line) - length line)%nat with 1%nat by lia.
    by rewrite Nat.sub_diag.
  - intros j Hj. destruct (crlf_at (line ++ _) j) eqn:E; [|done].
    destruct (decide (S j < length line)%nat).
    { rewrite crlf_at_app in E by lia. by rewrite Hn in E. }
    apply crlf_at_true in E as [_ E]. rewrite lookup_app_r in E by lia.
    replace (S j - length line)%nat with 0%nat in E by lia. done.
Qed.

Lemma find_crlf_split l z :
  find_crlf l = Some z ->
  exists line rest, l = line ++ crlf ++ rest /\ z = len line /\ find_crlf line = None.
Proof.
  rewrite find_crlf_Some. intros (n & -> & Hn & Hj).
  pose proof (crlf_at_bound _ _ Hn). apply crlf_at_true in Hn as [H1 H2].
  exists (take n l), (drop (S (S n)) l). split_and!.
  - apply take_drop_middle in H1 as E1. apply take_drop_middle in H2 as E2.
    rewrite <- E1 at 1. f_equal. unfold crlf. simpl. f_equal.
    by rewrite (drop_S _ _ _ H2).
  - unfold len. rewrite length_take_le by lia. done.
  - apply find_crlf_None. intros j. destruct (crlf_at _ j) eqn:E; [|done].
    pose proof (crlf_at_bound _ _ E) as Hb. rewrite length_take_le in Hb by lia.
    rewrite <- (Hj j), <- E by lia. unfold crlf_at. by rewrite !lookup_take_lt by lia.
Qed.

Lemma find_crlf_bound l z : find_crlf l = Some z -> 0 <= z /\ z + 2 <= len l.
Proof.
  intros (line & rest & -> & -> & _)%find_crlf_split. autorewrite with cache.
  unfold crlf. autorewrite with cache. pose proof (len_nonneg line). pose proof (len_nonneg rest). lia.
Qed.

(** ** Decimal round trips *)

Lemma byte_of_val_val z : 0 <= z <= 255 -> byte_val (byte_of_val z) = z.
Proof.
  intros Hz. unfold byte_val, byte_of_val.
  destruct (Byte.of_N (Z.to_N z)) as [b|] eqn:E.
  - apply Byte.to_of_N in E. rewrite E. lia.
  - apply Byte.of_N_None_iff in E. lia.
Qed.

Lemma byte_val_range b : 0 <= byte_val b <= 255.
Proof. unfold byte_val. pose proof (Byte.to_N_bounded b). lia. Qed.

Lemma digit_val d : 0 <= d <= 9 -> byte_val (digit d) = 48 + d.
Proof. intros. apply byte_of_val_val. lia. Qed.

Lemma dec_aux_acc f n acc : dec_aux f n acc = dec_aux f n [] ++ acc.
Proof.
  revert n acc. induction f as [|f IH]; intros n acc; simpl; [done|].
  destruct (n / 10 =? 0); [done|]. rewrite IH, (IH _ [_]), <- app_assoc. done.
Qed.

Lemma digits_up_digit max acc d l :
  0 <= d <= 9 -> acc * 10 + d <= max ->
  digits_up max acc (digit d :: l) = digits_up max (acc * 10 + d) l.
Proof.
  intros. cbn [digits_up]. rewrite digit_val by lia. replace (48 + d - 48) with d by lia.
  rewrite (proj2 (Z.leb_le 0 d)), (proj2 (Z.leb_le d 9)) by lia. cbn [andb].
  by rewrite (proj2 (Z.leb_le (acc * 10 + d) max)) by lia.
Qed.

Lemma digits_down_digit min acc d l :
  0 <= d <= 9 -> min <= acc * 10 - d ->
  digits_down min acc (digit d :: l) = digits_down min (acc * 10 - d) l.
Proof.
  intros. cbn [digits_down]. rewrite digit_val by lia. replace (48 + d - 48) with d by lia.
  rewrite (proj2 (Z.leb_le 0 d)), (proj2 (Z.leb_le d 9)) by lia. cbn [andb].
  by rewrite (proj2 (Z.leb_le min (acc * 10 - d))) by lia.
Qed.

(** Splitting off the last decimal digit. *)
Lemma last_digit f n :
  0 <= n < 2 ^ (Z.of_nat (S f) + 1) ->
  0 <= n mod 10 <= 9 /\ n = n / 10 * 10 + n mod 10 /\ 0 <= n / 10 < 2 ^ (Z.of_nat f + 1).
Proof.
  intros Hf. pose proof (Z.div_mod n 10 ltac:(lia)). pose proof (Z.mod_pos_bound n 10 ltac:(lia)).
  rewrite Nat2Z.inj_succ, Z.add_succ_l, Z.pow_succ_r in Hf by lia.
  assert (0 <= n / 10) by (apply Z.div_pos; lia). lia.
Qed.

Lemma digits_up_dec_aux max f n l :
  0 <= n <= max -> n < 2 ^ (Z.of_nat f + 1) ->
  digits_up max 0 (dec_aux f n l) = digits_up max n l.
Proof.
  revert n l. induction f as [|f IH]; intros n l Hm Hf; cbn [dec_aux].
  - assert (n = 0 \/ n = 1) as [-> | ->] by (simpl in Hf; lia);
      (change (0 mod 10) with 0 || change (1 mod 10) with 1);
      rewrite digits_up_digit by lia; done.
  - destruct (last_digit f n) as (? & ? & ?); [lia|].
    destruct (n / 10 =? 0) eqn:E; boolify; [|rewrite IH by lia];
      rewrite digits_up_digit by lia; f_equal; lia.
Qed.

Lemma digits_down_dec_aux min f n l :
  0 <= n <= - min -> n < 2 ^ (Z.of_nat f + 1) ->
  digits_down min 0 (dec_aux f n l) = digits_down min (- n) l.
Proof.
  revert n l. induction f as [|f IH]; intros n l Hm Hf; cbn [dec_aux].
  - assert (n = 0 \/ n = 1) as [-> | ->] by (simpl in Hf; lia);
      (change (0 mod 10) with 0 || change (1 mod 10) with 1);
      rewrite digits_down_digit by lia; done.
  - destruct (last_digit f n) as (? & ? & ?); [lia|].
    destruct (n / 10 =? 0) eqn:E; boolify; [|rewrite IH by lia];
      rewrite digits_down_digit by lia; f_equal; lia.
Qed.

Lemma dec_fuel n : 0 <= n -> n < 2 ^ (Z.of_nat (Z.to_nat (Z.log2 n)) + 1).
Proof.
  intros. destruct (decide (n = 0)) as [->|]; [done|].
  pose proof (Z.log2_nonneg n). rewrite Z2Nat.id by lia.
  pose proof (Z.log2_spec n ltac:(lia)). unfold Z.succ in *. lia.
Qed.

Lemma digits_up_dec max n : 0 <= n <= max -> digits_up max 0 (dec n) = Some n.
Proof. intros. unfold dec. rewrite digits_up_dec_aux; [done|lia|]. apply dec_fuel. lia. Qed.

Lemma digits_down_dec min n : 0 <= n <= - min -> digits_down min 0 (dec n) = Some (- n).
Proof. intros. unfold dec. rewrite digits_down_dec_aux; [done|lia|]. apply dec_fuel. lia. Qed.

Definition is_digit (b : byte) : bool := within 48 57 b.

Lemma dec_aux_digits f n : 0 <= n -> Forall (fun b => is_digit b = true) (dec_aux f n []).
Proof.
  revert n. assert (Hd : forall n, is_digit (digit (n mod 10)) = true).
  { intros n. pose proof (Z.mod_pos_bound n 10 ltac:(lia)). unfold is_digit, within.
    rewrite digit_val by lia. apply andb_true_iff. rewrite !Z.leb_le. lia. }
  induction f as [|f IH]; intros n Hn; cbn [dec_aux]; [by repeat constructor|].
  destruct (n / 10 =? 0); [by repeat constructor|].
  rewrite dec_aux_acc. apply Forall_app. split; [|by repeat constructor].
  apply IH. apply Z.div_pos; lia.
Qed.

Lemma dec_digits n : 0 <= n -> Forall (fun b => is_digit b = true) (dec n).
Proof. apply dec_aux_digits. Qed.

Lemma dec_nonempty n : dec n <> [].
Proof.
  unfold dec. generalize (Z.to_nat (Z.log2 n)) as f. intros [|f]; cbn [dec_aux]; [done|].
  destruct (_ =? 0); [done|]. rewrite dec_aux_acc. intros [_ ?]%app_nil. done.
Qed.

Lemma is_digit_not_sign b : is_digit b = true -> b <> PLUS /\ b <> MINUS.
Proof. intros H. split; intros ->; vm_compute in H; done. Qed.

Lemma parse_unsigned_digits max s :
  s <> [] -> Forall (fun b => is_digit b = true) s -> parse_unsigned max s = digits_up max 0 s.
Proof.
  intros Hne Hd. destruct s as [|b [|c s]]; [done|..]; simpl.
  all: rewrite bool_decide_eq_false_2 by (apply is_digit_not_sign; by inversion Hd); done.
Qed.

(** Printing then parsing an unsigned machine integer. *)
Lemma parse_unsigned_dec max n : 0 <= n <= max -> parse_unsigned max (dec n) = Some n.
Proof.
  intros. rewrite parse_unsigned_digits.
  - apply digits_up_dec. lia.
  - apply dec_nonempty.
  - apply dec_digits. lia.
Qed.

(** Printing then parsing a signed machine integer. *)
Lemma parse_i64_dec n : I64_MIN <= n <= I64_MAX -> parse_i64 (dec_signed n) = Some n.
Proof.
  intros Hn. unfold dec_signed. destruct (n <? 0) eqn:E; boolify.
  - pose proof (digits_down_dec I64_MIN (- n) ltac:(lia)) as H.
    pose proof (dec_nonempty (- n)). simpl. destruct (dec (- n)) as [|c l]; [done|].
    rewrite H. f_equal. lia.
  - pose proof (digits_up_dec I64_MAX n ltac:(lia)) as H.
    pose proof (dec_nonempty n). pose proof (dec_digits n ltac:(lia)) as Hd.
    destruct (dec n) as [|b l]; [done|].
    apply Forall_cons in Hd as [[Hp Hm]%is_digit_not_sign _]. unfold parse_i64.
    rewrite (bool_decide_eq_false_2 _ Hp), (bool_decide_eq_false_2 _ Hm). cbn [orb].
    destruct l; exact H.
Qed.

(** ** UTF-8 decoding *)

(** Split every test of [utf8_next] in a hypothesis. *)
Ltac utf8_cases H :=
  repeat (simplify_eq; match type of H with
  | context [if ?b then _ else _] => destruct b eqn:?
  | context [match ?r with [] => _ | _ :: _ => _ end] => destruct r
  end).

(** A chunk is a non-empty prefix of the input. *)
Lemma utf8_next_bytes l c r :
  utf8_next l = Some (c, r) -> l = chunk_bytes c ++ r /\ chunk_bytes c <> [].
Proof.
  destruct l as [|b0 l]; [done|]. unfold utf8_next. intros [= H].
  utf8_cases H; by inversion H.
Qed.

(** A complete character does not depend on what follows it. *)
Lemma utf8_next_app l k e cp r :
  utf8_next l = Some (Char e cp, r) -> utf8_next (l ++ k) = Some (Char e cp, r ++ k).
Proof.
  destruct l as [|b0 l]; [done|]. unfold utf8_next. intros [= H]. simpl. f_equal.
  utf8_cases H; inversion H; subst; simpl;
    repeat match goal with E : ?b = true |- _ => rewrite E end; done.
Qed.

(** The bytes of a character other than an ASCII one are all above 127. *)
Lemma utf8_next_char l e cp r :
  utf8_next l = Some (Char e cp, r) ->
  (exists b, e = [b] /\ cp = byte_val b /\ byte_val b <= 127)
  \/ Forall (fun b => 128 <= byte_val b) e.
Proof.
  destruct l as [|b0 l]; [done|]. unfold utf8_next. intros [= H].
  utf8_cases H; inversion H; subst;
    unfold second3, second4, cont, within in *; rewrite ?orb_true_iff in *;
    rewrite ?andb_true_iff, ?Z.leb_le in *; [left; exists b0; split_and!; [done..|lia]|right..];
    repeat constructor; lia.
Qed.

Lemma chunks_aux_fuel f l : (length l <= f)%nat -> chunks_aux f l = utf8_chunks l.
Proof.
  unfold utf8_chunks. remember (length l) as n eqn:Hn. revert f l Hn.
  induction n as [n IH] using lt_wf_ind. intros f l -> Hf.
  destruct l as [|b l]; [by destruct f|].
  destruct f as [|f]; [simpl in Hf; lia|]. cbn [chunks_aux length].
  destruct (utf8_next (b :: l)) as [[c r]|] eqn:E; [|done]. f_equal.
  apply utf8_next_bytes in E as [Hl Hc].
  assert (length r <= length l)%nat.
  { apply (f_equal length) in Hl. rewrite length_app in Hl.
    destruct (chunk_bytes c); [done|]. simpl in Hl. lia. }
  rewrite (IH (length r)); [|simpl; lia|done|simpl in Hf; lia].
  rewrite (IH (length r) ltac:(simpl; lia) (length l)); [done|done|lia].
Qed.

Lemma utf8_chunks_cons l c r :
  utf8_next l = Some (c, r) -> utf8_chunks l = c :: utf8_chunks r.
Proof.
  intros E. apply utf8_next_bytes in E as H. destruct H as [Hl Hc].
  unfold utf8_chunks at 1. destruct l as [|b l]; [by destruct (chunk_bytes c)|].
  cbn [length chunks_aux]. rewrite E. f_equal. apply chunks_aux_fuel.
  apply (f_equal length) in Hl. rewrite length_app in Hl.
  destruct (chunk_bytes c); [done|]. simpl in Hl. lia.
Qed.

(** Induction along the chunks of a byte sequence. *)
Lemma utf8_ind (P : bytes -> Prop) :
  P [] -> (forall l c r, utf8_next l = Some (c, r) -> P r -> P l) -> forall l, P l.
Proof.
  intros H0 HS l. remember (length l) as n eqn:Hn. revert l Hn.
  induction n as [n IH] using lt_wf_ind. intros l ->.
  destruct (utf8_next l) as [[c r]|] eqn:E; [|by destruct l].
  apply (HS l c r E). apply utf8_next_bytes in E as [Hl Hc].
  apply (IH (length r)); [|done]. rewrite Hl, length_app.
  destruct (chunk_bytes c); [done|]. simpl. lia.
Qed.

Lemma utf8_chunks_bytes l : concat (chunk_bytes <$> utf8_chunks l) = l.
Proof.
  induction l as [|l c r E IH] using utf8_ind; [done|].
  rewrite (utf8_chunks_cons _ _ _ E). csimpl. rewrite IH.
  by apply utf8_next_bytes in E as [<- _].
Qed.

Lemma valid_utf8_cons l c r :
  utf8_next l = Some (c, r) -> valid_utf8 l = is_char c && valid_utf8 r.
Proof. intros E. unfold valid_utf8. by rewrite (utf8_chunks_cons _ _ _ E). Qed.

Lemma utf8_chunks_app l k :
  valid_utf8 l = true -> utf8_chunks (l ++ k) = utf8_chunks l ++ utf8_chunks k.
Proof.
  induction l as [|l c r E IH] using utf8_ind; [done|]. intros Hv.
  rewrite (valid_utf8_cons _ _ _ E) in Hv. boolify. destruct c; [|done].
  rewrite (utf8_chunks_cons _ _ _ E), (utf8_chunks_cons _ _ _ (utf8_next_app _ k _ _ _ E)).
  by rewrite IH.
Qed.

Lemma valid_utf8_app l k : valid_utf8 l = true -> valid_utf8 (l ++ k) = valid_utf8 k.
Proof.
  intros Hv. unfold valid_utf8 at 1. rewrite utf8_chunks_app, forallb_app by done.
  unfold valid_utf8 in Hv. by rewrite Hv.
Qed.

Lemma from_utf8_valid l s : from_utf8 l = Some s -> s = l /\ valid_utf8 l = true.
Proof. unfold from_utf8. destruct (valid_utf8 l); [|done]. by intros [= ->]. Qed.

(** Lossy conversion is the identity on valid UTF-8. *)
Lemma from_utf8_lossy_valid l : valid_utf8 l = true -> from_utf8_lossy l = l.
Proof.
  unfold valid_utf8, from_utf8_lossy. intros Hv. rewrite <- (utf8_chunks_bytes l) at 2.
  f_equal. induction (utf8_chunks l) as [|c cs IH]; [done|]. csimpl in *. boolify.
  rewrite IH by done. by destruct c.
Qed.

(** ** ASCII strings *)

Definition is_ascii (b : byte) : bool := within 0 127 b.
Definition ascii_chunk (b : byte) : chunk := Char [b] (byte_val b).

Lemma ascii_chunks l :
  forallb is_ascii l = true -> utf8_chunks l = ascii_chunk <$> l.
Proof.
  induction l as [|b l IH]; [done|]. simpl. intros H. boolify.
  rewrite (utf8_chunks_cons (b :: l) (ascii_chunk b) l); [by rewrite IH|].
  simpl. unfold is_ascii in *. by rewrite H.
Qed.

Lemma ascii_valid l : forallb is_ascii l = true -> valid_utf8 l = true.
Proof.
  intros H. unfold valid_utf8. rewrite ascii_chunks by done.
  clear H. by induction l.
Qed.

Lemma ascii_cp b : is_ascii b = true -> (byte_val b <? 128) = true.
Proof. unfold is_ascii, within. intros. boolify. apply Z.ltb_lt. lia. Qed.

Lemma ascii_to_lowercase `{UnicodeCase} l :
  forallb is_ascii l = true -> to_lowercase l = map ascii_lower l.
Proof.
  intros Ha. unfold to_lowercase. rewrite ascii_chunks by done. generalize (@nil Z) as before.
  induction l as [|b l IH]; intros before; [done|]. simpl in *. boolify.
  rewrite ascii_cp by done. simpl. f_equal. by apply IH.
Qed.

Lemma ascii_to_uppercase `{UnicodeCase} l :
  forallb is_ascii l = true -> to_uppercase l = map ascii_upper l.
Proof.
  intros Ha. unfold to_uppercase. rewrite ascii_chunks by done.
  induction l as [|b l IH]; [done|]. simpl in *. boolify.
  unfold upper_chunk at 1. simpl. rewrite ascii_cp by done. simpl. f_equal. by apply IH.
Qed.

(** ** White-space splitting *)

(** A word: non-empty valid UTF-8 without white space. *)
Definition is_word (w : bytes) : bool :=
  bool_decide (w <> []) && valid_utf8 w && forallb (fun c => negb (chunk_ws c)) (utf8_chunks w).

(** Words separated by single spaces. *)
Definition SP : byte := Byte.x20.
Fixpoint unwords (ws : list bytes) : bytes :=
  match ws with
  | [] => []
  | [w] => w
  | w :: ws' => w ++ SP :: unwords ws'
  end.

Lemma is_word_inv w :
  is_word w = true ->
  w <> [] /\ valid_utf8 w = true /\ Forall (fun c => chunk_ws c = false) (utf8_chunks w).
Proof.
  unfold is_word. intros H. boolify. split_and!; [done..|].
  apply Forall_forall. intros c Hc. eapply forallb_forall in H0; [|by apply list_elem_of_In].
  by boolify.
Qed.

Lemma split_ws_app cur cs cs' :
  Forall (fun c => chunk_ws c = false) cs ->
  split_ws cur (cs ++ cs') = split_ws (cur ++ concat (chunk_bytes <$> cs)) cs'.
Proof.
  intros H. revert cur. induction H as [|c cs Hc _ IH]; intros cur; simpl.
  - by rewrite app_nil_r.
  - rewrite Hc, IH, <- app_assoc. done.
Qed.

Lemma split_ws_word w cs :
  is_word w = true -> split_ws [] (utf8_chunks w ++ cs) = split_ws w cs.
Proof.
  intros (_ & _ & Hc)%is_word_inv. rewrite split_ws_app by done. by rewrite utf8_chunks_bytes.
Qed.

Lemma space_chunks l : utf8_chunks (SP :: l) = ascii_chunk SP :: utf8_chunks l.
Proof. by apply utf8_chunks_cons. Qed.

Lemma split_whitespace_unwords ws :
  Forall (fun w => is_word w = true) ws -> split_whitespace (unwords ws) = ws.
Proof.
  unfold split_whitespace. induction 1 as [|w ws Hw Hws IH]; [done|].
  pose proof (is_word_inv _ Hw) as (Hne & Hv & _).
  assert (Hf : flush_word w = [w]) by by destruct w.
  destruct ws as [|w' ws].
  - cbn [unwords]. rewrite <- (app_nil_r (utf8_chunks w)), split_ws_word by done. done.
  - cbn [unwords]. rewrite utf8_chunks_app, split_ws_word, space_chunks by done.
    cbn [split_ws]. change (chunk_ws (ascii_chunk SP)) with true. cbn iota.
    fold unwords. rewrite Hf. simpl. f_equal. apply IH.
Qed.

Lemma valid_unwords ws : Forall (fun w => is_word w = true) ws -> valid_utf8 (unwords ws) = true.
Proof.
  induction 1 as [|w ws Hw Hws IH]; [done|].
  pose proof (is_word_inv _ Hw) as (_ & Hv & _). destruct ws as [|w' ws]; [done|].
  cbn [unwords]. rewrite valid_utf8_app by done. unfold valid_utf8. rewrite space_chunks. exact IH.
Qed.

(** A word holds no ASCII white space byte. *)
Lemma word_no_ws w b :
  is_word w = true -> byte_val b <= 127 -> is_whitespace (byte_val b) = true -> b ∉ w.
Proof.
  intros (_ & Hv & Hc)%is_word_inv Hb Hw. revert Hv Hc.
  induction w as [|w c r E IH] using utf8_ind; [by intros _ _ ?%not_elem_of_nil|].
  rewrite (valid_utf8_cons _ _ _ E), (utf8_chunks_cons _ _ _ E). intros Hv Hc. boolify.
  apply Forall_cons in Hc as [Hc Hcs]. destruct c as [e cp|]; [|done].
  apply utf8_next_char in E as Hch. apply utf8_next_bytes in E as [-> _].
  rewrite elem_of_app. intros [Hin|Hin]; [|by apply IH]. simpl in Hin.
  destruct Hch as [(b' & -> & -> & _)|Hch].
  - apply list_elem_of_singleton in Hin as ->. simpl in Hc. congruence.
  - rewrite Forall_forall in Hch. specialize (Hch _ Hin). lia.
Qed.

Lemma unwords_no_lf ws : Forall (fun w => is_word w = true) ws -> LF ∉ unwords ws.
Proof.
  induction 1 as [|w ws Hw Hws IH]; [apply not_elem_of_nil|].
  pose proof (word_no_ws w LF Hw ltac:(done) eq_refl) as Hlf.
  destruct ws as [|w' ws]; [done|]. cbn [unwords]. rewrite elem_of_app, elem_of_cons.
  intros [?|[?|?]]; [done|done|]. by apply IH.
Qed.

Lemma no_lf_find_crlf l : LF ∉ l -> find_crlf l = None.
Proof.
  intros Hl. apply find_crlf_None. intros j. destruct (crlf_at l j) eqn:E; [|done].
  apply crlf_at_true in E as [_ E]. apply list_elem_of_lookup_2 in E. done.
Qed.

Lemma digits_word s :
  s <> [] -> Forall (fun b => is_digit b = true) s -> is_word s = true.
Proof.
  intros Hne Hd. assert (Ha : forallb is_ascii s = true).
  { apply forallb_forall. intros b Hb%list_elem_of_In. rewrite Forall_forall in Hd.
    specialize (Hd b Hb). unfold is_digit, is_ascii, within in *. boolify.
    apply andb_true_iff. rewrite !Z.leb_le. lia. }
  unfold is_word. rewrite bool_decide_eq_true_2 by done. rewrite ascii_valid by done.
  rewrite ascii_chunks by done. simpl. apply forallb_forall.
  intros c (b & -> & Hb)%list_elem_of_In%list_elem_of_fmap.
  rewrite Forall_forall in Hd. specialize (Hd b Hb). simpl.
  unfold is_digit, within in Hd. boolify. unfold is_whitespace.
  repeat match goal with |- context [?x =? ?y] => rewrite (proj2 (Z.eqb_neq x y)) by lia end.
  rewrite (proj2 (Z.leb_gt (byte_val b) 13)), (proj2 (Z.leb_gt 8192 (byte_val b))) by lia.
  by rewrite andb_false_r.
Qed.

Lemma dec_word n : 0 <= n -> is_word (dec n) = true.
Proof. intros. apply digits_word; [apply dec_nonempty|by apply dec_digits]. Qed.

(** ** [split_whitespace] yields words *)

(** A chunk that is a character, decoded on its own. *)
Definition whole_char (c : chunk) : Prop :=
  match c with Char e cp => utf8_next e = Some (Char e cp, []) | Bad _ => False end.

Lemma utf8_next_whole l e cp r :
  utf8_next l = Some (Char e cp, r) -> utf8_next e = Some (Char e cp, []).
Proof.
  destruct l as [|b0 l]; [done|]. unfold utf8_next. intros [= H].
  utf8_cases H; inversion H; subst;
    repeat match goal with E : ?b = _ |- _ => rewrite E end; done.
Qed.

Lemma valid_whole l : valid_utf8 l = true -> Forall whole_char (utf8_chunks l).
Proof.
  induction l as [|l c r E IH] using utf8_ind; [by constructor|].
  rewrite (valid_utf8_cons _ _ _ E), (utf8_chunks_cons _ _ _ E). intros H. boolify.
  constructor; [|by apply IH]. destruct c; [|done]. by eapply utf8_next_whole.
Qed.

(** Concatenating characters and decoding again is the identity. *)
Lemma chunks_concat cs :
  Forall whole_char cs -> utf8_chunks (concat (chunk_bytes <$> cs)) = cs.
Proof.
  induction 1 as [|c cs Hc _ IH]; [done|]. csimpl.
  destruct c as [e cp|]; [|done]. simpl in Hc.
  rewrite (utf8_chunks_cons _ (Char e cp) (concat (chunk_bytes <$> cs))); [by rewrite IH|].
  by apply utf8_next_app with (k := concat (chunk_bytes <$> cs)) in Hc.
Qed.

Lemma chunks_word cs :
  Forall whole_char cs -> Forall (fun c => chunk_ws c = false) cs -> cs <> [] ->
  is_word (concat (chunk_bytes <$> cs)) = true.
Proof.
  intros Hw Hs Hne. unfold is_word, valid_utf8. rewrite chunks_concat by done.
  rewrite !andb_true_iff. split_and!.
  - apply bool_decide_eq_true_2. intros E. apply (f_equal utf8_chunks) in E.
    rewrite chunks_concat in E; done.
  - apply forallb_forall. intros c Hc%list_elem_of_In. rewrite Forall_forall in Hw.
    specialize (Hw c Hc). by destruct c.
  - apply forallb_forall. intros c Hc%list_elem_of_In. rewrite Forall_forall in Hs.
    by rewrite (Hs c Hc).
Qed.

Lemma flush_word_words cs :
  Forall whole_char cs -> Forall (fun c => chunk_ws c = false) cs ->
  Forall (fun w => is_word w = true) (flush_word (concat (chunk_bytes <$> cs))).
Proof.
  intros Hw Hs. destruct cs as [|c cs]; [constructor|].
  pose proof (chunks_word (c :: cs) Hw Hs ltac:(done)) as H.
  destruct (concat _) eqn:E; [done|]. by repeat constructor.
Qed.

Lemma split_ws_words pre cs :
  Forall whole_char pre -> Forall (fun c => chunk_ws c = false) pre -> Forall whole_char cs ->
  Forall (fun w => is_word w = true) (split_ws (concat (chunk_bytes <$> pre)) cs).
Proof.
  intros Hw Hs Hcs. revert pre Hw Hs. induction Hcs as [|c cs Hc _ IH]; intros pre Hw Hs; simpl.
  - by apply flush_word_words.
  - destruct (chunk_ws c) eqn:E.
    + apply Forall_app. split; [by apply flush_word_words|]. by apply (IH []).
    + replace (concat (chunk_bytes <$> pre) ++ chunk_bytes c)
        with (concat (chunk_bytes <$> (pre ++ [c]))).
      * apply IH; by apply Forall_app_2; [|repeat constructor].
      * rewrite fmap_app, concat_app. simpl. by rewrite app_nil_r.
Qed.

Lemma split_whitespace_words s :
  valid_utf8 s = true -> Forall (fun w => is_word w = true) (split_whitespace s).
Proof. intros H. apply (split_ws_words []); [constructor..|]. by apply valid_whole. Qed.

(** ** The end of a block *)

Lemma missing_crlf_eq `{BuildProfile} buf i :
  0 <= i -> i + 2 <= len buf -> i + 1 <= USIZE_MAX ->
  missing_crlf buf i = Val (negb (bool_decide (take 2 (drop (Z.to_nat i) buf) = crlf))).
Proof.
  unfold len. intros H0 Hi Hm. unfold missing_crlf, index.
  rewrite usize_add_small by done. rewrite (proj2 (Z.ltb_ge i 0)) by lia.
  destruct (lookup_lt_is_Some_2 buf (Z.to_nat i) ltac:(lia)) as [x Hx].
  destruct (lookup_lt_is_Some_2 buf (S (Z.to_nat i)) ltac:(lia)) as [y Hy].
  rewrite Hx. simpl. rewrite (proj2 (Z.ltb_ge (i + 1) 0)) by lia.
  replace (Z.to_nat (i + 1)) with (S (Z.to_nat i)) by lia. rewrite Hy.
  rewrite (drop_S buf x) by done. rewrite (drop_S buf y) by done.
  unfold crlf. simpl. rewrite take_0. repeat case_bool_decide; simplify_eq; done.
Qed.

(** ** Ranges of parsed numbers *)

Lemma digits_up_range max acc l n : 0 <= acc <= max -> digits_up max acc l = Some n -> 0 <= n <= max.
Proof.
  revert acc. induction l as [|b l IH]; intros acc Ha; cbn [digits_up]; [by intros [= <-]|].
  destruct (_ && _) eqn:E; [|done]. destruct (_ <=? max) eqn:E'; [|done]. boolify.
  apply IH. lia.
Qed.

Lemma parse_unsigned_range max s n : 0 <= max -> parse_unsigned max s = Some n -> 0 <= n <= max.
Proof.
  intros Hm. unfold parse_unsigned. destruct s as [|x [|y s]]; [done|..];
    destruct (bool_decide _); try done; apply digits_up_range; lia.
Qed.

Lemma digits_down_range min acc l n : acc <= 0 -> digits_down min acc l = Some n -> n <= 0.
Proof.
  revert acc. induction l as [|b l IH]; intros acc Ha; cbn [digits_down]; [by intros [= <-]|].
  destruct (_ && _) eqn:E; [|done]. destruct (min <=? _) eqn:E'; [|done]. boolify.
  apply IH. lia.
Qed.

Lemma parse_i64_max s n : parse_i64 s = Some n -> n <= I64_MAX.
Proof.
  unfold parse_i64, I64_MAX. destruct s as [|x [|y s]]; [done|..].
  - destruct (_ || _); [done|]. intros H%digits_up_range; lia.
  - destruct (bool_decide _); [intros H%digits_up_range; lia|].
    destruct (bool_decide _); [intros H%digits_down_range; lia|]. intros H%digits_up_range; lia.
Qed.

(** ** Trimming *)

Lemma drop_ws_none cs : Forall (fun c => chunk_ws c = false) cs -> drop_ws cs = cs.
Proof. destruct 1 as [|c cs Hc _]; [done|]. simpl. by rewrite Hc. Qed.

Lemma trim_word w : is_word w = true -> trim w = w.
Proof.
  intros (_ & _ & Hc)%is_word_inv. unfold trim. rewrite (drop_ws_none (utf8_chunks w)) by done.
  rewrite drop_ws_none, rev_involutive; [apply utf8_chunks_bytes|]. by apply Forall_rev.
Qed.

Lemma dec_utf8 n : 0 <= n -> from_utf8 (dec n) = Some (dec n).
Proof. intros H. unfold from_utf8. by destruct (is_word_inv _ (dec_word n H)) as (_ & -> & _). Qed.
