(* ===== verification/Storage.v ===== *)
(** * The in-memory store (src/storage.rs)

    [Storage] is the Rust struct of that name: the item map, the memory counter,
    the LRU map with its sequence counter and the CAS counter.  One definition per
    method.  A method that reads the clock takes the instant [now] (nanoseconds) at
    which it runs; the state also records whether the lock of [data] is poisoned. *)

From S2P Require Import Prelude RustStd.

(** ** What the compiler and the hash maps decide

    [size_of_CacheItem] is [std::mem::size_of::<CacheItem>()].  The iteration order
    of a [HashMap] is arbitrary: [data_keys] and [order_keys] list the keys of the
    two maps in some order. *)

Class Layout := {
  size_of_CacheItem : Z;
  size_of_CacheItem_pos : 0 < size_of_CacheItem
}.

Class HashOrder := {
  data_keys : gset bytes -> list bytes;
  order_keys : gset bytes -> list bytes;
  data_keys_perm : forall X, data_keys X ≡ₚ elements X;
  order_keys_perm : forall X, order_keys X ≡ₚ elements X
}.

(** ** Data *)

Record CacheItem := mkItem {
  value : bytes;
  flags : Z;
  expires_at : option Z;
  cas_unique : Z;
  last_accessed : Z
}.

Inductive StorageResult : Type :=
| Stored | NotStored | Exists | NotFound | CasMismatch | Deleted.

Record Storage := mkStorage {
  data : gmap bytes CacheItem;
  memory_used : Z;
  max_memory : Z;
  default_ttl : Z;
  cas_counter : Z;
  access_order : gmap bytes Z;
  access_counter : Z;
  data_poisoned : bool
}.

Record StorageStats := mkStats {
  stat_item_count : Z;
  stat_memory_used : Z;
  stat_max_memory : Z;
  stat_cas_counter : Z
}.

#[export] Instance CacheItem_eq_dec : EqDecision CacheItem.
Proof. solve_decision. Defined.
#[export] Instance StorageResult_eq_dec : EqDecision StorageResult.
Proof. solve_decision. Defined.

(** Field updates. *)
Definition with_data (f : gmap bytes CacheItem -> gmap bytes CacheItem) (s : Storage) : Storage :=
  mkStorage (f (data s)) (memory_used s) (max_memory s) (default_ttl s) (cas_counter s)
    (access_order s) (access_counter s) (data_poisoned s).
Definition with_memory (f : Z -> Z) (s : Storage) : Storage :=
  mkStorage (data s) (f (memory_used s)) (max_memory s) (default_ttl s) (cas_counter s)
    (access_order s) (access_counter s) (data_poisoned s).
Definition with_order (f : gmap bytes Z -> gmap bytes Z) (s : Storage) : Storage :=
  mkStorage (data s) (memory_used s) (max_memory s) (default_ttl s) (cas_counter s)
    (f (access_order s)) (access_counter s) (data_poisoned s).
Definition poison (s : Storage) : Storage :=
  mkStorage (data s) (memory_used s) (max_memory s) (default_ttl s) (cas_counter s)
    (access_order s) (access_counter s) true.

(** [Storage::new] *)
Definition new (max ttl : Z) : Storage :=
  mkStorage ∅ 0 max ttl 1 ∅ 0 false.

Section operations.
Context `{BP : BuildProfile, LY : Layout, HO : HashOrder}.

(** ** Items *)

Definition memory_size (item : CacheItem) : Z := size_of_CacheItem + len (value item).

(** What an entry contributes to [memory_used]. *)
Definition entry_size (key : bytes) (item : CacheItem) : Z := memory_size item + len key.

Definition is_expired (now : Z) (item : CacheItem) : bool :=
  match expires_at item with
  | Some e => e <=? now
  | None => false
  end.

(** ** Counters, locks and the clock *)

(** [self.memory_used.fetch_sub(n)] and [fetch_add(n)]: wrapping. *)
Definition fetch_sub (n : Z) : st Storage unit := modify (with_memory (fun m => u64 (m - n))).
Definition fetch_add (n : Z) : st Storage unit := modify (with_memory (fun m => u64 (m + n))).

(** [self.data.read().unwrap()] and [self.data.write().unwrap()]. *)
Definition lock_data : st Storage unit := fun s =>
  if data_poisoned s then Panicked s else Done tt s.

(** A panic while the write guard of [data] is held poisons the lock. *)
Definition holding_write {A} (m : st Storage A) : st Storage A := fun s =>
  match m s with
  | Panicked s' => Panicked (poison s')
  | o => o
  end.

Definition next_cas_unique : st Storage Z := fun s =>
  Done (cas_counter s)
    (mkStorage (data s) (memory_used s) (max_memory s) (default_ttl s)
       (u64 (cas_counter s + 1)) (access_order s) (access_counter s) (data_poisoned s)).

Definition record_access (key : bytes) : st Storage unit := fun s =>
  Done tt
    (mkStorage (data s) (memory_used s) (max_memory s) (default_ttl s) (cas_counter s)
       (<[key := access_counter s]> (access_order s)) (u64 (access_counter s + 1))
       (data_poisoned s)).

(** [Instant + Duration::from_secs(secs)]: an [Instant] holds signed 64-bit seconds
    and the addition panics when they overflow. *)
Definition NANOS : Z := 1000000000.
Definition instant_add (now secs : Z) : comp Z :=
  if now / NANOS + secs <=? I64_MAX then Val (now + secs * NANOS) else Panic.

Definition calculate_expiry (now ttl : Z) : st Storage (option Z) := fun s =>
  let effective_ttl := if ttl =? 0 then default_ttl s else ttl in
  if effective_ttl =? 0 then Done None s
  else match instant_add now effective_ttl with
       | Val t => Done (Some t) s
       | Panic => Panicked s
       end.

(** ** Eviction *)

Definition delete (key : bytes) : st Storage StorageResult :=
  lock_data;;
  d ← gets data;
  match d !! key with
  | Some item =>
      modify (with_data (base.delete key));;
      fetch_sub (memory_size item + len key);;
      modify (with_order (base.delete key));;
      mret Deleted
  | None => mret NotFound
  end.

(** The scan of [find_lru_key]: the accumulator is [(min_seq, lru_key)]. *)
Definition lru_scan_step (now : Z) (d : gmap bytes CacheItem) (order : gmap bytes Z)
    (acc : Z * option bytes) (key : bytes) : Z * option bytes :=
  match order !! key, d !! key with
  | Some seq, Some item =>
      if negb (is_expired now item) && (seq <? fst acc) then (seq, Some key) else acc
  | _, _ => acc
  end.

Definition find_lru_key (now : Z) (s : Storage) : option bytes :=
  if data_poisoned s then None
  else
    match snd (foldl (lru_scan_step now (data s) (access_order s)) (U64_MAX, None)
                 (order_keys (dom (access_order s)))) with
    | Some key => Some key
    | None => head (data_keys (dom (data s)))
    end.

(** The [while] loop of [ensure_memory_available], run with fuel. *)
Fixpoint evict_loop (fuel : nat) (now needed : Z) : st Storage unit :=
  match fuel with
  | O => fun s => Running s
  | S f => fun s =>
      match usize_add (memory_used s) needed with
      | Panic => Panicked s
      | Val total =>
          if max_memory s <? total then
            match find_lru_key now s with
            | Some key_to_evict => (delete key_to_evict;; evict_loop f now needed) s
            | None => Done tt s
            end
          else Done tt s
      end
  end.

(** Each round deletes an entry of [data], so [size data] rounds and one final test
    are enough fuel. *)
Definition ensure_memory_available (now needed : Z) : st Storage unit := fun s =>
  evict_loop (S (size (data s))) now needed s.

(** ** Reading *)

Definition get (now : Z) (key : bytes) : st Storage (option CacheItem) := fun s =>
  if data_poisoned s then Done None s
  else match data s !! key with
       | Some item =>
           if is_expired now item then (delete key;; mret None) s
           else (record_access key;; mret (Some item)) s
       | None => Done None s
       end.

(** The loop of [get_multi] over the keys: results and expired keys, in order. *)
Fixpoint get_multi_scan (now : Z) (keys : list bytes)
    : st Storage (list (bytes * CacheItem) * list bytes) :=
  match keys with
  | [] => mret ([], [])
  | key :: keys' => fun s =>
      match data s !! key with
      | Some item =>
          if is_expired now item then
            ('(r, e) ← get_multi_scan now keys'; mret (r, key :: e)) s
          else
            (record_access key;;
             '(r, e) ← get_multi_scan now keys'; mret ((key, item) :: r, e)) s
      | None => get_multi_scan now keys' s
      end
  end.

Fixpoint delete_all (keys : list bytes) : st Storage unit :=
  match keys with
  | [] => mret tt
  | key :: keys' => delete key;; delete_all keys'
  end.

Definition get_multi (now : Z) (keys : list bytes) : st Storage (list (bytes * CacheItem)) :=
  lock_data;;
  '(results, expired_keys) ← get_multi_scan now keys;
  delete_all expired_keys;;
  mret results.

(** ** Writing *)

Definition set (now : Z) (key val : bytes) (flg ttl : Z) : st Storage StorageResult :=
  expires ← calculate_expiry now ttl;
  cas ← next_cas_unique;
  let item := mkItem val flg expires cas now in
  let new_size := memory_size item + len key in
  ensure_memory_available now new_size;;
  lock_data;;
  d ← gets data;
  match d !! key with
  | Some old_item => fetch_sub (memory_size old_item + len key)
  | None => mret tt
  end;;
  fetch_add new_size;;
  modify (with_data (<[key := item]>));;
  record_access key;;
  mret Stored.

Definition add (now : Z) (key val : bytes) (flg ttl : Z) : st Storage StorageResult :=
  lock_data;;
  d ← gets data;
  match d !! key with
  | Some item => if negb (is_expired now item) then mret NotStored
                 else set now key val flg ttl
  | None => set now key val flg ttl
  end.

Definition replace (now : Z) (key val : bytes) (flg ttl : Z) : st Storage StorageResult :=
  lock_data;;
  d ← gets data;
  match d !! key with
  | Some item => if negb (is_expired now item) then set now key val flg ttl
                 else mret NotStored
  | None => mret NotStored
  end.

(** The expired arm of [cas], [append] and [prepend]: the item goes, its entry in
    the LRU map stays. *)
Definition remove_expired (key : bytes) (item : CacheItem) : st Storage unit :=
  modify (with_data (base.delete key));;
  fetch_sub (memory_size item + len key).

Definition cas (now : Z) (key val : bytes) (flg ttl unique : Z) : st Storage StorageResult :=
  lock_data;;
  d ← gets data;
  match d !! key with
  | None => mret NotFound
  | Some item =>
      if is_expired now item then remove_expired key item;; mret NotFound
      else if negb (cas_unique item =? unique) then mret CasMismatch
      else
        let old_size := memory_size item + len key in
        expires ← holding_write (calculate_expiry now ttl);
        c ← next_cas_unique;
        let new_item := mkItem val flg expires c now in
        let new_size := memory_size new_item + len key in
        fetch_sub old_size;;
        ensure_memory_available now new_size;;
        lock_data;;
        fetch_add new_size;;
        modify (with_data (<[key := new_item]>));;
        record_access key;;
        mret Stored
  end.

(** In-place update of an item found by [get_mut]: the three assignments, the
    memory counter and the access record, in the code's order. *)
Definition update_in_place (now : Z) (key : bytes) (item : CacheItem) (val : bytes)
    (additional_size : Z) : st Storage StorageResult :=
  c ← next_cas_unique;
  modify (with_data (<[key := mkItem val (flags item) (expires_at item) c now]>));;
  fetch_add additional_size;;
  record_access key;;
  mret Stored.

(** [append] and [prepend] differ only in how the new value is built. *)
Definition extend_item (now : Z) (key extra : bytes) (build : bytes -> bytes)
    : st Storage StorageResult :=
  lock_data;;
  d ← gets data;
  match d !! key with
  | None => mret NotStored
  | Some item =>
      if is_expired now item then remove_expired key item;; mret NotStored
      else
        let additional_size := len extra in
        current_used ← gets memory_used;
        total ← holding_write (lift (usize_add current_used additional_size));
        max ← gets max_memory;
        if max <? total then
          ensure_memory_available now additional_size;;
          lock_data;;
          d' ← gets data;
          match d' !! key with
          | Some item' =>
              if negb (is_expired now item')
              then update_in_place now key item' (build (value item')) additional_size
              else mret NotStored
          | None => mret NotStored
          end
        else update_in_place now key item (build (value item)) additional_size
  end.

Definition append (now : Z) (key data_to_append : bytes) : st Storage StorageResult :=
  extend_item now key data_to_append (fun v => v ++ data_to_append).

Definition prepend (now : Z) (key data_to_prepend : bytes) : st Storage StorageResult :=
  extend_item now key data_to_prepend (fun v => data_to_prepend ++ v).

(** ** Maintenance *)

Definition expired_keys (now : Z) (d : gmap bytes CacheItem) : list bytes :=
  List.filter (fun key => match d !! key with Some i => is_expired now i | None => false end)
    (data_keys (dom d)).

Definition cleanup_expired (now : Z) : st Storage Z :=
  lock_data;;
  d ← gets data;
  let keys := expired_keys now d in
  let count := len keys in
  delete_all keys;;
  mret count.

Definition flush_all : st Storage unit :=
  lock_data;;
  modify (with_data (fun _ => ∅));;
  modify (with_order (fun _ => ∅));;
  modify (with_memory (fun _ => 0)).

Definition stats : st Storage StorageStats :=
  lock_data;;
  gets (fun s => mkStats (Z.of_nat (size (data s))) (memory_used s) (max_memory s) (cas_counter s)).

End operations.
