(* ===== verification/Resp.v ===== *)
(** * The RESP protocol (src/protocols/resp/parser.rs)

    Frames, their encoding and the recursive parser.  [Panic] also stands for the
    ways in which the parser ends the process: a stack that is too deep, and a
    [Vec::with_capacity] that the allocator refuses. *)

From S2P Require Import Prelude RustStd.

(** [size_of_Frame] is [std::mem::size_of::<Frame>()], which is more than one byte
    (the frame holds a [String]); [max_alloc] is the largest block the allocator hands
    out, at most [isize::MAX] bytes, beyond which [Vec] panics before it asks; and
    [stack_depth] is how many nested calls of [parse] the stack of the worker thread
    holds. *)
Class FrameLayout := {
  size_of_Frame : Z;
  size_of_Frame_big : 1 < size_of_Frame;
  max_alloc : Z;
  max_alloc_isize : max_alloc <= I64_MAX;
  stack_depth : nat
}.

#[local] Set Warnings "-register-all".

Inductive Frame : Type :=
| Simple (s : bytes)
| FError (s : bytes)
| Integer (n : Z)
| Bulk (data : option bytes)
| Array (frames : option (list Frame)).

Inductive ParseResult : Type :=
| Complete (frame : Frame) (consumed : Z)
| Incomplete
| Error (msg : bytes).

(** ** Encoding *)

(** [Frame::encode_into]: the frame is appended to [buf]. *)
Fixpoint encode_into (f : Frame) (buf : bytes) : bytes :=
  match f with
  | Simple s => buf ++ «"+"» ++ s ++ crlf
  | FError s => buf ++ «"-"» ++ s ++ crlf
  | Integer n => buf ++ «":"» ++ dec_signed n ++ crlf
  | Bulk None => buf ++ «"$-1"» ++ crlf
  | Bulk (Some data) => buf ++ «"$"» ++ dec (len data) ++ crlf ++ data ++ crlf
  | Array None => buf ++ «"*-1"» ++ crlf
  | Array (Some frames) =>
      fold_left (fun b frame => encode_into frame b) frames
        (buf ++ «"*"» ++ dec (len frames) ++ crlf)
  end.

Definition encode (f : Frame) : bytes := encode_into f [].

(** The constructors' wrappers. *)
Definition simple (s : bytes) : Frame := Simple s.
Definition error (s : bytes) : Frame := FError s.
Definition null : Frame := Bulk None.
Definition bulk (data : bytes) : Frame := Bulk (Some data).
Definition integer (n : Z) : Frame := Integer n.
Definition array (frames : list Frame) : Frame := Array (Some frames).

(** ** Parsing *)

(** The text between the type byte and the first CR LF, and the position of the CR:
    the first lines of the five frame parsers.  [bad] is their UTF-8 error. *)
Definition header (buffer bad : bytes) (k : bytes -> Z -> comp ParseResult) : comp ParseResult :=
  match find_crlf buffer with
  | None => mret Incomplete
  | Some end_ =>
      raw ← slice buffer 1 end_;
      match from_utf8 raw with
      | None => mret (Error bad)
      | Some s => k s end_
      end
  end.

Definition parse_simple_string (buffer : bytes) : comp ParseResult :=
  header buffer «"Invalid UTF-8 in simple string"» (fun s end_ =>
    mret (Complete (Simple s) (end_ + 2))).

Definition parse_error (buffer : bytes) : comp ParseResult :=
  header buffer «"Invalid UTF-8 in error"» (fun s end_ =>
    mret (Complete (FError s) (end_ + 2))).

Definition parse_integer (buffer : bytes) : comp ParseResult :=
  header buffer «"Invalid UTF-8 in integer"» (fun s end_ =>
    match parse_i64 s with
    | Some n => mret (Complete (Integer n) (end_ + 2))
    | None => mret (Error («"Invalid integer: "» ++ s))
    end).

Section parser.
Context `{BP : BuildProfile, FL : FrameLayout}.

Definition parse_bulk_string (buffer : bytes) : comp ParseResult :=
  header buffer «"Invalid UTF-8 in bulk string length"» (fun len_str len_end =>
    match parse_i64 len_str with
    | None => mret (Error («"Invalid bulk string length: "» ++ len_str))
    | Some n =>
        if n <? 0 then mret (Complete (Bulk None) (len_end + 2))
        else
          let data_start := len_end + 2 in
          data_end ← usize_add data_start n;
          total_len ← usize_add data_end 2;
          if len buffer <? total_len then mret Incomplete
          else
            missing ← missing_crlf buffer data_end;
            if (missing : bool) then mret (Error «"Bulk string missing trailing CRLF"»)
            else
              data ← slice buffer data_start data_end;
              mret (Complete (Bulk (Some data)) total_len)
    end).

(** [Vec::with_capacity(n)] for frames: when the block is refused the process ends. *)
Definition with_capacity (n : Z) : comp unit :=
  if n * size_of_Frame <=? max_alloc then mret tt else Panic.

(** The [for _ in 0..len] loop of [parse_array]; [parse_one] is [parse].  Each round
    consumes input, so [S (length buffer)] rounds are enough. *)
Fixpoint parse_elems (parse_one : bytes -> comp ParseResult) (fuel : nat) (buffer : bytes)
    (count offset : Z) (frames : list Frame) : comp ParseResult :=
  match fuel with
  | O => Panic
  | S fuel' =>
      if count =? 0 then mret (Complete (Array (Some frames)) offset)
      else if len buffer <=? offset then mret Incomplete
      else
        rest ← slice buffer offset (len buffer);
        r ← parse_one rest;
        match r with
        | Complete frame consumed =>
            offset' ← usize_add offset consumed;
            parse_elems parse_one fuel' buffer (count - 1) offset' (frames ++ [frame])
        | Incomplete => mret Incomplete
        | Error e => mret (Error e)
        end
  end.

Definition parse_array (parse_one : bytes -> comp ParseResult) (buffer : bytes) : comp ParseResult :=
  header buffer «"Invalid UTF-8 in array length"» (fun len_str len_end =>
    match parse_i64 len_str with
    | None => mret (Error («"Invalid array length: "» ++ len_str))
    | Some n =>
        if n <? 0 then mret (Complete (Array None) (len_end + 2))
        else
          with_capacity n;;
          parse_elems parse_one (S (length buffer)) buffer n (len_end + 2) []
    end).

(** [parse] with room for [depth] nested calls. *)
Fixpoint parse_at (depth : nat) (buffer : bytes) : comp ParseResult :=
  match depth with
  | O => Panic
  | S d =>
      match buffer with
      | [] => mret Incomplete
      | b :: _ =>
          if bool_decide (b = Byte.x2b) then parse_simple_string buffer
          else if bool_decide (b = Byte.x2d) then parse_error buffer
          else if bool_decide (b = Byte.x3a) then parse_integer buffer
          else if bool_decide (b = Byte.x24) then parse_bulk_string buffer
          else if bool_decide (b = Byte.x2a) then parse_array (parse_at d) buffer
          else mret (Error («"Unknown frame type: "» ++ encode_char (byte_val b)))
      end
  end.

Definition parse (buffer : bytes) : comp ParseResult := parse_at stack_depth buffer.

End parser.
