(* ===== verification/Concrete.v ===== *)
(** * A concrete platform

    Instances of the platform classes for the executable witnesses: a release build
    and a debug build, the layout of 64-bit Linux, hash maps that iterate in the
    order of [elements], frames of 32 bytes, blocks of up to
    16 GiB and a stack for 1000 nested calls, and a case table that knows a few non-ASCII characters. *)

From S2P Require Import Prelude RustStd Storage Resp.

Definition release : BuildProfile := {| overflow_checks := false; debug_assertions := false |}.
Definition debug : BuildProfile := {| overflow_checks := true; debug_assertions := true |}.

Definition linux64 : Layout :=
  {| size_of_CacheItem := 72; size_of_CacheItem_pos := eq_refl |}.

Definition by_elements : HashOrder :=
  {| data_keys := elements; order_keys := elements;
     data_keys_perm := fun X => reflexivity (elements X);
     order_keys_perm := fun X => reflexivity (elements X) |}.

(** LATIN SMALL LETTER LONG S and DOTLESS I have ASCII upper cases; KELVIN SIGN has
    an ASCII lower case; other characters are left as they are. *)
Definition some_unicode : UnicodeCase :=
  {| lower_nonascii := fun _ c _ => if c =? 8490 then [107] else [c];
     upper_nonascii := fun c => if c =? 383 then [83] else if c =? 305 then [73] else [c] |}.

Definition frame64 : FrameLayout :=
  {| size_of_Frame := 32; size_of_Frame_big := eq_refl;
     max_alloc := 17179869184; max_alloc_isize := ltac:(discriminate); stack_depth := 1000 |}.

(** A second in the clock's unit. *)
Definition SEC : Z := 1000000000.
