(* ===== verification/StorageFacts.v ===== *)
(** * Basic facts about the store

    The memory footprint of the item map, the LRU scan, and the eviction loop: it
    terminates, it only deletes entries, and it stops when the request fits or the
    map is empty. *)

From S2P Require Import Prelude RustStd Storage.

(** Unfold the monadic plumbing. *)
Ltac unfold_st :=
  unfold mbind, st_bind, mret, st_ret, gets, modify, lift, fetch_sub, fetch_add in *; cbn beta iota in *.

Section facts.
Context `{BP : BuildProfile, LY : Layout, HO : HashOrder}.
Implicit Types (s : Storage) (k : bytes) (it : CacheItem) (d : gmap bytes CacheItem).

(** ** Footprint *)

(** The memory the entries of a map account for. *)
Definition total (d : gmap bytes CacheItem) : Z :=
  map_fold (fun k it acc => entry_size k it + acc) 0 d.

(** The item is present and not expired. *)
Definition live (now : Z) (s : Storage) k : bool :=
  match data s !! k with Some it => negb (is_expired now it) | None => false end.

(** The store after the deletion of an entry. *)
Definition evict k it s : Storage :=
  with_order (base.delete k) (with_memory (fun m => u64 (m - entry_size k it))
    (with_data (base.delete k) s)).

(** One deletion of a present entry. *)
Inductive evict1 : Storage -> Storage -> Prop :=
| evict1_intro s k it : data s !! k = Some it -> evict1 s (evict k it s).

Lemma entry_size_pos k it : 0 < entry_size k it.
Proof.
  unfold entry_size, memory_size. pose proof size_of_CacheItem_pos.
  pose proof (len_nonneg (value it)). pose proof (len_nonneg k). lia.
Qed.

Lemma total_empty : total ∅ = 0.
Proof. apply map_fold_empty. Qed.

Lemma total_insert_new d k it :
  d !! k = None -> total (<[k := it]> d) = entry_size k it + total d.
Proof. intros. unfold total. rewrite map_fold_insert_L; [done| |done]. intros. lia. Qed.

Lemma total_delete d k it :
  d !! k = Some it -> total (base.delete k d) = total d - entry_size k it.
Proof.
  intros Hk. rewrite <- (insert_delete_id d k it Hk) at 2.
  rewrite total_insert_new by apply lookup_delete_eq. lia.
Qed.

Lemma total_insert d k it it' :
  d !! k = Some it -> total (<[k := it']> d) = total d - entry_size k it + entry_size k it'.
Proof.
  intros Hk. rewrite <- insert_delete_eq, total_insert_new by apply lookup_delete_eq.
  rewrite (total_delete _ _ _ Hk). lia.
Qed.

Lemma total_nonneg d : 0 <= total d.
Proof.
  induction d as [|k it d Hk IH] using map_ind; [by rewrite total_empty|].
  rewrite total_insert_new by done. pose proof (entry_size_pos k it). lia.
Qed.

Lemma total_entry d k it : d !! k = Some it -> entry_size k it <= total d.
Proof. intros Hk. pose proof (total_delete _ _ _ Hk). pose proof (total_nonneg (base.delete k d)). lia. Qed.

(** ** The LRU scan *)

(** [(q, o)] is the best candidate among the keys scanned so far. *)
Definition scan_best now s (acc : Z * option bytes) (ks : list bytes) : Prop :=
  match snd acc with
  | Some k => k ∈ ks /\ live now s k = true /\ access_order s !! k = Some (fst acc)
              /\ fst acc < U64_MAX
  | None => fst acc = U64_MAX
  end /\
  forall k q, k ∈ ks -> live now s k = true -> access_order s !! k = Some q -> fst acc <= q \/ U64_MAX <= q.

Lemma scan_best_keep now s acc ks k :
  scan_best now s acc ks ->
  (forall q, live now s k = true -> access_order s !! k = Some q -> fst acc <= q) ->
  scan_best now s acc (ks ++ [k]).
Proof.
  intros [Ho Hmin] Hk. split.
  - destruct (snd acc) as [k'|]; [|done]. destruct Ho as (? & ? & ? & ?).
    split_and!; [set_solver|done..].
  - intros k' q' [Hin | ->%list_elem_of_singleton]%elem_of_app Hl Hq; [by eapply Hmin|].
    left. by apply Hk.
Qed.

Lemma lru_scan_snoc now s acc ks k :
  scan_best now s acc ks ->
  scan_best now s (lru_scan_step now (data s) (access_order s) acc k) (ks ++ [k]).
Proof.
  intros Hb. unfold lru_scan_step.
  destruct (access_order s !! k) as [q|] eqn:Eq;
    [|apply scan_best_keep; [done|congruence]].
  destruct (data s !! k) as [it|] eqn:Ed;
    [|apply scan_best_keep; [done|]; unfold live; by rewrite Ed].
  destruct (is_expired now it) eqn:Ex; simpl;
    [apply scan_best_keep; [done|]; unfold live; by rewrite Ed, Ex|].
  destruct (q <? fst acc) eqn:Elt; boolify.
  2: { apply scan_best_keep; [done|]. intros q' _ [= <-]%(eq_trans (eq_sym Eq)). lia. }
  destruct Hb as [Ho Hmin]. split; simpl.
  - split_and!; [set_solver| unfold live; by rewrite Ed, Ex |done|].
    destruct (snd acc); lia.
  - intros k' q' [Hin | ->%list_elem_of_singleton]%elem_of_app Hl Hq'.
    + apply Hmin in Hq'; [|done..]. lia.
    + rewrite Eq in Hq'. simplify_eq. lia.
Qed.

Lemma lru_scan_best now s ks :
  scan_best now s (foldl (lru_scan_step now (data s) (access_order s)) (U64_MAX, None) ks) ks.
Proof.
  induction ks as [|k ks IH] using rev_ind; simpl.
  - split; [done|]. by intros k q ?%not_elem_of_nil.
  - rewrite foldl_app. by apply lru_scan_snoc.
Qed.

Lemma order_keys_elem s k : k ∈ order_keys (dom (access_order s)) <-> is_Some (access_order s !! k).
Proof. by rewrite order_keys_perm, elem_of_elements, elem_of_dom. Qed.

Lemma data_keys_elem (d : gmap bytes CacheItem) k : k ∈ data_keys (dom d) <-> is_Some (d !! k).
Proof. by rewrite data_keys_perm, elem_of_elements, elem_of_dom. Qed.

(** The victim is an entry of the map. *)
Lemma find_lru_key_present now s k : find_lru_key now s = Some k -> is_Some (data s !! k).
Proof.
  unfold find_lru_key. destruct (data_poisoned s); [done|].
  pose proof (lru_scan_best now s (order_keys (dom (access_order s)))) as [Ho _].
  destruct (foldl _ _ _) as [m [k'|]]; simpl in *.
  - intros [= <-]. destruct Ho as (_ & Hl & _). unfold live in Hl. by destruct (data s !! k').
  - intros Hh. apply data_keys_elem. destruct (data_keys _) as [|k' ks]; [done|].
    injection Hh as ->. set_solver.
Qed.

(** There is a victim as long as the map has entries. *)
Lemma find_lru_key_None now s :
  data_poisoned s = false -> find_lru_key now s = None -> data s = ∅.
Proof.
  unfold find_lru_key. intros ->. destruct (snd _); [done|]. intros Hh.
  apply map_eq. intros k. rewrite lookup_empty. destruct (data s !! k) as [it|] eqn:Ed; [|done].
  assert (Hk : k ∈ data_keys (dom (data s))) by by apply data_keys_elem.
  destruct (data_keys _); [by apply not_elem_of_nil in Hk|done].
Qed.

(** ** Single operations in closed form *)

Lemma delete_eq s k :
  data_poisoned s = false ->
  delete k s = match data s !! k with
               | Some it => Done Deleted (evict k it s)
               | None => Done NotFound s
               end.
Proof.
  intros Hp. unfold delete, lock_data. unfold_st. rewrite Hp. by destruct (data s !! k).
Qed.

Lemma evict1_frame s s' :
  evict1 s s' ->
  max_memory s' = max_memory s /\ default_ttl s' = default_ttl s /\
  cas_counter s' = cas_counter s /\ access_counter s' = access_counter s /\
  data_poisoned s' = data_poisoned s /\ data s' ⊆ data s /\ (size (data s') < size (data s))%nat.
Proof.
  intros [s0 k it Hk]. split_and!; [done..| |].
  - apply delete_subseteq.
  - simpl. rewrite map_size_delete, Hk. assert (size (data s0) <> 0%nat); [|lia].
    intros He%map_size_empty_iff. by rewrite He, lookup_empty in Hk.
Qed.

Lemma evicts_frame s s' :
  rtc evict1 s s' ->
  max_memory s' = max_memory s /\ default_ttl s' = default_ttl s /\
  cas_counter s' = cas_counter s /\ access_counter s' = access_counter s /\
  data_poisoned s' = data_poisoned s /\ data s' ⊆ data s.
Proof.
  induction 1 as [|s s1 s2 H1 _ IH]; [done|].
  apply evict1_frame in H1 as (? & ? & ? & ? & ? & ? & _).
  destruct IH as (? & ? & ? & ? & ? & ?). split_and!; try congruence. by etrans.
Qed.

(** ** The eviction loop *)

(** It never runs out of fuel. *)
Lemma evict_loop_terminates f now needed s s' :
  (size (data s) < f)%nat -> evict_loop f now needed s <> Running s'.
Proof.
  revert s. induction f as [|f IH]; intros s Hf; [lia|]. cbn [evict_loop].
  destruct (usize_add _ _); [|done]. destruct (_ <? _); [|done].
  destruct (find_lru_key now s) as [k|] eqn:E; [|done].
  apply find_lru_key_present in E as [it Hk]. unfold_st.
  destruct (data_poisoned s) eqn:Hp; [unfold delete, lock_data; unfold_st; by rewrite Hp|].
  rewrite delete_eq, Hk by done. apply IH.
  pose proof (evict1_frame s _ (evict1_intro s k it Hk)). lia.
Qed.

(** It only deletes entries, and deletes none when the request fits at once. *)
Lemma evict_loop_evicts f now needed s s' :
  data_poisoned s = false -> evict_loop f now needed s = Done tt s' -> rtc evict1 s s'.
Proof.
  revert s. induction f as [|f IH]; intros s Hp; [done|]. cbn [evict_loop].
  destruct (usize_add _ _); [|done]. destruct (_ <? _); [|by intros [= <-]].
  destruct (find_lru_key now s) as [k|] eqn:E; [|by intros [= <-]].
  apply find_lru_key_present in E as [it Hk]. unfold_st. rewrite delete_eq, Hk by done.
  intros Hr. apply IH in Hr; [|done]. eapply rtc_l; [by apply evict1_intro|done].
Qed.

End facts.
