(* ===== verification/StorageInv.v ===== *)
(** * The store's invariant

    [wf] ties the memory counter to the item map, the LRU map to the access counter
    and the CAS tokens to the CAS counter.  Lemmas: the building blocks of the
    operations preserve it, and the operations in closed form. *)

From S2P Require Import Prelude RustStd Storage StorageFacts.

Section inv.
Context `{BP : BuildProfile, LY : Layout, HO : HashOrder}.
Implicit Types (s : Storage) (k : bytes) (it : CacheItem) (d : gmap bytes CacheItem).

(** ** The invariant *)

Definition mem_ok s : Prop :=
  memory_used s = total (data s) /\ total (data s) <= U64_MAX.

Definition order_ok s : Prop :=
  (forall k, is_Some (data s !! k) -> is_Some (access_order s !! k)) /\
  (forall k q, access_order s !! k = Some q -> 0 <= q < access_counter s) /\
  (forall k1 k2 q, access_order s !! k1 = Some q -> access_order s !! k2 = Some q -> k1 = k2) /\
  0 <= access_counter s <= U64_MAX.

Definition cas_ok s : Prop :=
  (forall k it, data s !! k = Some it -> 1 <= cas_unique it < cas_counter s) /\
  (forall k1 k2 i1 i2, data s !! k1 = Some i1 -> data s !! k2 = Some i2 ->
     cas_unique i1 = cas_unique i2 -> k1 = k2) /\
  1 <= cas_counter s <= U64_MAX.

Record wf s : Prop := {
  wf_mem : mem_ok s;
  wf_order : order_ok s;
  wf_cas : cas_ok s;
  wf_lock : data_poisoned s = false
}.

(** ** Closed forms *)

Definition bump_cas s : Storage :=
  mkStorage (data s) (memory_used s) (max_memory s) (default_ttl s) (u64 (cas_counter s + 1))
    (access_order s) (access_counter s) (data_poisoned s).

Definition touch k s : Storage :=
  mkStorage (data s) (memory_used s) (max_memory s) (default_ttl s) (cas_counter s)
    (<[k := access_counter s]> (access_order s)) (u64 (access_counter s + 1)) (data_poisoned s).

(** An entry replaced by one that accounts for [delta] more bytes. *)
Definition put k it delta s : Storage :=
  touch k (with_data (<[k := it]>) (with_memory (fun m => u64 (m + delta)) s)).

Definition old_size k s : Z :=
  match data s !! k with Some it => entry_size k it | None => 0 end.

Definition refund k s : Storage := with_memory (fun m => u64 (m - old_size k s)) s.

Definition drop_expired k it s : Storage :=
  with_memory (fun m => u64 (m - entry_size k it)) (with_data (base.delete k) s).

Definition expiry (now ttl dttl : Z) : comp (option Z) :=
  let t := if ttl =? 0 then dttl else ttl in
  if t =? 0 then Val None
  else match instant_add now t with Val e => Val (Some e) | Panic => Panic end.

Lemma calculate_expiry_eq now ttl s :
  calculate_expiry now ttl s = lift (expiry now ttl (default_ttl s)) s.
Proof.
  unfold calculate_expiry, expiry, lift. cbv zeta.
  generalize (if ttl =? 0 then default_ttl s else ttl) as t. intros t.
  destruct (t =? 0); [done|]. by destruct (instant_add now t).
Qed.

Lemma set_eq now k v f ttl s :
  set now k v f ttl s =
  match expiry now ttl (default_ttl s) with
  | Panic => Panicked s
  | Val e =>
      let it := mkItem v f e (cas_counter s) now in
      match ensure_memory_available now (entry_size k it) (bump_cas s) with
      | Done _ s1 => if data_poisoned s1 then Panicked s1
                     else Done Stored (put k it (entry_size k it)
                            (match data s1 !! k with Some _ => refund k s1 | None => s1 end))
      | Panicked s1 => Panicked s1
      | Running s1 => Running s1
      end
  end.
Proof.
  unfold set. unfold_st. rewrite calculate_expiry_eq. unfold lift.
  destruct (expiry now ttl (default_ttl s)) as [e|]; [|done]. unfold next_cas_unique.
  fold (bump_cas s). unfold entry_size at 1. destruct (ensure_memory_available _ _ _) as [[] s1|s1|s1]; [|done..].
  unfold lock_data. destruct (data_poisoned s1); [done|].
  unfold refund, old_size. by destruct (data s1 !! k).
Qed.

(** ** The building blocks preserve the invariant *)

Lemma wf_new max ttl : wf (new max ttl).
Proof.
  constructor; [split|repeat split|repeat split|done]; simpl; try done;
    try (intros *; rewrite ?lookup_empty; try done; by intros [? ?]).
Qed.

Lemma wf_evict k it s : wf s -> data s !! k = Some it -> wf (evict k it s).
Proof.
  intros [[Hm Hr] (Hd & Ho & Hi & Hc) (Ck & Ci & Cc) Hp] Hk.
  pose proof (total_delete _ _ _ Hk) as Ht. pose proof (entry_size_pos k it).
  pose proof (total_nonneg (base.delete k (data s))).
  constructor; [split|split_and!|split_and!|done]; simpl; try done; try lia.
  - rewrite Ht, u64_small; lia.
  - intros k' [it' Hk']. apply lookup_delete_Some in Hk' as [? ?].
    rewrite lookup_delete_ne by done. by apply Hd.
  - intros k' q [_ ?]%lookup_delete_Some. by eapply Ho.
  - intros k1 k2 q [_ ?]%lookup_delete_Some [_ ?]%lookup_delete_Some. by eapply Hi.
  - intros k' it' [_ ?]%lookup_delete_Some. by eapply Ck.
  - intros k1 k2 i1 i2 [_ ?]%lookup_delete_Some [_ ?]%lookup_delete_Some. by apply Ci.
Qed.

Lemma wf_evicts s s' : wf s -> rtc evict1 s s' -> wf s'.
Proof. intros Hw. induction 1 as [|s s1 s2 E _ IH]; [done|]. apply IH. destruct E. by apply wf_evict. Qed.

Lemma wf_drop_expired k it s : wf s -> data s !! k = Some it -> wf (drop_expired k it s).
Proof.
  intros [[Hm Hr] (Hd & Ho & Hi & Hc) (Ck & Ci & Cc) Hp] Hk.
  pose proof (total_delete _ _ _ Hk) as Ht. pose proof (entry_size_pos k it).
  pose proof (total_nonneg (base.delete k (data s))).
  constructor; [split|split_and!|split_and!|done]; simpl; try done; try lia.
  - rewrite Ht, u64_small; lia.
  - intros k' [it' Hk']. apply lookup_delete_Some in Hk' as [? ?]. by apply Hd.
  - intros k' it' [_ ?]%lookup_delete_Some. by eapply Ck.
  - intros k1 k2 i1 i2 [_ ?]%lookup_delete_Some [_ ?]%lookup_delete_Some. by apply Ci.
Qed.

Lemma order_ok_touch k s :
  order_ok s -> access_counter s < U64_MAX -> order_ok (touch k s).
Proof.
  intros (Hd & Ho & Hi & Hc) Hlt. unfold order_ok. simpl. rewrite u64_small by lia. split_and!; try lia.
  - intros k' Hk'. destruct (decide (k = k')) as [->|]; [by rewrite lookup_insert_eq|].
    rewrite lookup_insert_ne by done. by apply Hd.
  - intros k' q [[<- <-]|[_ Hq]]%lookup_insert_Some; [lia|]. apply Ho in Hq. lia.
  - intros k1 k2 q [[<- <-]|[N1 H1]]%lookup_insert_Some [[<- E]|[N2 H2]]%lookup_insert_Some; try done.
    + apply Ho in H2. lia.
    + subst. apply Ho in H1. lia.
    + by eapply Hi.
Qed.

Lemma wf_touch k s : wf s -> access_counter s < U64_MAX -> wf (touch k s).
Proof. intros [Hm Ho Hc Hp] Hlt. constructor; [done|by apply order_ok_touch|done..]. Qed.

Lemma order_ok_insert k it s :
  order_ok s -> access_counter s < U64_MAX -> order_ok (touch k (with_data (<[k := it]>) s)).
Proof.
  intros Ho Hlt. apply (order_ok_touch k) in Ho as [Hd Hrest]; [|done]. unfold order_ok. simpl in *.
  split; [|done]. intros k' Hk'. destruct (decide (k = k')) as [->|]; [by rewrite lookup_insert_eq|].
  rewrite lookup_insert_ne in Hk' by done. by apply Hd.
Qed.

(** Storing an entry with a token newer than all others. *)
Lemma wf_put k it delta s :
  wf s -> access_counter s < U64_MAX ->
  (forall k' it', data s !! k' = Some it' -> cas_unique it' < cas_unique it) ->
  1 <= cas_unique it < cas_counter s ->
  delta = entry_size k it - old_size k s -> total (data s) + delta <= U64_MAX ->
  wf (put k it delta s).
Proof.
  intros [[Hm Hr] Ho (Ck & Ci & Cc) Hp] Ha Hnew Hu -> Hfit.
  assert (Ht : total (<[k := it]> (data s)) = total (data s) + (entry_size k it - old_size k s)).
  { unfold old_size. destruct (data s !! k) as [o|] eqn:Ek.
    - rewrite (total_insert _ _ o) by done. lia.
    - rewrite total_insert_new by done. lia. }
  pose proof (total_nonneg (<[k := it]> (data s))).
  constructor; [split|by apply order_ok_insert|split_and!|done]; simpl; try lia.
  - rewrite u64_small; lia.
  - intros k' it' [[<- <-]|[_ H']]%lookup_insert_Some; [lia|by apply Ck in H'].
  - intros k1 k2 i1 i2 [[<- <-]|[N1 H1]]%lookup_insert_Some [[<- <-]|[N2 H2]]%lookup_insert_Some E;
      [done|apply Hnew in H2; lia|apply Hnew in H1; lia|by eapply Ci].
Qed.

Lemma wf_bump_cas s : wf s -> cas_counter s < U64_MAX -> wf (bump_cas s).
Proof.
  intros [Hm Ho (Ck & Ci & Cc) Hp] Hc. constructor; [done..| |done].
  unfold cas_ok. simpl. rewrite u64_small by lia. split_and!; [|done|lia..].
  intros k it Hk. apply Ck in Hk. lia.
Qed.

(** The two counter updates of a replacement are one update by the difference. *)
Lemma put_refund k it n s : put k it n (refund k s) = put k it (n - old_size k s) s.
Proof.
  unfold put, refund, touch. simpl. f_equal. unfold u64.
  rewrite Zplus_mod_idemp_l. f_equal. lia.
Qed.

Lemma put_set k it n s :
  put k it n (match data s !! k with Some _ => refund k s | None => s end)
  = put k it (n - old_size k s) s.
Proof.
  destruct (data s !! k) eqn:E; [apply put_refund|]. unfold old_size. rewrite E. by rewrite Z.sub_0_r.
Qed.

(** ** Making room *)

Lemma evict1_memory s s' : wf s -> evict1 s s' -> memory_used s' < memory_used s.
Proof.
  intros Hw E. assert (Hw' : wf s') by (eapply wf_evicts; [done|by apply rtc_once]).
  destruct E as [s k it Hk]. destruct (wf_mem _ Hw) as [-> _]. destruct (wf_mem _ Hw') as [-> _].
  simpl. rewrite (total_delete _ _ _ Hk). pose proof (entry_size_pos k it). lia.
Qed.

(** On a well-formed store the loop returns: the request fits or nothing is left. *)
Lemma evict_loop_done f now needed s :
  wf s -> memory_used s + needed <= USIZE_MAX -> (size (data s) < f)%nat ->
  exists s', evict_loop f now needed s = Done tt s' /\ rtc evict1 s s' /\
    (memory_used s' + needed <= max_memory s \/ data s' = ∅) /\
    (memory_used s + needed <= max_memory s -> s' = s).
Proof.
  revert s. induction f as [|f IH]; intros s Hw Hfit Hf; [lia|]. cbn [evict_loop].
  rewrite usize_add_small by done. destruct (_ <? _) eqn:E; boolify; [|by exists s; eauto using rtc_refl].
  destruct (find_lru_key now s) as [k|] eqn:Ek.
  2: { apply find_lru_key_None in Ek; [|apply Hw]. exists s. split_and!; [done|apply rtc_refl|by right|lia]. }
  apply find_lru_key_present in Ek as [it Hk]. unfold_st. rewrite delete_eq, Hk by apply Hw.
  pose proof (evict1_intro s k it Hk) as E1. pose proof (evict1_memory _ _ Hw E1).
  apply evict1_frame in E1 as Hfr. destruct Hfr as (Hmax & _ & _ & _ & _ & _ & Hsz).
  destruct (IH (evict k it s)) as (s' & -> & Hr & Hx & _); [by apply wf_evict|lia|lia|].
  exists s'. split_and!; [done|by eapply rtc_l|by rewrite <- Hmax|lia].
Qed.

(** Enough room: nothing is evicted, whatever the state. *)
Lemma ensure_noop now needed s :
  memory_used s + needed <= max_memory s -> max_memory s <= USIZE_MAX ->
  ensure_memory_available now needed s = Done tt s.
Proof.
  intros Hfit Hmax. unfold ensure_memory_available. cbn [evict_loop].
  rewrite usize_add_small by lia. by rewrite (proj2 (Z.ltb_ge _ _) Hfit).
Qed.

Lemma ensure_evicts now needed s s' :
  data_poisoned s = false -> ensure_memory_available now needed s = Done tt s' -> rtc evict1 s s'.
Proof. apply evict_loop_evicts. Qed.

Lemma ensure_done now needed s :
  wf s -> memory_used s + needed <= USIZE_MAX ->
  exists s', ensure_memory_available now needed s = Done tt s' /\ rtc evict1 s s' /\
    (memory_used s' + needed <= max_memory s \/ data s' = ∅) /\
    (memory_used s + needed <= max_memory s -> s' = s).
Proof. intros. apply evict_loop_done; [done..|lia]. Qed.

End inv.
