(* ===== verification/StorageOps.v ===== *)
(** * The store's operations: traces and invariant preservation

    [op] names the public methods, [run] executes one.  Closed forms of every
    operation, and the theorems that the operations return, keep the invariant
    [wf] and keep the memory counter below the limit. *)

From S2P Require Import Prelude RustStd Storage StorageFacts StorageInv.

Inductive op : Type :=
| OpGet (key : bytes)
| OpGetMulti (keys : list bytes)
| OpSet (key val : bytes) (flg ttl : Z)
| OpAdd (key val : bytes) (flg ttl : Z)
| OpReplace (key val : bytes) (flg ttl : Z)
| OpCas (key val : bytes) (flg ttl unique : Z)
| OpAppend (key extra : bytes)
| OpPrepend (key extra : bytes)
| OpDelete (key : bytes)
| OpCleanup
| OpFlush
| OpStats.

Inductive reply : Type :=
| RItem (i : option CacheItem)
| RItems (l : list (bytes * CacheItem))
| RRes (r : StorageResult)
| RCount (n : Z)
| RStats (x : StorageStats)
| RUnit.

Section ops.
Context `{BP : BuildProfile, LY : Layout, HO : HashOrder}.
Implicit Types (s : Storage) (k : bytes) (it : CacheItem) (d : gmap bytes CacheItem).

(** ** Running one operation at an instant *)

Definition run (now : Z) (o : op) : st Storage reply :=
  match o with
  | OpGet k => i ← get now k; mret (RItem i)
  | OpGetMulti ks => l ← get_multi now ks; mret (RItems l)
  | OpSet k v f t => r ← set now k v f t; mret (RRes r)
  | OpAdd k v f t => r ← add now k v f t; mret (RRes r)
  | OpReplace k v f t => r ← replace now k v f t; mret (RRes r)
  | OpCas k v f t u => r ← cas now k v f t u; mret (RRes r)
  | OpAppend k x => r ← append now k x; mret (RRes r)
  | OpPrepend k x => r ← prepend now k x; mret (RRes r)
  | OpDelete k => r ← delete k; mret (RRes r)
  | OpCleanup => n ← cleanup_expired now; mret (RCount n)
  | OpFlush => flush_all;; mret RUnit
  | OpStats => x ← stats; mret (RStats x)
  end.

(** Bytes an entry for [k] with value [v] accounts for. *)
Definition new_size k (v : bytes) : Z := size_of_CacheItem + len v + len k.

(** The side conditions under which an operation returns: the TTL fits the clock,
    the two 64-bit counters do not wrap, sums of sizes stay in [usize]; for [cas],
    also that the replacement needs no eviction. *)
Definition counters_ok (n : Z) s : Prop :=
  access_counter s + n <= U64_MAX /\ cas_counter s < U64_MAX.

Definition store_ok (now ttl : Z) k v s : Prop :=
  expiry now ttl (default_ttl s) <> Panic /\ counters_ok 1 s /\
  memory_used s + new_size k v <= USIZE_MAX.

Definition admissible (now : Z) (o : op) s : Prop :=
  match o with
  | OpGet _ => counters_ok 1 s
  | OpGetMulti ks => counters_ok (len ks) s
  | OpSet k v _ t | OpAdd k v _ t | OpReplace k v _ t => store_ok now t k v s
  | OpCas k v _ t _ => store_ok now t k v s /\ max_memory s <= USIZE_MAX /\
      memory_used s - old_size k s + new_size k v <= max_memory s
  | OpAppend _ x | OpPrepend _ x => counters_ok 1 s /\ memory_used s + len x <= USIZE_MAX
  | _ => True
  end.

(** The size of the entry an operation stores. *)
Definition op_size (o : op) : Z :=
  match o with
  | OpSet k v _ _ | OpAdd k v _ _ | OpReplace k v _ _ | OpCas k v _ _ _ => new_size k v
  | _ => 0
  end.

(** ** Closed forms *)

Lemma entry_size_new k v f e c now : entry_size k (mkItem v f e c now) = new_size k v.
Proof. done. Qed.

Lemma get_eq now k s :
  data_poisoned s = false ->
  get now k s = match data s !! k with
                | Some it => if is_expired now it then Done None (evict k it s)
                             else Done (Some it) (touch k s)
                | None => Done None s
                end.
Proof.
  intros Hp. unfold get. rewrite Hp. destruct (data s !! k) as [it|] eqn:Ek; [|done].
  destruct (is_expired now it); [|done]. unfold_st. by rewrite delete_eq, Ek.
Qed.

Lemma add_eq now k v f t s :
  data_poisoned s = false ->
  add now k v f t s = if live now s k then Done NotStored s else set now k v f t s.
Proof.
  intros Hp. unfold add, lock_data, live. unfold_st. rewrite Hp.
  destruct (data s !! k) as [it|]; [|done]. by destruct (is_expired now it).
Qed.

Lemma replace_eq now k v f t s :
  data_poisoned s = false ->
  replace now k v f t s = if live now s k then set now k v f t s else Done NotStored s.
Proof.
  intros Hp. unfold replace, lock_data, live. unfold_st. rewrite Hp.
  destruct (data s !! k) as [it|]; [|done]. by destruct (is_expired now it).
Qed.

Lemma cas_eq now k v f t u s :
  data_poisoned s = false ->
  cas now k v f t u s =
  match data s !! k with
  | None => Done NotFound s
  | Some it =>
      if is_expired now it then Done NotFound (drop_expired k it s)
      else if negb (cas_unique it =? u) then Done CasMismatch s
      else match expiry now t (default_ttl s) with
           | Panic => Panicked (poison s)
           | Val e =>
               let it' := mkItem v f e (cas_counter s) now in
               match ensure_memory_available now (new_size k v) (refund k (bump_cas s)) with
               | Done _ s1 => if data_poisoned s1 then Panicked s1
                              else Done Stored (put k it' (new_size k v) s1)
               | Panicked s1 => Panicked s1
               | Running s1 => Running s1
               end
           end
  end.
Proof.
  intros Hp. unfold cas, lock_data. unfold_st. rewrite Hp.
  destruct (data s !! k) as [it|] eqn:Ek; [|done].
  destruct (is_expired now it); [done|]. destruct (negb _); [done|].
  unfold holding_write. rewrite calculate_expiry_eq. unfold lift.
  destruct (expiry now t (default_ttl s)) as [e|]; [|done].
  unfold next_cas_unique, refund, old_size. simpl. rewrite Ek.
  destruct (ensure_memory_available _ _ _) as [[] s1|s1|s1]; [|done..].
  by destruct (data_poisoned s1).
Qed.

(** The item [append] and [prepend] write. *)
Definition extended (now : Z) (build : bytes -> bytes) it s : CacheItem :=
  mkItem (build (value it)) (flags it) (expires_at it) (cas_counter s) now.

Lemma extend_eq now k x build s :
  data_poisoned s = false ->
  extend_item now k x build s =
  match data s !! k with
  | None => Done NotStored s
  | Some it =>
      if is_expired now it then Done NotStored (drop_expired k it s)
      else match usize_add (memory_used s) (len x) with
           | Panic => Panicked (poison s)
           | Val tot =>
               if max_memory s <? tot then
                 match ensure_memory_available now (len x) s with
                 | Done _ s1 =>
                     if data_poisoned s1 then Panicked s1
                     else match data s1 !! k with
                          | Some it1 =>
                              if negb (is_expired now it1)
                              then Done Stored (put k (extended now build it1 s1) (len x) (bump_cas s1))
                              else Done NotStored s1
                          | None => Done NotStored s1
                          end
                 | Panicked s1 => Panicked s1
                 | Running s1 => Running s1
                 end
               else Done Stored (put k (extended now build it s) (len x) (bump_cas s))
           end
  end.
Proof.
  intros Hp. unfold extend_item, lock_data. unfold_st. rewrite Hp.
  destruct (data s !! k) as [it|] eqn:Ek; [|done].
  destruct (is_expired now it); [done|]. unfold holding_write, lift.
  destruct (usize_add _ _) as [tot|]; [|done]. destruct (_ <? _); [|done].
  destruct (ensure_memory_available _ _ _) as [[] s1|s1|s1]; [|done..].
  destruct (data_poisoned s1); [done|]. destruct (data s1 !! k) as [it1|]; [|done].
  by destruct (negb _).
Qed.

(** ** Storing an entry on a well-formed store *)

Lemma set_done now k v f t e s :
  wf s -> expiry now t (default_ttl s) = Val e -> counters_ok 1 s ->
  memory_used s + new_size k v <= USIZE_MAX ->
  exists s1, rtc evict1 (bump_cas s) s1 /\ wf s1 /\
    (memory_used s1 + new_size k v <= max_memory s \/ data s1 = ∅) /\
    (memory_used s + new_size k v <= max_memory s -> s1 = bump_cas s) /\
    set now k v f t s =
      Done Stored (put k (mkItem v f e (cas_counter s) now) (new_size k v - old_size k s1) s1).
Proof.
  intros Hw He [Ha Hc] Hfit. assert (Hb : wf (bump_cas s)) by by apply wf_bump_cas.
  destruct (ensure_done now (new_size k v) (bump_cas s) Hb Hfit) as (s1 & He1 & Hr & Hx & Hn).
  exists s1. assert (Hw1 : wf s1) by by eapply wf_evicts.
  split_and!; [done..|]. rewrite set_eq, He. cbn zeta. rewrite entry_size_new, He1.
  rewrite (wf_lock _ Hw1). by rewrite put_set.
Qed.

Lemma evicts_cas_older s s1 k it :
  wf s -> cas_counter s < U64_MAX -> rtc evict1 (bump_cas s) s1 -> data s1 !! k = Some it ->
  cas_unique it < cas_counter s.
Proof.
  intros Hw Hc (_ & _ & _ & _ & _ & Hsub)%evicts_frame Hk.
  eapply lookup_weaken in Hk; [|exact Hsub]. destruct (wf_cas _ Hw) as (Ck & _ & _).
  apply Ck in Hk. lia.
Qed.

Lemma old_size_range k s : wf s -> 0 <= old_size k s <= total (data s).
Proof.
  intros Hw. unfold old_size. destruct (data s !! k) as [it|] eqn:E.
  - pose proof (total_entry _ _ _ E). pose proof (entry_size_pos k it). lia.
  - pose proof (total_nonneg (data s)). lia.
Qed.

Lemma evicts_memory s s' : wf s -> rtc evict1 s s' -> memory_used s' <= memory_used s.
Proof.
  intros Hw Hr. induction Hr as [|s s1 s2 E Hr IH]; [lia|].
  pose proof (evict1_memory _ _ Hw E). assert (wf s1) by (eapply wf_evicts; [exact Hw|by apply rtc_once]).
  specialize (IH ltac:(done)). lia.
Qed.

(** The state after [set] is well-formed, and within the limit if the entry fits. *)
Lemma set_wf now k v f t s :
  wf s -> store_ok now t k v s ->
  exists s', set now k v f t s = Done Stored s' /\ wf s' /\ max_memory s' = max_memory s /\
    (memory_used s <= max_memory s -> new_size k v <= max_memory s -> memory_used s' <= max_memory s).
Proof.
  intros Hw (He & Hcnt & Hfit). destruct (expiry _ _ _) as [e|] eqn:Ee; [|done].
  destruct (set_done now k v f t e s Hw Ee Hcnt Hfit) as (s1 & Hr & Hw1 & Hx & _ & ->).
  destruct Hcnt as [Ha Hc]. apply evicts_frame in Hr as Hfr.
  destruct Hfr as (Hmax & _ & Hcas & Hacc & _ & _). simpl in *.
  pose proof (evicts_memory _ _ (wf_bump_cas _ Hw Hc) Hr) as Hle. simpl in Hle.
  destruct (wf_mem _ Hw1) as [Hm1 _]. destruct (wf_cas _ Hw) as (_ & _ & ?).
  pose proof (old_size_range k s1 Hw1). pose proof (len_nonneg v). pose proof (len_nonneg k).
  pose proof size_of_CacheItem_pos. unfold new_size in *. unfold USIZE_MAX in *.
  eexists. split; [done|]. split; [apply wf_put; try done|split; [done|]].
  - lia.
  - intros k' it'. by eapply evicts_cas_older.
  - simpl. rewrite Hcas, u64_small; lia.
  - rewrite Hm1 in *. unfold U64_MAX in *. lia.
  - intros Hle0 Hsz. simpl. rewrite u64_small by (unfold U64_MAX in *; lia).
    destruct Hx as [Hx|Hx]; [lia|]. rewrite Hm1, Hx, total_empty in *.
    unfold old_size in *. rewrite Hx, lookup_empty in *. lia.
Qed.

(** ** Multi-key operations in closed form *)

Definition del s k : Storage :=
  match data s !! k with Some it => evict k it s | None => s end.

Definition touches (ks : list bytes) s : Storage := foldl (fun s k => touch k s) s ks.

(** The live entries among [keys], in the order of the request. *)
Definition found (now : Z) d (keys : list bytes) : list (bytes * CacheItem) :=
  omap (fun k => match d !! k with
                 | Some it => if is_expired now it then None else Some (k, it)
                 | None => None
                 end) keys.

Definition expired_among (now : Z) d (keys : list bytes) : list bytes :=
  List.filter (fun k => match d !! k with Some it => is_expired now it | None => false end) keys.

Lemma get_multi_scan_eq now keys s :
  get_multi_scan now keys s =
  Done (found now (data s) keys, expired_among now (data s) keys)
       (touches (found now (data s) keys).*1 s).
Proof.
  revert s. induction keys as [|k keys IH]; intros s; [done|]. cbn [get_multi_scan].
  unfold found, expired_among. csimpl. fold (found now (data s) keys).
  fold (expired_among now (data s) keys). destruct (data s !! k) as [it|]; [|apply IH].
  unfold_st. destruct (is_expired now it); [by rewrite IH|].
  unfold record_access. fold (touch k s). by rewrite (IH (touch k s)).
Qed.

Lemma del_frame s k : data_poisoned (del s k) = data_poisoned s.
Proof. unfold del. by destruct (data s !! k). Qed.

Lemma delete_del s k r : data_poisoned s = false -> exists r', (delete k;; r : st Storage unit) s = r' /\ r' = r (del s k).
Proof.
  intros Hp. unfold_st. rewrite delete_eq by done. unfold del. by destruct (data s !! k); eauto.
Qed.

Lemma delete_all_eq keys s :
  data_poisoned s = false -> delete_all keys s = Done tt (foldl del s keys).
Proof.
  revert s. induction keys as [|k keys IH]; intros s Hp; [done|]. cbn [delete_all foldl].
  destruct (delete_del s k (delete_all keys) Hp) as (r & -> & ->).
  apply IH. by rewrite del_frame.
Qed.

Lemma del_evicts s k : rtc evict1 s (del s k).
Proof.
  unfold del. destruct (data s !! k) eqn:E; [|done]. by apply rtc_once, evict1_intro.
Qed.

Lemma dels_evicts keys s : rtc evict1 s (foldl del s keys).
Proof.
  revert s. induction keys as [|k keys IH]; intros s; [done|]. simpl.
  etrans; [apply del_evicts|apply IH].
Qed.

(** Exactly the listed keys go. *)
Lemma data_dels keys s k :
  data (foldl del s keys) !! k = if decide (k ∈ keys) then None else data s !! k.
Proof.
  revert s. induction keys as [|k' keys IH]; intros s; cbn [foldl].
  - case_decide as Hin; [by apply not_elem_of_nil in Hin|done].
  - assert (Hd : data (del s k') !! k = if decide (k = k') then None else data s !! k).
    { unfold del. destruct (data s !! k') as [it|] eqn:E, (decide (k = k')) as [->|]; try done; simpl.
      - apply lookup_delete_eq.
      - by apply lookup_delete_ne. }
    rewrite IH, Hd.
    destruct (decide (k ∈ keys)), (decide (k = k')), (decide (k ∈ k' :: keys)); set_solver.
Qed.

Lemma get_multi_eq now keys s :
  data_poisoned s = false ->
  get_multi now keys s =
  Done (found now (data s) keys)
       (foldl del (touches (found now (data s) keys).*1 s) (expired_among now (data s) keys)).
Proof.
  intros Hp. unfold get_multi, lock_data. unfold_st. rewrite Hp, get_multi_scan_eq.
  rewrite delete_all_eq; [done|]. generalize (found now (data s) keys).*1 as ks. intros ks.
  revert s Hp. induction ks as [|k ks IH]; intros s Hp; [done|]. by apply (IH (touch k s)).
Qed.

Lemma touches_frame ks s :
  data (touches ks s) = data s /\ memory_used (touches ks s) = memory_used s /\
  max_memory (touches ks s) = max_memory s /\ default_ttl (touches ks s) = default_ttl s /\
  cas_counter (touches ks s) = cas_counter s /\ data_poisoned (touches ks s) = data_poisoned s.
Proof. revert s. induction ks as [|k ks IH]; intros s; [done|]. apply (IH (touch k s)). Qed.

Lemma touches_wf ks s : wf s -> access_counter s + len ks <= U64_MAX -> wf (touches ks s).
Proof.
  revert s. induction ks as [|k ks IH]; intros s Hw Ha; [done|]. rewrite len_cons in Ha.
  pose proof (len_nonneg ks). destruct (wf_order _ Hw) as (_ & _ & _ & ?).
  apply (IH (touch k s)); [apply wf_touch; [done|lia]|]. simpl. rewrite u64_small; lia.
Qed.

Lemma found_length now d keys : len (found now d keys).*1 <= len keys.
Proof.
  unfold len. rewrite length_fmap. induction keys as [|k keys IH]; [done|].
  unfold found in *. csimpl. destruct (d !! k) as [it|]; [destruct (is_expired now it)|]; simpl; lia.
Qed.

(** ** The other writers *)

Lemma cas_wf now k v f t u s :
  wf s -> admissible now (OpCas k v f t u) s ->
  exists r s', cas now k v f t u s = Done r s' /\ wf s' /\ max_memory s' = max_memory s /\
    (memory_used s <= max_memory s -> memory_used s' <= max_memory s).
Proof.
  intros Hw ((He & [Ha Hc] & _) & Hmax & Hfit). rewrite cas_eq by apply Hw.
  destruct (data s !! k) as [it|] eqn:Ek; [|by eauto 8].
  destruct (is_expired now it).
  { assert (Hd : wf (drop_expired k it s)) by by apply wf_drop_expired.
    eexists _, _. split_and!; [done..|]. intros.
    destruct (wf_mem _ Hw) as [Hm ?]. destruct (wf_mem _ Hd) as [-> _]. simpl.
    rewrite (total_delete _ _ _ Ek). pose proof (entry_size_pos k it). lia. }
  destruct (negb _); [by eauto 8|]. destruct (expiry _ _ _) as [e|]; [|done]. cbn zeta.
  destruct (wf_mem _ Hw) as [Hm Ht]. pose proof (old_size_range k s Hw).
  assert (Hro : memory_used (refund k (bump_cas s)) = memory_used s - old_size k s).
  { simpl. apply u64_small. lia. }
  rewrite ensure_noop by (rewrite ?Hro; done). simpl. rewrite (wf_lock _ Hw).
  rewrite put_refund. change (old_size k (bump_cas s)) with (old_size k s).
  pose proof (len_nonneg v). pose proof (len_nonneg k). pose proof size_of_CacheItem_pos.
  unfold new_size, USIZE_MAX in *. destruct (wf_cas _ Hw) as (Ck & _ & ?).
  eexists _, _. split_and!; [done|apply wf_put|done|].
  - by apply wf_bump_cas.
  - simpl. lia.
  - intros k' it' Hk'. simpl in *. apply Ck in Hk'. lia.
  - simpl. rewrite u64_small; lia.
  - done.
  - simpl. lia.
  - intros. simpl. rewrite u64_small; lia.
Qed.

(** Growing an entry in place. *)
Lemma grow_wf now k (x : bytes) (build : bytes -> bytes) it s :
  wf s -> data s !! k = Some it -> counters_ok 1 s ->
  (forall v, len (build v) = len v + len x) -> memory_used s + len x <= U64_MAX ->
  wf (put k (extended now build it s) (len x) (bump_cas s)) /\
  memory_used (put k (extended now build it s) (len x) (bump_cas s)) = memory_used s + len x.
Proof.
  intros Hw Hk [Ha Hc] Hb Hfit. destruct (wf_mem _ Hw) as [Hm Ht].
  destruct (wf_cas _ Hw) as (Ck & _ & ?). pose proof (total_nonneg (data s)). pose proof (len_nonneg x).
  split; [apply wf_put|].
  - by apply wf_bump_cas.
  - simpl. lia.
  - intros k' it' Hk'. simpl in *. apply Ck in Hk'. lia.
  - simpl. rewrite u64_small; lia.
  - unfold old_size. simpl. rewrite Hk. unfold entry_size, memory_size. simpl. rewrite Hb. lia.
  - simpl. lia.
  - simpl. rewrite u64_small; lia.
Qed.

Lemma extend_wf now k (x : bytes) (build : bytes -> bytes) s :
  wf s -> counters_ok 1 s -> memory_used s + len x <= USIZE_MAX ->
  (forall v, len (build v) = len v + len x) ->
  exists r s', extend_item now k x build s = Done r s' /\ wf s' /\ max_memory s' = max_memory s /\
    (memory_used s <= max_memory s -> memory_used s' <= max_memory s).
Proof.
  intros Hw Hcnt Hfit Hb. rewrite extend_eq by apply Hw.
  destruct (data s !! k) as [it|] eqn:Ek; [|by eauto 8].
  destruct (is_expired now it).
  { assert (Hd : wf (drop_expired k it s)) by by apply wf_drop_expired.
    eexists _, _. split_and!; [done..|]. intros.
    destruct (wf_mem _ Hw) as [Hm ?]. destruct (wf_mem _ Hd) as [-> _]. simpl.
    rewrite (total_delete _ _ _ Ek). pose proof (entry_size_pos k it). lia. }
  rewrite usize_add_small by done. destruct (max_memory s <? _) eqn:Ep; boolify.
  2: { destruct (grow_wf now k x build it s Hw Ek Hcnt Hb Hfit) as [? Hu].
       eexists _, _. split_and!; [done..|]. rewrite Hu. lia. }
  destruct (ensure_done now (len x) s Hw Hfit) as (s1 & -> & Hr & Hx & _).
  assert (Hw1 : wf s1) by by eapply wf_evicts. rewrite (wf_lock _ Hw1).
  apply evicts_frame in Hr as Hfr. destruct Hfr as (Hmax & _ & Hcas & Hacc & _ & _).
  pose proof (evicts_memory _ _ Hw Hr).
  destruct (data s1 !! k) as [it1|] eqn:E1.
  2: { eexists _, _. split_and!; [done..|]. lia. }
  destruct (negb _); [|eexists _, _; split_and!; [done..|lia]].
  assert (Hc1 : counters_ok 1 s1) by (unfold counters_ok; by rewrite Hacc, Hcas).
  destruct (grow_wf now k x build it1 s1 Hw1 E1 Hc1 Hb) as [? Hu]; [unfold USIZE_MAX in *; lia|].
  eexists _, _. split_and!; [done..|]. rewrite Hu.
  destruct Hx as [|Hx]; [done|]. by rewrite Hx, lookup_empty in E1.
Qed.

End ops.
