(* ===== verification/StorageThms.v ===== *)
(** * Theorems about the store: invariant, memory limit, LRU eviction

    Every operation returns and keeps the invariant; the memory counter stays below
    the limit; eviction terminates and removes live entries in LRU order. *)

From S2P Require Import Prelude RustStd Storage Concrete StorageFacts StorageInv StorageOps.

Section thms.
Context `{BP : BuildProfile, LY : Layout, HO : HashOrder}.
Implicit Types (s : Storage) (k : bytes) (it : CacheItem) (d : gmap bytes CacheItem).

(** States reached from an empty store by admissible operations that write entries
    no larger than the limit. *)
Inductive reachable (max ttl : Z) : Storage -> Prop :=
| reach_new : reachable max ttl (new max ttl)
| reach_step now o r s s' :
    reachable max ttl s -> admissible now o s -> op_size o <= max ->
    run now o s = Done r s' -> reachable max ttl s'.

(** One step of a history. *)
Definition steps (s s' : Storage) : Prop :=
  exists now o r, admissible now o s /\ run now o s = Done r s'.

(** ** One operation *)

(** What every operation guarantees on a well-formed store. *)
Definition op_post (o : op) s s' : Prop :=
  wf s' /\ max_memory s' = max_memory s /\
  (memory_used s <= max_memory s -> op_size o <= max_memory s -> memory_used s' <= max_memory s).

Lemma evicts_post o s s' : wf s -> rtc evict1 s s' -> op_post o s s'.
Proof.
  intros Hw Hr. split_and!; [by eapply wf_evicts|by destruct (evicts_frame _ _ Hr)|].
  pose proof (evicts_memory _ _ Hw Hr). lia.
Qed.

Lemma same_post o s : wf s -> op_post o s s.
Proof. intros. by split_and!. Qed.

Lemma run_ok now o s :
  wf s -> admissible now o s -> exists r s', run now o s = Done r s' /\ op_post o s s'.
Proof.
  intros Hw Ha. pose proof (wf_lock _ Hw) as Hp.
  destruct o as [k|ks|k v f t|k v f t|k v f t|k v f t u|k x|k x|k| | |]; cbn [run admissible] in *; unfold_st.
  - rewrite get_eq by done. destruct (data s !! k) as [it|] eqn:Ek; [|eauto using same_post].
    destruct (is_expired now it); eexists _, _; (split; [done|]).
    + by apply evicts_post, rtc_once, evict1_intro.
    + split_and!; [|done..]. apply wf_touch; [done|]. unfold counters_ok in Ha. lia.
  - rewrite get_multi_eq by done. eexists _, _. split; [done|].
    set (s1 := touches _ s). pose proof (found_length now (data s) ks).
    assert (Hw1 : wf s1) by (apply touches_wf; [done|unfold counters_ok in Ha; lia]).
    destruct (touches_frame (found now (data s) ks).*1 s) as (_ & Hm & Hx & _).
    pose proof (evicts_post (OpGetMulti ks) s1 _ Hw1 (dels_evicts (expired_among now (data s) ks) s1)) as (? & Hx' & Hl).
    fold s1 in Hm, Hx. rewrite Hm, Hx in *. split_and!; [done..|]. intros. by apply Hl.
  - destruct (set_wf now k v f t s Hw Ha) as (s' & -> & ? & ? & ?). eexists _, _. split; [done|]. by split_and!.
  - rewrite add_eq by done. destruct (live now s k); [eauto using same_post|].
    destruct (set_wf now k v f t s Hw Ha) as (s' & -> & ? & ? & ?). eexists _, _. split; [done|]. by split_and!.
  - rewrite replace_eq by done. destruct (live now s k); [|eauto using same_post].
    destruct (set_wf now k v f t s Hw Ha) as (s' & -> & ? & ? & ?). eexists _, _. split; [done|]. by split_and!.
  - destruct (cas_wf now k v f t u s Hw Ha) as (r & s' & -> & ? & ? & ?). eexists _, _. split; [done|].
    split_and!; auto.
  - destruct Ha as [Hc Hf]. destruct (extend_wf now k x (fun v => v ++ x) s) as (r & s' & E & ? & ? & ?); try done.
    { intros v. rewrite len_app. lia. }
    unfold append. rewrite E. eexists _, _. split; [done|]. split_and!; auto.
  - destruct Ha as [Hc Hf]. destruct (extend_wf now k x (fun v => x ++ v) s) as (r & s' & E & ? & ? & ?); try done.
    { intros v. rewrite len_app. lia. }
    unfold prepend. rewrite E. eexists _, _. split; [done|]. split_and!; auto.
  - rewrite delete_eq by done. destruct (data s !! k) as [it|] eqn:Ek; [|eauto using same_post].
    eexists _, _. split; [done|]. by apply evicts_post, rtc_once, evict1_intro.
  - unfold cleanup_expired, lock_data. unfold_st. rewrite Hp, delete_all_eq by done.
    eexists _, _. split; [done|]. apply evicts_post, dels_evicts. done.
  - unfold flush_all, lock_data. unfold_st. rewrite Hp. eexists _, _. split; [done|].
    destruct (wf_order _ Hw) as (_ & _ & _ & ?). destruct (wf_cas _ Hw) as (_ & _ & ?).
    split_and!; [|done|].
    + constructor; [split; [by rewrite total_empty|by rewrite total_empty]|split_and!|split_and!|done];
        simpl; try lia; intros *; rewrite ?lookup_empty; done.
    + simpl. intros. destruct (wf_mem _ Hw) as [Hm _]. pose proof (total_nonneg (data s)). lia.
  - unfold stats, lock_data. unfold_st. rewrite Hp. eauto using same_post.
Qed.

Lemma reachable_ok max ttl s :
  0 <= max -> reachable max ttl s -> wf s /\ max_memory s = max /\ memory_used s <= max.
Proof.
  intros Hmax. induction 1 as [|now o r s s' _ (Hw & Hm & Hu) Ha Hsz Hrun].
  - split_and!; [apply wf_new|done..].
  - destruct (run_ok now o s Hw Ha) as (r' & s1 & E & Hw' & Hm' & Hu'). rewrite E in Hrun. simplify_eq.
    split_and!; [done|done|apply Hu'; done].
Qed.

(** ** The victim of an eviction *)

Lemma live_order s now k :
  order_ok s -> live now s k = true ->
  exists q, access_order s !! k = Some q /\ 0 <= q < U64_MAX.
Proof.
  intros (Hd & Ho & _ & Hc) Hl. destruct (Hd k) as [q Hq].
  { unfold live in Hl. by destruct (data s !! k). }
  exists q. split; [done|]. apply Ho in Hq. lia.
Qed.

Lemma find_lru_key_least now s k k' :
  order_ok s -> live now s k' = true -> find_lru_key now s = Some k ->
  live now s k = true /\
  exists q q', access_order s !! k = Some q /\ access_order s !! k' = Some q' /\ q <= q'.
Proof.
  intros Hok Hl'. destruct (live_order _ _ _ Hok Hl') as (q' & Hq' & ?).
  unfold find_lru_key. destruct (data_poisoned s); [done|].
  pose proof (lru_scan_best now s (order_keys (dom (access_order s)))) as [Ho Hmin].
  specialize (Hmin k' q' ltac:(apply order_keys_elem; eauto) Hl' Hq').
  destruct (foldl _ _ _) as [m [k1|]]; simpl in *; [|lia].
  intros [= <-]. destruct Ho as (_ & ? & ? & ?). split; [done|]. exists m, q'. split_and!; [done..|lia].
Qed.

Lemma live_mono now s s' k : data s' ⊆ data s -> live now s' k = true -> live now s k = true.
Proof.
  unfold live. intros Hsub. destruct (data s' !! k) as [it|] eqn:E; [|done].
  by rewrite (lookup_weaken _ _ _ _ E Hsub).
Qed.

Lemma live_evict now s k it k' : k' <> k -> live now (evict k it s) k' = live now s k'.
Proof. intros. unfold live. simpl. by rewrite lookup_delete_ne. Qed.

(** Along the eviction loop: live victims leave in access order, and an expired
    victim leaves only when no live entry remains. *)
Lemma evict_loop_order f now needed s s' k :
  wf s -> evict_loop f now needed s = Done tt s' -> is_Some (data s !! k) -> data s' !! k = None ->
  forall k', live now s' k' = true ->
    live now s k = true /\
    exists q q', access_order s !! k = Some q /\ access_order s !! k' = Some q' /\ q < q'.
Proof.
  revert s. induction f as [|f IH]; intros s Hw; [done|]. cbn [evict_loop].
  destruct (usize_add _ _); [|done].
  destruct (_ <? _); [|intros [= <-] [? ?] ?; congruence].
  destruct (find_lru_key now s) as [v|] eqn:Ev; [|intros [= <-] [? ?] ?; congruence].
  apply find_lru_key_present in Ev as Hp. destruct Hp as [it Hv]. unfold_st.
  rewrite delete_eq, Hv by apply Hw. intros Hrun Hk Hk' k' Hl'.
  assert (Hwe : wf (evict v it s)) by by apply wf_evict.
  pose proof (evict_loop_evicts _ _ _ _ _ (wf_lock _ Hwe) Hrun) as Hr.
  apply evicts_frame in Hr as (_ & _ & _ & _ & _ & Hsub).
  assert (k' <> v).
  { intros ->. apply (live_mono _ _ _ _ Hsub) in Hl'. unfold live in Hl'. simpl in Hl'.
    by rewrite lookup_delete_eq in Hl'. }
  pose proof (live_mono _ _ _ _ Hsub Hl') as Hl1. rewrite live_evict in Hl1 by done.
  destruct (decide (k = v)) as [->|].
  - destruct (find_lru_key_least _ _ _ _ (wf_order _ Hw) Hl1 Ev) as (? & q & q' & Hq & Hq' & ?).
    split; [done|]. exists q, q'. split_and!; [done..|].
    destruct (decide (q = q')) as [->|]; [|lia]. destruct (wf_order _ Hw) as (_ & _ & Hi & _).
    by specialize (Hi _ _ _ Hq Hq').
  - destruct (IH _ Hwe Hrun) with (k' := k') as (Hlk & q & q' & Hq & Hq' & ?); try done.
    { simpl. by rewrite lookup_delete_ne. }
    rewrite live_evict in Hlk by done. split; [done|]. simpl in Hq, Hq'.
    rewrite lookup_delete_ne in Hq, Hq' by done. eauto 8.
Qed.

(** ** Termination *)

Lemma set_terminates now k v f t s s' : set now k v f t s <> Running s'.
Proof.
  rewrite set_eq. destruct (expiry _ _ _); [|done]. cbn zeta.
  destruct (ensure_memory_available _ _ _) as [? s1|s1|s1] eqn:E; [by destruct (data_poisoned s1)|done|].
  by apply evict_loop_terminates in E; [|lia].
Qed.

Lemma poisoned_terminates {A} (m : st Storage A) s s' :
  data_poisoned s = true -> (lock_data;; m) s <> Running s'.
Proof. intros Hp. unfold_st. unfold lock_data. by rewrite Hp. Qed.

Lemma extend_terminates now k x build s s' : extend_item now k x build s <> Running s'.
Proof.
  destruct (data_poisoned s) eqn:Hp; [by apply poisoned_terminates|].
  rewrite extend_eq by done. destruct (data s !! k) as [it|]; [|done].
  destruct (is_expired now it); [done|]. destruct (usize_add _ _); [|done].
  destruct (_ <? _); [|done].
  destruct (ensure_memory_available _ _ _) as [? s1|s1|s1] eqn:E; [|done|].
  - destruct (data_poisoned s1); [done|]. destruct (data s1 !! k) as [i|]; [by destruct (is_expired now i)|done].
  - by apply evict_loop_terminates in E; [|lia].
Qed.

Lemma cas_terminates now k v f t u s s' : cas now k v f t u s <> Running s'.
Proof.
  destruct (data_poisoned s) eqn:Hp; [by apply poisoned_terminates|].
  rewrite cas_eq by done. destruct (data s !! k) as [it|]; [|done].
  destruct (is_expired now it); [done|]. destruct (negb _); [done|].
  destruct (expiry _ _ _); [|done]. cbn zeta.
  destruct (ensure_memory_available _ _ _) as [? s1|s1|s1] eqn:E; [by destruct (data_poisoned s1)|done|].
  by apply evict_loop_terminates in E; [|lia].
Qed.

(** The sequencing [r ← m; mret (f r)] ends when [m] does. *)
Lemma ret_terminates {A B} (m : st Storage A) (f : A -> B) s s' :
  (forall s', m s <> Running s') -> (r ← m; mret (f r)) s <> Running s'.
Proof. intros Hm. unfold_st. specialize (Hm s'). destruct (m s); congruence. Qed.

(** C18: Every public operation of the store terminates, on every state and at every
    instant: the eviction loop deletes one entry per round and never needs more than
    one round per entry. *)
Theorem operations_terminate now o s s' : run now o s <> Running s'.
Proof.
  destruct o; cbn [run].
  all: try (apply ret_terminates; intros s1).
  - unfold get. destruct (data_poisoned s) eqn:Hp; [done|].
    destruct (data s !! key) as [it|]; [|done]. destruct (is_expired now it); [|done].
    unfold_st. rewrite delete_eq by done. by destruct (data s !! key).
  - destruct (data_poisoned s) eqn:Hp; [by apply poisoned_terminates|]. by rewrite get_multi_eq.
  - apply set_terminates.
  - destruct (data_poisoned s) eqn:Hp; [by apply poisoned_terminates|].
    rewrite add_eq by done. destruct (live now s key); [done|apply set_terminates].
  - destruct (data_poisoned s) eqn:Hp; [by apply poisoned_terminates|].
    rewrite replace_eq by done. destruct (live now s key); [apply set_terminates|done].
  - apply cas_terminates.
  - apply extend_terminates.
  - apply extend_terminates.
  - destruct (data_poisoned s) eqn:Hp; [by apply poisoned_terminates|].
    rewrite delete_eq by done. by destruct (data s !! key).
  - destruct (data_poisoned s) eqn:Hp; [by apply poisoned_terminates|].
    unfold cleanup_expired, lock_data. unfold_st. by rewrite Hp, delete_all_eq.
  - unfold flush_all, lock_data. unfold_st. by destruct (data_poisoned s).
  - unfold stats, lock_data. unfold_st. by destruct (data_poisoned s).
Qed.

(** ** The theorems *)

(** C4: On a well-formed store every admissible operation returns (no panic, no
    endless loop) and leaves a well-formed store: the memory counter is the sum of
    the entry sizes, the LRU map covers the entries with distinct sequence numbers
    below the access counter, and CAS tokens are distinct and below the CAS counter. *)
Theorem operations_preserve_invariant now o s :
  wf s -> admissible now o s -> exists r s', run now o s = Done r s' /\ wf s'.
Proof. intros Hw Ha. destruct (run_ok now o s Hw Ha) as (r & s' & ? & ? & _). eauto. Qed.

(** C5: In every state reached from an empty store by entries that individually fit,
    the memory counter is exact and never above [max_memory]. *)
Theorem memory_limit max ttl s :
  0 <= max -> reachable max ttl s -> memory_used s = total (data s) /\ memory_used s <= max.
Proof. intros Hm Hr. destruct (reachable_ok max ttl s Hm Hr) as ([[? _]] & _ & ?). done. Qed.

(** While a live entry exists, the victim [find_lru_key] selects is the live
    entry with the least access number, whatever the iteration order of the hash
    map. *)
Theorem lru_victim now s k k0 :
  wf s -> live now s k0 = true ->
  find_lru_key now s = Some k <->
  live now s k = true /\ exists q, access_order s !! k = Some q /\
    forall k' q', live now s k' = true -> access_order s !! k' = Some q' -> q <= q'.
Proof.
  intros Hw H0. split.
  - intros Hk. destruct (find_lru_key_least _ _ _ _ (wf_order _ Hw) H0 Hk) as (Hl & q & q0 & Hq & _).
    split; [done|]. exists q. split; [done|]. intros k' q' Hl' Hq'.
    destruct (find_lru_key_least _ _ _ _ (wf_order _ Hw) Hl' Hk) as (_ & ? & ? & ? & ? & ?).
    by simplify_eq.
  - intros (Hl & q & Hq & Hmin). destruct (find_lru_key now s) as [v|] eqn:Hv.
    + destruct (find_lru_key_least _ _ _ _ (wf_order _ Hw) Hl Hv) as (Hlv & qv & q' & Hqv & Hq' & ?).
      specialize (Hmin v qv Hlv Hqv). assert (q' = q) as -> by congruence.
      assert (qv = q) as -> by lia.
      destruct (wf_order _ Hw) as (_ & _ & Hi & _). f_equal. by eapply Hi.
    + apply find_lru_key_None in Hv; [|apply Hw]. unfold live in Hl. by rewrite Hv, lookup_empty in Hl.
Qed.

(** C17: Making room evicts in LRU order: an entry that was evicted while a live
    entry survived was itself live, and was accessed before every live survivor;
    expired entries go last. *)
Theorem eviction_order now needed s s' k k' :
  wf s -> ensure_memory_available now needed s = Done tt s' ->
  is_Some (data s !! k) -> data s' !! k = None -> live now s' k' = true ->
  live now s k = true /\
  exists q q', access_order s !! k = Some q /\ access_order s !! k' = Some q' /\ q < q'.
Proof. intros. by eapply evict_loop_order. Qed.

End thms.

(** ** Witnesses *)

Section witnesses.
#[local] Existing Instances release linux64 by_elements.

(** A store with a limit of 200 bytes that holds one, then two entries of 75 bytes. *)
Definition one_key : Storage := state_of (run 0 (OpSet «"a"» «"11"» 0 0) (new 200 0)).
Definition two_keys : Storage := state_of (run 1 (OpSet «"b"» «"22"» 0 0) one_key).

Lemma two_keys_reachable : reachable 200 0 two_keys.
Proof.
  apply (reach_step 200 0 1 (OpSet «"b"» «"22"» 0 0) (RRes Stored) one_key);
    [|repeat split; vm_compute; done|vm_compute; done|by_vm].
  apply (reach_step 200 0 0 (OpSet «"a"» «"11"» 0 0) (RRes Stored) (new 200 0));
    [apply reach_new|repeat split; vm_compute; done|vm_compute; done|by_vm].
Qed.

Lemma two_keys_wf : wf two_keys.
Proof. apply (reachable_ok 200 0); [done|apply two_keys_reachable]. Qed.

Lemma operations_preserve_invariant_witness :
  exists r s', run 2 (OpSet «"c"» «"33"» 0 0) two_keys = Done r s' /\ wf s'.
Proof.
  apply (operations_preserve_invariant 2 (OpSet «"c"» «"33"» 0 0) two_keys); [apply two_keys_wf|].
  repeat split; vm_compute; done.
Defined.

Lemma memory_limit_witness :
  memory_used two_keys = total (data two_keys) /\ memory_used two_keys <= 200.
Proof. apply (memory_limit 200 0); [done|apply two_keys_reachable]. Defined.

Lemma lru_victim_witness : find_lru_key 5 two_keys = Some «"a"».
Proof.
  apply (lru_victim 5 two_keys «"a"» «"b"»); [apply two_keys_wf|vm_compute; reflexivity|].
  split; [vm_compute; reflexivity|]. exists 0. split; [vm_compute; reflexivity|].
  intros k' q' _ Hq. destruct (wf_order _ two_keys_wf) as (_ & Ho & _). apply Ho in Hq. lia.
Defined.

Lemma eviction_order_witness :
  live 5 two_keys «"a"» = true /\
  exists q q', access_order two_keys !! «"a"» = Some q /\ access_order two_keys !! «"b"» = Some q' /\ q < q'.
Proof.
  apply (eviction_order 5 75 two_keys (state_of (ensure_memory_available 5 75 two_keys))).
  - apply two_keys_wf.
  - by_vm.
  - vm_compute; eauto.
  - vm_compute; reflexivity.
  - vm_compute; reflexivity.
Defined.

End witnesses.
