(* ===== verification/StorageSpec.v ===== *)
(** * The store refines a lossy map

    The contract of a cache: a map from keys to items, on which an operation may
    first forget some entries and then acts exactly.  [view] is the abstraction
    function (the entries that are not expired), [spec] the exact operations on the
    abstract map, and the refinement theorems relate [run] to [spec]. *)

From S2P Require Import Prelude RustStd Storage Concrete StorageFacts StorageInv StorageOps StorageThms.

(** ** The abstract cache *)

Section spec.
Implicit Types (m : gmap bytes CacheItem) (k : bytes) (it : CacheItem).

(** An abstract state: the map, and the next CAS token. *)
Inductive spec (now dttl : Z) :
  op -> gmap bytes CacheItem * Z -> reply -> gmap bytes CacheItem * Z -> Prop :=
| spec_get k m c : spec now dttl (OpGet k) (m, c) (RItem (m !! k)) (m, c)
| spec_get_multi ks m c :
    spec now dttl (OpGetMulti ks) (m, c) (RItems (omap (fun k => pair k <$> m !! k) ks)) (m, c)
| spec_set k v f t e m c :
    expiry now t dttl = Val e ->
    spec now dttl (OpSet k v f t) (m, c) (RRes Stored) (<[k := mkItem v f e c now]> m, u64 (c + 1))
| spec_add_present k v f t m c :
    is_Some (m !! k) -> spec now dttl (OpAdd k v f t) (m, c) (RRes NotStored) (m, c)
| spec_add_absent k v f t e m c :
    m !! k = None -> expiry now t dttl = Val e ->
    spec now dttl (OpAdd k v f t) (m, c) (RRes Stored) (<[k := mkItem v f e c now]> m, u64 (c + 1))
| spec_replace_absent k v f t m c :
    m !! k = None -> spec now dttl (OpReplace k v f t) (m, c) (RRes NotStored) (m, c)
| spec_replace_present k v f t e m c :
    is_Some (m !! k) -> expiry now t dttl = Val e ->
    spec now dttl (OpReplace k v f t) (m, c) (RRes Stored)
      (<[k := mkItem v f e c now]> m, u64 (c + 1))
| spec_cas_absent k v f t u m c :
    m !! k = None -> spec now dttl (OpCas k v f t u) (m, c) (RRes NotFound) (m, c)
| spec_cas_mismatch k v f t u it m c :
    m !! k = Some it -> cas_unique it <> u ->
    spec now dttl (OpCas k v f t u) (m, c) (RRes CasMismatch) (m, c)
| spec_cas_match k v f t u e it m c :
    m !! k = Some it -> cas_unique it = u -> expiry now t dttl = Val e ->
    spec now dttl (OpCas k v f t u) (m, c) (RRes Stored)
      (<[k := mkItem v f e c now]> m, u64 (c + 1))
| spec_append_absent k x m c :
    m !! k = None -> spec now dttl (OpAppend k x) (m, c) (RRes NotStored) (m, c)
| spec_append k x it m c :
    m !! k = Some it ->
    spec now dttl (OpAppend k x) (m, c) (RRes Stored)
      (<[k := mkItem (value it ++ x) (flags it) (expires_at it) c now]> m, u64 (c + 1))
| spec_prepend_absent k x m c :
    m !! k = None -> spec now dttl (OpPrepend k x) (m, c) (RRes NotStored) (m, c)
| spec_prepend k x it m c :
    m !! k = Some it ->
    spec now dttl (OpPrepend k x) (m, c) (RRes Stored)
      (<[k := mkItem (x ++ value it) (flags it) (expires_at it) c now]> m, u64 (c + 1))
| spec_delete_present k m c :
    is_Some (m !! k) -> spec now dttl (OpDelete k) (m, c) (RRes Deleted) (base.delete k m, c)
| spec_delete_absent k r m c :
    (* an expired entry that is still stored answers Deleted *)
    m !! k = None -> r = Deleted \/ r = NotFound ->
    spec now dttl (OpDelete k) (m, c) (RRes r) (m, c)
| spec_cleanup n m c : 0 <= n -> spec now dttl OpCleanup (m, c) (RCount n) (m, c)
| spec_flush m c : spec now dttl OpFlush (m, c) RUnit (∅, c)
| spec_stats x m c :
    (* expired entries that are still stored are counted too *)
    Z.of_nat (size m) <= stat_item_count x -> stat_cas_counter x = c ->
    spec now dttl OpStats (m, c) (RStats x) (m, c).

End spec.

(** TTLs are unsigned. *)
Definition op_ttl (o : op) : Z :=
  match o with
  | OpSet _ _ _ t | OpAdd _ _ _ t | OpReplace _ _ _ t | OpCas _ _ _ t _ => t
  | _ => 0
  end.

Section refinement.
Context `{BP : BuildProfile, LY : Layout, HO : HashOrder}.
Implicit Types (s : Storage) (k : bytes) (it : CacheItem) (d : gmap bytes CacheItem).

(** The entries a reader can see at instant [now]. *)
Definition view (now : Z) s : gmap bytes CacheItem :=
  filter (fun kv => is_expired now kv.2 = false) (data s).

(** Bytes an operation asks for. *)
Definition op_need (o : op) : Z :=
  match o with
  | OpAppend _ x | OpPrepend _ x => len x
  | _ => op_size o
  end.

(** ** The abstraction function *)

Lemma view_Some now s k it :
  view now s !! k = Some it <-> data s !! k = Some it /\ is_expired now it = false.
Proof. unfold view. by rewrite map_lookup_filter_Some. Qed.

Lemma view_None now s k : view now s !! k = None <-> live now s k = false.
Proof.
  unfold live. destruct (view now s !! k) as [it|] eqn:E.
  - apply view_Some in E as [-> ->]. done.
  - split; [intros _|done]. destruct (data s !! k) as [it|] eqn:Ek; [|done].
    destruct (is_expired now it) eqn:Ex; [done|].
    assert (view now s !! k = Some it) by by apply view_Some. congruence.
Qed.

Lemma view_live now s k : live now s k = true -> exists it, view now s !! k = Some it.
Proof.
  intros Hl. destruct (view now s !! k) as [it|] eqn:E; [eauto|].
  apply view_None in E. congruence.
Qed.

Lemma view_subset now s s' : data s' ⊆ data s -> view now s' ⊆ view now s.
Proof. intros. by apply map_filter_subseteq_mono. Qed.

Lemma view_data now s s' : data s' = data s -> view now s' = view now s.
Proof. unfold view. by intros ->. Qed.

Lemma view_put now s k it delta :
  is_expired now it = false -> view now (put k it delta s) = <[k := it]> (view now s).
Proof. intros. unfold view. simpl. by rewrite map_filter_insert_True. Qed.

Lemma view_delete now s s' k :
  data s' = base.delete k (data s) -> view now s' = base.delete k (view now s).
Proof. unfold view. intros ->. apply map_filter_delete. Qed.

(** Deleting an entry that cannot be seen does not change the view. *)
Lemma view_delete_dead now s s' k :
  data s' = base.delete k (data s) -> live now s k = false -> view now s' = view now s.
Proof. intros Hd Hl. rewrite (view_delete _ _ _ _ Hd). by apply delete_id, view_None. Qed.

Lemma view_dels now s ks :
  Forall (fun k => live now s k = false) ks -> view now (foldl del s ks) = view now s.
Proof.
  intros Hks. apply map_eq. intros k. apply option_eq. intros it.
  rewrite !view_Some, data_dels. case_decide as Hin; [|done].
  rewrite Forall_forall in Hks. specialize (Hks k Hin). split; [by intros []|].
  intros [Hk Hx]. unfold live in Hks. by rewrite Hk, Hx in Hks.
Qed.

Lemma expired_among_dead now s ks :
  Forall (fun k => live now s k = false) (expired_among now (data s) ks).
Proof.
  apply Forall_forall. intros k Hk%list_elem_of_In. apply List.filter_In in Hk as [_ Hk].
  unfold live. destruct (data s !! k); [by rewrite Hk|done].
Qed.

Lemma found_view now s ks : found now (data s) ks = omap (fun k => pair k <$> view now s !! k) ks.
Proof.
  unfold found. apply list_omap_ext. apply Forall2_same_length_lookup; split; [done|].
  intros i x y Hx Hy. simplify_eq. destruct (data s !! x) as [it|] eqn:Ek.
  - destruct (is_expired now it) eqn:Ex.
    + rewrite (proj2 (view_None now s x)); [done|]. unfold live. by rewrite Ek, Ex.
    + by rewrite (proj2 (view_Some now s x it)).
  - rewrite (proj2 (view_None now s x)); [done|]. unfold live. by rewrite Ek.
Qed.

Lemma live_absent now s k : data s !! k = None -> live now s k = false.
Proof. unfold live. by intros ->. Qed.

Lemma live_expired now s k it :
  data s !! k = Some it -> is_expired now it = true -> live now s k = false.
Proof. unfold live. by intros -> ->. Qed.

(** A stored item is not expired at the instant of the write. *)
Lemma expiry_fresh now t dttl e v f c :
  0 <= t -> 0 <= dttl -> expiry now t dttl = Val e -> is_expired now (mkItem v f e c now) = false.
Proof.
  intros Ht Hd. unfold expiry, instant_add, NANOS. cbv zeta.
  set (t' := if t =? 0 then dttl else t). assert (0 <= t') by (unfold t'; by destruct (t =? 0)).
  destruct (t' =? 0) eqn:E; [by intros [= <-]|]. boolify. destruct (_ <=? _); [|done].
  intros [= <-]. unfold is_expired. simpl. apply Z.leb_gt. lia.
Qed.

(** ** Refinement *)

(** The request fits without eviction. *)
Definition room (o : op) s : Prop :=
  wf s /\ memory_used s + op_need o <= max_memory s /\ max_memory s <= USIZE_MAX.

(** [r] and [s'] are an exact abstract step from a submap of the view, and from the
    view itself when there is room. *)
Definition refines (now : Z) (o : op) s r s' : Prop :=
  exists m, m ⊆ view now s /\ (room o s -> m = view now s) /\
    spec now (default_ttl s) o (m, cas_counter s) r (view now s', cas_counter s').

Lemma refines_same now o s r s' :
  view now s' = view now s -> cas_counter s' = cas_counter s ->
  spec now (default_ttl s) o (view now s, cas_counter s) r (view now s, cas_counter s) ->
  refines now o s r s'.
Proof. intros Hv Hc Hs. exists (view now s). rewrite Hv, Hc. done. Qed.

Lemma evicts_view now s s1 : rtc evict1 s s1 -> view now s1 ⊆ view now s.
Proof. intros Hr. apply view_subset. by apply evicts_frame in Hr as (_ & _ & _ & _ & _ & ?). Qed.

Lemma view_bump now s : view now (bump_cas s) = view now s.
Proof. done. Qed.

(** Making room: what the view and the CAS counter become. *)
Lemma ensure_view now needed s s1 :
  data_poisoned s = false -> ensure_memory_available now needed s = Done tt s1 ->
  view now s1 ⊆ view now s /\ cas_counter s1 = cas_counter s /\ data_poisoned s1 = false /\
  (memory_used s + needed <= max_memory s -> max_memory s <= USIZE_MAX -> s1 = s).
Proof.
  intros Hp E. pose proof (ensure_evicts _ _ _ _ Hp E) as Hr.
  pose proof (evicts_view now _ _ Hr). apply evicts_frame in Hr as (_ & _ & Hc & _ & Hp1 & _).
  split_and!; [done..|congruence|]. intros. rewrite ensure_noop in E by done. by simplify_eq.
Qed.

(** The abstract map [set] writes to, and what it becomes. *)
Lemma set_refines now k v f t s r s' :
  data_poisoned s = false -> 0 <= t -> 0 <= default_ttl s -> set now k v f t s = Done r s' ->
  exists e m, r = Stored /\ expiry now t (default_ttl s) = Val e /\ m ⊆ view now s /\
    (memory_used s + new_size k v <= max_memory s -> max_memory s <= USIZE_MAX -> m = view now s) /\
    view now s' = <[k := mkItem v f e (cas_counter s) now]> m /\
    cas_counter s' = u64 (cas_counter s + 1).
Proof.
  intros Hp Ht Hd. rewrite set_eq. destruct (expiry _ _ _) as [e|] eqn:He; [|done]. cbn zeta.
  rewrite entry_size_new. destruct (ensure_memory_available _ _ _) as [[] s1|s1|s1] eqn:E; [|done..].
  apply ensure_view in E as (Hv & Hc & -> & Hroom); [|done]. rewrite put_set. intros [= <- <-].
  exists e, (view now s1). split_and!; [done..| | |exact Hc].
  - intros H1 H2. by rewrite (Hroom H1 H2).
  - apply view_put. by apply (expiry_fresh _ t (default_ttl s)).
Qed.

(** Likewise for [append] and [prepend]. *)
Lemma extend_refines now k x build s r s' :
  data_poisoned s = false -> extend_item now k x build s = Done r s' ->
  exists m, m ⊆ view now s /\
    (memory_used s + len x <= max_memory s -> max_memory s <= USIZE_MAX -> m = view now s) /\
    ((r = NotStored /\ m !! k = None /\ view now s' = m /\ cas_counter s' = cas_counter s) \/
     exists it, r = Stored /\ m !! k = Some it /\
       view now s' = <[k := mkItem (build (value it)) (flags it) (expires_at it) (cas_counter s) now]> m /\
       cas_counter s' = u64 (cas_counter s + 1)).
Proof.
  intros Hp. rewrite extend_eq by done.
  destruct (data s !! k) as [it|] eqn:Ek.
  2: { intros [= <- <-]. exists (view now s). split_and!; [done..|]. left. split_and!; try done.
       by apply view_None, live_absent. }
  destruct (is_expired now it) eqn:Ex.
  { pose proof (live_expired now s k it Ek Ex) as Hl.
    intros [= <- <-]. exists (view now s). split_and!; [done..|]. left.
    split_and!; [done|by apply view_None|by eapply view_delete_dead|done]. }
  destruct (usize_add _ _) as [tot|]; [|done]. destruct (_ <? _).
  2: { intros [= <- <-]. exists (view now s). split_and!; [done..|]. right. exists it.
       split_and!; [done|by apply view_Some| |done]. rewrite <- (view_bump now s). by apply view_put. }
  destruct (ensure_memory_available _ _ _) as [[] s1|s1|s1] eqn:E; [|done..].
  apply ensure_view in E as (Hv & Hc & -> & Hroom); [|done].
  assert (Hx : memory_used s + len x <= max_memory s -> max_memory s <= USIZE_MAX -> view now s1 = view now s).
  { intros H1 H2. by rewrite (Hroom H1 H2). }
  destruct (data s1 !! k) as [it1|] eqn:E1; [destruct (is_expired now it1) eqn:Ex1|]; simpl;
    intros [= <- <-]; exists (view now s1); (split_and!; [done..|]).
  - left. split_and!; try done. by eapply view_None, live_expired.
  - right. exists it1. split_and!; [done|by apply view_Some| |simpl; by rewrite Hc].
    unfold extended. rewrite Hc, <- (view_bump now s1). by apply view_put.
  - left. split_and!; try done. by apply view_None, live_absent.
Qed.

Lemma cas_refines now k v f t u s r s' :
  data_poisoned s = false -> 0 <= t -> 0 <= default_ttl s ->
  cas now k v f t u s = Done r s' -> refines now (OpCas k v f t u) s (RRes r) s'.
Proof.
  intros Hp Ht Hd. rewrite cas_eq by done.
  destruct (data s !! k) as [it|] eqn:Ek.
  2: { intros [= <- <-]. apply refines_same; try done. constructor. by apply view_None, live_absent. }
  destruct (is_expired now it) eqn:Ex.
  { pose proof (live_expired now s k it Ek Ex) as Hl.
    intros [= <- <-]. apply refines_same; try done; [by eapply view_delete_dead|].
    constructor. by apply view_None. }
  assert (Hvk : view now s !! k = Some it) by by apply view_Some.
  destruct (cas_unique it =? u) eqn:Eu; boolify; simpl.
  2: { intros [= <- <-]. apply refines_same; try done. by econstructor. }
  destruct (expiry _ _ _) as [e|] eqn:He; [|done].
  destruct (ensure_memory_available _ _ _) as [[] s1|s1|s1] eqn:E; [|done..].
  apply ensure_view in E as (Hv & Hc & -> & Hroom); [|done].
  intros [= <- <-]. exists (<[k := it]> (view now s1)). split_and!.
  - by apply insert_subseteq_l.
  - intros (Hw & Hneed & Hmax). simpl in *. rewrite Hroom; [by apply insert_id| |done].
    destruct (wf_mem _ Hw) as [Hm ?]. pose proof (old_size_range k s Hw).
    change (old_size k (bump_cas s)) with (old_size k s). rewrite u64_small; lia.
  - rewrite view_put by by apply (expiry_fresh _ t (default_ttl s)). simpl. rewrite Hc. simpl.
    rewrite <- (insert_insert_eq (view now s1) k (mkItem v f e (cas_counter s) now) it).
    econstructor; [apply lookup_insert_eq|done..].
Qed.

Lemma get_refines now k s r s' :
  data_poisoned s = false -> get now k s = Done r s' -> refines now (OpGet k) s (RItem r) s'.
Proof.
  intros Hp. rewrite get_eq by done. destruct (data s !! k) as [it|] eqn:Ek.
  2: { intros [= <- <-]. apply refines_same; [done..|].
       rewrite <- (proj2 (view_None now s k)); [constructor|by apply live_absent]. }
  destruct (is_expired now it) eqn:Ex; intros [= <- <-].
  - pose proof (live_expired now s k it Ek Ex) as Hl.
    apply refines_same; [by eapply view_delete_dead|done|].
    rewrite <- (proj2 (view_None now s k) Hl). constructor.
  - apply refines_same; [done..|]. rewrite <- (proj2 (view_Some now s k it)); [constructor|done].
Qed.

Lemma get_multi_refines now ks s r s' :
  data_poisoned s = false -> get_multi now ks s = Done r s' ->
  refines now (OpGetMulti ks) s (RItems r) s'.
Proof.
  intros Hp. rewrite get_multi_eq by done. intros [= <- <-].
  destruct (touches_frame (found now (data s) ks).*1 s) as (Hdt & _ & _ & _ & Hct & _).
  pose proof (dels_evicts (expired_among now (data s) ks) (touches (found now (data s) ks).*1 s)) as Hr.
  apply evicts_frame in Hr as (_ & _ & Hc & _). apply refines_same.
  - rewrite view_dels; [by apply view_data|]. eapply Forall_impl; [apply expired_among_dead|].
    intros k. unfold live. by rewrite Hdt.
  - by rewrite Hc, Hct.
  - rewrite found_view. constructor.
Qed.

Lemma delete_refines now k s r s' :
  data_poisoned s = false -> delete k s = Done r s' -> refines now (OpDelete k) s (RRes r) s'.
Proof.
  intros Hp. rewrite delete_eq by done. destruct (data s !! k) as [it|] eqn:Ek; intros [= <- <-].
  - destruct (is_expired now it) eqn:Ex.
    + pose proof (live_expired now s k it Ek Ex) as Hl.
      apply refines_same; [by eapply view_delete_dead|done|].
      apply spec_delete_absent; [by apply view_None|by left].
    + exists (view now s). split_and!; [done..|]. rewrite (view_delete now s (evict k it s) k) by done.
      constructor. by rewrite (proj2 (view_Some now s k it)).
  - apply refines_same; [done..|]. apply spec_delete_absent; [|by right].
    by apply view_None, live_absent.
Qed.

(** The writers that end in [set]: [o] is refined when its rule accepts the map. *)
Lemma store_refines now o k v f t s r s' :
  data_poisoned s = false -> 0 <= t -> 0 <= default_ttl s -> op_need o = new_size k v ->
  (forall e m, expiry now t (default_ttl s) = Val e -> m ⊆ view now s ->
     exists m', m' ⊆ view now s /\ (m = view now s -> m' = m) /\
       spec now (default_ttl s) o (m', cas_counter s) (RRes Stored)
         (<[k := mkItem v f e (cas_counter s) now]> m, u64 (cas_counter s + 1))) ->
  set now k v f t s = Done r s' -> refines now o s (RRes r) s'.
Proof.
  intros Hp Ht Hd Hn Hrule E. apply set_refines in E as (e & m & -> & He & Hm & Hroom & Hv & Hc); [|done..].
  destruct (Hrule e m He Hm) as (m' & Hm' & Heq & Hspec). exists m'. split; [done|].
  rewrite Hv, Hc. split; [|done]. intros (_ & Hneed & Hmax). rewrite Hn in Hneed.
  rewrite Heq; [by apply Hroom|by apply Hroom].
Qed.

Lemma add_refines now k v f t s r s' :
  data_poisoned s = false -> 0 <= t -> 0 <= default_ttl s ->
  add now k v f t s = Done r s' -> refines now (OpAdd k v f t) s (RRes r) s'.
Proof.
  intros Hp Ht Hd. rewrite add_eq by done. destruct (live now s k) eqn:El.
  { intros [= <- <-]. apply refines_same; try done. constructor. by apply view_live in El as [it ->]. }
  apply store_refines; [done..|]. intros e m He Hm. exists m. split_and!; [done..|].
  constructor; [|done]. apply (lookup_weaken_None _ _ _ (proj2 (view_None now s k) El) Hm).
Qed.

Lemma replace_refines now k v f t s r s' :
  data_poisoned s = false -> 0 <= t -> 0 <= default_ttl s ->
  replace now k v f t s = Done r s' -> refines now (OpReplace k v f t) s (RRes r) s'.
Proof.
  intros Hp Ht Hd. rewrite replace_eq by done. destruct (live now s k) eqn:El.
  2: { intros [= <- <-]. apply refines_same; try done. constructor. by apply view_None. }
  apply view_live in El as [it Hit]. apply store_refines; [done..|]. intros e m He Hm.
  exists (<[k := it]> m). split_and!; [by apply insert_subseteq_l|by intros ->; apply insert_id|].
  rewrite <- (insert_insert_eq m k (mkItem v f e (cas_counter s) now) it).
  constructor; [by rewrite lookup_insert_eq|done].
Qed.

(** Peel [r ← m; mret (f r)]. *)
Lemma ret_Done {A B} (m : st Storage A) (f : A -> B) s r s' :
  (r ← m; mret (f r)) s = Done r s' -> exists a, m s = Done a s' /\ r = f a.
Proof. unfold_st. destruct (m s) as [a s1|?|?]; [|done..]. intros [= <- <-]. eauto. Qed.

Lemma run_refines now o s r s' :
  data_poisoned s = false -> 0 <= default_ttl s -> 0 <= op_ttl o ->
  run now o s = Done r s' -> refines now o s r s'.
Proof.
  intros Hp Hd Ht Hrun. destruct o; cbn [run op_ttl] in *; apply ret_Done in Hrun as (a & E & ->).
  - by apply get_refines.
  - by apply get_multi_refines.
  - eapply store_refines; [done..| |exact E]. intros e m He Hm. exists m. split_and!; [done..|]. by constructor.
  - by apply add_refines.
  - by apply replace_refines.
  - by apply cas_refines.
  - apply extend_refines in E as (m & Hm & Hx & [(-> & Hk & Hv & Hc)|(it & -> & Hk & Hv & Hc)]); [..|done];
      exists m; (split_and!; [done|by intros (_ & ? & ?); apply Hx|]); rewrite Hv, Hc; by constructor.
  - apply extend_refines in E as (m & Hm & Hx & [(-> & Hk & Hv & Hc)|(it & -> & Hk & Hv & Hc)]); [..|done];
      exists m; (split_and!; [done|by intros (_ & ? & ?); apply Hx|]); rewrite Hv, Hc; by constructor.
  - by apply delete_refines.
  - unfold cleanup_expired, lock_data in E. unfold_st. rewrite Hp, delete_all_eq in E by done.
    simplify_eq. pose proof (dels_evicts (expired_keys now (data s)) s) as Hr.
    apply evicts_frame in Hr as (_ & _ & Hc & _). apply refines_same; [|done|constructor; apply len_nonneg].
    apply view_dels, expired_among_dead.
  - unfold flush_all, lock_data in E. unfold_st. rewrite Hp in E. simplify_eq. exists (view now s).
    split_and!; [done..|]. match goal with |- spec _ _ _ _ _ (view _ ?x, _) =>
      assert (Hv : view now x = ∅) by apply map_filter_empty; rewrite Hv end.
    constructor.
  - unfold stats, lock_data in E. unfold_st. rewrite Hp in E. simplify_eq.
    apply refines_same; [done..|]. constructor; [|done]. simpl. apply Nat2Z.inj_le.
    apply map_subseteq_size, map_filter_subseteq.
Qed.

(** ** The theorems *)

(** C1: The store refines a lossy map: whatever an operation returns, it is the
    result of the exact operation on a map that holds only entries a reader could
    see before, and the new view is exactly what that operation leaves.  No
    hypothesis on memory accounting is needed. *)
Theorem store_refines_lossy_map now o s r s' :
  data_poisoned s = false -> 0 <= default_ttl s -> 0 <= op_ttl o ->
  run now o s = Done r s' ->
  exists m, m ⊆ view now s /\
    spec now (default_ttl s) o (m, cas_counter s) r (view now s', cas_counter s').
Proof.
  intros Hp Hd Ht Hr. destruct (run_refines now o s r s' Hp Hd Ht Hr) as (m & ? & _ & ?). eauto.
Qed.

(** C2: Without memory pressure the store is an exact map: nothing is forgotten, so
    the operation acts on everything a reader could see. *)
Theorem store_exact_with_room now o s r s' :
  wf s -> 0 <= default_ttl s -> 0 <= op_ttl o ->
  memory_used s + op_need o <= max_memory s -> max_memory s <= USIZE_MAX ->
  run now o s = Done r s' ->
  spec now (default_ttl s) o (view now s, cas_counter s) r (view now s', cas_counter s').
Proof.
  intros Hw Hd Ht Hneed Hmax Hr.
  destruct (run_refines now o s r s' (wf_lock _ Hw) Hd Ht Hr) as (m & _ & Hx & ?).
  rewrite <- Hx; [done|]. by split_and!.
Qed.

End refinement.

(** ** Witnesses *)

Section witnesses.
#[local] Existing Instances release linux64 by_elements.

(** A store of 200 bytes that must evict to take a third entry. *)
Definition three_keys : Storage := state_of (run 2 (OpSet «"c"» «"33"» 0 0) two_keys).

Lemma store_refines_lossy_map_witness :
  exists m, m ⊆ view 2 two_keys /\
    spec 2 0 (OpSet «"c"» «"33"» 0 0) (m, cas_counter two_keys) (RRes Stored)
      (view 2 three_keys, cas_counter three_keys).
Proof.
  apply (store_refines_lossy_map 2 (OpSet «"c"» «"33"» 0 0) two_keys);
    [by_vm|vm_compute; done|done|by_vm].
Defined.

Definition appended : Storage := state_of (run 2 (OpAppend «"a"» «"33"») two_keys).

Lemma store_exact_with_room_witness :
  spec 2 0 (OpAppend «"a"» «"33"») (view 2 two_keys, cas_counter two_keys) (RRes Stored)
    (view 2 appended, cas_counter appended).
Proof.
  apply (store_exact_with_room 2 (OpAppend «"a"» «"33"») two_keys);
    [apply two_keys_wf|vm_compute; done|done|vm_compute; done|vm_compute; done|by_vm].
Defined.

End witnesses.
