(* ===== verification/StorageHist.v ===== *)
(** * Histories of the store

    What a sequence of operations can do to one key: reads return the last write or
    nothing, CAS tokens identify a write, and where the accounting of [cas] and the
    clock arithmetic go wrong. *)

From S2P Require Import Prelude RustStd Storage Concrete StorageFacts StorageInv StorageOps StorageThms StorageSpec.

Section hist.
Context `{BP : BuildProfile, LY : Layout, HO : HashOrder}.
Implicit Types (s : Storage) (k : bytes) (it : CacheItem) (d : gmap bytes CacheItem).

(** ** The effect of one operation on one key *)

(** The key an operation may write. *)
Definition writes_key (o : op) : option bytes :=
  match o with
  | OpSet k _ _ _ | OpAdd k _ _ _ | OpReplace k _ _ _ | OpCas k _ _ _ _
  | OpAppend k _ | OpPrepend k _ => Some k
  | _ => None
  end.

(** [k] keeps its item or loses it, or receives an item with the next token. *)
Definition key_effect (wk : option bytes) s s' : Prop :=
  (forall k, data s' !! k = data s !! k \/ data s' !! k = None \/
     (wk = Some k /\ exists it, data s' !! k = Some it /\ cas_unique it = cas_counter s /\
        cas_counter s' = u64 (cas_counter s + 1))) /\
  (cas_counter s' = cas_counter s \/ cas_counter s' = u64 (cas_counter s + 1)).

(** A step of the history of a healthy store whose CAS counter has not wrapped. *)
Definition hstep (o : op) s s' : Prop :=
  data_poisoned s = false /\ 0 <= cas_counter s < U64_MAX /\ exists now r, run now o s = Done r s'.

(** A step by an operation that does not write [k]. *)
Definition quiet k s s' : Prop := exists o, writes_key o <> Some k /\ hstep o s s'.
Definition any_step s s' : Prop := exists o, hstep o s s'.

Lemma subset_effect wk s s' :
  data s' ⊆ data s ->
  cas_counter s' = cas_counter s \/ cas_counter s' = u64 (cas_counter s + 1) ->
  key_effect wk s s'.
Proof.
  intros Hsub Hc. split; [|done]. intros k. destruct (data s' !! k) as [it|] eqn:E; [|by auto].
  left. by rewrite (lookup_weaken _ _ _ _ E Hsub).
Qed.

Lemma evicts_effect wk s s' : rtc evict1 s s' -> key_effect wk s s'.
Proof. intros Hr. apply evicts_frame in Hr as (_ & _ & Hc & _ & _ & ?). apply subset_effect; auto. Qed.

Lemma put_effect k it delta s s1 :
  data s1 ⊆ data s -> cas_unique it = cas_counter s -> cas_counter s1 = u64 (cas_counter s + 1) ->
  key_effect (Some k) s (put k it delta s1).
Proof.
  intros Hsub Hu Hc. split; [|by right]. intros k'. simpl.
  destruct (decide (k = k')) as [->|].
  - right. right. split; [done|]. exists it. by rewrite lookup_insert_eq.
  - rewrite lookup_insert_ne by done. destruct (data s1 !! k') as [it'|] eqn:E; [|by auto].
    left. by rewrite (lookup_weaken _ _ _ _ E Hsub).
Qed.

Lemma set_effect now k v f t s r s' :
  data_poisoned s = false -> set now k v f t s = Done r s' -> key_effect (Some k) s s'.
Proof.
  intros Hp. rewrite set_eq. destruct (expiry _ _ _) as [e|]; [|done]. cbn zeta.
  destruct (ensure_memory_available _ _ _) as [[] s1|s1|s1] eqn:E; [|done..].
  destruct (data_poisoned s1); [done|]. rewrite put_set. intros [= <- <-].
  apply ensure_evicts in E; [|done]. apply evicts_frame in E as (_ & _ & Hc & _ & _ & Hsub).
  by apply put_effect.
Qed.

Lemma extend_effect now k x build s r s' :
  data_poisoned s = false -> extend_item now k x build s = Done r s' -> key_effect (Some k) s s'.
Proof.
  intros Hp. rewrite extend_eq by done. destruct (data s !! k) as [it|] eqn:Ek.
  2: { intros [= <- <-]. by apply evicts_effect. }
  destruct (is_expired now it).
  { intros [= <- <-]. apply subset_effect; [apply delete_subseteq|by left]. }
  destruct (usize_add _ _); [|done]. destruct (_ <? _).
  2: { intros [= <- <-]. by apply put_effect. }
  destruct (ensure_memory_available _ _ _) as [[] s1|s1|s1] eqn:E; [|done..].
  apply ensure_evicts in E; [|done]. pose proof (evicts_effect (Some k) _ _ E).
  apply evicts_frame in E as (_ & _ & Hc & _ & _ & Hsub). destruct (data_poisoned s1); [done|].
  destruct (data s1 !! k) as [it1|]; [destruct (is_expired now it1)|]; simpl; intros [= <- <-]; try done.
  apply put_effect; [done|by unfold extended|simpl; by rewrite Hc].
Qed.

Lemma cas_effect now k v f t u s r s' :
  data_poisoned s = false -> cas now k v f t u s = Done r s' -> key_effect (Some k) s s'.
Proof.
  intros Hp. rewrite cas_eq by done. destruct (data s !! k) as [it|] eqn:Ek.
  2: { intros [= <- <-]. by apply evicts_effect. }
  destruct (is_expired now it).
  { intros [= <- <-]. apply subset_effect; [apply delete_subseteq|by left]. }
  destruct (negb _). { intros [= <- <-]. by apply evicts_effect. }
  destruct (expiry _ _ _) as [e|]; [|done]. cbn zeta.
  destruct (ensure_memory_available _ _ _) as [[] s1|s1|s1] eqn:E; [|done..].
  destruct (data_poisoned s1); [done|]. intros [= <- <-].
  apply ensure_evicts in E; [|done]. apply evicts_frame in E as (_ & _ & Hc & _ & _ & Hsub).
  by apply put_effect.
Qed.

Lemma run_effect now o s r s' :
  data_poisoned s = false -> run now o s = Done r s' -> key_effect (writes_key o) s s'.
Proof.
  intros Hp Hrun. destruct o; cbn [run writes_key] in *; apply ret_Done in Hrun as (a & E & ->).
  - rewrite get_eq in E by done. destruct (data s !! key) as [it|] eqn:Ek; [destruct (is_expired now it)|];
      simplify_eq; [by apply evicts_effect, rtc_once, evict1_intro|apply subset_effect; auto..].
  - rewrite get_multi_eq in E by done. simplify_eq.
    destruct (touches_frame (found now (data s) keys).*1 s) as (Hd & _ & _ & _ & Hc & _).
    pose proof (dels_evicts (expired_among now (data s) keys) (touches (found now (data s) keys).*1 s)) as Hr.
    apply evicts_frame in Hr as (_ & _ & Hc' & _ & _ & Hsub). rewrite Hd in Hsub.
    apply subset_effect; [done|]. left. congruence.
  - by eapply set_effect.
  - rewrite add_eq in E by done. destruct (live now s key); [simplify_eq; by apply evicts_effect|by eapply set_effect].
  - rewrite replace_eq in E by done. destruct (live now s key); [by eapply set_effect|simplify_eq; by apply evicts_effect].
  - by eapply cas_effect.
  - by eapply extend_effect.
  - by eapply extend_effect.
  - rewrite delete_eq in E by done. destruct (data s !! key) as [it|] eqn:Ek; simplify_eq;
      [by apply evicts_effect, rtc_once, evict1_intro|by apply evicts_effect].
  - unfold cleanup_expired, lock_data in E. unfold_st. rewrite Hp, delete_all_eq in E by done. simplify_eq.
    apply evicts_effect, dels_evicts.
  - unfold flush_all, lock_data in E. unfold_st. rewrite Hp in E. simplify_eq.
    apply subset_effect; [apply map_empty_subseteq|by left].
  - unfold stats, lock_data in E. unfold_st. rewrite Hp in E. simplify_eq. by apply evicts_effect.
Qed.

(** ** Reads after writes *)

Lemma quiet_keeps k s s' it :
  rtc (quiet k) s s' -> data s !! k = Some it \/ data s !! k = None ->
  data s' !! k = Some it \/ data s' !! k = None.
Proof.
  induction 1 as [|s s1 s2 (o & Hq & Hp & _ & now & r & Hrun) _ IH]; [done|]. intros Hk. apply IH.
  apply run_effect in Hrun as [He _]; [|done]. destruct (He k) as [->|[->|[? _]]]; [done|by right|done].
Qed.

Lemma set_stores now k v f t s r s' :
  data_poisoned s = false -> set now k v f t s = Done r s' ->
  exists e, expiry now t (default_ttl s) = Val e /\
    data s' !! k = Some (mkItem v f e (cas_counter s) now).
Proof.
  intros Hp. rewrite set_eq. destruct (expiry _ _ _) as [e|]; [|done]. cbn zeta.
  destruct (ensure_memory_available _ _ _) as [[] s1|s1|s1]; [|done..].
  destruct (data_poisoned s1); [done|]. rewrite put_set. intros [= <- <-].
  exists e. split; [done|]. simpl. apply lookup_insert_eq.
Qed.

Lemma set_healthy now k v f t s r s' :
  set now k v f t s = Done r s' -> data_poisoned s' = false.
Proof.
  rewrite set_eq. destruct (expiry _ _ _) as [e|]; [|done]. cbn zeta.
  destruct (ensure_memory_available _ _ _) as [[] s1|s1|s1]; [|done..].
  destruct (data_poisoned s1) eqn:E; [done|]. rewrite put_set. by intros [= <- <-].
Qed.

(** ** CAS tokens *)

(** Items older than a point of the history are unchanged since that point. *)
Lemma old_items_frozen k s s' :
  rtc any_step s s' ->
  cas_counter s <= cas_counter s' /\
  forall it, data s' !! k = Some it -> cas_unique it < cas_counter s -> data s !! k = Some it.
Proof.
  revert s'. apply (rtc_ind_r (fun s' => cas_counter s <= cas_counter s' /\ _)); [split; [lia|done]|].
  intros s1 s2 _ (o & Hp & Hc & now & r & Hrun) [Hle IH].
  apply run_effect in Hrun as [He Hcc]; [|done].
  assert (Hu : u64 (cas_counter s1 + 1) = cas_counter s1 + 1) by (apply u64_small; lia).
  split; [lia|]. intros it Hit Hlt. destruct (He k) as [Hk|[Hk|(_ & it' & Hk & Hu' & _)]].
  - apply IH; [congruence|done].
  - congruence.
  - assert (it' = it) as -> by congruence. lia.
Qed.

(** ** Accounting of [cas] *)

(** The counter modulo 2^64, along evictions, stays off by a constant. *)
Lemma evicts_drift s s' z :
  memory_used s = u64 (total (data s) - z) -> rtc evict1 s s' ->
  memory_used s' = u64 (total (data s') - z).
Proof.
  intros Hm. induction 1 as [|s s1 s2 E _ IH]; [done|]. apply IH. destruct E as [s k it Hk].
  simpl. rewrite Hm, (total_delete _ _ _ Hk). unfold u64. rewrite Zminus_mod_idemp_l. f_equal. lia.
Qed.

Lemma cas_stored_inv now k v f t u s s' :
  data_poisoned s = false -> cas now k v f t u s = Done Stored s' ->
  exists it e s1, data s !! k = Some it /\ cas_unique it = u /\ is_expired now it = false /\
    expiry now t (default_ttl s) = Val e /\ rtc evict1 (refund k (bump_cas s)) s1 /\
    s' = put k (mkItem v f e (cas_counter s) now) (new_size k v) s1.
Proof.
  intros Hp. rewrite cas_eq by done. destruct (data s !! k) as [it|] eqn:Ek; [|done].
  destruct (is_expired now it) eqn:Ex; [done|]. destruct (cas_unique it =? u) eqn:Eu; [|done].
  destruct (expiry _ _ _) as [e|]; [|done]. simpl.
  destruct (ensure_memory_available _ _ _) as [[] s1|s1|s1] eqn:E; [|done..].
  destruct (data_poisoned s1); [done|]. intros [= <-]. boolify.
  apply ensure_evicts in E; [|done]. by exists it, e, s1.
Qed.

(** ** Clock overflow and poisoning *)

Lemma huge_ttl now ttl dttl : 0 <= now -> I64_MAX < ttl -> expiry now ttl dttl = Panic.
Proof.
  unfold I64_MAX. intros Hn Ht. unfold expiry, instant_add, I64_MAX. cbv zeta.
  rewrite (proj2 (Z.eqb_neq ttl 0)) by lia. rewrite (proj2 (Z.eqb_neq ttl 0)) by lia.
  pose proof (Z.div_pos now NANOS Hn ltac:(done)). by rewrite (proj2 (Z.leb_gt _ _)) by lia.
Qed.

Lemma lock_poisoned {A} (m : st Storage A) s :
  data_poisoned s = true -> (lock_data;; m) s = Panicked s.
Proof. intros Hp. unfold_st. unfold lock_data. by rewrite Hp. Qed.

Lemma evict_loop_poisoned f now needed s :
  data_poisoned s = true ->
  evict_loop (S f) now needed s = Done tt s \/ evict_loop (S f) now needed s = Panicked s.
Proof.
  intros Hp. cbn [evict_loop]. destruct (usize_add _ _); [|by right].
  unfold find_lru_key. rewrite Hp. destruct (_ <? _); by left.
Qed.

Lemma set_poisoned now k v f t s :
  data_poisoned s = true -> exists s', set now k v f t s = Panicked s'.
Proof.
  intros Hp. rewrite set_eq. destruct (expiry _ _ _) as [e|]; [|eauto]. cbn zeta.
  unfold ensure_memory_available.
  destruct (evict_loop_poisoned (size (data (bump_cas s))) now
    (entry_size k (mkItem v f e (cas_counter s) now)) (bump_cas s) Hp) as [-> | ->]; [|eauto].
  simpl. rewrite Hp. eauto.
Qed.

(** ** What a write stores *)

(** The item a write puts in place: a new one, or the old one with a longer value. *)
Definition written (now : Z) (o : op) s it : Prop :=
  match o with
  | OpSet _ v f t | OpAdd _ v f t | OpReplace _ v f t | OpCas _ v f t _ =>
      exists e, expiry now t (default_ttl s) = Val e /\ it = mkItem v f e (cas_counter s) now
  | OpAppend k x =>
      exists old, data s !! k = Some old /\ is_expired now old = false /\
        it = mkItem (value old ++ x) (flags old) (expires_at old) (cas_counter s) now
  | OpPrepend k x =>
      exists old, data s !! k = Some old /\ is_expired now old = false /\
        it = mkItem (x ++ value old) (flags old) (expires_at old) (cas_counter s) now
  | _ => False
  end.

Lemma extend_stored now k x build s s' :
  data_poisoned s = false -> extend_item now k x build s = Done Stored s' ->
  exists old, data s !! k = Some old /\ is_expired now old = false /\
    data s' !! k = Some (mkItem (build (value old)) (flags old) (expires_at old) (cas_counter s) now).
Proof.
  intros Hp. rewrite extend_eq by done. destruct (data s !! k) as [it|] eqn:Ek; [|done].
  destruct (is_expired now it) eqn:Ex; [done|]. destruct (usize_add _ _); [|done]. destruct (_ <? _).
  2: { intros [= <-]. exists it. simpl. by rewrite lookup_insert_eq. }
  destruct (ensure_memory_available _ _ _) as [[] s1|s1|s1] eqn:E; [|done..].
  apply ensure_evicts in E; [|done]. apply evicts_frame in E as (_ & _ & Hc & _ & _ & Hsub).
  destruct (data_poisoned s1); [done|]. destruct (data s1 !! k) as [it1|] eqn:E1; [|done].
  destruct (negb (is_expired now it1)); [|done]. intros [= <-]. exists it. split_and!; [done..|].
  eapply lookup_weaken in Hsub; [|exact E1]. simplify_eq. simpl. rewrite lookup_insert_eq.
  unfold extended. by rewrite Hc.
Qed.

Lemma stored_item now o s s' k :
  data_poisoned s = false -> writes_key o = Some k -> run now o s = Done (RRes Stored) s' ->
  exists it, written now o s it /\ data s' !! k = Some it.
Proof.
  intros Hp Hk Hrun. destruct o; cbn [run writes_key] in *; simplify_eq;
    apply ret_Done in Hrun as (a & E & [= <-]).
  - destruct (set_stores _ _ _ _ _ _ _ _ Hp E) as (e & ? & ?). eexists. split; [by exists e|done].
  - rewrite add_eq in E by done. destruct (live now s k); [done|].
    destruct (set_stores _ _ _ _ _ _ _ _ Hp E) as (e & ? & ?). eexists. split; [by exists e|done].
  - rewrite replace_eq in E by done. destruct (live now s k); [|done].
    destruct (set_stores _ _ _ _ _ _ _ _ Hp E) as (e & ? & ?). eexists. split; [by exists e|done].
  - apply cas_stored_inv in E as (it & e & s1 & _ & _ & _ & He & _ & ->); [|done].
    eexists. split; [by exists e|]. apply lookup_insert_eq.
  - apply extend_stored in E as (old & ? & ? & ?); [|done]. eexists. split; [by exists old|done].
  - apply extend_stored in E as (old & ? & ? & ?); [|done]. eexists. split; [by exists old|done].
Qed.

(** ** The theorems *)

(** A value just stored is what the next read returns, with its flags, until its
    expiry instant, and nothing from that instant on, however full the store is. *)
Theorem get_after_set now now' k v f t s r s' :
  data_poisoned s = false -> set now k v f t s = Done r s' ->
  exists e s'', expiry now t (default_ttl s) = Val e /\
    get now' k s' =
      Done (if is_expired now' (mkItem v f e (cas_counter s) now) then None
            else Some (mkItem v f e (cas_counter s) now)) s''.
Proof.
  intros Hp Hs. destruct (set_stores _ _ _ _ _ _ _ _ Hp Hs) as (e & He & Hk).
  pose proof (set_healthy _ _ _ _ _ _ _ _ Hs) as Hp'.
  exists e. rewrite get_eq, Hk by done. destruct (is_expired now' _); eauto.
Qed.

(** C25: Between a write of [k] and a read of [k], any operations that do not write
    [k] (evictions, expiry, flushes included) can only lose it: the read returns
    nothing or exactly the item that was written.  The write is any operation that
    answers [Stored]: [set], [add], [replace] and [cas] write their value, flags and
    expiry, [append] and [prepend] the longer value with the old flags and expiry. *)
Theorem read_your_writes now o k s s1 s2 now' i s3 :
  data_poisoned s = false -> writes_key o = Some k -> run now o s = Done (RRes Stored) s1 ->
  rtc (quiet k) s1 s2 -> data_poisoned s2 = false -> get now' k s2 = Done i s3 ->
  i = None \/ exists it, i = Some it /\ written now o s it /\ is_expired now' it = false.
Proof.
  intros Hp Hw Hs Hq Hp2. destruct (stored_item _ _ _ _ _ Hp Hw Hs) as (it & Hit & Hk).
  rewrite get_eq by done. destruct (quiet_keeps _ _ _ _ Hq (or_introl Hk)) as [-> | ->].
  - destruct (is_expired _ _) eqn:Ex; intros [= <- <-]; eauto.
  - intros [= <- <-]. eauto.
Qed.

(** C26: When operations run one at a time, a successful [cas] proves that the item is the
    one that was read: if [get] returned [it] and, after any sequence of operations,
    [cas] with its token stores, then the item it replaced is [it] itself (no lost
    update, no ABA).  Threads that run [cas] at the same time do not have this
    guarantee: two of them can both pass the test before either stores. *)
Theorem cas_replaces_what_was_read now k s it s1 s2 now' v f t s3 :
  wf s -> get now k s = Done (Some it) s1 -> rtc any_step s1 s2 -> data_poisoned s2 = false ->
  cas now' k v f t (cas_unique it) s2 = Done Stored s3 -> data s2 !! k = Some it.
Proof.
  intros Hw Hg Hh Hp2 Hc. rewrite get_eq in Hg by apply Hw.
  destruct (data s !! k) as [it0|] eqn:Ek; [|done]. destruct (is_expired now it0); [done|].
  simplify_eq. apply cas_stored_inv in Hc as (it2 & _ & _ & Hk2 & Hu & _); [|done].
  destruct (wf_cas _ Hw) as (Ck & _ & _). apply Ck in Ek as Hlt.
  destruct (old_items_frozen k _ _ Hh) as [_ Hf]. specialize (Hf it2 Hk2). simpl in Hf.
  assert (data s !! k = Some it2) by (apply Hf; lia). congruence.
Qed.

(** After a successful [cas] the memory counter is exact (modulo 2^64), or it
    misses exactly the size of the replaced entry: the second case is the one where
    making room evicted the very entry being replaced, whose size had already been
    subtracted. *)
Theorem cas_accounting now k v f t u s s' :
  wf s -> cas now k v f t u s = Done Stored s' ->
  memory_used s' = u64 (total (data s')) \/
  memory_used s' = u64 (total (data s') - old_size k s).
Proof.
  intros Hw Hc. apply cas_stored_inv in Hc as (it & e & s1 & Hk & _ & _ & _ & Hr & ->); [|apply Hw].
  assert (Hm : memory_used s1 = u64 (total (data s1) - entry_size k it)).
  { eapply evicts_drift; [|exact Hr]. simpl. destruct (wf_mem _ Hw) as [-> _].
    unfold old_size. simpl. by rewrite Hk. }
  apply evicts_frame in Hr as (_ & _ & _ & _ & _ & Hsub). simpl in Hsub |- *. rewrite Hm.
  unfold u64, old_size. rewrite Zplus_mod_idemp_l, Hk. destruct (data s1 !! k) as [it1|] eqn:E1.
  - left. eapply lookup_weaken in Hsub; [|exact E1]. simplify_eq.
    rewrite (total_insert _ _ it), entry_size_new by done. f_equal; lia.
  - right. rewrite total_insert_new, entry_size_new by done. f_equal; lia.
Qed.

(** A TTL above [i64::MAX] seconds panics: [set] panics without touching the
    store, and [cas] on a live item with the right token panics while it holds the
    write lock, which poisons the store. *)
Theorem huge_ttl_panics now k v f t s it :
  0 <= now -> I64_MAX < t -> data_poisoned s = false ->
  data s !! k = Some it -> is_expired now it = false ->
  set now k v f t s = Panicked s /\ cas now k v f t (cas_unique it) s = Panicked (poison s).
Proof.
  intros Hn Ht Hp Hk Hx. pose proof (huge_ttl now t (default_ttl s) Hn Ht) as He. split.
  - by rewrite set_eq, He.
  - by rewrite cas_eq, Hk, Hx, Z.eqb_refl, He.
Qed.

(** A poisoned store is lost: from then on [get] answers nothing and every
    other operation panics. *)
Theorem poisoned_store_is_dead now o s :
  data_poisoned s = true ->
  match o with
  | OpGet _ => run now o s = Done (RItem None) s
  | _ => exists s', run now o s = Panicked s'
  end.
Proof.
  intros Hp. destruct o; cbn [run]; try (eexists; unfold_st; unfold get_multi, add, replace, cas,
    append, prepend, extend_item, delete, cleanup_expired, flush_all, stats;
    rewrite lock_poisoned by done; reflexivity).
  - unfold_st. unfold get. by rewrite Hp.
  - destruct (set_poisoned now key val flg ttl s Hp) as [s' E]. exists s'. unfold_st. by rewrite E.
Qed.

End hist.

(** ** Witnesses *)

Section witnesses.
#[local] Existing Instances release linux64 by_elements.

Definition three_keys' : Storage := state_of (run 2 (OpSet «"c"» «"33"» 7 9) two_keys).

Lemma get_after_set_witness :
  exists e s'', expiry 2 9 0 = Val e /\
    get 5 «"c"» three_keys' =
      Done (if is_expired 5 (mkItem «"33"» 7 e (cas_counter two_keys) 2) then None
            else Some (mkItem «"33"» 7 e (cas_counter two_keys) 2)) s''.
Proof. apply (get_after_set 2 5 «"c"» «"33"» 7 9 two_keys Stored); by_vm. Defined.

(** A write of [c], then a read of [b] and an append to [b] that evicts. *)
Definition after_reads : Storage := state_of (run 3 (OpAppend «"b"» «"456789"») three_keys').

(** The item that the read of [c] returns. *)
Definition read_c : option CacheItem :=
  match get 5 «"c"» after_reads with Done i _ => i | _ => None end.

(** An append to [b], a read of [c], and the read of [b] that returns the longer value. *)
Definition appended_b : Storage := Eval vm_compute in state_of (run 3 (OpAppend «"b"» «"4"») two_keys).
Definition then_c : Storage := Eval vm_compute in state_of (run 4 (OpSet «"c"» «"3"» 0 0) appended_b).

Lemma read_your_writes_witness :
  (read_c = None \/ exists it, read_c = Some it /\ written 2 (OpSet «"c"» «"33"» 7 9) two_keys it /\
     is_expired 5 it = false) /\
  (Some (mkItem «"224"» 0 None 3 3) = None \/
   exists it, Some (mkItem «"224"» 0 None 3 3) = Some it /\ written 3 (OpAppend «"b"» «"4"») two_keys it /\
     is_expired 5 it = false).
Proof.
  split.
  - apply (read_your_writes 2 (OpSet «"c"» «"33"» 7 9) «"c"» two_keys three_keys' after_reads 5 read_c
             (state_of (get 5 «"c"» after_reads))); [by_vm|by_vm|by_vm| |by_vm|by_vm].
    apply rtc_once. exists (OpAppend «"b"» «"456789"»). split; [vm_compute; congruence|].
    split; [by_vm|]. split; [vm_compute; done|]. exists 3, (RRes Stored). by_vm.
  - apply (read_your_writes 3 (OpAppend «"b"» «"4"») «"b"» two_keys appended_b then_c 5
             (Some (mkItem «"224"» 0 None 3 3)) (state_of (get 5 «"b"» then_c))); [by_vm|by_vm|by_vm| |by_vm|by_vm].
    apply rtc_once. exists (OpSet «"c"» «"3"» 0 0). split; [vm_compute; congruence|].
    split; [by_vm|]. split; [vm_compute; done|]. exists 4, (RRes Stored). by_vm.
Defined.

(** [b] as [set] stored it, the store after it was read, and after [c] was stored. *)
Definition item_b : CacheItem := mkItem «"22"» 0 None 2 1.
Definition b_read : Storage := state_of (get 3 «"b"» two_keys).
Definition c_stored : Storage := Eval vm_compute in state_of (run 3 (OpSet «"c"» «"3"» 0 0) b_read).

Lemma cas_replaces_what_was_read_witness : data c_stored !! «"b"» = Some item_b.
Proof.
  apply (cas_replaces_what_was_read 3 «"b"» two_keys item_b b_read c_stored 4 «"2"» 0 0
           (state_of (cas 4 «"b"» «"2"» 0 0 2 c_stored))).
  - exact two_keys_wf.
  - by_vm.
  - apply rtc_once. exists (OpSet «"c"» «"3"» 0 0).
    split; [by_vm|]. split; [vm_compute; done|]. exists 3, (RRes Stored). by_vm.
  - by_vm.
  - by_vm.
Defined.

(** A [cas] of [a], the least recently used key, with a value that does not fit
    beside [b]: room is made by evicting [a] itself. *)
Definition v60 : bytes := repeat Byte.x78 60.
Definition self_evicted : Storage := state_of (cas 2 «"a"» v60 0 0 1 two_keys).

Lemma cas_accounting_witness :
  memory_used self_evicted = u64 (total (data self_evicted)) \/
  memory_used self_evicted = u64 (total (data self_evicted) - old_size «"a"» two_keys).
Proof.
  apply (cas_accounting 2 «"a"» v60 0 0 1 two_keys self_evicted); [exact two_keys_wf|by_vm].
Defined.

(** The second case of the accounting of [cas] happens in a reachable store with
    a limit of 200 bytes: after the [cas] the entries take 208 bytes and the counter
    reads 133. *)
Theorem cas_can_overrun_limit :
  reachable 200 0 two_keys /\
  run 2 (OpCas «"a"» v60 0 0 1) two_keys = Done (RRes Stored) self_evicted /\
  memory_used self_evicted = 133 /\ total (data self_evicted) = 208 /\
  max_memory self_evicted = 200.
Proof.
  split; [exact two_keys_reachable|]. split_and!; by_vm.
Qed.

Lemma huge_ttl_panics_witness :
  set 2 «"b"» «"1"» 0 U64_MAX two_keys = Panicked two_keys /\
  cas 2 «"b"» «"1"» 0 U64_MAX (cas_unique item_b) two_keys = Panicked (poison two_keys).
Proof. apply (huge_ttl_panics 2 «"b"» «"1"» 0 U64_MAX two_keys item_b); done || by_vm. Defined.

Lemma poisoned_store_is_dead_witness :
  exists s', run 3 (OpDelete «"a"») (poison two_keys) = Panicked s'.
Proof. apply (poisoned_store_is_dead 3 (OpDelete «"a"») (poison two_keys)). by_vm. Defined.

End witnesses.
