(* ===== verification/Memcached.v ===== *)
(** * The memcached text protocol (src/protocols/memcached/parser.rs)

    Commands, the two entry points [parse] and [parse_with_data] and the response
    texts.  A parser is a [comp]: every index, slice and [unreachable!] that the
    code relies on is written out, so that the absence of panics is a theorem. *)

From S2P Require Import Prelude RustStd.

Definition MAX_KEY_LENGTH : Z := 250.

Inductive Command : Type :=
| CmdGet (keys : list bytes)
| CmdGets (keys : list bytes)
| CmdSet (key : bytes) (flags exptime bytes : Z) (noreply : bool)
| CmdAdd (key : bytes) (flags exptime bytes : Z) (noreply : bool)
| CmdReplace (key : bytes) (flags exptime bytes : Z) (noreply : bool)
| CmdAppend (key : bytes) (flags exptime bytes : Z) (noreply : bool)
| CmdPrepend (key : bytes) (flags exptime bytes : Z) (noreply : bool)
| CmdCas (key : bytes) (flags exptime bytes cas_unique : Z) (noreply : bool)
| CmdDelete (key : bytes) (noreply : bool)
| CmdIncr (key : bytes) (value : Z) (noreply : bool)
| CmdDecr (key : bytes) (value : Z) (noreply : bool)
| CmdFlushAll (delay : Z) (noreply : bool)
| CmdStats
| CmdVersion
| CmdQuit.

Inductive ParseError : Type :=
| Incomplete
| InvalidCommand (msg : bytes)
| KeyTooLong (key : bytes)
| InvalidNumber (msg : bytes)
| UnknownCommand (cmd : bytes).

Inductive ParseResult : Type :=
| Complete (command : Command) (consumed : Z)
| NeedData (command_bytes data_bytes : Z)
| Error (e : ParseError).

#[export] Instance Command_eq_dec : EqDecision Command.
Proof. solve_decision. Defined.
#[export] Instance ParseError_eq_dec : EqDecision ParseError.
Proof. solve_decision. Defined.

(** [impl Display for ParseError] *)
Definition display_error (e : ParseError) : bytes :=
  match e with
  | Incomplete => «"Incomplete command"»
  | InvalidCommand msg => «"Invalid command: "» ++ msg
  | KeyTooLong key => «"Key too long: "» ++ key
  | InvalidNumber msg => «"Invalid number: "» ++ msg
  | UnknownCommand cmd => «"Unknown command: "» ++ cmd
  end.

(** ** The command line *)

Definition is_noreply (part : bytes) : bool := eq_ignore_ascii_case part «"noreply"».

(** [parts.len() > i && parts[i].eq_ignore_ascii_case("noreply")] *)
Definition noreply_at (parts : list bytes) (i : Z) : comp bool :=
  if i <? len parts then part ← index parts i; mret (is_noreply part) else mret false.

(** The loop of [parse_get]: the first key that is too long ends it. *)
Fixpoint collect_keys (parts : list bytes) : ParseError + list bytes :=
  match parts with
  | [] => inr []
  | key :: rest =>
      if MAX_KEY_LENGTH <? len key then inl (KeyTooLong key)
      else match collect_keys rest with
           | inl e => inl e
           | inr keys => inr (key :: keys)
           end
  end.

Definition parse_get (parts : list bytes) (with_cas : bool) (command_bytes : Z) : comp ParseResult :=
  if len parts <? 2 then mret (Error (InvalidCommand «"get requires at least one key"»))
  else
    args ← slice parts 1 (len parts);
    match collect_keys args with
    | inl e => mret (Error e)
    | inr keys =>
        mret (Complete (if with_cas then CmdGets keys else CmdGet keys) command_bytes)
    end.

Definition parse_storage (parts : list bytes) (cmd : bytes) (command_bytes : Z) : comp ParseResult :=
  if len parts <? 5 then
    mret (Error (InvalidCommand (cmd ++ «" requires key, flags, exptime, and bytes"»)))
  else
    key ← index parts 1;
    if MAX_KEY_LENGTH <? len key then mret (Error (KeyTooLong key))
    else
      flags ← index parts 2;
      if bool_decide (parse_u32 flags = None)
      then mret (Error (InvalidNumber («"Invalid flags: "» ++ flags)))
      else
        exptime ← index parts 3;
        if bool_decide (parse_u64 exptime = None)
        then mret (Error (InvalidNumber («"Invalid exptime: "» ++ exptime)))
        else
          nbytes ← index parts 4;
          match parse_usize nbytes with
          | Some b => mret (NeedData command_bytes b)
          | None => mret (Error (InvalidNumber («"Invalid bytes: "» ++ nbytes)))
          end.

Definition parse_cas (parts : list bytes) (command_bytes : Z) : comp ParseResult :=
  if len parts <? 6 then
    mret (Error (InvalidCommand «"cas requires key, flags, exptime, bytes, and cas unique"»))
  else
    key ← index parts 1;
    if MAX_KEY_LENGTH <? len key then mret (Error (KeyTooLong key))
    else
      nbytes ← index parts 4;
      match parse_usize nbytes with
      | Some b => mret (NeedData command_bytes b)
      | None => mret (Error (InvalidNumber («"Invalid bytes: "» ++ nbytes)))
      end.

Definition parse_delete (parts : list bytes) (command_bytes : Z) : comp ParseResult :=
  if len parts <? 2 then mret (Error (InvalidCommand «"delete requires a key"»))
  else
    key ← index parts 1;
    if MAX_KEY_LENGTH <? len key then mret (Error (KeyTooLong key))
    else
      noreply ← noreply_at parts 2;
      mret (Complete (CmdDelete key noreply) command_bytes).

Definition parse_incr_decr (parts : list bytes) (is_incr : bool) (command_bytes : Z)
    : comp ParseResult :=
  if len parts <? 3 then
    mret (Error (InvalidCommand
      ((if is_incr then «"incr"» else «"decr"») ++ «" requires key and value"»)))
  else
    key ← index parts 1;
    if MAX_KEY_LENGTH <? len key then mret (Error (KeyTooLong key))
    else
      amount ← index parts 2;
      match parse_u64 amount with
      | None => mret (Error (InvalidNumber («"Invalid value: "» ++ amount)))
      | Some value =>
          noreply ← noreply_at parts 3;
          mret (Complete (if is_incr then CmdIncr key value noreply
                          else CmdDecr key value noreply) command_bytes)
      end.

Definition parse_flush_all (parts : list bytes) (command_bytes : Z) : comp ParseResult :=
  if 1 <? len parts then
    part ← index parts 1;
    if is_noreply part then mret (Complete (CmdFlushAll 0 true) command_bytes)
    else
      noreply ← noreply_at parts 2;
      mret (Complete (CmdFlushAll (default 0 (parse_u64 part)) noreply) command_bytes)
  else mret (Complete (CmdFlushAll 0 false) command_bytes).

Section parser.
Context `{BP : BuildProfile, UC : UnicodeCase}.

(** The [match command_name.as_str()] of [Parser::parse]. *)
Definition dispatch (command_name : bytes) (parts : list bytes) (n : Z) : comp ParseResult :=
  if bool_decide (command_name = «"get"») then parse_get parts false n
  else if bool_decide (command_name = «"gets"») then parse_get parts true n
  else if bool_decide (command_name = «"set"») then parse_storage parts «"set"» n
  else if bool_decide (command_name = «"add"») then parse_storage parts «"add"» n
  else if bool_decide (command_name = «"replace"») then parse_storage parts «"replace"» n
  else if bool_decide (command_name = «"append"») then parse_storage parts «"append"» n
  else if bool_decide (command_name = «"prepend"») then parse_storage parts «"prepend"» n
  else if bool_decide (command_name = «"cas"») then parse_cas parts n
  else if bool_decide (command_name = «"delete"») then parse_delete parts n
  else if bool_decide (command_name = «"incr"») then parse_incr_decr parts true n
  else if bool_decide (command_name = «"decr"») then parse_incr_decr parts false n
  else if bool_decide (command_name = «"flush_all"») then parse_flush_all parts n
  else if bool_decide (command_name = «"stats"») then mret (Complete CmdStats n)
  else if bool_decide (command_name = «"version"») then mret (Complete CmdVersion n)
  else if bool_decide (command_name = «"quit"») then mret (Complete CmdQuit n)
  else mret (Error (UnknownCommand command_name)).

(** The first lines of [parse] and of [parse_with_data]: the command line is cut
    out, checked and split, and [k name parts command_line_bytes] goes on.  A Rust
    slice has at most [isize::MAX] bytes, so [line_end + 2] is in range. *)
Definition with_line (buffer : bytes)
    (k : bytes -> list bytes -> Z -> comp ParseResult) : comp ParseResult :=
  match find_crlf buffer with
  | None => mret (Error Incomplete)
  | Some line_end =>
      raw ← slice buffer 0 line_end;
      match from_utf8 raw with
      | None => mret (Error (InvalidCommand «"Invalid UTF-8 in command"»))
      | Some line =>
          let parts := split_whitespace line in
          if bool_decide (parts = []) then mret (Error (InvalidCommand «"Empty command"»))
          else
            part0 ← index parts 0;
            k (to_lowercase part0) parts (line_end + 2)
      end
  end.

(** [Parser::parse] *)
Definition parse (buffer : bytes) : comp ParseResult := with_line buffer dispatch.

(** ** The command with its data block *)

Definition is_storage_name (command_name : bytes) : bool :=
  bool_decide (command_name ∈ [«"set"»; «"add"»; «"replace"»; «"append"»; «"prepend"»]).

(** The size of the data block and whether the command is [cas]. *)
Definition data_size (command_name : bytes) (parts : list bytes) : comp (ParseError + Z * bool) :=
  if is_storage_name command_name then
    if len parts <? 5 then mret (inl (InvalidCommand «"Storage command missing parameters"»))
    else
      nbytes ← index parts 4;
      match parse_usize nbytes with
      | Some b => mret (inr (b, false))
      | None => mret (inl (InvalidNumber «"Invalid bytes"»))
      end
  else if bool_decide (command_name = «"cas"») then
    if len parts <? 6 then mret (inl (InvalidCommand «"cas command missing parameters"»))
    else
      nbytes ← index parts 4;
      match parse_usize nbytes with
      | Some b => mret (inr (b, true))
      | None => mret (inl (InvalidNumber «"Invalid bytes"»))
      end
  else mret (inl (InvalidCommand «"Not a storage command"»)).

(** The final [match] of [parse_with_data]; its last arm is [unreachable!()]. *)
Definition build_command (command_name : bytes) (parts : list bytes) (key : bytes)
    (flags exptime data_bytes : Z) (noreply : bool) : comp Command :=
  if bool_decide (command_name = «"set"») then mret (CmdSet key flags exptime data_bytes noreply)
  else if bool_decide (command_name = «"add"») then mret (CmdAdd key flags exptime data_bytes noreply)
  else if bool_decide (command_name = «"replace"»)
  then mret (CmdReplace key flags exptime data_bytes noreply)
  else if bool_decide (command_name = «"append"»)
  then mret (CmdAppend key flags exptime data_bytes noreply)
  else if bool_decide (command_name = «"prepend"»)
  then mret (CmdPrepend key flags exptime data_bytes noreply)
  else if bool_decide (command_name = «"cas"») then
    unique ← index parts 5;
    mret (CmdCas key flags exptime data_bytes (default 0 (parse_u64 unique)) noreply)
  else Panic.

(** [parse_with_data] from the size of the data block on. *)
Definition with_data_block (buffer command_name : bytes) (parts : list bytes)
    (command_line_bytes data_bytes : Z) (is_cas : bool) : comp ParseResult :=
  data_end ← usize_add command_line_bytes data_bytes;
  total_needed ← usize_add data_end 2;
  if len buffer <? total_needed then mret (Error Incomplete)
  else
    bad ← missing_crlf buffer data_end;
    if (bad : bool) then mret (Error (InvalidCommand «"Data block must end with \r\n"»))
    else
      key ← index parts 1;
      if MAX_KEY_LENGTH <? len key then mret (Error (KeyTooLong key))
      else
        part2 ← index parts 2;
        part3 ← index parts 3;
        noreply ← noreply_at parts (if is_cas then 6 else 5);
        command ← build_command command_name parts key (default 0 (parse_u32 part2))
                    (default 0 (parse_u64 part3)) data_bytes noreply;
        mret (Complete command total_needed).

(** [Parser::parse_with_data] *)
Definition parse_with_data (buffer : bytes) : comp ParseResult :=
  with_line buffer (fun command_name parts command_line_bytes =>
    r ← data_size command_name parts;
    match r with
    | inl e => mret (Error e)
    | inr (data_bytes, is_cas) =>
        with_data_block buffer command_name parts command_line_bytes data_bytes is_cas
    end).

(** [Parser::extract_data] *)
Definition extract_data (buffer : bytes) (command_bytes data_bytes : Z) : comp (option bytes) :=
  data_end ← usize_add command_bytes data_bytes;
  total ← usize_add data_end 2;
  if len buffer <? total then mret None
  else d ← slice buffer command_bytes data_end; mret (Some d).

End parser.

(** ** Responses *)

Module Response.

Definition line (s : bytes) : bytes := s ++ crlf.
Definition space : bytes := «" "».

Definition value (key : bytes) (flags : Z) (data : bytes) (cas : option Z) : bytes :=
  let header := «"VALUE "» ++ key ++ space ++ dec flags ++ space ++ dec (len data) in
  line (match cas with Some c => header ++ space ++ dec c | None => header end) ++ line data.

Definition rend : bytes := line «"END"».
Definition stored : bytes := line «"STORED"».
Definition not_stored : bytes := line «"NOT_STORED"».
Definition exists_ : bytes := line «"EXISTS"».
Definition not_found : bytes := line «"NOT_FOUND"».
Definition deleted : bytes := line «"DELETED"».
Definition ok : bytes := line «"OK"».
Definition error : bytes := line «"ERROR"».
Definition client_error (msg : bytes) : bytes := line («"CLIENT_ERROR "» ++ msg).
Definition server_error (msg : bytes) : bytes := line («"SERVER_ERROR "» ++ msg).
Definition version : bytes := line «"VERSION grow-a-cache 0.1.0"».
Definition numeric (v : Z) : bytes := line (dec v).
Definition stat (name v : bytes) : bytes := line («"STAT "» ++ name ++ space ++ v).

End Response.
