(* ===== verification/MemcachedFacts.v ===== *)
(** * The memcached parser: totality, framing and round trips *)

From S2P Require Import Prelude RustStd RustStdFacts Memcached Concrete.

Section facts.
Context `{BP : BuildProfile, UC : UnicodeCase}.
Implicit Types (parts : list bytes) (b : bytes).

(** ** What the command line determines *)

(** The parse of one line: [k] runs on its words. *)
Definition on_line (line : bytes) (k : bytes -> list bytes -> Z -> comp ParseResult)
    : comp ParseResult :=
  if valid_utf8 line then
    match split_whitespace line with
    | [] => Val (Error (InvalidCommand «"Empty command"»))
    | w :: ws => k (to_lowercase w) (w :: ws) (len line + 2)
    end
  else Val (Error (InvalidCommand «"Invalid UTF-8 in command"»)).

Lemma with_line_eq line rest k :
  find_crlf line = None -> with_line (line ++ crlf ++ rest) k = on_line line k.
Proof.
  intros Hl. unfold with_line, on_line. rewrite (find_crlf_line _ _ Hl), slice_prefix. simpl.
  unfold from_utf8. destruct (valid_utf8 line); [|done].
  by destruct (split_whitespace line) as [|w ws].
Qed.

Lemma with_line_none b k : find_crlf b = None -> with_line b k = Val (Error Incomplete).
Proof. intros H. unfold with_line. by rewrite H. Qed.

(** Either no line is complete, or the first line decides. *)
Lemma line_cases b :
  find_crlf b = None \/
  exists line rest, b = line ++ crlf ++ rest /\ find_crlf line = None.
Proof.
  destruct (find_crlf b) as [z|] eqn:E; [right|by left].
  apply find_crlf_split in E as (line & rest & -> & _ & H). by exists line, rest.
Qed.

(** ** The results of the command parsers *)

Definition key_ok (k : bytes) : Prop := is_word k = true /\ len k <= MAX_KEY_LENGTH.

(** The keys a command names. *)
Definition command_keys (c : Command) : list bytes :=
  match c with
  | CmdGet ks | CmdGets ks => ks
  | CmdSet k _ _ _ _ | CmdAdd k _ _ _ _ | CmdReplace k _ _ _ _ | CmdAppend k _ _ _ _
  | CmdPrepend k _ _ _ _ | CmdCas k _ _ _ _ _ | CmdDelete k _ | CmdIncr k _ _ | CmdDecr k _ _ => [k]
  | _ => []
  end.

(** The announced size of the data block of a storage command. *)
Definition command_data (c : Command) : option Z :=
  match c with
  | CmdSet _ _ _ n _ | CmdAdd _ _ _ n _ | CmdReplace _ _ _ n _ | CmdAppend _ _ _ n _
  | CmdPrepend _ _ _ n _ | CmdCas _ _ _ n _ _ => Some n
  | _ => None
  end.

Definition is_get (c : Command) : bool :=
  match c with CmdGet _ | CmdGets _ => true | _ => false end.

(** What [parse] promises about a line of [n] bytes. *)
Definition result_ok (n : Z) (r : ParseResult) : Prop :=
  match r with
  | Complete c m =>
      m = n /\ command_data c = None /\ Forall key_ok (command_keys c) /\
      (is_get c = true -> command_keys c <> [])
  | NeedData m d => m = n /\ 0 <= d <= USIZE_MAX
  | Error e => e <> Incomplete
  end.

Definition yields_ok (n : Z) (m : comp ParseResult) : Prop :=
  exists r, m = Val r /\ result_ok n r.

Lemma yields_error n e : e <> Incomplete -> yields_ok n (mret (Error e)).
Proof. intros H. by eexists. Qed.

Lemma yields_bind {A} n (m : comp A) (f : A -> comp ParseResult) :
  (exists x, m = Val x /\ yields_ok n (f x)) -> yields_ok n (m ≫= f).
Proof. intros (x & -> & H). exact H. Qed.

(** A part is a word of the line. *)
Lemma yields_part n parts i (f : bytes -> comp ParseResult) :
  Forall (fun w => is_word w = true) parts -> 0 <= i < len parts ->
  (forall w, is_word w = true -> yields_ok n (f w)) -> yields_ok n (index parts i ≫= f).
Proof.
  intros Hw Hi Hf. destruct (index_lookup parts i Hi) as (x & E & Hx).
  apply yields_bind. exists x. split; [done|]. apply Hf. rewrite Forall_forall in Hw. by apply Hw.
Qed.

Lemma yields_noreply n parts i (f : bool -> comp ParseResult) :
  0 <= i -> (forall nr, yields_ok n (f nr)) -> yields_ok n (noreply_at parts i ≫= f).
Proof.
  intros Hi Hf. apply yields_bind. unfold noreply_at. destruct (i <? len parts) eqn:E.
  - boolify. destruct (index_lookup parts i ltac:(lia)) as (x & -> & _). by eexists.
  - by eexists.
Qed.

(** One step through a command parser. *)
Ltac parse_step :=
  first
  [ apply yields_part; [assumption|lia|intros ? ?]
  | apply yields_noreply; [lia|intros ?]
  | apply yields_error; discriminate
  | match goal with |- yields_ok _ (if ?c then _ else _) => destruct c eqn:?; boolify end
  | match goal with |- yields_ok _ (match ?c with Some _ => _ | None => _ end) => destruct c eqn:? end ].

Lemma collect_keys_ok ws :
  Forall (fun w => is_word w = true) ws ->
  match collect_keys ws with
  | inl e => e <> Incomplete
  | inr ks => ks = ws /\ Forall key_ok ks
  end.
Proof.
  induction 1 as [|w ws Hw _ IH]; simpl; [by repeat constructor|].
  destruct (_ <? _) eqn:E; [done|]. boolify. destruct (collect_keys ws) as [e|ks]; [done|].
  destruct IH as [-> IH]. split; [done|]. by constructor.
Qed.

Lemma parse_get_ok parts c n :
  Forall (fun w => is_word w = true) parts -> yields_ok n (parse_get parts c n).
Proof.
  intros Hw. unfold parse_get. destruct (len parts <? 2) eqn:E; [by apply yields_error|].
  destruct parts as [|w ws]; [done|]. rewrite slice_from. simpl.
  apply Forall_cons in Hw as [_ Hws]. pose proof (collect_keys_ok ws Hws) as H.
  destruct (collect_keys ws) as [e|ks]; [by apply yields_error|]. destruct H as [-> H].
  boolify. autorewrite with cache in E. eexists. split; [done|]. simpl.
  destruct c; simpl; split_and!; try done; intros _ ->; unfold len in E; simpl in E; lia.
Qed.

Lemma parse_storage_ok parts cmd n :
  Forall (fun w => is_word w = true) parts -> yields_ok n (parse_storage parts cmd n).
Proof.
  intros Hw. unfold parse_storage. repeat parse_step.
  eexists. split; [done|]. split; [done|]. by eapply parse_unsigned_range.
Qed.

Lemma parse_cas_ok parts n :
  Forall (fun w => is_word w = true) parts -> yields_ok n (parse_cas parts n).
Proof.
  intros Hw. unfold parse_cas. repeat parse_step.
  eexists. split; [done|]. split; [done|]. by eapply parse_unsigned_range.
Qed.

Lemma key_command_ok n c k :
  command_data c = None -> command_keys c = [k] -> is_word k = true -> len k <= MAX_KEY_LENGTH ->
  yields_ok n (mret (Complete c n)).
Proof.
  intros Hd Hk Hw Hl. eexists. split; [done|]. simpl. rewrite Hk.
  split_and!; [done|done| |done]. by repeat constructor.
Qed.

Lemma parse_delete_ok parts n :
  Forall (fun w => is_word w = true) parts -> yields_ok n (parse_delete parts n).
Proof. intros Hw. unfold parse_delete. repeat parse_step. by eapply key_command_ok. Qed.

Lemma parse_incr_decr_ok parts i n :
  Forall (fun w => is_word w = true) parts -> yields_ok n (parse_incr_decr parts i n).
Proof.
  intros Hw. unfold parse_incr_decr. repeat (parse_step || destruct i);
    by eapply key_command_ok.
Qed.

Lemma parse_flush_all_ok parts n :
  Forall (fun w => is_word w = true) parts -> yields_ok n (parse_flush_all parts n).
Proof.
  intros Hw. unfold parse_flush_all. repeat parse_step; eexists; (split; [done|]);
    simpl; by split_and!.
Qed.

Lemma dispatch_ok name parts n :
  Forall (fun w => is_word w = true) parts -> yields_ok n (dispatch name parts n).
Proof.
  intros Hw. unfold dispatch.
  repeat match goal with |- yields_ok _ (if ?c then _ else _) => destruct c end;
    auto using parse_get_ok, parse_storage_ok, parse_cas_ok, parse_delete_ok,
      parse_incr_decr_ok, parse_flush_all_ok, yields_error;
    try (eexists; (split; [done|]); simpl; by split_and!).
Qed.

Lemma parse_line_ok line rest :
  find_crlf line = None -> yields_ok (len line + 2) (parse (line ++ crlf ++ rest)).
Proof.
  intros Hl. unfold parse. rewrite with_line_eq by done. unfold on_line.
  destruct (valid_utf8 line) eqn:Hv; [|by apply yields_error].
  pose proof (split_whitespace_words _ Hv) as Hw.
  destruct (split_whitespace line); [by apply yields_error|]. by apply dispatch_ok.
Qed.

(** ** The data block *)

(** What a [NeedData] answer says about the line. *)
Record needs_data (name : bytes) parts (d : Z) (is_cas : bool) : Prop := {
  nd_size : data_size name parts = Val (inr (d, is_cas));
  nd_len : (if is_cas then 6 else 5) <= len parts;
  nd_key : exists key, index parts 1 = Val key /\ len key <= MAX_KEY_LENGTH;
  nd_name : if is_cas then name = «"cas"» else is_storage_name name = true
}.

Lemma parse_storage_NeedData name parts cmd n c d :
  is_storage_name name = true -> parse_storage parts cmd n = Val (NeedData c d) ->
  c = n /\ needs_data name parts d false.
Proof.
  intros Hn. unfold parse_storage, mret, comp_ret, mbind, comp_bind. intros H.
  comp_cases H. boolify. split; [done|]. split; [|lia|eauto|done].
  unfold data_size. rewrite Hn, (proj2 (Z.ltb_ge _ _)) by lia.
  unfold mret, comp_ret, mbind, comp_bind.
  repeat match goal with E : ?x = Val _ |- context [?x] => rewrite E end.
  by match goal with E : parse_usize _ = _ |- _ => rewrite E end.
Qed.

Lemma parse_cas_NeedData parts n c d :
  parse_cas parts n = Val (NeedData c d) -> c = n /\ needs_data «"cas"» parts d true.
Proof.
  unfold parse_cas, mret, comp_ret, mbind, comp_bind. intros H.
  comp_cases H. boolify. split; [done|]. split; [|lia|eauto|done].
  unfold data_size, is_storage_name. simpl. rewrite (proj2 (Z.ltb_ge _ _)) by lia.
  unfold mret, comp_ret, mbind, comp_bind.
  repeat match goal with E : ?x = Val _ |- context [?x] => rewrite E end.
  by match goal with E : parse_usize _ = _ |- _ => rewrite E end.
Qed.

Lemma dispatch_NeedData name parts n c d :
  dispatch name parts n = Val (NeedData c d) -> c = n /\ exists ic, needs_data name parts d ic.
Proof.
  assert (Hs : is_storage_name name = true -> forall cmd,
      parse_storage parts cmd n = Val (NeedData c d) -> c = n /\ exists ic, needs_data name parts d ic).
  { intros Hn cmd [? ?]%(parse_storage_NeedData name); eauto. }
  unfold dispatch.
  repeat match goal with |- (if bool_decide ?c then _ else _) = _ -> _ =>
    destruct (bool_decide c) eqn:?; [boolify; subst name|] end.
  all: try (apply Hs; reflexivity).
  all: try (intros [? ?]%parse_cas_NeedData; by eauto).
  all: unfold parse_get, parse_delete, parse_incr_decr, parse_flush_all, noreply_at,
    mret, comp_ret, mbind, comp_bind; intros H; comp_cases H; done.
Qed.

(** The command that [parse_with_data] builds. *)
Lemma build_command_ok name parts d ic key f e nr :
  needs_data name parts d ic ->
  exists cmd, build_command name parts key f e d nr = Val cmd /\
    command_data cmd = Some d /\ command_keys cmd = [key].
Proof.
  intros [_ Hl _ Hn]. unfold build_command. destruct ic.
  - subst name. simpl. destruct (index_lookup parts 5 ltac:(lia)) as (u & -> & _). by eexists.
  - unfold is_storage_name in Hn. boolify.
    repeat (apply elem_of_cons in Hn as [->|Hn]; [by eexists|]).
    by apply elem_of_nil in Hn.
Qed.

Lemma with_data_block_eq buf name parts n d ic :
  needs_data name parts d ic -> 0 <= n -> 0 <= d -> n + d + 2 <= USIZE_MAX ->
  exists cmd, command_data cmd = Some d /\ (exists key, index parts 1 = Val key /\
      len key <= MAX_KEY_LENGTH /\ command_keys cmd = [key]) /\
    with_data_block buf name parts n d ic =
      if len buf <? n + d + 2 then Val (Error Incomplete)
      else if bool_decide (take 2 (drop (Z.to_nat (n + d)) buf) = crlf)
      then Val (Complete cmd (n + d + 2))
      else Val (Error (InvalidCommand «"Data block must end with \r\n"»)).
Proof.
  intros Hnd Hn Hd Hm. pose proof Hnd as [_ Hl (key & Hk & Hkl) _].
  destruct (index_lookup parts 2) as (p2 & E2 & _); [destruct ic; lia|].
  destruct (index_lookup parts 3) as (p3 & E3 & _); [destruct ic; lia|].
  assert (exists nr, noreply_at parts (if ic then 6 else 5) = Val nr) as [nr Enr].
  { unfold noreply_at. destruct (_ <? len parts) eqn:E; [|by eexists]. boolify.
    destruct (index_lookup parts (if ic then 6 else 5)) as (? & -> & _); [destruct ic; lia|by eexists]. }
  destruct (build_command_ok name parts d ic key (default 0 (parse_u32 p2))
    (default 0 (parse_u64 p3)) nr Hnd) as (cmd & Ec & Hcd & Hck).
  exists cmd. split; [done|]. split; [by exists key|]. unfold with_data_block.
  rewrite usize_add_small by lia. simpl. rewrite usize_add_small by lia. simpl.
  destruct (_ <? n + d + 2) eqn:El; [done|]. boolify. rewrite missing_crlf_eq by lia. simpl.
  destruct (bool_decide (take 2 _ = crlf)); [simpl|done].
  rewrite Hk. simpl. rewrite (proj2 (Z.ltb_ge _ _)) by done.
  rewrite E2. simpl. rewrite E3. simpl. rewrite Enr. simpl. by rewrite Ec.
Qed.

End facts.
