(* ===== verification/MemcachedThms.v ===== *)
(** * Theorems about the memcached parser

    It never panics, it frames the input (the answer depends on the first line only,
    and on the data block for [parse_with_data]), it accepts only legal keys, and it
    inverts the printer of commands. *)

From S2P Require Import Prelude RustStd RustStdFacts Memcached Concrete MemcachedFacts.

(** ** Printing commands *)

Definition print_noreply (noreply : bool) : list bytes := if noreply then [«"noreply"»] else [].

(** The words of a command line as a client writes them. *)
Definition command_words (c : Command) : list bytes :=
  let store name k f e n (nr : bool) := [name; k; dec f; dec e; dec n] ++ print_noreply nr in
  match c with
  | CmdGet ks => «"get"» :: ks
  | CmdGets ks => «"gets"» :: ks
  | CmdSet k f e n nr => store «"set"» k f e n nr
  | CmdAdd k f e n nr => store «"add"» k f e n nr
  | CmdReplace k f e n nr => store «"replace"» k f e n nr
  | CmdAppend k f e n nr => store «"append"» k f e n nr
  | CmdPrepend k f e n nr => store «"prepend"» k f e n nr
  | CmdCas k f e n u nr => [«"cas"»; k; dec f; dec e; dec n; dec u] ++ print_noreply nr
  | CmdDelete k nr => [«"delete"»; k] ++ print_noreply nr
  | CmdIncr k v nr => [«"incr"»; k; dec v] ++ print_noreply nr
  | CmdDecr k v nr => [«"decr"»; k; dec v] ++ print_noreply nr
  | CmdFlushAll t nr => [«"flush_all"»; dec t] ++ print_noreply nr
  | CmdStats => [«"stats"»]
  | CmdVersion => [«"version"»]
  | CmdQuit => [«"quit"»]
  end.

Definition print_line (c : Command) : bytes := unwords (command_words c) ++ crlf.

Definition u64_ok (n : Z) : Prop := 0 <= n <= U64_MAX.

(** The numbers of a command fit their Rust types, and a retrieval names a key. *)
Definition numbers_ok (c : Command) : Prop :=
  match c with
  | CmdGet ks | CmdGets ks => ks <> []
  | CmdSet _ f e n _ | CmdAdd _ f e n _ | CmdReplace _ f e n _ | CmdAppend _ f e n _
  | CmdPrepend _ f e n _ => 0 <= f <= U32_MAX /\ u64_ok e /\ u64_ok n
  | CmdCas _ f e n u _ => 0 <= f <= U32_MAX /\ u64_ok e /\ u64_ok n /\ u64_ok u
  | CmdIncr _ v _ | CmdDecr _ v _ | CmdFlushAll v _ => u64_ok v
  | _ => True
  end.

Definition legal (c : Command) : Prop := Forall key_ok (command_keys c) /\ numbers_ok c.

Section thms.
Context `{BP : BuildProfile, UC : UnicodeCase}.

(** ** Words and numbers of a printed command *)

Lemma noreply_words nr : Forall (fun w => is_word w = true) (print_noreply nr).
Proof. destruct nr; by repeat constructor. Qed.

Lemma keys_words ks : Forall key_ok ks -> Forall (fun w => is_word w = true) ks.
Proof. intros H. eapply Forall_impl; [exact H|]. by intros k [? _]. Qed.

Lemma command_words_ok c :
  legal c -> Forall (fun w => is_word w = true) (command_words c).
Proof.
  intros [Hk Hn]. apply keys_words in Hk.
  destruct c; cbn [command_words command_keys numbers_ok] in *; unfold u64_ok in *;
    destruct_and?; try (constructor; [reflexivity|]; by apply Hk);
    try apply Forall_cons in Hk as [Hk _];
    simpl; repeat (apply Forall_cons; split; [by first [assumption|apply dec_word; lia|reflexivity]|]);
    try apply noreply_words; constructor.
Qed.

(** The parse of printed words: the command parser gets the words back. *)
Lemma with_line_unwords w ws rest k :
  Forall (fun w => is_word w = true) (w :: ws) -> forallb is_ascii w = true ->
  with_line (unwords (w :: ws) ++ crlf ++ rest) k =
    k (map ascii_lower w) (w :: ws) (len (unwords (w :: ws)) + 2).
Proof.
  intros Hw Ha. rewrite with_line_eq by (by apply no_lf_find_crlf, unwords_no_lf).
  unfold on_line. rewrite valid_unwords, split_whitespace_unwords by done.
  by rewrite ascii_to_lowercase.
Qed.

Lemma collect_keys_print ks : Forall key_ok ks -> collect_keys ks = inr ks.
Proof.
  induction 1 as [|k ks [_ Hk] _ IH]; [done|]. simpl.
  by rewrite (proj2 (Z.ltb_ge _ _)), IH by done.
Qed.

Lemma noreply_at_print l nr : noreply_at (l ++ print_noreply nr) (len l) = Val nr.
Proof.
  unfold noreply_at, index. rewrite len_app. pose proof (len_nonneg l).
  destruct nr; simpl; unfold print_noreply; autorewrite with cache.
  - rewrite (proj2 (Z.ltb_lt _ _)), (proj2 (Z.ltb_ge (len l) 0)) by lia.
    unfold len. rewrite Nat2Z.id, list_lookup_middle; done.
  - by rewrite (proj2 (Z.ltb_ge _ _)) by lia.
Qed.

Lemma parts_index {A} l nr i x (f : bytes -> comp A) :
  index l i = Val x -> i < len l -> (index (l ++ print_noreply nr) i ≫= f) = f x.
Proof. intros H Hi. by rewrite index_app_l, H. Qed.

Lemma parts_short (l nr : list bytes) n : n <= len l -> (len (l ++ nr) <? n) = false.
Proof. intros H. rewrite len_app. pose proof (len_nonneg nr). apply Z.ltb_ge. lia. Qed.

Lemma key_short k : key_ok k -> (MAX_KEY_LENGTH <? len k) = false.
Proof. intros [_ H]. by apply Z.ltb_ge. Qed.

(** Evaluate a command parser on printed words. *)
Ltac printed :=
  repeat first
  [ rewrite parts_short by (vm_compute; discriminate)
  | erewrite parts_index; [|reflexivity|reflexivity]
  | rewrite key_short by assumption
  | rewrite parse_unsigned_dec by (unfold USIZE_MAX, U32_MAX, U64_MAX in *; lia)
  | rewrite bool_decide_eq_false_2 by discriminate
  | progress cbn iota beta ].

Lemma print_storage name k f e n nr m :
  key_ok k -> 0 <= f <= U32_MAX -> u64_ok e -> u64_ok n ->
  parse_storage ([name; k; dec f; dec e; dec n] ++ print_noreply nr) name m = Val (NeedData m n).
Proof.
  unfold u64_ok. intros Hk Hf He Hn. unfold parse_storage, parse_u32, parse_u64, parse_usize.
  printed. done.
Qed.

Lemma print_cas k f e n u nr m :
  key_ok k -> u64_ok n ->
  parse_cas ([«"cas"»; k; dec f; dec e; dec n; dec u] ++ print_noreply nr) m = Val (NeedData m n).
Proof.
  unfold u64_ok. intros Hk Hn. unfold parse_cas, parse_usize. printed. done.
Qed.

Lemma print_get name ks (with_cas : bool) m :
  Forall key_ok ks -> ks <> [] ->
  parse_get (name :: ks) with_cas m =
    Val (Complete (if with_cas then CmdGets ks else CmdGet ks) m).
Proof.
  intros Hk Hne. unfold parse_get. rewrite slice_from. destruct ks as [|k ks]; [done|].
  autorewrite with cache. pose proof (len_nonneg ks). rewrite (proj2 (Z.ltb_ge _ _)) by lia.
  cbn [mbind comp_bind]. by rewrite collect_keys_print.
Qed.

Lemma print_incr_decr name k v nr (i : bool) m :
  key_ok k -> u64_ok v ->
  parse_incr_decr ([name; k; dec v] ++ print_noreply nr) i m =
    Val (Complete (if i then CmdIncr k v nr else CmdDecr k v nr) m).
Proof.
  unfold u64_ok. intros Hk Hv. unfold parse_incr_decr, parse_u64. printed.
  change 3 with (len [name; k; dec v]). by rewrite noreply_at_print.
Qed.

(** A number is not the word [noreply]. *)
Lemma dec_not_noreply n : 0 <= n -> is_noreply (dec n) = false.
Proof.
  intros Hn. pose proof (dec_digits n Hn) as Hd. pose proof (dec_nonempty n) as Hne.
  destruct (dec n) as [|b l]; [done|]. apply Forall_cons in Hd as [Hb _].
  apply bool_decide_eq_false_2. cbn [map]. intros [= Hx _]. revert Hb Hx.
  clear. destruct b; vm_compute; discriminate.
Qed.

Lemma print_flush_all name t nr m :
  u64_ok t ->
  parse_flush_all ([name; dec t] ++ print_noreply nr) m = Val (Complete (CmdFlushAll t nr) m).
Proof.
  unfold u64_ok. intros Ht. unfold parse_flush_all, parse_u64.
  rewrite (proj2 (Z.ltb_lt _ _)) by (rewrite len_app; pose proof (len_nonneg (print_noreply nr));
    autorewrite with cache; lia).
  printed. rewrite dec_not_noreply by lia. printed.
  change 2 with (len [name; dec t]). rewrite noreply_at_print. done.
Qed.

Lemma data_size_storage name k f e n nr :
  is_storage_name name = true -> u64_ok n ->
  data_size name (name :: [k; dec f; dec e; dec n] ++ print_noreply nr) = Val (inr (n, false)).
Proof.
  unfold u64_ok. intros Hs Hn.
  change (name :: [k; dec f; dec e; dec n] ++ print_noreply nr)
    with ([name; k; dec f; dec e; dec n] ++ print_noreply nr). unfold data_size, parse_usize. rewrite Hs. printed. done.
Qed.

Lemma data_size_cas k f e n u nr :
  u64_ok n ->
  data_size «"cas"» («"cas"» :: [k; dec f; dec e; dec n; dec u] ++ print_noreply nr)
    = Val (inr (n, true)).
Proof.
  unfold u64_ok. intros Hn.
  change («"cas"» :: [k; dec f; dec e; dec n; dec u] ++ print_noreply nr)
    with ([«"cas"»; k; dec f; dec e; dec n; dec u] ++ print_noreply nr). unfold data_size, parse_usize, is_storage_name.
  change (bool_decide («"cas"» ∈ _)) with false. cbn iota.
  rewrite bool_decide_eq_true_2 by done. printed. done.
Qed.

(** [parse_with_data] on the printed words [l] of a storage command, optionally
    followed by [noreply]. *)
Lemma print_block buf name l nr m n (ic : bool) k f e cmd :
  len l = (if ic then 6 else 5) ->
  index l 1 = Val k -> index l 2 = Val (dec f) -> index l 3 = Val (dec e) ->
  key_ok k -> 0 <= f <= U32_MAX -> u64_ok e -> 0 <= m -> u64_ok n ->
  m + n + 2 <= USIZE_MAX -> m + n + 2 <= len buf ->
  take 2 (drop (Z.to_nat (m + n)) buf) = crlf ->
  build_command name (l ++ print_noreply nr) k f e n nr = Val cmd ->
  with_data_block buf name (l ++ print_noreply nr) m n ic = Val (Complete cmd (m + n + 2)).
Proof.
  unfold u64_ok. intros Hl H1 H2 H3 Hk Hf He Hm Hn Hmax Hb Ht Hc. unfold with_data_block.
  rewrite usize_add_small by lia. simpl. rewrite usize_add_small by lia. simpl.
  rewrite (proj2 (Z.ltb_ge _ _)) by done. rewrite missing_crlf_eq by lia. simpl.
  rewrite bool_decide_eq_true_2 by done. simpl.
  rewrite (parts_index _ _ _ _ _ H1) by (destruct ic; lia). rewrite key_short by done.
  rewrite (parts_index _ _ _ _ _ H2) by (destruct ic; lia).
  rewrite (parts_index _ _ _ _ _ H3) by (destruct ic; lia).
  rewrite <- Hl, noreply_at_print. simpl. unfold parse_u32, parse_u64.
  rewrite !parse_unsigned_dec by lia. simpl. by rewrite Hc.
Qed.

(** The terminator of a data block in place. *)
Lemma block_terminator (p d rest : bytes) m :
  m = len p ->
  take 2 (drop (Z.to_nat (m + len d)) (p ++ d ++ crlf ++ rest)) = crlf /\
  m + len d + 2 <= len (p ++ d ++ crlf ++ rest).
Proof.
  intros ->. unfold crlf. autorewrite with cache. pose proof (len_nonneg rest). split; [|lia].
  rewrite app_assoc, drop_app_length'; [done|]. rewrite length_app. unfold len. lia.
Qed.

(** The five storage commands of one shape. *)
Record stores (c : Command) (name k : bytes) (f e n : Z) (nr : bool) : Prop := {
  st_words : command_words c = name :: [k; dec f; dec e; dec n] ++ print_noreply nr;
  st_name : is_storage_name name = true;
  st_lower : map ascii_lower name = name;
  st_ascii : forallb is_ascii name = true;
  st_build : forall parts, build_command name parts k f e n nr = Val c;
  st_key : key_ok k;
  st_flags : 0 <= f <= U32_MAX;
  st_exp : u64_ok e
}.

Lemma storage_shape c n :
  legal c -> command_data c = Some n ->
  u64_ok n /\
  ((exists name k f e nr, stores c name k f e n nr) \/
   (exists k f e u nr, c = CmdCas k f e n u nr /\ key_ok k /\ 0 <= f <= U32_MAX /\ u64_ok e /\ u64_ok u)).
Proof.
  intros [Hk Hn] Hd. destruct c; try done; injection Hd as ->; cbn [command_keys numbers_ok] in *;
    apply Forall_cons in Hk as [Hk _]; destruct_and?; (split; [done|]).
  all: try (left; do 5 eexists; split; [reflexivity|reflexivity|reflexivity|reflexivity|reflexivity|done..]).
  right. by exists key, flags, exptime, cas_unique, noreply.
Qed.

Lemma dispatch_storage name parts m :
  is_storage_name name = true -> dispatch name parts m = parse_storage parts name m.
Proof.
  unfold is_storage_name. intros Hn. boolify.
  repeat (apply elem_of_cons in Hn as [->|Hn]; [done|]). by apply elem_of_nil in Hn.
Qed.

Lemma print_storage_header c n rest :
  legal c -> command_data c = Some n ->
  parse (print_line c ++ rest) = Val (NeedData (len (print_line c)) n).
Proof.
  intros Hl Hd. pose proof (command_words_ok c Hl) as Hw.
  unfold print_line, parse. rewrite <- app_assoc, len_app. change (len crlf) with 2.
  destruct (storage_shape c n Hl Hd) as (Hn & [(name & k & f & e & nr & [E Hs Hlow Ha _ Hk Hf He])
    |(k & f & e & u & nr & -> & Hk & Hf & He & _)]).
  - rewrite E in Hw |- *. rewrite with_line_unwords, Hlow by done.
    rewrite dispatch_storage by done. by apply print_storage.
  - change (command_words _) with
      («"cas"» :: [k; dec f; dec e; dec n; dec u] ++ print_noreply nr) in *.
    rewrite with_line_unwords by done. by apply print_cas.
Qed.

Lemma print_storage_data c data rest :
  legal c -> command_data c = Some (len data) ->
  len (print_line c) + len data + 2 <= USIZE_MAX ->
  parse_with_data (print_line c ++ data ++ crlf ++ rest) =
    Val (Complete c (len (print_line c) + len data + 2)).
Proof.
  intros Hl Hd Hm. destruct (block_terminator (print_line c) data rest _ eq_refl) as [Ht Hb].
  pose proof (command_words_ok c Hl) as Hw. pose proof (len_nonneg (print_line c)) as Hp.
  set (buffer := print_line c ++ data ++ crlf ++ rest) in *.
  assert (Eb : buffer = unwords (command_words c) ++ crlf ++ data ++ crlf ++ rest)
    by (unfold buffer, print_line; by rewrite <- app_assoc).
  assert (El : len (print_line c) = len (unwords (command_words c)) + 2)
    by (unfold print_line; by rewrite len_app).
  unfold parse_with_data. rewrite Eb at 1. rewrite El in *.
  destruct (storage_shape c _ Hl Hd) as (Hn & [(name & k & f & e & nr & [E Hs Hlow Ha Hbc Hk Hf He])
    |(k & f & e & u & nr & -> & Hk & Hf & He & Hu)]).
  - rewrite E in *. rewrite with_line_unwords, Hlow by done.
    rewrite data_size_storage by done.
    by apply (print_block _ _ [name; k; dec f; dec e; dec (len data)] nr _ _ false k f e).
  - change (command_words _) with
      («"cas"» :: [k; dec f; dec e; dec (len data); dec u] ++ print_noreply nr) in *.
    rewrite with_line_unwords by done.
    change (map ascii_lower «"cas"») with «"cas"».
    rewrite data_size_cas by done.
    apply (print_block _ _ [«"cas"»; k; dec f; dec e; dec (len data); dec u] nr _ _ true k f e); try done.
    unfold build_command. simpl bool_decide. cbn iota.
    erewrite parts_index; [|reflexivity|reflexivity]. unfold parse_u64.
    by rewrite parse_unsigned_dec.
Qed.

Lemma parse_more b r more :
  parse b = Val r -> r <> Error Incomplete -> parse (b ++ more) = Val r.
Proof.
  intros Hr Hi. destruct (line_cases b) as [H|(line & rest & -> & Hl)].
  - unfold parse in Hr. rewrite with_line_none in Hr by done. by simplify_eq.
  - rewrite <- Hr. unfold parse. rewrite <- !app_assoc. by rewrite !with_line_eq.
Qed.

Lemma parse_header b c d :
  parse b = Val (NeedData c d) -> 0 < c <= len b /\ 0 <= d <= USIZE_MAX.
Proof.
  intros Hp. destruct (line_cases b) as [H|(line & rest & -> & Hl)].
  { unfold parse in Hp. by rewrite with_line_none in Hp. }
  destruct (parse_line_ok line rest Hl) as (r & Hr & Hok). rewrite Hp in Hr. injection Hr as <-.
  destruct Hok as [-> Hd]. split; [|done]. unfold crlf. autorewrite with cache.
  pose proof (len_nonneg line). pose proof (len_nonneg rest). lia.
Qed.

(** A line that announces a data block of [d] bytes: a storage command or [cas], with a
    legal key and the size as its fifth word. *)
Definition announces (line : bytes) (d : Z) : Prop :=
  exists name key flg exptime size more,
    split_whitespace line = name :: key :: flg :: exptime :: size :: more /\
    key_ok key /\ parse_usize size = Some d /\
    (is_storage_name (to_lowercase name) = true \/ to_lowercase name = «"cas"» /\ more <> []).

Lemma needs_data_announces w ws d ic :
  Forall (fun x => is_word x = true) (w :: ws) -> needs_data (to_lowercase w) (w :: ws) d ic ->
  exists key flg exptime size more, ws = key :: flg :: exptime :: size :: more /\ key_ok key /\
    parse_usize size = Some d /\
    (is_storage_name (to_lowercase w) = true \/ to_lowercase w = «"cas"» /\ more <> []).
Proof.
  intros Hw [Hs Hl (key & Hk & Hkl) Hn].
  destruct ws as [|k [|fl [|ex [|sz more]]]]; [destruct ic; unfold len in Hl; simpl in Hl; lia..|].
  assert (k = key) as -> by (unfold index in Hk; simpl in Hk; congruence).
  exists key, fl, ex, sz, more. split_and!; [done| | |].
  - split; [|done]. by apply Forall_cons in Hw as [_ [Hw _]%Forall_cons].
  - assert (Hlt : forall n, n <= 5 -> (len (w :: key :: fl :: ex :: sz :: more) <? n) = false).
    { intros n Hn5. apply Z.ltb_ge. unfold len. simpl. lia. }
    assert (E4 : index (w :: key :: fl :: ex :: sz :: more) 4 = Val sz) by done.
    unfold data_size in Hs. rewrite Hlt in Hs by lia. rewrite E4 in Hs. unfold mret, comp_ret, mbind, comp_bind in Hs.
    by comp_cases Hs.
  - destruct ic; [right|by left]. split; [done|]. intros ->. unfold len in Hl. simpl in Hl. lia.
Qed.

Lemma parse_announces line rest c d :
  find_crlf line = None -> parse (line ++ crlf ++ rest) = Val (NeedData c d) -> announces line d.
Proof.
  intros Hl. unfold parse. rewrite with_line_eq by done. unfold on_line, announces.
  destruct (valid_utf8 line) eqn:Hv; [|done]. pose proof (split_whitespace_words _ Hv) as Hw.
  destruct (split_whitespace line) as [|w ws]; [done|]. intros [_ [ic Hnd]]%dispatch_NeedData.
  destruct (needs_data_announces _ _ _ _ Hw Hnd) as (k & f & e & z & more & -> & ? & ? & ?).
  by exists w, k, f, e, z, more.
Qed.

Lemma with_data_decides b c d :
  parse b = Val (NeedData c d) -> c + d + 2 <= USIZE_MAX ->
  exists cmd, command_data cmd = Some d /\
    (exists key, command_keys cmd = [key] /\ key_ok key) /\
    parse_with_data b =
      if len b <? c + d + 2 then Val (Error Incomplete)
      else if bool_decide (take 2 (drop (Z.to_nat (c + d)) b) = crlf)
      then Val (Complete cmd (c + d + 2))
      else Val (Error (InvalidCommand «"Data block must end with \r\n"»)).
Proof.
  intros Hp Hm. destruct (line_cases b) as [H|(line & rest & -> & Hl)].
  { unfold parse in Hp. by rewrite with_line_none in Hp. }
  destruct (parse_line_ok line rest Hl) as (r & Hr & Hok). rewrite Hp in Hr. injection Hr as <-.
  destruct Hok as [-> Hd]. revert Hp. unfold parse, parse_with_data. rewrite !with_line_eq by done.
  unfold on_line. destruct (valid_utf8 line) eqn:Hv; [|done].
  pose proof (split_whitespace_words _ Hv) as Hw.
  destruct (split_whitespace line) as [|w ws]; [done|].
  intros [_ [ic Hnd]]%dispatch_NeedData.
  pose proof (len_nonneg line).
  destruct (with_data_block_eq (line ++ crlf ++ rest) _ _ (len line + 2) d ic Hnd)
    as (cmd & Hcd & (key & Hk & Hkl & Hck) & Heq); [lia..|].
  exists cmd. split; [done|]. split.
  - exists key. split; [done|]. split; [|done].
    assert (Hl2 : 1 < len (w :: ws)) by (pose proof (nd_len _ _ _ _ Hnd); destruct ic; lia).
    destruct (index_lookup (w :: ws) 1 ltac:(lia)) as (x & E & Hx).
    rewrite Hk in E. injection E as <-.
    rewrite Forall_forall in Hw. by apply Hw.
  - rewrite (nd_size _ _ _ _ Hnd). exact Heq.
Qed.

Lemma print_simple c rest :
  legal c -> command_data c = None ->
  parse (print_line c ++ rest) = Val (Complete c (len (print_line c))).
Proof.
  intros Hl Hd. pose proof (command_words_ok c Hl) as Hw. destruct Hl as [Hk Hn].
  unfold print_line. rewrite <- app_assoc, len_app. change (len crlf) with 2.
  destruct c; try done; cbn [command_words command_keys numbers_ok app] in *; unfold u64_ok in *;
    unfold parse; rewrite with_line_unwords by done;
    set (m := len (unwords _) + 2); try (apply Forall_cons in Hk as [Hk _]).
  - change (parse_get («"get"» :: keys) false m = Val (Complete (CmdGet keys) m)).
    by apply print_get.
  - change (parse_get («"gets"» :: keys) true m = Val (Complete (CmdGets keys) m)).
    by apply print_get.
  - change (parse_delete ([«"delete"»; key] ++ print_noreply noreply) m
      = Val (Complete (CmdDelete key noreply) m)).
    unfold parse_delete. printed. change 2 with (len [«"delete"»; key]). by rewrite noreply_at_print.
  - change (parse_incr_decr ([«"incr"»; key; dec value] ++ print_noreply noreply) true m
      = Val (Complete (CmdIncr key value noreply) m)). by apply print_incr_decr.
  - change (parse_incr_decr ([«"decr"»; key; dec value] ++ print_noreply noreply) false m
      = Val (Complete (CmdDecr key value noreply) m)). by apply print_incr_decr.
  - change (parse_flush_all ([«"flush_all"»; dec delay] ++ print_noreply noreply) m
      = Val (Complete (CmdFlushAll delay noreply) m)). by apply print_flush_all.
  - done.
  - done.
  - done.
Qed.

(** ** Theorems *)

(** C30: [parse], the first pass over a command, never panics, on any bytes.  It asks for
    more input exactly when no CR LF has arrived.  Otherwise a complete command lies
    inside the buffer and names only legal keys (non-empty, at most 250 bytes of valid
    UTF-8 without white space); or the line up to its CR LF is a storage command or
    [cas] with a legal key and a data size, and that size is what it reports. *)
Theorem parse_total b :
  exists r, parse b = Val r /\
    (r = Error Incomplete <-> find_crlf b = None) /\
    match r with
    | Complete c n => 0 < n <= len b /\ Forall key_ok (command_keys c) /\ command_data c = None
    | NeedData n d => 0 < n <= len b /\ 0 <= d <= USIZE_MAX /\ announces (take (Z.to_nat (n - 2)) b) d
    | Error _ => True
    end.
Proof.
  destruct (line_cases b) as [H|(line & rest & -> & Hl)].
  - exists (Error Incomplete). unfold parse. rewrite with_line_none; done.
  - destruct (parse_line_ok line rest Hl) as (r & Hr & Hok). exists r. split; [done|].
    rewrite (find_crlf_line _ _ Hl). unfold crlf. autorewrite with cache.
    pose proof (len_nonneg line). pose proof (len_nonneg rest).
    split; [split; [intros ->; by simpl in Hok|done]|].
    destruct r as [c n|n d|e]; simpl in Hok; destruct_and?; split_and?; try done; try lia.
    subst n. rewrite take_app_length' by (unfold len; lia). by eapply parse_announces.
Qed.

(** Framing. Once [parse] answers anything but incomplete, the answer is decided
    by the first line alone: bytes that arrive later do not change it, and the bytes
    it reports as consumed are enough to get the same answer. *)
Theorem parse_framing b r :
  parse b = Val r -> r <> Error Incomplete ->
  (forall more, parse (b ++ more) = Val r) /\
  match r with
  | Complete _ n | NeedData n _ => parse (take (Z.to_nat n) b) = Val r
  | Error _ => True
  end.
Proof.
  intros Hr Hi. split; [intros more; by apply parse_more|].
  destruct (line_cases b) as [H|(line & rest & -> & Hl)].
  { unfold parse in Hr. rewrite with_line_none in Hr by done. by simplify_eq. }
  destruct (parse_line_ok line rest Hl) as (r' & Hr' & Hok).
  rewrite Hr in Hr'. injection Hr' as <-.
  assert (Ht : take (Z.to_nat (len line + 2)) (line ++ crlf ++ rest) = line ++ crlf ++ []).
  { rewrite app_assoc, app_nil_r, take_app_length'; [done|]. rewrite length_app. unfold len. simpl. lia. }
  destruct r as [c n|n d|e]; simpl in Hok; [| |done]; destruct Hok as [-> _];
    rewrite Ht, <- Hr; unfold parse; by rewrite !with_line_eq.
Qed.

(** C35: Once the header of a storage command is in, [parse_with_data] waits for
    exactly the announced data block and its CR LF; then it returns a command with
    that size and one legal key, consuming header, data and terminator, or rejects a
    block that does not end with CR LF. It does not panic (the sizes fit [usize]). *)
Theorem parse_with_data_decides b c d :
  parse b = Val (NeedData c d) -> c + d + 2 <= USIZE_MAX ->
  exists cmd, command_data cmd = Some d /\
    (exists key, command_keys cmd = [key] /\ key_ok key) /\
    parse_with_data b =
      if len b <? c + d + 2 then Val (Error Incomplete)
      else if bool_decide (take 2 (drop (Z.to_nat (c + d)) b) = crlf)
      then Val (Complete cmd (c + d + 2))
      else Val (Error (InvalidCommand «"Data block must end with \r\n"»)).
Proof. apply with_data_decides. Qed.

(** Round trip. Printing a legal command without data and parsing it gives the
    command back and consumes exactly its line, whatever follows. *)
Theorem parse_print c rest :
  legal c -> command_data c = None ->
  parse (print_line c ++ rest) = Val (Complete c (len (print_line c))).
Proof. apply print_simple. Qed.

(** C16: Round trip of the storage commands. Of the printed line [parse] reports the
    header and the size of the data; with the data block and its CR LF in place
    [parse_with_data] gives the command back, consumes exactly header, data and
    terminator, and the data block is found where it was put. *)
Theorem parse_print_storage c data rest :
  legal c -> command_data c = Some (len data) ->
  len (print_line c) + len data + 2 <= USIZE_MAX ->
  let buffer := print_line c ++ data ++ crlf ++ rest in
  parse buffer = Val (NeedData (len (print_line c)) (len data)) /\
  parse_with_data buffer = Val (Complete c (len (print_line c) + len data + 2)) /\
  extract_data buffer (len (print_line c)) (len data) = Val (Some data).
Proof.
  intros Hl Hd Hm buffer. split_and!.
  - unfold buffer. by apply print_storage_header.
  - by apply print_storage_data.
  - unfold extract_data. rewrite usize_add_small by lia. simpl. rewrite usize_add_small by done.
    simpl. destruct (block_terminator (print_line c) data rest _ eq_refl) as [_ Hb].
    rewrite (proj2 (Z.ltb_ge _ _)) by done. unfold buffer. by rewrite slice_middle.
Qed.

End thms.

(** ** Witnesses *)

Section witnesses.
#[local] Existing Instances release some_unicode.

(** A pipelined input: a command and the start of the next one. *)
Definition two_commands : bytes := «"GET key1 key2"» ++ crlf ++ «"set key1 5 0 "».

Lemma parse_framing_witness :
  (forall more, parse (two_commands ++ more) = Val (Complete (CmdGet [«"key1"»; «"key2"»]) 15)) /\
  parse (take 15 two_commands) = Val (Complete (CmdGet [«"key1"»; «"key2"»]) 15).
Proof.
  apply (parse_framing two_commands (Complete (CmdGet [«"key1"»; «"key2"»]) 15)); [by_vm|done].
Defined.

Definition set_key1 : bytes := «"set key1 5 60 2"» ++ crlf ++ «"ab"» ++ crlf.

Lemma parse_with_data_decides_witness :
  exists cmd, command_data cmd = Some 2 /\
    (exists key, command_keys cmd = [key] /\ key_ok key) /\
    parse_with_data set_key1 =
      if len set_key1 <? 21 then Val (Error Incomplete)
      else if bool_decide (take 2 (drop 19 set_key1) = crlf)
      then Val (Complete cmd 21)
      else Val (Error (InvalidCommand «"Data block must end with \r\n"»)).
Proof. apply (parse_with_data_decides set_key1 17 2); [by_vm|done]. Defined.

Definition incr_example : Command := CmdIncr «"key1"» 41 true.

Lemma parse_print_witness :
  parse (print_line incr_example ++ «"get"») = Val (Complete incr_example 22).
Proof. apply (parse_print incr_example «"get"»); [|done]. repeat split; try done. by repeat constructor. Defined.

Definition cas_example : Command := CmdCas «"key1"» 7 60 2 99 false.

Lemma parse_print_storage_witness :
  parse (print_line cas_example ++ «"ab"» ++ crlf ++ []) = Val (NeedData 20 2) /\
  parse_with_data (print_line cas_example ++ «"ab"» ++ crlf ++ []) = Val (Complete cas_example 24) /\
  extract_data (print_line cas_example ++ «"ab"» ++ crlf ++ []) 20 2 = Val (Some «"ab"»).
Proof.
  apply (parse_print_storage cas_example «"ab"» []); [|done|done].
  repeat split; try done. by repeat constructor.
Defined.

(** A data size close to [usize::MAX]: the sum that bounds the data block wraps. *)
Definition huge_set : bytes := «"set k 0 0 18446744073709551614"» ++ crlf.

(** [parse_with_data] on its own does not defend against a data size near
    [usize::MAX]. The size check wraps around in a release build, so the parser
    reports a complete command of 2^64 - 2 data bytes after its bare header; the same
    line panics in a debug build. (Callers check the size first.) *)
Lemma parse_with_data_size_overflow :
  @parse_with_data release some_unicode huge_set =
    Val (Complete (CmdSet «"k"» 0 0 18446744073709551614 false) (len huge_set)) /\
  @parse_with_data debug some_unicode huge_set = Panic.
Proof. split; by_vm. Qed.

End witnesses.
