(* ===== verification/RespFacts.v ===== *)
(** * The RESP codec: lemmas on headers, element loops and nesting *)

From S2P Require Import Prelude RustStd RustStdFacts Resp.

(** ** Induction on frames *)

Lemma Frame_rect' (P : Frame -> Prop) :
  (forall s, P (Simple s)) -> (forall s, P (FError s)) -> (forall n, P (Integer n)) ->
  (forall d, P (Bulk d)) -> P (Array None) ->
  (forall fs, Forall P fs -> P (Array (Some fs))) -> forall f, P f.
Proof.
  intros Hs He Hi Hb Hn Ha. fix IH 1. intros [s|s|n|d|[fs|]]; [auto..| |auto].
  apply Ha. induction fs as [|f fs IHfs]; constructor; [apply IH|exact IHfs].
Qed.

(** ** Encoding *)

Lemma fold_encode fs b :
  Forall (fun f => forall buf, encode_into f buf = buf ++ encode f) fs ->
  fold_left (fun b f => encode_into f b) fs b = b ++ concat (encode <$> fs).
Proof.
  intros H. revert b. induction H as [|f fs Hf _ IH]; intros b; csimpl; [by rewrite app_nil_r|].
  by rewrite Hf, IH, app_assoc.
Qed.

Lemma encode_into_app f buf : encode_into f buf = buf ++ encode f.
Proof.
  revert buf. induction f as [s|s|n|[d|]| |fs IH] using Frame_rect'; intros buf; try done.
  unfold encode. cbn [encode_into]. rewrite !fold_encode by done. by rewrite app_nil_l, <- !app_assoc.
Qed.

Lemma encode_array fs :
  encode (Array (Some fs)) = «"*"» ++ dec (len fs) ++ crlf ++ concat (encode <$> fs).
Proof.
  unfold encode at 1. cbn [encode_into]. rewrite fold_encode.
  - by rewrite app_nil_l, <- !app_assoc.
  - apply Forall_forall. intros f _ buf. apply encode_into_app.
Qed.

Lemma encode_cons f : exists x l, encode f = x :: l.
Proof.
  destruct f as [s|s|n|[d|]|[fs|]]; try (eexists _, _; reflexivity).
  rewrite encode_array. eexists _, _. reflexivity.
Qed.

Lemma encode_nonempty f : 0 < len (encode f).
Proof. destruct (encode_cons f) as (x & l & ->). rewrite len_cons. pose proof (len_nonneg l). lia. Qed.

(** ** Headers *)

Lemma find_crlf_cons x s : x <> CR -> find_crlf s = None -> find_crlf (x :: s) = None.
Proof.
  intros Hx Hs. apply find_crlf_None. intros [|j].
  - unfold crlf_at. simpl. by rewrite bool_decide_eq_false_2 by congruence.
  - rewrite find_crlf_None in Hs. apply (Hs j).
Qed.

Lemma header_eq x s rest bad k :
  x <> CR -> find_crlf (x :: s) = None ->
  header (x :: s ++ crlf ++ rest) bad k =
    if valid_utf8 s then k s (1 + len s) else Val (Error bad).
Proof.
  intros Hx Hs. unfold header.
  change (x :: s ++ crlf ++ rest) with ((x :: s) ++ crlf ++ rest).
  rewrite (find_crlf_line _ _ Hs), len_cons.
  pose proof (slice_middle [x] s (crlf ++ rest)) as E. change (len [x]) with 1 in E.
  change ((x :: s) ++ crlf ++ rest) with ([x] ++ s ++ crlf ++ rest). rewrite E. simpl.
  unfold from_utf8. by destruct (valid_utf8 s).
Qed.

Lemma header_none b bad k : find_crlf b = None -> header b bad k = Val Incomplete.
Proof. intros H. unfold header. by rewrite H. Qed.

Lemma header_cases x b :
  x <> CR ->
  find_crlf (x :: b) = None \/
  exists s rest, b = s ++ crlf ++ rest /\ find_crlf (x :: s) = None.
Proof.
  intros Hx. destruct (find_crlf (x :: b)) as [z|] eqn:E; [right|by left].
  apply find_crlf_split in E as ([|y line] & rest & E & _ & Hl); unfold crlf in E; simplify_eq/=.
  by exists line, rest.
Qed.

Lemma slice_suffix {A} (p l : list A) : slice (p ++ l) (len p) (len (p ++ l)) = Val l.
Proof.
  pose proof (slice_middle p l []) as H. rewrite app_nil_r in H. by rewrite len_app.
Qed.

Section facts.
Context `{BP : BuildProfile, FL : FrameLayout}.

(** ** The five parsers on a header that is in *)

Lemma parse_at_simple d s rest :
  find_crlf s = None -> valid_utf8 s = true ->
  parse_at (S d) («"+"» ++ s ++ crlf ++ rest) = Val (Complete (Simple s) (len s + 3)).
Proof.
  intros Hs Hv. change (parse_simple_string (Byte.x2b :: s ++ crlf ++ rest) =
    Val (Complete (Simple s) (len s + 3))).
  unfold parse_simple_string. rewrite header_eq, Hv by (done || by apply find_crlf_cons).
  cbv [mret comp_ret]. do 2 f_equal. lia.
Qed.

Lemma parse_at_error d s rest :
  find_crlf s = None -> valid_utf8 s = true ->
  parse_at (S d) («"-"» ++ s ++ crlf ++ rest) = Val (Complete (FError s) (len s + 3)).
Proof.
  intros Hs Hv. change (parse_error (Byte.x2d :: s ++ crlf ++ rest) =
    Val (Complete (FError s) (len s + 3))).
  unfold parse_error. rewrite header_eq, Hv by (done || by apply find_crlf_cons).
  cbv [mret comp_ret]. do 2 f_equal. lia.
Qed.

(** A decimal number in a header. *)
Lemma dec_signed_word n : is_word (dec_signed n) = true.
Proof.
  unfold dec_signed. destruct (n <? 0) eqn:E; boolify; [|by apply dec_word].
  assert (Hd := dec_digits (- n) ltac:(lia)). revert Hd. generalize (dec (- n)) as l.
  intros l Hd. destruct l as [|c l]; [reflexivity|].
  assert (Hw := digits_word (c :: l) ltac:(done) Hd). apply is_word_inv in Hw as (_ & Hv & Hc).
  unfold is_word. rewrite bool_decide_eq_true_2 by done.
  rewrite (valid_utf8_cons _ (ascii_chunk MINUS) (c :: l)) by done.
  rewrite (utf8_chunks_cons _ (ascii_chunk MINUS) (c :: l)) by done. rewrite Hv.
  apply forallb_forall. intros ch Hch%list_elem_of_In. rewrite Forall_forall in Hc.
  apply elem_of_cons in Hch as [->|Hch]; [done|]. by rewrite (Hc _ Hch).
Qed.

Lemma word_header x w :
  x <> CR -> is_word w = true -> find_crlf (x :: w) = None /\ valid_utf8 w = true.
Proof.
  intros Hx Hw. split.
  - apply find_crlf_cons; [done|]. apply no_lf_find_crlf. by apply word_no_ws.
  - by apply is_word_inv in Hw as (_ & ? & _).
Qed.

Lemma parse_at_integer d n rest :
  I64_MIN <= n <= I64_MAX ->
  parse_at (S d) («":"» ++ dec_signed n ++ crlf ++ rest) =
    Val (Complete (Integer n) (len (dec_signed n) + 3)).
Proof.
  intros Hn. change (parse_integer (Byte.x3a :: dec_signed n ++ crlf ++ rest) =
    Val (Complete (Integer n) (len (dec_signed n) + 3))).
  destruct (word_header Byte.x3a _ ltac:(done) (dec_signed_word n)) as [Hc Hv].
  unfold parse_integer. rewrite header_eq, Hv, parse_i64_dec by done.
  cbv [mret comp_ret]. do 2 f_equal. lia.
Qed.

Lemma dec_signed_nonneg n : 0 <= n -> dec_signed n = dec n.
Proof. intros H. unfold dec_signed. by rewrite (proj2 (Z.ltb_ge n 0)). Qed.

Lemma parse_at_bulk d data rest :
  len data <= I64_MAX -> len («"$"» ++ dec (len data) ++ crlf ++ data ++ crlf ++ rest) <= USIZE_MAX ->
  parse_at (S d) («"$"» ++ dec (len data) ++ crlf ++ data ++ crlf ++ rest) =
    Val (Complete (Bulk (Some data)) (len (dec (len data)) + len data + 5)).
Proof.
  intros Hd Hm. change (parse_bulk_string (Byte.x24 :: dec (len data) ++ crlf ++ data ++ crlf ++ rest) =
    Val (Complete (Bulk (Some data)) (len (dec (len data)) + len data + 5))).
  pose proof (len_nonneg data) as H0.
  destruct (word_header Byte.x24 _ ltac:(done) (dec_word _ H0)) as [Hc Hv].
  unfold parse_bulk_string. rewrite header_eq, Hv by done. rewrite <- dec_signed_nonneg at 1 by done.
  rewrite parse_i64_dec by (unfold I64_MIN; lia). rewrite (proj2 (Z.ltb_ge _ _)) by done.
  set (h := len (dec (len data))) in *. unfold crlf in Hm. autorewrite with cache in Hm.
  change (len «"$"») with 1 in Hm. pose proof (len_nonneg (dec (len data))). fold h in H, Hm.
  pose proof (len_nonneg rest). cbv zeta.
  rewrite usize_add_small by lia. cbn [mbind comp_bind].
  rewrite usize_add_small by lia. cbn [mbind comp_bind].
  set (b := Byte.x24 :: dec (len data) ++ crlf ++ data ++ crlf ++ rest).
  assert (Eb : b = (Byte.x24 :: dec (len data) ++ crlf) ++ data ++ crlf ++ rest)
    by (unfold b; simpl; by rewrite <- app_assoc).
  assert (Ep : len (Byte.x24 :: dec (len data) ++ crlf) = 1 + h + 2)
    by (unfold crlf; autorewrite with cache; fold h; lia).
  assert (El : len b = 1 + h + 2 + len data + (2 + len rest))
    by (rewrite Eb, len_app, Ep; unfold crlf; autorewrite with cache; lia).
  rewrite (proj2 (Z.ltb_ge _ _)) by lia. rewrite missing_crlf_eq by lia. simpl.
  rewrite bool_decide_eq_true_2.
  - simpl. rewrite Eb, <- Ep, slice_middle. simpl. cbv [mret comp_ret]. do 2 f_equal. lia.
  - rewrite Eb, app_assoc, drop_app_length'; [done|]. rewrite length_app. unfold len in *. lia.
Qed.

(** ** The element loop on encoded frames *)

Definition parses (parse_one : bytes -> comp ParseResult) (f : Frame) : Prop :=
  forall rest, len (encode f ++ rest) <= USIZE_MAX ->
  parse_one (encode f ++ rest) = Val (Complete f (len (encode f))).

Lemma parse_elems_print parse_one fs fuel p acc rest :
  Forall (parses parse_one) fs -> (length fs < fuel)%nat ->
  len (p ++ concat (encode <$> fs) ++ rest) <= USIZE_MAX ->
  parse_elems parse_one fuel (p ++ concat (encode <$> fs) ++ rest) (len fs) (len p) acc =
    Val (Complete (Array (Some (acc ++ fs))) (len p + len (concat (encode <$> fs)))).
Proof.
  intros Hfs. revert fuel p acc. induction Hfs as [|f fs Hf _ IH]; intros fuel p acc Hfuel Hm.
  - destruct fuel; [simpl in Hfuel; lia|]. csimpl. rewrite len_nil, Z.add_0_r, app_nil_r. done.
  - destruct fuel as [|fuel]; [simpl in Hfuel; lia|].
    rewrite fmap_cons in *. cbn [concat parse_elems] in *. rewrite <- !app_assoc in *.
    pose proof (encode_nonempty f). set (es := concat (encode <$> fs)) in *.
    pose proof (len_nonneg es). pose proof (len_nonneg fs). pose proof (len_nonneg rest).
    pose proof Hm as Hm'. autorewrite with cache in Hm'. pose proof (len_nonneg p).
    rewrite (proj2 (Z.eqb_neq _ 0)) by (rewrite len_cons; lia).
    rewrite (proj2 (Z.leb_gt _ _)) by (autorewrite with cache; lia).
    rewrite slice_suffix. cbn [mbind comp_bind]. rewrite Hf by (autorewrite with cache; lia).
    cbn [mbind comp_bind]. rewrite usize_add_small by lia. cbn [mbind comp_bind].
    rewrite len_cons. replace (1 + len fs - 1) with (len fs) by lia.
    rewrite <- len_app, app_assoc, IH; [|simpl in Hfuel; lia|by rewrite <- app_assoc].
    rewrite <- app_assoc. cbn [app]. rewrite !len_app. do 2 f_equal. lia.
Qed.

(** ** Results lie inside the buffer *)

Definition inside (b : bytes) (r : comp ParseResult) : Prop :=
  forall f n, r = Val (Complete f n) -> 0 < n <= len b.

Lemma header_inside c b bad k :
  c <> CR ->
  (forall s e, 0 < e -> e + 2 <= len (c :: b) -> inside (c :: b) (k s e)) ->
  inside (c :: b) (header (c :: b) bad k).
Proof.
  intros Hc Hk f n. destruct (header_cases c b Hc) as [H|(s & rest & -> & Hs)].
  - by rewrite header_none.
  - rewrite header_eq by done. destruct (valid_utf8 s); [|done].
    apply Hk; unfold crlf; autorewrite with cache;
      pose proof (len_nonneg s); pose proof (len_nonneg rest); lia.
Qed.

Lemma parse_elems_inside parse_one b fuel n off acc :
  (forall q, len q < len b -> inside q (parse_one q)) -> len b <= USIZE_MAX ->
  0 < off <= len b ->
  inside b (parse_elems parse_one fuel b n off acc).
Proof.
  intros Hone Hb. revert n off acc. induction fuel as [|fuel IH]; intros n off acc Ho f m; [done|].
  cbn [parse_elems]. destruct (n =? 0); [intros [= <- <-]; lia|].
  destruct (len b <=? off) eqn:E; [done|]. boolify.
  destruct (slice b off (len b)) as [q|] eqn:Es; [|done]. cbn [mbind comp_bind].
  apply slice_Val in Es as (Eq & _). assert (Hq : len q = len b - off).
  { subst q. unfold len in *. rewrite length_take, length_drop. lia. }
  destruct (parse_one q) as [[fr c| |e]|] eqn:Eo; try done. cbn [mbind comp_bind].
  apply Hone in Eo; [|lia]. rewrite usize_add_small by lia. cbn [mbind comp_bind].
  apply IH. lia.
Qed.

End facts.
