(* ===== verification/RespThms.v ===== *)
(** * Theorems about the RESP codec *)

From S2P Require Import Prelude RustStd RustStdFacts Resp RespFacts Concrete.

(** ** Frames that can be sent

    Simple strings and errors are UTF-8 without CR LF, integers fit [i64], and the
    elements of an array fit a block the allocator hands out. *)

Fixpoint frame_ok `{FrameLayout} (f : Frame) : bool :=
  match f with
  | Simple s | FError s => valid_utf8 s && bool_decide (find_crlf s = None)
  | Integer n => (I64_MIN <=? n) && (n <=? I64_MAX)
  | Bulk None | Array None => true
  | Bulk (Some d) => len d <=? I64_MAX
  | Array (Some fs) => (len fs * size_of_Frame <=? max_alloc) && forallb frame_ok fs
  end.

(** Nested calls of [parse] for a frame. *)
Fixpoint frame_depth (f : Frame) : nat :=
  match f with
  | Array (Some fs) => S (list_max (map frame_depth fs))
  | _ => 1
  end.

Section thms.
Context `{BP : BuildProfile, FL : FrameLayout}.

(** ** Round trip *)

Lemma len_frames_i64 (fs : list Frame) : len fs * size_of_Frame <= max_alloc -> len fs <= I64_MAX.
Proof. pose proof size_of_Frame_big. pose proof max_alloc_isize. pose proof (len_nonneg fs). nia. Qed.

Lemma length_frames fs : (length fs <= length (concat (encode <$> fs)))%nat.
Proof.
  induction fs as [|f fs IH]; [done|]. csimpl. rewrite length_app.
  pose proof (encode_nonempty f). unfold len in *. lia.
Qed.

Lemma array_header d n rest :
  0 <= n <= I64_MAX -> n * size_of_Frame <= max_alloc ->
  let b := «"*"» ++ dec n ++ crlf ++ rest in
  parse_at (S d) b = parse_elems (parse_at d) (S (length b)) b n (len (dec n) + 3) [].
Proof.
  intros Hn Hc b. change (parse_array (parse_at d) (Byte.x2a :: dec n ++ crlf ++ rest) =
    parse_elems (parse_at d) (S (length b)) b n (len (dec n) + 3) []).
  destruct (word_header Byte.x2a _ ltac:(done) (dec_word n ltac:(lia))) as [Hh Hv].
  unfold parse_array. rewrite header_eq, Hv by done. rewrite <- dec_signed_nonneg at 1 by lia.
  rewrite parse_i64_dec by (unfold I64_MIN; lia). rewrite (proj2 (Z.ltb_ge _ _)) by lia.
  unfold with_capacity. rewrite (proj2 (Z.leb_le _ _)) by done. cbn [mbind comp_bind mret comp_ret].
  change (Byte.x2a :: dec n ++ crlf ++ rest) with b. f_equal. lia.
Qed.

Lemma parse_at_encode f d :
  frame_ok f = true -> (frame_depth f <= d)%nat -> parses (parse_at d) f.
Proof.
  revert d. induction f as [s|s|n|[data|]| |fs IH] using Frame_rect'; intros d Hok Hd rest Hm;
    (destruct d as [|d]; [simpl in Hd; lia|]).
  - cbn [frame_ok] in Hok. boolify. unfold encode in *. cbn [encode_into] in *. rewrite app_nil_l in *.
    rewrite <- !app_assoc. rewrite parse_at_simple by done. do 2 f_equal.
    unfold crlf. autorewrite with cache. change (len «"+"») with 1. lia.
  - cbn [frame_ok] in Hok. boolify. unfold encode in *. cbn [encode_into] in *. rewrite app_nil_l in *.
    rewrite <- !app_assoc. rewrite parse_at_error by done. do 2 f_equal.
    unfold crlf. autorewrite with cache. change (len «"-"») with 1. lia.
  - cbn [frame_ok] in Hok. boolify. unfold encode in *. cbn [encode_into] in *. rewrite app_nil_l in *.
    rewrite <- !app_assoc. rewrite parse_at_integer by lia. do 2 f_equal.
    unfold crlf. autorewrite with cache. change (len «":"») with 1. lia.
  - cbn [frame_ok] in Hok. boolify. unfold encode in *. cbn [encode_into] in *. rewrite app_nil_l in *.
    rewrite <- !app_assoc in *. rewrite parse_at_bulk by done. do 2 f_equal.
    unfold crlf. autorewrite with cache. change (len «"$"») with 1. lia.
  - change (parse_bulk_string (Byte.x24 :: «"-1"» ++ crlf ++ rest) = Val (Complete (Bulk None) 5)).
    unfold parse_bulk_string. by rewrite header_eq.
  - change (parse_array (parse_at d) (Byte.x2a :: «"-1"» ++ crlf ++ rest) = Val (Complete (Array None) 5)).
    unfold parse_array. by rewrite header_eq.
  - cbn [frame_ok] in Hok. boolify. rewrite encode_array in *. rewrite <- !app_assoc in *.
    pose proof (len_frames_i64 fs ltac:(done)). pose proof (len_nonneg fs).
    rewrite array_header by (done || lia).
    set (p := «"*"» ++ dec (len fs) ++ crlf).
    assert (Ep : forall l, «"*"» ++ dec (len fs) ++ crlf ++ l = p ++ l)
      by (intros l; unfold p; by rewrite <- !app_assoc).
    assert (El : len (dec (len fs)) + 3 = len p)
      by (unfold p, crlf; autorewrite with cache; change (len «"*"») with 1; lia).
    rewrite El, !Ep in *. rewrite len_app. apply (parse_elems_print _ _ _ _ []).
    + apply Forall_forall. intros f Hf. rewrite Forall_forall in IH. apply IH; [done|..].
      * eapply forallb_forall; [eassumption|]. by apply list_elem_of_In.
      * simpl in Hd. assert (frame_depth f <= list_max (map frame_depth fs))%nat; [|lia].
        pose proof (proj1 (list_max_le (map frame_depth fs) _) (le_n _)) as Hx.
        rewrite List.Forall_forall in Hx. apply Hx. apply in_map. by apply list_elem_of_In.
    + rewrite !length_app. pose proof (length_frames fs). lia.
    + done.
Qed.

(** ** Results lie inside the buffer *)

Lemma bulk_range len_end n (b : bytes) :
  n <= I64_MAX -> len_end + 2 <= len b -> len b < I64_MAX -> len_end + 2 + n + 2 <= USIZE_MAX.
Proof. unfold I64_MAX, USIZE_MAX, U64_MAX. lia. Qed.

(** Case analysis on the type byte. *)
Ltac frame_type b :=
  cbn [parse_at];
  repeat match goal with |- context [if bool_decide (b = ?x) then _ else _] =>
    let Hn := fresh "Hne" in destruct (bool_decide_reflect (b = x)) as [->|Hn] end.

Lemma parse_at_inside d b : len b < I64_MAX -> inside b (parse_at d b).
Proof.
  revert b. induction d as [|d IH]; intros b Hb; [done|]. destruct b as [|c b]; [done|].
  frame_type c; try done.
  1-3: apply header_inside; [done|]; intros s e He Hl fr m; try destruct (parse_i64 s); try done;
    intros [= _ <-]; lia.
  - apply header_inside; [done|]. intros s e He Hl f m.
    destruct (parse_i64 s) as [n|] eqn:En; [|done]. apply parse_i64_max in En.
    destruct (n <? 0) eqn:E0; [intros [= _ <-]; lia|]. boolify. cbv zeta.
    pose proof (bulk_range _ _ _ En Hl Hb). rewrite usize_add_small by lia. cbn [mbind comp_bind].
    rewrite usize_add_small by lia. cbn [mbind comp_bind]. destruct (_ <? _) eqn:E; [done|]. boolify.
    destruct (missing_crlf _ _) as [[]|]; cbn [mbind comp_bind]; try done.
    destruct (slice _ _ _); cbn [mbind comp_bind]; [|done]. intros [= _ <-]. lia.
  - apply header_inside; [done|]. intros s e He Hl.
    destruct (parse_i64 s) as [n|] eqn:En; [|done].
    destruct (n <? 0) eqn:E0; [intros f m [= _ <-]; lia|].
    unfold with_capacity. destruct (_ <=? _); [|done]. cbn [mbind comp_bind mret comp_ret].
    apply parse_elems_inside; [|unfold I64_MAX, USIZE_MAX, U64_MAX in *; lia|lia].
    intros q Hq. apply IH. lia.
Qed.

(** ** More input *)

(** [m'], a computation on a longer buffer, agrees with [m] unless [m] asks for more. *)
Definition extends (m m' : comp ParseResult) : Prop := m = Val Incomplete \/ m' = m.

Lemma header_extends c b x bad k k' :
  c <> CR ->
  (forall s e, 0 < e -> e + 2 <= len (c :: b) -> extends (k s e) (k' s e)) ->
  extends (header (c :: b) bad k) (header (c :: b ++ x) bad k').
Proof.
  intros Hc Hk. destruct (header_cases c b Hc) as [H|(s & rest & -> & Hs)].
  - left. by rewrite header_none.
  - rewrite <- !app_assoc, !header_eq by done. destruct (valid_utf8 s); [|by right].
    apply Hk; unfold crlf; autorewrite with cache;
      pose proof (len_nonneg s); pose proof (len_nonneg rest); lia.
Qed.

Lemma missing_crlf_app (b x : bytes) i :
  0 <= i -> i + 2 <= len b -> i + 1 <= USIZE_MAX -> missing_crlf (b ++ x) i = missing_crlf b i.
Proof.
  intros H0 Hi Hm. unfold missing_crlf. rewrite usize_add_small by done. cbn [mbind comp_bind].
  by rewrite !index_app_l by lia.
Qed.

Lemma parse_elems_extends parse_one b x fuel fuel' n off acc :
  (forall q, len q < len b -> inside q (parse_one q)) ->
  (forall q, len q < len b -> extends (parse_one q) (parse_one (q ++ x))) ->
  len b <= USIZE_MAX -> 0 < off <= len b ->
  len b - off < Z.of_nat fuel -> len b - off < Z.of_nat fuel' ->
  extends (parse_elems parse_one fuel b n off acc) (parse_elems parse_one fuel' (b ++ x) n off acc).
Proof.
  intros Hin Hone Hb. revert fuel' n off acc.
  induction fuel as [|fuel IH]; intros [|fuel'] n off acc Ho Hf Hf'; try lia.
  cbn [parse_elems]. destruct (n =? 0); [by right|].
  destruct (len b <=? off) eqn:E; [by left|]. boolify. pose proof (len_nonneg x).
  rewrite (proj2 (Z.leb_gt (len (b ++ x)) off)) by (rewrite len_app; lia).
  destruct (split_at b off ltac:(lia)) as (p & q & -> & <-).
  assert (Hq : len q < len (p ++ q)) by (rewrite len_app; lia).
  rewrite <- app_assoc, !slice_suffix. cbn [mbind comp_bind].
  destruct (Hone q Hq) as [-> | ->]; [by left|].
  destruct (parse_one q) as [[fr c| |e]|] eqn:Eo; try (by right). cbn [mbind comp_bind].
  apply Hin in Eo; [|done]. autorewrite with cache in *.
  rewrite !usize_add_small by lia. cbn [mbind comp_bind].
  rewrite app_assoc. apply IH; autorewrite with cache; lia.
Qed.

Lemma parse_at_extends d b x :
  len (b ++ x) < I64_MAX -> extends (parse_at d b) (parse_at d (b ++ x)).
Proof.
  revert b. induction d as [|d IH]; intros b Hbx; [by right|]. destruct b as [|c b]; [by left|].
  pose proof Hbx as Hb. rewrite len_app in Hb. pose proof (len_nonneg x).
  simpl app. frame_type c; try (by right).
  1-3: apply header_extends; [done|]; intros s e He Hl; by right.
  - apply header_extends; [done|]. intros s e He Hl.
    destruct (parse_i64 s) as [n|] eqn:En; [|by right]. apply parse_i64_max in En.
    destruct (n <? 0) eqn:E0; [by right|]. boolify. cbv zeta.
    pose proof (bulk_range _ _ _ En Hl ltac:(lia)). rewrite usize_add_small by lia. cbn [mbind comp_bind].
    rewrite usize_add_small by lia. cbn [mbind comp_bind]. destruct (_ <? _) eqn:E; [by left|]. boolify.
    change (Byte.x24 :: b ++ x) with ((Byte.x24 :: b) ++ x).
    rewrite (proj2 (Z.ltb_ge (len (_ ++ x)) _)) by (rewrite len_app; lia).
    rewrite missing_crlf_app by lia. destruct (missing_crlf _ _) as [[]|]; try (by right).
    cbn [mbind comp_bind]. by rewrite slice_app_l by lia; right.
  - apply header_extends; [done|]. intros s e He Hl.
    destruct (parse_i64 s) as [n|] eqn:En; [|by right]. destruct (n <? 0) eqn:E0; [by right|].
    unfold with_capacity. destruct (_ <=? _); [|by right]. cbn [mbind comp_bind mret comp_ret].
    change (Byte.x2a :: b ++ x) with ((Byte.x2a :: b) ++ x).
    apply parse_elems_extends; unfold I64_MAX, USIZE_MAX, U64_MAX in *; try lia.
    + intros q Hq. apply parse_at_inside. unfold I64_MAX. lia.
    + intros q Hq. apply IH. rewrite len_app in *. lia.
    + unfold len in *. lia.
    + unfold len in *. rewrite length_app. lia.
Qed.

(** ** Absence of panics *)

Definition returns (m : comp ParseResult) : Prop := exists r, m = Val r.

(** No array header in [b] announces more elements than the allocator has room for:
    wherever a star stands, the text up to the next CR LF is no number, or a number
    that is small enough. *)
Fixpoint small_counts (b : bytes) : bool :=
  match b with
  | [] => true
  | c :: q =>
      (if bool_decide (c = Byte.x2a) then
         match find_crlf b with
         | None => true
         | Some e =>
             match parse_i64 (drop 1 (take (Z.to_nat e) b)) with
             | Some n => n * size_of_Frame <=? max_alloc
             | None => true
             end
         end
       else true) && small_counts q
  end.

Lemma small_counts_suffix p q : small_counts (p ++ q) = true -> small_counts q = true.
Proof. induction p as [|c p IH]; [done|]. cbn [app small_counts]. intros [_ H]%andb_true_iff. by apply IH. Qed.

Lemma small_counts_header s rest n :
  small_counts (Byte.x2a :: s ++ crlf ++ rest) = true -> find_crlf (Byte.x2a :: s) = None ->
  parse_i64 s = Some n -> n * size_of_Frame <= max_alloc.
Proof.
  cbn [small_counts]. rewrite bool_decide_true by done. intros [H _]%andb_true_iff Hs Hn. revert H.
  change (Byte.x2a :: s ++ crlf ++ rest) with ((Byte.x2a :: s) ++ crlf ++ rest).
  rewrite (find_crlf_line _ _ Hs), take_app_length' by (unfold len; lia).
  change (drop 1 (Byte.x2a :: s)) with s. rewrite Hn. apply Z.leb_le.
Qed.

Lemma header_returns c b bad k :
  c <> CR ->
  (forall s rest, b = s ++ crlf ++ rest -> find_crlf (c :: s) = None -> returns (k s (1 + len s))) ->
  returns (header (c :: b) bad k).
Proof.
  intros Hc Hk. destruct (header_cases c b Hc) as [H|(s & rest & -> & Hs)].
  - eexists. by apply header_none.
  - rewrite header_eq by done. destruct (valid_utf8 s); [|by eexists]. by eapply Hk.
Qed.

Lemma parse_elems_returns parse_one b fuel n off acc :
  (forall q, len q < len b -> inside q (parse_one q)) ->
  (forall p q, b = p ++ q -> p <> [] -> returns (parse_one q)) ->
  len b <= USIZE_MAX -> 0 < off <= len b -> len b - off < Z.of_nat fuel ->
  returns (parse_elems parse_one fuel b n off acc).
Proof.
  intros Hin Hone Hb. revert n off acc.
  induction fuel as [|fuel IH]; intros n off acc Ho Hf; [lia|].
  cbn [parse_elems]. destruct (n =? 0); [by eexists|].
  destruct (len b <=? off) eqn:E; [by eexists|]. boolify.
  destruct (split_at b off ltac:(lia)) as (p & q & Epq & <-).
  assert (Hq : len q < len b) by (rewrite Epq, len_app; lia).
  assert (Hp : p <> []) by (intros ->; unfold len in Ho; simpl in Ho; lia).
  rewrite Epq at 1 2. rewrite slice_suffix. cbn [mbind comp_bind].
  destruct (Hone p q Epq Hp) as [r Hr]. pose proof (Hin q Hq) as Hi. rewrite Hr in Hi |- *.
  cbn [mbind comp_bind]. destruct r as [fr c| |e]; [|by eexists..].
  specialize (Hi _ _ eq_refl). assert (len b = len p + len q) by (rewrite Epq; apply len_app).
  rewrite usize_add_small by lia. cbn [mbind comp_bind]. apply IH; lia.
Qed.

Lemma parse_at_returns d b :
  (length b < d)%nat -> small_counts b = true -> len b < I64_MAX -> returns (parse_at d b).
Proof.
  revert b. induction d as [|d IH]; intros b Hd Hs Hb; [lia|]. destruct b as [|c b]; [by eexists|].
  frame_type c; try (by eexists).
  1-3: apply header_returns; [done|]; intros s rest _ _; try destruct (parse_i64 s); by eexists.
  - apply header_returns; [done|]. intros s rest -> _. set (b := s ++ crlf ++ rest) in *.
    assert (Hl : 1 + len s + 2 <= len (Byte.x24 :: b))
      by (unfold b, crlf; autorewrite with cache; pose proof (len_nonneg rest); lia).
    destruct (parse_i64 s) as [n|] eqn:En; [|by eexists]. apply parse_i64_max in En.
    destruct (n <? 0) eqn:E0; [by eexists|]. boolify. cbv zeta. pose proof (len_nonneg s).
    pose proof (bulk_range _ _ _ En Hl Hb). rewrite usize_add_small by lia. cbn [mbind comp_bind].
    rewrite usize_add_small by lia. cbn [mbind comp_bind]. destruct (_ <? _) eqn:E; [by eexists|]. boolify.
    rewrite missing_crlf_eq by lia. cbn [mbind comp_bind]. destruct (negb _); [by eexists|].
    unfold slice. rewrite !(proj2 (Z.leb_le _ _)) by lia. by eexists.
  - apply header_returns; [done|]. intros s rest Eb Hcr.
    assert (Hl : 1 + len s + 2 <= len (Byte.x2a :: b))
      by (subst b; unfold crlf; autorewrite with cache; pose proof (len_nonneg rest); lia).
    destruct (parse_i64 s) as [n|] eqn:En; [|by eexists]. destruct (n <? 0) eqn:E0; [by eexists|].
    unfold with_capacity. rewrite (proj2 (Z.leb_le _ _)) by (rewrite Eb in Hs; by eapply small_counts_header).
    cbn [mbind comp_bind mret comp_ret]. pose proof (len_nonneg s).
    apply parse_elems_returns; unfold I64_MAX, USIZE_MAX, U64_MAX in *; try lia.
    + intros q Hq. apply parse_at_inside. unfold I64_MAX. lia.
    + intros [|y p] q Epq Hp; [done|]. injection Epq as <- ->. apply IH; unfold I64_MAX.
      * simpl in Hd. rewrite length_app in Hd. lia.
      * by apply (small_counts_suffix (Byte.x2a :: p)).
      * autorewrite with cache in Hb. pose proof (len_nonneg p). lia.
    + unfold len in *. lia.
Qed.

(** ** Theorems *)

(** C15: Round trip. A frame that can be sent, once encoded, parses back to itself
    and consumes exactly its encoding, whatever follows; nesting must fit the stack
    and the whole buffer the address space. *)
Theorem resp_roundtrip f rest :
  frame_ok f = true -> (frame_depth f <= stack_depth)%nat -> len (encode f ++ rest) <= USIZE_MAX ->
  parse (encode f ++ rest) = Val (Complete f (len (encode f))).
Proof. intros Hf Hd Hm. by apply parse_at_encode. Qed.

(** C31: Streaming. On any bytes, either [parse] asks for more input, or its answer
    (a frame, an error or a panic) stays the same however the input continues; and
    a frame it returns lies inside the buffer. *)
Theorem resp_streaming b more :
  len (b ++ more) < I64_MAX ->
  (parse b = Val Incomplete \/ parse (b ++ more) = parse b) /\
  (forall f n, parse b = Val (Complete f n) -> 0 < n <= len b).
Proof.
  intros Hm. split; [by apply parse_at_extends|]. apply parse_at_inside.
  rewrite len_app in Hm. pose proof (len_nonneg more). lia.
Qed.

(** Every proper prefix of an encoded frame is reported as incomplete: a frame
    split over several reads is never misread and never rejected. *)
Theorem resp_prefix_incomplete f p q :
  frame_ok f = true -> (frame_depth f <= stack_depth)%nat -> len (encode f) < I64_MAX ->
  encode f = p ++ q -> q <> [] -> parse p = Val Incomplete.
Proof.
  intros Hf Hd Hm E Hq. pose proof (parse_at_encode f stack_depth Hf Hd []) as Hp.
  rewrite app_nil_r in Hp. rewrite E in Hp, Hm.
  destruct (parse_at_extends stack_depth p q Hm) as [H|H]; [done|].
  rewrite H in Hp. rewrite len_app in Hp, Hm. pose proof (len_nonneg q).
  assert (0 < len q) by (destruct q; [done|]; rewrite len_cons; pose proof (len_nonneg q); lia).
  apply parse_at_inside in Hp; [lia..|]. unfold I64_MAX, USIZE_MAX, U64_MAX in *. lia.
Qed.

(** C32: [parse] returns a frame, an error or a request for more input on every input,
    provided that the allocator has room for the elements each array header announces
    (the parser asks for them before it reads the first one) and the stack for one
    nested call per input byte. *)
Theorem resp_no_panic b :
  (length b < stack_depth)%nat -> small_counts b = true -> len b < I64_MAX ->
  exists r, parse b = Val r.
Proof. intros Hd Hs Hb. by apply parse_at_returns. Qed.

(** Without that condition it does panic: 22 bytes that announce an array of
    [i64::MAX] elements end in the capacity overflow of [Vec::with_capacity]. *)
Theorem resp_huge_array_panics rest :
  parse («"*9223372036854775807"» ++ crlf ++ rest) = Panic.
Proof.
  unfold parse. destruct stack_depth as [|d]; [done|].
  change (parse_array (parse_at d) (Byte.x2a :: «"9223372036854775807"» ++ crlf ++ rest) = Panic).
  unfold parse_array. rewrite header_eq by done.
  change ((with_capacity 9223372036854775807 ;;
    parse_elems (parse_at d)
      (S (length (Byte.x2a :: «"9223372036854775807"» ++ crlf ++ rest)))
      (Byte.x2a :: «"9223372036854775807"» ++ crlf ++ rest) 9223372036854775807 (1 + 19 + 2) []) = Panic).
  unfold with_capacity. pose proof size_of_Frame_big. pose proof max_alloc_isize as Hmax. unfold I64_MAX in Hmax.
  by rewrite (proj2 (Z.leb_gt _ _)) by lia.
Qed.

(** [n] nested array headers. *)
Fixpoint nested (n : nat) : bytes :=
  match n with
  | O => []
  | S n' => «"*1"» ++ crlf ++ nested n'
  end.

Lemma nested_panics d : parse_at d (nested (S d)) = Panic.
Proof.
  induction d as [|d IH]; [done|]. set (rest := nested (S d)) in *.
  assert (Hr : 0 < len rest).
  { change rest with («"*1"» ++ crlf ++ nested d). rewrite len_app. change (len «"*1"») with 2.
    pose proof (len_nonneg (crlf ++ nested d)). lia. }
  change (nested (S (S d))) with («"*1"» ++ crlf ++ rest).
  change (parse_array (parse_at d) (Byte.x2a :: «"1"» ++ crlf ++ rest) = Panic).
  unfold parse_array. rewrite header_eq by done.
  change (parse_i64 «"1"») with (Some 1). cbn iota. change (1 <? 0) with false. cbn iota.
  unfold with_capacity. destruct (1 * size_of_Frame <=? max_alloc); [|done].
  cbn [mbind comp_bind mret comp_ret parse_elems]. change (1 =? 0) with false. cbn iota.
  change (Byte.x2a :: «"1"» ++ crlf ++ rest) with ((«"*1"» ++ crlf) ++ rest).
  change (1 + len «"1"» + 2) with (len («"*1"» ++ crlf)).
  set (p := «"*1"» ++ crlf). rewrite (proj2 (Z.leb_gt (len (p ++ rest)) (len p))).
  - rewrite slice_suffix. cbn [mbind comp_bind]. by rewrite IH.
  - rewrite len_app. lia.
Qed.

(** Nesting is bounded by nothing but the stack: whatever its size, an input of
    four bytes per level, [*1] and CR LF repeated, exhausts it. *)
Theorem resp_nesting_exhausts_stack :
  parse (nested (S stack_depth)) = Panic /\ len (nested (S stack_depth)) = 4 * Z.of_nat (S stack_depth).
Proof.
  split; [apply nested_panics|]. generalize (S stack_depth) as n. induction n as [|n IH]; [done|].
  cbn [nested]. rewrite !len_app, IH. change (len «"*1"») with 2. change (len crlf) with 2. lia.
Qed.

End thms.

(** ** Witnesses *)

Section witnesses.
#[local] Existing Instances release frame64.

(** The request [SET k v] and a nested reply. *)
Definition set_request : Frame :=
  Array (Some [Bulk (Some «"SET"»); Bulk (Some «"k"»); Bulk (Some [CR; LF])]).
Definition reply_frame : Frame :=
  Array (Some [Simple «"OK"»; FError «"ERR"»; Integer (-42); Bulk None; Array None; set_request]).

Lemma resp_roundtrip_witness :
  parse (encode reply_frame ++ «"*"») = Val (Complete reply_frame (len (encode reply_frame))).
Proof. apply (resp_roundtrip reply_frame «"*"»); [by_vm|vm_compute; lia|vm_compute; congruence]. Defined.

Definition half_request : bytes := take 20 (encode set_request).

Lemma resp_streaming_witness :
  (parse half_request = Val Incomplete \/ parse (half_request ++ «"v"») = parse half_request) /\
  (forall f n, parse half_request = Val (Complete f n) -> 0 < n <= len half_request).
Proof. apply (resp_streaming half_request «"v"»). vm_compute. done. Defined.

Lemma resp_prefix_incomplete_witness : parse half_request = Val Incomplete.
Proof.
  apply (resp_prefix_incomplete set_request half_request (drop 20 (encode set_request)));
    [by_vm|vm_compute; lia|vm_compute; done|by_vm|vm_compute; congruence].
Defined.

(** The nested reply with its last byte still missing. *)
Lemma resp_no_panic_witness :
  small_counts (removelast (encode reply_frame)) = true /\
  small_counts («"*1000000000000"» ++ crlf) = false /\
  exists r, parse (removelast (encode reply_frame)) = Val r.
Proof.
  split_and!; [by_vm|by_vm|]. apply (resp_no_panic (removelast (encode reply_frame))); [vm_compute; lia|by_vm|vm_compute; done].
Defined.

End witnesses.
