(* ===== verification/Ping.v ===== *)
(** * The ping protocol (src/protocols/ping/parser.rs) *)

From S2P Require Import Prelude RustStd.

Inductive Command : Type :=
| Ping
| PingMsg (msg : bytes)
| Quit.

Inductive ParseResult : Type :=
| Complete (cmd : Command) (consumed : Z)
| Incomplete
| Error.

(** [line.len() > 5 && line[..5].eq_ignore_ascii_case(b"PING ")] *)
Definition is_ping_msg (line : bytes) : comp bool :=
  if 5 <? len line then p ← slice line 0 5; mret (eq_ignore_ascii_case p «"PING "»)
  else mret false.

Definition parse (input : bytes) : comp ParseResult :=
  match find_crlf input with
  | None => mret Incomplete
  | Some line_end =>
      line ← slice input 0 line_end;
      let consumed := line_end + 2 in
      if eq_ignore_ascii_case line «"PING"» then mret (Complete Ping consumed)
      else if eq_ignore_ascii_case line «"QUIT"» then mret (Complete Quit consumed)
      else
        has_msg ← is_ping_msg line;
        if (has_msg : bool) then
          msg ← slice line 5 (len line);
          mret (Complete (PingMsg msg) consumed)
        else mret Error
  end.

Definition response_pong : bytes := «"PONG"» ++ crlf.

(** The length of the response and the new contents of [output]; 0 when the response
    does not fit. *)
Definition response_pong_msg (msg output : bytes) : comp (Z * bytes) :=
  let needed := 5 + len msg + 2 in
  if len output <? needed then mret (0, output)
  else
    o1 ← write_range output 0 5 «"PONG "»;
    o2 ← write_range o1 5 (5 + len msg) msg;
    o3 ← write_range o2 (5 + len msg) needed crlf;
    mret (needed, o3).

Definition response_error : bytes := «"ERROR unknown command"» ++ crlf.
