(* ===== verification/Echo.v ===== *)
(** * The echo protocol (src/protocols/echo/parser.rs) *)

From S2P Require Import Prelude RustStd.

Inductive Command : Type :=
| Echo (length header_len : Z)
| Quit.

Inductive ParseResult : Type :=
| Complete (cmd : Command)
| Incomplete
| InvalidLength.

Definition parse (input : bytes) : comp ParseResult :=
  match find_crlf input with
  | None => mret Incomplete
  | Some line_end =>
      line ← slice input 0 line_end;
      if eq_ignore_ascii_case line «"QUIT"» then mret (Complete Quit)
      else
        match from_utf8 line with
        | None => mret InvalidLength
        | Some length_str =>
            match parse_usize length_str with
            | None => mret InvalidLength
            | Some length => mret (Complete (Echo length (line_end + 2)))
            end
        end
  end.

(** The length of the header and the new contents of [output]; 0 when the header
    does not fit. *)
Definition response_header (length : Z) (output : bytes) : comp (Z * bytes) :=
  let header := dec length ++ crlf in
  if len output <? len header then mret (0, output)
  else o ← write_range output 0 (len header) header; mret (len header, o).

Definition response_error (msg : bytes) : bytes := «"ERROR "» ++ msg ++ crlf.
