(* ===== verification/Request.v ===== *)
(** * The request layer (src/request.rs)

    One call of [process_*]: a command is parsed from the input, executed against the
    store and answered in the output buffer.  The output buffer is passed in and
    returned; the i-th storage call of a handler happens at the instant [clock i]. *)

From S2P Require Import Prelude RustStd Storage Memcached Resp Ping Echo.

Inductive Protocol : Type := PMemcached | PResp | PPing | PEcho.

Inductive ProcessResult : Type :=
| NeedData
| NeedChain (command_len value_len : Z)
| Response (consumed response_len : Z)
| LargeResponse (consumed : Z) (response_data : bytes)
| Quit
| Error.

(** The number of response bytes copied and the new output buffer. *)
Definition copy_response (response output : bytes) : comp (Z * bytes) :=
  let n := Z.min (len response) (len output) in
  src ← slice response 0 n;
  out ← write_range output 0 n src;
  mret (n, out).

Section request.
Context `{BP : BuildProfile, LY : Layout, HO : HashOrder, UC : UnicodeCase, FL : FrameLayout}.
Implicit Types (clock : nat -> Z).

(** A response that is copied and truncated to the output buffer. *)
Definition respond (consumed : Z) (response output : bytes) : st Storage (ProcessResult * bytes) :=
  '(n, out) ← lift (copy_response response output);
  mret (Response consumed n, out).

(** ** Memcached commands *)

Definition non_numeric : bytes :=
  Response.client_error «"cannot increment or decrement non-numeric value"».

(** The arithmetic of [handle_incr_decr]: [wrapping_add] and [saturating_sub]. *)
Definition incr_decr_value (current delta : Z) (is_incr : bool) : Z :=
  if is_incr then u64 (current + delta) else Z.max 0 (current - delta).

(** [handle_incr_decr] after the item was read. *)
Definition finish_incr_decr (now : Z) (key : bytes) (delta : Z) (is_incr : bool) (item : CacheItem)
    : st Storage bytes :=
  match from_utf8 (value item) with
  | None => mret non_numeric
  | Some s =>
      match parse_u64 (trim s) with
      | None => mret non_numeric
      | Some current =>
          let new_value := incr_decr_value current delta is_incr in
          Storage.set now key (dec new_value) (flags item) 0;;
          mret (Response.numeric new_value)
      end
  end.

Definition handle_incr_decr clock (key : bytes) (delta : Z) (is_incr : bool) : st Storage bytes :=
  found ← get (clock 0%nat) key;
  match found with
  | None => mret Response.not_found
  | Some item => finish_incr_decr (clock 1%nat) key delta is_incr item
  end.

(** [noreply] drops the response. *)
Definition unless (noreply : bool) (response : bytes) : bytes := if noreply then [] else response.

Definition render_items (items : list (bytes * CacheItem)) (with_cas : bool) : bytes :=
  concat ((fun '(key, item) =>
    Response.value key (flags item) (value item)
      (if with_cas then Some (cas_unique item) else None)) <$> items) ++ Response.rend.

Definition execute_command clock (command : Memcached.Command) : st Storage bytes :=
  match command with
  | CmdGet keys => items ← get_multi (clock 0%nat) keys; mret (render_items items false)
  | CmdGets keys => items ← get_multi (clock 0%nat) keys; mret (render_items items true)
  | CmdDelete key noreply =>
      result ← Storage.delete key;
      mret (unless noreply
        match result with Deleted => Response.deleted | _ => Response.not_found end)
  | CmdIncr key value noreply =>
      result ← handle_incr_decr clock key value true; mret (unless noreply result)
  | CmdDecr key value noreply =>
      result ← handle_incr_decr clock key value false; mret (unless noreply result)
  | CmdFlushAll _ noreply => flush_all;; mret (unless noreply Response.ok)
  | CmdStats =>
      x ← stats;
      mret (Response.stat «"curr_items"» (dec (stat_item_count x)) ++
            Response.stat «"bytes"» (dec (stat_memory_used x)) ++
            Response.stat «"limit_maxbytes"» (dec (stat_max_memory x)) ++
            Response.rend)
  | CmdVersion => mret Response.version
  | CmdQuit => mret []
  | _ => mret Response.error
  end.

Definition stored_response (r : StorageResult) : bytes :=
  match r with Stored => Response.stored | _ => Response.not_stored end.

Definition execute_storage_command clock (command : Memcached.Command) (data : bytes)
    : st Storage bytes :=
  let now := clock 0%nat in
  match command with
  | CmdSet key flags exptime _ noreply =>
      r ← Storage.set now key data flags exptime; mret (unless noreply (stored_response r))
  | CmdAdd key flags exptime _ noreply =>
      r ← Storage.add now key data flags exptime; mret (unless noreply (stored_response r))
  | CmdReplace key flags exptime _ noreply =>
      r ← Storage.replace now key data flags exptime; mret (unless noreply (stored_response r))
  | CmdAppend key _ _ _ noreply =>
      r ← Storage.append now key data; mret (unless noreply (stored_response r))
  | CmdPrepend key _ _ _ noreply =>
      r ← Storage.prepend now key data; mret (unless noreply (stored_response r))
  | CmdCas key flags exptime _ cas_unique noreply =>
      r ← Storage.cas now key data flags exptime cas_unique;
      mret (unless noreply
        match r with
        | Stored => Response.stored
        | CasMismatch => Response.exists_
        | NotFound => Response.not_found
        | _ => Response.not_stored
        end)
  | _ => mret Response.error
  end.

(** The arm of [process_memcached] for a [Complete] storage command. *)
Definition complete_storage clock (input output : bytes) (max_value_size : Z)
    (command : Memcached.Command) (consumed nbytes : Z) : st Storage (ProcessResult * bytes) :=
  if max_value_size <? nbytes then
    respond consumed (Response.client_error «"value too large"») output
  else
    value_end ← lift (usize_add consumed nbytes);
    data_end ← lift (usize_add value_end 2);
    if len input <? data_end then
      mret (if len output <? nbytes then NeedChain consumed nbytes else NeedData, output)
    else
      data ← lift (slice input consumed value_end);
      response ← execute_storage_command clock command data;
      respond data_end response output.

(** The arm of [process_memcached] for [ParseResult::NeedData]. *)
Definition need_data clock (input output : bytes) (max_value_size command_bytes data_bytes : Z)
    : st Storage (ProcessResult * bytes) :=
  if max_value_size <? data_bytes then
    skip ← lift (usize_add command_bytes 2);
    respond skip (Response.client_error «"value too large"») output
  else
    value_end ← lift (usize_add command_bytes data_bytes);
    total_needed ← lift (usize_add value_end 2);
    if total_needed <=? len input then
      again ← lift (parse_with_data input);
      match again with
      | Memcached.Complete command consumed =>
          data ← lift (slice input command_bytes value_end);
          response ← execute_storage_command clock command data;
          respond consumed response output
      | _ => mret (NeedData, output)
      end
    else
      mret (if len output <? data_bytes then NeedChain command_bytes data_bytes else NeedData, output).

(** The data size of a storage command. *)
Definition command_bytes (command : Memcached.Command) : option Z :=
  match command with
  | CmdSet _ _ _ n _ | CmdAdd _ _ _ n _ | CmdReplace _ _ _ n _ | CmdAppend _ _ _ n _
  | CmdPrepend _ _ _ n _ | CmdCas _ _ _ n _ _ => Some n
  | _ => None
  end.

Definition process_memcached clock (input output : bytes) (max_value_size : Z)
    : st Storage (ProcessResult * bytes) :=
  r ← lift (Memcached.parse input);
  match r with
  | Memcached.Complete CmdQuit _ => mret (Quit, output)
  | Memcached.Complete command consumed =>
      match command_bytes command with
      | Some nbytes => complete_storage clock input output max_value_size command consumed nbytes
      | None =>
          response ← execute_command clock command;
          match command with
          | CmdGet _ | CmdGets _ =>
              if len output <? len response
              then mret (LargeResponse consumed response, output)
              else respond consumed response output
          | _ => respond consumed response output
          end
      end
  | Memcached.NeedData command_bytes data_bytes =>
      need_data clock input output max_value_size command_bytes data_bytes
  | Memcached.Error Memcached.Incomplete => mret (NeedData, output)
  | Memcached.Error _ => mret (Error, output)
  end.

(** ** RESP commands *)

(** The loops of [DEL] and [EXISTS] over [args[1..]]: keys that are not bulk strings
    are skipped; the count is an [i64]. *)
Fixpoint del_loop (args : list Frame) (count : Z) : st Storage Z :=
  match args with
  | [] => mret count
  | Bulk (Some key) :: args' =>
      r ← Storage.delete (from_utf8_lossy key);
      del_loop args' (match r with Deleted => count + 1 | _ => count end)
  | _ :: args' => del_loop args' count
  end.

Fixpoint exists_loop clock (i : nat) (args : list Frame) (count : Z) : st Storage Z :=
  match args with
  | [] => mret count
  | Bulk (Some key) :: args' =>
      r ← get (clock i) (from_utf8_lossy key);
      exists_loop clock (S i) args' (match r with Some _ => count + 1 | None => count end)
  | _ :: args' => exists_loop clock i args' count
  end.

Definition quote : bytes := [Byte.x27].

Definition wrong_number (cmd : bytes) : Frame :=
  Resp.error («"ERR wrong number of arguments for "» ++ quote ++ cmd ++ quote ++ «" command"»).

(** The arms of the [match cmd.as_str()]. *)
Definition resp_ping (args : list Frame) : st Storage Frame :=
  if 1 <? len args then lift (index args 1) else mret (simple «"PONG"»).

Definition resp_get clock (args : list Frame) : st Storage Frame :=
  if negb (len args =? 2) then mret (wrong_number «"get"»)
  else
    arg ← lift (index args 1);
    match arg with
    | Bulk (Some k) =>
        found ← get (clock 0%nat) (from_utf8_lossy k);
        mret (match found with Some item => bulk (value item) | None => null end)
    | _ => mret (Resp.error «"ERR invalid key"»)
    end.

Definition resp_set clock (args : list Frame) : st Storage Frame :=
  if len args <? 3 then mret (wrong_number «"set"»)
  else
    arg1 ← lift (index args 1);
    match arg1 with
    | Bulk (Some k) =>
        arg2 ← lift (index args 2);
        match arg2 with
        | Bulk (Some v) =>
            Storage.set (clock 0%nat) (from_utf8_lossy k) v 0 0;;
            mret (simple «"OK"»)
        | _ => mret (Resp.error «"ERR invalid value"»)
        end
    | _ => mret (Resp.error «"ERR invalid key"»)
    end.

Definition resp_del (args : list Frame) : st Storage Frame :=
  if len args <? 2 then mret (wrong_number «"del"»)
  else
    keys ← lift (slice args 1 (len args));
    count ← del_loop keys 0;
    mret (integer count).

Definition resp_exists clock (args : list Frame) : st Storage Frame :=
  if len args <? 2 then mret (wrong_number «"exists"»)
  else
    keys ← lift (slice args 1 (len args));
    count ← exists_loop clock 0 keys 0;
    mret (integer count).

Definition execute_resp_command clock (frame : Frame) : st Storage Frame :=
  match frame with
  | Array (Some args) =>
      if bool_decide (args = []) then mret (Resp.error «"ERR empty command"»)
      else
        arg0 ← lift (index args 0);
        match arg0 with
        | Bulk (Some s) =>
            let cmd := to_uppercase (from_utf8_lossy s) in
            if bool_decide (cmd = «"PING"») then resp_ping args
            else if bool_decide (cmd = «"GET"») then resp_get clock args
            else if bool_decide (cmd = «"SET"») then resp_set clock args
            else if bool_decide (cmd = «"DEL"») then resp_del args
            else if bool_decide (cmd = «"EXISTS"») then resp_exists clock args
            else if bool_decide (cmd = «"FLUSHALL"») || bool_decide (cmd = «"FLUSHDB"»)
            then flush_all;; mret (simple «"OK"»)
            else if bool_decide (cmd = «"DBSIZE"»)
            then x ← stats; mret (integer (stat_item_count x))
            else if bool_decide (cmd = «"QUIT"») then mret (simple «"OK"»)
            else mret (Resp.error («"ERR unknown command "» ++ quote ++ cmd ++ quote))
        | _ => mret (Resp.error «"ERR invalid command"»)
        end
  | _ => mret (Resp.error «"ERR invalid command format"»)
  end.

(** The size check of [process_resp]: a [SET] in any ASCII case whose value is too
    large. *)
Definition oversized_set (frame : Frame) (max_value_size : Z) : comp bool :=
  match frame with
  | Array (Some args) =>
      if 3 <=? len args then
        arg0 ← index args 0;
        match arg0 with
        | Bulk (Some cmd) =>
            if eq_ignore_ascii_case cmd «"SET"» then
              arg2 ← index args 2;
              mret (match arg2 with
                    | Bulk (Some v) => max_value_size <? len v
                    | _ => false
                    end)
            else mret false
        | _ => mret false
        end
      else mret false
  | _ => mret false
  end.

Definition process_resp clock (input output : bytes) (max_value_size : Z)
    : st Storage (ProcessResult * bytes) :=
  r ← lift (Resp.parse input);
  match r with
  | Resp.Complete frame consumed =>
      too_large ← lift (oversized_set frame max_value_size);
      if (too_large : bool) then
        respond consumed (encode (Resp.error «"ERR value too large"»)) output
      else
        response ← execute_resp_command clock frame;
        let encoded := encode response in
        if len output <? len encoded then mret (LargeResponse consumed encoded, output)
        else respond consumed encoded output
  | Resp.Incomplete => mret (NeedData, output)
  | Resp.Error _ => mret (Error, output)
  end.

(** ** The two test protocols; they do not touch the store *)

Definition process_ping (input output : bytes) : st Storage (ProcessResult * bytes) :=
  r ← lift (Ping.parse input);
  match r with
  | Ping.Complete Ping.Ping consumed => respond consumed response_pong output
  | Ping.Complete (PingMsg msg) consumed =>
      '(response_len, out) ← lift (response_pong_msg msg output);
      mret (if response_len =? 0 then Error else Response consumed response_len, out)
  | Ping.Complete Ping.Quit _ => mret (Quit, output)
  | Ping.Incomplete => mret (NeedData, output)
  | Ping.Error => respond 0 Ping.response_error output
  end.

(** The arm of [process_echo] for an [Echo] header. *)
Definition echo_data (input output : bytes) (max_value_size length header_len : Z)
    : st Storage (ProcessResult * bytes) :=
  if max_value_size <? length then
    respond header_len (Echo.response_error «"value too large"») output
  else
    total_needed ← lift (usize_add header_len length);
    if len input <? total_needed then
      mret (if len output <? length then NeedChain header_len length else NeedData, output)
    else
      '(resp_header_len, out) ← lift (response_header length output);
      response_len ← lift (usize_add resp_header_len length);
      data ← lift (slice input header_len total_needed);
      if len out <? response_len then
        head ← lift (slice out 0 resp_header_len);
        mret (LargeResponse total_needed (head ++ data), out)
      else
        out' ← lift (write_range out resp_header_len response_len data);
        mret (Response total_needed response_len, out').

Definition process_echo (input output : bytes) (max_value_size : Z)
    : st Storage (ProcessResult * bytes) :=
  r ← lift (Echo.parse input);
  match r with
  | Echo.Complete Echo.Quit => mret (Quit, output)
  | Echo.Complete (Echo length header_len) =>
      echo_data input output max_value_size length header_len
  | Echo.Incomplete => mret (NeedData, output)
  | Echo.InvalidLength => respond 0 (Echo.response_error «"invalid length"») output
  end.

(** What the event loops call for a connection's protocol. *)
Definition process clock (protocol : Protocol) (input output : bytes) (max_value_size : Z)
    : st Storage (ProcessResult * bytes) :=
  match protocol with
  | PMemcached => process_memcached clock input output max_value_size
  | PResp => process_resp clock input output max_value_size
  | PPing => process_ping input output
  | PEcho => process_echo input output max_value_size
  end.

End request.
