(* ===== verification/RequestFacts.v ===== *)
(** * The request layer: closed forms of the handlers *)

From S2P Require Import Prelude RustStd RustStdFacts Storage StorageFacts StorageInv StorageOps.
From S2P Require Import Memcached MemcachedFacts MemcachedThms Resp RespFacts RespThms Ping Echo Request.

(** The output buffer after a response was copied into it, and what the client is
    sent: the response cut at the size of the buffer. *)
Definition sent_len (response output : bytes) : Z := Z.min (len response) (len output).
Definition filled (response output : bytes) : bytes :=
  take (Z.to_nat (sent_len response output)) response ++
  drop (Z.to_nat (sent_len response output)) output.
Definition answer (consumed : Z) (response output : bytes) : ProcessResult * bytes :=
  (Response consumed (sent_len response output), filled response output).

Lemma copy_response_eq response output :
  copy_response response output = Val (sent_len response output, filled response output).
Proof.
  unfold copy_response, filled, sent_len. set (n := Z.min _ _).
  pose proof (len_nonneg response). pose proof (len_nonneg output).
  assert (Hn : 0 <= n <= len response /\ n <= len output) by lia.
  unfold slice. rewrite !(proj2 (Z.leb_le _ _)) by lia. cbn [andb mbind comp_bind].
  rewrite Z.sub_0_r, drop_0. unfold write_range.
  rewrite !(proj2 (Z.leb_le _ _)), (proj2 (Z.eqb_eq _ _)); [done|unfold len in *|lia..].
  rewrite length_take. lia.
Qed.

Lemma respond_eq consumed response output s :
  respond consumed response output s = Done (answer consumed response output) s.
Proof. unfold respond. unfold_st. unfold lift. by rewrite copy_response_eq. Qed.

(** A response that fits is what the output buffer starts with. *)
Lemma filled_fits response output :
  len response <= len output ->
  sent_len response output = len response /\
  take (Z.to_nat (len response)) (filled response output) = response.
Proof.
  intros H. unfold filled, sent_len. rewrite Z.min_l by done. split; [done|].
  unfold len. rewrite Nat2Z.id. rewrite (take_ge response) by lia. by rewrite take_app_length.
Qed.

Lemma filled_len response output : len (filled response output) = len output.
Proof.
  unfold filled, sent_len. rewrite len_app. unfold len. rewrite length_take, length_drop. lia.
Qed.

Lemma sent_len_range response output : 0 <= sent_len response output <= len output.
Proof. unfold sent_len. pose proof (len_nonneg response). pose proof (len_nonneg output). lia. Qed.

Section facts.
Context `{BP : BuildProfile, LY : Layout, HO : HashOrder, UC : UnicodeCase, FL : FrameLayout}.
Implicit Types (clock : nat -> Z) (s : Storage).

Lemma lift_bind {A B} (c : comp A) (f : A -> st Storage B) s :
  (lift c ≫= f) s = match c with Val a => f a s | Panic => Panicked s end.
Proof. by destruct c. Qed.

Lemma st_ext_bind {A B} (m : st Storage A) (f g : A -> st Storage B) s :
  (forall a s', f a s' = g a s') -> (m ≫= f) s = (m ≫= g) s.
Proof. intros H. unfold_st. destruct (m s); [apply H|done..]. Qed.

Lemma st_bind_eq {A B} (m m' : st Storage A) (f : A -> st Storage B) s :
  m s = m' s -> (m ≫= f) s = (m' ≫= f) s.
Proof. intros H. unfold_st. by rewrite H. Qed.

(** ** Memcached requests *)

Lemma process_storage_eq clock c v rest output max s :
  legal c -> command_data c = Some (len v) -> len v <= max ->
  len (print_line c) + len v + 2 <= USIZE_MAX ->
  process_memcached clock (print_line c ++ v ++ crlf ++ rest) output max s =
  (response ← execute_storage_command clock c v;
   mret (answer (len (print_line c) + len v + 2) response output)) s.
Proof.
  intros Hl Hd Hmax Hm. unfold process_memcached. rewrite lift_bind.
  rewrite (print_storage_header c (len v)) by done. unfold need_data.
  rewrite (proj2 (Z.ltb_ge _ _)) by done.
  rewrite lift_bind, usize_add_small by lia. rewrite lift_bind, usize_add_small by lia.
  destruct (block_terminator (print_line c) v rest _ eq_refl) as [_ Hb].
  rewrite (proj2 (Z.leb_le _ _)) by lia.
  rewrite lift_bind, print_storage_data by done. rewrite lift_bind, slice_middle.
  apply st_ext_bind. intros a s'. apply respond_eq.
Qed.

Lemma process_command_eq clock c rest output max s :
  legal c -> command_data c = None -> c <> CmdQuit ->
  process_memcached clock (print_line c ++ rest) output max s =
  (response ← execute_command clock c;
   mret (if is_get c && (len output <? len response)
         then (LargeResponse (len (print_line c)) response, output)
         else answer (len (print_line c)) response output)) s.
Proof.
  intros Hl Hd Hq. unfold process_memcached. rewrite lift_bind, print_simple by done.
  destruct c; try done; apply st_ext_bind; intros a s'; cbn [is_get andb];
    try apply respond_eq; (destruct (_ <? _); [done|apply respond_eq]).
Qed.

(** ** RESP requests *)

Lemma process_resp_eq clock f rest output max s :
  frame_ok f = true -> (frame_depth f <= stack_depth)%nat -> len (encode f ++ rest) <= USIZE_MAX ->
  oversized_set f max = Val false ->
  process_resp clock (encode f ++ rest) output max s =
  (response ← execute_resp_command clock f;
   mret (if len output <? len (encode response)
         then (LargeResponse (len (encode f)) (encode response), output)
         else answer (len (encode f)) (encode response) output)) s.
Proof.
  intros Hf Hd Hm Ho. unfold process_resp. rewrite lift_bind. unfold Resp.parse.
  rewrite (parse_at_encode f stack_depth Hf Hd rest Hm). rewrite lift_bind, Ho.
  apply st_ext_bind. intros a s'. cbv zeta. destruct (_ <? _); [done|apply respond_eq].
Qed.

End facts.
