(* ===== verification/RequestThms.v ===== *)
(** * Theorems about the request layer

    From the bytes of a request to the change of the store and the bytes of the
    answer, for the memcached and RESP protocols; the arithmetic of [incr] and
    [decr]; and the places where a request is lost or misread. *)

From S2P Require Import Prelude RustStd RustStdFacts Storage StorageFacts StorageInv StorageOps StorageThms StorageHist.
From S2P Require Import Memcached MemcachedFacts MemcachedThms Resp RespFacts RespThms Ping Echo Request RequestFacts Concrete.

Section thms.
Context `{BP : BuildProfile, LY : Layout, HO : HashOrder, UC : UnicodeCase, FL : FrameLayout}.
Implicit Types (clock : nat -> Z) (s : Storage).

Lemma one_key_ok k : key_ok k -> Forall key_ok [k].
Proof. intros H. apply Forall_cons. split; [done|constructor]. Qed.

(** ** Counters *)

Lemma finish_eq now k delta b it n s :
  value it = dec n -> 0 <= n <= U64_MAX ->
  finish_incr_decr now k delta b it s =
    (Storage.set now k (dec (incr_decr_value n delta b)) (flags it) 0;;
     mret (Response.numeric (incr_decr_value n delta b))) s.
Proof.
  intros Hv Hn. unfold finish_incr_decr. rewrite Hv, dec_utf8 by lia.
  rewrite trim_word by (apply dec_word; lia). unfold parse_u64. by rewrite parse_unsigned_dec.
Qed.

Lemma finish_stores now k delta b it n s r s' :
  data_poisoned s = false -> value it = dec n -> 0 <= n <= U64_MAX ->
  finish_incr_decr now k delta b it s = Done r s' ->
  r = Response.numeric (incr_decr_value n delta b) /\ data_poisoned s' = false /\
  exists e, expiry now 0 (default_ttl s) = Val e /\
    data s' !! k = Some (mkItem (dec (incr_decr_value n delta b)) (flags it) e (cas_counter s) now).
Proof.
  intros Hp Hv Hn. rewrite (finish_eq _ _ _ _ _ n) by done. unfold_st.
  destruct (Storage.set _ _ _ _ _ _) as [r' s1|s1|s1] eqn:E; [|done..].
  intros [= <- <-]. split; [done|]. split; [by eapply set_healthy|]. by eapply set_stores.
Qed.

Lemma incr_decr_value_range n delta b :
  0 <= n <= U64_MAX -> 0 <= delta -> 0 <= incr_decr_value n delta b <= U64_MAX.
Proof. unfold incr_decr_value. pose proof (u64_range (n + delta)). destruct b; lia. Qed.

(** ** RESP requests *)

Definition set_frame (k v : bytes) : Frame :=
  Array (Some [Bulk (Some «"SET"»); Bulk (Some k); Bulk (Some v)]).
Definition get_frame (k : bytes) : Frame := Array (Some [Bulk (Some «"GET"»); Bulk (Some k)]).

(** Decide the comparisons of closed names. *)
Ltac eval_names :=
  repeat match goal with |- context [bool_decide (?a = ?b)] =>
    change (bool_decide (a = b)) with false || change (bool_decide (a = b)) with true; cbn iota end.

Lemma upper_lossy w :
  forallb is_ascii w = true -> to_uppercase (from_utf8_lossy w) = map ascii_upper w.
Proof. intros Ha. by rewrite from_utf8_lossy_valid, ascii_to_uppercase by (done || by apply ascii_valid). Qed.

Lemma execute_set_frame clock k v s :
  valid_utf8 k = true ->
  execute_resp_command clock (set_frame k v) s =
    (Storage.set (clock 0%nat) k v 0 0;; mret (simple «"OK"»)) s.
Proof.
  intros Hk. unfold execute_resp_command, set_frame. eval_names. rewrite lift_bind.
  change (index _ 0) with (Val (Bulk (Some «"SET"»))). cbn iota beta. rewrite upper_lossy by done.
  change (map ascii_upper «"SET"») with «"SET"». unfold resp_set. cbn zeta.
  eval_names.
  change (len _ <? 3) with false. cbn iota. rewrite lift_bind.
  change (index _ 1) with (Val (Bulk (Some k))). cbn iota beta. rewrite lift_bind.
  change (index _ 2) with (Val (Bulk (Some v))). cbn iota beta. by rewrite from_utf8_lossy_valid.
Qed.

Lemma execute_get_frame clock k s :
  valid_utf8 k = true ->
  execute_resp_command clock (get_frame k) s =
    (found ← get (clock 0%nat) k;
     mret (match found with Some item => bulk (value item) | None => null end)) s.
Proof.
  intros Hk. unfold execute_resp_command, get_frame. eval_names. rewrite lift_bind.
  change (index _ 0) with (Val (Bulk (Some «"GET"»))). cbn iota beta zeta. rewrite upper_lossy by done.
  change (map ascii_upper «"GET"») with «"GET"». unfold resp_get.
  eval_names.
  change (negb _) with false. cbn iota. rewrite lift_bind.
  change (index _ 1) with (Val (Bulk (Some k))). cbn iota beta. by rewrite from_utf8_lossy_valid.
Qed.

(** ** Theorems *)

(** C27: A storage request (set, add, replace, append, prepend, cas) is executed
    exactly once with the arguments and the data block the client sent, and consumes
    exactly its own bytes, so that the next pipelined request starts where it ends. *)
Theorem storage_request_executes clock c v rest output max s :
  legal c -> command_data c = Some (len v) -> len v <= max ->
  len (print_line c) + len v + 2 <= USIZE_MAX ->
  process_memcached clock (print_line c ++ v ++ crlf ++ rest) output max s =
  (response ← execute_storage_command clock c v;
   mret (answer (len (print_line c) + len v + 2) response output)) s.
Proof. apply process_storage_eq. Qed.

(** Any other request than [quit] is executed as the command it spells and
    consumes its line; a [get] whose response exceeds the output buffer is handed over
    whole, every other response is copied into the buffer. *)
Theorem command_request_executes clock c rest output max s :
  legal c -> command_data c = None -> c <> CmdQuit ->
  process_memcached clock (print_line c ++ rest) output max s =
  (response ← execute_command clock c;
   mret (if is_get c && (len output <? len response)
         then (LargeResponse (len (print_line c)) response, output)
         else answer (len (print_line c)) response output)) s.
Proof. apply process_command_eq. Qed.

(** C13: End to end: after a [set] request, the next [get] request for the key is
    answered with the VALUE line of the flags and size that were sent, the data bytes
    and END; from the expiry instant on, with END alone. *)
Theorem set_then_get clock clock' k f t v nr rest rest' output output' max s r s1 :
  key_ok k -> 0 <= f <= U32_MAX -> u64_ok t -> len v <= max ->
  len (print_line (CmdSet k f t (len v) nr)) + len v + 2 <= USIZE_MAX ->
  data_poisoned s = false ->
  process_memcached clock (print_line (CmdSet k f t (len v) nr) ++ v ++ crlf ++ rest) output max s
    = Done r s1 ->
  exists e s2, expiry (clock 0%nat) t (default_ttl s) = Val e /\
    let live := negb (is_expired (clock' 0%nat) (mkItem v f e (cas_counter s) (clock 0%nat))) in
    let response := (if live then Response.value k f v None else []) ++ Response.rend in
    process_memcached clock' (print_line (CmdGet [k]) ++ rest') output' max s1 =
    Done (if len output' <? len response
          then (LargeResponse (len (print_line (CmdGet [k]))) response, output')
          else answer (len (print_line (CmdGet [k]))) response output') s2.
Proof.
  intros Hk Hf Ht Hv Hm Hp. pose proof (len_nonneg v).
  pose proof (len_nonneg (print_line (CmdSet k f t (len v) nr))).
  rewrite process_storage_eq; [|split; [by apply one_key_ok|]; unfold numbers_ok, u64_ok, USIZE_MAX in *; lia|done..].
  cbn [execute_storage_command]. unfold_st.
  destruct (Storage.set _ _ _ _ _ _) as [r0 s0|s0|s0] eqn:Es; [|done..]. intros [= <- <-].
  destruct (set_stores _ _ _ _ _ _ _ _ Hp Es) as (e & He & Hd).
  exists e. rewrite process_command_eq; [|by split; [apply one_key_ok|]|done|done].
  cbn [execute_command]. unfold_st. rewrite get_multi_eq by (by eapply set_healthy).
  unfold found. csimpl. rewrite Hd.
  destruct (is_expired _ _); eexists; (split; [done|]); [done|].
  unfold render_items. cbn [fmap list_fmap concat negb flags value is_get andb]. by rewrite app_nil_r.
Qed.

(** C34: [incr] adds modulo 2^64 and [decr] subtracts down to zero; the answer is the
    new number, which fits a [u64], and the item holds its decimal text with the old
    flags and a fresh expiry computed from the default TTL. *)
Theorem incr_decr_counts clock k delta b s it n r s' :
  data_poisoned s = false -> data s !! k = Some it -> is_expired (clock 0%nat) it = false ->
  value it = dec n -> 0 <= n <= U64_MAX -> 0 <= delta ->
  handle_incr_decr clock k delta b s = Done r s' ->
  let m := if b then (n + delta) mod 2 ^ 64 else Z.max 0 (n - delta) in
  0 <= m <= U64_MAX /\ r = Response.numeric m /\
  exists e, expiry (clock 1%nat) 0 (default_ttl s) = Val e /\
    data s' !! k = Some (mkItem (dec m) (flags it) e (cas_counter s) (clock 1%nat)).
Proof.
  intros Hp Hk Hx Hv Hn Hd H m. change m with (incr_decr_value n delta b).
  split; [by apply incr_decr_value_range|]. revert H. unfold handle_incr_decr. unfold_st.
  rewrite get_eq, Hk, Hx by done. intros H.
  apply (finish_stores _ _ _ _ _ n) in H as (-> & _ & He); done.
Qed.

(** [incr] and [decr] are not atomic: when a second client reads the item before
    the first one has written it back, the first update is lost; the result is that
    of the second request alone. *)
Theorem incr_decr_lost_update clock k d1 b1 d2 b2 s it n r1 s1 r2 s2 :
  data_poisoned s = false -> data s !! k = Some it -> is_expired (clock 0%nat) it = false ->
  is_expired (clock 1%nat) it = false -> value it = dec n -> 0 <= n <= U64_MAX ->
  get (clock 0%nat) k s = Done (Some it) (touch k s) /\
  get (clock 1%nat) k (touch k s) = Done (Some it) (touch k (touch k s)) /\
  (finish_incr_decr (clock 2%nat) k d1 b1 it (touch k (touch k s)) = Done r1 s1 ->
   finish_incr_decr (clock 3%nat) k d2 b2 it s1 = Done r2 s2 ->
   option_map value (data s2 !! k) = Some (dec (incr_decr_value n d2 b2))).
Proof.
  intros Hp Hk Hx Hx' Hv Hn. rewrite !get_eq by done. simpl. rewrite Hk, Hx, Hx'.
  split; [done|]. split; [done|]. intros H1 H2.
  apply (finish_stores _ _ _ _ _ n) in H1 as (_ & Hp1 & _); [|done..].
  apply (finish_stores _ _ _ _ _ n) in H2 as (_ & _ & e & _ & ->); done.
Qed.

(** A request whose value exceeds the limit is refused without touching the
    store, but two bytes more than its command line are skipped: the line's CR LF is
    already counted, so the first two bytes of the data block are swallowed and the
    rest of it is read as commands. *)
Theorem oversized_request_desyncs clock c n rest output max s :
  legal c -> command_data c = Some n -> max < n -> len (print_line c) + 2 <= USIZE_MAX ->
  process_memcached clock (print_line c ++ rest) output max s =
  Done (answer (len (print_line c) + 2) (Response.client_error «"value too large"») output) s.
Proof.
  intros Hl Hd Hmax Hm. unfold process_memcached. rewrite lift_bind.
  rewrite (print_storage_header c n) by done. unfold need_data.
  rewrite (proj2 (Z.ltb_lt _ _)) by done. rewrite lift_bind, usize_add_small by lia.
  apply respond_eq.
Qed.

(** A data block that is not followed by CR LF blocks the connection for good:
    the request layer keeps asking for more data, whatever arrives later, instead of
    reporting the error that the parser found. *)
Theorem bad_terminator_stalls clock input c d output max s more :
  Memcached.parse input = Val (Memcached.NeedData c d) -> d <= max -> c + d + 2 <= USIZE_MAX ->
  c + d + 2 <= len input -> take 2 (drop (Z.to_nat (c + d)) input) <> crlf ->
  process_memcached clock (input ++ more) output max s = Done (NeedData, output) s.
Proof.
  intros Hp Hd Hm Hl Ht. apply parse_header in Hp as Hc.
  apply (parse_more _ _ more) in Hp; [|done].
  destruct (with_data_decides _ _ _ Hp Hm) as (cmd & _ & _ & E).
  unfold process_memcached. rewrite lift_bind, Hp. unfold need_data.
  rewrite (proj2 (Z.ltb_ge _ _)) by done. pose proof (len_nonneg more).
  rewrite lift_bind, usize_add_small by lia. rewrite lift_bind, usize_add_small by lia.
  rewrite (proj2 (Z.leb_le _ _)) by (rewrite len_app; lia). rewrite lift_bind, E.
  rewrite (proj2 (Z.ltb_ge _ _)) by (rewrite len_app; lia).
  rewrite bool_decide_eq_false_2; [done|].
  rewrite drop_app_le, take_app_le; [done|..]; unfold len in *; rewrite ?length_drop; lia.
Qed.

(** C14: End to end over RESP: after a [SET] request that the store accepted, the [GET]
    request for the same UTF-8 key is answered with exactly the value, as a bulk
    string, or with the null string once the default TTL has passed. *)
Theorem resp_set_then_get clock clock' k v rest rest' output output' max s r s1 :
  valid_utf8 k = true -> len v <= max -> (2 <= stack_depth)%nat ->
  frame_ok (set_frame k v) = true -> frame_ok (get_frame k) = true ->
  len (encode (set_frame k v) ++ rest) <= USIZE_MAX ->
  len (encode (get_frame k) ++ rest') <= USIZE_MAX ->
  data_poisoned s = false ->
  process_resp clock (encode (set_frame k v) ++ rest) output max s = Done r s1 ->
  exists e s2, expiry (clock 0%nat) 0 (default_ttl s) = Val e /\
    let live := negb (is_expired (clock' 0%nat) (mkItem v 0 e (cas_counter s) (clock 0%nat))) in
    let reply := encode (if live then bulk v else null) in
    process_resp clock' (encode (get_frame k) ++ rest') output' max s1 =
    Done (if len output' <? len reply
          then (LargeResponse (len (encode (get_frame k))) reply, output')
          else answer (len (encode (get_frame k))) reply output') s2.
Proof.
  intros Hk Hv Hd Hok Hok' Hm Hm' Hp. rewrite process_resp_eq; [|done|done|done|].
  2: { change (Val (max <? len v) = Val false). f_equal. by apply Z.ltb_ge. }
  rewrite (st_bind_eq _ _ _ _ (execute_set_frame clock k v s Hk)). unfold_st.
  destruct (Storage.set _ _ _ _ _ _) as [r0 s0|s0|s0] eqn:Es; [|done..]. intros [= <- <-].
  destruct (set_stores _ _ _ _ _ _ _ _ Hp Es) as (e & He & Hkd). exists e.
  rewrite process_resp_eq by done.
  rewrite (st_bind_eq _ _ _ _ (execute_get_frame clock' k s0 Hk)). unfold_st.
  rewrite get_eq, Hkd by (by eapply set_healthy).
  destruct (is_expired _ _); eexists; (split; [done|]); done.
Qed.

End thms.

(** ** Witnesses *)

Section witnesses.
#[local] Existing Instances release linux64 by_elements some_unicode frame64.

Definition at_ (t : Z) : nat -> Z := fun i => t + Z.of_nat i.
Definition out64 : bytes := repeat Byte.x00 64.
Definition empty_store : Storage := new 10000 0.

Definition set_cmd : Memcached.Command := CmdSet «"key1"» 7 60 2 false.

Lemma set_cmd_legal : legal set_cmd.
Proof. split; [apply Forall_cons; split; [by split|constructor]|]. vm_compute. repeat split; discriminate. Qed.

Lemma storage_request_executes_witness :
  process_memcached (at_ 0) (print_line set_cmd ++ «"ab"» ++ crlf ++ «"get"») out64 1000 empty_store =
  (response ← execute_storage_command (at_ 0) set_cmd «"ab"»;
   mret (answer 21 response out64)) empty_store.
Proof.
  apply (storage_request_executes (at_ 0) set_cmd «"ab"» «"get"» out64 1000 empty_store);
    [apply set_cmd_legal|done|done|done].
Defined.

Definition get_cmd : Memcached.Command := CmdGet [«"key1"»; «"key2"»].

Lemma command_request_executes_witness :
  process_memcached (at_ 0) (print_line get_cmd ++ «"set"») out64 1000 empty_store =
  (response ← execute_command (at_ 0) get_cmd;
   mret (if true && (len out64 <? len response)
         then (LargeResponse 15 response, out64) else answer 15 response out64)) empty_store.
Proof.
  apply (command_request_executes (at_ 0) get_cmd «"set"» out64 1000 empty_store); [|done|done].
  split; [|done]. by repeat (apply Forall_cons; split; [by split|]).
Defined.

Definition after_set : Storage :=
  state_of (process_memcached (at_ 0) (print_line set_cmd ++ «"ab"» ++ crlf ++ []) out64 1000 empty_store).

Lemma set_then_get_witness :
  exists e s2, expiry 0 60 0 = Val e /\
    let live := negb (is_expired 9 (mkItem «"ab"» 7 e 1 0)) in
    let response := (if live then Response.value «"key1"» 7 «"ab"» None else []) ++ Response.rend in
    process_memcached (at_ 9) (print_line (CmdGet [«"key1"»]) ++ []) out64 1000 after_set =
    Done (if len out64 <? len response then (LargeResponse 10 response, out64)
          else answer 10 response out64) s2.
Proof.
  apply (set_then_get (at_ 0) (at_ 9) «"key1"» 7 60 «"ab"» false [] [] out64 out64 1000 empty_store
    (answer 21 Response.stored out64) after_set); try done.
Defined.

(** The number 41 stored under [n] with flags 5. *)
Definition number_store : Storage := state_of (run 0 (OpSet «"n"» (dec 41) 5 0) empty_store).
Definition number_item : CacheItem := mkItem (dec 41) 5 None 1 0.

Lemma incr_decr_counts_witness :
  0 <= 0 <= U64_MAX /\ Response.numeric 0 = Response.numeric 0 /\
  exists e, expiry 4 0 0 = Val e /\
    data (state_of (handle_incr_decr (at_ 3) «"n"» 100 false number_store)) !! «"n"» =
      Some (mkItem (dec 0) 5 e 2 4).
Proof.
  apply (incr_decr_counts (at_ 3) «"n"» 100 false number_store number_item 41 (Response.numeric 0));
    done || by_vm.
Defined.

Definition both_read : Storage := touch «"n"» (touch «"n"» number_store).
Definition first_written : Storage := state_of (finish_incr_decr 5 «"n"» 1 true number_item both_read).
Definition second_written : Storage := state_of (finish_incr_decr 6 «"n"» 10 true number_item first_written).

Lemma incr_decr_lost_update_witness :
  get 3 «"n"» number_store = Done (Some number_item) (touch «"n"» number_store) /\
  get 4 «"n"» (touch «"n"» number_store) = Done (Some number_item) both_read /\
  (finish_incr_decr 5 «"n"» 1 true number_item both_read = Done (Response.numeric 42) first_written ->
   finish_incr_decr 6 «"n"» 10 true number_item first_written = Done (Response.numeric 51) second_written ->
   option_map value (data second_written !! «"n"») = Some (dec 51)).
Proof.
  apply (incr_decr_lost_update (at_ 3) «"n"» 1 true 10 true number_store number_item 41); done || by_vm.
Defined.

Lemma oversized_request_desyncs_witness :
  process_memcached (at_ 0) (print_line set_cmd ++ «"ab"» ++ crlf) out64 1 empty_store =
  Done (answer 19 (Response.client_error «"value too large"») out64) empty_store.
Proof.
  apply (oversized_request_desyncs (at_ 0) set_cmd 2 («"ab"» ++ crlf) out64 1 empty_store);
    [apply set_cmd_legal|done|done|done].
Defined.

Definition bad_block : bytes := print_line set_cmd ++ «"abcd"».

Lemma bad_terminator_stalls_witness :
  process_memcached (at_ 0) (bad_block ++ print_line get_cmd) out64 1000 empty_store =
  Done (NeedData, out64) empty_store.
Proof.
  apply (bad_terminator_stalls (at_ 0) bad_block 17 2); [by_vm|done|done|vm_compute; done|].
  vm_compute. discriminate.
Defined.

Definition resp_stored : Storage :=
  state_of (process_resp (at_ 0) (encode (set_frame «"k"» «"v"») ++ []) out64 1000 empty_store).

Lemma resp_set_then_get_witness :
  exists e s2, expiry 0 0 0 = Val e /\
    let live := negb (is_expired 9 (mkItem «"v"» 0 e 1 0)) in
    let reply := encode (if live then bulk «"v"» else null) in
    process_resp (at_ 9) (encode (get_frame «"k"») ++ []) out64 1000 resp_stored =
    Done (if len out64 <? len reply
          then (LargeResponse (len (encode (get_frame «"k"»))) reply, out64)
          else answer (len (encode (get_frame «"k"»))) reply out64) s2.
Proof.
  apply (resp_set_then_get (at_ 0) (at_ 9) «"k"» «"v"» [] [] out64 out64 1000 empty_store
    (answer 27 («"+OK"» ++ crlf) out64) resp_stored); done || by_vm || (vm_compute; lia).
Defined.

(** LATIN SMALL LETTER LONG S followed by ET: its upper case is SET. *)
Definition long_s_et : bytes := [Byte.xc5; Byte.xbf; Byte.x45; Byte.x54].
Definition long_s_set : Frame :=
  Array (Some [Bulk (Some long_s_et); Bulk (Some «"k"»); Bulk (Some «"12345"»)]).

(** The size limit of RESP can be bypassed: the limit is tested on the ASCII
    spelling of the command, but the command is dispatched on its Unicode upper case.
    A command that only becomes SET in upper case stores a value beyond the limit,
    which the plain spelling does not. *)
Theorem resp_size_limit_bypass :
  process_resp (at_ 0) (encode (set_frame «"k"» «"12345"»)) out64 4 empty_store =
    Done (answer 31 (encode (Resp.error «"ERR value too large"»)) out64) empty_store /\
  exists s1, process_resp (at_ 0) (encode long_s_set) out64 4 empty_store =
    Done (answer 32 (encode (simple «"OK"»)) out64) s1 /\
    option_map value (data s1 !! «"k"») = Some «"12345"».
Proof.
  split; [by_vm|]. exists (state_of (process_resp (at_ 0) (encode long_s_set) out64 4 empty_store)).
  split; by_vm.
Qed.

End witnesses.
