(* ===== verification/RequestBounds.v ===== *)
(** * Bounds on what a request consumes and answers, and the two test protocols *)

From S2P Require Import Prelude RustStd RustStdFacts Storage StorageFacts StorageInv StorageOps StorageThms.
From S2P Require Import Memcached MemcachedFacts MemcachedThms Resp RespFacts RespThms Ping Echo Request RequestFacts Concrete.

Section bounds.
Context `{BP : BuildProfile, LY : Layout, HO : HashOrder, UC : UnicodeCase, FL : FrameLayout}.
Implicit Types (clock : nat -> Z) (s : Storage).

(** ** Postconditions of a call

    [extra] is how far beyond the input the consumed bytes may reach. *)
Definition result_in (input output : bytes) (max extra : Z) (res : ProcessResult * bytes) : Prop :=
  len (snd res) = len output /\
  match fst res with
  | Response c n => 0 <= c <= len input + extra /\ 0 <= n <= len output
  | LargeResponse c d => 0 <= c <= len input /\ len output < len d
  | NeedChain c v => 0 <= c <= len input /\ len output < v <= max
  | _ => True
  end.

(** Every value a computation returns satisfies [Q]. *)
Definition post {A} (m : st Storage A) (Q : A -> Prop) : Prop :=
  forall s a s', m s = Done a s' -> Q a.

Lemma post_ret {A} (a : A) (Q : A -> Prop) : Q a -> post (mret a) Q.
Proof. intros H s a' s' [= <- <-]. done. Qed.

Lemma post_bind {A B} (m : st Storage A) (f : A -> st Storage B) (Q : B -> Prop) :
  (forall a, post (f a) Q) -> post (m ≫= f) Q.
Proof. intros H s b s'. unfold_st. destruct (m s); [apply H|done..]. Qed.

Lemma post_lift {A B} (c : comp A) (f : A -> st Storage B) (Q : B -> Prop) :
  (forall a, c = Val a -> post (f a) Q) -> post (lift c ≫= f) Q.
Proof. intros H s b s'. rewrite lift_bind. destruct c; [by apply H|done]. Qed.

Lemma post_respond c response input output max extra :
  0 <= c <= len input + extra -> post (respond c response output) (result_in input output max extra).
Proof.
  intros Hc s a s'. rewrite respond_eq. intros [= <- <-]. split; [apply filled_len|].
  split; [done|apply sent_len_range].
Qed.

Lemma usize_add_nonneg a b c : 0 <= a -> 0 <= b -> usize_add a b = Val c -> 0 <= c.
Proof.
  intros Ha Hb. unfold usize_add. pose proof (u64_range (a + b)).
  destruct (_ <=? _); [intros [= <-]; lia|]. destruct overflow_checks; [done|]. intros [= <-]. lia.
Qed.

Lemma data_size_nonneg name parts d ic : data_size name parts = Val (inr (d, ic)) -> 0 <= d.
Proof.
  unfold data_size, mret, comp_ret, mbind, comp_bind. intros H. comp_cases H;
    match goal with E : parse_usize _ = Some _ |- _ => by apply parse_unsigned_range in E as [? _] end.
Qed.

Lemma dec_not_quit n : 0 <= n -> eq_ignore_ascii_case (dec n) «"QUIT"» = false.
Proof.
  intros Hn. pose proof (dec_digits n Hn) as Hd. pose proof (dec_nonempty n) as Hne.
  destruct (dec n) as [|b l]; [done|]. apply Forall_cons in Hd as [Hb _].
  apply bool_decide_eq_false_2. cbn [map]. intros [= Hx _]. revert Hb Hx.
  clear. destruct b; vm_compute; discriminate.
Qed.

(** A command with its data block lies inside the buffer. *)
Lemma with_data_inside b cmd n :
  parse_with_data b = Val (Memcached.Complete cmd n) -> 0 <= n <= len b.
Proof.
  destruct (line_cases b) as [H|(line & rest & E & Hl)].
  - unfold parse_with_data. by rewrite with_line_none.
  - rewrite E at 1. unfold parse_with_data. rewrite with_line_eq by done. rewrite <- E. unfold on_line.
    destruct (valid_utf8 line); [|done]. destruct (split_whitespace line) as [|w ws]; [done|].
    destruct (data_size _ _) as [[e|[d ic]]|] eqn:Ed; [done| |done]. cbn [mbind comp_bind].
    apply data_size_nonneg in Ed. pose proof (len_nonneg line). unfold with_data_block.
    destruct (usize_add _ d) as [de|] eqn:E1; [|done]. apply usize_add_nonneg in E1; [|lia..].
    cbn [mbind comp_bind]. destruct (usize_add _ 2) as [t|] eqn:E2; [|done].
    apply usize_add_nonneg in E2; [|lia..]. cbn [mbind comp_bind].
    destruct (len b <? t) eqn:Et; [done|]. boolify. unfold mret, comp_ret, mbind, comp_bind.
    intros H'. comp_cases H'. done.
Qed.

Lemma parse_inside b :
  match Memcached.parse b with
  | Val (Memcached.Complete c n) => 0 < n <= len b /\ command_data c = None
  | Val (Memcached.NeedData n d) => 0 < n <= len b /\ 0 <= d
  | _ => True
  end.
Proof.
  destruct (line_cases b) as [H|(line & rest & -> & Hl)].
  - unfold Memcached.parse. by rewrite with_line_none.
  - destruct (parse_line_ok line rest Hl) as (r & -> & Hok). unfold crlf. autorewrite with cache.
    pose proof (len_nonneg line). pose proof (len_nonneg rest).
    destruct r as [c n|n d|e]; simpl in Hok; destruct_and?; split_and?; try done; lia.
Qed.

(** The answer of memcached to a value beyond the limit: it skips the command line and
    two bytes more, which may reach beyond the input. *)
Definition refused (input output : bytes) (max : Z) (res : ProcessResult * bytes) : Prop :=
  exists c d n out, Memcached.parse input = Val (Memcached.NeedData c d) /\ max < d /\
    res = (Response (c + 2) n, out) /\ 0 < c <= len input /\ 0 <= n <= len output /\ len out = len output.

Lemma post_refuse c d response input output max :
  Memcached.parse input = Val (Memcached.NeedData c d) -> max < d -> 0 < c <= len input ->
  post (respond (c + 2) response output) (refused input output max).
Proof.
  intros Hp Hd Hc s a s'. rewrite respond_eq. intros [= <- <-]. eexists c, d, _, _.
  split_and!; try done; try lia; [apply sent_len_range..|apply filled_len].
Qed.

Lemma post_mono {A} (m : st Storage A) (Q Q' : A -> Prop) : post m Q -> (forall a, Q a -> Q' a) -> post m Q'.
Proof. intros H HQ s a s' E. by eapply HQ, H. Qed.

Lemma post_memcached clock input output max :
  len input + 2 <= USIZE_MAX ->
  post (process_memcached clock input output max)
    (fun res => result_in input output max 0 res \/ refused input output max res).
Proof.
  intros Hi. unfold process_memcached. apply post_lift. intros r Hr.
  pose proof (parse_inside input) as Hin. rewrite Hr in Hin.
  assert (Hleft : forall m, post m (result_in input output max 0) ->
    post m (fun res => result_in input output max 0 res \/ refused input output max res))
    by (intros m Hm; eapply post_mono; [exact Hm|by left]).
  destruct r as [c n|n d|e].
  - apply Hleft. destruct Hin as [Hn Hd].
    assert (Hc : command_bytes c = None) by (by destruct c).
    destruct c; try done; try (apply post_ret; by split);
      (apply post_bind; intros response);
      try (destruct (_ <? _) eqn:E; [apply post_ret; boolify; split; simpl; [done|lia]|]);
      apply post_respond; lia.
  - destruct Hin as [Hn Hd]. unfold need_data. destruct (max <? d) eqn:Em; boolify.
    + rewrite usize_add_small by lia. apply post_lift. intros skip [= <-].
      eapply post_mono; [by apply (post_refuse _ d)|by right].
    + apply Hleft. apply post_lift. intros e He. apply usize_add_nonneg in He; [|lia..].
      apply post_lift. intros total Ht. apply usize_add_nonneg in Ht; [|lia..].
      destruct (total <=? len input) eqn:El; boolify.
      * apply post_lift. intros again Ha. destruct again as [c m|m d'|er]; try (apply post_ret; by split).
        apply post_lift. intros data _. apply post_bind. intros response.
        pose proof (with_data_inside _ _ _ Ha). apply post_respond. lia.
      * destruct (_ <? d) eqn:Eo; apply post_ret; split; boolify; simpl; try done; lia.
  - apply Hleft. destruct e; apply post_ret; by split.
Qed.

Lemma post_resp clock input output max :
  len input < I64_MAX ->
  post (process_resp clock input output max) (result_in input output max 0).
Proof.
  intros Hi. unfold process_resp. apply post_lift. intros r Hr.
  pose proof (parse_at_inside stack_depth input Hi) as Hin. change (Resp.parse input) with
    (parse_at stack_depth input) in Hr. rewrite Hr in Hin.
  destruct r as [f n| |e]; try (apply post_ret; by split). specialize (Hin _ _ eq_refl).
  apply post_lift. intros too_large _. destruct too_large; [apply post_respond; lia|].
  apply post_bind. intros response. cbv zeta. destruct (_ <? _) eqn:E; boolify.
  - apply post_ret. split; simpl; [done|lia].
  - apply post_respond. lia.
Qed.

Lemma ping_inside input cmd n : Ping.parse input = Val (Ping.Complete cmd n) -> 0 <= n <= len input.
Proof.
  unfold Ping.parse. destruct (find_crlf input) as [e|] eqn:E; [|done].
  apply find_crlf_bound in E. unfold mret, comp_ret, mbind, comp_bind. intros H.
  comp_cases H; lia.
Qed.

Lemma pong_msg_len msg output n out :
  response_pong_msg msg output = Val (n, out) -> len out = len output /\ 0 <= n <= len output.
Proof.
  unfold response_pong_msg. pose proof (len_nonneg output). pose proof (len_nonneg msg).
  destruct (_ <? _) eqn:E; [intros [= <- <-]; by split; [|lia]|]. boolify.
  unfold mret, comp_ret, mbind, comp_bind. intros Hw. comp_cases Hw.
  repeat match goal with H : write_range _ _ _ _ = _ |- _ => apply write_range_Val in H end. lia.
Qed.

Lemma post_ping input output max :
  post (process_ping input output) (result_in input output max 0).
Proof.
  unfold process_ping. pose proof (len_nonneg input). apply post_lift. intros r Hr.
  destruct r as [[|msg|] n| |]; try (apply post_ret; by split).
  - apply ping_inside in Hr. apply post_respond. lia.
  - apply ping_inside in Hr. apply post_lift. intros [m out] Hm. apply pong_msg_len in Hm as [Ho Hm].
    apply post_ret. split; [done|]. simpl. destruct (m =? 0); [done|]. lia.
  - apply post_respond. lia.
Qed.

Lemma echo_inside input l h :
  Echo.parse input = Val (Echo.Complete (Echo l h)) -> 0 <= h <= len input /\ 0 <= l.
Proof.
  unfold Echo.parse. destruct (find_crlf input) as [e|] eqn:E; [|done].
  apply find_crlf_bound in E. unfold mret, comp_ret, mbind, comp_bind. intros H.
  comp_cases H. match goal with E : parse_usize _ = Some _ |- _ => apply parse_unsigned_range in E end; [|done].
  lia.
Qed.

Lemma response_header_len l output n out :
  response_header l output = Val (n, out) -> len out = len output /\ 0 <= n <= len output.
Proof.
  unfold response_header. pose proof (len_nonneg output). pose proof (len_nonneg (dec l ++ crlf)).
  cbv zeta. destruct (_ <? _) eqn:E; [intros [= <- <-]; by split; [|lia]|]. boolify.
  unfold mret, comp_ret, mbind, comp_bind. intros Hw. comp_cases Hw.
  repeat match goal with H : write_range _ _ _ _ = _ |- _ => apply write_range_Val in H end. lia.
Qed.

Lemma slice_len {A} (l q : list A) a b : slice l a b = Val q -> len q = b - a.
Proof.
  intros (-> & ? & ?)%slice_Val. unfold len in *. rewrite length_take, length_drop. lia.
Qed.

Lemma post_echo input output max :
  len input + len output + max <= USIZE_MAX ->
  post (process_echo input output max) (result_in input output max 0).
Proof.
  intros Hs. pose proof (len_nonneg input). pose proof (len_nonneg output).
  unfold process_echo. apply post_lift. intros r Hr.
  destruct r as [[l h|]| |]; try (apply post_ret; by split); [|apply post_respond; lia].
  apply echo_inside in Hr as [Hh Hl]. unfold echo_data.
  destruct (max <? l) eqn:Em; [apply post_respond; lia|]. boolify.
  rewrite usize_add_small by lia. apply post_lift. intros total [= <-].
  destruct (len input <? h + l) eqn:Ei; boolify.
  - destruct (_ <? l) eqn:Eo; apply post_ret; split; boolify; simpl; try done; lia.
  - apply post_lift. intros [rh out] Ho. apply response_header_len in Ho as [Ho Hrh].
    rewrite usize_add_small by lia. apply post_lift. intros rl [= <-].
    apply post_lift. intros data Hd%slice_len. destruct (len out <? rh + l) eqn:El; boolify.
    + apply post_lift. intros head Hhd%slice_len. apply post_ret. split; simpl; [done|].
      rewrite len_app. lia.
    + apply post_lift. intros out' Hw%write_range_Val. apply post_ret. split; simpl; lia.
Qed.

(** ** The echo of a well-formed request *)

Lemma echo_parse n rest :
  0 <= n <= USIZE_MAX ->
  Echo.parse (dec n ++ crlf ++ rest) = Val (Echo.Complete (Echo n (len (dec n) + 2))).
Proof.
  intros Hn. unfold Echo.parse. pose proof (dec_word n ltac:(lia)) as Hw.
  rewrite find_crlf_line by (apply no_lf_find_crlf; by apply word_no_ws).
  rewrite slice_prefix. cbn [mbind comp_bind]. rewrite dec_not_quit by lia.
  rewrite dec_utf8 by lia. unfold parse_usize. by rewrite parse_unsigned_dec.
Qed.

Lemma response_header_eq n o1 o2 :
  len o1 = len (dec n ++ crlf) ->
  response_header n (o1 ++ o2) = Val (len (dec n ++ crlf), (dec n ++ crlf) ++ o2).
Proof.
  intros Ho. unfold response_header. cbv zeta. set (h := dec n ++ crlf) in *. pose proof (len_nonneg o2).
  rewrite (proj2 (Z.ltb_ge _ _)) by (rewrite len_app; lia).
  pose proof (write_range_eq [] o1 o2 h ltac:(done)) as W. rewrite Ho in W. cbn [app] in W.
  change (len [] + len h) with (len h) in W. change (len []) with 0 in W. by rewrite W.
Qed.

(** ** Theorems *)

(** All four protocols at once. *)
Lemma process_result clock p input output max s res s' :
  len input + len output + max <= I64_MAX - 2 -> 0 <= max ->
  process clock p input output max s = Done res s' ->
  result_in input output max 0 res \/ (p = PMemcached /\ refused input output max res).
Proof.
  unfold I64_MAX. intros Hs Hm. pose proof (len_nonneg input). pose proof (len_nonneg output).
  unfold process. destruct p; intros E; [|left; revert E..].
  - destruct (post_memcached clock input output max) with s res s' as [|]; auto.
    unfold USIZE_MAX, U64_MAX. lia.
  - apply post_resp. unfold I64_MAX. lia.
  - apply post_ping.
  - apply post_echo. unfold USIZE_MAX, U64_MAX. lia.
Qed.

Lemma process_post clock p input output max s res s' :
  len input + len output + max <= I64_MAX - 2 -> 0 <= max ->
  process clock p input output max s = Done res s' ->
  result_in input output max (match p with PMemcached => 2 | _ => 0 end) res.
Proof.
  intros Hs Hm E. destruct (process_result _ _ _ _ _ _ _ _ Hs Hm E) as [[Hl Hr]|[-> Hr]].
  - split; [done|]. destruct res as [[] out], p; simpl in *; try done; lia.
  - destruct Hr as (c & d & n & out & _ & _ & -> & Hc & Hn & Ho). split; simpl; [done|lia].
Qed.

(** C33: Whatever the protocol and the input, a call that returns leaves the output buffer
    at its size, reports at most that many response bytes, hands over a separate
    response only when it does not fit the buffer, asks for a chain only for a value
    that is within the size limit and larger than the buffer, and reports consumed
    bytes that lie within the input.  There is one exception: when memcached refuses a
    value beyond the size limit, it reports the command line and two bytes more as
    consumed, whether or not these two bytes have arrived. *)
Theorem process_bounds clock p input output max s res s' :
  len input + len output + max <= I64_MAX - 2 -> 0 <= max ->
  process clock p input output max s = Done res s' ->
  result_in input output max 0 res \/ (p = PMemcached /\ refused input output max res).
Proof. apply process_result. Qed.

(** Echo. A length line and its data come back unchanged: as a response in the
    buffer when they fit, as a separate response otherwise; exactly those bytes are
    consumed and the store is left alone. *)
Theorem echo_replies v rest output max s :
  len v <= max -> len (dec (len v)) + 2 <= len output ->
  len (dec (len v) ++ crlf ++ v ++ rest) + len output + max <= USIZE_MAX ->
  let request := dec (len v) ++ crlf ++ v in
  exists out, process_echo (request ++ rest) output max s =
    Done (if len output <? len request then (LargeResponse (len request) request, out)
          else (Response (len request) (len request), out)) s /\
    (len request <= len output -> take (length request) out = request).
Proof.
  intros Hv Ho Hs request. pose proof (len_nonneg v). pose proof (len_nonneg rest).
  set (h := dec (len v) ++ crlf).
  assert (Hh : len h = len (dec (len v)) + 2) by (unfold h; by rewrite len_app).
  assert (Eq : request = h ++ v) by (unfold request, h; by rewrite <- app_assoc).
  rewrite !len_app in Hs. change (len crlf) with 2 in Hs.
  pose proof (len_nonneg (dec (len v))). pose proof (len_nonneg output).
  unfold process_echo. rewrite lift_bind. replace (Echo.parse (request ++ rest)) with
    (Val (Echo.Complete (Echo (len v) (len h)))).
  2: { unfold request. rewrite <- !app_assoc, Hh. by rewrite echo_parse by lia. }
  unfold echo_data. rewrite (proj2 (Z.ltb_ge _ _)) by done. rewrite Eq, <- app_assoc.
  rewrite lift_bind, usize_add_small by lia. rewrite (proj2 (Z.ltb_ge _ _)) by (rewrite !len_app; lia).
  destruct (split_at output (len h) ltac:(lia)) as (o1 & o2 & -> & Ho1).
  rewrite lift_bind, response_header_eq by done. fold h.
  rewrite lift_bind, usize_add_small by lia. rewrite lift_bind, slice_middle.
  rewrite !len_app, Ho1 in *. destruct (_ <? _) eqn:E; boolify.
  - rewrite lift_bind, slice_prefix. exists (h ++ o2). split; [done|lia].
  - destruct (split_at o2 (len v) ltac:(lia)) as (o3 & o4 & -> & Ho3).
    rewrite lift_bind. rewrite <- Ho3, write_range_eq by done. rewrite Ho3.
    exists (h ++ v ++ o4). split; [done|]. intros _. by rewrite app_assoc, take_app_length.
Qed.

End bounds.

(** ** Witnesses *)

Section witnesses.
#[local] Existing Instances release linux64 by_elements some_unicode frame64.

Definition ping_input : bytes := «"ping hello"» ++ crlf.
Definition out32 : bytes := repeat Byte.x00 32.
Definition ping_output : bytes := «"PONG hello"» ++ crlf ++ repeat Byte.x00 20.

Definition long_set : bytes := «"set k 0 0 9"» ++ crlf.
Definition too_large : bytes := filled (Memcached.Response.client_error «"value too large"») out32.

(** A ping within its bounds, and the refusal of a value of nine bytes with a limit of
    eight: two bytes more are consumed than have arrived. *)
Lemma process_bounds_witness :
  (result_in ping_input out32 1000 0 (Response 12 12, ping_output) \/
    PPing = PMemcached /\ refused ping_input out32 1000 (Response 12 12, ping_output)) /\
  (result_in long_set out32 8 0 (Response 15 30, too_large) \/
    PMemcached = PMemcached /\ refused long_set out32 8 (Response 15 30, too_large)) /\
  len long_set = 13.
Proof.
  split_and!; [| |done].
  - apply (process_bounds (fun _ => 0) PPing ping_input out32 1000 (new 10000 0)
      (Response 12 12, ping_output) (new 10000 0)); [vm_compute; done|done|by_vm].
  - apply (process_bounds (fun _ => 0) PMemcached long_set out32 8 (new 10000 0)
      (Response 15 30, too_large) (new 10000 0)); [vm_compute; done|done|by_vm].
Defined.

Lemma echo_replies_witness :
  exists out, process_echo ((dec 3 ++ crlf ++ «"abc"») ++ «"1"») out32 1000 (new 10000 0) =
    Done (if len out32 <? 6 then (LargeResponse 6 (dec 3 ++ crlf ++ «"abc"»), out)
          else (Response 6 6, out)) (new 10000 0) /\
    (6 <= len out32 -> take 6 out = dec 3 ++ crlf ++ «"abc"»).
Proof.
  apply (echo_replies «"abc"» «"1"» out32 1000 (new 10000 0)); vm_compute; done.
Defined.

End witnesses.
