(* ===== verification/Buffer.v ===== *)
(** * Buffer pools and chains (src/runtime/buffer.rs)

    [BufferPool] holds fixed-size buffers and a stack of free indices; a
    [BufferChain] lists the buffers that hold one large value.  A chain operation
    works on the chain and on the pool it was given. *)

From S2P Require Import Prelude.

(** ** The pool *)

Record BufferPool := mkPool {
  pool_buffers : list bytes;
  free_list : list nat;
  pool_buffer_size : Z
}.

(** A [Vec] as a stack: [push] and [pop] work at its end. *)
Definition push {A} (x : A) (v : list A) : list A := v ++ [x].
Definition pop {A} (v : list A) : option (A * list A) :=
  match rev v with
  | [] => None
  | x :: r => Some (x, rev r)
  end.

Definition with_free (f : list nat) (p : BufferPool) : BufferPool :=
  mkPool (pool_buffers p) f (pool_buffer_size p).

Definition pool_new (count : nat) (size : Z) : BufferPool :=
  mkPool (repeat (repeat Byte.x00 (Z.to_nat size)) count) (seq 0 count) size.

Definition alloc : st BufferPool (option nat) := fun p =>
  match pop (free_list p) with
  | Some (idx, rest) => Done (Some idx) (with_free rest p)
  | None => Done None p
  end.

(** [free] and each round of [free_many]. *)
Definition free `{BuildProfile} (idx : nat) : st BufferPool unit := fun p =>
  if debug_assertions && (length (pool_buffers p) <=? idx)%nat then Panicked p
  else Done tt (with_free (push idx (free_list p)) p).

Fixpoint free_many `{BuildProfile} (indices : list nat) : st BufferPool unit :=
  match indices with
  | [] => mret tt
  | idx :: rest => free idx;; free_many rest
  end.

(** The [for] loop of [alloc_many]; its [unwrap] panics on an empty free list. *)
Fixpoint alloc_loop (count : nat) (indices : list nat) : st BufferPool (list nat) :=
  match count with
  | O => mret indices
  | S c => fun p =>
      match pop (free_list p) with
      | Some (idx, rest) => alloc_loop c (push idx indices) (with_free rest p)
      | None => Panicked p
      end
  end.

Definition alloc_many (count : nat) : st BufferPool (option (list nat)) := fun p =>
  if (length (free_list p) <? count)%nat then Done None p
  else (indices ← alloc_loop count []; mret (Some indices)) p.

(** [get]: the buffer at an index, a panic out of bounds. *)
Definition get_buffer (p : BufferPool) (idx : nat) : comp bytes := index (pool_buffers p) (Z.of_nat idx).

(** [get_mut(idx)[a..b].copy_from_slice(src)] *)
Definition write_buffer (idx : nat) (a b : Z) (src : bytes) : st BufferPool unit := fun p =>
  match (buf ← get_buffer p idx; write_range buf a b src) with
  | Val buf' => Done tt (mkPool (<[idx := buf']> (pool_buffers p)) (free_list p) (pool_buffer_size p))
  | Panic => Panicked p
  end.

Definition buffer_size (p : BufferPool) : Z := pool_buffer_size p.
Definition capacity (p : BufferPool) : Z := len (pool_buffers p).
Definition available (p : BufferPool) : Z := len (free_list p).

(** ** Chains *)

Inductive ChainError : Type := PoolExhausted | ValueTooLarge.

Record BufferChain := mkChain {
  chain_buffers : list nat;
  chain_len : Z;
  chain_buffer_size : Z
}.

Definition chain_new (buffer_size : Z) : BufferChain := mkChain [] 0 buffer_size.
Definition with_buffer (idx : nat) (buffer_size : Z) : BufferChain := mkChain [idx] 0 buffer_size.
Definition is_empty (c : BufferChain) : bool := chain_len c =? 0.
Definition buffer_count (c : BufferChain) : Z := len (chain_buffers c).
Definition buffer_indices (c : BufferChain) : list nat := chain_buffers c.

(** Operations on a chain and its pool. *)
Abbreviation chain_st := (st (BufferChain * BufferPool)).

Definition on_pool {A} (m : st BufferPool A) : chain_st A := fun '(c, p) =>
  match m p with
  | Done a p' => Done a (c, p')
  | Panicked p' => Panicked (c, p')
  | Running p' => Running (c, p')
  end.

Definition on_chain (f : BufferChain -> BufferChain) : chain_st unit := modify (fun '(c, p) => (f c, p)).
Definition the_chain : chain_st BufferChain := gets fst.

(** [buffers.push(idx)] *)
Definition push_buffer (idx : nat) (c : BufferChain) : BufferChain :=
  mkChain (push idx (chain_buffers c)) (chain_len c) (chain_buffer_size c).

(** [len += n]; the total stays below the size of the pool, which is in memory. *)
Definition grow (n : Z) (c : BufferChain) : BufferChain :=
  mkChain (chain_buffers c) (chain_len c + n) (chain_buffer_size c).

(** The arm that takes a new buffer. *)
Definition add_buffer : chain_st (ChainError + nat * Z) :=
  r ← on_pool alloc;
  match r with
  | None => mret (inl PoolExhausted)
  | Some idx => on_chain (push_buffer idx);; mret (inr (idx, 0))
  end.

Definition current_buffer_and_offset : chain_st (ChainError + nat * Z) :=
  c ← the_chain;
  match last (chain_buffers c) with
  | None => add_buffer
  | Some idx =>
      if chain_buffer_size c =? 0 then lift Panic
      else
        let offset_in_last := chain_len c mod chain_buffer_size c in
        if (offset_in_last =? 0) && (0 <? chain_len c) then add_buffer
        else mret (inr (idx, offset_in_last))
  end.

(** The [while] loop of [append]: [S (length data)] rounds are enough, since every
    round copies a byte. *)
Fixpoint append_loop (fuel : nat) (d : bytes) (offset : Z) : chain_st (ChainError + unit) :=
  match fuel with
  | O => fun s => Running s
  | S fuel' =>
      if offset <? len d then
        r ← current_buffer_and_offset;
        match r with
        | inl e => mret (inl e)
        | inr (idx, buf_offset) =>
            c ← the_chain;
            let avail := chain_buffer_size c - buf_offset in
            let to_copy := Z.min avail (len d - offset) in
            src ← lift (slice d offset (offset + to_copy));
            on_pool (write_buffer idx buf_offset (buf_offset + to_copy) src);;
            on_chain (grow to_copy);;
            append_loop fuel' d (offset + to_copy)
        end
      else mret (inr tt)
  end.

Definition append (d : bytes) : chain_st (ChainError + unit) := append_loop (S (length d)) d 0.

(** The loop of [assemble] and of [chunks]. *)
Fixpoint chunks_loop (p : BufferPool) (size : Z) (indices : list nat) (remaining : Z)
    : comp (list bytes) :=
  match indices with
  | [] => mret []
  | idx :: rest =>
      buf ← get_buffer p idx;
      let chunk_len := Z.min remaining size in
      chunk ← slice buf 0 chunk_len;
      chunks ← chunks_loop p size rest (remaining - chunk_len);
      mret (chunk :: chunks)
  end.

Definition chunks (c : BufferChain) (p : BufferPool) : comp (list bytes) :=
  chunks_loop p (chain_buffer_size c) (chain_buffers c) (chain_len c).

Definition assemble (c : BufferChain) (p : BufferPool) : comp bytes :=
  cs ← chunks c p; mret (concat cs).

Definition as_contiguous (c : BufferChain) (p : BufferPool) : comp bytes :=
  match chain_buffers c with
  | [] => mret []
  | [idx] => buf ← get_buffer p idx; slice buf 0 (chain_len c)
  | _ => assemble c p
  end.

(** The loop of [io_slices] over the buffers. *)
Fixpoint io_loop (p : BufferPool) (size : Z) (indices : list nat) (skip remaining : Z)
    : comp (list bytes) :=
  match indices with
  | [] => mret []
  | idx :: rest =>
      buf ← get_buffer p idx;
      let chunk_len := Z.min remaining size in
      if chunk_len <=? skip then io_loop p size rest (skip - chunk_len) remaining
      else
        probe ← slice buf skip (skip + chunk_len - Z.min skip chunk_len);
        found ← (if bool_decide (probe = []) then mret []
                 else s ← slice buf skip chunk_len; mret [s]);
        more ← io_loop p size rest 0 (remaining - chunk_len);
        mret (found ++ more)
  end.

Definition io_slices (c : BufferChain) (p : BufferPool) (start_offset : Z) : comp (list bytes) :=
  if chain_len c <=? start_offset then mret []
  else io_loop p (chain_buffer_size c) (chain_buffers c) start_offset (chain_len c - start_offset).

Definition clear (c : BufferChain) : BufferChain :=
  mkChain (chain_buffers c) 0 (chain_buffer_size c).

Definition release `{BuildProfile} : chain_st unit :=
  c ← the_chain;
  on_pool (free_many (chain_buffers c));;
  on_chain (fun c => mkChain [] 0 (chain_buffer_size c)).

Definition take_buffers : chain_st (list nat) :=
  c ← the_chain;
  on_chain (fun c => mkChain [] 0 (chain_buffer_size c));;
  mret (chain_buffers c).

Definition set_len (n : Z) (c : BufferChain) : BufferChain :=
  mkChain (chain_buffers c) n (chain_buffer_size c).

Definition first_n_bytes (n : Z) (c : BufferChain) (p : BufferPool) : comp (option bytes) :=
  if chain_len c <? n then mret None
  else match chain_buffers c with
       | idx :: _ =>
           if n <=? chain_buffer_size c then
             buf ← get_buffer p idx; s ← slice buf 0 n; mret (Some s)
           else mret None
       | [] => mret None
       end.
