(* ===== verification/BufferFacts.v ===== *)
(** * Buffer pools and chains: invariants and their lemmas

    Ownership of pool buffers, what an operation leaves alone ([frame]), and the bytes
    a chain holds. *)

From S2P Require Import Prelude Buffer.

(** ** Ownership

    [held] are the buffers that have been handed out. *)
Definition pool_inv (held : list nat) (p : BufferPool) : Prop :=
  free_list p ++ held ≡ₚ seq 0 (length (pool_buffers p)) /\
  Forall (fun b => len b = pool_buffer_size p) (pool_buffers p).

#[export] Instance pool_inv_proper : Proper ((≡ₚ) ==> eq ==> iff) pool_inv.
Proof. intros h h' Hh p ? <-. unfold pool_inv. by rewrite Hh. Qed.

(** An operation that leaves the buffers [keep] and the dimensions of the pool
    alone. *)
Definition frame (keep : list nat) (p p' : BufferPool) : Prop :=
  (forall i, i ∈ keep -> pool_buffers p' !! i = pool_buffers p !! i) /\
  length (pool_buffers p') = length (pool_buffers p) /\
  pool_buffer_size p' = pool_buffer_size p.

#[export] Instance frame_preorder keep : PreOrder (frame keep).
Proof.
  split; [done|]. intros p q r (H1 & L1 & S1) (H2 & L2 & S2). split_and!; [|congruence..].
  intros i Hi. by rewrite H2, H1.
Qed.

Lemma frame_eq keep p p' :
  pool_buffers p' = pool_buffers p -> pool_buffer_size p' = pool_buffer_size p -> frame keep p p'.
Proof. intros Hb Hs. unfold frame. by rewrite Hb, Hs. Qed.

Lemma frame_sub keep keep' p p' : keep' ⊆ keep -> frame keep p p' -> frame keep' p p'.
Proof. intros Hk (H & ? & ?). split_and!; [|done..]. intros i Hi. by apply H, Hk. Qed.

#[export] Hint Resolve frame_eq : cache.

Lemma pop_Some {A} (v : list A) x r : pop v = Some (x, r) <-> v = push x r.
Proof.
  unfold pop, push. split.
  - destruct (rev v) as [|y l] eqn:E; [done|]. intros [= -> <-].
    by rewrite <- (rev_involutive v), E.
  - intros ->. rewrite rev_app_distr. simpl. by rewrite rev_involutive.
Qed.

Lemma pop_None {A} (v : list A) : pop v = None <-> v = [].
Proof.
  unfold pop. split; [|by intros ->]. destruct (rev v) as [|y l] eqn:E; [|done].
  intros _. by rewrite <- (rev_involutive v), E.
Qed.

Lemma pool_inv_new count size : 0 <= size -> pool_inv [] (pool_new count size).
Proof.
  intros Hs. split; simpl.
  - by rewrite app_nil_r, repeat_length.
  - apply Forall_forall. intros b Hb. apply list_elem_of_In, repeat_spec in Hb as ->.
    unfold len. rewrite repeat_length. lia.
Qed.

Lemma alloc_inv held p idx p' :
  pool_inv held p -> alloc p = Done (Some idx) p' ->
  pool_inv (idx :: held) p' /\ free_list p = push idx (free_list p') /\
  pool_buffers p' = pool_buffers p /\ pool_buffer_size p' = pool_buffer_size p.
Proof.
  intros [Hperm Hlen]. unfold alloc. destruct (pop (free_list p)) as [[i rest]|] eqn:E; [|done].
  intros [= -> <-]. apply pop_Some in E. split_and!; [|done..]. split; simpl; [|done].
  rewrite <- Hperm, E. unfold push. by rewrite <- app_assoc.
Qed.

Lemma free_inv `{BuildProfile} held p idx :
  pool_inv (idx :: held) p -> exists p', free idx p = Done tt p' /\ pool_inv held p' /\
    free_list p' = push idx (free_list p) /\
    pool_buffers p' = pool_buffers p /\ pool_buffer_size p' = pool_buffer_size p.
Proof.
  intros [Hperm Hlen]. assert (Hi : (idx < length (pool_buffers p))%nat).
  { assert (Hin : idx ∈ seq 0 (length (pool_buffers p))).
    { rewrite <- Hperm. apply elem_of_app. right. apply elem_of_cons. by left. }
    apply elem_of_seq in Hin. lia. }
  unfold free. rewrite (proj2 (Nat.leb_gt _ _) Hi), andb_false_r. eexists. split; [done|].
  split_and!; [|done..]. split; simpl; [|done]. rewrite <- Hperm. unfold push. by rewrite <- app_assoc.
Qed.

Lemma free_many_inv `{BuildProfile} l held p :
  pool_inv (l ++ held) p -> exists p', free_many l p = Done tt p' /\ pool_inv held p' /\
    free_list p' = free_list p ++ l /\
    pool_buffers p' = pool_buffers p /\ pool_buffer_size p' = pool_buffer_size p.
Proof.
  revert p. induction l as [|i l IH]; intros p Hp; simpl.
  - exists p. by rewrite app_nil_r.
  - destruct (free_inv _ _ _ Hp) as (p1 & E1 & H1 & F1 & B1 & S1).
    destruct (IH _ H1) as (p2 & E2 & H2 & F2 & B2 & S2).
    exists p2. unfold mbind, st_bind. rewrite E1. split_and!; [done|done| |congruence..].
    rewrite F2, F1. unfold push. by rewrite <- app_assoc.
Qed.

Lemma alloc_loop_inv count acc held p :
  pool_inv held p -> (count <= length (free_list p))%nat ->
  exists l p', alloc_loop count acc p = Done (acc ++ l) p' /\ pool_inv (l ++ held) p' /\
    length l = count /\
    pool_buffers p' = pool_buffers p /\ pool_buffer_size p' = pool_buffer_size p.
Proof.
  revert acc held p. induction count as [|n IH]; intros acc held p Hp Hc; simpl.
  - exists [], p. by rewrite app_nil_r.
  - destruct (pop (free_list p)) as [[idx rest]|] eqn:E.
    + assert (Ha : alloc p = Done (Some idx) (with_free rest p)) by (unfold alloc; by rewrite E).
      destruct (alloc_inv _ _ _ _ Hp Ha) as (H1 & Hf & _). unfold push in Hf.
      rewrite Hf, length_app in Hc. simpl in Hc.
      destruct (IH (push idx acc) _ _ H1 ltac:(simpl; lia)) as (l & p' & -> & H2 & Hl & Hb & Hs).
      exists (idx :: l), p'. unfold push. rewrite <- app_assoc. split_and!; try done; [|simpl; lia].
      rewrite <- Hl in *. by rewrite <- Permutation_middle in H2.
    + apply pop_None in E. rewrite E in Hc. simpl in Hc. lia.
Qed.

Lemma alloc_many_inv count held p :
  pool_inv held p ->
  alloc_many count p = Done None p \/
  exists l p', alloc_many count p = Done (Some l) p' /\ pool_inv (l ++ held) p' /\ length l = count /\
    pool_buffers p' = pool_buffers p /\ pool_buffer_size p' = pool_buffer_size p.
Proof.
  intros Hp. unfold alloc_many. destruct (_ <? _)%nat eqn:E; [by left|right]. apply Nat.ltb_ge in E.
  destruct (alloc_loop_inv count [] held p Hp E) as (l & p' & El & ?).
  exists l, p'. by rewrite (bind_done _ _ _ _ _ El).
Qed.

(** What the operations do on any pool, whoever holds the buffers. *)
Lemma free_run `{BuildProfile} idx p :
  (idx < length (pool_buffers p))%nat -> free idx p = Done tt (with_free (free_list p ++ [idx]) p).
Proof. intros Hi. unfold free. by rewrite (proj2 (Nat.leb_gt _ _) Hi), andb_false_r. Qed.

Lemma alloc_loop_run l fl acc p :
  free_list p = fl ++ l -> alloc_loop (length l) acc p = Done (acc ++ rev l) (with_free fl p).
Proof.
  revert acc p. induction l as [|x l IH] using rev_ind; intros acc p Hf.
  - rewrite app_nil_r in Hf. subst fl. simpl. rewrite app_nil_r. by destruct p.
  - rewrite length_app, Nat.add_comm. cbn [length Nat.add alloc_loop].
    assert (E : pop (free_list p) = Some (x, fl ++ l)) by (apply pop_Some; rewrite Hf; unfold push; by rewrite app_assoc).
    rewrite E, (IH _ (with_free (fl ++ l) p)) by done. rewrite rev_app_distr. unfold push. simpl. by rewrite <- app_assoc.
Qed.

Lemma alloc_many_run l fl p :
  free_list p = fl ++ l -> alloc_many (length l) p = Done (Some (rev l)) (with_free fl p).
Proof.
  intros Hf. unfold alloc_many. rewrite (proj2 (Nat.ltb_ge _ _)) by (rewrite Hf, length_app; lia).
  by rewrite (bind_done _ _ _ _ _ (alloc_loop_run l fl [] p Hf)).
Qed.

(** Held buffers are distinct, in range and not free. *)
Lemma held_NoDup held p : pool_inv held p -> NoDup held.
Proof.
  intros [H _]. assert (NoDup (free_list p ++ held)) as Hn by (rewrite H; apply NoDup_seq).
  by apply NoDup_app in Hn as (_ & _ & ?).
Qed.

Lemma held_lookup held p idx :
  pool_inv held p -> idx ∈ held ->
  exists b, pool_buffers p !! idx = Some b /\ len b = pool_buffer_size p.
Proof.
  intros [H Hl] Hi. assert (Hin : idx ∈ seq 0 (length (pool_buffers p))).
  { rewrite <- H. apply elem_of_app. by right. }
  apply elem_of_seq in Hin. destruct (lookup_lt_is_Some_2 (pool_buffers p) idx ltac:(lia)) as [b Hb].
  exists b. split; [done|]. rewrite Forall_forall in Hl. apply Hl. by eapply list_elem_of_lookup_2.
Qed.

Lemma get_buffer_Val p idx b : pool_buffers p !! idx = Some b -> get_buffer p idx = Val b.
Proof.
  intros H. unfold get_buffer, index. rewrite (proj2 (Z.ltb_ge _ _)) by lia. by rewrite Nat2Z.id, H.
Qed.

(** ** The contents of a chain *)

(** The bytes of a list of buffers. *)
Definition contents (p : BufferPool) (l : list nat) : bytes :=
  concat ((fun i => default [] (pool_buffers p !! i)) <$> l).

(** A chain that holds the bytes [d], besides the buffers [held] of others. *)
Record chain_inv (held : list nat) (c : BufferChain) (p : BufferPool) (d : bytes) : Prop := {
  ci_pool : pool_inv (chain_buffers c ++ held) p;
  ci_size : chain_buffer_size c = pool_buffer_size p;
  ci_pos : 0 < pool_buffer_size p;
  ci_len : chain_len c = len d;
  ci_count : (len (chain_buffers c) - 1) * pool_buffer_size p < len d
             <= len (chain_buffers c) * pool_buffer_size p
             \/ (d = [] /\ len (chain_buffers c) <= 1);
  ci_data : take (length d) (contents p (chain_buffers c)) = d
}.

Lemma contents_len p held l :
  pool_inv held p -> l ⊆ held -> len (contents p l) = len l * pool_buffer_size p.
Proof.
  intros Hp. induction l as [|i l IH]; intros Hl; [done|].
  unfold contents. csimpl. rewrite len_app, len_cons. fold (contents p l).
  rewrite IH by set_solver. destruct (held_lookup _ _ i Hp) as (b & -> & Hb); [set_solver|].
  simpl. rewrite Hb. lia.
Qed.

Lemma contents_app p l k : contents p (l ++ k) = contents p l ++ contents p k.
Proof. unfold contents. by rewrite fmap_app, concat_app. Qed.

Lemma contents_one p i b : pool_buffers p !! i = Some b -> contents p [i] = b.
Proof. intros H. unfold contents. csimpl. rewrite H. simpl. by rewrite app_nil_r. Qed.

(** The chunks of a chain, joined. *)
Lemma chunks_loop_eq p held l r :
  pool_inv held p -> l ⊆ held -> 0 <= r -> 0 < pool_buffer_size p ->
  exists cs, chunks_loop p (pool_buffer_size p) l r = Val cs /\
    concat cs = take (Z.to_nat r) (contents p l).
Proof.
  intros Hp. revert r. induction l as [|i l IH]; intros r Hl Hr Hs.
  - exists []. split; [done|]. unfold contents. csimpl. by rewrite take_nil.
  - destruct (held_lookup _ _ i Hp) as (b & Hi & Hb); [set_solver|].
    destruct (IH (r - Z.min r (pool_buffer_size p))) as (cs & E & Hcs); [set_solver|lia|done|].
    cbn [chunks_loop]. rewrite (get_buffer_Val _ _ _ Hi). cbn [mbind comp_bind].
    unfold slice. rewrite !(proj2 (Z.leb_le _ _)) by lia. cbn [andb mbind comp_bind].
    rewrite E. cbn [mbind comp_bind]. eexists. split; [done|]. cbn [concat]. rewrite Hcs.
    change (i :: l) with ([i] ++ l). rewrite contents_app, (contents_one _ _ _ Hi).
    rewrite Z.sub_0_r, drop_0. unfold len in Hb.
    destruct (Z.le_ge_cases r (pool_buffer_size p)).
    + rewrite Z.min_l by lia. rewrite Z.sub_diag, take_0, app_nil_r, take_app_le by lia. done.
    + rewrite Z.min_r by lia. rewrite take_app_ge by lia. rewrite (take_ge b) by lia. do 2 f_equal. lia.
Qed.

Lemma assemble_eq held c p d : chain_inv held c p d -> assemble c p = Val d.
Proof.
  intros [Hp Hs Hpos Hl _ Hd]. unfold assemble, chunks. rewrite Hs, Hl.
  destruct (chunks_loop_eq p _ (chain_buffers c) (len d) Hp) as (cs & -> & Hcs);
    [set_solver|apply len_nonneg|done|]. simpl.
  rewrite Hcs. unfold len. by rewrite Nat2Z.id, Hd.
Qed.


(** ** Appending *)

(** The chain is ready to write at offset [off] of its last buffer [idx]. *)
Record ready held c p (bs : list nat) (idx : nat) (off : Z) (d : bytes) : Prop := {
  rd_pool : pool_inv ((bs ++ [idx]) ++ held) p;
  rd_bufs : chain_buffers c = bs ++ [idx];
  rd_size : chain_buffer_size c = pool_buffer_size p;
  rd_len : chain_len c = len d;
  rd_off : len d = len bs * pool_buffer_size p + off;
  rd_range : 0 <= off < pool_buffer_size p;
  rd_data : take (length d) (contents p (bs ++ [idx])) = d
}.

Lemma add_buffer_ready held c p d :
  chain_inv held c p d -> len d = len (chain_buffers c) * pool_buffer_size p ->
  (exists c' p' idx, add_buffer (c, p) = Done (inr (idx, 0)) (c', p') /\
     ready held c' p' (chain_buffers c) idx 0 d /\ frame held p p') \/
  (free_list p = [] /\ add_buffer (c, p) = Done (inl PoolExhausted) (c, p)).
Proof.
  intros [Hp Hs Hpos Hl _ Hd] Hfull. destruct (pop (free_list p)) as [[idx rest]|] eqn:E.
  - left. assert (Ea : alloc p = Done (Some idx) (with_free rest p)) by (unfold alloc; by rewrite E).
    destruct (alloc_inv _ _ _ _ Hp Ea) as (Hp' & _).
    exists (push_buffer idx c), (with_free rest p), idx. split_and!; [| |done].
    + unfold add_buffer, on_pool, on_chain, modify, mbind, st_bind. by rewrite Ea.
    + assert (Hc : contents (with_free rest p) (chain_buffers c) = contents p (chain_buffers c)) by done.
      split; simpl; try done; [|lia|].
      * destruct Hp' as [Hperm Hlen]. split; [|done]. rewrite <- Hperm. simpl. f_equiv.
        by rewrite <- app_assoc, Permutation_middle.
      * rewrite contents_app, Hc, take_app_le; [done|].
        assert (Hcl : len (contents p (chain_buffers c)) = len d)
          by (rewrite (contents_len _ _ _ Hp); [done|set_solver]).
        unfold len in Hcl. lia.
  - right. apply pop_None in E as E'. split; [done|].
    unfold add_buffer, on_pool, alloc, mbind, st_bind. by rewrite E.
Qed.

Lemma current_ready held c p d :
  chain_inv held c p d ->
  (exists c' p' bs idx off, current_buffer_and_offset (c, p) = Done (inr (idx, off)) (c', p') /\
     ready held c' p' bs idx off d /\ frame held p p') \/
  (free_list p = [] /\ current_buffer_and_offset (c, p) = Done (inl PoolExhausted) (c, p)).
Proof.
  intros Hc. pose proof Hc as [Hp Hs Hpos Hl Hn Hd]. pose proof (len_nonneg d).
  unfold current_buffer_and_offset, the_chain, gets. unfold mbind at 1 2, st_bind at 1 2. cbn [fst].
  destruct (last (chain_buffers c)) as [idx|] eqn:El.
  - apply last_Some in El as [bs Eb]. rewrite Hs, Hl. rewrite (proj2 (Z.eqb_neq _ 0)) by lia.
    assert (Hnb : len (chain_buffers c) = len bs + 1) by (rewrite Eb, len_app; done).
    pose proof (len_nonneg bs). pose proof (Z.div_mod (len d) (pool_buffer_size p) ltac:(lia)) as Hdm.
    pose proof (Z.mod_pos_bound (len d) (pool_buffer_size p) ltac:(lia)) as Hmb.
    destruct (_ && _) eqn:E; boolify.
    + assert (Hf : len d = len (chain_buffers c) * pool_buffer_size p).
      { destruct Hn as [Hn|[-> _]]; [|done]. assert (len d / pool_buffer_size p = len (chain_buffers c)) by nia. nia. }
      destruct (add_buffer_ready _ _ _ _ Hc Hf) as [(c' & p' & i & E1 & E2 & E3)|?]; [left|by right].
      by eexists _, _, _, _, _.
    + left. eexists c, p, bs, idx, _. split; [done|]. split; [|done]. split; try done; try (by rewrite <- Eb); try lia.
      destruct Hn as [Hn|[-> Hn]].
      * apply andb_false_iff in E. rewrite Z.eqb_neq, Z.ltb_ge in E.
        assert (len d / pool_buffer_size p = len bs) by nia. lia.
      * assert (len bs = 0) by lia. rewrite Zmod_0_l. change (len []) with 0. lia.
  - apply last_None in El. assert (Hf : len d = len (chain_buffers c) * pool_buffer_size p).
    { rewrite El. change (len []) with 0. destruct Hn as [Hn|[-> _]]; [|done].
      rewrite El in Hn. change (len (@nil nat)) with 0 in Hn. lia. }
    destruct (add_buffer_ready _ _ _ _ Hc Hf) as [(c' & p' & i & E1 & E2 & E3)|?]; [left|by right].
    by eexists _, _, _, _, _.
Qed.

(** Writing inside a held buffer. *)
Lemma pool_inv_write held p idx b b' :
  pool_inv held p -> pool_buffers p !! idx = Some b -> len b' = len b ->
  pool_inv held (mkPool (<[idx := b']> (pool_buffers p)) (free_list p) (pool_buffer_size p)).
Proof.
  intros [Hperm Hlen] Hi Hb. split; simpl; [by rewrite length_insert|].
  apply Forall_insert; [done|]. rewrite Hb. rewrite Forall_forall in Hlen.
  apply Hlen. by eapply list_elem_of_lookup_2.
Qed.

Lemma contents_insert p idx b' l f z :
  idx ∉ l -> contents (mkPool (<[idx := b']> (pool_buffers p)) f z) l = contents p l.
Proof.
  intros Hl. unfold contents. f_equal. apply list_fmap_ext. intros k x Hx. simpl.
  rewrite list_lookup_insert_ne; [done|]. intros ->. apply Hl. by eapply list_elem_of_lookup_2.
Qed.

Lemma write_step held c p bs idx off d src :
  ready held c p bs idx off d -> 0 < len src -> off + len src <= pool_buffer_size p ->
  exists p', write_buffer idx off (off + len src) src p = Done tt p' /\
    chain_inv held (grow (len src) c) p' (d ++ src) /\ frame held p p'.
Proof.
  intros [Hp Hb Hs Hl Ho Hr Hd] Hsrc Hfit.
  destruct (held_lookup _ _ idx Hp) as (b & Hi & Hlb); [set_solver|].
  destruct (split_at b off ltac:(lia)) as (b1 & b2 & -> & Hb1). rewrite len_app in Hlb.
  destruct (split_at b2 (len src) ltac:(lia)) as (b3 & b4 & -> & Hb3).
  exists (mkPool (<[idx := b1 ++ src ++ b4]> (pool_buffers p)) (free_list p) (pool_buffer_size p)).
  assert (Hdj : NoDup ((bs ++ [idx]) ++ held)) by (by eapply held_NoDup).
  apply NoDup_app in Hdj as (Hdj & Hdis & _).
  split; [|split].
  - unfold write_buffer. rewrite (get_buffer_Val _ _ _ Hi). cbn [mbind comp_bind].
    rewrite <- Hb1, <- Hb3. by rewrite write_range_eq.
  - assert (Hnd : idx ∉ bs).
    { apply NoDup_app in Hdj as (_ & Hd2 & _). intros Hin. apply (Hd2 idx Hin). set_solver. }
    assert (Hcb : len (contents p bs) = len bs * pool_buffer_size p)
      by (apply (contents_len _ _ _ Hp); set_solver).
    assert (Ed : d = contents p bs ++ b1).
    { rewrite <- Hd at 1. rewrite contents_app, (contents_one _ _ _ Hi), app_assoc.
      rewrite take_app_length'; [done|]. rewrite length_app. unfold len in *. lia. }
    split; simpl.
    + rewrite Hb. eapply pool_inv_write; [exact Hp|exact Hi|]. rewrite !len_app in *. lia.
    + done.
    + lia.
    + rewrite len_app. lia.
    + left. rewrite Hb, !len_app in *. change (len [idx]) with 1. lia.
    + rewrite Hb, contents_app, contents_insert by done.
      rewrite (contents_one _ _ (b1 ++ src ++ b4)) by (apply list_lookup_insert_eq; by eapply lookup_lt_Some).
      rewrite Ed, !app_assoc. by rewrite take_app_length.
  - split_and!; [|simpl; by rewrite length_insert|done]. intros i Hin. simpl. apply list_lookup_insert_ne.
    intros ->. apply (Hdis i); [set_solver|done].
Qed.

(** One round of the loop copies at least a byte or finds the pool empty. *)
Lemma append_round fuel held c p d x offset :
  chain_inv held c p (d ++ take (Z.to_nat offset) x) -> 0 <= offset < len x ->
  (exists offset' c' p', append_loop (S fuel) x offset (c, p) = append_loop fuel x offset' (c', p') /\
     offset < offset' <= len x /\ chain_inv held c' p' (d ++ take (Z.to_nat offset') x) /\
     frame held p p') \/
  (append_loop (S fuel) x offset (c, p) = Done (inl PoolExhausted) (c, p) /\ free_list p = []).
Proof.
  intros Hc Ho. cbn [append_loop]. rewrite (proj2 (Z.ltb_lt _ _)) by lia.
  destruct (current_ready _ _ _ _ Hc) as [(c1 & p1 & bs & idx & off & E & Hr & Hfr)|[Hf E]];
    [left|right; by rewrite (bind_done _ _ _ _ _ E)].
  rewrite (bind_done _ _ _ _ _ E).
  pose proof Hr as [_ _ Hs _ _ Hoff _].
  rewrite (bind_done the_chain _ _ c1 (c1, p1)) by done. cbv zeta. rewrite Hs.
  set (n := Z.min (pool_buffer_size p1 - off) (len x - offset)).
  assert (Hn : 0 < n /\ off + n <= pool_buffer_size p1 /\ offset + n <= len x) by lia.
  destruct (split_at x (offset + n) ltac:(lia)) as (x1 & x2 & Ex & Hx1).
  destruct (split_at x1 offset ltac:(lia)) as (y & src & -> & Hy). rewrite len_app in Hx1.
  assert (Hsrc : len src = n) by lia.
  rewrite Ex, <- app_assoc, <- Hy, <- Hsrc. erewrite (bind_done (lift _)) by (by rewrite slice_middle).
  destruct (write_step _ _ _ _ _ _ _ src Hr ltac:(lia) ltac:(lia)) as (p2 & Ew & Hc2 & Hfr2).
  rewrite (bind_done (on_pool _) _ _ tt (c1, p2)) by (unfold on_pool; by rewrite Ew).
  erewrite (bind_done (on_chain _)) by reflexivity. rewrite app_assoc, <- Ex.
  eexists _, _, _. split; [done|]. pose proof (len_nonneg x2). split; [lia|]. split; [|by etrans].
  rewrite <- app_assoc in Hc2. replace (take (Z.to_nat (len y + len src)) x) with (y ++ src).
  - replace y with (take (Z.to_nat offset) x) at 1; [exact Hc2|].
    rewrite Ex, <- app_assoc, <- Hy. unfold len. by rewrite Nat2Z.id, take_app_length.
  - rewrite Ex, take_app_length'; [done|]. rewrite length_app. unfold len. lia.
Qed.

Lemma append_loop_ok fuel held c p d x offset :
  chain_inv held c p (d ++ take (Z.to_nat offset) x) -> 0 <= offset <= len x ->
  len x - offset < Z.of_nat fuel ->
  exists r c' p' n, append_loop fuel x offset (c, p) = Done r (c', p') /\
    chain_inv held c' p' (d ++ take n x) /\ frame held p p' /\
    match r with
    | inr _ => take n x = x
    | inl e => e = PoolExhausted /\ free_list p' = [] /\ (n < length x)%nat
    end.
Proof.
  revert c p offset. induction fuel as [|fuel IH]; intros c p offset Hc Ho Hf; [lia|].
  destruct (Z.lt_ge_cases offset (len x)) as [Hlt|Hge].
  - destruct (append_round fuel _ _ _ _ _ _ Hc ltac:(lia)) as [(o & c1 & p1 & -> & Ho' & Hc1 & Hfr)|[-> Hfree]].
    + destruct (IH _ _ _ Hc1 ltac:(lia) ltac:(lia)) as (r & c2 & p2 & n & E & Hc2 & Hfr2 & Hr).
      exists r, c2, p2, n. split_and!; try done. by etrans.
    + eexists _, _, _, _. split; [done|]. split; [done|]. split_and!; [done..|]. unfold len in *. lia.
  - cbn [append_loop]. rewrite (proj2 (Z.ltb_ge _ _)) by lia. eexists _, _, _, _.
    split; [done|]. split; [done|]. split; [done|]. apply take_ge. unfold len in *. lia.
Qed.

Lemma append_ok held c p d x :
  chain_inv held c p d ->
  exists r c' p' n, append x (c, p) = Done r (c', p') /\ chain_inv held c' p' (d ++ take n x) /\
    frame held p p' /\
    match r with
    | inr _ => take n x = x
    | inl e => e = PoolExhausted /\ free_list p' = [] /\ (n < length x)%nat
    end.
Proof.
  intros Hc. apply append_loop_ok; [|pose proof (len_nonneg x); lia|unfold len; lia].
  by rewrite take_0, app_nil_r.
Qed.

(** ** Reading a chain back *)

Lemma as_contiguous_eq held c p d : chain_inv held c p d -> as_contiguous c p = Val d.
Proof.
  intros Hc. pose proof (assemble_eq _ _ _ _ Hc) as Ha. destruct Hc as [Hp Hs Hpos Hl Hn Hd].
  unfold as_contiguous. destruct (chain_buffers c) as [|i [|j l]] eqn:E; [| |done].
  - rewrite <- Hd. unfold contents. csimpl. by rewrite take_nil.
  - destruct (held_lookup _ _ i Hp) as (b & Hi & Hlb); [set_solver|].
    rewrite (get_buffer_Val _ _ _ Hi). cbn [mbind comp_bind]. rewrite (contents_one _ _ _ Hi) in Hd.
    rewrite Hl. pose proof (len_nonneg d). unfold slice.
    assert (len d <= len b). { rewrite <- Hd. unfold len. rewrite length_take. lia. }
    rewrite !(proj2 (Z.leb_le _ _)) by lia. cbn [andb]. f_equal. unfold len.
    by rewrite Z.sub_0_r, Nat2Z.id, drop_0.
Qed.

(** From offset 0, [io_slices] visits the same bytes as [chunks]. *)
Lemma io_loop_zero p held l r :
  pool_inv held p -> l ⊆ held -> 0 <= r -> 0 < pool_buffer_size p ->
  exists cs, io_loop p (pool_buffer_size p) l 0 r = Val cs /\
    concat cs = take (Z.to_nat r) (contents p l).
Proof.
  intros Hp. revert r. induction l as [|i l IH]; intros r Hl Hr Hs.
  - exists []. split; [done|]. unfold contents. csimpl. by rewrite take_nil.
  - destruct (held_lookup _ _ i Hp) as (b & Hi & Hb); [set_solver|].
    destruct (IH (r - Z.min r (pool_buffer_size p))) as (cs & E & Hcs); [set_solver|lia|done|].
    cbn [io_loop]. rewrite (get_buffer_Val _ _ _ Hi). cbn [mbind comp_bind].
    change (i :: l) with ([i] ++ l). rewrite contents_app, (contents_one _ _ _ Hi).
    destruct (_ <=? 0) eqn:E0; boolify.
    + assert (r = 0) as -> by lia. rewrite Z.min_l in * by lia. rewrite Z.sub_diag in *.
      exists cs. split; [done|]. by rewrite Hcs, !take_0.
    + rewrite (Z.min_l 0) by lia. rewrite Z.add_0_l, Z.sub_0_r.
      assert (Hsl : slice b 0 (Z.min r (pool_buffer_size p)) =
        Val (take (Z.to_nat (Z.min r (pool_buffer_size p))) b)).
      { unfold slice. rewrite !(proj2 (Z.leb_le _ _)) by lia. by rewrite Z.sub_0_r, drop_0. }
      rewrite Hsl. cbn [mbind comp_bind]. rewrite bool_decide_eq_false_2.
      2: { intros Hnil. apply (f_equal length) in Hnil. rewrite length_take in Hnil. unfold len in *. simpl in Hnil. lia. }
      cbn [mbind comp_bind mret comp_ret]. rewrite E. eexists. split; [done|]. cbn [app concat]. rewrite Hcs.
      unfold len in Hb. destruct (Z.le_ge_cases r (pool_buffer_size p)).
      * rewrite Z.min_l by lia. rewrite Z.sub_diag, take_0, app_nil_r, take_app_le by lia. done.
      * rewrite Z.min_r by lia. rewrite take_app_ge by lia. rewrite (take_ge b) by lia. do 2 f_equal. lia.
Qed.

Lemma io_slices_zero held c p d :
  chain_inv held c p d -> exists cs, io_slices c p 0 = Val cs /\ concat cs = d.
Proof.
  intros [Hp Hs Hpos Hl _ Hd]. unfold io_slices. rewrite Hl, Hs. destruct (_ <=? 0) eqn:E; boolify.
  - exists []. split; [done|]. destruct d; [done|]. rewrite len_cons in E. pose proof (len_nonneg d). lia.
  - destruct (io_loop_zero p _ (chain_buffers c) (len d) Hp) as (cs & Ec & Hcs); [set_solver|lia|done|].
    rewrite Z.sub_0_r. exists cs. split; [done|]. rewrite Hcs. unfold len. by rewrite Nat2Z.id.
Qed.

(** Resuming never panics and never offers more than is left. *)
Lemma io_loop_bound p held l skip r :
  pool_inv held p -> l ⊆ held -> 0 <= r -> 0 <= skip -> 0 < pool_buffer_size p ->
  exists cs, io_loop p (pool_buffer_size p) l skip r = Val cs /\ len (concat cs) <= r.
Proof.
  intros Hp. revert skip r. induction l as [|i l IH]; intros skip r Hl Hr Hk Hs; [by exists []|].
  destruct (held_lookup _ _ i Hp) as (b & Hi & Hb); [set_solver|].
  cbn [io_loop]. rewrite (get_buffer_Val _ _ _ Hi). cbn [mbind comp_bind].
  destruct (_ <=? skip) eqn:E0; boolify; [apply IH; [set_solver|lia..]|].
  destruct (IH 0 (r - Z.min r (pool_buffer_size p))) as (cs & E & Hcs); [set_solver|lia..|].
  rewrite (Z.min_l skip) by lia. rewrite Z.add_simpl_l.
  assert (Hsl : exists d, slice b skip (Z.min r (pool_buffer_size p)) = Val d /\
    len d <= Z.min r (pool_buffer_size p)).
  { unfold slice. rewrite !(proj2 (Z.leb_le _ _)) by lia. eexists. split; [done|].
    unfold len. rewrite length_take. lia. }
  destruct Hsl as (d & Hd & Hld). rewrite Hd. cbn [mbind comp_bind].
  case_bool_decide; cbn [mbind comp_bind mret comp_ret]; rewrite E; eexists; (split; [done|]);
    cbn [app concat]; rewrite ?len_app; lia.
Qed.

Lemma io_slices_bound held c p start :
  pool_inv (chain_buffers c ++ held) p -> chain_buffer_size c = pool_buffer_size p ->
  0 < pool_buffer_size p -> 0 <= start ->
  exists cs, io_slices c p start = Val cs /\ len (concat cs) <= Z.max 0 (chain_len c - start).
Proof.
  intros Hp Hs Hpos Hst. unfold io_slices. destruct (_ <=? _) eqn:E; boolify.
  - exists []. split; [done|]. simpl. rewrite len_nil. lia.
  - rewrite Hs, Z.max_r by lia. eapply io_loop_bound; [done|set_solver|lia..].
Qed.

(** Writing a range of a held buffer. *)
Lemma write_buffer_inv held p idx buf a src :
  pool_inv held p -> pool_buffers p !! idx = Some buf -> 0 <= a -> a + len src <= len buf ->
  exists buf' p', write_buffer idx a (a + len src) src p = Done tt p' /\ pool_inv held p' /\
    buf' = take (Z.to_nat a) buf ++ src ++ drop (Z.to_nat (a + len src)) buf /\
    pool_buffers p' = <[idx := buf']> (pool_buffers p) /\ free_list p' = free_list p /\
    pool_buffer_size p' = pool_buffer_size p.
Proof.
  intros Hp Hi Ha Hl. pose proof (len_nonneg src). unfold write_buffer. rewrite (get_buffer_Val _ _ _ Hi).
  cbn [mbind comp_bind]. destruct (write_range buf a (a + len src) src) as [buf'|] eqn:E.
  - eexists buf', _. split; [done|]. split; [|split_and!; [|done..]].
    + eapply pool_inv_write; [done..|]. by apply write_range_Val in E.
    + unfold write_range in E. destruct (_ && _); by simplify_eq.
  - unfold write_range in E. rewrite !(proj2 (Z.leb_le _ _)), (proj2 (Z.eqb_eq _ _)) in E by lia. done.
Qed.

Lemma frame_insert keep p p' idx b :
  idx ∉ keep -> pool_buffers p' = <[idx := b]> (pool_buffers p) ->
  pool_buffer_size p' = pool_buffer_size p -> frame keep p p'.
Proof.
  intros Hi Hb Hs. unfold frame. rewrite Hb, length_insert. split_and!; [|done..].
  intros i Hk. apply list_lookup_insert_ne. by intros ->.
Qed.
