(* ===== verification/BufferThms.v ===== *)
(** * Theorems about buffer pools and chains

    No buffer is handed out twice, appended data is read back, a chain returns its
    buffers, and where reuse and resumption of a chain go wrong. *)

From S2P Require Import Prelude Storage Resp RustStd Concrete Buffer BufferFacts.

(** ** Theorems *)

(** A step of a client that frees only what it holds and writes only into what it
    holds. *)
Inductive pool_step `{BuildProfile} : list nat * BufferPool -> list nat * BufferPool -> Prop :=
| step_alloc held p idx p' :
    alloc p = Done (Some idx) p' -> pool_step (held, p) (idx :: held, p')
| step_free h1 idx h2 p p' :
    free idx p = Done tt p' -> pool_step (h1 ++ idx :: h2, p) (h1 ++ h2, p')
| step_write held idx a b src p p' :
    idx ∈ held -> write_buffer idx a b src p = Done tt p' -> pool_step (held, p) (held, p').

Lemma pool_step_inv `{BuildProfile} x y :
  pool_step x y -> pool_inv (fst x) (snd x) ->
  pool_inv (fst y) (snd y) /\ length (pool_buffers (snd y)) = length (pool_buffers (snd x)).
Proof.
  intros Hstep Hp. destruct Hstep as [held p idx p' Ha|h1 idx h2 p p' Hf|held idx a b src p p' Hi Hw]; simpl in *.
  - destruct (alloc_inv _ _ _ _ Hp Ha) as (? & _ & -> & _). done.
  - assert (Hp' : pool_inv (idx :: h1 ++ h2) p).
    { destruct Hp as [Hperm Hlen]. split; [|done]. rewrite <- Hperm. f_equiv. by rewrite Permutation_middle. }
    destruct (free_inv _ _ _ Hp') as (p1 & E1 & H1 & _ & E2 & _). rewrite Hf in E1. injection E1 as <-.
    split; [done|]. by rewrite E2.
  - destruct (held_lookup _ _ _ Hp Hi) as (buf & Hb & Hl). revert Hw. unfold write_buffer.
    rewrite (get_buffer_Val _ _ _ Hb). cbn [mbind comp_bind].
    destruct (write_range _ _ _ _) as [buf'|] eqn:E; [|done]. intros [= <-].
    apply write_range_Val in E. split; [by eapply pool_inv_write|]. simpl. by rewrite length_insert.
Qed.

Lemma pool_steps_inv `{BuildProfile} x y :
  rtc pool_step x y -> pool_inv (fst x) (snd x) ->
  pool_inv (fst y) (snd y) /\ length (pool_buffers (snd y)) = length (pool_buffers (snd x)).
Proof.
  induction 1 as [x|x y z Hxy _ IH]; intros Hx; [done|].
  destruct (pool_step_inv _ _ Hxy Hx) as [Hy El]. destruct (IH Hy) as [Hz El']. split; [done|].
  by rewrite El'.
Qed.

(** Exclusive ownership. After any sequence of allocations, frees of held buffers
    and writes into held buffers, the held buffers are distinct and in range, free and
    held buffers add up to the capacity, the next allocation returns a buffer that
    nobody holds, and it fails exactly when every buffer is held. *)
Theorem pool_ownership `{BuildProfile} count size held p :
  0 <= size -> rtc pool_step ([], pool_new count size) (held, p) ->
  NoDup held /\ (forall idx, idx ∈ held -> (idx < count)%nat) /\
  available p + len held = Z.of_nat count /\
  match alloc p with
  | Done (Some idx) _ => (idx ∉ held) /\ (idx < count)%nat
  | Done None _ => len held = Z.of_nat count
  | _ => False
  end.
Proof.
  intros Hs Hr. destruct (pool_steps_inv _ _ Hr (pool_inv_new count size Hs)) as [Hp Hl]. simpl in *.
  rewrite repeat_length in Hl. pose proof (proj1 Hp) as Hperm. rewrite Hl in Hperm.
  assert (Hin : forall i, i ∈ free_list p ++ held -> (i < count)%nat).
  { intros i. rewrite Hperm, elem_of_seq. lia. }
  assert (Hsum : available p + len held = Z.of_nat count).
  { apply Permutation_length in Hperm. rewrite length_app, length_seq in Hperm.
    unfold available, len. lia. }
  split; [by eapply held_NoDup|]. split; [intros i Hi; apply Hin; set_solver|]. split; [done|].
  unfold alloc. destruct (pop (free_list p)) as [[idx rest]|] eqn:E.
  - apply pop_Some in E. assert (Hnd : NoDup (free_list p ++ held)) by (rewrite Hperm; apply NoDup_seq).
    apply NoDup_app in Hnd as (_ & Hdis & _). rewrite E in Hin, Hdis. unfold push in *. split.
    + apply Hdis. set_solver.
    + apply Hin. set_solver.
  - apply pop_None in E. unfold available in Hsum. rewrite E in Hsum. change (len []) with 0 in Hsum. lia.
Qed.

(** C36: Appending to a chain always returns. On success the chain holds the old bytes
    followed by the new ones, read back alike by [as_contiguous], [assemble] and the
    slices of a fresh vectored write, and [release] then gives all its buffers back to
    the pool. It fails only when no buffer is free, keeping the bytes that fitted. *)
Theorem chain_append_readback `{BuildProfile} held c p d x :
  chain_inv held c p d ->
  exists r c' p' n, append x (c, p) = Done r (c', p') /\
    match r with
    | inr _ => n = length x
    | inl e => e = PoolExhausted /\ free_list p' = [] /\ (n < length x)%nat
    end /\
    as_contiguous c' p' = Val (d ++ take n x) /\ assemble c' p' = Val (d ++ take n x) /\
    (exists cs, io_slices c' p' 0 = Val cs /\ concat cs = d ++ take n x) /\
    exists p'', release (c', p') = Done tt (chain_new (chain_buffer_size c'), p'') /\
      pool_inv held p'' /\ available p'' = available p' + buffer_count c'.
Proof.
  intros Hc. destruct (append_ok held c p d x Hc) as (r & c' & p' & n & E & Hc' & _ & Hr).
  exists r, c', p', (match r with inr _ => length x | inl _ => n end). split; [done|].
  split; [by destruct r|].
  assert (En : take (match r with inr _ => length x | inl _ => n end) x = take n x).
  { destruct r; [done|]. by rewrite Hr, take_ge. }
  rewrite En. split; [by eapply as_contiguous_eq|]. split; [by eapply assemble_eq|].
  split; [by eapply io_slices_zero|].
  destruct (free_many_inv _ _ _ (ci_pool _ _ _ _ Hc')) as (p'' & Ef & Hp'' & Hfree & _).
  exists p''. split; [|split; [done|]].
  - unfold release. rewrite (bind_done the_chain _ _ c' (c', p')) by done.
    rewrite (bind_done (on_pool _) _ _ tt (c', p'')) by (unfold on_pool; by rewrite Ef). done.
  - unfold available, buffer_count. rewrite Hfree. apply len_app.
Qed.

(** Resuming a vectored write is wrong: for a chain of one buffer, after [start]
    bytes have been written, [io_slices] offers only the bytes up to [len - start],
    and nothing at all from the middle of the data on. *)
Theorem io_slices_resume held c p d idx start :
  chain_inv held c p d -> chain_buffers c = [idx] -> 0 < start < len d ->
  io_slices c p start =
    Val (if start <? len d - start then [drop (Z.to_nat start) (take (Z.to_nat (len d - start)) d)] else []).
Proof.
  intros [Hp Hs Hpos Hl Hn Hd] Hb Ho. unfold io_slices. rewrite Hl, Hs, Hb in *.
  rewrite (proj2 (Z.leb_gt _ _)) by lia.
  destruct (held_lookup _ _ idx Hp) as (b & Hi & Hlb); [set_solver|].
  rewrite (contents_one _ _ _ Hi) in Hd.
  assert (Hdb : len d <= pool_buffer_size p) by (rewrite <- Hlb, <- Hd; unfold len; rewrite length_take; lia).
  cbn [io_loop]. rewrite (get_buffer_Val _ _ _ Hi). cbn [mbind comp_bind]. rewrite Z.min_l by lia.
  destruct (start <? len d - start) eqn:E; boolify.
  - rewrite (proj2 (Z.leb_gt _ _)) by lia. rewrite (Z.min_l start) by lia.
    replace (start + (len d - start) - start) with (len d - start) by lia.
    assert (Hsl : slice b start (len d - start) =
      Val (drop (Z.to_nat start) (take (Z.to_nat (len d - start)) d))).
    { unfold slice. rewrite !(proj2 (Z.leb_le _ _)) by lia. cbn [andb]. f_equal.
      transitivity (drop (Z.to_nat start) (take (Z.to_nat (len d - start)) (take (length d) b)));
        [|by rewrite Hd].
      rewrite take_take, Nat.min_l, skipn_firstn_comm by (unfold len in *; lia). f_equal. lia. }
    rewrite Hsl. cbn [mbind comp_bind]. rewrite bool_decide_eq_false_2; [done|].
    intros Hnil. apply (f_equal length) in Hnil. rewrite length_drop, length_take in Hnil.
    unfold len in *. simpl in Hnil. lia.
  - by rewrite (proj2 (Z.leb_le _ _)) by lia.
Qed.

(** ** Witnesses and counterexamples *)

Section witnesses.
#[local] Existing Instance Concrete.release.

Definition pool4 : BufferPool := pool_new 4 4.
Definition chain4 : BufferChain := chain_new 4.

Lemma chain4_inv : chain_inv [] chain4 pool4 [].
Proof. split; try done; [by apply pool_inv_new|]. right. by split. Qed.

Lemma pool_ownership_witness :
  NoDup [2; 3]%nat /\ (forall idx, idx ∈ [2; 3]%nat -> (idx < 4)%nat) /\
  available (with_free [0; 1]%nat pool4) + 2 = 4 /\
  match alloc (with_free [0; 1]%nat pool4) with
  | Done (Some idx) _ => (idx ∉ [2; 3]%nat) /\ (idx < 4)%nat
  | Done None _ => 2 = 4
  | _ => False
  end.
Proof.
  apply (pool_ownership 4 4 [2; 3]%nat (with_free [0; 1]%nat pool4)); [done|].
  apply (rtc_l _ _ ([3%nat], with_free [0; 1; 2]%nat pool4)); [by apply step_alloc|].
  apply rtc_once. by apply step_alloc.
Defined.

Lemma chain_append_readback_witness :
  exists r c' p' n, append «"0123456789"» (chain4, pool4) = Done r (c', p') /\
    match r with
    | inr _ => n = 10%nat
    | inl e => e = PoolExhausted /\ free_list p' = [] /\ (n < 10)%nat
    end /\
    as_contiguous c' p' = Val ([] ++ take n «"0123456789"») /\
    assemble c' p' = Val ([] ++ take n «"0123456789"») /\
    (exists cs, io_slices c' p' 0 = Val cs /\ concat cs = [] ++ take n «"0123456789"») /\
    exists p'', release (c', p') = Done tt (chain_new (chain_buffer_size c'), p'') /\
      pool_inv [] p'' /\ available p'' = available p' + buffer_count c'.
Proof. apply (chain_append_readback [] chain4 pool4 [] «"0123456789"»). apply chain4_inv. Defined.

(** One buffer of eight bytes that holds six. *)
Definition pool8 : BufferPool := snd (state_of (append «"012345"» (chain_new 8, pool_new 2 8))).
Definition chain8 : BufferChain := fst (state_of (append «"012345"» (chain_new 8, pool_new 2 8))).

Lemma chain8_inv : chain_inv [] chain8 pool8 «"012345"».
Proof.
  split; try done; [split|].
  - change (free_list pool8 ++ chain_buffers chain8 ++ []) with [0; 1]%nat. done.
  - apply Forall_forall. intros b Hb. vm_compute in Hb. set_solver.
  - left. by vm_compute.
Qed.

Lemma io_slices_resume_witness :
  io_slices chain8 pool8 2 = Val (if 2 <? 4 then [drop 2 (take 4 «"012345"»)] else []).
Proof. apply (io_slices_resume [] chain8 pool8 «"012345"» 1%nat 2); [apply chain8_inv|done|done]. Defined.

(** A chain of two buffers, cleared for reuse. *)
Definition reused : BufferChain * BufferPool :=
  let s := state_of (append «"01234567"» (chain4, pool4)) in (clear (fst s), snd s).

(** Reusing a cleared chain corrupts data: after [clear], [append] writes into the
    last buffer of the chain while readers start at the first, so a chain of two
    buffers returns the previous value's bytes instead of the new ones. *)
Theorem clear_then_append_corrupts :
  exists c p, append «"new"» reused = Done (inr tt) (c, p) /\
    chain_len c = 3 /\ as_contiguous c p = Val «"012"».
Proof.
  exists (fst (state_of (append «"new"» reused))), (snd (state_of (append «"new"» reused))).
  split_and!; by_vm.
Qed.

(** Freeing a buffer twice makes the pool hand it out twice. *)
Lemma double_free_aliases :
  exists p1 p2 p3 p4 p5, alloc pool4 = Done (Some 3%nat) p1 /\ free 3 p1 = Done tt p2 /\
    free 3 p2 = Done tt p3 /\ alloc p3 = Done (Some 3%nat) p4 /\ alloc p4 = Done (Some 3%nat) p5.
Proof. do 5 eexists. split_and!; reflexivity. Qed.

End witnesses.
