(* ===== verification/Slab.v ===== *)
(** * The slab interface

    The event loops keep their connections and the tokens of operations in flight in
    a [Slab] of the crate of that name.  [SlabLib] are the operations the code calls
    and [SlabLaws] what the crate documents about them: a key is vacant when
    [insert] returns it, and no operation touches another key.  Nothing is assumed
    about which vacant key is chosen.  [lowest_key] is a slab for the witnesses. *)

From S2P Require Import Prelude.

Class SlabLib := {
  Slab : Type -> Type;
  slab_new : forall {A}, Slab A;
  slab_items : forall {A}, Slab A -> gmap nat A;
  slab_insert : forall {A}, A -> Slab A -> nat * Slab A;
  slab_remove : forall {A}, nat -> Slab A -> Slab A;
  slab_write : forall {A}, nat -> A -> Slab A -> Slab A
}.

Class SlabLaws `{SlabLib} := {
  slab_items_new A : slab_items (@slab_new _ A) = ∅;
  slab_insert_vacant A (x : A) s : slab_items s !! (slab_insert x s).1 = None;
  slab_insert_items A (x : A) s :
    slab_items (slab_insert x s).2 = <[(slab_insert x s).1 := x]> (slab_items s);
  slab_remove_items A k (s : Slab A) :
    is_Some (slab_items s !! k) -> slab_items (slab_remove k s) = delete k (slab_items s);
  slab_write_items A k (x : A) s :
    is_Some (slab_items s !! k) -> slab_items (slab_write k x s) = <[k := x]> (slab_items s)
}.

#[export] Hint Rewrite @slab_items_new @slab_insert_items : cache.

Section operations.
Context `{SlabLib} {A : Type}.

(** [slab.get(k)], [slab.contains(k)], [slab.len()]; [slab.try_remove(k)] is a lookup
    and [slab_remove]. *)
Definition slab_get (k : nat) (s : Slab A) : option A := slab_items s !! k.
Definition slab_contains (k : nat) (s : Slab A) : bool := bool_decide (is_Some (slab_items s !! k)).
Definition slab_len (s : Slab A) : Z := Z.of_nat (size (slab_items s)).
Definition slab_try_remove (k : nat) (s : Slab A) : option (A * Slab A) :=
  match slab_items s !! k with
  | Some x => Some (x, slab_remove k s)
  | None => None
  end.

Lemma slab_contains_true k (s : Slab A) x :
  slab_items s !! k = Some x -> slab_contains k s = true.
Proof. intros E. unfold slab_contains. rewrite E. by apply bool_decide_eq_true. Qed.

Lemma slab_contains_false k (s : Slab A) :
  slab_items s !! k = None -> slab_contains k s = false.
Proof. intros E. unfold slab_contains. rewrite E. apply bool_decide_eq_false. by intros []. Qed.

End operations.

(** ** A concrete slab: the lowest vacant key *)

Definition lowest_vacant {A} (m : gmap nat A) : nat :=
  default 0%nat (list_find (fun k => m !! k = None) (seq 0 (S (size m))) ≫= fun x => Some x.2).

Lemma lowest_vacant_None {A} (m : gmap nat A) : m !! lowest_vacant m = None.
Proof.
  unfold lowest_vacant. destruct (list_find _ _) as [[i k]|] eqn:E; simpl.
  - by apply list_find_Some in E as (_ & ? & _).
  - exfalso. apply list_find_None in E. rewrite Forall_forall in E.
    assert (Hs : list_to_set (seq 0 (S (size m))) ⊆ (dom m : gset nat)).
    { intros k Hk. apply elem_of_list_to_set in Hk. apply elem_of_dom.
      destruct (m !! k) eqn:Ek; [done|]. by destruct (E k Hk). }
    apply subseteq_size in Hs. rewrite size_list_to_set, length_seq, size_dom in Hs by apply NoDup_seq. lia.
Qed.

Definition lowest_key : SlabLib :=
  {| Slab := fun A => gmap nat A;
     slab_new := fun A => ∅;
     slab_items := fun A s => s;
     slab_insert := fun A x s => (lowest_vacant s, <[lowest_vacant s := x]> s);
     slab_remove := fun A k s => delete k s;
     slab_write := fun A k x s => <[k := x]> s |}.

Lemma lowest_key_laws : @SlabLaws lowest_key.
Proof. split; intros; try done. apply lowest_vacant_None. Qed.
