(* ===== verification/Connection.v ===== *)
(** * Connections and their registry (src/runtime/connection.rs)

    The phases of a connection, its transitions and the registry that holds the
    connections of an io_uring worker.  A method that takes [&mut self] is a
    computation on the connection; the ones that panic in the wrong phase end in
    [Panicked]. *)

From stdpp Require Import sorting.
From S2P Require Import Prelude RustStd Storage Resp Request Slab.

(** ** Phases *)

(** Indices and counts are [usize]; [buf_idx] can be [usize::MAX], the mark of a chain
    write in the mio event loop. *)
Inductive DataState : Type :=
| Reading (filled : Z)
| Writing (buf_idx written total : Z).

Definition reading : DataState := Reading 0.
Definition reading_with (filled : Z) : DataState := Reading filled.
Definition writing (buf_idx total : Z) : DataState := Writing buf_idx 0 total.

Inductive ConnPhase : Type :=
| Accepting
| Handshaking
| Established (data : DataState)
| Closing.

Definition established : ConnPhase := Established reading.

Definition is_established (p : ConnPhase) : bool :=
  match p with Established _ => true | _ => false end.
Definition is_closing (p : ConnPhase) : bool :=
  match p with Closing => true | _ => false end.
Definition data_state (p : ConnPhase) : option DataState :=
  match p with Established d => Some d | _ => None end.

(** ** A connection *)

(** An assignment through [data_state_mut]. *)
Definition data_state_mut (f : DataState -> DataState) (p : ConnPhase) : ConnPhase :=
  match p with Established s => Established (f s) | _ => p end.

Record Connection := mkConn {
  fd : Z;
  phase : ConnPhase;
  conn_protocol : Protocol;
  read_buf_idx : option nat;
  read_accumulated : Z
}.

Definition with_phase (p : ConnPhase) (c : Connection) : Connection :=
  mkConn (fd c) p (conn_protocol c) (read_buf_idx c) (read_accumulated c).

(** [conn.read_buf_idx = i; conn.read_accumulated = n] *)
Definition with_read (i : option nat) (n : Z) (c : Connection) : Connection :=
  mkConn (fd c) (phase c) (conn_protocol c) i n.

Definition conn_new (f : Z) (protocol : Protocol) : Connection := mkConn f established protocol None 0.
Definition new_accepting (f : Z) (protocol : Protocol) : Connection := mkConn f Accepting protocol None 0.

Definition establish : st Connection unit := modify (with_phase established).
Definition close : st Connection unit := modify (with_phase Closing).

(** The body of [start_writing] and [start_reading]: only an established connection
    has a data state to replace. *)
Definition set_data (d : DataState) : st Connection unit := fun c =>
  match phase c with
  | Established _ => Done tt (with_phase (Established d) c)
  | _ => Panicked c
  end.

Definition start_writing (buf_idx total : Z) : st Connection unit := set_data (writing buf_idx total).
Definition start_reading : st Connection unit := set_data reading.

Definition is_reading (c : Connection) : bool :=
  match phase c with Established (Reading _) => true | _ => false end.
Definition is_writing (c : Connection) : bool :=
  match phase c with Established (Writing _ _ _) => true | _ => false end.
Definition write_state (c : Connection) : option (Z * Z * Z) :=
  match phase c with
  | Established (Writing b w t) => Some (b, w, t)
  | _ => None
  end.

Definition advance_write `{BuildProfile} (n : Z) : st Connection bool := fun c =>
  match phase c with
  | Established (Writing b w t) =>
      match usize_add w n with
      | Val w' => Done (t <=? w') (with_phase (Established (Writing b w' t)) c)
      | Panic => Panicked c
      end
  | _ => Done false c
  end.

(** ** The registry *)

Section registry.
Context `{SL : SlabLib}.

Record ConnectionRegistry := mkRegistry {
  connections : Slab Connection;
  max_connections : Z
}.

Definition registry_new (max : Z) : ConnectionRegistry := mkRegistry slab_new max.

Definition registry_insert (c : Connection) : st ConnectionRegistry (option nat) := fun r =>
  if max_connections r <=? slab_len (connections r) then Done None r
  else let '(id, s) := slab_insert c (connections r) in
       Done (Some id) (mkRegistry s (max_connections r)).

Definition registry_get (id : nat) (r : ConnectionRegistry) : option Connection :=
  slab_get id (connections r).

(** Running a method through [get_mut(id)]; [None] when there is no such
    connection. *)
Definition registry_get_mut {A} (id : nat) (m : st Connection A) : st ConnectionRegistry (option A) := fun r =>
  match slab_get id (connections r) with
  | None => Done None r
  | Some c =>
      match m c with
      | Done a c' => Done (Some a) (mkRegistry (slab_write id c' (connections r)) (max_connections r))
      | Panicked c' => Panicked (mkRegistry (slab_write id c' (connections r)) (max_connections r))
      | Running c' => Running (mkRegistry (slab_write id c' (connections r)) (max_connections r))
      end
  end.

Definition registry_remove (id : nat) : st ConnectionRegistry (option Connection) := fun r =>
  if slab_contains id (connections r) then
    match slab_try_remove id (connections r) with
    | Some (c, s) => Done (Some c) (mkRegistry s (max_connections r))
    | None => Panicked r
    end
  else Done None r.

(** [slab.iter()]: in the order of the keys. *)
Definition registry_keys (r : ConnectionRegistry) : list nat :=
  merge_sort le (elements (dom (slab_items (connections r)))).
Definition registry_iter (r : ConnectionRegistry) : list (nat * Connection) :=
  omap (fun id => (id,.) <$> registry_get id r) (registry_keys r).

(** A loop over [iter_mut()] whose body is [m]. *)
Definition registry_iter_mut (m : nat -> st Connection unit) : st ConnectionRegistry unit := fun r =>
  foldr (fun id k => registry_get_mut id (m id);; k) (mret tt) (registry_keys r) r.

Definition registry_contains (id : nat) (r : ConnectionRegistry) : bool := slab_contains id (connections r).
Definition registry_len (r : ConnectionRegistry) : Z := slab_len (connections r).
Definition registry_is_empty (r : ConnectionRegistry) : bool := slab_len (connections r) =? 0.
Definition registry_capacity (r : ConnectionRegistry) : Z := max_connections r.

End registry.
