(* ===== verification/ConnectionThms.v ===== *)
(** * Theorems about connections and their registry *)

From Stdlib Require Import Sorted.
From stdpp Require Import sorting.
From S2P Require Import Prelude RustStd Storage Resp Concrete Request Slab Connection.

(** ** The states of a connection *)

(** The calls of [advance_write] after a [start_writing]. *)
Fixpoint advance_all `{BuildProfile} (ns : list Z) (complete : bool) : st Connection bool :=
  match ns with
  | [] => mret complete
  | n :: rest => b ← advance_write n; advance_all rest b
  end.

Definition sum (ns : list Z) : Z := foldr Z.add 0 ns.

Lemma advance_all_eq `{BuildProfile} ns c b w t :
  phase c = Established (Writing b w t) -> Forall (fun n => 0 <= n) ns -> 0 <= w ->
  w + sum ns <= USIZE_MAX ->
  advance_all ns (t <=? w) c = Done (t <=? w + sum ns) (with_phase (Established (Writing b (w + sum ns) t)) c).
Proof.
  revert c w. induction ns as [|n ns IH]; intros c w Hc Hn Hw Hs; simpl in *.
  - rewrite Z.add_0_r. destruct c. by simpl in *; subst.
  - apply Forall_cons in Hn as [Hn Hns].
    assert (0 <= sum ns) by (clear -Hns; induction Hns; simpl; lia).
    assert (E : advance_write n c = Done (t <=? w + n) (with_phase (Established (Writing b (w + n) t)) c)).
    { unfold advance_write. by rewrite Hc, usize_add_small by lia. }
    rewrite (bind_done _ _ _ _ _ E). rewrite IH by (try done; lia).
    by rewrite Z.add_assoc.
Qed.

(** Data states exist on established connections only, and write progress is exact.
    On any other phase [start_writing] and [start_reading] panic, [write_state] and
    [advance_write] report nothing and no data state is there to change.  On an
    established one, however the writes are split, after [start_writing] the last
    [advance_write] reports completion exactly when the bytes add up to the total, the
    progress is their sum, and [start_reading] leaves the writing state. *)
Theorem write_progress `{BuildProfile} c buf_idx total ns :
  Forall (fun n => 0 <= n) ns -> sum ns <= USIZE_MAX -> 0 < total ->
  if is_established (phase c) then
    exists c', (start_writing buf_idx total;; advance_all ns false) c = Done (total <=? sum ns) c' /\
      write_state c' = Some (buf_idx, sum ns, total) /\ is_writing c' = true /\ is_reading c' = false /\
      exists c'', start_reading c' = Done tt c'' /\ phase c'' = established /\
        is_reading c'' = true /\ write_state c'' = None
  else start_writing buf_idx total c = Panicked c /\ start_reading c = Panicked c /\
    is_reading c = false /\ is_writing c = false /\ write_state c = None /\
    (forall n, advance_write n c = Done false c).
Proof.
  intros Hn Hs Ht. destruct (is_established (phase c)) eqn:Ep.
  - assert (Ew : start_writing buf_idx total c = Done tt (with_phase (Established (writing buf_idx total)) c)).
    { unfold start_writing, set_data. by destruct (phase c). }
    eexists. rewrite (bind_done _ _ _ _ _ Ew).
    pose proof (advance_all_eq ns (with_phase (Established (writing buf_idx total)) c) buf_idx 0 total) as Ha.
    rewrite (proj2 (Z.leb_gt total 0)) in Ha by lia. rewrite Ha by (done || lia).
    split_and!; try done. eexists. by split_and!.
  - unfold start_writing, start_reading, set_data, advance_write, is_reading, is_writing, write_state.
    destruct (phase c); try done; by split_and!.
Qed.

(** ** The registry is a bounded map *)

Section registry.
Context `{SL : SlabLib, LW : !SlabLaws}.

(** Histories of the registry beside the map it stands for. *)
Inductive registry_step :
    gmap nat Connection * ConnectionRegistry -> gmap nat Connection * ConnectionRegistry -> Prop :=
| step_insert m r c id r' :
    registry_insert c r = Done (Some id) r' -> registry_step (m, r) (<[id := c]> m, r')
| step_rejected m r c r' :
    registry_insert c r = Done None r' -> registry_step (m, r) (m, r')
| step_update m r id (f : st Connection unit) c c' r' :
    m !! id = Some c -> f c = Done tt c' -> registry_get_mut id f r = Done (Some tt) r' ->
    registry_step (m, r) (<[id := c']> m, r')
| step_remove m r id x r' :
    registry_remove id r = Done x r' -> registry_step (m, r) (base.delete id m, r').

Definition registry_rep (max : Z) (x : gmap nat Connection * ConnectionRegistry) : Prop :=
  slab_items (connections x.2) = x.1 /\ max_connections x.2 = max /\ Z.of_nat (size x.1) <= max.

Lemma registry_insert_eq c r :
  if max_connections r <=? registry_len r then registry_insert c r = Done None r
  else exists id r', registry_insert c r = Done (Some id) r' /\ registry_get id r = None /\
    slab_items (connections r') = <[id := c]> (slab_items (connections r)) /\
    max_connections r' = max_connections r.
Proof.
  unfold registry_insert, registry_len, registry_get, slab_get. destruct (_ <=? _); [done|].
  pose proof (slab_insert_vacant _ c (connections r)) as Hv.
  pose proof (slab_insert_items _ c (connections r)) as Hi.
  destruct (slab_insert c (connections r)) as [k s]. eexists k, _. by split_and!.
Qed.

Lemma registry_remove_eq id r :
  exists r', registry_remove id r = Done (registry_get id r) r' /\
    slab_items (connections r') = base.delete id (slab_items (connections r)) /\
    max_connections r' = max_connections r.
Proof.
  unfold registry_remove, registry_get, slab_get.
  destruct (slab_items (connections r) !! id) as [c|] eqn:E.
  - rewrite (slab_contains_true _ _ _ E). unfold slab_try_remove. rewrite E. eexists. split_and!; try done.
    simpl. by apply slab_remove_items.
  - rewrite (slab_contains_false _ _ E). exists r. split_and!; try done. by rewrite delete_id.
Qed.

Lemma registry_get_mut_eq {A} id (f : st Connection A) r c a c' :
  registry_get id r = Some c -> f c = Done a c' ->
  exists r', registry_get_mut id f r = Done (Some a) r' /\
    slab_items (connections r') = <[id := c']> (slab_items (connections r)) /\
    max_connections r' = max_connections r.
Proof.
  intros Hc Hf. unfold registry_get_mut, registry_get in *. rewrite Hc, Hf. eexists. split_and!; try done.
  simpl. apply slab_write_items. unfold slab_get in Hc. by rewrite Hc.
Qed.

Lemma registry_step_rep max x y : registry_step x y -> registry_rep max x -> registry_rep max y.
Proof.
  intros Hs (Hx & Hm & Hle). unfold registry_rep.
  destruct Hs as [m r c id r' E|m r c r' E|m r id f c c' r' Hc Hf E|m r id a r' E]; simpl in *; subst m.
  - pose proof (registry_insert_eq c r) as H. unfold registry_len, slab_len in H. rewrite Hm in *.
    destruct (_ <=? _) eqn:El; [congruence|]. destruct H as (k & r2 & E2 & Hv & Hi & Hm2).
    rewrite E in E2. simplify_eq. boolify. split_and!; try done.
    unfold registry_get, slab_get in Hv. rewrite map_size_insert_None by done. lia.
  - pose proof (registry_insert_eq c r) as H. destruct (_ <=? _).
    + rewrite E in H. by simplify_eq.
    + destruct H as (? & ? & E2 & _). congruence.
  - destruct (registry_get_mut_eq id f r c tt c' Hc Hf) as (r2 & E2 & Hi & Hm2).
    rewrite E in E2. simplify_eq. split_and!; try done. rewrite map_size_insert_Some by (by eexists). done.
  - destruct (registry_remove_eq id r) as (r2 & E2 & Hi & Hm2). rewrite E in E2. simplify_eq.
    split_and!; try done. rewrite map_size_delete. destruct (_ !! _); simpl; lia.
Qed.

Lemma registry_steps_rep max m r :
  0 <= max -> rtc registry_step (∅, registry_new max) (m, r) -> registry_rep max (m, r).
Proof.
  intros Hmax Hr. assert (H0 : registry_rep max (∅, registry_new max)).
  { split_and!; try done. apply slab_items_new. }
  induction Hr; eauto using registry_step_rep.
Qed.

(** Iteration visits every connection, in the order of the identifiers. *)
Lemma registry_iter_eq r :
  (forall id c, (id, c) ∈ registry_iter r <-> registry_get id r = Some c) /\
  StronglySorted lt (registry_keys r).
Proof.
  assert (Hp : registry_keys r ≡ₚ elements (dom (slab_items (connections r)))) by apply merge_sort_Permutation.
  split.
  - intros id c. unfold registry_iter. rewrite list_elem_of_omap. split.
    + intros (x & _ & Hx). destruct (registry_get x r) eqn:E; simpl in Hx; congruence.
    + intros E. exists id. rewrite E. split; [|done]. rewrite Hp, elem_of_elements, elem_of_dom. by exists c.
  - assert (Hs : StronglySorted le (registry_keys r)) by (apply (StronglySorted_merge_sort le)).
    assert (Hn : NoDup (registry_keys r)) by (rewrite Hp; apply NoDup_elements).
    clear Hp. induction Hs as [|x l Hl IH Hx]; [constructor|]. apply NoDup_cons in Hn as [Hx' Hn].
    constructor; [by apply IH|]. rewrite Forall_forall in Hx |- *. intros y Hy.
    specialize (Hx y Hy). assert (x <> y) by (by intros ->). lia.
Qed.

(** The registry is a map of at most [max_connections] connections: in every state
    reached from an empty registry, lookup, membership and size are those of the map;
    [insert] refuses exactly when the map is full and otherwise binds an identifier no
    live connection has; [remove] returns the connection of the identifier, if any,
    and removes nothing else; iteration visits the entries of the map once each, in
    the order of their identifiers. *)
Theorem registry_is_bounded_map max m r c id :
  0 <= max -> rtc registry_step (∅, registry_new max) (m, r) ->
  (registry_get id r = m !! id /\ registry_contains id r = bool_decide (is_Some (m !! id)) /\
   registry_len r = Z.of_nat (size m) /\ registry_len r <= registry_capacity r /\ registry_capacity r = max /\
   registry_is_empty r = bool_decide (m = ∅)) /\
  ((forall k x, (k, x) ∈ registry_iter r <-> m !! k = Some x) /\ StronglySorted lt (registry_keys r)) /\
  (if Z.of_nat (size m) <? max then
     exists new r', registry_insert c r = Done (Some new) r' /\ m !! new = None /\
       (forall other, registry_get other r' = if decide (other = new) then Some c else m !! other)
   else registry_insert c r = Done None r) /\
  exists r'', registry_remove id r = Done (m !! id) r'' /\
    (forall other, registry_get other r'' = if decide (other = id) then None else m !! other).
Proof.
  intros Hmax Hr. apply registry_steps_rep in Hr as (Hm & Hc & Hle); [|done]. simpl in *. subst m.
  split_and!; try done; try (unfold registry_capacity; by rewrite Hc).
  - unfold registry_is_empty, slab_len. case_bool_decide as E; [by rewrite E, map_size_empty|].
    apply Z.eqb_neq. intros H0. apply E. apply map_size_empty_iff. lia.
  - apply registry_iter_eq.
  - apply registry_iter_eq.
  - pose proof (registry_insert_eq c r) as Hi. unfold registry_len, slab_len in Hi. rewrite Hc in Hi.
    destruct (_ <? _) eqn:El; boolify.
    + rewrite (proj2 (Z.leb_gt _ _)) in Hi by done. destruct Hi as (new & r' & E & Hv & Hr' & _).
      exists new, r'. split_and!; try done. intros other. unfold registry_get, slab_get. rewrite Hr'.
      case_decide; simplify_eq; [by rewrite lookup_insert_eq|by rewrite lookup_insert_ne].
    + by rewrite (proj2 (Z.leb_le _ _)) in Hi by done.
  - destruct (registry_remove_eq id r) as (r' & E & Hr' & _). exists r'. split; [done|].
    intros other. unfold registry_get, slab_get. rewrite Hr'.
    case_decide; simplify_eq; [by rewrite lookup_delete_eq|by rewrite lookup_delete_ne].
Qed.

End registry.

(** ** Witnesses *)

Section witnesses.
#[local] Existing Instance Concrete.release.
#[local] Existing Instance lowest_key.
#[local] Existing Instance lowest_key_laws.

Definition conn5 : Connection := conn_new 5 PPing.

Lemma write_progress_witness :
  exists c', (start_writing 3 100;; advance_all [50; 50] false) conn5 = Done true c' /\
    write_state c' = Some (3, 100, 100).
Proof.
  destruct (write_progress conn5 3 100 [50; 50]) as (c' & E & Hw & _); [|done..|].
  - by repeat constructor.
  - by exists c'.
Defined.

(** A full registry of one connection. *)
Lemma registry_is_bounded_map_witness :
  let r := mkRegistry {[0%nat := conn5]} 1 in
  registry_get 0 r = Some conn5 /\ registry_insert conn5 r = Done None r.
Proof.
  destruct (registry_is_bounded_map 1 {[0%nat := conn5]} (mkRegistry {[0%nat := conn5]} 1) conn5 0)
    as ((H1 & _) & _ & H2 & _); [done| |by split].
  apply rtc_once. by apply (step_insert ∅).
Defined.

End witnesses.
