(* ===== verification/Token.v ===== *)
(** * Tokens of operations in flight (src/runtime/uring/token.rs)

    Every operation submitted to the kernel carries a token; its completion finds the
    operation by the token.  [usize] and [u64] have the same width, so the casts
    between keys and tokens are the identity. *)

From S2P Require Import Prelude Slab.

Inductive OpType : Type :=
| OpAccept
| OpRead (conn_id : nat)
| OpWrite (conn_id buf_idx : nat).

#[export] Instance OpType_eq_dec : EqDecision OpType.
Proof. solve_decision. Defined.

Section tokens.
Context `{SL : SlabLib}.

Record TokenAllocator := mkTokens { ops : Slab OpType }.

Definition tokens_new : TokenAllocator := mkTokens slab_new.

Definition token_alloc (op : OpType) : st TokenAllocator nat := fun t =>
  let '(token, s) := slab_insert op (ops t) in Done token (mkTokens s).

Definition token_get (token : nat) (t : TokenAllocator) : option OpType := slab_get token (ops t).

Definition token_free (token : nat) : st TokenAllocator (option OpType) := fun t =>
  if slab_contains token (ops t) then
    match slab_try_remove token (ops t) with
    | Some (op, s) => Done (Some op) (mkTokens s)
    | None => Panicked t
    end
  else Done None t.

Definition tokens_len (t : TokenAllocator) : Z := slab_len (ops t).
Definition tokens_is_empty (t : TokenAllocator) : bool := slab_len (ops t) =? 0.

End tokens.

(** ** Correlation of completions with operations

    A history of allocations and completions, with the operations in flight. *)

Section history.
Context `{SL : SlabLib, LW : !SlabLaws}.

Inductive token_step : gmap nat OpType * TokenAllocator -> gmap nat OpType * TokenAllocator -> Prop :=
| step_submit m t op token t' :
    token_alloc op t = Done token t' -> token_step (m, t) (<[token := op]> m, t')
| step_complete m t token r t' :
    token_free token t = Done r t' -> token_step (m, t) (delete token m, t').

Lemma token_free_eq token t :
  exists t', token_free token t = Done (token_get token t) t' /\
    slab_items (ops t') = delete token (slab_items (ops t)).
Proof.
  unfold token_free, token_get, slab_get. destruct (slab_items (ops t) !! token) as [op|] eqn:E.
  - rewrite (slab_contains_true _ _ _ E). unfold slab_try_remove. rewrite E. eexists. split; [done|].
    simpl. by apply slab_remove_items.
  - rewrite (slab_contains_false _ _ E). exists t. split; [done|]. by rewrite delete_id.
Qed.

Lemma token_alloc_eq op t :
  exists token t', token_alloc op t = Done token t' /\ token_get token t = None /\
    slab_items (ops t') = <[token := op]> (slab_items (ops t)).
Proof.
  unfold token_alloc, token_get, slab_get. pose proof (slab_insert_vacant _ op (ops t)) as Hv.
  pose proof (slab_insert_items _ op (ops t)) as Hi. destruct (slab_insert op (ops t)) as [k s].
  by exists k, (mkTokens s).
Qed.

Lemma token_step_items x y :
  token_step x y -> slab_items (ops x.2) = x.1 -> slab_items (ops y.2) = y.1.
Proof.
  intros Hs Hx. destruct Hs as [m t op token t' E|m t token r t' E]; simpl in *; subst m.
  - destruct (token_alloc_eq op t) as (k & t2 & E2 & _ & Hi). rewrite E in E2. by simplify_eq.
  - destruct (token_free_eq token t) as (t2 & E2 & Hi). rewrite E in E2. by simplify_eq.
Qed.

Lemma token_steps_items x y :
  rtc token_step x y -> slab_items (ops x.2) = x.1 -> slab_items (ops y.2) = y.1.
Proof. induction 1; eauto using token_step_items. Qed.

(** A token identifies its operation: after any history of submissions and
    completions, looking a token up gives exactly the operation submitted with it and
    not yet completed; a new token differs from every token in flight and leads to its
    own operation; the completion returns that operation, after which the token is
    unknown, and a completion with an unknown token changes nothing. *)
Theorem tokens_correlate m t op :
  rtc token_step (∅, tokens_new) (m, t) ->
  (forall token, token_get token t = m !! token) /\ tokens_len t = Z.of_nat (size m) /\
  exists token t1, token_alloc op t = Done token t1 /\ m !! token = None /\
    (forall other, token_get other t1 = if decide (other = token) then Some op else m !! other) /\
    exists t2, token_free token t1 = Done (Some op) t2 /\ (forall other, token_get other t2 = m !! other) /\
    exists t3, token_free token t2 = Done None t3 /\ (forall other, token_get other t3 = m !! other).
Proof.
  intros Hr. apply token_steps_items in Hr; [|apply slab_items_new]. simpl in Hr.
  unfold token_get, tokens_len, slab_len, slab_get. rewrite Hr. split; [done|]. split; [done|].
  destruct (token_alloc_eq op t) as (token & t1 & E1 & Hv & H1). unfold token_get, slab_get in Hv.
  rewrite Hr in *. exists token, t1. rewrite H1. split_and!; [done|done| |].
  { intros other. destruct (decide (other = token)) as [->|?];
      [by rewrite lookup_insert_eq|by rewrite lookup_insert_ne]. }
  destruct (token_free_eq token t1) as (t2 & E2 & H2). unfold token_get, slab_get in E2.
  rewrite H1, lookup_insert_eq in E2. exists t2. rewrite H2, H1, delete_insert_eq, delete_id by done.
  split_and!; [done|done|].
  destruct (token_free_eq token t2) as (t3 & E3 & H3). unfold token_get, slab_get in E3.
  rewrite H2, lookup_delete_eq in E3. exists t3. rewrite H3, H2, H1.
  by rewrite delete_insert_eq, !delete_id by (by rewrite ?delete_id).
Qed.

End history.

(** ** Witness *)

Section witness.
#[local] Existing Instance lowest_key.
#[local] Existing Instance lowest_key_laws.

(** An accept in flight, a read already completed. *)
Lemma tokens_correlate_witness :
  token_get 0 (mkTokens {[0%nat := OpAccept]}) = Some OpAccept /\
  exists token t1, token_alloc (OpRead 7) (mkTokens {[0%nat := OpAccept]}) = Done token t1 /\
    token_get token t1 = Some (OpRead 7).
Proof.
  destruct (tokens_correlate {[0%nat := OpAccept]} (mkTokens {[0%nat := OpAccept]}) (OpRead 7))
    as (H1 & _ & token & t1 & E & _ & H2 & _).
  - apply (rtc_l _ _ ({[0%nat := OpAccept]}, mkTokens {[0%nat := OpAccept]})); [by apply (step_submit ∅)|].
    apply (rtc_l _ _ (<[1%nat := OpRead 5]> {[0%nat := OpAccept]}, mkTokens (<[1%nat := OpRead 5]> {[0%nat := OpAccept]}))).
    + apply (step_submit _ _ (OpRead 5)). reflexivity.
    + apply rtc_once. exact (step_complete (<[1%nat := OpRead 5]> {[0%nat := OpAccept]})
        (mkTokens (<[1%nat := OpRead 5]> {[0%nat := OpAccept]})) 1 (Some (OpRead 5))
        (mkTokens {[0%nat := OpAccept]}) eq_refl).
  - split; [by rewrite H1|]. exists token, t1. split; [done|]. by rewrite H2, decide_True.
Defined.

End witness.
