(* ===== verification/BufRing.v ===== *)
(** * The provided buffer ring (src/runtime/uring/buf_ring.rs)

    The ring of buffers the kernel fills on reads.  Its slots carry the address,
    length and identifier of a buffer; the code adds buffers at the tail, a 16-bit
    counter, and the kernel takes them at a head of its own.  The memory behind the
    two raw pointers is a list of slots and a list of buffers. *)

From S2P Require Import Prelude.

Definition u16 (z : Z) : Z := z mod 65536.
Definition u32 (z : Z) : Z := z mod 4294967296.

(** [addr] is relative to the start of the buffer area. *)
Record BufRingEntry := mkEntry { e_addr : Z; e_len : Z; e_bid : Z }.

Record BufRing := mkRing {
  ring_slots : list BufRingEntry;
  ring_buffers : list bytes;
  ring_entries : Z;
  ring_buffer_size : Z;
  ring_tail : Z
}.

Inductive ring_error : Type := InvalidInput | OutOfMemory | OsError.

(** [u16::is_power_of_two] *)
Definition is_power_of_two (n : Z) : bool := (0 <? n) && (Z.land n (n - 1) =? 0).

(** [u16::next_power_of_two]: beyond 32768 the result does not fit. *)
Definition next_power_of_two `{BuildProfile} (n : Z) : comp Z :=
  let p := if n <=? 1 then 1 else 2 ^ Z.log2_up n in
  if p <=? 65535 then Val p else if overflow_checks then Panic else Val 0.

(** How [worker_loop] sizes the ring: the cast truncates. *)
Definition ring_entries_for `{BuildProfile} (max_connections : Z) : comp Z :=
  p ← next_power_of_two (u16 max_connections);
  Val (Z.min p 4096).

Definition add_buffer (bid : Z) (r : BufRing) : BufRing :=
  let idx := Z.land (ring_tail r) (ring_entries r - 1) in
  mkRing (<[Z.to_nat idx := mkEntry (bid * ring_buffer_size r) (u32 (ring_buffer_size r)) bid]> (ring_slots r))
    (ring_buffers r) (ring_entries r) (ring_buffer_size r) (u16 (ring_tail r + 1)).

(** [BufRing::new]; [memory] and [registered] say whether the allocations and the
    registration with the kernel succeed. *)
Definition ring_new (entries size : Z) (memory registered : bool) : ring_error + BufRing :=
  if negb (is_power_of_two entries) then inl InvalidInput
  else if negb memory then inl OutOfMemory
  else
    let r := mkRing (repeat (mkEntry 0 0 0) (Z.to_nat entries))
               (repeat (repeat Byte.x00 (Z.to_nat size)) (Z.to_nat entries)) entries size 0 in
    let r := fold_left (fun r i => add_buffer (Z.of_nat i) r) (seq 0 (Z.to_nat entries)) r in
    if registered then inr r else inl OsError.

(** [get_buffer_slice]: the pointer is valid for identifiers of the ring only. *)
Definition get_buffer_slice (r : BufRing) (bid : Z) : comp bytes := index (ring_buffers r) bid.

(** An assignment through [get_buffer_slice_mut]. *)
Definition get_buffer_slice_mut (bid : Z) (f : bytes -> bytes) (r : BufRing) : comp BufRing :=
  buf ← get_buffer_slice r bid;
  Val (mkRing (ring_slots r) (<[Z.to_nat bid := f buf]> (ring_buffers r)) (ring_entries r) (ring_buffer_size r)
    (ring_tail r)).

Definition recycle_buffer (bid : Z) (r : BufRing) : BufRing := add_buffer bid r.

(** ** The kernel's side

    The kernel takes the buffer of the slot at its head and advances it; the ring is
    empty when head and tail meet. *)
Definition kernel_next (head : Z) (r : BufRing) : option BufRingEntry :=
  if head =? ring_tail r then None else ring_slots r !! Z.to_nat (Z.land head (ring_entries r - 1)).

(** The entries the kernel will take before it finds the ring empty, in its order: from
    its head up to the tail, both 16-bit counters. *)
Definition queued (head : Z) (r : BufRing) : list BufRingEntry :=
  omap (fun i => ring_slots r !! Z.to_nat (Z.land (u16 (head + Z.of_nat i)) (ring_entries r - 1)))
    (seq 0 (Z.to_nat (u16 (ring_tail r - head)))).

(** [in_use] are the buffers the kernel has handed over and the worker has not
    recycled. *)
Inductive ring_step : list Z * Z * BufRing -> list Z * Z * BufRing -> Prop :=
| ring_take in_use head r e :
    kernel_next head r = Some e -> ring_step (in_use, head, r) (e_bid e :: in_use, u16 (head + 1), r)
| ring_give a bid b head r :
    ring_step (a ++ bid :: b, head, r) (a ++ b, head, recycle_buffer bid r).

(** ** The ring is a queue *)

(** The slot of position [j], counting from the start without wrapping. *)
Definition slot (n : nat) (r : BufRing) (j : nat) : BufRingEntry :=
  nth (j mod n) (ring_slots r) (mkEntry 0 0 0).

(** Positions [head] to [tail] hold the buffers that are not in use. *)
Record ring_inv (n : nat) (in_use : list Z) (head : Z) (r : BufRing) (h t : nat) : Prop := {
  ri_pow : exists k, 0 <= k <= 15 /\ Z.of_nat n = 2 ^ k;
  ri_entries : ring_entries r = Z.of_nat n;
  ri_slots : length (ring_slots r) = n;
  ri_head : head = u16 (Z.of_nat h);
  ri_tail : ring_tail r = u16 (Z.of_nat t);
  ri_count : (h + n = t + length in_use)%nat /\ (h <= t)%nat;
  ri_bids : (e_bid <$> (slot n r <$> seq h (t - h))) ++ in_use ≡ₚ (Z.of_nat <$> seq 0 n);
  ri_addr : Forall (fun e => e_addr e = e_bid e * ring_buffer_size r /\ e_len e = u32 (ring_buffer_size r))
              (slot n r <$> seq h (t - h))
}.

(** The mask of a power of two, on the wrapped counter. *)
Lemma land_mask n j :
  (exists k, 0 <= k <= 15 /\ Z.of_nat n = 2 ^ k) ->
  Z.land (u16 (Z.of_nat j)) (Z.of_nat n - 1) = Z.of_nat (j mod n).
Proof.
  intros (k & Hk & Hn). rewrite Hn. replace (2 ^ k - 1) with (Z.ones k) by (rewrite Z.ones_equiv; lia).
  rewrite Z.land_ones by lia. rewrite Nat2Z.inj_mod, Hn. unfold u16. change 65536 with (2 ^ 16).
  replace (2 ^ 16) with (2 ^ k * 2 ^ (16 - k)) by (rewrite <- Z.pow_add_r by lia; f_equal; lia).
  rewrite Z.rem_mul_r by (try apply Z.pow_nonzero; try apply Z.pow_pos_nonneg; lia).
  rewrite Z.mul_comm, Z_mod_plus_full. apply Z.mod_mod. apply Z.pow_nonzero; lia.
Qed.

Lemma u16_add z : u16 (u16 z + 1) = u16 (z + 1).
Proof. unfold u16. by rewrite Zplus_mod_idemp_l. Qed.

(** Writing at the tail leaves the window alone while a buffer is in use. *)
Lemma slot_add n r bid t j :
  ring_entries r = Z.of_nat n -> length (ring_slots r) = n -> ring_tail r = u16 (Z.of_nat t) ->
  (exists k, 0 <= k <= 15 /\ Z.of_nat n = 2 ^ k) ->
  slot n (add_buffer bid r) j =
    if decide (j mod n = t mod n)%nat then mkEntry (bid * ring_buffer_size r) (u32 (ring_buffer_size r)) bid
    else slot n r j.
Proof.
  intros He Hl Ht Hk. assert (Hn : n <> 0%nat).
  { intros ->. destruct Hk as (k & ? & Hk). pose proof (Z.pow_pos_nonneg 2 k). lia. }
  unfold slot, add_buffer. cbn [ring_slots]. rewrite He, Ht, land_mask, Nat2Z.id by done.
  assert (j mod n < n)%nat by (by apply Nat.mod_upper_bound).
  case_decide as E.
  - rewrite E. rewrite (nth_lookup_Some _ _ _ (mkEntry (bid * ring_buffer_size r) (u32 (ring_buffer_size r)) bid)); [done|].
    apply list_lookup_insert_eq. rewrite Hl. lia.
  - rewrite !nth_lookup. by rewrite list_lookup_insert_ne.
Qed.

Lemma mod_ne n j t : (j < t)%nat -> (t - j < n)%nat -> (j mod n <> t mod n)%nat.
Proof.
  intros Hj Hn E. pose proof (Nat.div_mod j n ltac:(lia)). pose proof (Nat.div_mod t n ltac:(lia)).
  destruct (Nat.lt_trichotomy (j / n) (t / n)) as [?|[Hd|?]]; [nia| |nia]. rewrite Hd in *. lia.
Qed.

Lemma slots_add n r bid h t :
  ring_entries r = Z.of_nat n -> length (ring_slots r) = n -> ring_tail r = u16 (Z.of_nat t) ->
  (exists k, 0 <= k <= 15 /\ Z.of_nat n = 2 ^ k) -> (h <= t)%nat -> (t - h < n)%nat ->
  slot n (add_buffer bid r) <$> seq h (S t - h) =
    (slot n r <$> seq h (t - h)) ++ [mkEntry (bid * ring_buffer_size r) (u32 (ring_buffer_size r)) bid].
Proof.
  intros He Hl Ht Hk Hle Hlt. replace (S t - h)%nat with (S (t - h)) by lia. rewrite seq_S, fmap_app. f_equal.
  - apply list_fmap_ext. intros i x Hx. apply lookup_seq in Hx as [-> Hx].
    rewrite (slot_add n r bid t) by done. rewrite decide_False; [done|]. apply mod_ne; lia.
  - cbn [fmap list_fmap]. rewrite (slot_add n r bid t) by done. rewrite decide_True; [done|]. f_equal. lia.
Qed.

Lemma ring_give_inv n a bid b head r h t :
  ring_inv n (a ++ bid :: b) head r h t -> ring_inv n (a ++ b) head (recycle_buffer bid r) h (S t).
Proof.
  intros [Hk He Hl Hh Ht [Hc Hle] Hb Ha]. rewrite length_app in Hc. simpl in Hc.
  assert (Hs : slot n (recycle_buffer bid r) <$> seq h (S t - h) =
    (slot n r <$> seq h (t - h)) ++ [mkEntry (bid * ring_buffer_size r) (u32 (ring_buffer_size r)) bid])
    by (apply slots_add; try done; lia).
  split; try done.
  - simpl. by rewrite length_insert.
  - simpl. rewrite Ht, u16_add. f_equal. lia.
  - rewrite length_app. lia.
  - rewrite Hs, fmap_app, <- Hb, <- app_assoc. cbn [fmap list_fmap e_bid app]. f_equiv.
    by rewrite Permutation_middle.
  - rewrite Hs. apply Forall_app. split; [done|]. by repeat constructor.
Qed.

(** The kernel finds the head of the queue, unless every buffer is in use. *)
Lemma kernel_next_eq n in_use head r h t :
  ring_inv n in_use head r h t ->
  if decide (h = t) then kernel_next head r = None
  else kernel_next head r = Some (slot n r h).
Proof.
  intros [Hk He Hl Hh Ht [Hc Hle] Hb Ha]. unfold kernel_next. rewrite Hh, Ht. case_decide as E.
  - subst. by rewrite Z.eqb_refl.
  - rewrite He, land_mask, Nat2Z.id by done.
    destruct Hk as (k & Hk & Hn). assert (Hp : 2 ^ k <= 2 ^ 15) by (apply Z.pow_le_mono_r; lia).
    change (2 ^ 15) with 32768 in Hp. rewrite (proj2 (Z.eqb_neq _ _)).
    + unfold slot.
      destruct (nth_lookup_or_length (ring_slots r) (h mod n) (mkEntry 0 0 0)) as [?|Hge]; [done|].
      rewrite Hl in Hge. pose proof (Nat.mod_upper_bound h n). lia.
    + unfold u16. intros Eq. assert (Hm : (Z.of_nat t - Z.of_nat h) mod 65536 = 0)
        by (rewrite Zminus_mod, Eq, Z.sub_diag; done).
      rewrite Z.mod_small in Hm by lia. lia.
Qed.

Lemma ring_take_inv n in_use head r h t e :
  ring_inv n in_use head r h t -> kernel_next head r = Some e ->
  ring_inv n (e_bid e :: in_use) (u16 (head + 1)) r (S h) t.
Proof.
  intros Hi Hn. pose proof (kernel_next_eq _ _ _ _ _ _ Hi) as Hk. destruct Hi as [Hp He Hl Hh Ht [Hc Hle] Hb Ha].
  case_decide as E; [congruence|]. rewrite Hn in Hk. injection Hk as ->.
  assert (Hs : seq h (t - h) = h :: seq (S h) (t - S h)).
  { replace (t - h)%nat with (S (t - S h)) by lia. done. }
  rewrite Hs in Hb, Ha. cbn [fmap list_fmap] in Hb, Ha. apply Forall_cons in Ha as [_ Ha]. split; try done.
  - rewrite Hh, u16_add. f_equal. lia.
  - simpl. lia.
  - rewrite <- Hb. by rewrite <- Permutation_middle.
Qed.

(** What every history of takes and recycles keeps. *)
Definition ring_ok (n : nat) (size : Z) (x : list Z * Z * BufRing) : Prop :=
  (exists h t, ring_inv n x.1.1 x.1.2 x.2 h t) /\ ring_buffer_size x.2 = size.

Lemma ring_step_ok n size x y : ring_step x y -> ring_ok n size x -> ring_ok n size y.
Proof.
  intros Hs ((h & t & Hi) & Hz). destruct Hs as [in_use head r e Hn|a bid b head r]; simpl in *.
  - split; [|done]. eexists _, _. by eapply ring_take_inv.
  - split; [|done]. eexists _, _. by eapply ring_give_inv.
Qed.

Lemma ring_steps_ok n size x y : rtc ring_step x y -> ring_ok n size x -> ring_ok n size y.
Proof. induction 1; eauto using ring_step_ok. Qed.

(** ** A new ring *)

Lemma is_power_of_two_pow n : is_power_of_two n = true -> exists k, 0 <= k /\ n = 2 ^ k.
Proof.
  unfold is_power_of_two. intros H. boolify. exists (Z.log2 n). split; [apply Z.log2_nonneg|].
  destruct (Z.log2_spec n ltac:(lia)) as [Hlo Hhi]. destruct (Z.eq_dec n (2 ^ Z.log2 n)) as [->|Hne]; [by rewrite Z.log2_pow2 by apply Z.log2_nonneg|].
  exfalso. assert (Hl : Z.log2 (n - 1) = Z.log2 n).
  { apply Z.log2_unique; [apply Z.log2_nonneg|]. lia. }
  assert (Hb : Z.testbit (Z.land n (n - 1)) (Z.log2 n) = true).
  { rewrite Z.land_spec. rewrite Z.bit_log2 by lia. rewrite <- Hl. apply Z.bit_log2.
    pose proof (Z.pow_pos_nonneg 2 (Z.log2 n) ltac:(lia) (Z.log2_nonneg n)). lia. }
  match goal with H : Z.land _ _ = 0 |- _ => rewrite H in Hb end. by rewrite Z.bits_0 in Hb.
Qed.

Lemma add_all_inv n l r t :
  ring_inv n (Z.of_nat <$> l) 0 r 0 t ->
  exists t', ring_inv n [] 0 (fold_left (fun r i => add_buffer (Z.of_nat i) r) l r) 0 t'.
Proof.
  revert r t. induction l as [|i l IH]; intros r t Hi; simpl; [by exists t|].
  apply (IH _ (S t)). by apply (ring_give_inv n [] (Z.of_nat i)).
Qed.

Lemma ring_new_inv entries size r :
  entries <= 32768 -> ring_new entries size true true = inr r ->
  exists t, ring_inv (Z.to_nat entries) [] 0 r 0 t.
Proof.
  intros He. unfold ring_new. destruct (is_power_of_two entries) eqn:Hp; [|done]. cbn [negb]. intros [= <-].
  apply is_power_of_two_pow in Hp as (k & Hk & Hp). apply (add_all_inv _ _ _ 0).
  assert (Hpos : 0 < entries) by (rewrite Hp; apply Z.pow_pos_nonneg; lia).
  split; simpl; try done; [|lia|by rewrite repeat_length|].
  - exists k. split; [|lia]. split; [done|]. apply (Z.pow_le_mono_r_iff 2); [lia..|]. change (2 ^ 15) with 32768. lia.
  - rewrite length_fmap, length_seq. lia.
Qed.

Lemma ring_size_new entries size m g r : ring_new entries size m g = inr r -> ring_buffer_size r = size.
Proof.
  unfold ring_new. destruct (negb _); [done|]. destruct (negb m); [done|]. destruct g; [|done]. intros [= <-].
  assert (H : forall l r, ring_buffer_size (fold_left (fun r i => add_buffer (Z.of_nat i) r) l r) = ring_buffer_size r).
  { induction l as [|i l IH]; intros r; simpl; [done|]. by rewrite IH. }
  by rewrite H.
Qed.

Lemma ring_new_buffers entries size m g r :
  0 <= size -> ring_new entries size m g = inr r ->
  length (ring_buffers r) = Z.to_nat entries /\ Forall (fun b => len b = size) (ring_buffers r).
Proof.
  intros Hsz. unfold ring_new. destruct (negb _); [done|]. destruct (negb m); [done|]. destruct g; [|done]. intros [= <-].
  assert (H : forall l r, ring_buffers (fold_left (fun r i => add_buffer (Z.of_nat i) r) l r) = ring_buffers r).
  { induction l as [|i l IH]; intros r; simpl; [done|]. by rewrite IH. }
  rewrite H. simpl. rewrite repeat_length. split; [done|]. apply Forall_forall. intros b Hb.
  apply list_elem_of_In, repeat_spec in Hb as ->. unfold len. rewrite repeat_length. lia.
Qed.

(** The 16-bit distance of the counters is the length of the window. *)
Lemma window n in_use head r h t : ring_inv n in_use head r h t -> Z.to_nat (u16 (ring_tail r - head)) = (t - h)%nat.
Proof.
  intros [(k & Hk & Hn) _ _ -> -> [Hc Hle] _ _].
  assert (Hp : 2 ^ k <= 2 ^ 15) by (apply Z.pow_le_mono_r; lia). change (2 ^ 15) with 32768 in Hp.
  unfold u16. rewrite <- Zminus_mod, Z.mod_small by lia. lia.
Qed.

Lemma queued_eq n in_use head r h t :
  ring_inv n in_use head r h t -> queued head r = slot n r <$> seq h (t - h).
Proof.
  intros Hi. unfold queued. rewrite (window _ _ _ _ _ _ Hi). destruct Hi as [Hk He Hl Hh Ht [Hc Hle] _ _].
  rewrite He, Hh. clear Hc Hle Ht.
  assert (Hn : n <> 0%nat) by (intros ->; destruct Hk as (k & ? & Hk); pose proof (Z.pow_pos_nonneg 2 k); lia).
  assert (Hs : forall i, ring_slots r !! Z.to_nat (Z.land (u16 (u16 (Z.of_nat h) + Z.of_nat i)) (Z.of_nat n - 1))
    = Some (slot n r (h + i))).
  { intros i. unfold u16 at 1. unfold u16 at 1. rewrite Zplus_mod_idemp_l, <- Nat2Z.inj_add.
    fold (u16 (Z.of_nat (h + i))). rewrite land_mask, Nat2Z.id by done. unfold slot.
    destruct (nth_lookup_or_length (ring_slots r) ((h + i) mod n) (mkEntry 0 0 0)) as [?|Hge]; [done|].
    rewrite Hl in Hge. pose proof (Nat.mod_upper_bound (h + i) n Hn). lia. }
  rewrite <- (Nat.add_0_r h) at 2. generalize 0%nat. induction (t - h)%nat as [|m IH]; intros i; [done|].
  cbn [seq omap list_omap fmap list_fmap]. rewrite Hs. f_equal. rewrite IH. by rewrite Nat.add_succ_r.
Qed.

(** The buffers of a ring. *)
Definition all_buffers (entries : Z) : list Z := Z.of_nat <$> seq 0 (Z.to_nat entries).

(** What is queued and what is in use are all buffers, and the queue is first in, first
    out. *)
Lemma ring_queue n in_use head r h t :
  ring_inv n in_use head r h t ->
  ((e_bid <$> queued head r) ++ in_use ≡ₚ all_buffers (ring_entries r)) /\
  Forall (fun e => e_addr e = e_bid e * ring_buffer_size r /\ e_len e = u32 (ring_buffer_size r)) (queued head r) /\
  kernel_next head r = hd_error (queued head r) /\
  (is_Some (kernel_next head r) -> queued (u16 (head + 1)) r = tail (queued head r)) /\
  (forall bid, bid ∈ in_use -> queued head (recycle_buffer bid r) =
     queued head r ++ [mkEntry (bid * ring_buffer_size r) (u32 (ring_buffer_size r)) bid]).
Proof.
  intros Hi. pose proof (kernel_next_eq _ _ _ _ _ _ Hi) as Hk. rewrite (queued_eq _ _ _ _ _ _ Hi).
  pose proof Hi as [Hp He Hl Hh Ht [Hc Hle] Hb Ha]. split_and!; [|done|..].
  - unfold all_buffers. by rewrite He, Nat2Z.id.
  - case_decide as E; simpl; rewrite Hk; [by rewrite E, Nat.sub_diag|].
    replace (t - h)%nat with (S (t - S h)) by lia. done.
  - case_decide as E; [rewrite Hk; by intros []|]. intros _.
    rewrite (queued_eq _ _ _ _ _ _ (ring_take_inv _ _ _ _ _ _ _ Hi Hk)).
    replace (t - h)%nat with (S (t - S h)) by lia. done.
  - intros bid (a & b & ->)%list_elem_of_split.
    rewrite (queued_eq _ _ _ _ _ _ (ring_give_inv _ _ _ _ _ _ _ _ Hi)). apply slots_add; try done.
    rewrite length_app in Hc. simpl in Hc. lia.
Qed.

Lemma ring_reachable entries size r0 in_use head r :
  entries <= 32768 -> ring_new entries size true true = inr r0 ->
  rtc ring_step ([], 0, r0) (in_use, head, r) ->
  ring_entries r = entries /\ ring_buffer_size r = size /\ exists n h t, ring_inv n in_use head r h t.
Proof.
  intros He Hnew Hr.
  assert (Hok : ring_ok (Z.to_nat entries) size (in_use, head, r)).
  { eapply ring_steps_ok; [done|]. destruct (ring_new_inv _ _ _ He Hnew) as (t & Hi).
    split; [by exists 0%nat, t|by eapply ring_size_new]. }
  destruct Hok as ((h & t & Hi) & Hs). simpl in *. split_and!; [|done|by eexists _, _, _].
  rewrite (ri_entries _ _ _ _ _ _ Hi). destruct (ri_pow _ _ _ _ _ _ Hi) as (k & ? & Hk).
  pose proof (Z.pow_pos_nonneg 2 k). lia.
Qed.

(** C37: The buffer ring is a first-in first-out queue of its buffers, over any number of
    wrap-arounds of the 16-bit counters.  As long as the worker recycles only buffers
    it has been handed, each once: the buffers queued for the kernel and those in use
    are together all the buffers of the ring, once each; each queued entry has its
    buffer's address and length; the kernel's next entry is the first of the queue, and
    there is none when the queue is empty; taking it leaves the rest of the queue; and
    recycling a buffer puts its entry at the end. *)
Theorem ring_is_queue entries size r0 in_use head r :
  entries <= 32768 -> ring_new entries size true true = inr r0 ->
  rtc ring_step ([], 0, r0) (in_use, head, r) ->
  ((e_bid <$> queued head r) ++ in_use ≡ₚ all_buffers entries) /\
  Forall (fun e => e_addr e = e_bid e * size /\ e_len e = u32 size) (queued head r) /\
  kernel_next head r = hd_error (queued head r) /\
  (is_Some (kernel_next head r) -> queued (u16 (head + 1)) r = tail (queued head r)) /\
  (forall bid, bid ∈ in_use -> queued head (recycle_buffer bid r) =
     queued head r ++ [mkEntry (bid * size) (u32 size) bid]).
Proof.
  intros He Hnew Hr. destruct (ring_reachable _ _ _ _ _ _ He Hnew Hr) as (<- & <- & n & h & t & Hi).
  by eapply ring_queue.
Qed.

(** ** The size of the ring *)

Lemma pow2_is_power_of_two k : 0 <= k -> is_power_of_two (2 ^ k) = true.
Proof.
  intros Hk. unfold is_power_of_two. rewrite (proj2 (Z.ltb_lt _ _)) by (apply Z.pow_pos_nonneg; lia). simpl.
  apply Z.eqb_eq. replace (2 ^ k - 1) with (Z.ones k) by (rewrite Z.ones_equiv; lia).
  rewrite Z.land_ones by done. apply Z.mod_same, Z.pow_nonzero; lia.
Qed.

Lemma next_power_small `{BuildProfile} n :
  0 <= n <= 32768 -> exists k, 0 <= k <= 15 /\ next_power_of_two n = Val (2 ^ k) /\ n <= 2 ^ k.
Proof.
  intros Hn. unfold next_power_of_two. destruct (n <=? 1) eqn:E; boolify; [exists 0; change (2 ^ 0) with 1; split_and!; (done || lia)|].
  exists (Z.log2_up n). pose proof (Z.log2_up_spec n ltac:(lia)) as [_ Hup].
  assert (Hk : Z.log2_up n <= 15) by (apply Z.log2_up_le_pow2; [lia|]; change (2 ^ 15) with 32768; lia).
  pose proof (Z.log2_up_nonneg n). assert (Hp : 2 ^ Z.log2_up n <= 2 ^ 15) by (apply Z.pow_le_mono_r; lia).
  change (2 ^ 15) with 32768 in Hp. rewrite (proj2 (Z.leb_le _ _)) by lia. done.
Qed.

Lemma next_power_big `{BuildProfile} n :
  32768 < n <= 65535 -> next_power_of_two n = if overflow_checks then Panic else Val 0.
Proof.
  intros Hn. unfold next_power_of_two. rewrite (proj2 (Z.leb_gt n 1)) by lia.
  assert (Hk : 16 <= Z.log2_up n).
  { destruct (Z.le_gt_cases 16 (Z.log2_up n)); [done|]. assert (Z.log2_up n <= 15) as Hle by lia.
    apply Z.log2_up_le_pow2 in Hle; [|lia]. change (2 ^ 15) with 32768 in Hle. lia. }
  assert (Hp : 2 ^ 16 <= 2 ^ Z.log2_up n) by (apply Z.pow_le_mono_r; lia). change (2 ^ 16) with 65536 in Hp.
  by rewrite (proj2 (Z.leb_gt _ _)) by lia.
Qed.

Lemma u16_range z : 0 <= u16 z <= 65535.
Proof. unfold u16. pose proof (Z.mod_pos_bound z 65536). lia. Qed.

(** How the ring is sized.  When [max_connections] modulo 65536 is at most 32768, the
    ring has a power of two of entries between 1 and 4096, one per connection up to
    that, and the ring accepts the size.  Otherwise the rounding overflows: a build
    with overflow checks panics and one without asks for an empty ring, which is
    refused, so no worker starts. *)
Theorem ring_size_valid `{BuildProfile} max size memory registered :
  if u16 max <=? 32768 then
    exists e, ring_entries_for max = Val e /\ is_power_of_two e = true /\ 1 <= e <= 4096 /\
      Z.min (u16 max) 4096 <= e /\ exists r, ring_new e size true true = inr r
  else if overflow_checks then ring_entries_for max = Panic
  else ring_entries_for max = Val 0 /\ ring_new 0 size memory registered = inl InvalidInput.
Proof.
  pose proof (u16_range max) as Hr. unfold ring_entries_for. destruct (_ <=? _) eqn:E; boolify.
  - destruct (next_power_small (u16 max)) as (k & Hk & -> & Hle); [lia|]. cbn [mbind comp_bind].
    assert (Hpos : 0 < 2 ^ k) by (apply Z.pow_pos_nonneg; lia).
    assert (He : is_power_of_two (Z.min (2 ^ k) 4096) = true).
    { destruct (Z.le_ge_cases (2 ^ k) 4096); [rewrite Z.min_l by done; apply pow2_is_power_of_two; lia|].
      by rewrite Z.min_r. }
    exists (Z.min (2 ^ k) 4096). split_and!; try done; try lia. unfold ring_new. rewrite He. simpl. by eexists.
  - rewrite next_power_big by lia. by destruct overflow_checks.
Qed.

(** ** Witness *)

Definition ring4 : BufRing :=
  match ring_new 4 8 true true with inr r => r | inl _ => mkRing [] [] 0 0 0 end.

(** The kernel takes two buffers, the worker returns the second: it is queued last. *)
Lemma ring_is_queue_witness :
  queued 2 (recycle_buffer 1 ring4) = [mkEntry 16 8 2; mkEntry 24 8 3; mkEntry 8 8 1] /\
  ([2; 3; 1] ++ [0] ≡ₚ all_buffers 4) /\
  queued 2 (recycle_buffer 0 (recycle_buffer 1 ring4)) =
    [mkEntry 16 8 2; mkEntry 24 8 3; mkEntry 8 8 1; mkEntry 0 8 0].
Proof.
  destruct (ring_is_queue 4 8 ring4 [0] 2 (recycle_buffer 1 ring4)) as (H1 & _ & _ & _ & H2).
  - done.
  - reflexivity.
  - apply (rtc_l _ _ ([0], 1, ring4)); [by apply (ring_take [] 0 ring4 (mkEntry 0 8 0))|].
    apply (rtc_l _ _ ([1; 0], 2, ring4)); [by apply (ring_take [0] 1 ring4 (mkEntry 8 8 1))|].
    apply rtc_once. by apply (ring_give [] 1 [0] 2 ring4).
  - split_and!; [reflexivity|exact H1|]. rewrite H2; [reflexivity|by left].
Defined.
