(* ===== verification/Mio.v ===== *)
(** * The mio event loop (src/runtime/mio/event_loop.rs)

    The state of a worker: its connections, its buffer pool, the shared store, the
    interests registered with the poll, and the bytes its sockets have accepted.  What
    the operating system answers (the bytes of a read, the count of a write, whether a
    registration succeeds) is an argument of the handler that makes the call. *)

From S2P Require Import Prelude RustStd Storage Memcached Resp Request Buffer Slab Connection.

(** ** Results of system calls *)

Inductive io_error : Type :=
| NotFound | ConnectionReset | InvalidData | Other | ConnectionAborted | WriteZero | OsError.

(** The answers of the operating system.  [read(buf)]: the bytes that have arrived, of
    which the call returns as many as fit into [buf]. *)
Inductive read_result : Type :=
| ReadOk (d : bytes)
| ReadWouldBlock
| ReadErr.

Definition read_into (space : Z) (r : read_result) : read_result :=
  match r with
  | ReadOk d => ReadOk (take (Z.to_nat space) d)
  | r => r
  end.

(** [write(buf)] and [write_vectored(slices)]: how many bytes the socket has room for,
    of which the call uses as many as it is offered. *)
Inductive write_result : Type :=
| WriteOk (n : Z)
| WriteWouldBlock
| WriteErr.

Definition write_from (offered : bytes) (r : write_result) : write_result :=
  match r with
  | WriteOk n => WriteOk (Z.max 0 (Z.min n (len offered)))
  | r => r
  end.

Inductive Interest : Type := READABLE | WRITABLE.

#[export] Instance Interest_eq_dec : EqDecision Interest.
Proof. solve_decision. Defined.

(** ** State *)

(** [stream] identifies the socket. *)
Record MioConnection := mkMio {
  stream : Z;
  data_state : DataState;
  read_buf_idx : nat;
  write_buf_idx : nat;
  read_chain : option BufferChain;
  write_chain : option BufferChain;
  protocol : Protocol
}.

Definition with_state (d : DataState) (c : MioConnection) : MioConnection :=
  mkMio (stream c) d (read_buf_idx c) (write_buf_idx c) (read_chain c) (write_chain c) (protocol c).
Definition with_read_chain (rc : option BufferChain) (c : MioConnection) : MioConnection :=
  mkMio (stream c) (data_state c) (read_buf_idx c) (write_buf_idx c) rc (write_chain c) (protocol c).
Definition with_write_chain (wc : option BufferChain) (c : MioConnection) : MioConnection :=
  mkMio (stream c) (data_state c) (read_buf_idx c) (write_buf_idx c) (read_chain c) wc (protocol c).

Section mio.
Context `{BP : BuildProfile, LY : Layout, HO : HashOrder, UC : UnicodeCase, FL : FrameLayout, SL : SlabLib}.

(** [poll] maps the token of a connection to the interest it is registered for;
    [wire] lists what the sockets accepted, in order. *)
Record Worker := mkWorker {
  connections : Slab MioConnection;
  buffers : BufferPool;
  storage : Storage;
  poll : gmap nat Interest;
  wire : list (Z * bytes)
}.

Abbreviation io A := (st Worker (io_error + A)).

Definition with_connections (x : Slab MioConnection) (w : Worker) : Worker :=
  mkWorker x (buffers w) (storage w) (poll w) (wire w).
Definition with_buffers (x : BufferPool) (w : Worker) : Worker :=
  mkWorker (connections w) x (storage w) (poll w) (wire w).
Definition with_storage (x : Storage) (w : Worker) : Worker :=
  mkWorker (connections w) (buffers w) x (poll w) (wire w).
Definition with_poll (x : gmap nat Interest) (w : Worker) : Worker :=
  mkWorker (connections w) (buffers w) (storage w) x (wire w).
Definition with_wire (x : list (Z * bytes)) (w : Worker) : Worker :=
  mkWorker (connections w) (buffers w) (storage w) (poll w) x.

Definition on_buffers {A} (m : st BufferPool A) : st Worker A := zoom buffers with_buffers m.
Definition on_storage {A} (m : st Storage A) : st Worker A := zoom storage with_storage m.

(** [connections.get_mut(conn_id).ok_or_else(NotFound)?] *)
Definition get_conn (conn_id : nat) : io MioConnection := fun w =>
  match slab_get conn_id (connections w) with
  | Some c => Done (inr c) w
  | None => Done (inl NotFound) w
  end.

(** Assigning to fields of the connection behind [conn_id]. *)
Definition put_conn (conn_id : nat) (c : MioConnection) : io unit :=
  noerr (modify (fun w => with_connections (slab_write conn_id c (connections w)) w)).

(** [poll.registry().register(..)] and [reregister(..)]; [success] is the answer of
    the operating system. *)
Definition register (conn_id : nat) (i : Interest) (success : bool) : io unit :=
  if success then noerr (modify (fun w => with_poll (<[conn_id := i]> (poll w)) w)) else err OsError.

(** A buffer is filled in place by the request layer. *)
Definition set_buffer (idx : nat) (b : bytes) : st BufferPool unit := modify (fun p =>
  mkPool (<[idx := b]> (pool_buffers p)) (free_list p) (pool_buffer_size p)).

(** [if let Some(mut chain) = taken { chain.release(buffers) }] *)
Definition release_chain (taken : option BufferChain) : st BufferPool unit := fun p =>
  match taken with
  | None => Done tt p
  | Some c =>
      match Buffer.release (c, p) with
      | Done a (_, p') => Done a p'
      | Panicked (_, p') => Panicked p'
      | Running (_, p') => Running p'
      end
  end.

(** [write_chain.append(&response_data, buffers)] on a fresh chain. *)
Definition fill_chain (size : Z) (d : bytes) : st BufferPool (BufferChain * (ChainError + unit)) := fun p =>
  match append d (chain_new size, p) with
  | Done r (c, p') => Done (c, r) p'
  | Panicked (_, p') => Panicked p'
  | Running (_, p') => Running p'
  end.

(** ** Closing and accepting *)

Definition close_connection (conn_id : nat) : st Worker unit := fun w =>
  match slab_try_remove conn_id (connections w) with
  | None => Done tt w
  | Some (conn, s) =>
      (on_buffers (free (read_buf_idx conn));;
       on_buffers (free (write_buf_idx conn));;
       on_buffers (release_chain (read_chain conn));;
       on_buffers (release_chain (write_chain conn)))
        (with_poll (base.delete conn_id (poll w)) (with_connections s w))
  end.

(** One connection returned by [listener.accept()]; [registered] is the answer to its
    registration, should it come to that. *)
Definition accept_one (max_connections : Z) (proto : Protocol) (socket : Z) (registered : bool) : io unit :=
  count ← gets (fun w => slab_len (connections w));
  if max_connections <=? count then ok tt
  else
    r ← on_buffers alloc;
    match r with
    | None => ok tt
    | Some read_idx =>
        r ← on_buffers alloc;
        match r with
        | None => noerr (on_buffers (free read_idx))
        | Some write_idx =>
            conn_id ← (fun w =>
              let '(k, s) := slab_insert (mkMio socket reading read_idx write_idx None None proto) (connections w) in
              Done k (with_connections s w));
            register conn_id READABLE registered
        end
    end.

(** The loop of [accept_connections]: the sockets that [accept] returns before it
    returns an error, which ends the loop ([WouldBlock] or any other). *)
Fixpoint accept_connections (max_connections : Z) (proto : Protocol) (accepted : list (Z * bool)) : io unit :=
  match accepted with
  | [] => ok tt
  | (socket, registered) :: rest =>
      _ ←? accept_one max_connections proto socket registered;
      accept_connections max_connections proto rest
  end.

(** ** Reading *)

(** [read_buf.copy_within(consumed..total_filled, 0)], when data is left over. *)
Definition move_leftover (idx : nat) (consumed total_filled : Z) : st BufferPool unit :=
  if consumed <? total_filled then fun p =>
    match (buf ← get_buffer p idx; slice buf consumed total_filled) with
    | Val rest => write_buffer idx 0 (total_filled - consumed) rest p
    | Panic => Panicked p
    end
  else mret tt.

Definition need_chain (conn_id : nat) (total_filled command_len value_len max_value_size : Z) : io unit :=
  buffer_size ← gets (fun w => buffer_size (buffers w));
  if max_value_size <? value_len then err InvalidData
  else
    total_needed ← lift (x ← usize_add command_len value_len; usize_add x 2);
    let chain_bytes_needed := Z.max 0 (total_needed - buffer_size) in
    chain_buffers_needed ← lift (if buffer_size =? 0 then Panic
      else x ← usize_add chain_bytes_needed buffer_size; Val ((x - 1) / buffer_size));
    conn ←? get_conn conn_id;
    let chain := default (chain_new buffer_size) (read_chain conn) in
    _ ←? put_conn conn_id (with_read_chain (Some chain) conn);
    _ ←? (if buffer_count chain <? chain_buffers_needed then
            r ← on_buffers (alloc_many (Z.to_nat (chain_buffers_needed - buffer_count chain)));
            match r with
            | None => err Other
            | Some indices =>
                conn ←? get_conn conn_id;
                put_conn conn_id (with_read_chain (fold_left (fun c idx => push_buffer idx c) indices <$> read_chain conn) conn)
            end
          else ok tt);
    conn ←? get_conn conn_id;
    put_conn conn_id (with_state (reading_with total_filled) conn).

(** The part [Response] and [LargeResponse] share: move what is left over and release
    the read chain. *)
Definition after_request (conn_id : nat) (consumed total_filled : Z) : io MioConnection :=
  conn ←? get_conn conn_id;
  _ ←? noerr (on_buffers (move_leftover (read_buf_idx conn) consumed total_filled));
  conn ←? get_conn conn_id;
  _ ←? put_conn conn_id (with_read_chain None conn);
  _ ←? noerr (on_buffers (release_chain (read_chain conn)));
  get_conn conn_id.

Definition start_response (conn_id : nat) (consumed response_len total_filled : Z) (reregistered : bool) : io unit :=
  conn ←? after_request conn_id consumed total_filled;
  _ ←? put_conn conn_id (with_state (writing (Z.of_nat (write_buf_idx conn)) response_len) conn);
  register conn_id WRITABLE reregistered.

Definition start_large_response (conn_id : nat) (consumed : Z) (response_data : bytes) (total_filled : Z)
    (reregistered : bool) : io unit :=
  buffer_size ← gets (fun w => buffer_size (buffers w));
  conn ←? after_request conn_id consumed total_filled;
  '(chain, r) ← on_buffers (fill_chain buffer_size response_data);
  match r with
  | inl PoolExhausted => _ ←? noerr (on_buffers (release_chain (Some chain))); err Other
  | _ =>
      _ ←? put_conn conn_id
             (with_state (Writing USIZE_MAX 0 (chain_len chain)) (with_write_chain (Some chain) conn));
      register conn_id WRITABLE reregistered
  end.

(** The match on the result of the request. *)
Definition apply_result (conn_id : nat) (total_filled max_value_size : Z) (result : ProcessResult)
    (reregistered : bool) : io unit :=
  conn ←? get_conn conn_id;
  match result with
  | Request.NeedData =>
      put_conn conn_id (with_state (reading_with total_filled) conn)
  | NeedChain command_len value_len => need_chain conn_id total_filled command_len value_len max_value_size
  | Response consumed response_len => start_response conn_id consumed response_len total_filled reregistered
  | LargeResponse consumed response_data =>
      start_large_response conn_id consumed response_data total_filled reregistered
  | Quit => err ConnectionAborted
  | Request.Error => err InvalidData
  end.

Definition handle_readable (clock : nat -> Z) (conn_id : nat) (max_value_size : Z) (received : read_result)
    (reregistered : bool) : io unit :=
  conn ←? get_conn conn_id;
  match data_state conn with
  | Writing _ _ _ => ok tt
  | Reading filled =>
      p ← gets buffers;
      space ← lift (read_buf ← get_buffer p (read_buf_idx conn); slice read_buf filled (len read_buf));
      match read_into (len space) received with
      | ReadOk [] => err ConnectionReset
      | ReadWouldBlock => ok tt
      | ReadErr => err OsError
      | ReadOk d =>
          on_buffers (write_buffer (read_buf_idx conn) filled (filled + len d) d);;
          let total_filled := filled + len d in
          p ← gets buffers;
          input ← lift (read_buf ← get_buffer p (read_buf_idx conn); slice read_buf 0 total_filled);
          write_buf ← lift (get_buffer p (write_buf_idx conn));
          '(result, write_buf) ← on_storage (process clock (protocol conn) input write_buf max_value_size);
          on_buffers (set_buffer (write_buf_idx conn) write_buf);;
          apply_result conn_id total_filled max_value_size result reregistered
      end
  end.

(** ** Writing *)

(** A write call offered the bytes [offered]. *)
Definition send (socket : Z) (offered : bytes) (sent : write_result) : io (option Z) :=
  match write_from offered sent with
  | WriteOk n =>
      if n =? 0 then err WriteZero
      else modify (fun w => with_wire (wire w ++ [(socket, take (Z.to_nat n) offered)]) w);; ok (Some n)
  | WriteWouldBlock => ok None
  | WriteErr => err OsError
  end.

(** The bytes of the next write: from the chain when [buf_idx] is [usize::MAX], from
    the write buffer otherwise; [None] when a chain offers no slice. *)
Definition next_bytes (conn : MioConnection) (buf_idx written total : Z) : io (option bytes) :=
  p ← gets buffers;
  if buf_idx =? USIZE_MAX then
    match write_chain conn with
    | None => err InvalidData
    | Some chain =>
        slices ← lift (io_slices chain p written);
        ok (if bool_decide (slices = []) then None else Some (concat slices))
    end
  else
    data ← lift (buf ← get_buffer p (Z.to_nat buf_idx); slice buf written total);
    ok (Some data).

(** What follows a write of [n] bytes. *)
Definition finish_write (conn_id : nat) (buf_idx written total n : Z) (reregistered : bool) : io unit :=
  conn ←? get_conn conn_id;
  let new_written := written + n in
  if total <=? new_written then
    _ ←? put_conn conn_id (with_write_chain None conn);
    _ ←? noerr (on_buffers (release_chain (write_chain conn)));
    conn ←? get_conn conn_id;
    _ ←? put_conn conn_id (with_state reading conn);
    register conn_id READABLE reregistered
  else put_conn conn_id (with_state (Writing buf_idx new_written total) conn).

Definition handle_writable (conn_id : nat) (sent : write_result) (reregistered : bool) : io unit :=
  conn ←? get_conn conn_id;
  match data_state conn with
  | Reading _ => ok tt
  | Writing buf_idx written total =>
      offered ←? next_bytes conn buf_idx written total;
      match offered with
      | None => finish_write conn_id buf_idx written total 0 reregistered
      | Some data =>
          n ←? send (stream conn) data sent;
          match n with
          | Some n => finish_write conn_id buf_idx written total n reregistered
          | None => ok tt
          end
      end
  end.

(** ** The worker *)

(** An event of a connection: its readiness, and the answers of the operating system
    to the calls the handlers may make. *)
Record conn_event := mkEvent {
  is_readable : bool;
  is_writable : bool;
  received : read_result;
  sent : write_result;
  reregistered_r : bool;
  reregistered_w : bool;
  now : nat -> Z
}.

Definition handle_connection_event (conn_id : nat) (e : conn_event) (max_value_size : Z) : io unit := fun w =>
  if negb (slab_contains conn_id (connections w)) then Done (inr tt) w
  else
    (_ ←? (if is_readable e then handle_readable (now e) conn_id max_value_size (received e) (reregistered_r e)
           else ok tt);
     fun w =>
       if negb (slab_contains conn_id (connections w)) then Done (inr tt) w
       else (if is_writable e then handle_writable conn_id (sent e) (reregistered_w e) else ok tt) w) w.

Inductive Event : Type :=
| ListenerReady (accepted : list (Z * bool))
| ConnReady (conn_id : nat) (e : conn_event)
| PollFailed.

(** The constants of [worker_loop]. *)
Record settings := mkSettings {
  s_max_connections : Z;
  s_buffer_size : Z;
  s_max_value_size : Z;
  s_protocol : Protocol
}.

(** The body of [worker_loop] for one event; an error ends the worker. *)
Definition worker_event (cfg : settings) (e : Event) : io unit :=
  match e with
  | ListenerReady accepted => accept_connections (s_max_connections cfg) (s_protocol cfg) accepted
  | PollFailed => err OsError
  | ConnReady conn_id e =>
      r ← handle_connection_event conn_id e (s_max_value_size cfg);
      match r with
      | inr _ => ok tt
      | inl _ => noerr (close_connection conn_id)
      end
  end.

Fixpoint worker_loop (cfg : settings) (events : list Event) : io unit :=
  match events with
  | [] => ok tt
  | e :: rest => _ ←? worker_event cfg e; worker_loop cfg rest
  end.

(** The worker before its first event. *)
Definition worker_new (cfg : settings) (s : Storage) : Worker :=
  mkWorker slab_new (pool_new (Z.to_nat (s_max_connections cfg * 3)) (s_buffer_size cfg)) s ∅ [].

End mio.
