(* ===== verification/MioFacts.v ===== *)
(** * The mio event loop: the invariant of a worker

    [held] lists the pool buffers the connections own.  [view] is what a handler
    knows of the worker while it works on one connection: the connection itself, the
    buffers in hand, and that nothing else has changed. *)

From S2P Require Import Prelude RustStd Storage Memcached Resp Ping Echo Request RequestFacts RequestBounds.
From S2P Require Import Buffer BufferFacts Slab Connection Mio.

(** ** Ownership *)

Definition chain_bufs (c : option BufferChain) : list nat :=
  match c with Some c => chain_buffers c | None => [] end.

Definition owned (c : MioConnection) : list nat :=
  read_buf_idx c :: write_buf_idx c :: chain_bufs (read_chain c) ++ chain_bufs (write_chain c).

Lemma read_owned c : read_buf_idx c ∈ owned c.
Proof. apply list_elem_of_here. Qed.

Lemma write_owned c : write_buf_idx c ∈ owned c.
Proof. apply list_elem_of_further, list_elem_of_here. Qed.

#[local] Hint Resolve read_owned write_owned : core.

Definition held (m : gmap nat MioConnection) : list nat :=
  concat ((fun x => owned x.2) <$> map_to_list m).

Lemma held_insert m id c : m !! id = None -> held (<[id := c]> m) ≡ₚ owned c ++ held m.
Proof. intros H. unfold held. by rewrite map_to_list_insert. Qed.

Lemma held_delete m id c : m !! id = Some c -> held m ≡ₚ owned c ++ held (base.delete id m).
Proof.
  intros H. rewrite <- (held_insert _ id c) by apply lookup_delete_eq.
  by rewrite insert_delete_id.
Qed.

Lemma held_owned m id c : m !! id = Some c -> owned c ⊆ held m.
Proof. intros H i Hi. rewrite (held_delete _ _ _ H). set_solver. Qed.

(** ** The invariant *)

(** The interest that fits a state. *)
Definition wanted (d : DataState) : Interest :=
  match d with Reading _ => READABLE | Writing _ _ _ => WRITABLE end.

Definition state_ok (size : Z) (c : MioConnection) : Prop :=
  match data_state c with
  | Reading f => 0 <= f <= size /\ write_chain c = None
  | Writing b n t => 0 <= n <= t /\
      (b = Z.of_nat (write_buf_idx c) /\ t <= size /\ write_chain c = None \/
       b = USIZE_MAX /\ exists chain, write_chain c = Some chain /\
         chain_buffer_size chain = size /\ chain_len chain = t)
  end.

(** The limits a configuration must respect: sizes are positive and what is added up
    stays below [usize::MAX]. *)
Definition settings_ok (cfg : settings) : Prop :=
  0 <= s_max_connections cfg /\ 0 < s_buffer_size cfg /\ 0 <= s_max_value_size cfg /\
  s_max_connections cfg * 3 < USIZE_MAX /\
  2 * s_buffer_size cfg + s_max_value_size cfg <= I64_MAX - 2.

Section invariant.
Context `{BP : BuildProfile, LY : Layout, HO : HashOrder, UC : UnicodeCase, FL : FrameLayout}.
Context `{SL : SlabLib, LW : !SlabLaws}.
Context (cfg : settings).
Implicit Types (w : Worker) (F : Prop).

Abbreviation items w := (slab_items (connections w)).

(** [busy] is a connection whose registration may not fit its state yet. *)
Record winv (busy : option nat) (w : Worker) : Prop := {
  wi_pool : pool_inv (held (items w)) (buffers w);
  wi_size : pool_buffer_size (buffers w) = s_buffer_size cfg;
  wi_count : len (pool_buffers (buffers w)) = s_max_connections cfg * 3;
  wi_max : slab_len (connections w) <= s_max_connections cfg;
  wi_state : forall id c, items w !! id = Some c -> state_ok (s_buffer_size cfg) c;
  wi_dom : dom (poll w) = dom (items w);
  wi_poll : forall id c, items w !! id = Some c -> busy <> Some id -> poll w !! id = Some (wanted (data_state c))
}.

(** ** The view of a handler *)

Record view (id : nat) (w0 : Worker) (c : MioConnection) (mine : list nat) (w : Worker) : Prop := {
  v_items : items w = <[id := c]> (items w0);
  v_pool : pool_inv (mine ++ held (base.delete id (items w0))) (buffers w);
  v_frame : frame (held (base.delete id (items w0))) (buffers w0) (buffers w);
  v_poll : base.delete id (poll w) = base.delete id (poll w0);
  v_reg : is_Some (poll w !! id)
}.

#[global] Instance view_proper id w0 c : Proper ((≡ₚ) ==> eq ==> iff) (view id w0 c).
Proof.
  assert (H : forall X Y w, X ≡ₚ Y -> view id w0 c X w -> view id w0 c Y w).
  { intros X Y w HX [? Hp ? ? ?]. split; try done. by rewrite <- HX. }
  intros X Y HX w ? <-. split; apply H; [done|by symmetry].
Qed.

Lemma view_start busy id w c :
  winv busy w -> items w !! id = Some c -> view id w c (owned c) w.
Proof.
  intros Hi Hc. split; try done.
  - by rewrite insert_id.
  - rewrite <- (held_delete _ _ _ Hc). apply Hi.
  - apply elem_of_dom. rewrite (wi_dom _ _ Hi). apply elem_of_dom. by eexists.
Qed.

(** A handler that ends with a connection in a good state restores the invariant. *)
Lemma view_end id w0 c0 c w i :
  winv None w0 -> items w0 !! id = Some c0 -> view id w0 c (owned c) w ->
  state_ok (s_buffer_size cfg) c -> poll w !! id = Some i ->
  winv (if decide (i = wanted (data_state c)) then None else Some id) w.
Proof.
  intros Hi Hc [Vi Vp (_ & Vl & Vs) Vo _] Hs Hreg.
  assert (Hheld : held (items w) ≡ₚ owned c ++ held (base.delete id (items w0))).
  { rewrite Vi, <- insert_delete_eq. apply held_insert, lookup_delete_eq. }
  assert (Hother : forall j, j <> id -> poll w !! j = poll w0 !! j).
  { intros j Hj. rewrite <- (lookup_delete_ne (poll w) id j), Vo by done. by apply lookup_delete_ne. }
  split.
  - by rewrite Hheld.
  - rewrite Vs. apply Hi.
  - unfold len. rewrite Vl. apply Hi.
  - unfold slab_len. rewrite Vi, map_size_insert_Some by (by eexists). apply Hi.
  - intros j x. rewrite Vi. destruct (decide (j = id)) as [->|Hj].
    + rewrite lookup_insert_eq. by intros [= <-].
    + rewrite lookup_insert_ne by done. apply Hi.
  - rewrite Vi. rewrite dom_insert_lookup_L by (by eexists). rewrite <- (wi_dom _ _ Hi).
    apply set_eq. intros j. rewrite !elem_of_dom. destruct (decide (j = id)) as [->|Hj].
    + rewrite Hreg. split; [|by eexists]. intros _. apply elem_of_dom. rewrite (wi_dom _ _ Hi).
      apply elem_of_dom. by eexists.
    + by rewrite Hother.
  - intros j x. rewrite Vi. destruct (decide (j = id)) as [->|Hj].
    + rewrite lookup_insert_eq. intros [= <-]. case_decide; [by subst|done].
    + rewrite lookup_insert_ne, Hother by done. intros Hx _. by apply (wi_poll _ _ Hi).
Qed.

(** ** Steps of a handler *)

Lemma view_get F id w0 c X w (Q : io_error + MioConnection -> Worker -> Prop) :
  view id w0 c X w -> Q (inr c) w -> wp F (get_conn id) Q w.
Proof.
  intros V HQ. apply (wp_done _ _ _ _ (inr c) w); [|done]. unfold get_conn, slab_get.
  by rewrite (v_items _ _ _ _ _ V), lookup_insert_eq.
Qed.

Lemma view_update F id w0 c c' X w (Q : io_error + unit -> Worker -> Prop) :
  view id w0 c X w ->
  (forall w', view id w0 c' X w' -> buffers w' = buffers w -> storage w' = storage w ->
    poll w' = poll w -> wire w' = wire w -> Q (inr tt) w') ->
  wp F (put_conn id c') Q w.
Proof.
  intros [Vi Vp Vf Vo Vr] HQ. eapply wp_done; [done|]. apply HQ; try done. split; try done. simpl.
  rewrite slab_write_items; [by rewrite Vi, insert_insert_eq|]. rewrite Vi, lookup_insert_eq. by eexists.
Qed.

Lemma view_register F id w0 c X w i success (Q : io_error + unit -> Worker -> Prop) :
  view id w0 c X w ->
  (success = true -> view id w0 c X (with_poll (<[id := i]> (poll w)) w) ->
    Q (inr tt) (with_poll (<[id := i]> (poll w)) w)) ->
  (success = false -> Q (inl OsError) w) ->
  wp F (register id i success) Q w.
Proof.
  intros [Vi Vp Vf Vo Vr] H1 H2. destruct success; [|eapply wp_done; [done|by apply H2]].
  eapply wp_done; [done|]. apply H1; [done|]. split; try done; simpl.
  - by rewrite delete_insert_eq.
  - rewrite lookup_insert_eq. by eexists.
Qed.

(** A new pool. *)
Lemma view_buffers id w0 c X Y w p :
  view id w0 c X w -> pool_inv (Y ++ held (base.delete id (items w0))) p ->
  frame (held (base.delete id (items w0))) (buffers w) p -> view id w0 c Y (with_buffers p w).
Proof. intros [Vi Vp Vf Vo Vr] Hp Hf. split; try done. by etrans. Qed.

(** A buffer in hand is nobody else's. *)
Lemma mine_not_held id w0 c X w i :
  view id w0 c X w -> i ∈ X -> i ∉ held (base.delete id (items w0)).
Proof. intros V Hi. apply v_pool, held_NoDup, NoDup_app in V as (_ & Hd & _). by apply Hd. Qed.

Lemma release_chain_inv o rest p :
  pool_inv (chain_bufs o ++ rest) p ->
  exists p', release_chain o p = Done tt p' /\ pool_inv rest p' /\
    pool_buffers p' = pool_buffers p /\ pool_buffer_size p' = pool_buffer_size p.
Proof.
  intros Hp. destruct o as [c|]; [|by exists p]. simpl in *.
  destruct (free_many_inv _ _ _ Hp) as (p' & E & H & _ & Hb & Hs). exists p'. split_and!; try done.
  unfold release. rewrite (bind_done the_chain _ _ c (c, p)) by done.
  rewrite (bind_done (on_pool _) _ _ tt (c, p')) by (unfold on_pool; by rewrite E). done.
Qed.

Lemma view_release F id w0 c X o w (Q : io_error + unit -> Worker -> Prop) :
  view id w0 c (chain_bufs o ++ X) w ->
  (forall p', view id w0 c X (with_buffers p' w) -> pool_buffers p' = pool_buffers (buffers w) ->
    Q (inr tt) (with_buffers p' w)) ->
  wp F (noerr (on_buffers (release_chain o))) Q w.
Proof.
  intros V HQ. pose proof (v_pool _ _ _ _ _ V) as Hp. rewrite <- app_assoc in Hp.
  destruct (release_chain_inv _ _ _ Hp) as (p' & E & Hp' & Hb & Hs).
  apply wp_bind. eapply wp_zoom; [done|]. eapply wp_done; [done|]. apply HQ; [|done].
  eapply view_buffers; [done|done|]. by apply frame_eq.
Qed.

(** ** The handlers keep the invariant *)

(** What belongs to a connection for life. *)
Definition same_conn (c0 c : MioConnection) : Prop :=
  stream c = stream c0 /\ protocol c = protocol c0 /\
  read_buf_idx c = read_buf_idx c0 /\ write_buf_idx c = write_buf_idx c0.

(** The rest of the worker when a handler only touches its connection and buffers. *)
Definition quiet w w' : Prop := storage w' = storage w /\ poll w' = poll w /\ wire w' = wire w.

#[local] Instance quiet_preorder : PreOrder quiet.
Proof. split; [done|]. intros x y z (? & ? & ?) (? & ? & ?). unfold quiet. split_and!; congruence. Qed.

(** How a handler of [id], which was [c0], ends: the connection is in a good state, its
    registration fits unless an error is reported, and only its socket was written
    to. *)
Definition handled (id : nat) (w0 : Worker) (c0 : MioConnection) (r : io_error + unit) (w : Worker) : Prop :=
  exists c, view id w0 c (owned c) w /\ state_ok (s_buffer_size cfg) c /\ same_conn c0 c /\
    (r = inr tt -> poll w !! id = Some (wanted (data_state c))) /\
    exists out, wire w = wire w0 ++ ((stream c0,.) <$> out).

Lemma view_size id w0 c X w :
  winv None w0 -> view id w0 c X w ->
  pool_buffer_size (buffers w) = s_buffer_size cfg.
Proof. intros Hi [_ _ (_ & _ & ->) _ _]. apply Hi. Qed.

Lemma view_lookup id w0 c X w i :
  winv None w0 -> view id w0 c X w -> i ∈ X ->
  exists b, pool_buffers (buffers w) !! i = Some b /\ len b = s_buffer_size cfg.
Proof.
  intros Hi V HX. destruct (held_lookup _ _ i (v_pool _ _ _ _ _ V)) as (b & Hb & Hl); [set_solver|].
  exists b. split; [done|]. by rewrite Hl, (view_size _ _ _ _ _ Hi V).
Qed.

(** Writing into a buffer in hand. *)
Lemma view_write id w0 c X w i b a src :
  view id w0 c X w -> i ∈ X -> pool_buffers (buffers w) !! i = Some b -> 0 <= a -> a + len src <= len b ->
  exists p', write_buffer i a (a + len src) src (buffers w) = Done tt p' /\
    view id w0 c X (with_buffers p' w) /\
    pool_buffers p' = <[i := take (Z.to_nat a) b ++ src ++ drop (Z.to_nat (a + len src)) b]> (pool_buffers (buffers w)).
Proof.
  intros V HX Hb Ha Hl. destruct (write_buffer_inv _ _ _ _ a src (v_pool _ _ _ _ _ V) Hb Ha Hl)
    as (b' & p' & E & Hp & -> & Hb' & _ & Hs). exists p'. split_and!; try done.
  eapply view_buffers; [done|done|]. eapply frame_insert; [by eapply mine_not_held|done|done].
Qed.

Lemma move_leftover_ok id w0 c X w i consumed total :
  winv None w0 -> view id w0 c X w -> i ∈ X -> 0 <= consumed -> total <= s_buffer_size cfg ->
  exists p', move_leftover i consumed total (buffers w) = Done tt p' /\
    view id w0 c X (with_buffers p' w) /\
    forall j, j <> i -> pool_buffers p' !! j = pool_buffers (buffers w) !! j.
Proof.
  intros Hi V HX Hc Ht. unfold move_leftover. destruct (_ <? _) eqn:E; boolify.
  - destruct (view_lookup _ _ _ _ _ _ Hi V HX) as (b & Hb & Hl). rewrite (get_buffer_Val _ _ _ Hb).
    cbn [mbind comp_bind].
    assert (Hs : exists q, slice b consumed total = Val q /\ len q = total - consumed).
    { unfold slice. rewrite !(proj2 (Z.leb_le _ _)) by lia. eexists. split; [done|].
      unfold len in *. rewrite length_take, length_drop. lia. }
    destruct Hs as (q & -> & Hq). rewrite <- Hq.
    destruct (view_write _ _ _ _ _ _ _ 0 q V HX Hb ltac:(done) ltac:(lia)) as (p' & Ew & V' & Hb').
    rewrite Z.add_0_l in *. exists p'. split_and!; try done. intros j Hj. rewrite Hb'.
    by apply list_lookup_insert_ne.
  - exists (buffers w). split_and!; try done. destruct w. done.
Qed.

Lemma after_request_ok F id w0 c w consumed total (Q : io_error + MioConnection -> Worker -> Prop) :
  winv None w0 -> view id w0 c (owned c) w -> write_chain c = None ->
  0 <= consumed -> total <= s_buffer_size cfg ->
  (forall w', view id w0 (with_read_chain None c) (owned (with_read_chain None c)) w' -> quiet w w' ->
    (forall j, j <> read_buf_idx c -> pool_buffers (buffers w') !! j = pool_buffers (buffers w) !! j) ->
    Q (inr (with_read_chain None c)) w') ->
  wp F (after_request id consumed total) Q w.
Proof.
  intros Hi V Hwc Hc Ht HQ. unfold after_request. apply wp_try. eapply view_get; [done|].
  destruct (move_leftover_ok id w0 c (owned c) w (read_buf_idx c) consumed total Hi V) as (p1 & E1 & V1 & H1);
    [set_solver|done|done|].
  apply wp_try, wp_bind. eapply wp_zoom; [done|]. eapply wp_done; [done|].
  apply wp_try. eapply view_get; [done|].
  apply wp_try. eapply view_update; [done|]. intros w2 V2 B2 S2 P2 W2.
  apply wp_try. eapply (view_release F id w0 (with_read_chain None c) (owned (with_read_chain None c))).
  { unfold owned in *. simpl. rewrite Hwc in *. simpl in *. rewrite app_nil_r in V2.
    by rewrite <- Permutation_middle, <- Permutation_middle, app_nil_r. }
  intros p3 V3 B3. eapply view_get; [done|]. apply HQ; [done| |].
  - unfold quiet. simpl in *. split_and!; congruence.
  - intros j Hj. simpl in *. rewrite B3, B2. by apply H1.
Qed.

(** The end of a handler that changes nothing but the connection's record. *)
Lemma handled_intro id w0 c0 c w r :
  view id w0 c (owned c) w -> state_ok (s_buffer_size cfg) c -> same_conn c0 c ->
  wire w = wire w0 -> (r = inr tt -> poll w !! id = Some (wanted (data_state c))) ->
  handled id w0 c0 r w.
Proof.
  intros V Hs Hc Hw Hp. exists c. split_and!; try done. exists []. by rewrite app_nil_r.
Qed.

Lemma start_response_ok F id w0 c0 c w consumed n total reg :
  winv None w0 -> view id w0 c (owned c) w -> same_conn c0 c -> write_chain c = None ->
  wire w = wire w0 -> 0 <= consumed -> total <= s_buffer_size cfg -> 0 <= n <= s_buffer_size cfg ->
  wp F (start_response id consumed n total reg) (handled id w0 c0) w.
Proof.
  intros Hi V Hsame Hwc Hw Hc Ht Hn. unfold start_response. apply wp_try.
  eapply after_request_ok; [done..|]. intros w1 V1 (S1 & P1 & W1) _.
  apply wp_try. eapply view_update; [done|]. intros w2 V2 B2 S2 P2 W2.
  set (c2 := with_state _ _) in *.
  assert (Hs2 : state_ok (s_buffer_size cfg) c2) by (split; [simpl; lia|]; left; split_and!; [done|lia|done]).
  eapply view_register; [exact V2| |]; intros _; [intros V3|];
    (eapply (handled_intro _ _ _ c2); [exact V3 || exact V2|try done; simpl in *..]); try congruence.
  intros _. by rewrite lookup_insert_eq.
Qed.

Lemma fill_chain_inv rest p size d :
  pool_inv rest p -> size = pool_buffer_size p -> 0 < size ->
  exists c r p', fill_chain size d p = Done (c, r) p' /\ pool_inv (chain_buffers c ++ rest) p' /\
    frame rest p p' /\ chain_buffer_size c = size /\
    match r with
    | inl e => e = PoolExhausted
    | inr _ => chain_inv rest c p' d
    end.
Proof.
  intros Hp -> Hs. assert (Hc : chain_inv rest (chain_new (pool_buffer_size p)) p []).
  { split; try done. right. by split. }
  destruct (append_ok _ _ _ _ d Hc) as (r & c & p' & n & E & Hc' & Hf & Hr).
  exists c, r, p'. unfold fill_chain. rewrite E. split_and!; try done; [apply Hc'| |].
  - rewrite (ci_size _ _ _ _ Hc'). apply Hf.
  - destruct r as [e|]; [by destruct Hr|]. by rewrite Hr in Hc'.
Qed.

Lemma start_large_response_ok F id w0 c0 c w consumed d total reg :
  winv None w0 -> settings_ok cfg -> view id w0 c (owned c) w -> same_conn c0 c -> write_chain c = None ->
  (exists f, data_state c = Reading f /\ 0 <= f <= s_buffer_size cfg) ->
  wire w = wire w0 -> 0 <= consumed -> total <= s_buffer_size cfg ->
  wp F (start_large_response id consumed d total reg) (handled id w0 c0) w.
Proof.
  intros Hi (_ & Hpos & _) V Hsame Hwc (f & Hf & Hfr) Hw Hc Ht. unfold start_large_response.
  apply wp_bind. eapply wp_done; [done|]. apply wp_try.
  eapply after_request_ok; [done..|]. intros w1 V1 (S1 & P1 & W1) _. set (c1 := with_read_chain None c) in *.
  unfold buffer_size. rewrite (view_size _ _ _ _ _ Hi V).
  destruct (fill_chain_inv _ _ (s_buffer_size cfg) d (v_pool _ _ _ _ _ V1)) as (ch & r & p2 & E & Hp2 & Hf2 & Hsz & Hr);
    [by rewrite (view_size _ _ _ _ _ Hi V1)|done|].
  apply wp_bind. eapply wp_zoom; [done|].
  assert (V2 : view id w0 c1 (chain_buffers ch ++ owned c1) (with_buffers p2 w1)).
  { eapply view_buffers; [done|by rewrite <- app_assoc|]. eapply frame_sub; [|done]. set_solver. }
  destruct r as [e|[]].
  - subst e. apply wp_try. eapply (view_release F id w0 c1 (owned c1) (Some ch)); [done|].
    intros p3 V3 _. eapply wp_done; [done|]. eapply (handled_intro _ _ _ c1); try done; simpl; [|congruence].
    unfold state_ok. simpl. by rewrite Hf.
  - apply wp_try. eapply view_update; [done|]. intros w3 V3 B3 S3 P3 W3. set (c3 := with_state _ _) in *.
    assert (Hs3 : state_ok (s_buffer_size cfg) c3).
    { split; [rewrite (ci_len _ _ _ _ Hr); pose proof (len_nonneg d); lia|]. right. split; [done|]. by exists ch. }
    assert (V3' : view id w0 c3 (owned c3) w3).
    { unfold owned, c3, c1 in *. simpl in *. rewrite Hwc in V3. simpl in V3.
      by rewrite (Permutation_app_comm (chain_buffers ch)) in V3. }
    eapply view_register; [exact V3'| |]; intros _; [intros V4|];
      (eapply (handled_intro _ _ _ c3); [exact V4 || exact V3'|try done; simpl in *..]); try congruence.
    intros _. by rewrite lookup_insert_eq.
Qed.

Lemma push_buffers l c :
  chain_buffers (fold_left (fun c idx => push_buffer idx c) l c) = chain_buffers c ++ l.
Proof.
  revert c. induction l as [|i l IH]; intros c; simpl; [by rewrite app_nil_r|].
  rewrite IH. unfold push_buffer, push. simpl. by rewrite <- app_assoc.
Qed.

(** Adding to the read chain what was allocated. *)
Lemma view_chain_grown id w0 c chain l w :
  chain_buffers chain = chain_bufs (read_chain c) ++ l ->
  view id w0 (with_read_chain (Some chain) c) (l ++ owned c) w ->
  view id w0 (with_read_chain (Some chain) c) (owned (with_read_chain (Some chain) c)) w.
Proof.
  intros Hl. unfold owned. simpl. rewrite Hl. intros V.
  assert (Hp : l ++ read_buf_idx c :: write_buf_idx c :: chain_bufs (read_chain c) ++ chain_bufs (write_chain c)
    ≡ₚ read_buf_idx c :: write_buf_idx c :: (chain_bufs (read_chain c) ++ l) ++ chain_bufs (write_chain c))
    by solve_Permutation.
  by rewrite Hp in V.
Qed.

Lemma need_chain_ok F id w0 c0 c w total command_len value_len :
  winv None w0 -> settings_ok cfg -> view id w0 c (owned c) w -> same_conn c0 c -> write_chain c = None ->
  wire w = wire w0 -> 0 <= total <= s_buffer_size cfg -> poll w !! id = Some READABLE ->
  (exists f, data_state c = Reading f /\ 0 <= f <= s_buffer_size cfg) ->
  0 <= command_len <= s_buffer_size cfg -> 0 <= value_len <= s_max_value_size cfg ->
  wp F (need_chain id total command_len value_len (s_max_value_size cfg)) (handled id w0 c0) w.
Proof.
  intros Hi (Hm & Hpos & Hv & Hmax & Hbig) V Hsame Hwc Hw Ht Hp (f & Hf & Hfr) Hcl Hvl.
  unfold I64_MAX in Hbig. unfold need_chain. apply wp_bind. eapply wp_done; [done|].
  unfold buffer_size. rewrite (view_size _ _ _ _ _ Hi V), (proj2 (Z.ltb_ge _ _)) by lia.
  apply wp_bind. eapply wp_lift.
  { rewrite usize_add_small by (unfold USIZE_MAX, U64_MAX; lia). cbn [mbind comp_bind].
    apply usize_add_small. unfold USIZE_MAX, U64_MAX. lia. }
  apply wp_bind. eapply wp_lift.
  { rewrite (proj2 (Z.eqb_neq _ 0)), usize_add_small by (unfold USIZE_MAX, U64_MAX; lia). done. }
  set (needed := (_ / _)). apply wp_try. eapply view_get; [done|].
  set (chain := default _ _). assert (Hch : chain_buffers chain = chain_bufs (read_chain c)).
  { unfold chain. by destruct (read_chain c). }
  apply wp_try. eapply view_update; [done|]. intros w1 V1 B1 S1 P1 W1.
  apply wp_try. set (c1 := with_read_chain _ c) in *.
  assert (Hdone : forall w2 c2, view id w0 c2 (owned c2) w2 -> same_conn c0 c2 -> write_chain c2 = None ->
    quiet w1 w2 -> wp F (conn ←? get_conn id; put_conn id (with_state (reading_with total) conn)) (handled id w0 c0) w2).
  { intros w2 c2 V2 Hs2 Hwc2 (S2 & P2 & W2). apply wp_try. eapply view_get; [done|]. eapply view_update; [done|].
    intros w3 V3 B3 S3 P3 W3. eapply (handled_intro _ _ _ (with_state (reading_with total) c2)); [exact V3|by split|done|congruence|].
    intros _. simpl. congruence. }
  assert (V1' : view id w0 c1 (owned c1) w1).
  { eapply (view_chain_grown _ _ _ _ []); [by rewrite app_nil_r|done]. }
  destruct (_ <? needed).
  - destruct (alloc_many_inv (Z.to_nat (needed - buffer_count chain)) _ _ (v_pool _ _ _ _ _ V1'))
      as [E|(l & p' & E & Hp' & _ & Hb & Hs)].
    + apply wp_bind. eapply wp_zoom; [done|]. eapply wp_done; [done|].
      eapply (handled_intro _ _ _ c1); [by destruct w1| |done|simpl in *; congruence|done].
      unfold state_ok. simpl. by rewrite Hf.
    + apply wp_bind. eapply wp_zoom; [done|].
      assert (V2 : view id w0 c1 (l ++ owned c1) (with_buffers p' w1)).
      { eapply view_buffers; [done|by rewrite <- app_assoc|by apply frame_eq]. }
      apply wp_try. eapply view_get; [done|]. eapply view_update; [done|]. intros w3 V3 B3 S3 P3 W3.
      eapply Hdone; [eapply (view_chain_grown _ _ c1 _ l); [|exact V3]|done|done|].
      * rewrite push_buffers. done.
      * done.
  - eapply wp_done; [done|]. by eapply Hdone.
Qed.

(** A call of the request layer from a handler. *)
Lemma apply_result_ok F id w0 c0 c w total result reg input output :
  winv None w0 -> settings_ok cfg -> view id w0 c (owned c) w -> same_conn c0 c -> write_chain c = None ->
  wire w = wire w0 -> 0 <= total <= s_buffer_size cfg -> poll w !! id = Some READABLE ->
  (exists f, data_state c = Reading f /\ 0 <= f <= s_buffer_size cfg) ->
  len input = total -> len output = s_buffer_size cfg ->
  result_in input output (s_max_value_size cfg) 2 result ->
  wp F (apply_result id total (s_max_value_size cfg) result.1 reg) (handled id w0 c0) w.
Proof.
  intros Hi Hcfg V Hsame Hwc Hw Ht Hp Hf Hin Hout [_ Hr]. unfold apply_result. apply wp_try.
  eapply view_get; [done|].
  assert (Herr : forall e, handled id w0 c0 (inl e) w).
  { intros e. eapply handled_intro; try done. destruct Hf as (f & Hf & ?). unfold state_ok. by rewrite Hf. }
  destruct result as [[| command_len value_len| consumed n| consumed d| |] out]; simpl in Hr |- *;
    [|destruct Hr|destruct Hr|destruct Hr|by eapply wp_done..].
  - eapply view_update; [done|]. intros w1 V1 B1 S1 P1 W1.
    eapply (handled_intro _ _ _ (with_state (reading_with total) c)); [exact V1|by split|done|congruence|].
    intros _. simpl. congruence.
  - eapply need_chain_ok; try done; lia.
  - eapply start_response_ok; try done; lia.
  - eapply start_large_response_ok; try done; lia.
Qed.

(** The read [r] brings bytes to the connection [c], and the request layer does not
    return on what the connection had read before followed by these bytes. *)
Definition request_fails (clock : nat -> Z) (c : MioConnection) (r : read_result) (w : Worker) : Prop :=
  exists f b o d, data_state c = Reading f /\
    pool_buffers (buffers w) !! read_buf_idx c = Some b /\ pool_buffers (buffers w) !! write_buf_idx c = Some o /\
    read_into (len b - f) r = ReadOk d /\ d <> [] /\
    forall a s', process clock (protocol c) (take (Z.to_nat f) b ++ d) o (s_max_value_size cfg) (storage w) <> Done a s'.

Lemma process_result_in clock proto input output s res s' :
  settings_ok cfg -> len input <= s_buffer_size cfg -> len output = s_buffer_size cfg ->
  process clock proto input output (s_max_value_size cfg) s = Done res s' ->
  result_in input output (s_max_value_size cfg) 2 res.
Proof.
  intros (_ & _ & Hv & _ & Hbig) Hi Ho E. apply process_post in E as [Hl Hr]; [|lia|done].
  split; [done|]. destruct res as [[] out], proto; simpl in *; try done; lia.
Qed.

(** What a read does to the buffers of the connection, up to the request. *)
Lemma read_input id w0 c w filled b d :
  view id w0 c (owned c) w -> pool_buffers (buffers w) !! read_buf_idx c = Some b ->
  0 <= filled -> filled + len d <= len b ->
  exists p', write_buffer (read_buf_idx c) filled (filled + len d) d (buffers w) = Done tt p' /\
    view id w0 c (owned c) (with_buffers p' w) /\
    pool_buffers p' !! read_buf_idx c = Some (take (Z.to_nat filled) b ++ d ++ drop (Z.to_nat (filled + len d)) b) /\
    slice (take (Z.to_nat filled) b ++ d ++ drop (Z.to_nat (filled + len d)) b) 0 (filled + len d) =
      Val (take (Z.to_nat filled) b ++ d) /\
    (forall j, j <> read_buf_idx c -> pool_buffers p' !! j = pool_buffers (buffers w) !! j).
Proof.
  intros V Hb Hf Hl. destruct (view_write _ _ _ _ _ _ _ filled d V (read_owned c) Hb Hf Hl) as (p' & E & V' & Hb').
  exists p'. split_and!; try done.
  - rewrite Hb'. apply list_lookup_insert_eq. by eapply lookup_lt_Some.
  - assert (Ht : len (take (Z.to_nat filled) b ++ d) = filled + len d).
    { rewrite len_app. unfold len in *. rewrite length_take. lia. }
    rewrite app_assoc, <- Ht. apply slice_prefix.
  - intros j Hj. rewrite Hb'. by apply list_lookup_insert_ne.
Qed.

Lemma owned_distinct id w0 c w : view id w0 c (owned c) w -> write_buf_idx c <> read_buf_idx c.
Proof.
  intros V. apply v_pool, held_NoDup, NoDup_app in V as (V & _ & _). apply NoDup_cons in V as [V _].
  intros E. apply V. rewrite <- E. apply list_elem_of_here.
Qed.

Lemma view_set id w0 c X w i b b' :
  view id w0 c X w -> i ∈ X -> pool_buffers (buffers w) !! i = Some b -> len b' = len b ->
  exists p', set_buffer i b' (buffers w) = Done tt p' /\ view id w0 c X (with_buffers p' w) /\
    pool_buffers p' = <[i := b']> (pool_buffers (buffers w)).
Proof.
  intros V HX Hb Hl. eexists. split_and!; [done| |done].
  eapply view_buffers; [done|by eapply pool_inv_write, Hl; [apply V|]|].
  eapply frame_insert; [by eapply mine_not_held|done|done].
Qed.

Lemma view_storage id w0 c X w s : view id w0 c X w -> view id w0 c X (with_storage s w).
Proof. by intros []. Qed.

(** A read that brings the bytes [d], up to the match on the result of the request. *)
Lemma handle_readable_run F clock id w0 c f b o r d reg Q :
  winv None w0 -> items w0 !! id = Some c -> data_state c = Reading f -> 0 <= f <= len b ->
  pool_buffers (buffers w0) !! read_buf_idx c = Some b ->
  pool_buffers (buffers w0) !! write_buf_idx c = Some o ->
  read_into (len b - f) r = ReadOk d -> d <> [] ->
  match process clock (protocol c) (take (Z.to_nat f) b ++ d) o (s_max_value_size cfg) (storage w0) with
  | Done (res, out) s' =>
      len out = len o /\
      forall w, view id w0 c (owned c) w -> storage w = s' -> poll w = poll w0 -> wire w = wire w0 ->
        pool_buffers (buffers w) !! write_buf_idx c = Some out ->
        pool_buffers (buffers w) !! read_buf_idx c =
          Some (take (Z.to_nat f) b ++ d ++ drop (Z.to_nat (f + len d)) b) ->
        wp F (apply_result id (f + len d) (s_max_value_size cfg) res reg) Q w
  | _ => F
  end ->
  wp F (handle_readable clock id (s_max_value_size cfg) r reg) Q w0.
Proof.
  intros Hi Hc Ed Hf Hb Ho Hr Hd HQ. pose proof (view_start _ _ _ _ Hi Hc) as V.
  apply wp_try. eapply view_get; [done|]. rewrite Ed.
  apply wp_bind. eapply wp_done; [done|]. apply wp_bind. eapply wp_lift.
  { rewrite (get_buffer_Val _ _ _ Hb). cbn [mbind comp_bind]. unfold slice.
    rewrite !(proj2 (Z.leb_le _ _)) by lia. done. }
  assert (Hsp : len (take (Z.to_nat (len b - f)) (drop (Z.to_nat f) b)) = len b - f).
  { unfold len in *. rewrite length_take, length_drop. lia. }
  rewrite Hsp, Hr. assert (Hl : f + len d <= len b).
  { destruct r; try done. simpl in Hr. injection Hr as <-. unfold len. rewrite length_take. unfold len in *. lia. }
  destruct d as [|x l] eqn:Ed'; [done|]. rewrite <- Ed' in *. clear Ed' x l Hd.
  destruct (read_input _ _ _ _ f b d V Hb ltac:(lia) Hl) as (p1 & E1 & V1 & Hb1 & Hsl & Hother).
  apply wp_bind. eapply wp_zoom; [done|]. apply wp_bind. eapply wp_done; [done|]. apply wp_bind. eapply wp_lift.
  { simpl. rewrite (get_buffer_Val _ _ _ Hb1). cbn [mbind comp_bind]. done. }
  pose proof (owned_distinct _ _ _ _ V) as Hne.
  assert (Ho1 : pool_buffers p1 !! write_buf_idx c = Some o) by (by rewrite Hother).
  apply wp_bind. eapply wp_lift; [by apply get_buffer_Val|].
  apply wp_bind. unfold on_storage, zoom, wp at 1. simpl storage.
  destruct (process _ _ _ _ _ _) as [[res out] s'|s'|s']; [|done..]. destruct HQ as [Hlo HQ]. apply (view_storage _ _ _ _ _ s') in V1.
  destruct (view_set _ _ _ _ _ (write_buf_idx c) o out V1 (write_owned c) Ho1 Hlo) as (p2 & E2 & V2 & Hp2).
  apply wp_bind. eapply wp_zoom; [done|]. apply HQ; try done; simpl; rewrite Hp2; simpl.
  - apply list_lookup_insert_eq. by eapply lookup_lt_Some.
  - rewrite list_lookup_insert_ne by done. done.
Qed.

(** A read that brings nothing. *)
Lemma handle_readable_none F clock id w0 c f b r reg Q :
  items w0 !! id = Some c -> data_state c = Reading f -> 0 <= f <= len b ->
  pool_buffers (buffers w0) !! read_buf_idx c = Some b ->
  match read_into (len b - f) r with
  | ReadOk [] => Q (inl ConnectionReset) w0
  | ReadOk _ => False
  | ReadWouldBlock => Q (inr tt) w0
  | ReadErr => Q (inl OsError) w0
  end ->
  wp F (handle_readable clock id (s_max_value_size cfg) r reg) Q w0.
Proof.
  intros Hc Ed Hf Hb HQ. apply wp_try. apply (wp_done _ _ _ _ (inr c) w0).
  { unfold get_conn, slab_get. by rewrite Hc. }
  rewrite Ed. apply wp_bind. eapply wp_done; [done|]. apply wp_bind. eapply wp_lift.
  { rewrite (get_buffer_Val _ _ _ Hb). cbn [mbind comp_bind]. unfold slice.
    rewrite !(proj2 (Z.leb_le _ _)) by lia. done. }
  assert (Hsp : len (take (Z.to_nat (len b - f)) (drop (Z.to_nat f) b)) = len b - f).
  { unfold len in *. rewrite length_take, length_drop. lia. }
  rewrite Hsp. destruct (read_into _ _) as [[]| |]; try done; by eapply wp_done.
Qed.

Lemma handle_readable_ok clock id w0 c0 r reg :
  winv None w0 -> settings_ok cfg -> items w0 !! id = Some c0 ->
  wp (request_fails clock c0 r w0)
    (handle_readable clock id (s_max_value_size cfg) r reg) (handled id w0 c0) w0.
Proof.
  intros Hi Hcfg Hc. pose proof (view_start _ _ _ _ Hi Hc) as V. pose proof (wi_state _ _ Hi _ _ Hc) as Hs.
  pose proof (wi_poll _ _ Hi _ _ Hc ltac:(done)) as Hreg. pose proof Hs as Hs0. unfold state_ok in Hs.
  assert (Hend : forall r, handled id w0 c0 r w0) by (intros r'; by eapply handled_intro).
  destruct (data_state c0) as [f|] eqn:Ed.
  2: { apply wp_try. eapply view_get; [done|]. rewrite Ed. by eapply wp_done. }
  destruct Hs as [Hf Hwc]. destruct (view_lookup _ _ _ _ _ _ Hi V (read_owned c0)) as (b & Hb & Hl).
  destruct (view_lookup _ _ _ _ _ _ Hi V (write_owned c0)) as (o & Ho & Hlo). rewrite <- Hl in Hf.
  destruct (read_into (len b - f) r) as [d| |] eqn:Er;
    [|eapply handle_readable_none; try done; by rewrite Er..].
  destruct (decide (d = [])) as [->|Hd]; [eapply handle_readable_none; try done; by rewrite Er|].
  assert (Hfit : len (take (Z.to_nat f) b ++ d) = f + len d /\ f + len d <= len b).
  { destruct r; try done. simpl in Er. injection Er as <-. rewrite len_app. unfold len in *.
    rewrite !length_take. lia. }
  destruct Hfit as [Hin Hfit]. pose proof (len_nonneg d).
  eapply handle_readable_run; try done.
  destruct (process _ _ _ _ _ _) as [[res out] s'|s'|s'] eqn:Ep;
    [|exists f, b, o, d; split_and!; try done; intros ? ?; by rewrite Ep..].
  assert (Hle : len (take (Z.to_nat f) b ++ d) <= s_buffer_size cfg) by lia.
  pose proof (process_result_in _ _ _ _ _ _ _ Hcfg Hle Hlo Ep) as Hr.
  split; [by destruct Hr|]. intros w V1 _ P1 W1 _ _.
  eapply (apply_result_ok _ _ _ _ _ _ _ (res, out)); try done; try lia; [by rewrite P1|].
  exists f. split; [done|]. lia.
Qed.

(** ** Writing *)

Lemma next_bytes_ok id w0 c w b n t :
  winv None w0 -> settings_ok cfg -> view id w0 c (owned c) w ->
  data_state c = Writing b n t -> state_ok (s_buffer_size cfg) c ->
  exists o, next_bytes c b n t w = Done (inr o) w /\
    match o with Some d => len d <= t - n | None => True end.
Proof.
  intros Hi (Hm & Hpos & _ & Hmax & _) V Ed Hs. unfold state_ok in Hs. rewrite Ed in Hs.
  destruct Hs as [Hn Hs]. unfold next_bytes. rewrite (bind_done (gets buffers) _ _ (buffers w) w) by done.
  destruct Hs as [(-> & Ht & Hwc)|(-> & ch & Hwc & Hsz & Hlen)].
  - destruct (view_lookup _ _ _ _ _ (write_buf_idx c) Hi V (write_owned c)) as (buf & Hb & Hl).
    assert (Hlt : Z.of_nat (write_buf_idx c) < USIZE_MAX).
    { apply lookup_lt_Some in Hb. destruct V as [_ _ (_ & Vl & _) _ _]. pose proof (wi_count _ _ Hi) as Hcnt.
      unfold len in Hcnt. lia. }
    rewrite (proj2 (Z.eqb_neq _ _)) by lia. rewrite Nat2Z.id, (get_buffer_Val _ _ _ Hb).
    assert (Hsl : exists d, slice buf n t = Val d /\ len d <= t - n).
    { unfold slice. rewrite !(proj2 (Z.leb_le _ _)) by lia. eexists. split; [done|].
      unfold len. rewrite length_take. lia. }
    destruct Hsl as (d & Hd & Hld). exists (Some d). cbn [mbind comp_bind].
    rewrite (bind_done (lift _) _ _ d w) by (by rewrite Hd). done.
  - rewrite Z.eqb_refl, Hwc.
    assert (Hp : pool_inv (chain_buffers ch ++ (read_buf_idx c :: write_buf_idx c :: chain_bufs (read_chain c)) ++
      held (base.delete id (items w0))) (buffers w)).
    { pose proof (v_pool _ _ _ _ _ V) as Hp. unfold owned in Hp. rewrite Hwc in Hp. simpl in Hp.
      rewrite app_assoc, (Permutation_app_comm (chain_buffers ch)). by simpl; rewrite <- app_assoc in *. }
    destruct (io_slices_bound _ ch (buffers w) n Hp) as (cs & E & Hcs);
      [by rewrite (view_size _ _ _ _ _ Hi V)|by rewrite (view_size _ _ _ _ _ Hi V)|lia|].
    exists (if bool_decide (cs = []) then None else Some (concat cs)).
    rewrite (bind_done (lift _) _ _ cs w) by (by rewrite E). split; [done|].
    case_bool_decide; [done|]. lia.
Qed.

(** Handlers that may have written to the socket. *)
Lemma handled_out id w0 c0 c w r out :
  view id w0 c (owned c) w -> state_ok (s_buffer_size cfg) c -> same_conn c0 c ->
  wire w = wire w0 ++ ((stream c0,.) <$> out) -> (r = inr tt -> poll w !! id = Some (wanted (data_state c))) ->
  handled id w0 c0 r w.
Proof. intros V Hs Hc Hw Hp. exists c. split_and!; try done. by exists out. Qed.

Lemma finish_write_ok F id w0 c0 c w b n t k reg out :
  winv None w0 -> view id w0 c (owned c) w -> same_conn c0 c -> data_state c = Writing b n t ->
  state_ok (s_buffer_size cfg) c -> 0 < s_buffer_size cfg -> 0 <= k ->
  wire w = wire w0 ++ ((stream c0,.) <$> out) -> poll w !! id = Some WRITABLE ->
  wp F (finish_write id b n t k reg) (handled id w0 c0) w.
Proof.
  intros Hi V Hsame Ed Hs Hpos Hk Hw Hp. unfold finish_write. apply wp_try. eapply view_get; [done|].
  cbv zeta. destruct (t <=? n + k) eqn:E; boolify.
  - apply wp_try. eapply view_update; [done|]. intros w1 V1 B1 S1 P1 W1. set (c1 := with_write_chain None c) in *.
    apply wp_try. eapply (view_release _ id w0 c1 (owned c1)).
    { unfold owned, c1 in *. simpl in *.
      assert (Hperm : read_buf_idx c :: write_buf_idx c :: chain_bufs (read_chain c) ++ chain_bufs (write_chain c)
        ≡ₚ chain_bufs (write_chain c) ++ read_buf_idx c :: write_buf_idx c :: chain_bufs (read_chain c) ++ [])
        by (rewrite app_nil_r; solve_Permutation).
      by rewrite Hperm in V1. }
    intros p2 V2 _. apply wp_try. eapply view_get; [done|].
    apply wp_try. eapply view_update; [done|]. intros w3 V3 B3 S3 P3 W3. set (c3 := with_state reading c1) in *.
    assert (Hs3 : state_ok (s_buffer_size cfg) c3) by (split; [lia|done]). simpl in *.
    eapply view_register; [exact V3| |]; intros _; [intros V4|];
      (eapply (handled_out _ _ _ c3 _ _ out); [exact V4 || exact V3|try done; simpl in *..]); try congruence.
    intros _. by rewrite lookup_insert_eq.
  - eapply view_update; [done|]. intros w1 V1 B1 S1 P1 W1.
    eapply (handled_out _ _ _ (with_state (Writing b (n + k) t) c) _ _ out); [exact V1| |done|congruence|].
    + unfold state_ok in *. rewrite Ed in Hs. simpl. destruct Hs as [? Hs]. split; [lia|done].
    + intros _. simpl. congruence.
Qed.

Lemma handle_writable_ok F id w0 c0 s reg :
  winv None w0 -> settings_ok cfg -> items w0 !! id = Some c0 ->
  wp F (handle_writable id s reg) (handled id w0 c0) w0.
Proof.
  intros Hi Hcfg Hc. pose proof (view_start _ _ _ _ Hi Hc) as V. pose proof (wi_state _ _ Hi _ _ Hc) as Hs.
  pose proof (wi_poll _ _ Hi _ _ Hc ltac:(done)) as Hreg. pose proof (proj1 (proj2 Hcfg)) as Hpos.
  assert (Hend : forall r, handled id w0 c0 r w0) by (intros r'; by eapply handled_intro).
  apply wp_try. eapply view_get; [done|]. destruct (data_state c0) as [f|b n t] eqn:Ed; [by eapply wp_done|].
  destruct (next_bytes_ok _ _ _ _ _ _ _ Hi Hcfg V Ed Hs) as (o & E & Ho).
  apply wp_try. eapply wp_done; [done|]. destruct o as [d|].
  2: { eapply (finish_write_ok _ _ _ _ _ _ _ _ _ _ _ []); try done. by rewrite app_nil_r. }
  apply wp_try. unfold send. destruct s as [k| |]; cbn [write_from]; [| |eapply wp_done; [done|apply Hend]].
  2: { eapply wp_done; [done|]. by eapply wp_done. }
  set (k' := Z.max 0 _). destruct (k' =? 0); [eapply wp_done; [done|apply Hend]|].
  apply wp_bind. eapply wp_done; [done|]. eapply wp_done; [done|].
  eapply (finish_write_ok _ _ _ _ _ _ _ _ _ _ _ [take (Z.to_nat k') d]); try done; [|lia].
  by destruct V.
Qed.

(** ** From handlers to events *)

Lemma winv_busy id w : winv None w -> winv (Some id) w.
Proof. intros [H1 H2 H3 H4 H5 H6 H7]. split; try done. intros j c Hj _. by apply H7. Qed.

Lemma handled_winv id w0 c0 r w :
  winv None w0 -> items w0 !! id = Some c0 -> handled id w0 c0 r w ->
  winv (Some id) w /\ (r = inr tt -> winv None w).
Proof.
  intros Hi Hc (c & V & Hs & _ & Hp & _). destruct (v_reg _ _ _ _ _ V) as [i Hreg].
  pose proof (view_end _ _ _ _ _ _ Hi Hc V Hs Hreg) as Hw. split.
  - case_decide; [by apply winv_busy|done].
  - intros Hr. rewrite (Hp Hr) in Hreg. simplify_eq. by rewrite decide_True in Hw.
Qed.

Lemma handled_trans id w0 c0 w1 c1 r w2 :
  handled id w0 c0 (inr tt) w1 -> items w1 !! id = Some c1 -> handled id w1 c1 r w2 -> handled id w0 c0 r w2.
Proof.
  intros (c & V1 & _ & Hc1 & _ & o1 & W1) Hc (c2 & V2 & Hs & Hc2 & Hp & o2 & W2).
  assert (c1 = c) as -> by (rewrite (v_items _ _ _ _ _ V1), lookup_insert_eq in Hc; by simplify_eq).
  exists c2. split_and!; try done.
  - destruct V1 as [I1 P1 F1 L1 R1], V2 as [I2 P2 F2 L2 R2]. rewrite I1, delete_insert_eq in *.
    rewrite ?delete_insert_eq in *. split; try done; [by rewrite I2, insert_insert_eq|by etrans|congruence].
  - destruct Hc1 as (? & ? & ? & ?), Hc2 as (? & ? & ? & ?). unfold same_conn. split_and!; congruence.
  - exists (o1 ++ o2). destruct Hc1 as (Hst & _). by rewrite W2, W1, fmap_app, app_assoc, Hst.
Qed.

(** The request layer does not return on the bytes an event completes. *)
Definition event_fails (id : nat) (e : conn_event) (w : Worker) : Prop :=
  is_readable e = true /\ exists c, items w !! id = Some c /\ request_fails (now e) c (received e) w.

Lemma handle_event_ok id e w0 c0 :
  winv None w0 -> settings_ok cfg -> items w0 !! id = Some c0 ->
  wp (event_fails id e w0) (handle_connection_event id e (s_max_value_size cfg)) (handled id w0 c0) w0.
Proof.
  intros Hi Hcfg Hc. unfold handle_connection_event, wp at 1. rewrite (slab_contains_true _ _ _ Hc). cbn [negb].
  match goal with |- match ?m w0 with _ => _ end => change (wp (event_fails id e w0) m (handled id w0 c0) w0) end.
  apply wp_try. apply (wp_mono _ _ (handled id w0 c0)).
  - destruct (is_readable e) eqn:Er.
    + pose proof (handle_readable_ok (now e) id w0 c0 (received e) (reregistered_r e) Hi Hcfg Hc) as H.
      unfold wp in *. destruct (handle_readable _ _ _ _ _ _); [done|by split; [|exists c0]..].
    + eapply wp_done; [done|]. eapply handled_intro; try done; [by eapply view_start|by eapply Hi|].
      intros _. by apply (wi_poll _ _ Hi).
  - intros [er|[]] w1 Hh; [done|]. destruct (handled_winv _ _ _ _ _ Hi Hc Hh) as [_ Hw1]. specialize (Hw1 eq_refl).
    pose proof Hh as (c1 & V1 & _). pose proof (v_items _ _ _ _ _ V1) as I1.
    assert (Hc1 : items w1 !! id = Some c1) by (by rewrite I1, lookup_insert_eq).
    unfold wp. rewrite (slab_contains_true _ _ _ Hc1). cbn [negb]. destruct (is_writable e); [|done].
    pose proof (handle_writable_ok (event_fails id e w0) id w1 c1 (sent e) (reregistered_w e) Hw1 Hcfg Hc1) as H.
    unfold wp in H. destruct (handle_writable _ _ _ _); [|done..]. by eapply handled_trans.
Qed.

(** Removing a connection gives its buffers back. *)
Lemma close_ok F id busy w :
  winv busy w -> (busy = None \/ busy = Some id) ->
  wp F (close_connection id) (fun _ w' => winv None w' /\ items w' = base.delete id (items w) /\
    poll w' = base.delete id (poll w) /\ storage w' = storage w /\ wire w' = wire w /\
    pool_buffers (buffers w') = pool_buffers (buffers w)) w.
Proof.
  intros Hi Hb. destruct (items w !! id) as [c|] eqn:Hc.
  2: { apply (wp_done _ _ _ _ tt w); [unfold close_connection, slab_try_remove; by rewrite Hc|]. assert (Hd : poll w !! id = None).
       { apply not_elem_of_dom. rewrite (wi_dom _ _ Hi). by apply not_elem_of_dom. }
       rewrite !delete_id by done. split_and!; try done. destruct Hi as [H1 H2 H3 H4 H5 H6 H7]. split; try done.
       intros j x Hj _. apply H7; [done|]. intros ->. destruct Hb; simplify_eq. }
  set (w1 := with_poll (base.delete id (poll w)) (with_connections (slab_remove id (connections w)) w)).
  assert (Hi1 : items w1 = base.delete id (items w)) by (apply slab_remove_items; by rewrite Hc).
  pose proof (wi_pool _ _ Hi) as Hp. rewrite (held_delete _ _ _ Hc) in Hp. unfold owned in Hp. simpl in Hp.
  destruct (free_inv _ _ _ Hp) as (p1 & E1 & H1 & _ & B1 & S1).
  destruct (free_inv _ _ _ H1) as (p2 & E2 & H2 & _ & B2 & S2). rewrite <- app_assoc in H2.
  destruct (release_chain_inv _ _ _ H2) as (p3 & E3 & H3 & B3 & S3).
  destruct (release_chain_inv _ _ _ H3) as (p4 & E4 & H4 & B4 & S4).
  apply (wp_done _ _ _ _ tt (with_buffers p4 w1)).
  { unfold close_connection, slab_try_remove. rewrite Hc. unfold mbind, st_bind, on_buffers, zoom. simpl.
    rewrite E1. simpl. rewrite E2. simpl. rewrite E3. simpl. by rewrite E4. }
  simpl.
  change (slab_items (connections (with_buffers p4 w1))) with (items w1).
  split_and!; try done; [|congruence]. destruct Hi as [I1 I2 I3 I4 I5 I6 I7]. split; simpl.
  - change (slab_items _) with (items w1). by rewrite Hi1.
  - congruence.
  - congruence.
  - unfold slab_len in *. change (slab_items _) with (items w1). rewrite Hi1, map_size_delete, Hc. simpl. lia.
  - intros j x. change (slab_items _) with (items w1). rewrite Hi1, lookup_delete_Some. intros [_ ?]. by eapply I5.
  - change (slab_items _) with (items w1). by rewrite Hi1, !dom_delete_L, I6.
  - intros j x. change (slab_items _) with (items w1). rewrite Hi1, lookup_delete_Some. intros [Hj ?] _.
    rewrite lookup_delete_ne by done. apply I7; [done|]. intros ->. destruct Hb; by simplify_eq.
Qed.

(** ** Accepting *)

(** A new pool with the same buffers in use. *)
Lemma winv_buffers w p :
  winv None w -> pool_inv (held (items w)) p -> pool_buffers p = pool_buffers (buffers w) ->
  pool_buffer_size p = pool_buffer_size (buffers w) -> winv None (with_buffers p w).
Proof. intros [H1 H2 H3 H4 H5 H6 H7] Hp Hb Hs. split; try done; simpl; congruence. Qed.

Lemma alloc_cases rest p :
  pool_inv rest p -> alloc p = Done None p \/
  exists i p', alloc p = Done (Some i) p' /\ pool_inv (i :: rest) p' /\
    pool_buffers p' = pool_buffers p /\ pool_buffer_size p' = pool_buffer_size p.
Proof.
  intros Hp. destruct (alloc p) as [[i|] p'|p'|p'] eqn:E.
  - right. destruct (alloc_inv _ _ _ _ Hp E) as (H1 & _ & H2 & H3). by exists i, p'.
  - left. unfold alloc in E. destruct (pop _) as [[]|]; by simplify_eq.
  - unfold alloc in E. by destruct (pop _) as [[]|].
  - unfold alloc in E. by destruct (pop _) as [[]|].
Qed.

(** Another connection with two buffers of its own. *)
Lemma winv_insert w socket proto i j p s k :
  winv None w -> settings_ok cfg -> pool_inv (j :: i :: held (items w)) p -> pool_buffers p = pool_buffers (buffers w) ->
  pool_buffer_size p = pool_buffer_size (buffers w) -> slab_len (connections w) < s_max_connections cfg ->
  slab_insert (mkMio socket reading i j None None proto) (connections w) = (k, s) ->
  winv None (with_poll (<[k := READABLE]> (poll w)) (with_connections s (with_buffers p w))).
Proof.
  intros [H1 H2 H3 H4 H5 H6 H7] Hcfg Hp Hb Hs Hlt E. destruct Hcfg as (_ & Hpos & _).
  pose proof (slab_insert_vacant _ (mkMio socket reading i j None None proto) (connections w)) as Hv.
  pose proof (slab_insert_items _ (mkMio socket reading i j None None proto) (connections w)) as Hins.
  rewrite E in *. simpl in *. split; simpl; rewrite ?Hins.
  - rewrite held_insert by done. unfold owned. simpl. by rewrite (Permutation_swap j i).
  - congruence.
  - congruence.
  - unfold slab_len in *. rewrite Hins, map_size_insert_None by done. lia.
  - intros id c. rewrite lookup_insert_Some. intros [[<- <-]|[_ Hc]]; [|by eapply H5].
    split; [lia|done].
  - by rewrite !dom_insert_L, H6.
  - intros id c. rewrite lookup_insert_Some. intros [[<- <-]|[Hne Hc]] _; [by rewrite lookup_insert_eq|].
    rewrite lookup_insert_ne by done. by apply H7.
Qed.

Lemma accept_one_ok F w proto socket reg :
  winv None w -> settings_ok cfg ->
  wp F (accept_one (s_max_connections cfg) proto socket reg)
    (fun r w' => match r with inr _ => winv None w' | inl _ => reg = false end) w.
Proof.
  intros Hi Hcfg. unfold accept_one. apply wp_bind. eapply wp_done; [done|].
  destruct (_ <=? _) eqn:El; boolify; [by eapply wp_done|]. apply wp_bind.
  destruct (alloc_cases _ _ (wi_pool _ _ Hi)) as [E|(i & p1 & E & P1 & B1 & S1)];
    (eapply wp_zoom; [done|]); [eapply wp_done; [done|]; by destruct w|]. apply wp_bind.
  destruct (alloc_cases _ _ P1) as [E2|(j & p2 & E2 & P2 & B2 & S2)]; (eapply wp_zoom; [done|]).
  - destruct (free_inv _ _ _ P1) as (p3 & E3 & P3 & _ & B3 & S3). apply wp_bind. eapply wp_zoom; [done|].
    eapply wp_done; [done|]. apply (winv_buffers w p3 Hi P3); congruence.
  - apply wp_bind. destruct (slab_insert (mkMio socket reading i j None None proto) (connections w)) as [k s] eqn:Es.
    eapply wp_done; [simpl; by rewrite Es|]. unfold register. destruct reg; [|by eapply wp_done].
    eapply wp_done; [done|]. apply (winv_insert w socket proto i j p2 s k); try done; congruence.
Qed.

Lemma accept_ok F w proto l :
  winv None w -> settings_ok cfg ->
  wp F (accept_connections (s_max_connections cfg) proto l)
    (fun r w' => match r with inr _ => winv None w' | inl _ => exists socket, (socket, false) ∈ l end) w.
Proof.
  intros Hi Hcfg. revert w Hi. induction l as [|[socket reg] l IH]; intros w Hi; simpl; [by eapply wp_done|].
  apply wp_try. eapply wp_mono; [by apply (accept_one_ok F w proto socket reg)|]. intros [e|[]] w1 H1.
  - subst. exists socket. apply list_elem_of_here.
  - eapply wp_mono; [by apply IH|]. intros [e|[]] w2 H2; [|done]. destruct H2 as [x Hx]. exists x. set_solver.
Qed.

(** ** One event *)

(** What an event on a connection leaves alone: the other connections, their
    registrations and their buffers; only its own socket is written to. *)
Definition isolated (id : nat) w0 w : Prop :=
  (forall other, other <> id ->
    items w !! other = items w0 !! other /\ poll w !! other = poll w0 !! other /\
    forall c i, items w0 !! other = Some c -> i ∈ owned c ->
      pool_buffers (buffers w) !! i = pool_buffers (buffers w0) !! i) /\
  exists out, wire w = wire w0 ++ out /\
    forall x, x ∈ out -> exists c, items w0 !! id = Some c /\ x.1 = stream c.

Lemma handled_isolated id w0 c0 r w :
  items w0 !! id = Some c0 -> handled id w0 c0 r w -> isolated id w0 w.
Proof.
  intros Hc (c & [Vi Vp (Vf & _) Vo Vr] & _ & _ & _ & out & Hw). split.
  - intros other Ho. split_and!.
    + by rewrite Vi, lookup_insert_ne.
    + rewrite <- (lookup_delete_ne (poll w) id other), Vo by done. by apply lookup_delete_ne.
    + intros x i Hx Hi. apply Vf. assert (Hd : base.delete id (items w0) !! other = Some x)
        by (by rewrite lookup_delete_ne). by apply (held_owned _ _ _ Hd).
  - eexists. split; [done|]. intros x Hx. apply list_elem_of_fmap in Hx as (y & -> & _). by exists c0.
Qed.

Lemma close_isolated id w0 w1 w2 :
  isolated id w0 w1 -> items w2 = base.delete id (items w1) -> poll w2 = base.delete id (poll w1) ->
  wire w2 = wire w1 -> pool_buffers (buffers w2) = pool_buffers (buffers w1) -> isolated id w0 w2.
Proof.
  intros [H1 H2] Hi Hp Hw Hb. split.
  - intros other Ho. rewrite Hi, Hp, Hb, !lookup_delete_ne by done. by apply H1.
  - by rewrite Hw.
Qed.

Lemma conn_event_ok id e w0 :
  winv None w0 -> settings_ok cfg ->
  wp (event_fails id e w0) (worker_event cfg (ConnReady id e))
    (fun r w => r = inr tt /\ winv None w /\ isolated id w0 w) w0.
Proof.
  intros Hi Hcfg. simpl. apply wp_bind. destruct (items w0 !! id) as [c0|] eqn:Hc.
  - eapply wp_mono; [by apply (handle_event_ok id e w0 c0)|]. intros r w1 Hh.
    destruct (handled_winv _ _ _ _ _ Hi Hc Hh) as [Hb Hok]. pose proof (handled_isolated _ _ _ _ _ Hc Hh) as Hiso.
    destruct r as [er|[]]; [|by eapply wp_done; [|split_and!; [|apply Hok|]]].
    apply wp_bind. eapply wp_mono; [apply (close_ok _ _ _ _ Hb); by right|].
    intros [] w2 (H1 & H2 & H3 & _ & H4 & H5). eapply wp_done; [done|]. split_and!; try done.
    by eapply close_isolated.
  - apply (wp_done _ _ _ _ (inr tt) w0).
    + unfold handle_connection_event. by rewrite (slab_contains_false _ _ Hc).
    + eapply wp_done; [done|]. split_and!; try done. split; [done|]. exists []. split; [by rewrite app_nil_r|].
      intros x Hx. by apply not_elem_of_nil in Hx.
Qed.

Lemma winv_new s : settings_ok cfg -> winv None (worker_new cfg s).
Proof.
  intros (Hm & Hpos & _). unfold worker_new. split; simpl; rewrite ?slab_items_new; try done.
  - apply pool_inv_new. lia.
  - unfold len. rewrite repeat_length. lia.
  - unfold slab_len. rewrite slab_items_new. done.
Qed.

(** The store is shared: other workers change it between events. *)
Inductive reachable : Worker -> Prop :=
| reach_start s : reachable (worker_new cfg s)
| reach_event w e w' : reachable w -> worker_event cfg e w = Done (inr tt) w' -> reachable w'
| reach_others w s : reachable w -> reachable (with_storage s w).

Lemma reachable_winv w : settings_ok cfg -> reachable w -> winv None w.
Proof.
  intros Hcfg. induction 1 as [s|w e w' _ IH E|w s _ IH]; [by apply winv_new| |].
  - destruct e as [l|id e|]; [| |done].
    + pose proof (accept_ok False w (s_protocol cfg) l IH Hcfg) as H. unfold wp in H. simpl in E. by rewrite E in H.
    + pose proof (conn_event_ok id e w IH Hcfg) as H. unfold wp in H. rewrite E in H. apply H.
  - by destruct IH.
Qed.

End invariant.
