(* ===== verification/MioRun.v ===== *)
(** * The mio event loop: exact runs of one connection

    A connection waits with part of a request in its buffer ([waiting]) or sends a
    response ([sending]); the lemmas say what one event does to it. *)

From S2P Require Import Prelude RustStd Storage Memcached Resp Ping Echo Request RequestFacts RequestBounds.
From S2P Require Import Buffer BufferFacts Slab Connection Mio MioFacts.

(** The socket is readable and brings [d]; the socket is writable and takes [n] bytes,
    or fails. *)
Definition read_event (clock : nat -> Z) (d : bytes) : conn_event :=
  mkEvent true false (ReadOk d) WriteWouldBlock true true clock.
Definition write_event (n : Z) : conn_event :=
  mkEvent false true ReadWouldBlock (WriteOk n) true true (fun _ => 0).
Definition broken_event : conn_event :=
  mkEvent false true ReadWouldBlock WriteErr true true (fun _ => 0).

Section runs.
Context `{BP : BuildProfile, LY : Layout, HO : HashOrder, UC : UnicodeCase, FL : FrameLayout}.
Context `{SL : SlabLib, LW : !SlabLaws}.
Context (cfg : settings) (Hcfg : settings_ok cfg).
Implicit Types (w : Worker).

Abbreviation items w := (slab_items (connections w)).
Abbreviation buffer w i := (pool_buffers (buffers w) !! i).
Abbreviation max := (s_max_value_size cfg).

Record waiting (id : nat) (c : MioConnection) (x : bytes) (w : Worker) : Prop := {
  wt_inv : winv cfg None w;
  wt_items : items w !! id = Some c;
  wt_state : data_state c = Reading (len x);
  wt_data : exists b, buffer w (read_buf_idx c) = Some b /\ take (length x) b = x
}.

Record sending (id : nat) (c : MioConnection) (response : bytes) (n : Z) (w : Worker) : Prop := {
  sd_inv : winv cfg None w;
  sd_items : items w !! id = Some c;
  sd_state : data_state c = Writing (Z.of_nat (write_buf_idx c)) n (len response);
  sd_range : 0 <= n <= len response /\ len response <= s_buffer_size cfg;
  sd_data : exists b, buffer w (write_buf_idx c) = Some b /\ take (length response) b = response
}.

(** The request layer asks for more than the bytes [x], whatever the output buffer
    holds; it answers them with [response]. *)
Definition needs_more (clock : nat -> Z) (proto : Protocol) (x : bytes) (s : Storage) : Prop :=
  forall o, len o = s_buffer_size cfg -> exists out, len out = len o /\
    process clock proto x o max s = Done (NeedData, out) s.

Definition answers (clock : nat -> Z) (proto : Protocol) (x : bytes) (s : Storage)
    (consumed : Z) (response : bytes) (s' : Storage) : Prop :=
  forall o, len o = s_buffer_size cfg -> exists out, len out = len o /\ take (length response) out = response /\
    process clock proto x o max s = Done (Response consumed (len response), out) s'.

(** ** Events in terms of their handlers *)

Lemma read_event_ok id clock d w w1 :
  is_Some (items w !! id) -> is_Some (items w1 !! id) ->
  handle_readable clock id max (ReadOk d) true w = Done (inr tt) w1 ->
  worker_event cfg (ConnReady id (read_event clock d)) w = Done (inr tt) w1.
Proof.
  intros [c Hc] [c1 Hc1] E. simpl.
  rewrite (bind_done _ _ _ (inr tt) w1); [done|]. unfold handle_connection_event.
  rewrite (slab_contains_true _ _ _ Hc). simpl. unfold try. rewrite E.
  by rewrite (slab_contains_true _ _ _ Hc1).
Qed.

Lemma read_event_err id clock d w w1 e :
  is_Some (items w !! id) -> handle_readable clock id max (ReadOk d) true w = Done (inl e) w1 ->
  worker_event cfg (ConnReady id (read_event clock d)) w = noerr (close_connection id) w1.
Proof.
  intros [c Hc] E. simpl. rewrite (bind_done _ _ _ (inl e) w1); [done|]. unfold handle_connection_event.
  rewrite (slab_contains_true _ _ _ Hc). simpl. unfold try. by rewrite E.
Qed.

Lemma writable_event_eq id r w :
  is_Some (items w !! id) ->
  worker_event cfg (ConnReady id (mkEvent false true ReadWouldBlock r true true (fun _ => 0))) w =
  match handle_writable id r true w with
  | Done (inr _) w1 => Done (inr tt) w1
  | Done (inl _) w1 => noerr (close_connection id) w1
  | Panicked w1 => Panicked w1
  | Running w1 => Running w1
  end.
Proof.
  intros [c Hc]. simpl. unfold mbind, st_bind, handle_connection_event.
  rewrite (slab_contains_true _ _ _ Hc). cbn [negb is_readable]. unfold try, ok.
  rewrite (slab_contains_true _ _ _ Hc). cbn [negb is_writable sent reregistered_w].
  destruct (handle_writable _ _ _ _) as [[e|[]] w1|w1|w1]; reflexivity.
Qed.

Lemma write_event_eq id n w :
  is_Some (items w !! id) ->
  worker_event cfg (ConnReady id (write_event n)) w =
  match handle_writable id (WriteOk n) true w with
  | Done (inr _) w1 => Done (inr tt) w1
  | Done (inl _) w1 => noerr (close_connection id) w1
  | Panicked w1 => Panicked w1
  | Running w1 => Running w1
  end.
Proof. apply writable_event_eq. Qed.

(** What is left of a connection that is closed. *)
Lemma closed_run id busy w :
  winv cfg busy w -> (busy = None \/ busy = Some id) ->
  exists w', noerr (E := io_error) (close_connection id) w = Done (inr tt) w' /\
    items w' = base.delete id (items w) /\ storage w' = storage w /\ wire w' = wire w.
Proof.
  intros Hi Hb. destruct (wp_returns _ _ _ (close_ok cfg False id busy w Hi Hb)) as ([] & w' & E & _ & H1 & _ & H2 & H3 & _).
  exists w'. unfold noerr. by rewrite (bind_done _ _ _ _ _ E).
Qed.

(** ** Reading *)

Lemma waiting_start id c x w :
  waiting id c x w -> exists b o, buffer w (read_buf_idx c) = Some b /\ len b = s_buffer_size cfg /\
    buffer w (write_buf_idx c) = Some o /\ len o = s_buffer_size cfg /\ take (Z.to_nat (len x)) b = x /\
    len x <= len b.
Proof.
  intros [Hi Hc Hs (b & Hb & Hx)]. pose proof (view_start _ _ _ _ _ Hi Hc) as V.
  destruct (view_lookup _ _ _ _ _ _ _ Hi V (read_owned c)) as (b' & Hb' & Hl). simplify_eq.
  destruct (view_lookup _ _ _ _ _ _ _ Hi V (write_owned c)) as (o & Ho & Hlo). exists b, o.
  split_and!; try done; [unfold len; by rewrite Nat2Z.id|]. rewrite <- Hx. unfold len. rewrite length_take. lia.
Qed.

Lemma read_event_inv id e w w' : winv cfg None w ->
  worker_event cfg (ConnReady id e) w = Done (inr tt) w' -> winv cfg None w'.
Proof.
  intros Hi E. pose proof (conn_event_ok cfg id e w Hi Hcfg) as H. unfold wp in H. rewrite E in H. apply H.
Qed.

(** The condition on the bytes that arrive. *)
Lemma read_all (x b d : bytes) : len x + len d <= len b -> read_into (len b - len x) (ReadOk d) = ReadOk d.
Proof. intros H. simpl. f_equal. apply take_ge. unfold len in *. lia. Qed.

Lemma input_prefix (x d b : bytes) z :
  take (length (x ++ d)) (x ++ d ++ drop z b) = x ++ d.
Proof. by rewrite app_assoc, take_app_length. Qed.

Lemma read_more id c x d clock w :
  waiting id c x w -> d <> [] -> len x + len d <= s_buffer_size cfg ->
  needs_more clock (protocol c) (x ++ d) (storage w) ->
  exists w' c', worker_event cfg (ConnReady id (read_event clock d)) w = Done (inr tt) w' /\
    waiting id c' (x ++ d) w' /\ same_conn c c' /\ (read_chain c = None -> read_chain c' = None) /\
    storage w' = storage w /\ wire w' = wire w.
Proof.
  intros Hw Hd Hfit Hp. destruct (waiting_start _ _ _ _ Hw) as (b & o & Hb & Hlb & Ho & Hlo & Hx & Hxb).
  destruct Hw as [Hi Hc Hs _]. destruct (Hp o Hlo) as (out & Hout & Ep).
  pose proof (len_nonneg x). pose proof (len_nonneg d).
  assert (Hr : wp False (handle_readable clock id max (ReadOk d) true) (fun r w' => r = inr tt /\
    items w' !! id = Some (with_state (reading_with (len (x ++ d))) c) /\ storage w' = storage w /\
    wire w' = wire w /\ exists b', buffer w' (read_buf_idx c) = Some b' /\ take (length (x ++ d)) b' = x ++ d) w).
  { eapply (handle_readable_run cfg _ _ _ _ c (len x) b o _ d); try done; [apply read_all; lia|].
    rewrite Hx, Ep. split; [done|]. intros w1 V1 S1 P1 W1 _ B1. apply wp_try. eapply view_get; [done|].
    simpl. eapply view_update; [done|]. intros w2 V2 B2 S2 P2 W2. rewrite len_app. split_and!; try congruence.
    - by rewrite (v_items _ _ _ _ _ V2), lookup_insert_eq.
    - rewrite B2, B1. eexists. split; [done|]. apply input_prefix. }
  apply wp_returns in Hr as (r & w' & E & -> & Hit & Hst & Hwi & Hbf).
  apply (read_event_ok id clock d w w') in E; [|by rewrite Hc|by rewrite Hit].
  exists w', (with_state (reading_with (len (x ++ d))) c). split_and!; try done. split; try done. by eapply read_event_inv.
Qed.

(** The read that completes a request whose response fits the buffer. *)
Lemma read_last id c x d clock w consumed response s' :
  waiting id c x w -> d <> [] -> len x + len d <= s_buffer_size cfg ->
  answers clock (protocol c) (x ++ d) (storage w) consumed response s' ->
  exists w' c', worker_event cfg (ConnReady id (read_event clock d)) w = Done (inr tt) w' /\
    sending id c' response 0 w' /\ same_conn c c' /\ (read_chain c = None -> read_chain c' = None) /\
    storage w' = s' /\ wire w' = wire w.
Proof.
  intros Hw Hd Hfit Hp. destruct (waiting_start _ _ _ _ Hw) as (b & o & Hb & Hlb & Ho & Hlo & Hx & Hxb).
  destruct Hw as [Hi Hc Hs _]. destruct (Hp o Hlo) as (out & Hout & Hresp & Ep).
  pose proof (len_nonneg x). pose proof (len_nonneg d). pose proof (len_nonneg response).
  pose proof (owned_distinct _ _ _ _ (view_start _ _ _ _ _ Hi Hc)) as Hne.
  assert (Hin : len (x ++ d) <= s_buffer_size cfg) by (rewrite len_app; lia).
  pose proof (process_result_in cfg _ _ _ _ _ _ _ Hcfg Hin Hlo Ep) as [_ Hres]. simpl in Hres.
  pose proof (wi_state _ _ _ Hi _ _ Hc) as Hok. unfold state_ok in Hok. rewrite Hs in Hok.
  set (c' := with_state (writing (Z.of_nat (write_buf_idx c)) (len response)) (with_read_chain None c)).
  assert (Hr : wp False (handle_readable clock id max (ReadOk d) true) (fun r w' => r = inr tt /\
    items w' !! id = Some c' /\ storage w' = s' /\ wire w' = wire w /\ buffer w' (write_buf_idx c) = Some out) w).
  { eapply (handle_readable_run cfg _ _ _ _ c (len x) b o _ d); try done; [apply read_all; lia|].
    rewrite Hx, Ep. split; [done|]. intros w1 V1 S1 P1 W1 B1 _. apply wp_try. eapply view_get; [done|].
    simpl. apply wp_try. eapply (after_request_ok cfg); try done; [apply Hok|lia..|].
    intros w2 V2 (S2 & P2 & W2) B2. apply wp_try. eapply view_update; [done|]. intros w3 V3 B3 S3 P3 W3.
    eapply view_register; [exact V3| |done]. intros _ V4. split_and!; simpl; try congruence.
    - by rewrite (v_items _ _ _ _ _ V3), lookup_insert_eq.
    - rewrite B3, B2 by done. done. }
  apply wp_returns in Hr as (r & w' & E & -> & Hit & Hst & Hwi & Hbf).
  apply (read_event_ok id clock d w w') in E; [|by rewrite Hc|by rewrite Hit].
  exists w', c'. split_and!; try done. split; try done; [by eapply read_event_inv|lia|by exists out].
Qed.

(** The read after which the request layer gives the connection up. *)
Lemma read_end id c x d clock w s' :
  waiting id c x w -> d <> [] -> len x + len d <= s_buffer_size cfg ->
  (forall o, len o = s_buffer_size cfg -> exists r out, (r = Quit \/ r = Request.Error) /\ len out = len o /\
    process clock (protocol c) (x ++ d) o max (storage w) = Done (r, out) s') ->
  exists w', worker_event cfg (ConnReady id (read_event clock d)) w = Done (inr tt) w' /\
    items w' = base.delete id (items w) /\ storage w' = s' /\ wire w' = wire w.
Proof.
  intros Hw Hd Hfit Hp. destruct (waiting_start _ _ _ _ Hw) as (b & o & Hb & Hlb & Ho & Hlo & Hx & Hxb).
  destruct Hw as [Hi Hc Hs _]. destruct (Hp o Hlo) as (r & out & Hr & Hout & Ep). pose proof (len_nonneg x).
  assert (Hh : wp False (handle_readable clock id max (ReadOk d) true) (fun r w1 => (exists e, r = inl e) /\
    items w1 = items w /\ storage w1 = s' /\ wire w1 = wire w) w).
  { eapply (handle_readable_run cfg _ _ _ _ c (len x) b o _ d); try done; [apply read_all; lia|].
    rewrite Hx, Ep. split; [done|]. intros w1 V1 S1 P1 W1 _ _. apply wp_try. eapply view_get; [done|].
    assert (I1 : items w1 = items w) by (by rewrite (v_items _ _ _ _ _ V1), insert_id).
    destruct Hr as [-> | ->]; simpl; (eapply wp_done; [done|]); (split; [by eexists|done]). }
  apply wp_returns in Hh as (r1 & w1 & E & [e ->] & I1 & S1 & W1).
  pose proof (handle_readable_ok cfg clock id w c (ReadOk d) true Hi Hcfg Hc) as Hk. unfold wp in Hk. rewrite E in Hk.
  destruct (handled_winv cfg _ _ _ _ _ Hi Hc Hk) as [Hw1 _].
  rewrite (read_event_err _ _ _ _ _ _ ltac:(by rewrite Hc) E).
  destruct (closed_run id (Some id) w1 Hw1 ltac:(by right)) as (w' & -> & H1 & H2 & H3).
  exists w'. by rewrite H1, H2, H3, I1.
Qed.

(** ** Writing *)

Lemma sending_bytes id c response n w :
  sending id c response n w ->
  next_bytes c (Z.of_nat (write_buf_idx c)) n (len response) w = Done (inr (Some (drop (Z.to_nat n) response))) w.
Proof.
  intros [Hi Hc Hs [Hn Hr] (b & Hb & Hd)]. unfold next_bytes.
  rewrite (bind_done (gets buffers) _ _ (buffers w) w) by done.
  assert (Hlt : Z.of_nat (write_buf_idx c) < USIZE_MAX).
  { apply lookup_lt_Some in Hb. pose proof (wi_count _ _ _ Hi) as Hcnt. unfold len in Hcnt.
    destruct Hcfg as (_ & _ & _ & ? & _). lia. }
  rewrite (proj2 (Z.eqb_neq _ _)) by lia. rewrite Nat2Z.id, (get_buffer_Val _ _ _ Hb). cbn [mbind comp_bind].
  assert (Hl : len response <= len b) by (rewrite <- Hd; unfold len; rewrite length_take; lia).
  rewrite (bind_done (lift _) _ _ (drop (Z.to_nat n) response) w); [done|]. unfold slice.
  rewrite !(proj2 (Z.leb_le _ _)) by lia. unfold lift. simpl. f_equal.
  rewrite <- Hd at 2. rewrite skipn_firstn_comm. f_equal. unfold len in *. lia.
Qed.

(** The connection after [n] bytes of a response of [total] bytes. *)
Definition after_write (c : MioConnection) (n total : Z) : MioConnection :=
  if total <=? n then with_state reading (with_write_chain None c)
  else with_state (Writing (Z.of_nat (write_buf_idx c)) n total) c.

Lemma finish_write_run id w0 c w n total k :
  view id w0 c (owned c) w -> write_chain c = None ->
  wp False (finish_write id (Z.of_nat (write_buf_idx c)) n total k true) (fun r w' => r = inr tt /\
    items w' !! id = Some (after_write c (n + k) total) /\ storage w' = storage w /\ wire w' = wire w /\
    pool_buffers (buffers w') = pool_buffers (buffers w)) w.
Proof.
  intros V Hwc. apply wp_try. eapply view_get; [done|]. cbv zeta. unfold after_write.
  destruct (total <=? n + k).
  - apply wp_try. eapply view_update; [done|]. intros w2 V2 B2 S2 P2 W2.
    rewrite Hwc. apply wp_try, wp_bind. eapply wp_zoom; [done|]. eapply wp_done; [done|].
    assert (V2' : view id w0 (with_write_chain None c) (owned c) (with_buffers (buffers w2) w2)) by (by destruct w2).
    apply wp_try. eapply view_get; [done|]. apply wp_try. eapply view_update; [done|]. intros w3 V3 B3 S3 P3 W3.
    eapply view_register; [exact V3| |done]. intros _ V4. split_and!; simpl in *; try congruence.
    by rewrite (v_items _ _ _ _ _ V3), lookup_insert_eq.
  - eapply view_update; [done|]. intros w2 V2 B2 S2 P2 W2. split_and!; try congruence.
    by rewrite (v_items _ _ _ _ _ V2), lookup_insert_eq.
Qed.

Lemma sending_single id c response n w : sending id c response n w -> write_chain c = None.
Proof.
  intros [Hi Hc Hs _ (b & Hb & _)]. pose proof (wi_state _ _ _ Hi _ _ Hc) as Hok.
  unfold state_ok in Hok. rewrite Hs in Hok. destruct Hok as [_ [(_ & _ & Hwc)|(Hbad & _)]]; [done|].
  apply lookup_lt_Some in Hb. pose proof (wi_count _ _ _ Hi) as Hcnt. unfold len in Hcnt.
  destruct Hcfg as (_ & _ & _ & ? & _). lia.
Qed.

Lemma handle_writable_run id c response n k w :
  sending id c response n w -> n < len response -> 0 < k ->
  exists w', handle_writable id (WriteOk k) true w = Done (inr tt) w' /\
    items w' !! id = Some (after_write c (n + Z.min k (len response - n)) (len response)) /\
    storage w' = storage w /\
    wire w' = wire w ++ [(stream c, take (Z.to_nat k) (drop (Z.to_nat n) response))] /\
    pool_buffers (buffers w') = pool_buffers (buffers w).
Proof.
  intros Hsd Hn Hk. pose proof (sending_bytes _ _ _ _ _ Hsd) as Hnb. pose proof (sending_single _ _ _ _ _ Hsd) as Hwc.
  destruct Hsd as [Hi Hc Hs [Hnr Hr] _]. pose proof (view_start _ _ _ _ _ Hi Hc) as V.
  set (m := Z.max 0 (Z.min k (len (drop (Z.to_nat n) response)))).
  assert (Hm : m = Z.min k (len response - n)) by (unfold m, len in *; rewrite length_drop; lia).
  assert (Hpc : take (Z.to_nat m) (drop (Z.to_nat n) response) = take (Z.to_nat k) (drop (Z.to_nat n) response)).
  { rewrite Hm. destruct (Z.le_ge_cases k (len response - n)); [by rewrite Z.min_l|].
    rewrite Z.min_r by lia. rewrite !take_ge; [done|..]; rewrite length_drop; unfold len in *; lia. }
  rewrite <- Hm, <- Hpc. enough (Hr' : wp False (handle_writable id (WriteOk k) true) (fun r w' => r = inr tt /\
    items w' !! id = Some (after_write c (n + m) (len response)) /\ storage w' = storage w /\
    wire w' = wire w ++ [(stream c, take (Z.to_nat m) (drop (Z.to_nat n) response))] /\
    pool_buffers (buffers w') = pool_buffers (buffers w)) w).
  { apply wp_returns in Hr' as (r & w' & E & -> & ?). by exists w'. }
  apply wp_try. eapply view_get; [done|]. rewrite Hs. apply wp_try. eapply wp_done; [exact Hnb|].
  apply wp_try. unfold send. cbn [write_from]. fold m. rewrite (proj2 (Z.eqb_neq m 0)) by lia.
  apply wp_bind. eapply wp_done; [done|]. eapply wp_done; [done|].
  eapply (finish_write_run _ w); [by destruct V|done].
Qed.

(** One write of a response. *)
Lemma write_some id c response n k w :
  sending id c response n w -> n < len response -> 0 < k ->
  exists w' c', worker_event cfg (ConnReady id (write_event k)) w = Done (inr tt) w' /\
    same_conn c c' /\ (read_chain c = None -> read_chain c' = None) /\ storage w' = storage w /\
    wire w' = wire w ++ [(stream c, take (Z.to_nat k) (drop (Z.to_nat n) response))] /\
    if len response <=? n + k then waiting id c' [] w' else sending id c' response (n + k) w'.
Proof.
  intros Hsd Hn Hk. destruct (handle_writable_run _ _ _ _ _ _ Hsd Hn Hk) as (w' & E & Hit & Hst & Hwi & Hbf).
  destruct Hsd as [Hi Hc Hs [Hnr Hr] (b & Hb & Hd)].
  assert (Ev : worker_event cfg (ConnReady id (write_event k)) w = Done (inr tt) w').
  { rewrite write_event_eq by (by rewrite Hc). by rewrite E. }
  pose proof (read_event_inv _ _ _ _ Hi Ev) as Hi'.
  destruct (view_lookup _ _ _ _ _ _ _ Hi (view_start _ _ _ _ _ Hi Hc) (read_owned c)) as (q & Hq & _).
  unfold after_write in Hit. destruct (len response <=? n + k) eqn:El; boolify.
  - rewrite (proj2 (Z.leb_le _ _)) in Hit by lia.
    exists w', (with_state reading (with_write_chain None c)). split_and!; try done.
    split; try done. rewrite Hbf. by exists q.
  - rewrite (proj2 (Z.leb_gt _ _)), Z.min_l in Hit by lia.
    exists w', (with_state (Writing (Z.of_nat (write_buf_idx c)) (n + k) (len response)) c). split_and!; try done.
    split; try done; [lia|]. rewrite Hbf. by exists b.
Qed.

(** A response that cannot be sent costs the connection: the write fails, or there is
    nothing to write, which the event loop takes for a failure. *)
Lemma write_fails id c response n w :
  sending id c response n w ->
  exists w', worker_event cfg (ConnReady id broken_event) w = Done (inr tt) w' /\
    items w' = base.delete id (items w) /\ storage w' = storage w /\ wire w' = wire w.
Proof.
  intros Hsd. pose proof (sending_bytes _ _ _ _ _ Hsd) as Hnb. destruct Hsd as [Hi Hc Hs _ _].
  unfold broken_event. rewrite writable_event_eq by (by rewrite Hc).
  assert (E : handle_writable id WriteErr true w = Done (inl OsError) w).
  { unfold handle_writable, try, get_conn, slab_get. by rewrite Hc, Hs, Hnb. }
  rewrite E. by apply (closed_run id None); [|left].
Qed.

Lemma write_nothing id c n k w :
  sending id c [] n w ->
  exists w', worker_event cfg (ConnReady id (write_event k)) w = Done (inr tt) w' /\
    items w' = base.delete id (items w) /\ storage w' = storage w /\ wire w' = wire w.
Proof.
  intros Hsd. pose proof (sending_bytes _ _ _ _ _ Hsd) as Hnb. destruct Hsd as [Hi Hc Hs _ _].
  rewrite write_event_eq by (by rewrite Hc).
  assert (E : handle_writable id (WriteOk k) true w = Done (inl WriteZero) w).
  { unfold handle_writable, try, get_conn, slab_get. rewrite Hc, Hs, Hnb. unfold send, write_from.
    rewrite Z.max_l by (rewrite drop_nil, len_nil; lia). done. }
  rewrite E. by apply (closed_run id None); [|left].
Qed.

(** ** Several reads, several writes *)

Lemma worker_loop_cons e es w w1 :
  worker_event cfg e w = Done (inr tt) w1 -> worker_loop cfg (e :: es) w = worker_loop cfg es w1.
Proof. intros E. cbn [worker_loop]. unfold try. by rewrite E. Qed.

Lemma worker_loop_app es1 es2 w w1 :
  worker_loop cfg es1 w = Done (inr tt) w1 -> worker_loop cfg (es1 ++ es2) w = worker_loop cfg es2 w1.
Proof.
  revert w. induction es1 as [|e es IH]; intros w; simpl; [by intros [= ->]|].
  unfold try. destruct (worker_event cfg e w) as [[|[]]| |]; try done. apply IH.
Qed.

Definition reads (id : nat) (ds : list ((nat -> Z) * bytes)) : list Event :=
  (fun x => ConnReady id (read_event x.1 x.2)) <$> ds.
Definition writes (id : nat) (ks : list Z) : list Event := (fun k => ConnReady id (write_event k)) <$> ks.

Definition joined (ds : list ((nat -> Z) * bytes)) : bytes := concat ds.*2.

Lemma reads_more id c x ds w :
  waiting id c x w -> Forall (fun y => y.2 <> []) ds -> len x + len (joined ds) <= s_buffer_size cfg ->
  (forall ds1 y ds2, ds = ds1 ++ y :: ds2 -> needs_more y.1 (protocol c) (x ++ joined (ds1 ++ [y])) (storage w)) ->
  exists w' c', worker_loop cfg (reads id ds) w = Done (inr tt) w' /\
    waiting id c' (x ++ joined ds) w' /\ same_conn c c' /\ storage w' = storage w /\ wire w' = wire w.
Proof.
  revert c x w. induction ds as [|[clock d] ds IH]; intros c x w Hw Hne Hl Hp.
  - exists w, c. unfold joined. simpl. rewrite app_nil_r. by split_and!.
  - apply Forall_cons in Hne as [Hd Hne]. unfold joined in *. cbn [fmap list_fmap concat] in *.
    rewrite len_app in Hl. pose proof (len_nonneg (concat ds.*2)). simpl in Hd.
    destruct (read_more id c x d clock w Hw Hd ltac:(simpl in *; lia)) as (w1 & c1 & E1 & Hw1 & Hc1 & _ & S1 & W1).
    { pose proof (Hp [] (clock, d) ds eq_refl) as H1. simpl in H1. by rewrite app_nil_r in H1. }
    destruct (IH c1 (x ++ d) w1 Hw1 Hne) as (w2 & c2 & E2 & Hw2 & Hc2 & S2 & W2).
    { rewrite len_app. simpl in *. lia. }
    { intros ds1 y ds2 ->. rewrite S1. destruct Hc1 as (_ & -> & _).
      pose proof (Hp ((clock, d) :: ds1) y ds2 eq_refl) as H1. simpl in H1. by rewrite <- app_assoc. }
    exists w2, c2. unfold reads. cbn [fmap list_fmap fst snd]. rewrite (worker_loop_cons _ _ _ _ E1).
    rewrite app_assoc. split_and!; try done; try congruence.
    destruct Hc1 as (? & ? & ? & ?), Hc2 as (? & ? & ? & ?). unfold same_conn. split_and!; congruence.
Qed.

Lemma writes_all id c response n ms k w :
  sending id c response n w -> Forall (fun m => 0 < m) ms -> 0 < k -> n + foldr Z.add 0 ms < len response ->
  len response <= n + foldr Z.add 0 ms + k ->
  exists w' c' pieces, worker_loop cfg (writes id (ms ++ [k])) w = Done (inr tt) w' /\
    waiting id c' [] w' /\ same_conn c c' /\ storage w' = storage w /\
    wire w' = wire w ++ ((stream c,.) <$> pieces) /\ concat pieces = drop (Z.to_nat n) response.
Proof.
  revert c n w. induction ms as [|m ms IH]; intros c n w Hsd Hms Hk Hlt Hge; cbn [foldr app] in *.
  - destruct (write_some _ _ _ _ k _ Hsd ltac:(lia) Hk) as (w' & c' & E & Hc & _ & Hs & Hw & Hd).
    rewrite (proj2 (Z.leb_le _ _)) in Hd by lia. exists w', c', [drop (Z.to_nat n) response].
    unfold writes. cbn [fmap list_fmap]. rewrite (worker_loop_cons _ _ _ _ E). rewrite take_ge in Hw by (rewrite length_drop; unfold len in *; lia).
    split_and!; try done. simpl. by rewrite app_nil_r.
  - apply Forall_cons in Hms as [Hm Hms].
    assert (0 <= foldr Z.add 0 ms) by (clear -Hms; induction Hms; simpl; lia).
    destruct (write_some _ _ _ _ m _ Hsd ltac:(lia) Hm) as (w1 & c1 & E1 & Hc1 & _ & S1 & W1 & Hd1).
    rewrite (proj2 (Z.leb_gt _ _)) in Hd1 by lia.
    destruct (IH c1 (n + m) w1 Hd1 Hms Hk ltac:(lia) ltac:(lia)) as (w2 & c2 & ps & E2 & Hw2 & Hc2 & S2 & W2 & Hps).
    exists w2, c2, (take (Z.to_nat m) (drop (Z.to_nat n) response) :: ps).
    unfold writes. cbn [fmap list_fmap]. rewrite (worker_loop_cons _ _ _ _ E1).
    pose proof (sd_range _ _ _ _ _ Hsd) as [? _]. destruct Hc1 as (Hst & ? & ? & ?).
    split_and!; try done; try congruence.
    + destruct Hc2 as (? & ? & ? & ?). unfold same_conn. split_and!; congruence.
    + rewrite W2, W1, <- app_assoc, Hst. done.
    + simpl. rewrite Hps. rewrite <- (take_drop (Z.to_nat m) (drop (Z.to_nat n) response)) at 2.
      rewrite drop_drop. do 2 f_equal. lia.
Qed.

End runs.
