(* ===== verification/MioThms.v ===== *)
(** * Theorems about the mio event loop

    Buffers and registrations in every reachable worker, what an event can do to the
    worker and to other connections, the exchange of a request and its response, and
    the requests the loop loses. *)

From S2P Require Import Prelude RustStd Storage Memcached MemcachedThms Resp Ping Echo Request RequestFacts RequestBounds.
From S2P Require Import Concrete Buffer BufferFacts Slab Connection Mio MioFacts MioRun.

Section theorems.
Context `{BP : BuildProfile, LY : Layout, HO : HashOrder, UC : UnicodeCase, FL : FrameLayout}.
Context `{SL : SlabLib, LW : !SlabLaws}.
Context (cfg : settings).
Implicit Types (w : Worker).

Abbreviation items w := (slab_items (connections w)).

(** ** Every reachable worker *)

Lemma held_count m : len (held m) = foldr (fun x n => len (owned x.2) + n) 0 (map_to_list m).
Proof.
  unfold held. induction (map_to_list m) as [|[id c] l IH]; [done|]. cbn [fmap list_fmap concat foldr snd].
  by rewrite len_app, IH.
Qed.

(** C6: In every worker reached by any sequence of events, whatever the sockets answer
    and whatever other workers do to the store: the buffers of the connections are
    distinct, and with the free ones they are exactly the buffers of the pool, so
    nothing leaks and without connections the pool is full again; connections stay
    within their limit; progress stays inside the buffers; and each connection is
    registered for exactly what its state waits for. *)
Theorem worker_invariant w :
  settings_ok cfg -> reachable cfg w ->
  (NoDup (held (items w)) /\ available (buffers w) + len (held (items w)) = s_max_connections cfg * 3 /\
   (items w = ∅ -> available (buffers w) = capacity (buffers w))) /\
  slab_len (connections w) <= s_max_connections cfg /\
  (forall id c, items w !! id = Some c ->
     state_ok (s_buffer_size cfg) c /\ poll w !! id = Some (wanted (data_state c))) /\
  dom (poll w) = dom (items w).
Proof.
  intros Hcfg Hr. destruct (reachable_winv _ _ Hcfg Hr) as [Hp Hsz Hcnt Hmax Hst Hdom Hpoll].
  assert (Hsum : available (buffers w) + len (held (items w)) = len (pool_buffers (buffers w))).
  { destruct Hp as [Hperm _]. apply Permutation_length in Hperm. rewrite length_app, length_seq in Hperm.
    unfold available, len. lia. }
  split_and!; try done.
  - by eapply held_NoDup.
  - lia.
  - intros Hempty. rewrite Hempty, held_count in Hsum. unfold held in Hsum.
    rewrite map_to_list_empty in Hsum. simpl in Hsum. unfold capacity. lia.
  - intros id c Hc. split; [by eapply Hst|by apply Hpoll].
Qed.

(** C28: An event keeps the worker's invariant, whatever the sockets answer.  It makes the
    worker panic only when it brings bytes to a connection and the request layer does not
    return on what that connection had read before followed by these bytes, and it ends
    the worker only when [poll] fails or the operating system refuses to register a
    socket that was just accepted. *)
Theorem worker_event_safe w e :
  settings_ok cfg -> reachable cfg w ->
  match worker_event cfg e w with
  | Done (inr _) w' => reachable cfg w' /\ winv cfg None w'
  | Done (inl _) _ => e = PollFailed \/ exists l socket, e = ListenerReady l /\ (socket, false) ∈ l
  | _ => exists id ev, e = ConnReady id ev /\ event_fails cfg id ev w
  end.
Proof.
  intros Hcfg Hr. pose proof (reachable_winv _ _ Hcfg Hr) as Hi. destruct e as [l|id ev|].
  - pose proof (accept_ok cfg False w (s_protocol cfg) l Hi Hcfg) as H. unfold wp in H.
    destruct (worker_event cfg (ListenerReady l) w) as [[er|[]] w'|w'|w'] eqn:E; simpl in E; rewrite E in H; try done.
    + destruct H as [s Hs]. right. by exists l, s.
    + split; [|done]. by eapply (reach_event _ w (ListenerReady l)).
  - pose proof (conn_event_ok cfg id ev w Hi Hcfg) as H. unfold wp in H.
    destruct (worker_event cfg (ConnReady id ev) w) as [r w'|w'|w'] eqn:E; [|by exists id, ev..].
    destruct H as (-> & H & _). split; [|done]. by eapply reach_event.
  - by left.
Qed.

(** C40: Connections are isolated: an event on one connection, whatever its outcome, leaves
    the records, registrations and buffer contents of all others as they were, and
    writes to no other socket. *)
Theorem connection_isolation w id e r w' :
  settings_ok cfg -> reachable cfg w -> worker_event cfg (ConnReady id e) w = Done r w' -> isolated id w w'.
Proof.
  intros Hcfg Hr E. pose proof (conn_event_ok cfg id e w (reachable_winv _ _ Hcfg Hr) Hcfg) as H.
  unfold wp in H. rewrite E in H. apply H.
Qed.

(** ** Requests and responses *)

(** A connection that waits for a request. *)
Definition idle (id : nat) (c : MioConnection) w : Prop :=
  reachable cfg w /\ items w !! id = Some c /\ data_state c = reading.

Lemma idle_waiting id c w : settings_ok cfg -> idle id c w -> waiting cfg id c [] w.
Proof.
  intros Hcfg (Hr & Hc & Hs). pose proof (reachable_winv _ _ Hcfg Hr) as Hi. split; try done.
  destruct (view_lookup _ _ _ _ _ _ _ Hi (view_start _ _ _ _ _ Hi Hc) (read_owned c)) as (b & Hb & _).
  by exists b.
Qed.

Lemma loop_reachable es w w' : reachable cfg w -> worker_loop cfg es w = Done (inr tt) w' -> reachable cfg w'.
Proof.
  revert w. induction es as [|e es IH]; intros w Hr; cbn [worker_loop]; [by intros [= <-]|].
  unfold try. destruct (worker_event cfg e w) as [[|[]] w1| |] eqn:E; try done. apply IH. by eapply reach_event.
Qed.

(** The events of one exchange: the reads [ds], the read of [d] that completes the
    request, and the writes [ms] and [k]. *)
Definition exchange id ds clock d ms k : list Event :=
  reads id (ds ++ [(clock, d)]) ++ writes id (ms ++ [k]).

(** The bytes arrive in any pieces, each too short for an answer before the last. *)
Definition arrives (proto : Protocol) (s : Storage) ds : Prop :=
  Forall (fun y => y.2 <> []) ds /\
  forall ds1 y ds2, ds = ds1 ++ y :: ds2 -> needs_more cfg y.1 proto (joined (ds1 ++ [y])) s.

(** The sockets take the [total] bytes in any pieces. *)
Definition taken (total : Z) (ms : list Z) (k : Z) : Prop :=
  Forall (fun m => 0 < m) ms /\ 0 < k /\ foldr Z.add 0 ms < total <= foldr Z.add 0 ms + k.

Lemma exchange_run id c w ds clock d consumed response s' ms k :
  settings_ok cfg -> idle id c w -> arrives (protocol c) (storage w) ds -> d <> [] ->
  len (joined ds ++ d) <= s_buffer_size cfg ->
  answers cfg clock (protocol c) (joined ds ++ d) (storage w) consumed response s' ->
  taken (len response) ms k ->
  exists w' c' pieces, worker_loop cfg (exchange id ds clock d ms k) w = Done (inr tt) w' /\
    idle id c' w' /\ same_conn c c' /\ storage w' = s' /\
    wire w' = wire w ++ ((stream c,.) <$> pieces) /\ concat pieces = response.
Proof.
  intros Hcfg Hid [Hne Hmore] Hd Hl Hans (Hms & Hk & Hlt & Hge). rewrite len_app in Hl.
  destruct (reads_more cfg Hcfg id c [] ds w) as (w1 & c1 & E1 & Hw1 & Hc1 & S1 & W1);
    [by apply idle_waiting|done|rewrite len_nil; pose proof (len_nonneg d); lia|done|].
  destruct (read_last cfg Hcfg id c1 (joined ds) d clock w1 consumed response s')
    as (w2 & c2 & E2 & Hw2 & Hc2 & _ & S2 & W2); [done|done|done| |].
  { destruct Hc1 as (_ & -> & _). by rewrite S1. }
  destruct (writes_all cfg Hcfg id c2 response 0 ms k w2) as (w3 & c3 & ps & E3 & Hw3 & Hc3 & S3 & W3 & Hps);
    try done.
  assert (E : worker_loop cfg (exchange id ds clock d ms k) w = Done (inr tt) w3).
  { unfold exchange, reads. rewrite fmap_app, <- app_assoc, (worker_loop_app _ _ _ _ _ E1).
    cbn [fmap list_fmap app fst snd]. by rewrite (worker_loop_cons _ _ _ _ _ E2). }
  destruct Hc1 as (? & ? & ? & ?), Hc2 as (? & ? & ? & ?), Hc3 as (? & ? & ? & ?), Hid as [Hr _].
  exists w3, c3, ps. split_and!; try congruence; try done.
  - split_and!; [by eapply loop_reachable|apply Hw3|apply Hw3].
  - unfold same_conn. split_and!; congruence.
Qed.

(** C10: A request that fits one buffer and has a non-empty response that fits one buffer,
    sent on its own (nothing follows it in the bytes that arrive): however its bytes are
    split over reads and the response over writes, the socket receives exactly the
    response of the request layer, the store becomes what the request layer made of it,
    and the connection waits for the next request, with all its buffers accounted for. *)
Theorem request_response id c w ds clock d response s' ms k :
  settings_ok cfg -> idle id c w -> arrives (protocol c) (storage w) ds -> d <> [] ->
  len (joined ds ++ d) <= s_buffer_size cfg ->
  answers cfg clock (protocol c) (joined ds ++ d) (storage w) (len (joined ds ++ d)) response s' ->
  taken (len response) ms k ->
  exists w' c' pieces, worker_loop cfg (exchange id ds clock d ms k) w = Done (inr tt) w' /\
    idle id c' w' /\ same_conn c c' /\ storage w' = s' /\
    wire w' = wire w ++ ((stream c,.) <$> pieces) /\ concat pieces = response.
Proof. apply exchange_run. Qed.

(** Pipelined requests are lost: whatever follows the first request in the bytes that
    were read, it is not processed after the response and does not come before the
    next bytes either. The next request is answered as if nothing had been left
    over. *)
Theorem pipelined_request_lost id c w clock clock2 first rest second resp1 resp2 s1 s2 ms k ms2 k2 :
  settings_ok cfg -> idle id c w -> first <> [] -> second <> [] ->
  len (first ++ rest) <= s_buffer_size cfg -> len second <= s_buffer_size cfg ->
  answers cfg clock (protocol c) (first ++ rest) (storage w) (len first) resp1 s1 ->
  answers cfg clock2 (protocol c) second s1 (len second) resp2 s2 ->
  taken (len resp1) ms k -> taken (len resp2) ms2 k2 ->
  exists w' c' pieces,
    worker_loop cfg (exchange id [] clock (first ++ rest) ms k ++ exchange id [] clock2 second ms2 k2) w =
      Done (inr tt) w' /\
    idle id c' w' /\ storage w' = s2 /\ wire w' = wire w ++ ((stream c,.) <$> pieces) /\
    concat pieces = resp1 ++ resp2.
Proof.
  intros Hcfg Hid Hf Hs Hl1 Hl2 Ha1 Ha2 Ht1 Ht2.
  assert (Hnone : forall proto s, arrives proto s []) by (split; [done|intros [] ? ? ?; done]).
  destruct (exchange_run id c w [] clock (first ++ rest) (len first) resp1 s1 ms k)
    as (w1 & c1 & p1 & E1 & Hid1 & Hc1 & S1 & W1 & Hp1); try done; [by destruct first|].
  destruct Hc1 as (Hst & Hpr & _). rewrite <- Hpr in Ha2.
  destruct (exchange_run id c1 w1 [] clock2 second (len second) resp2 s2 ms2 k2)
    as (w2 & c2 & p2 & E2 & Hid2 & Hc2 & S2 & W2 & Hp2); try done; [by rewrite S1|].
  exists w2, c2, (p1 ++ p2). rewrite (worker_loop_app _ _ _ _ _ E1).
  split_and!; try done; [by rewrite W2, W1, Hst, fmap_app, app_assoc|]. by rewrite concat_app, Hp1, Hp2.
Qed.

(** ** Connections that are closed *)

(** A request with an empty response (memcached's [noreply]) costs the client its
    connection: the request is executed, the event loop waits until the socket is
    writable, writes zero bytes, takes the result for an error and closes. *)
Theorem empty_response_closes id c w clock d consumed s' k :
  settings_ok cfg -> idle id c w -> d <> [] -> len d <= s_buffer_size cfg ->
  answers cfg clock (protocol c) d (storage w) consumed [] s' ->
  exists w', worker_loop cfg [ConnReady id (read_event clock d); ConnReady id (write_event k)] w = Done (inr tt) w' /\
    items w' !! id = None /\ storage w' = s' /\ wire w' = wire w.
Proof.
  intros Hcfg Hid Hd Hl Ha.
  destruct (read_last cfg Hcfg id c [] d clock w consumed [] s') as (w1 & c1 & E1 & Hs1 & Hc1 & _ & S1 & W1);
    [by apply idle_waiting|done|by rewrite len_nil|done|].
  rewrite (worker_loop_cons _ _ _ _ _ E1). cbn [worker_loop]. unfold try.
  destruct (write_nothing cfg Hcfg id c1 0 k w1 Hs1) as (w2 & -> & H2 & S2 & W2).
  exists w2. rewrite H2, lookup_delete_eq. split_and!; try done; congruence.
Qed.

(** A connection whose buffer is full is closed by the next bytes that arrive: the
    read is given no space, returns zero, and counts as the end of the stream.  So a
    request that does not fit one buffer is never executed, chain or not. *)
Theorem full_buffer_closes id c w clock d :
  settings_ok cfg -> reachable cfg w -> items w !! id = Some c -> data_state c = Reading (s_buffer_size cfg) ->
  exists w', worker_event cfg (ConnReady id (read_event clock d)) w = Done (inr tt) w' /\
    items w' !! id = None /\ storage w' = storage w /\ wire w' = wire w.
Proof.
  intros Hcfg Hr Hc Hs. pose proof (reachable_winv _ _ Hcfg Hr) as Hi. destruct Hcfg as (_ & Hpos & _).
  destruct (view_lookup _ _ _ _ _ _ _ Hi (view_start _ _ _ _ _ Hi Hc) (read_owned c)) as (b & Hb & Hl).
  assert (E : wp False (handle_readable clock id (s_max_value_size cfg) (ReadOk d) true)
    (fun r w' => r = inl ConnectionReset /\ w' = w) w).
  { eapply handle_readable_none; try done; [lia|]. rewrite Hl, Z.sub_diag. done. }
  apply wp_returns in E as (r & w' & E & -> & ->).
  erewrite read_event_err by (done || by rewrite Hc).
  destruct (closed_run cfg id None w Hi ltac:(by left)) as (w' & -> & H1 & H2 & H3). exists w'.
  by rewrite H1, lookup_delete_eq.
Qed.

End theorems.

(** ** Witnesses and a concrete run *)

Section witnesses.
#[local] Existing Instance Concrete.release.
#[local] Existing Instance linux64.
#[local] Existing Instance by_elements.
#[local] Existing Instance some_unicode.
#[local] Existing Instance frame64.
#[local] Existing Instance lowest_key.
#[local] Existing Instance lowest_key_laws.

Definition settings_of (size : Z) (proto : Protocol) : settings := mkSettings 2 size 100 proto.

Lemma settings_of_ok size proto : 0 < size <= 1000 -> settings_ok (settings_of size proto).
Proof.
  intros H. unfold settings_ok, settings_of, USIZE_MAX, U64_MAX, I64_MAX. simpl. lia.
Qed.

(** A worker that has accepted the socket 7. *)
Definition fresh_store : Storage := Storage.new 100000 0.
Definition accepted (cfg : settings) : Worker :=
  state_of (worker_event cfg (ListenerReady [(7, true)]) (worker_new cfg fresh_store)).
Definition conn0 (proto : Protocol) : MioConnection := mkMio 7 reading 5 4 None None proto.

Lemma accepted_reachable size proto : reachable (settings_of size proto) (accepted (settings_of size proto)).
Proof.
  eapply (reach_event _ (worker_new (settings_of size proto) fresh_store) (ListenerReady [(7, true)])).
  - apply reach_start.
  - reflexivity.
Qed.

Lemma accepted_idle size proto : idle (settings_of size proto) 0 (conn0 proto) (accepted (settings_of size proto)).
Proof. split_and!; [apply accepted_reachable|reflexivity|reflexivity]. Qed.

Lemma worker_invariant_witness :
  NoDup (held (slab_items (connections (accepted (settings_of 16 PPing))))) /\
  available (buffers (accepted (settings_of 16 PPing))) = 4.
Proof.
  destruct (worker_invariant (settings_of 16 PPing) (accepted (settings_of 16 PPing))) as ((H & _ & _) & _).
  - by apply settings_of_ok.
  - apply accepted_reachable.
  - split; [exact H|reflexivity].
Defined.

Definition clk : nat -> Z := fun _ => SEC.
Definition ping : bytes := «"PING"» ++ crlf.
Definition cfg16 : settings := settings_of 16 PPing.

Lemma worker_event_safe_witness :
  match worker_event cfg16 (ConnReady 0 (read_event clk ping)) (accepted cfg16) with
  | Done (inr _) w' => reachable cfg16 w' /\ winv cfg16 None w'
  | _ => False
  end.
Proof.
  pose proof (worker_event_safe cfg16 (accepted cfg16) (ConnReady 0 (read_event clk ping))
    (settings_of_ok 16 PPing ltac:(lia)) (accepted_reachable 16 PPing)) as H.
  revert H. destruct (worker_event _ _ _) as [[e|[]] w'|w'|w'] eqn:E;
    [|done|apply (f_equal (fun o => match o with Done (inr _) _ => true | _ => false end)) in E; vm_compute in E; discriminate..].
  apply (f_equal (fun o => match o with Done (inr _) _ => true | _ => false end)) in E. vm_compute in E. discriminate.
Defined.

(** The worker that has read the ping. *)
Definition pinged : Worker :=
  Eval vm_compute in state_of (worker_event cfg16 (ConnReady 0 (read_event clk ping)) (accepted cfg16)).

Lemma connection_isolation_witness : isolated 0 (accepted cfg16) pinged.
Proof.
  apply (connection_isolation cfg16 (accepted cfg16) 0 (read_event clk ping) (inr tt)).
  - by apply settings_of_ok.
  - apply accepted_reachable.
  - by_vm.
Defined.

(** One ping and two pings have the same answer. *)
Lemma ping_answers cfg clock rest s :
  6 <= s_buffer_size cfg -> rest = [] \/ rest = ping -> answers cfg clock PPing (ping ++ rest) s 6 response_pong s.
Proof.
  intros Hc Hrest o Ho. assert (Hf : len response_pong <= len o) by (rewrite Ho; change (len response_pong) with 6; lia).
  exists (filled response_pong o). split; [apply filled_len|].
  destruct (filled_fits response_pong o Hf) as [Hs Ht]. split; [exact Ht|].
  assert (E : process clock PPing (ping ++ rest) o (s_max_value_size cfg) s = respond 6 response_pong o s)
    by (destruct Hrest; subst; reflexivity).
  rewrite E, respond_eq. unfold answer. by rewrite Hs.
Qed.

Lemma nothing_arrives cfg proto s : arrives cfg proto s [].
Proof. split; [done|]. intros [] ? ? ?; done. Qed.

(** A ping in two pieces, its answer in two. *)
Lemma request_response_witness :
  exists w' c' pieces, worker_loop cfg16 (exchange 0 [(clk, «"PI"»)] clk (drop 2 ping) [1; 2] 100) (accepted cfg16) =
    Done (inr tt) w' /\ idle cfg16 0 c' w' /\ same_conn (conn0 PPing) c' /\
    storage w' = fresh_store /\ wire w' = [] ++ ((7,.) <$> pieces) /\ concat pieces = response_pong.
Proof.
  apply (request_response cfg16 0 (conn0 PPing) (accepted cfg16) [(clk, «"PI"»)] clk (drop 2 ping)
    response_pong fresh_store [1; 2] 100).
  - by apply settings_of_ok.
  - apply accepted_idle.
  - split; [by repeat constructor|]. intros ds1 y ds2 E.
    destruct ds1 as [|z [|]]; simpl in E; [injection E as <- <-|discriminate..].
    intros o Ho. exists o. split; [done|reflexivity].
  - done.
  - done.
  - apply (ping_answers cfg16 clk [] fresh_store); [done|by left].
  - split; [by repeat constructor|]. done.
Defined.

(** Two pings in one read, then a third: two answers. *)
Lemma pipelined_request_lost_witness :
  exists w' c' pieces,
    worker_loop cfg16 (exchange 0 [] clk (ping ++ ping) [] 6 ++ exchange 0 [] clk ping [] 6) (accepted cfg16) =
      Done (inr tt) w' /\
    idle cfg16 0 c' w' /\ storage w' = fresh_store /\ wire w' = [] ++ ((7,.) <$> pieces) /\
    concat pieces = response_pong ++ response_pong.
Proof.
  apply (pipelined_request_lost cfg16 0 (conn0 PPing) (accepted cfg16) clk clk ping ping ping response_pong
    response_pong fresh_store fresh_store [] 6 [] 6).
  - by apply settings_of_ok.
  - apply accepted_idle.
  - done.
  - done.
  - done.
  - done.
  - apply ping_answers; [done|by right].
  - apply (ping_answers cfg16 clk [] fresh_store); [done|by left].
  - done.
  - done.
Defined.

(** A memcached [set] with [noreply]. *)
Definition cfg32 : settings := settings_of 32 PMemcached.
Definition set_noreply : bytes := «"set k 0 0 1 noreply"» ++ crlf ++ «"x"» ++ crlf.
Definition noreply_cmd : Memcached.Command := CmdSet «"k"» 0 0 1 true.
Lemma noreply_cmd_legal : legal noreply_cmd.
Proof. split; [apply Forall_cons; split; [by split|constructor]|]. vm_compute. repeat split; discriminate. Qed.

Definition noreply_store : Storage :=
  Eval vm_compute in state_of (process clk PMemcached set_noreply (repeat Byte.x00 32) 100 fresh_store).

Lemma empty_response_closes_witness :
  exists w', worker_loop cfg32 [ConnReady 0 (read_event clk set_noreply); ConnReady 0 (write_event 10)]
      (accepted cfg32) = Done (inr tt) w' /\
    slab_items (connections w') !! 0%nat = None /\ storage w' = noreply_store /\ wire w' = [].
Proof.
  apply (empty_response_closes cfg32 0 (conn0 PMemcached) (accepted cfg32) clk set_noreply 24 noreply_store 10).
  - by apply settings_of_ok.
  - apply accepted_idle.
  - done.
  - done.
  - intros o Ho. exists o. split; [done|]. split; [done|].
    refine (eq_trans (process_storage_eq clk noreply_cmd «"x"» [] o 100 fresh_store _ _ _ _) _);
      [apply noreply_cmd_legal|done..|].
    rewrite (bind_done _ _ _ [] noreply_store) by by_vm.
    unfold answer, filled, sent_len. rewrite len_nil, Z.min_l by (by rewrite Ho). reflexivity.
Defined.

(** The header of a large [set] and as much of its data as the buffer takes. *)
Definition full : Worker :=
  Eval vm_compute in state_of (worker_event cfg32 (ConnReady 0 (read_event clk («"set k 0 0 90"» ++ crlf ++ repeat Byte.x61 30)))
    (accepted cfg32)).

Lemma full_buffer_closes_witness :
  exists w', worker_event cfg32 (ConnReady 0 (read_event clk (repeat Byte.x61 30))) full = Done (inr tt) w' /\
    slab_items (connections w') !! 0%nat = None /\ storage w' = storage full /\ wire w' = wire full.
Proof.
  apply (full_buffer_closes cfg32 0
    (mkMio 7 (Reading 32) 5 4 (Some (mkChain [3; 2; 1]%nat 0 32)) None PMemcached) full).
  - by apply settings_of_ok.
  - apply (reach_event _ (accepted cfg32) (ConnReady 0 (read_event clk («"set k 0 0 90"» ++ crlf ++ repeat Byte.x61 30))));
      [apply accepted_reachable|by_vm].
  - by_vm.
  - reflexivity.
Defined.

(** Three copies of a value in one response: 83 bytes, a chain of three buffers. *)
Definition large_events : list Event :=
  [ConnReady 0 (read_event clk («"set k 0 0 10"» ++ crlf ++ «"0123456789"» ++ crlf));
   ConnReady 0 (write_event 100);
   ConnReady 0 (read_event clk («"get k k k"» ++ crlf))].
Definition large : Worker := Eval vm_compute in state_of (worker_loop cfg32 large_events (accepted cfg32)).
Definition get_response : bytes :=
  let one := Response.value «"k"» 0 «"0123456789"» None in one ++ one ++ one ++ Response.rend.

(** The socket takes ten bytes, then everything it is offered. *)
Definition stalled : Worker := Eval vm_compute in state_of (worker_loop cfg32 (writes 0 [10; 1000]) large).

Lemma stalled_event k : worker_event cfg32 (ConnReady 0 (write_event k)) stalled = Done (inr tt) stalled.
Proof. by_vm. Qed.

(** A response in a chain that the socket does not take in one piece is cut off: after
    a first write of ten bytes of an 83-byte response, the socket is offered all but
    the last ten, and from then on nothing; however often it becomes writable, the
    rest is never sent and the connection never reads again. *)
Theorem partial_chain_write_stalls ks :
  reachable cfg32 stalled /\
  concat (snd <$> wire stalled) = Response.stored ++ take 73 get_response /\ len get_response = 83 /\
  worker_loop cfg32 (writes 0 ks) stalled = Done (inr tt) stalled.
Proof.
  split_and!.
  - eapply (loop_reachable _ (writes 0 [10; 1000]) large); [|by_vm].
    apply (loop_reachable cfg32 large_events (accepted cfg32)); [apply (accepted_reachable 32 PMemcached)|by_vm].
  - by_vm.
  - by_vm.
  - induction ks as [|k ks IH]; [done|]. unfold writes. cbn [fmap list_fmap].
    by rewrite (worker_loop_cons _ _ _ _ _ (stalled_event k)).
Qed.

End witnesses.
