(* ===== verification/Uring.v ===== *)
(** * The io_uring event loop (src/runtime/uring/event_loop.rs)

    The worker submits operations and handles their completions.  The state has the
    tokens, the connection registry, the pool of write buffers, the ring of read
    buffers, the store, and the kernel's side: operations in flight, room in the
    submission queue, the position of the kernel in the buffer ring, the bytes sent and
    the descriptors closed.  [kernel] is what the kernel does when an operation
    completes. *)

From S2P Require Import Prelude RustStd Storage Memcached Resp Request Buffer Slab Connection Token BufRing.

(** ** State *)

Inductive uring_error : Type := NotFound | InvalidInput | QueueFull | OsError.

(** A submission: the descriptor, and for a write the buffer, its offset and the
    length. *)
Inductive Sqe : Type :=
| SqeAccept
| SqeRecv (sqe_fd : Z)
| SqeWrite (sqe_fd : Z) (buf_idx : nat) (offset n : Z).

Section uring.
Context `{BP : BuildProfile, LY : Layout, HO : HashOrder, UC : UnicodeCase, FL : FrameLayout, SL : SlabLib}.

Record UWorker := mkUWorker {
  tokens : TokenAllocator;
  registry : ConnectionRegistry;
  write_buffers : BufferPool;
  storage : Storage;
  read_buf_ring : BufRing;
  ring_head : Z;
  inflight : gmap nat Sqe;
  sq_room : nat;
  closed : list Z;
  wire : list (Z * bytes)
}.

Abbreviation io A := (st UWorker (uring_error + A)).

Definition with_tokens x (w : UWorker) := mkUWorker x (registry w) (write_buffers w) (storage w)
  (read_buf_ring w) (ring_head w) (inflight w) (sq_room w) (closed w) (wire w).
Definition with_registry x (w : UWorker) := mkUWorker (tokens w) x (write_buffers w) (storage w)
  (read_buf_ring w) (ring_head w) (inflight w) (sq_room w) (closed w) (wire w).
Definition with_write_buffers x (w : UWorker) := mkUWorker (tokens w) (registry w) x (storage w)
  (read_buf_ring w) (ring_head w) (inflight w) (sq_room w) (closed w) (wire w).
Definition with_storage x (w : UWorker) := mkUWorker (tokens w) (registry w) (write_buffers w) x
  (read_buf_ring w) (ring_head w) (inflight w) (sq_room w) (closed w) (wire w).
Definition with_ring r h (w : UWorker) := mkUWorker (tokens w) (registry w) (write_buffers w) (storage w)
  r h (inflight w) (sq_room w) (closed w) (wire w).
Definition with_queue i n (w : UWorker) := mkUWorker (tokens w) (registry w) (write_buffers w) (storage w)
  (read_buf_ring w) (ring_head w) i n (closed w) (wire w).
Definition with_closed x (w : UWorker) := mkUWorker (tokens w) (registry w) (write_buffers w) (storage w)
  (read_buf_ring w) (ring_head w) (inflight w) (sq_room w) x (wire w).
Definition with_wire x (w : UWorker) := mkUWorker (tokens w) (registry w) (write_buffers w) (storage w)
  (read_buf_ring w) (ring_head w) (inflight w) (sq_room w) (closed w) x.

Definition on_tokens {A} (m : st TokenAllocator A) : st UWorker A := zoom tokens with_tokens m.
Definition on_registry {A} (m : st ConnectionRegistry A) : st UWorker A := zoom registry with_registry m.
Definition on_buffers {A} (m : st BufferPool A) : st UWorker A := zoom write_buffers with_write_buffers m.
Definition on_storage {A} (m : st Storage A) : st UWorker A := zoom storage with_storage m.

(** [read_buf_ring.recycle_buffer(bid)] *)
Definition recycle (bid : Z) : st UWorker unit :=
  modify (fun w => with_ring (recycle_buffer bid (read_buf_ring w)) (ring_head w) w).

(** [libc::close(fd)] *)
Definition close_fd (f : Z) : st UWorker unit := modify (fun w => with_closed (closed w ++ [f]) w).

(** ** Submissions *)

(** [ring.submission().push(..)]: a full queue frees the token and is an error. *)
Definition push_sqe (token : nat) (e : Sqe) : io unit :=
  room ← gets sq_room;
  match room with
  | O => on_tokens (token_free token);; err QueueFull
  | S room' => noerr (modify (fun w => with_queue (<[token := e]> (inflight w)) room' w))
  end.

Definition submit_accept : io unit :=
  token ← on_tokens (token_alloc OpAccept);
  push_sqe token SqeAccept.

Definition submit_read (conn_id : nat) : io unit :=
  c ← gets (fun w => registry_get conn_id (registry w));
  match c with
  | None => err NotFound
  | Some conn =>
      token ← on_tokens (token_alloc (OpRead conn_id));
      push_sqe token (SqeRecv (fd conn))
  end.

Definition submit_write (conn_id : nat) (n : Z) : io unit :=
  c ← gets (fun w => registry_get conn_id (registry w));
  match c with
  | None => err NotFound
  | Some conn =>
      match phase conn with
      | Established (Writing buf_idx offset _) =>
          p ← gets write_buffers;
          _ ← lift (get_buffer p (Z.to_nat buf_idx));
          token ← on_tokens (token_alloc (OpWrite conn_id (Z.to_nat buf_idx)));
          push_sqe token (SqeWrite (fd conn) (Z.to_nat buf_idx) offset (n mod 4294967296))
      | _ => err InvalidInput
      end
  end.

(** ** Closing and accepting *)

Definition close_connection (conn_id : nat) : st UWorker unit :=
  r ← on_registry (registry_remove conn_id);
  match r with
  | None => mret tt
  | Some conn =>
      (match phase conn with
       | Established (Writing buf_idx _ _) => on_buffers (free (Z.to_nat buf_idx))
       | _ => mret tt
       end);;
      (match read_buf_idx conn with
       | Some buf_idx => on_buffers (free buf_idx)
       | None => mret tt
       end);;
      close_fd (fd conn)
  end.

Definition handle_accept (result : Z) (proto : Protocol) : io unit :=
  _ ←? submit_accept;
  if result <? 0 then ok tt
  else
    r ← on_registry (registry_insert (conn_new result proto));
    match r with
    | Some conn_id => submit_read conn_id
    | None => noerr (close_fd result)
    end.

(** ** Reading *)

(** A buffer is filled in place by the request layer. *)
Definition set_buffer (idx : nat) (b : bytes) : st BufferPool unit := modify (fun p =>
  mkPool (<[idx := b]> (pool_buffers p)) (free_list p) (pool_buffer_size p)).

(** Assigning to the connection through [get_mut]. *)
Definition update (conn_id : nat) (m : st Connection unit) : st UWorker (option unit) :=
  on_registry (registry_get_mut conn_id m).

(** Shift what was not consumed to the start of the accumulation buffer. *)
Definition keep_leftover (conn_id accum_buf_idx : nat) (consumed total_len : Z) : st UWorker unit :=
  if consumed <? total_len then
    p ← gets write_buffers;
    rest ← lift (buf ← get_buffer p accum_buf_idx; slice buf consumed total_len);
    on_buffers (write_buffer accum_buf_idx 0 (total_len - consumed) rest);;
    update conn_id (modify (fun c => with_read (read_buf_idx c) (total_len - consumed) c));;
    mret tt
  else
    update conn_id (modify (fun c => with_read (read_buf_idx c) 0 c));;
    mret tt.

(** Give the write buffer back and close. *)
Definition abandon (conn_id write_buf_idx : nat) : io unit :=
  on_buffers (free write_buf_idx);;
  noerr (close_connection conn_id).

(** [conn.start_writing(..)] and [submit_write(..)]. *)
Definition respond_with (conn_id write_buf_idx : nat) (n : Z) : io unit :=
  update conn_id (start_writing (Z.of_nat write_buf_idx) n);;
  submit_write conn_id n.

(** The match on the result of the request. *)
Definition apply_result (conn_id accum_buf_idx write_buf_idx : nat) (total_len : Z) (result : ProcessResult)
    : io unit :=
  c ← gets (fun w => registry_get conn_id (registry w));
  match c with
  | None => noerr (on_buffers (free write_buf_idx))
  | Some _ =>
      match result with
      | Request.NeedData => on_buffers (free write_buf_idx);; submit_read conn_id
      | NeedChain _ _ => abandon conn_id write_buf_idx
      | Response consumed response_len =>
          keep_leftover conn_id accum_buf_idx consumed total_len;;
          respond_with conn_id write_buf_idx response_len
      | LargeResponse consumed response_data =>
          keep_leftover conn_id accum_buf_idx consumed total_len;;
          size ← gets (fun w => buffer_size (write_buffers w));
          if len response_data <=? size then
            on_buffers (write_buffer write_buf_idx 0 (len response_data) response_data);;
            respond_with conn_id write_buf_idx (len response_data)
          else abandon conn_id write_buf_idx
      | Quit => abandon conn_id write_buf_idx
      | Request.Error => abandon conn_id write_buf_idx
      end
  end.

(** From the data in the accumulation buffer on: take a write buffer and process the
    request. *)
Definition process_input (clock : nat -> Z) (conn_id accum_buf_idx : nat) (proto : Protocol)
    (total_len max_value_size : Z) : io unit :=
  p ← gets write_buffers;
  input ← lift (buf ← get_buffer p accum_buf_idx; slice buf 0 total_len);
  r ← on_buffers alloc;
  match r with
  | None => noerr (close_connection conn_id)
  | Some write_buf_idx =>
      p ← gets write_buffers;
      write_buf ← lift (get_buffer p write_buf_idx);
      '(result, write_buf) ← on_storage (process clock proto input write_buf max_value_size);
      on_buffers (set_buffer write_buf_idx write_buf);;
      apply_result conn_id accum_buf_idx write_buf_idx total_len result
  end.

(** The accumulation buffer of the connection, allocated on first use. *)
Definition accumulation_buffer (conn_id : nat) (conn : Connection) : st UWorker (option nat) :=
  match read_buf_idx conn with
  | Some idx => mret (Some idx)
  | None =>
      r ← on_buffers alloc;
      match r with
      | Some idx =>
          update conn_id (modify (fun c => with_read (Some idx) (read_accumulated c) c));;
          mret (Some idx)
      | None => mret None
      end
  end.

(** [if let Some(bid) = buf_id { recycle }] *)
Definition recycle_opt (buf_id : option Z) : st UWorker unit :=
  match buf_id with Some bid => recycle bid | None => mret tt end.

Definition handle_read (clock : nat -> Z) (result : Z) (conn_id : nat) (buf_id : option Z)
    (max_value_size : Z) : io unit :=
  if result <=? 0 then
    recycle_opt buf_id;; noerr (close_connection conn_id)
  else
    match buf_id with
    | None => noerr (close_connection conn_id)
    | Some bid =>
        buffer_size ← gets (fun w => buffer_size (write_buffers w));
        c ← gets (fun w => registry_get conn_id (registry w));
        match c with
        | None => noerr (recycle bid)
        | Some conn =>
            let accumulated := read_accumulated conn in
            a ← accumulation_buffer conn_id conn;
            match a with
            | None => recycle bid;; noerr (close_connection conn_id)
            | Some accum_buf_idx =>
                ring ← gets read_buf_ring;
                new_data ← lift (buf ← get_buffer_slice ring bid; slice buf 0 result);
                total_len ← lift (usize_add accumulated result);
                if buffer_size <? total_len then
                  recycle bid;; noerr (close_connection conn_id)
                else
                  on_buffers (write_buffer accum_buf_idx accumulated total_len new_data);;
                  recycle bid;;
                  u ← update conn_id (modify (fun c => with_read (read_buf_idx c) total_len c));
                  match u with
                  | None => lift Panic
                  | Some _ => process_input clock conn_id accum_buf_idx (conn_protocol conn) total_len max_value_size
                  end
            end
        end
    end.

(** ** Writing *)

Definition handle_write (result : Z) (conn_id buf_idx : nat) : io unit :=
  if result <=? 0 then
    on_buffers (free buf_idx);; noerr (close_connection conn_id)
  else
    c ← gets (fun w => registry_get conn_id (registry w));
    match c with
    | None => noerr (on_buffers (free buf_idx))
    | Some conn =>
        match phase conn with
        | Established (Writing b written total) =>
            new_written ← lift (usize_add written result);
            update conn_id (modify (with_phase (Established (Writing b new_written total))));;
            if total <=? new_written then
              on_buffers (free buf_idx);;
              update conn_id start_reading;;
              submit_read conn_id
            else submit_write conn_id (total - new_written)
        | _ => ok tt
        end
    end.

(** ** Completions *)

(** A completion queue entry: the token, the result, the buffer the kernel selected,
    and the bytes it put there. *)
Record Cqe := mkCqe {
  user_data : nat;
  result : Z;
  buffer_select : option Z;
  received : bytes;
  now : nat -> Z
}.

(** The kernel completes an operation: it is no longer in flight; a receive has put its
    bytes into the buffer it selected, which it takes from the ring; a write has sent
    that many bytes of the buffer, as it is when the operation completes. *)
Definition fill_buffer (bid : Z) (d : bytes) (r : BufRing) : BufRing :=
  mkRing (ring_slots r)
    (alter (fun old => d ++ drop (length d) old) (Z.to_nat bid) (ring_buffers r))
    (ring_entries r) (ring_buffer_size r) (ring_tail r).

Definition kernel (c : Cqe) (w : UWorker) : UWorker :=
  let e := inflight w !! user_data c in
  let w := with_queue (base.delete (user_data c) (inflight w)) (sq_room w) w in
  match e with
  | Some (SqeRecv _) =>
      match buffer_select c with
      | Some bid => with_ring (fill_buffer bid (received c) (read_buf_ring w)) (u16 (ring_head w + 1)) w
      | None => w
      end
  | Some (SqeWrite f idx offset _) =>
      if 0 <? result c then
        let buf := default [] (pool_buffers (write_buffers w) !! idx) in
        with_wire (wire w ++ [(f, take (Z.to_nat (result c)) (drop (Z.to_nat offset) buf))]) w
      else w
  | _ => w
  end.

(** What io_uring promises about a completion: it belongs to an operation in flight; a
    receive with data names the buffer at the head of the ring and its length fits the
    buffer; a write reports at most what was asked for. *)
Definition cqe_ok (w : UWorker) (c : Cqe) : Prop :=
  match inflight w !! user_data c with
  | None => False
  | Some SqeAccept => buffer_select c = None
  | Some (SqeRecv _) =>
      match buffer_select c with
      | Some bid => (exists e, kernel_next (ring_head w) (read_buf_ring w) = Some e /\ e_bid e = bid) /\
          (0 < result c -> len (received c) = result c) /\ len (received c) <= ring_buffer_size (read_buf_ring w)
      | None => result c <= 0
      end
  | Some (SqeWrite _ _ _ n) => result c <= n /\ buffer_select c = None
  end.

(** The constants of [worker_loop]. *)
Record settings := mkSettings {
  s_max_connections : Z;
  s_buffer_size : Z;
  s_max_value_size : Z;
  s_protocol : Protocol
}.

(** One round of the loop over completions. *)
Definition handle_completion (cfg : settings) (c : Cqe) : io unit :=
  op ← on_tokens (token_free (user_data c));
  match op with
  | None => ok tt
  | Some OpAccept => handle_accept (result c) (s_protocol cfg)
  | Some (OpRead conn_id) =>
      handle_read (now c) (result c) conn_id (buffer_select c) (s_max_value_size cfg)
  | Some (OpWrite conn_id buf_idx) => handle_write (result c) conn_id buf_idx
  end.

(** [submit_and_wait] hands the queued operations to the kernel and leaves [room] free
    entries, or fails; then completions are handled. *)
Inductive Event : Type :=
| Submitted (room : nat)
| Completed (c : Cqe)
| SubmitFailed.

Definition worker_event (cfg : settings) (e : Event) : io unit :=
  match e with
  | Submitted room => noerr (modify (fun w => with_queue (inflight w) room w))
  | Completed c => modify (kernel c);; handle_completion cfg c
  | SubmitFailed => err OsError
  end.

Fixpoint worker_loop (cfg : settings) (events : list Event) : io unit :=
  match events with
  | [] => ok tt
  | e :: rest => _ ←? worker_event cfg e; worker_loop cfg rest
  end.

(** The worker once its ring has been created, with its first accept submitted;
    [room] is the size of the submission queue. *)
Definition worker_new (cfg : settings) (s : Storage) (r : BufRing) (room : nat) : outcome UWorker (uring_error + unit) :=
  submit_accept (mkUWorker tokens_new (registry_new (s_max_connections cfg))
    (pool_new (Z.to_nat (Z.min (s_max_connections cfg * 2) 8192)) (s_buffer_size cfg)) s r 0 ∅ room [] []).

End uring.
