(* ===== verification/UringFacts.v ===== *)
(** * The io_uring event loop: the invariant of a worker

    Every connection has exactly one operation in flight, the one its state waits for,
    and the accept is always in flight; buffers are owned by one connection; the
    buffer ring is complete between completions.  [uview] is what a handler knows while
    it works on the connection whose operation has just completed. *)

From S2P Require Import Prelude RustStd Storage Memcached Resp Ping Echo Request RequestFacts RequestBounds.
From S2P Require Import Buffer BufferFacts Slab Connection ConnectionThms Token BufRing Uring.

(** ** Ownership *)

Definition phase_bufs (p : ConnPhase) : list nat :=
  match p with Established (Writing b _ _) => [Z.to_nat b] | _ => [] end.

Definition uowned (c : Connection) : list nat := phase_bufs (phase c) ++ option_list (read_buf_idx c).

Definition uheld (m : gmap nat Connection) : list nat :=
  concat ((fun x => uowned x.2) <$> map_to_list m).

Lemma uheld_insert m id c : m !! id = None -> uheld (<[id := c]> m) ≡ₚ uowned c ++ uheld m.
Proof. intros H. unfold uheld. by rewrite map_to_list_insert. Qed.

Lemma uheld_delete m id c : m !! id = Some c -> uheld m ≡ₚ uowned c ++ uheld (base.delete id m).
Proof.
  intros H. rewrite <- (uheld_insert _ id c) by apply lookup_delete_eq. by rewrite insert_delete_id.
Qed.

(** ** Operations and connections *)

(** The connection an operation belongs to; the accept belongs to none. *)
Definition op_conn (o : OpType) : option nat :=
  match o with OpAccept => None | OpRead id | OpWrite id _ => Some id end.

(** An operation and its submission fit the state of the connection. *)
Definition op_ok (m : gmap nat Connection) (o : OpType) (e : Sqe) : Prop :=
  match o, e with
  | OpAccept, SqeAccept => True
  | OpRead id, SqeRecv f => exists c x, m !! id = Some c /\ phase c = Established (Reading x) /\ f = fd c
  | OpWrite id b, SqeWrite f b' off n =>
      exists c t, m !! id = Some c /\ phase c = Established (Writing (Z.of_nat b) off t) /\
        f = fd c /\ b' = b /\ n = t - off
  | _, _ => False
  end.

Definition conn_good (size : Z) (c : Connection) : Prop :=
  0 <= read_accumulated c <= size /\ (read_buf_idx c = None -> read_accumulated c = 0) /\
  match phase c with
  | Established (Reading _) => True
  | Established (Writing b off t) => 0 <= b /\ 0 <= off <= t /\ t <= size
  | _ => False
  end.

Lemma conn_good_read size c i n :
  conn_good size c -> 0 <= n <= size -> conn_good size (with_read (Some i) n c).
Proof. intros (_ & _ & Hp) Hn. split_and!; simpl; try done; lia. Qed.

Definition settings_ok (cfg : settings) : Prop :=
  0 <= s_max_connections cfg /\ 0 < s_buffer_size cfg < 4294967296 /\ 0 <= s_max_value_size cfg /\
  2 * s_buffer_size cfg + s_max_value_size cfg <= I64_MAX - 2.

Section invariant.
Context `{BP : BuildProfile, LY : Layout, HO : HashOrder, UC : UnicodeCase, FL : FrameLayout}.
Context `{SL : SlabLib, LW : !SlabLaws}.
Context (cfg : settings).
Implicit Types (w : UWorker) (F : Prop).

Abbreviation conns w := (slab_items (connections (registry w))).
Abbreviation in_flight w := (slab_items (ops (tokens w))).

(** The buffer ring, with the buffers [in_use] taken from it. *)
Definition ring_state (in_use : list Z) (r : BufRing) (head : Z) : Prop :=
  (exists n h t, ring_inv n in_use head r h t /\ length (ring_buffers r) = n) /\
  Forall (fun b => len b = s_buffer_size cfg) (ring_buffers r) /\ ring_buffer_size r = s_buffer_size cfg.

(** [gap] is a connection (or the accept) without its operation. *)
Record uinv (gap : option (option nat)) (w : UWorker) : Prop := {
  u_ops : forall t o, in_flight w !! t = Some o ->
    gap <> Some (op_conn o) /\ exists e, inflight w !! t = Some e /\ op_ok (conns w) o e;
  u_dom : dom (inflight w) = dom (in_flight w);
  u_inj : forall t1 t2 o1 o2, in_flight w !! t1 = Some o1 -> in_flight w !! t2 = Some o2 ->
    op_conn o1 = op_conn o2 -> t1 = t2;
  u_all : forall k, k = None \/ (exists id c, k = Some id /\ conns w !! id = Some c) -> gap <> Some k ->
    exists t o, in_flight w !! t = Some o /\ op_conn o = k;
  u_pool : pool_inv (uheld (conns w)) (write_buffers w);
  u_size : pool_buffer_size (write_buffers w) = s_buffer_size cfg;
  u_conn : forall id c, conns w !! id = Some c -> conn_good (s_buffer_size cfg) c;
  u_max : Z.of_nat (size (conns w)) <= s_max_connections cfg /\
          max_connections (registry w) = s_max_connections cfg
}.

(** ** The view of a handler *)

Record uview (id : nat) (w0 : UWorker) (c : Connection) (mine : list nat) (w : UWorker) : Prop := {
  uv_conns : conns w = <[id := c]> (conns w0);
  uv_max : max_connections (registry w) = max_connections (registry w0);
  uv_pool : pool_inv (mine ++ uheld (base.delete id (conns w0))) (write_buffers w);
  uv_frame : frame (uheld (base.delete id (conns w0))) (write_buffers w0) (write_buffers w);
  uv_tokens : tokens w = tokens w0;
  uv_inflight : inflight w = inflight w0
}.

(** What else a handler leaves alone. *)
Definition calm w w' : Prop :=
  storage w' = storage w /\ read_buf_ring w' = read_buf_ring w /\ ring_head w' = ring_head w /\
  sq_room w' = sq_room w /\ closed w' = closed w /\ wire w' = wire w.

#[global] Instance calm_preorder : PreOrder calm.
Proof. split; [done|]. intros x y z. unfold calm. intros (?&?&?&?&?&?) (?&?&?&?&?&?). split_and!; congruence. Qed.

#[global] Instance uview_proper id w0 c : Proper ((≡ₚ) ==> eq ==> iff) (uview id w0 c).
Proof.
  assert (H : forall X Y w, X ≡ₚ Y -> uview id w0 c X w -> uview id w0 c Y w).
  { intros X Y w HX [? ? Hp ? ? ?]. split; try done. by rewrite <- HX. }
  intros X Y HX w ? <-. split; apply H; [done|by symmetry].
Qed.

Lemma uview_start gap id w c : uinv gap w -> conns w !! id = Some c -> uview id w c (uowned c) w.
Proof.
  intros Hi Hc. split; try done; [by rewrite insert_id|]. rewrite <- (uheld_delete _ _ _ Hc). apply Hi.
Qed.

Lemma uview_get id w0 c X w : uview id w0 c X w -> registry_get id (registry w) = Some c.
Proof. intros V. unfold registry_get, slab_get. by rewrite (uv_conns _ _ _ _ _ V), lookup_insert_eq. Qed.

Lemma uview_update F id w0 c X w m c' (Q : option unit -> UWorker -> Prop) :
  uview id w0 c X w -> m c = Done tt c' ->
  (forall w', uview id w0 c' X w' -> calm w w' -> write_buffers w' = write_buffers w -> Q (Some tt) w') ->
  wp F (update id m) Q w.
Proof.
  intros V Hm HQ. destruct (registry_get_mut_eq id m (registry w) c tt c' (uview_get _ _ _ _ _ V) Hm)
    as (r' & E & Hi & Hmax). eapply wp_zoom; [done|]. apply HQ; try done.
  destruct V as [Vc Vm Vp Vf Vt Vi]. split; try done; simpl; [|congruence].
  by rewrite Hi, Vc, insert_insert_eq.
Qed.

Lemma uview_buffers id w0 c X Y w p :
  uview id w0 c X w -> pool_inv (Y ++ uheld (base.delete id (conns w0))) p ->
  frame (uheld (base.delete id (conns w0))) (write_buffers w) p -> uview id w0 c Y (with_write_buffers p w).
Proof. intros [Vc Vm Vp Vf Vt Vi] Hp Hf. split; try done. by etrans. Qed.

(** Freeing a buffer in hand. *)
Lemma uview_free F id w0 c X i w (Q : unit -> UWorker -> Prop) :
  uview id w0 c (i :: X) w ->
  (forall p, uview id w0 c X (with_write_buffers p w) -> pool_buffers p = pool_buffers (write_buffers w) ->
    length (free_list p) = S (length (free_list (write_buffers w))) -> Q tt (with_write_buffers p w)) ->
  wp F (on_buffers (free i)) Q w.
Proof.
  intros V HQ. destruct (free_inv _ _ _ (uv_pool _ _ _ _ _ V)) as (p & E & Hp & Hf & Hb & Hs).
  eapply wp_zoom; [done|]. apply HQ; [|done|].
  - eapply uview_buffers; [done|done|by apply frame_eq].
  - rewrite Hf. unfold push. rewrite length_app. simpl. lia.
Qed.

(** Taking a buffer, or finding the pool empty. *)
Lemma uview_alloc F id w0 c X w (Q : option nat -> UWorker -> Prop) :
  uview id w0 c X w ->
  (forall i p, uview id w0 c (i :: X) (with_write_buffers p w) -> pool_buffers p = pool_buffers (write_buffers w) ->
    length (free_list (write_buffers w)) = S (length (free_list p)) -> Q (Some i) (with_write_buffers p w)) ->
  (length (free_list (write_buffers w)) = 0%nat -> Q None w) -> wp F (on_buffers alloc) Q w.
Proof.
  intros V H1 H2. unfold on_buffers, zoom, wp. destruct (alloc (write_buffers w)) as [[i|] p|p|p] eqn:E.
  - destruct (alloc_inv _ _ _ _ (uv_pool _ _ _ _ _ V) E) as (Hp & Hf & Hb & Hs). apply H1; [|done|].
    + eapply uview_buffers; [done|done|by apply frame_eq].
    + rewrite Hf. unfold push. rewrite length_app. simpl. lia.
  - unfold alloc in E. destruct (pop _) as [[]|] eqn:Ep; simplify_eq. apply pop_None in Ep.
    destruct w. apply H2. simpl in *. by rewrite Ep.
  - unfold alloc in E. by destruct (pop _) as [[]|].
  - unfold alloc in E. by destruct (pop _) as [[]|].
Qed.

Lemma uview_size id w0 c X w :
  pool_buffer_size (write_buffers w0) = s_buffer_size cfg -> uview id w0 c X w ->
  pool_buffer_size (write_buffers w) = s_buffer_size cfg.
Proof. intros Hs [_ _ _ (_ & _ & ->) _ _]. done. Qed.

Lemma uview_lookup id w0 c X w i :
  pool_buffer_size (write_buffers w0) = s_buffer_size cfg -> uview id w0 c X w -> i ∈ X ->
  exists b, pool_buffers (write_buffers w) !! i = Some b /\ len b = s_buffer_size cfg.
Proof.
  intros Hs V HX. destruct (held_lookup _ _ i (uv_pool _ _ _ _ _ V)) as (b & Hb & Hl); [set_solver|].
  exists b. split; [done|]. by rewrite Hl, (uview_size _ _ _ _ _ Hs V).
Qed.

(** A buffer in hand is nobody else's. *)
Lemma umine_not_held id w0 c X w i :
  uview id w0 c X w -> i ∈ X -> i ∉ uheld (base.delete id (conns w0)).
Proof. intros V Hi. apply uv_pool, held_NoDup, NoDup_app in V as (_ & Hd & _). by apply Hd. Qed.

Lemma uview_write id w0 c X w i b a src :
  uview id w0 c X w -> i ∈ X -> pool_buffers (write_buffers w) !! i = Some b -> 0 <= a -> a + len src <= len b ->
  exists p, write_buffer i a (a + len src) src (write_buffers w) = Done tt p /\
    uview id w0 c X (with_write_buffers p w) /\
    pool_buffers p = <[i := take (Z.to_nat a) b ++ src ++ drop (Z.to_nat (a + len src)) b]> (pool_buffers (write_buffers w)).
Proof.
  intros V HX Hb Ha Hl. destruct (write_buffer_inv _ _ _ _ a src (uv_pool _ _ _ _ _ V) Hb Ha Hl)
    as (b' & p & E & Hp & -> & Hb' & _ & Hs). exists p. split_and!; try done.
  eapply uview_buffers; [done|done|]. eapply frame_insert; [by eapply umine_not_held|done|done].
Qed.

Lemma uview_set id w0 c X w i b b' :
  uview id w0 c X w -> i ∈ X -> pool_buffers (write_buffers w) !! i = Some b -> len b' = len b ->
  exists p, set_buffer i b' (write_buffers w) = Done tt p /\ uview id w0 c X (with_write_buffers p w) /\
    pool_buffers p = <[i := b']> (pool_buffers (write_buffers w)).
Proof.
  intros V HX Hb Hl. eexists. split_and!; [done| |done].
  eapply uview_buffers; [done|by eapply pool_inv_write, Hl; [apply V|]|].
  eapply frame_insert; [by eapply umine_not_held|done|done].
Qed.

(** ** Reading *)

(** Buffers a read needs: one for the response, one to accumulate in unless the
    connection has it. *)
Definition enough (c : Connection) (w : UWorker) : Prop :=
  (match read_buf_idx c with Some _ => 1 | None => 2 end <= length (free_list (write_buffers w)))%nat.

(** The bytes a connection has accumulated. *)
Definition accumulated (c : Connection) (w : UWorker) : bytes :=
  match read_buf_idx c with
  | Some i => take (Z.to_nat (read_accumulated c)) (default [] (pool_buffers (write_buffers w) !! i))
  | None => []
  end.

Lemma accumulation_buffer_run F id w0 c w Q :
  uview id w0 c (uowned c) w -> pool_buffer_size (write_buffers w0) = s_buffer_size cfg ->
  conn_good (s_buffer_size cfg) c ->
  (forall i w' b, let c' := with_read (Some i) (read_accumulated c) c in
    uview id w0 c' (uowned c') w' -> calm w w' -> pool_buffers (write_buffers w') !! i = Some b ->
    len b = s_buffer_size cfg -> take (Z.to_nat (read_accumulated c)) b = accumulated c w ->
    (length (free_list (write_buffers w')) + (match read_buf_idx c with Some _ => 0 | None => 1 end) =
      length (free_list (write_buffers w)))%nat -> Q (Some i) w') ->
  (~ enough c w -> Q None w) ->
  wp F (accumulation_buffer id c) Q w.
Proof.
  intros V Hsz (Hacc & Hnone & _) H1 H2. unfold accumulation_buffer, enough, accumulated in *.
  destruct (read_buf_idx c) as [i|] eqn:Ei.
  - eapply wp_done; [done|]. destruct (uview_lookup _ _ _ _ _ i Hsz V) as (b & Hb & Hl).
    { unfold uowned. rewrite Ei. set_solver. }
    assert (Ec : with_read (Some i) (read_accumulated c) c = c) by (destruct c; simpl in *; by subst).
    eapply (H1 i w b); rewrite ?Ec; try done; rewrite ?Hb; try done; try lia.
  - apply wp_bind. eapply uview_alloc; [done| |intros H0; apply (wp_done _ _ _ _ None w); [done|]; apply H2; lia].
    intros i p V1 B1 L1. apply wp_bind. eapply uview_update; [done|done|].
    intros w2 V2 C2 B2. eapply wp_done; [done|].
    assert (V2' : uview id w0 (with_read (Some i) (read_accumulated c) c)
      (uowned (with_read (Some i) (read_accumulated c) c)) w2).
    { unfold uowned in *. simpl in *. rewrite Ei in V2. simpl in V2. rewrite app_nil_r in V2.
      by rewrite Permutation_app_comm. }
    destruct (uview_lookup _ _ _ _ _ i Hsz V2') as (b & Hb & Hl); [unfold uowned; simpl; set_solver|].
    eapply (H1 i w2 b); try done; rewrite ?B2; simpl in *; [|lia].
    by rewrite (Hnone eq_refl), take_0.
Qed.

(** Everything but the connection, the pool and the store. *)
Definition still w w' : Prop :=
  read_buf_ring w' = read_buf_ring w /\ ring_head w' = ring_head w /\
  sq_room w' = sq_room w /\ closed w' = closed w /\ wire w' = wire w.

Lemma process_input_run F clock id w0 c i b w total Q :
  uview id w0 c (uowned c) w -> pool_buffer_size (write_buffers w0) = s_buffer_size cfg ->
  read_buf_idx c = Some i -> pool_buffers (write_buffers w) !! i = Some b -> len b = s_buffer_size cfg ->
  0 <= total <= s_buffer_size cfg ->
  (forall o, len o = s_buffer_size cfg -> (0 < length (free_list (write_buffers w)))%nat ->
    match process clock (conn_protocol c) (take (Z.to_nat total) b) o (s_max_value_size cfg) (storage w) with
    | Done (res, out) s' => len out = len o /\
        forall j w', uview id w0 c (j :: uowned c) w' -> storage w' = s' -> still w w' ->
          pool_buffers (write_buffers w') !! j = Some out -> pool_buffers (write_buffers w') !! i = Some b ->
          length (free_list (write_buffers w)) = S (length (free_list (write_buffers w'))) ->
          wp F (apply_result id i j total res) Q w'
    | _ => F
    end) ->
  (length (free_list (write_buffers w)) = 0%nat -> wp F (noerr (close_connection id)) Q w) ->
  wp F (process_input clock id i (conn_protocol c) total (s_max_value_size cfg)) Q w.
Proof.
  intros V Hsz Hi Hb Hl Ht HP Hclose. unfold process_input. apply wp_bind. eapply wp_done; [done|].
  apply wp_bind. eapply (wp_lift _ _ _ _ (take (Z.to_nat total) b)).
  { rewrite (get_buffer_Val _ _ _ Hb). cbn [mbind comp_bind]. unfold slice.
    rewrite !(proj2 (Z.leb_le _ _)) by lia. by rewrite Z.sub_0_r, drop_0. }
  apply wp_bind. eapply uview_alloc; [done| |done]. intros j p V1 B1 L1.
  destruct (uview_lookup _ _ _ _ _ j Hsz V1) as (o & Ho & Hlo); [set_solver|].
  apply wp_bind. eapply wp_done; [done|]. apply wp_bind. eapply wp_lift; [by apply get_buffer_Val|].
  apply wp_bind. unfold on_storage, zoom, wp at 1. simpl storage. specialize (HP o Hlo ltac:(lia)).
  destruct (process _ _ _ _ _ _) as [[res out] s'|s'|s']; [|done..]. destruct HP as [Hout HP].
  assert (V2 : uview id w0 c (j :: uowned c) (with_storage s' (with_write_buffers p w))) by (by destruct V1).
  destruct (uview_set _ _ _ _ _ j o out V2) as (p3 & E3 & V3 & B3); [set_solver|done|done|].
  assert (Hne : j <> i).
  { pose proof (uv_pool _ _ _ _ _ V1) as Hp. apply held_NoDup, NoDup_app in Hp as (Hp & _ & _).
    apply NoDup_cons in Hp as [Hp _]. intros ->. apply Hp. unfold uowned. rewrite Hi. set_solver. }
  apply wp_bind. eapply wp_zoom; [done|]. apply HP; try done; simpl in *.
  - rewrite B3. apply list_lookup_insert_eq. by eapply lookup_lt_Some.
  - rewrite B3, list_lookup_insert_ne by done. by rewrite B1.
  - unfold set_buffer, modify in E3. by injection E3 as <-.
Qed.

(** The received bytes go behind the accumulated ones and the provided buffer goes back
    to the ring. *)
Lemma copy_received_run F id w0 c i b bid d w (K : st UWorker (uring_error + unit)) Q :
  let total := read_accumulated c + len d in
  let c1 := with_read (Some i) (read_accumulated c) c in
  let c' := with_read (Some i) total c in
  uview id w0 c1 (uowned c1) w -> 0 <= read_accumulated c -> total <= s_buffer_size cfg ->
  pool_buffers (write_buffers w) !! i = Some b -> len b = s_buffer_size cfg ->
  (forall b' w', uview id w0 c' (uowned c') w' -> pool_buffers (write_buffers w') !! i = Some b' ->
    len b' = s_buffer_size cfg -> take (Z.to_nat total) b' = take (Z.to_nat (read_accumulated c)) b ++ d ->
    length (free_list (write_buffers w')) = length (free_list (write_buffers w)) ->
    calm (with_ring (recycle_buffer bid (read_buf_ring w)) (ring_head w) w) w' -> wp F K Q w') ->
  wp F (on_buffers (write_buffer i (read_accumulated c) total d);; recycle bid;;
    u ← update id (modify (fun c => with_read (read_buf_idx c) total c));
    match u with None => lift Panic | Some _ => K end) Q w.
Proof.
  intros total c1 c' V Hacc Hfit Hb Hlb HK. pose proof (len_nonneg d).
  destruct (uview_write _ _ _ _ _ i b (read_accumulated c) d V) as (p & E & V1 & B1);
    [unfold uowned; simpl; set_solver|done|lia|lia|]. fold total in E, B1.
  apply wp_bind. eapply wp_zoom; [done|]. apply wp_bind. eapply wp_done; [done|]. apply wp_bind.
  set (w2 := with_ring _ _ _). assert (V2 : uview id w0 c1 (uowned c1) w2) by (by destruct V1).
  eapply uview_update; [done|done|]. intros w3 V3 C3 B3.
  eapply HK; [exact V3|rewrite B3; simpl; rewrite B1; apply list_lookup_insert_eq; by eapply lookup_lt_Some|..].
  - rewrite !len_app. subst total. unfold len in *. rewrite length_take, length_drop. lia.
  - rewrite app_assoc. apply take_app_length'. rewrite length_app, length_take. unfold total, len in *. lia.
  - rewrite B3. simpl. unfold write_buffer in E. destruct (_ ≫= _); [|done]. by injection E as <-.
  - exact C3.
Qed.

(** A receive that brought [d], up to the match on the result of the request: the
    provided buffer is recycled in every case, and the connection is closed when
    buffers run out or the data does not fit. *)
Lemma handle_read_run F clock id w0 c bid buf d Q :
  uinv (Some (Some id)) w0 -> settings_ok cfg -> conns w0 !! id = Some c ->
  get_buffer_slice (read_buf_ring w0) bid = Val buf -> len buf = s_buffer_size cfg ->
  0 < len d -> take (length d) buf = d ->
  let w1 := with_ring (recycle_buffer bid (read_buf_ring w0)) (ring_head w0) w0 in
  let total := read_accumulated c + len d in
  (forall i b w o, let c' := with_read (Some i) total c in len o = s_buffer_size cfg ->
    storage w = storage w0 -> pool_buffers (write_buffers w) !! i = Some b -> len b = s_buffer_size cfg ->
    take (Z.to_nat total) b = accumulated c w0 ++ d -> enough c w0 -> total <= s_buffer_size cfg ->
    match process clock (conn_protocol c) (accumulated c w0 ++ d) o (s_max_value_size cfg) (storage w0) with
    | Done (res, out) s' => len out = len o /\
        forall j w', uview id w0 c' (j :: uowned c') w' -> storage w' = s' -> still w1 w' ->
          pool_buffers (write_buffers w') !! j = Some out -> pool_buffers (write_buffers w') !! i = Some b ->
          (length (free_list (write_buffers w')) + (match read_buf_idx c with Some _ => 1 | None => 2 end) =
            length (free_list (write_buffers w0)))%nat ->
          wp F (apply_result id i j total res) Q w'
    | _ => F
    end) ->
  (forall c' w', uview id w0 c' (uowned c') w' -> conn_good (s_buffer_size cfg) c' -> calm w1 w' -> fd c' = fd c ->
    ~ enough c w0 \/ s_buffer_size cfg < total -> wp F (noerr (close_connection id)) Q w') ->
  wp F (handle_read clock (len d) id (Some bid) (s_max_value_size cfg)) Q w0.
Proof.
  intros Hi Hcfg Hc Hbuf Hlbuf Hd Hpre w1 total HP Hclose. pose proof (uview_start _ _ _ _ Hi Hc) as V.
  pose proof (u_conn _ _ Hi _ _ Hc) as Hg. pose proof (u_size _ _ Hi) as Hsz.
  assert (Htot : 0 <= read_accumulated c <= s_buffer_size cfg) by apply Hg.
  unfold handle_read. rewrite (proj2 (Z.leb_gt _ _)) by lia.
  apply wp_bind. eapply wp_done; [done|]. apply wp_bind. eapply wp_done; [done|].
  rewrite (uview_get _ _ _ _ _ V). cbv zeta. apply wp_bind.
  eapply accumulation_buffer_run; [done..| |].
  2: { intros Hne. apply wp_bind. eapply wp_done; [done|]. apply (Hclose c); try done; [|by left].
       by destruct V. }
  intros i w2 b c2 V2 C2 Hb Hlb Hx L2. destruct C2 as (S2 & R2 & H2 & Q2 & K2 & W2).
  apply wp_bind. eapply wp_done; [done|]. rewrite R2.
  assert (Hle : len d <= len buf) by (rewrite <- Hpre; unfold len; rewrite length_take; lia).
  apply wp_bind. eapply (wp_lift _ _ _ _ d).
  { rewrite Hbuf. cbn [mbind comp_bind]. unfold slice. rewrite !(proj2 (Z.leb_le _ _)) by lia. simpl.
    rewrite Z.sub_0_r, drop_0. unfold len. by rewrite Nat2Z.id, Hpre. }
  apply wp_bind. eapply wp_lift.
  { apply usize_add_small. destruct Hcfg as (_ & _ & Hmv & Hbig). unfold I64_MAX, USIZE_MAX, U64_MAX in *. lia. }
  fold total. unfold buffer_size. rewrite Hsz. destruct (s_buffer_size cfg <? total) eqn:Ef; boolify.
  { apply wp_bind. eapply wp_done; [done|]. apply (Hclose c2); try done; [by destruct V2| | |by right].
    - by eapply conn_good_read.
    - unfold calm. simpl. split_and!; congruence. }
  eapply copy_received_run; [done|lia|done|done|done|]. fold total.
  intros b' w5 V5 Hb5 Hlb' Hb' L5 (S5 & R5 & H5 & Q5 & K5 & W5). rewrite Hx in Hb'. rewrite <- L5 in L2.
  set (c5 := with_read (Some i) total c) in *. change (conn_protocol c) with (conn_protocol c5).
  eapply (process_input_run _ _ _ w0 c5); try done; [subst total; lia|..].
  - intros o Ho Lo. assert (Hst : storage w5 = storage w0) by (simpl in S5; congruence). rewrite Hb', Hst.
    assert (He : enough c w0) by (unfold enough; destruct (read_buf_idx c); lia).
    specialize (HP i b' w5 o Ho Hst Hb5 Hlb' Hb' He Ef).
    change (conn_protocol c5) with (conn_protocol c).
    destruct (process _ _ _ _ _ _) as [[res out] s'|s'|s']; [|done..]. destruct HP as [Hlo HP]. split; [done|].
    intros j w6 V6 S6 (R6 & H6 & Q6 & K6 & W6) Bj Bi L6. apply HP; try done.
    + unfold still. simpl in *. split_and!; congruence.
    + destruct (read_buf_idx c); lia.
  - intros L0. apply (Hclose c5); try done; [| |left].
    + eapply conn_good_read; [done|]. subst total. lia.
    + unfold calm. simpl in *. split_and!; congruence.
    + unfold enough. destruct (read_buf_idx c); lia.
Qed.

(** ** Ending a handler *)

(** An operation of another connection does not notice. *)
Lemma op_ok_other m id c o e : op_conn o <> Some id -> op_ok m o e -> op_ok (<[id := c]> m) o e.
Proof.
  intros Ho. destruct o as [|i|i b], e as [|f|f b' off n]; try done; simpl in *;
    rewrite lookup_insert_ne by congruence; done.
Qed.

Lemma op_ok_delete m id o e : op_conn o <> Some id -> op_ok m o e -> op_ok (base.delete id m) o e.
Proof.
  intros Ho. destruct o as [|i|i b], e as [|f|f b' off n]; try done; simpl in *;
    rewrite lookup_delete_ne by congruence; done.
Qed.

Lemma uview_end id w0 c0 c w :
  uinv (Some (Some id)) w0 -> conns w0 !! id = Some c0 -> uview id w0 c (uowned c) w ->
  conn_good (s_buffer_size cfg) c -> uinv (Some (Some id)) w.
Proof.
  intros [H1 H2 H3 H4 H5 H6 H7 [H8 H9]] Hc [Vc Vm Vp (_ & _ & Vs) Vt Vi] Hg.
  split; rewrite ?Vt, ?Vi, ?Vc in *; try done.
  - intros t o Ho. destruct (H1 t o Ho) as (Hgap & e & He & Hok). split; [done|]. exists e. split; [done|].
    apply op_ok_other; [congruence|done].
  - intros k [->|(j & x & -> & Hj)] Hgap; apply H4; try done; [by left|]. right.
    rewrite lookup_insert_ne in Hj by congruence. by exists j, x.
  - assert (Hh : uheld (<[id := c]> (conns w0)) ≡ₚ uowned c ++ uheld (base.delete id (conns w0))).
    { rewrite <- insert_delete_eq. apply uheld_insert, lookup_delete_eq. }
    by rewrite Hh.
  - congruence.
  - intros j x. destruct (decide (j = id)) as [->|Hj]; [rewrite lookup_insert_eq; by intros [= <-]|].
    rewrite lookup_insert_ne by done. apply H7.
  - rewrite map_size_insert_Some by (by eexists). split; [done|congruence].
Qed.

(** Submitting the missing operation. *)
Definition submit (o : OpType) (e : Sqe) : st UWorker (uring_error + unit) :=
  token ← on_tokens (token_alloc o); push_sqe token e.

(** The state after a submission. *)
Definition submitted w o e w' : Prop :=
  uinv None w' /\ storage w' = storage w /\ read_buf_ring w' = read_buf_ring w /\ ring_head w' = ring_head w /\
  closed w' = closed w /\ wire w' = wire w /\ registry w' = registry w /\ write_buffers w' = write_buffers w /\
  sq_room w = S (sq_room w') /\
  exists t, in_flight w' !! t = Some o /\ inflight w' !! t = Some e.

Lemma submit_ok F w o e :
  uinv (Some (op_conn o)) w -> op_ok (conns w) o e ->
  wp F (submit o e) (fun r w' => match r with
    | inr _ => submitted w o e w'
    | inl er => er = QueueFull /\ sq_room w = O
    end) w.
Proof.
  intros [H1 H2 H3 H4 H5 H6 H7 H8] Hok. unfold submit. apply wp_bind.
  destruct (token_alloc_eq o (tokens w)) as (t & ts & E & Hv & Hi). unfold token_get, slab_get in Hv.
  eapply wp_zoom; [done|]. unfold push_sqe. apply wp_bind. eapply wp_done; [done|]. simpl.
  destruct (sq_room w) as [|room] eqn:Er.
  - apply wp_bind. destruct (token_free_eq t ts) as (ts' & E' & _). eapply wp_zoom; [done|]. by eapply wp_done.
  - eapply wp_done; [done|]. unfold submitted. simpl. split_and!; try done.
    + assert (Hold : forall s x, in_flight w !! s = Some x -> s <> t) by (intros s x Hs ->; congruence).
      assert (Hnew : forall s x, in_flight w !! s = Some x -> op_conn x <> op_conn o).
      { intros s x Hs Hx. destruct (H1 s x Hs) as [Hg _]. congruence. }
      split; simpl; rewrite ?Hi; try done.
      * intros s x. destruct (decide (s = t)) as [->|Hs].
        -- rewrite !lookup_insert_eq. intros [= <-]. split; [done|]. by exists e.
        -- rewrite !lookup_insert_ne by done. intros Hx. split; [done|]. by destruct (H1 s x Hx).
      * by rewrite !dom_insert_L, H2.
      * intros t1 t2 o1 o2. rewrite !lookup_insert_Some. naive_solver.
      * intros k Hk _. destruct (decide (k = op_conn o)) as [->|Hne].
        -- exists t, o. by rewrite lookup_insert_eq.
        -- destruct (H4 k Hk ltac:(congruence)) as (s & x & Hs & Hx). exists s, x.
           rewrite lookup_insert_ne by (symmetry; by eapply Hold). done.
    + exists t. by rewrite Hi, !lookup_insert_eq.
Qed.

(** Closing the connection instead. *)
Lemma uclose_ok F id w c :
  uinv (Some (Some id)) w -> conns w !! id = Some c ->
  wp F (close_connection id) (fun _ w' => uinv None w' /\ conns w' = base.delete id (conns w) /\
    storage w' = storage w /\ read_buf_ring w' = read_buf_ring w /\ ring_head w' = ring_head w /\
    sq_room w' = sq_room w /\ wire w' = wire w /\ closed w' = closed w ++ [fd c] /\
    pool_buffers (write_buffers w') = pool_buffers (write_buffers w)) w.
Proof.
  intros [H1 H2 H3 H4 H5 H6 H7 [H8 H9]] Hc. unfold close_connection. apply wp_bind.
  destruct (registry_remove_eq id (registry w)) as (r' & E & Hi & Hm).
  assert (Hg : registry_get id (registry w) = Some c) by done. rewrite Hg in E.
  eapply wp_zoom; [done|]. cbn [mbind]. rewrite (uheld_delete _ _ _ Hc) in H5. unfold uowned in H5.
  rewrite <- app_assoc in H5.
  assert (Hfinal : forall p, pool_inv (uheld (base.delete id (conns w))) p -> pool_buffer_size p = pool_buffer_size (write_buffers w) ->
    uinv None (with_closed (closed w ++ [fd c]) (with_write_buffers p (with_registry r' w)))).
  { intros p Hp Hs. split; simpl; rewrite ?Hi; try done.
    - intros t o Ho. destruct (H1 t o Ho) as (Hgap & e & He & Hok). split; [done|]. exists e. split; [done|].
      apply op_ok_delete; [congruence|done].
    - intros k [->|(j & x & -> & Hj)] _; apply H4; try done; [by left|..].
      + apply lookup_delete_Some in Hj as [? Hj]. right. by exists j, x.
      + apply lookup_delete_Some in Hj as [? Hj]. congruence.
    - congruence.
    - intros j x Hj. apply lookup_delete_Some in Hj as [_ Hj]. by eapply H7.
    - rewrite map_size_delete, Hc. simpl. split; [lia|congruence]. }
  assert (Hfree1 : exists p1, (match phase c with
      | Established (Writing b _ _) => on_buffers (free (Z.to_nat b)) | _ => mret tt end) (with_registry r' w) =
      Done tt (with_write_buffers p1 (with_registry r' w)) /\
    pool_inv (option_list (read_buf_idx c) ++ uheld (base.delete id (conns w))) p1 /\
    pool_buffer_size p1 = pool_buffer_size (write_buffers w) /\ pool_buffers p1 = pool_buffers (write_buffers w)).
  { destruct (phase c) as [| |[f|b n t]|]; simpl in H5 |- *; try by (exists (write_buffers w); split_and!; [by destruct w|done..]).
    destruct (free_inv _ _ _ H5) as (p1 & E1 & Hp1 & _ & B1 & S1). exists p1. split_and!; try done.
    unfold on_buffers, zoom. simpl. by rewrite E1. }
  destruct Hfree1 as (p1 & E1 & Hp1 & S1 & B1). apply wp_bind. eapply wp_done; [exact E1|]. apply wp_bind.
  destruct (read_buf_idx c) as [i|]; simpl in Hp1.
  - destruct (free_inv _ _ _ Hp1) as (p2 & E2 & Hp2 & _ & B2 & S2). eapply wp_zoom; [done|]. eapply wp_done; [done|].
    split_and!; try done; [|simpl; congruence]. apply (Hfinal p2); [done|congruence].
  - eapply wp_done; [done|]. eapply wp_done; [done|]. split_and!; try done. by apply (Hfinal p1).
Qed.

(** ** The match on the result *)

(** How a handler ends: the invariant holds and the ring is [r], or the submission
    queue, which had room for [room] entries, was full. *)
Definition ended (r : BufRing) (h : Z) (room : nat) (res : uring_error + unit) (w : UWorker) : Prop :=
  match res with
  | inr _ => uinv None w /\ read_buf_ring w = r /\ ring_head w = h
  | inl e => e = QueueFull /\ room = O
  end.

Lemma close_ended F id w0 c0 c w :
  uinv (Some (Some id)) w0 -> conns w0 !! id = Some c0 -> uview id w0 c (uowned c) w ->
  conn_good (s_buffer_size cfg) c ->
  wp F (noerr (close_connection id)) (ended (read_buf_ring w) (ring_head w) (sq_room w)) w.
Proof.
  intros Hi Hc V Hg. pose proof (uview_end _ _ _ _ _ Hi Hc V Hg) as Hw. apply wp_bind.
  eapply wp_mono; [apply (uclose_ok F id w c Hw); by rewrite (uv_conns _ _ _ _ _ V), lookup_insert_eq|].
  intros [] w' (H1 & _ & _ & H2 & H3 & _). by eapply wp_done.
Qed.

Lemma abandon_ok F id w0 c0 c j w :
  uinv (Some (Some id)) w0 -> conns w0 !! id = Some c0 -> uview id w0 c (j :: uowned c) w ->
  conn_good (s_buffer_size cfg) c ->
  wp F (abandon id j) (ended (read_buf_ring w) (ring_head w) (sq_room w)) w.
Proof.
  intros Hi Hc V Hg. apply wp_bind. eapply uview_free; [done|]. intros p V1 _ _.
  exact (close_ended F id w0 c0 c (with_write_buffers p w) Hi Hc V1 Hg).
Qed.

(** Submitting a read for a connection that is in the reading state. *)
Lemma submit_read_eq id w c :
  registry_get id (registry w) = Some c -> submit_read id w = submit (OpRead id) (SqeRecv (fd c)) w.
Proof. intros Hc. unfold submit_read. rewrite (bind_done (gets _) _ _ (Some c) w) by (unfold gets; by rewrite Hc). done. Qed.

Lemma submit_read_run F id w0 c0 c x w Q :
  uinv (Some (Some id)) w0 -> conns w0 !! id = Some c0 -> uview id w0 c (uowned c) w ->
  conn_good (s_buffer_size cfg) c -> phase c = Established (Reading x) ->
  (forall w', submitted w (OpRead id) (SqeRecv (fd c)) w' -> Q (inr tt) w') ->
  (sq_room w = O -> forall w', Q (inl QueueFull) w') ->
  wp F (submit_read id) Q w.
Proof.
  intros Hi Hc V Hg Hp H1 H2. pose proof (uview_end _ _ _ _ _ Hi Hc V Hg) as Hw.
  unfold wp. rewrite (submit_read_eq _ _ _ (uview_get _ _ _ _ _ V)).
  assert (Hok : op_ok (conns w) (OpRead id) (SqeRecv (fd c))).
  { exists c, x. by rewrite (uv_conns _ _ _ _ _ V), lookup_insert_eq. }
  pose proof (submit_ok F w (OpRead id) (SqeRecv (fd c)) Hw Hok) as H. unfold wp in H.
  destruct (submit _ _ w) as [[e|[]] w'|w'|w']; [|by apply H1|done..].
  destruct H as [-> H]. by apply H2.
Qed.

(** The same for a write. *)
Lemma submit_write_run F id w0 c0 c b off t n w Q :
  uinv (Some (Some id)) w0 -> settings_ok cfg -> conns w0 !! id = Some c0 -> uview id w0 c (uowned c) w ->
  conn_good (s_buffer_size cfg) c -> phase c = Established (Writing (Z.of_nat b) off t) -> n = t - off ->
  (forall w', submitted w (OpWrite id b) (SqeWrite (fd c) b off n) w' -> Q (inr tt) w') ->
  (sq_room w = O -> forall w', Q (inl QueueFull) w') ->
  wp F (submit_write id n) Q w.
Proof.
  intros Hi Hcfg Hc V Hg Hp -> H1 H2. pose proof (uview_end _ _ _ _ _ Hi Hc V Hg) as Hw.
  destruct (uview_lookup _ _ _ _ _ b (u_size _ _ Hi) V) as (buf & Hb & _).
  { unfold uowned. rewrite Hp. simpl. rewrite Nat2Z.id. set_solver. }
  destruct Hg as (_ & _ & Hg). rewrite Hp in Hg. destruct Hcfg as (_ & Hsz & _).
  assert (E : submit_write id (t - off) w = submit (OpWrite id b) (SqeWrite (fd c) b off (t - off)) w).
  { unfold submit_write. rewrite (bind_done (gets _) _ _ (Some c) w) by (unfold gets; by rewrite (uview_get _ _ _ _ _ V)).
    rewrite Hp. rewrite (bind_done (gets _) _ _ (write_buffers w) w) by done.
    rewrite Nat2Z.id, (bind_done (lift _) _ _ buf w) by (by rewrite (get_buffer_Val _ _ _ Hb)).
    by rewrite Z.mod_small by lia. }
  unfold wp. rewrite E.
  assert (Hok : op_ok (conns w) (OpWrite id b) (SqeWrite (fd c) b off (t - off))).
  { exists c, t. by rewrite (uv_conns _ _ _ _ _ V), lookup_insert_eq. }
  pose proof (submit_ok F w (OpWrite id b) (SqeWrite (fd c) b off (t - off)) Hw Hok) as H. unfold wp in H.
  destruct (submit _ _ w) as [[e|[]] w'|w'|w']; [|by apply H1|done..].
  destruct H as [-> H]. by apply H2.
Qed.

(** Starting to write a response of [n] bytes from buffer [j]. *)
Lemma respond_with_run F id w0 c0 c x j n w Q :
  uinv (Some (Some id)) w0 -> settings_ok cfg -> conns w0 !! id = Some c0 -> uview id w0 c (j :: uowned c) w ->
  conn_good (s_buffer_size cfg) c -> phase c = Established (Reading x) -> 0 <= n <= s_buffer_size cfg ->
  (forall w1 w', let c' := with_phase (Established (writing (Z.of_nat j) n)) c in
    uview id w0 c' (uowned c') w1 -> calm w w1 -> write_buffers w1 = write_buffers w ->
    submitted w1 (OpWrite id j) (SqeWrite (fd c) j 0 n) w' -> Q (inr tt) w') ->
  (sq_room w = O -> forall w', Q (inl QueueFull) w') ->
  wp F (respond_with id j n) Q w.
Proof.
  intros Hi Hcfg Hc V Hg Hp Hn H1 H2. apply wp_bind.
  eapply uview_update; [done|unfold start_writing, set_data; by rewrite Hp|]. intros w1 V1 C1 B1.
  set (c' := with_phase _ c) in *. assert (V1' : uview id w0 c' (uowned c') w1).
  { unfold uowned in *. simpl. rewrite Hp in V1. simpl in V1. by rewrite Nat2Z.id. }
  assert (Hg' : conn_good (s_buffer_size cfg) c').
  { destruct Hg as (? & ? & _). split_and!; try done; simpl; lia. }
  eapply (submit_write_run F id w0 c0 c' j 0 n n); try done; [lia|..].
  - intros w' Hs. by eapply H1.
  - destruct C1 as (_ & _ & _ & -> & _). done.
Qed.

(** What was not consumed moves to the front of the accumulation buffer. *)
Lemma keep_leftover_run F id w0 c X i b w consumed total (Q : unit -> UWorker -> Prop) :
  uview id w0 c X w -> read_buf_idx c = Some i -> i ∈ X -> pool_buffers (write_buffers w) !! i = Some b ->
  0 <= consumed -> total <= len b ->
  (forall w' b', uview id w0 (with_read (Some i) (Z.max 0 (total - consumed)) c) X w' -> calm w w' ->
    pool_buffers (write_buffers w') = <[i := b']> (pool_buffers (write_buffers w)) ->
    free_list (write_buffers w') = free_list (write_buffers w) -> len b' = len b ->
    take (Z.to_nat (total - consumed)) b' = drop (Z.to_nat consumed) (take (Z.to_nat total) b) -> Q tt w') ->
  wp F (keep_leftover id i consumed total) Q w.
Proof.
  intros V Hi HX Hb Hc Ht HQ. unfold keep_leftover. destruct (consumed <? total) eqn:E; boolify.
  - apply wp_bind. eapply wp_done; [done|].
    assert (Hs : slice b consumed total = Val (drop (Z.to_nat consumed) (take (Z.to_nat total) b))).
    { unfold slice. rewrite !(proj2 (Z.leb_le _ _)) by lia. cbn [andb]. f_equal.
      rewrite skipn_firstn_comm. f_equal. lia. }
    set (rest := drop _ _) in Hs. assert (Hr : len rest = total - consumed).
    { unfold rest, len in *. rewrite length_drop, length_take. lia. }
    apply wp_bind. eapply wp_lift; [rewrite (get_buffer_Val _ _ _ Hb); exact Hs|].
    destruct (uview_write _ _ _ _ _ i b 0 rest V HX Hb ltac:(done) ltac:(lia)) as (p & Ew & V1 & B1).
    rewrite Z.add_0_l, Hr in Ew. apply wp_bind. eapply wp_zoom; [done|].
    apply wp_bind. eapply uview_update; [done|done|]. intros w2 V2 C2 B2. eapply wp_done; [done|].
    rewrite Hi in V2. rewrite Z.add_0_l, Hr, take_0, app_nil_l in B1. eapply HQ; rewrite ?B2; simpl; try done.
    + by rewrite Z.max_r by lia.
    + unfold write_buffer in Ew. destruct (_ ≫= _); [|done]. by injection Ew as <-.
    + rewrite len_app, Hr. unfold len in *. rewrite length_drop. lia.
    + apply take_app_length'. rewrite length_drop, length_take. unfold len in *. lia.
  - apply wp_bind. eapply uview_update; [done|done|]. intros w2 V2 C2 B2. eapply wp_done; [done|].
    rewrite Hi in V2. eapply (HQ w2 b); rewrite ?B2; try done.
    + by rewrite Z.max_l by lia.
    + by rewrite list_insert_id.
    + replace (Z.to_nat (total - consumed)) with 0%nat by lia. rewrite take_0.
      symmetry. apply drop_ge. rewrite length_take. lia.
Qed.

Lemma uowned_read i n c : uowned (with_read (Some i) n c) = phase_bufs (phase c) ++ [i].
Proof. done. Qed.

Lemma apply_result_ended F id w0 c0 c x i j b w total input output res :
  uinv (Some (Some id)) w0 -> settings_ok cfg -> conns w0 !! id = Some c0 -> uview id w0 c (j :: uowned c) w ->
  conn_good (s_buffer_size cfg) c -> phase c = Established (Reading x) -> read_buf_idx c = Some i ->
  pool_buffers (write_buffers w) !! i = Some b -> len b = s_buffer_size cfg -> 0 <= total <= s_buffer_size cfg ->
  len output = s_buffer_size cfg -> result_in input output (s_max_value_size cfg) 2 res ->
  wp F (apply_result id i j total res.1) (ended (read_buf_ring w) (ring_head w) (sq_room w)) w.
Proof.
  intros Hi Hcfg Hc V Hg Hp Hri Hb Hl Ht Ho [_ Hr]. unfold apply_result. apply wp_bind. eapply wp_done; [done|].
  rewrite (uview_get _ _ _ _ _ V). destruct Hcfg as (Hmx & Hsz & Hrest). pose proof (conj Hmx (conj Hsz Hrest)) as Hcfg.
  destruct res as [[| command_len value_len| consumed n| consumed d| |] out]; simpl in Hr |- *;
    try (by eapply abandon_ok).
  - apply wp_bind. eapply uview_free; [done|]. intros p V1 _ _.
    eapply (submit_read_run F id w0 c0 c); try done. intros w' Hs. by destruct Hs as (? & ? & ? & ? & _).
  - destruct Hr as [Hc1 Hn]. apply wp_bind. eapply keep_leftover_run; [done|done| |done|lia|lia|].
    { unfold uowned. rewrite Hri. set_solver. }
    intros w1 b' V1 (_ & R1 & H1 & Q1 & _) _ _ _ _.
    eapply (respond_with_run F id w0 c0 (with_read (Some i) (Z.max 0 (total - consumed)) c) x); try done.
    + rewrite uowned_read. unfold uowned in V1. rewrite Hri in V1. exact V1.
    + eapply conn_good_read; [done|]. lia.
    + lia.
    + intros w2 w3 c' V2 (_ & R2 & H2 & _) _ (Hu & _ & R3 & H3 & _). split_and!; try done; congruence.
    + intros H0 w'. split; [done|congruence].
  - destruct Hr as [Hc1 Hn]. apply wp_bind. eapply keep_leftover_run; [done|done| |done|lia|lia|].
    { unfold uowned. rewrite Hri. set_solver. }
    intros w1 b' V1 (_ & R1 & H1 & Q1 & _) _ _ _ _. apply wp_bind. eapply wp_done; [done|].
    unfold buffer_size. rewrite (uview_size _ _ _ _ _ (u_size _ _ Hi) V1), (proj2 (Z.leb_gt _ _)) by lia.
    rewrite <- R1, <- H1, <- Q1. eapply (abandon_ok F id w0 c0 (with_read (Some i) (Z.max 0 (total - consumed)) c)); try done.
    + rewrite uowned_read. unfold uowned in V1. rewrite Hri in V1. exact V1.
    + eapply conn_good_read; [done|]. lia.
Qed.

(** ** The handlers *)

(** The request layer does not return on [input], with a buffer of the pool for its
    output. *)
Definition urequest_fails (clock : nat -> Z) (proto : Protocol) (input : bytes) (s : Storage) : Prop :=
  exists output, len output = s_buffer_size cfg /\
    forall a s', process clock proto input output (s_max_value_size cfg) s <> Done a s'.

Lemma uprocess_result_in clock proto input output s res s' :
  settings_ok cfg -> len input <= s_buffer_size cfg -> len output = s_buffer_size cfg ->
  process clock proto input output (s_max_value_size cfg) s = Done res s' ->
  result_in input output (s_max_value_size cfg) 2 res.
Proof.
  intros (_ & _ & Hv & Hbig) Hi Ho E. apply process_post in E as [Hl Hr]; [|lia|done].
  split; [done|]. destruct res as [[] out], proto; simpl in *; try done; lia.
Qed.

Lemma accumulated_len id w c :
  uinv (Some (Some id)) w -> conns w !! id = Some c -> len (accumulated c w) = read_accumulated c.
Proof.
  intros Hi Hc. pose proof (u_conn _ _ Hi _ _ Hc) as (Ha & Hn & _). unfold accumulated.
  destruct (read_buf_idx c) as [i|] eqn:Ei; [|by rewrite Hn].
  destruct (uview_lookup _ _ _ _ _ i (u_size _ _ Hi) (uview_start _ _ _ _ Hi Hc)) as (b & -> & Hb).
  { unfold uowned. rewrite Ei. set_solver. }
  simpl. unfold len in *. rewrite length_take. lia.
Qed.

(** The ring after the handler has returned the buffer, if any. *)
Definition given_back (buf_id : option Z) (r : BufRing) : BufRing :=
  match buf_id with Some bid => recycle_buffer bid r | None => r end.

Lemma handle_read_ended clock id w0 c x d result buf_id :
  uinv (Some (Some id)) w0 -> settings_ok cfg -> conns w0 !! id = Some c -> phase c = Established (Reading x) ->
  (0 < result -> exists bid buf, buf_id = Some bid /\ get_buffer_slice (read_buf_ring w0) bid = Val buf /\
    len buf = s_buffer_size cfg /\ len d = result /\ take (length d) buf = d) ->
  wp (0 < result /\ urequest_fails clock (conn_protocol c) (accumulated c w0 ++ d) (storage w0))
    (handle_read clock result id buf_id (s_max_value_size cfg))
    (ended (given_back buf_id (read_buf_ring w0)) (ring_head w0) (sq_room w0)) w0.
Proof.
  intros Hi Hcfg Hc Hp Hres. destruct (Z.le_gt_cases result 0) as [Hle|Hgt].
  - unfold handle_read. rewrite (proj2 (Z.leb_le _ _)) by lia. apply wp_bind.
    destruct buf_id as [bid|]; (eapply wp_done; [done|]).
    + refine (close_ended _ id w0 c c (with_ring _ _ w0) Hi Hc _ (u_conn _ _ Hi _ _ Hc)).
      by destruct (uview_start _ _ _ _ Hi Hc).
    + exact (close_ended _ id w0 c c w0 Hi Hc (uview_start _ _ _ _ Hi Hc) (u_conn _ _ Hi _ _ Hc)).
  - destruct (Hres Hgt) as (bid & buf & -> & Hbuf & Hlb & <- & Hd).
    pose proof (accumulated_len _ _ _ Hi Hc) as Hacc. pose proof (u_conn _ _ Hi _ _ Hc) as Hg.
    assert (Hin : len (accumulated c w0 ++ d) = read_accumulated c + len d) by (rewrite len_app; lia).
    eapply handle_read_run; try done.
    + intros i b w o c' Ho Hst Hb Hlb' Hx Hen Hfit.
      destruct (process _ _ _ _ _ _) as [[res out] s'|s'|s'] eqn:Ep;
        [|split; [lia|]; exists o; split; [done|]; intros ? ?; by rewrite Ep..].
      pose proof (uprocess_result_in _ _ _ _ _ _ _ Hcfg ltac:(by rewrite Hin) Ho Ep) as Hr.
      split; [by destruct Hr|]. intros j w' V _ (R & H & Q & _) _ Hbi _. simpl in R, H, Q.
      rewrite <- H, <- Q. unfold given_back. rewrite <- R.
      eapply (apply_result_ended _ id w0 c c' x i j b w' _ (accumulated c w0 ++ d) o (res, out)); try done.
      * eapply conn_good_read; [done|]. destruct Hg as (? & _). lia.
      * destruct Hg as (? & _). lia.
    + intros c' w' V Hg' (_ & R & H & Q & _) _ _. simpl in *. unfold given_back. rewrite <- R, <- H, <- Q.
      by eapply close_ended.
Qed.

Lemma handle_write_ended F id w0 c b off t n :
  uinv (Some (Some id)) w0 -> settings_ok cfg -> conns w0 !! id = Some c ->
  phase c = Established (Writing (Z.of_nat b) off t) -> 0 < n <= t - off ->
  wp F (handle_write n id b) (ended (read_buf_ring w0) (ring_head w0) (sq_room w0)) w0.
Proof.
  intros Hi Hcfg Hc Hp Hn. pose proof (uview_start _ _ _ _ Hi Hc) as V. pose proof (u_conn _ _ Hi _ _ Hc) as Hg.
  pose proof Hg as (Hg1 & Hg2 & Hg3). rewrite Hp in Hg3. pose proof Hcfg as (_ & Hsz & Hmv & Hbig).
  unfold handle_write. rewrite (proj2 (Z.leb_gt _ _)) by lia. apply wp_bind. eapply wp_done; [done|].
  rewrite (uview_get _ _ _ _ _ V), Hp. apply wp_bind. eapply wp_lift.
  { apply usize_add_small. unfold USIZE_MAX, U64_MAX, I64_MAX in *. lia. }
  apply wp_bind. eapply uview_update; [done|done|]. intros w1 V1 (_ & R1 & H1 & Q1 & _) _.
  set (c1 := with_phase _ c) in *.
  assert (Eo : uowned c = b :: option_list (read_buf_idx c)) by (unfold uowned; rewrite Hp; simpl; by rewrite Nat2Z.id).
  destruct (t <=? off + n) eqn:Et; boolify.
  - apply wp_bind. rewrite Eo in V1. eapply uview_free; [done|]. intros p V2 _ _.
    apply wp_bind. eapply uview_update; [done|done|]. intros w3 V3 (_ & R3 & H3 & Q3 & _) _. simpl in *.
    eapply (submit_read_run F id w0 c (with_phase established c1) 0); try done.
    + intros w' (Hu & _ & R4 & H4 & _). split_and!; try done; congruence.
    + intros H0 w'. split; [done|congruence].
  - eapply (submit_write_run F id w0 c c1 b (off + n) t); try done.
    + unfold uowned in *. simpl in *. rewrite Hp in V1. exact V1.
    + split_and!; try done; simpl; lia.
    + intros w' (Hu & _ & R4 & H4 & _). split_and!; try done; congruence.
    + intros H0 w'. split; [done|congruence].
Qed.

(** A connection that has just been inserted lacks its operation. *)
Lemma insert_ok w c id r' :
  uinv None w -> conn_good (s_buffer_size cfg) c -> uowned c = [] ->
  registry_insert c (registry w) = Done (Some id) r' ->
  uinv (Some (Some id)) (with_registry r' w) /\ conns (with_registry r' w) !! id = Some c.
Proof.
  intros [H1 H2 H3 H4 H5 H6 H7 [H8 H9]] Hg Ho E. pose proof (registry_insert_eq c (registry w)) as Hins.
  destruct (_ <=? _) eqn:El; [congruence|]. destruct Hins as (k & r2 & E2 & Hv & Hi & Hm). rewrite E in E2.
  simplify_eq. unfold registry_get, slab_get in Hv. unfold registry_len, slab_len in El. boolify.
  simpl. rewrite Hi, lookup_insert_eq. split; [|done]. split; simpl; rewrite ?Hi; try done.
  - intros t o Hto. destruct (H1 t o Hto) as (_ & e & He & Hok).
    assert (Hne : op_conn o <> Some k).
    { intros Heq. destruct o as [|i|i b], e; simplify_eq/=; naive_solver congruence. }
    split; [congruence|]. exists e. split; [done|]. by apply op_ok_other.
  - intros q [->|(j & x & -> & Hj)] Hgap; apply H4; try done; [by left|right].
    rewrite lookup_insert_ne in Hj by congruence. by exists j, x.
  - rewrite uheld_insert by done. by rewrite Ho.
  - intros j x. destruct (decide (j = k)) as [->|Hj]; [rewrite lookup_insert_eq; by intros [= <-]|].
    rewrite lookup_insert_ne by done. apply H7.
  - rewrite map_size_insert_None by done. split; [lia|congruence].
Qed.

Lemma handle_accept_ended F w0 result :
  uinv (Some None) w0 -> settings_ok cfg ->
  wp F (handle_accept result (s_protocol cfg)) (fun r w => match r with
    | inr _ => uinv None w /\ read_buf_ring w = read_buf_ring w0 /\ ring_head w = ring_head w0
    | inl e => e = QueueFull /\ (sq_room w0 <= 1)%nat
    end) w0.
Proof.
  intros Hi Hcfg. pose proof Hcfg as (_ & Hsz & _). unfold handle_accept. apply wp_try.
  eapply wp_mono; [apply (submit_ok F w0 OpAccept SqeAccept); done|].
  intros [e|[]] w1; [intros [-> ->]; split; [done|lia]|].
  intros (Hu & S1 & R1 & H1 & K1 & W1 & G1 & B1 & Q1 & _).
  destruct (result <? 0); [by eapply wp_done|]. apply wp_bind.
  pose proof (registry_insert_eq (conn_new result (s_protocol cfg)) (registry w1)) as Hins.
  destruct (_ <=? _).
  - eapply wp_zoom; [done|]. eapply wp_done; [done|]. split_and!; try done. by destruct Hu.
  - destruct Hins as (id & r' & E & _). eapply wp_zoom; [done|].
    destruct (insert_ok w1 (conn_new result (s_protocol cfg)) id r' Hu) as [Hu2 Hc2]; try done.
    { split_and!; simpl; try done; lia. }
    eapply (submit_read_run F id _ _ _ 0 _ _ Hu2 Hc2 (uview_start _ _ _ _ Hu2 Hc2) (u_conn _ _ Hu2 _ _ Hc2)); try done.
    + intros w' (Hu3 & _ & R3 & H3 & _). simpl in *. split_and!; try done; congruence.
    + simpl. intros H0 w'. split; [done|]. lia.
Qed.

(** ** Completions *)

(** The kernel completes an operation and the worker frees its token. *)
Lemma kernel_ok c w o :
  uinv None w -> in_flight w !! user_data c = Some o ->
  exists ts, token_free (user_data c) (tokens (kernel c w)) = Done (Some o) ts /\
    uinv (Some (op_conn o)) (with_tokens ts (kernel c w)).
Proof.
  intros [H1 H2 H3 H4 H5 H6 H7 H8] Ho.
  assert (Hk : tokens (kernel c w) = tokens w /\ registry (kernel c w) = registry w /\
    write_buffers (kernel c w) = write_buffers w /\ inflight (kernel c w) = base.delete (user_data c) (inflight w)).
  { unfold kernel. destruct (inflight w !! user_data c) as [[]|]; try done;
      [by destruct (buffer_select c)|by destruct (_ <? _)]. }
  destruct Hk as (Kt & Kr & Kb & Ki).
  destruct (token_free_eq (user_data c) (tokens (kernel c w))) as (ts & E & Hi). rewrite Kt in *.
  unfold token_get, slab_get in E. rewrite Ho in E. exists ts. split; [done|]. simpl.
  split; simpl; rewrite ?Kr, ?Kb, ?Ki, ?Hi; try done.
  - intros t x Hx. apply lookup_delete_Some in Hx as [Hne Hx]. destruct (H1 t x Hx) as (_ & e & He & Hok). split.
    + intros [= Heq]. apply Hne. by eapply H3.
    + exists e. by rewrite lookup_delete_ne.
  - by rewrite !dom_delete_L, H2.
  - intros t1 t2 o1 o2 Hx1 Hx2. apply lookup_delete_Some in Hx1 as [_ Hx1]. apply lookup_delete_Some in Hx2 as [_ Hx2].
    by eapply H3.
  - intros k Hk Hg. destruct (H4 k Hk ltac:(done)) as (t & x & Hx & Hxk). exists t, x. split; [|done].
    rewrite lookup_delete_ne; [done|]. intros <-. congruence.
Qed.

(** A buffer of the ring that was taken and filled. *)
Lemma ring_taken bid d r h :
  ring_state [] r h -> (exists e, kernel_next h r = Some e /\ e_bid e = bid) -> len d <= s_buffer_size cfg ->
  ring_state [] (recycle_buffer bid (fill_buffer bid d r)) (u16 (h + 1)) /\
  exists buf, get_buffer_slice (fill_buffer bid d r) bid = Val buf /\ len buf = s_buffer_size cfg /\
    take (length d) buf = d.
Proof.
  intros ((n & hd & tl & Hri & Hn) & Hall & Hsz) (e & He & <-) Hd. pose proof (ring_take_inv _ _ _ _ _ _ _ Hri He) as Ht.
  assert (Hin : 0 <= e_bid e < Z.of_nat n).
  { assert (Hin : e_bid e ∈ Z.of_nat <$> seq 0 n) by (rewrite <- (ri_bids _ _ _ _ _ _ Ht); set_solver).
    apply list_elem_of_fmap in Hin as (i & -> & Hi). apply elem_of_seq in Hi. lia. }
  assert (Hf : ring_inv n [e_bid e] (u16 (h + 1)) (fill_buffer (e_bid e) d r) (S hd) tl) by (by destruct Ht).
  destruct (lookup_lt_is_Some_2 (ring_buffers r) (Z.to_nat (e_bid e)) ltac:(lia)) as [old Hold].
  assert (Hlo : len old = s_buffer_size cfg).
  { rewrite Forall_forall in Hall. apply Hall. by eapply list_elem_of_lookup_2. }
  assert (Hnew : len (d ++ drop (length d) old) = s_buffer_size cfg).
  { rewrite len_app. unfold len in *. rewrite length_drop. lia. }
  split.
  - split_and!; [|simpl|done].
    + eexists n, _, _. split; [by apply (ring_give_inv n [] (e_bid e) [])|]. simpl. by rewrite length_alter.
    + apply Forall_alter; [done|]. intros x Hx _. by simplify_eq.
  - exists (d ++ drop (length d) old). split_and!; [|done|by rewrite take_app_length].
    unfold get_buffer_slice, index. rewrite (proj2 (Z.ltb_ge _ _)) by lia. simpl.
    by rewrite list_lookup_alter_eq, Hold.
Qed.

(** The invariant of a worker between events. *)
Definition uworker_ok w : Prop := uinv None w /\ ring_state [] (read_buf_ring w) (ring_head w).

(** The writes of a completion succeed. *)
Definition write_succeeds w (c : Cqe) : Prop :=
  match in_flight w !! user_data c with Some (OpWrite _ _) => 0 < result c | _ => True end.

(** The completion is a receive, and the request layer does not return on the bytes the
    connection had accumulated followed by the bytes received. *)
Definition completion_fails w (c : Cqe) : Prop :=
  exists id x, in_flight w !! user_data c = Some (OpRead id) /\ conns w !! id = Some x /\ 0 < result c /\
    urequest_fails (now c) (conn_protocol x) (accumulated x w ++ received c) (storage w).

Lemma cqe_op c w : uinv None w -> cqe_ok w c -> exists o, in_flight w !! user_data c = Some o.
Proof.
  intros Hi Hc. unfold cqe_ok in Hc. destruct (inflight w !! user_data c) eqn:E; [|done].
  apply elem_of_dom_2 in E. rewrite (u_dom _ _ Hi) in E. apply elem_of_dom in E as [o Ho]. by exists o.
Qed.

Lemma completion_ok w c :
  uworker_ok w -> settings_ok cfg -> cqe_ok w c -> write_succeeds w c ->
  wp (completion_fails w c) (worker_event cfg (Completed c)) (fun r w' => match r with
    | inr _ => uworker_ok w'
    | inl e => e = QueueFull /\ (sq_room w <= 1)%nat
    end) w.
Proof.
  intros [Hi Hr] Hcfg Hok Hws. destruct (cqe_op _ _ Hi Hok) as [o Ho].
  destruct (kernel_ok c w o Hi Ho) as (ts & E & Hu). destruct (u_ops _ _ Hi _ _ Ho) as (_ & e & He & Hoe).
  apply wp_bind. eapply wp_done; [done|]. apply wp_bind. eapply wp_zoom; [done|].
  set (w1 := with_tokens ts (kernel c w)) in *. unfold cqe_ok in Hok. rewrite He in Hok.
  assert (Ew1 : sq_room w1 = sq_room w /\ storage w1 = storage w /\ registry w1 = registry w /\
    write_buffers w1 = write_buffers w /\
    read_buf_ring w1 = match e, buffer_select c with
      | SqeRecv _, Some bid => fill_buffer bid (received c) (read_buf_ring w) | _, _ => read_buf_ring w end /\
    ring_head w1 = match e, buffer_select c with SqeRecv _, Some _ => u16 (ring_head w + 1) | _, _ => ring_head w end).
  { unfold w1, kernel. rewrite He. destruct e; simpl; [done| |by destruct (_ <? _)]. by destruct (buffer_select c). }
  destruct Ew1 as (Q1 & S1 & G1 & B1 & R1 & H1). destruct o as [|id|id b], e as [|f|f b' off n]; try done.
  - eapply wp_mono; [by apply (handle_accept_ended _ w1)|]. intros [er|[]] w'; [intros [-> Hq]; split; [done|by rewrite <- Q1]|].
    intros (Hu' & R' & H'). split; [done|]. rewrite R', H', R1, H1. by destruct (buffer_select c).
  - destruct Hoe as (x & y & Hx & Hp & _). rewrite <- G1 in Hx.
    assert (Hring : (0 < result c -> exists bid buf, buffer_select c = Some bid /\
        get_buffer_slice (read_buf_ring w1) bid = Val buf /\ len buf = s_buffer_size cfg /\
        len (received c) = result c /\ take (length (received c)) buf = received c) /\
      ring_state [] (given_back (buffer_select c) (read_buf_ring w1)) (ring_head w1)).
    { rewrite R1, H1. destruct (buffer_select c) as [bid|]; [|split; [lia|done]].
      destruct Hok as (Hk & Hlen & Hfit). pose proof Hr as (_ & _ & Hsz). rewrite Hsz in Hfit.
      destruct (ring_taken bid (received c) _ _ Hr Hk Hfit) as (Hr' & buf & Hbuf & Hlb & Hpre). split; [|done].
      intros Hpos. exists bid, buf. split_and!; auto. }
    destruct Hring as [Hcond Hring].
    pose proof (handle_read_ended (now c) id w1 x y (received c) (result c) (buffer_select c) Hu Hcfg Hx Hp Hcond) as Hh.
    assert (Ea : accumulated x w1 = accumulated x w) by (unfold accumulated; by rewrite B1).
    rewrite S1, Ea in Hh. unfold wp in Hh |- *. rewrite G1 in Hx.
    destruct (handle_read _ _ _ _ _ w1) as [[er|[]] w'|w'|w']; [| |by exists id, x..].
    + destruct Hh as [-> Hh]. split; [done|]. rewrite <- Q1. lia.
    + destruct Hh as (Hu' & R' & H'). split; [done|]. by rewrite R', H'.
  - destruct Hoe as (x & t & Hx & Hp & _ & -> & ->). rewrite <- G1 in Hx. destruct Hok as [Hle Hb].
    unfold write_succeeds in Hws. rewrite Ho in Hws.
    eapply wp_mono; [by apply (handle_write_ended _ id w1 x b off t)|].
    intros [er|[]] w'; [intros [-> Hq]; split; [done|rewrite <- Q1; lia]|].
    intros (Hu' & R' & H'). split; [done|]. rewrite R', H', R1, H1. by destruct (buffer_select c).
Qed.

Lemma uworker_new_ok s r room w r0 entries :
  settings_ok cfg -> entries <= 32768 -> ring_new entries (s_buffer_size cfg) true true = inr r ->
  worker_new cfg s r room = Done r0 w -> r0 = inr tt -> uworker_ok w.
Proof.
  intros (Hm & Hsz & _) He Hr E ->. unfold worker_new in E. set (w0 := mkUWorker _ _ _ _ _ _ _ _ _ _) in E.
  assert (Hu : uinv (Some None) w0).
  { split; simpl; rewrite ?slab_items_new; try done.
    - intros k [->|(id & c & -> & Hc)]; [done|]. by rewrite lookup_empty in Hc.
    - apply pool_inv_new. lia. }
  pose proof (submit_ok False w0 OpAccept SqeAccept Hu I) as H. unfold wp in H.
  change (submit OpAccept SqeAccept w0) with (submit_accept w0) in H. rewrite E in H.
  destruct H as (Hu' & _ & R & Hh & _). split; [done|]. rewrite R, Hh. simpl.
  destruct (ring_new_inv _ _ _ He Hr) as (t & Hi). split_and!.
  - exists (Z.to_nat entries), 0%nat, t. split; [done|]. eapply ring_new_buffers; [|done]. lia.
  - eapply ring_new_buffers; [|done]. lia.
  - by eapply ring_size_new.
Qed.

End invariant.
