(* ===== verification/UringRun.v ===== *)
(** * The io_uring event loop: exact runs of one connection

    [recv] and [send] drive a worker for one client: the queued operations are
    submitted, and the operation of the connection completes. *)

From S2P Require Import Prelude RustStd Storage Memcached Resp Ping Echo Request RequestFacts RequestBounds.
From S2P Require Import Buffer BufferFacts Slab Connection ConnectionThms Token BufRing Uring UringFacts.

Section runs.
Context `{BP : BuildProfile, LY : Layout, HO : HashOrder, UC : UnicodeCase, FL : FrameLayout}.
Context `{SL : SlabLib, LW : !SlabLaws}.
Context (cfg : settings).
Implicit Types (w : UWorker).

Abbreviation conns w := (slab_items (connections (registry w))).
Abbreviation in_flight w := (slab_items (ops (tokens w))).
Abbreviation buffer w i := (pool_buffers (write_buffers w) !! i).
Abbreviation max := (s_max_value_size cfg).

(** ** Driving a connection *)

(** The token of the operation of a connection, or of the accept. *)
Definition op_token (k : option nat) w : option nat :=
  fst <$> head (filter (fun x => op_conn x.2 = k) (map_to_list (in_flight w))).
Definition token_of (id : nat) w : option nat := op_token (Some id) w.

Definition submitted_room w : UWorker := with_queue (inflight w) 1 w.

(** The connection's receive completes with [d], in the next buffer of the ring. *)
Definition recv (clock : nat -> Z) (id : nat) (d : bytes) : st UWorker (uring_error + unit) := fun w =>
  match token_of id w, kernel_next (ring_head w) (read_buf_ring w) with
  | Some t, Some e => worker_event cfg (Completed (mkCqe t (len d) (Some (e_bid e)) d clock)) (submitted_room w)
  | _, _ => Done (inl NotFound) w
  end.

(** The accept completes with the descriptor [f]. *)
Definition connects (f : Z) : st UWorker (uring_error + unit) := fun w =>
  match op_token None w with
  | Some t => worker_event cfg (Completed (mkCqe t f None [] (fun _ => 0))) (with_queue (inflight w) 2 w)
  | None => Done (inl NotFound) w
  end.

(** The connection's receive completes with the end of the stream. *)
Definition hangs_up (id : nat) : st UWorker (uring_error + unit) := fun w =>
  match token_of id w with
  | Some t => worker_event cfg (Completed (mkCqe t 0 None [] (fun _ => 0))) (submitted_room w)
  | None => Done (inl NotFound) w
  end.

(** The connection's write completes; the socket had room for [k] bytes. *)
Definition send (id : nat) (k : Z) : st UWorker (uring_error + unit) := fun w =>
  match token_of id w with
  | Some t =>
      match inflight w !! t with
      | Some (SqeWrite _ _ _ n) =>
          worker_event cfg (Completed (mkCqe t (Z.min k n) None [] (fun _ => 0))) (submitted_room w)
      | _ => Done (inl NotFound) w
      end
  | None => Done (inl NotFound) w
  end.

Lemma op_token_eq k w t o :
  uinv cfg None w -> in_flight w !! t = Some o -> op_conn o = k -> op_token k w = Some t.
Proof.
  intros Hi Ho Hc. unfold op_token.
  assert (Hin : (t, o) ∈ filter (fun x => op_conn x.2 = k) (map_to_list (in_flight w))).
  { apply list_elem_of_filter. split; [done|]. by apply elem_of_map_to_list. }
  destruct (filter _ _) as [|[t' o'] l] eqn:E; [by apply not_elem_of_nil in Hin|]. simpl. f_equal.
  assert (Hx : (t', o') ∈ filter (fun x => op_conn x.2 = k) (map_to_list (in_flight w)))
    by (rewrite E; apply list_elem_of_here).
  apply list_elem_of_filter in Hx as [Hx1 Hx2]. apply elem_of_map_to_list in Hx2. simpl in *.
  eapply (u_inj _ _ _ Hi); [done..|congruence].
Qed.

Lemma token_of_eq id w t o :
  uinv cfg None w -> in_flight w !! t = Some o -> op_conn o = Some id -> token_of id w = Some t.
Proof. apply op_token_eq. Qed.

Lemma room_ok w n : uworker_ok cfg w -> uworker_ok cfg (with_queue (inflight w) n w).
Proof. intros [[] ?]. by split. Qed.

(** The operation a connection waits for. *)
Lemma conn_op id c w :
  uworker_ok cfg w -> conns w !! id = Some c ->
  exists t o e, in_flight w !! t = Some o /\ inflight w !! t = Some e /\ token_of id w = Some t /\
    match phase c with
    | Established (Writing b off n) =>
        o = OpWrite id (Z.to_nat b) /\ e = SqeWrite (fd c) (Z.to_nat b) off (n - off) /\ 0 <= b
    | _ => o = OpRead id /\ e = SqeRecv (fd c)
    end.
Proof.
  intros [Hi _] Hc. destruct (u_all _ _ _ Hi (Some id)) as (t & o & Ho & Hk); [right; by eauto|done|].
  destruct (u_ops _ _ _ Hi _ _ Ho) as (_ & e & He & Hok). exists t, o, e. split_and!; try done.
  - by eapply token_of_eq.
  - destruct o as [|i|i b], e as [|f|f b' off n]; try done; simpl in Hk; simplify_eq.
    + destruct Hok as (x & y & Hx & Hp & ->). rewrite Hc in Hx. simplify_eq. by rewrite Hp.
    + destruct Hok as (x & y & Hx & Hp & -> & -> & ->). rewrite Hc in Hx. simplify_eq. rewrite Hp.
      rewrite Nat2Z.id. split_and!; try done. lia.
Qed.

(** A receive in terms of its handler. *)
Lemma recv_eq clock id c x w d :
  uworker_ok cfg w -> conns w !! id = Some c -> phase c = Established (Reading x) ->
  0 < len d <= s_buffer_size cfg ->
  exists w1 bid buf, uinv cfg (Some (Some id)) w1 /\ registry w1 = registry w /\
    write_buffers w1 = write_buffers w /\ storage w1 = storage w /\ sq_room w1 = 1%nat /\
    wire w1 = wire w /\ closed w1 = closed w /\
    get_buffer_slice (read_buf_ring w1) bid = Val buf /\ len buf = s_buffer_size cfg /\ take (length d) buf = d /\
    recv clock id d w = handle_read clock (len d) id (Some bid) max w1 /\
    (forall w', recv clock id d w = Done (inr tt) w' -> settings_ok cfg -> uworker_ok cfg w').
Proof.
  intros Hw Hc Hp Hd. destruct (conn_op _ _ _ Hw Hc) as (t & o & e & Ho & He & Ht & Hoe). rewrite Hp in Hoe.
  destruct Hoe as [-> ->]. pose proof Hw as [Hi Hr].
  assert (Hk : exists e, kernel_next (ring_head w) (read_buf_ring w) = Some e).
  { destruct Hr as ((n & h & tl & Hri & _) & _). pose proof (kernel_next_eq _ _ _ _ _ _ Hri) as Hk.
    case_decide as E; [|by eexists]. destruct Hri as [(k & ? & Hn) _ _ _ _ [Hcnt _] _ _]. simpl in Hcnt.
    pose proof (Z.pow_pos_nonneg 2 k). lia. }
  destruct Hk as [en Hk]. unfold recv. rewrite Ht, Hk. set (c0 := mkCqe _ _ _ _ _). set (w0 := submitted_room w).
  pose proof (room_ok w 1 Hw) as Hw0. fold w0 in Hw0.
  destruct (kernel_ok cfg c0 w0 (OpRead id) (proj1 Hw0) Ho) as (ts & Ef & Hu).
  assert (Ek : kernel c0 w0 = with_ring (fill_buffer (e_bid en) d (read_buf_ring w)) (u16 (ring_head w + 1))
    (with_queue (base.delete t (inflight w)) 1 w)).
  { unfold kernel. cbn [user_data c0]. change (inflight w0) with (inflight w). by rewrite He. }
  destruct (ring_taken cfg (e_bid en) d _ _ Hr (ex_intro _ en (conj Hk eq_refl)) (proj2 Hd)) as (_ & buf & Hbuf & Hlb & Hpre).
  exists (with_tokens ts (kernel c0 w0)), (e_bid en), buf. rewrite Ek in *. split_and!; try done.
  - cbn [worker_event]. rewrite (bind_done (modify _) _ _ tt (kernel c0 w0)) by done. rewrite Ek.
    unfold handle_completion. erewrite (bind_done (on_tokens _)) by (unfold on_tokens, zoom; by rewrite Ef). done.
  - intros w' E Hcfg.
    assert (Hok : cqe_ok w0 c0).
    { unfold cqe_ok. change (inflight w0 !! user_data c0) with (inflight w !! t). rewrite He. simpl.
      destruct Hr as (_ & _ & ->). split_and!; [by exists en|done|lia]. }
    assert (Hws : write_succeeds w0 c0).
    { unfold write_succeeds. change (in_flight w0 !! user_data c0) with (in_flight w !! t). by rewrite Ho. }
    pose proof (completion_ok cfg w0 c0 Hw0 Hcfg Hok Hws) as H. unfold wp in H. by rewrite E in H.
Qed.

(** ** Waiting and sending *)

Record uwaiting (id : nat) (c : Connection) (x : bytes) (w : UWorker) : Prop := {
  uw_ok : uworker_ok cfg w;
  uw_conn : conns w !! id = Some c;
  uw_phase : exists f, phase c = Established (Reading f);
  uw_data : accumulated c w = x;
  uw_enough : enough c w
}.

Record usending (id : nat) (c : Connection) (response : bytes) (n : Z) (x : bytes) (w : UWorker) : Prop := {
  us_ok : uworker_ok cfg w;
  us_conn : conns w !! id = Some c;
  us_range : 0 <= n <= len response /\ len response <= s_buffer_size cfg;
  us_phase : exists j b, phase c = Established (Writing (Z.of_nat j) n (len response)) /\
    buffer w j = Some b /\ take (length response) b = response;
  us_data : accumulated c w = x;
  us_read : is_Some (read_buf_idx c)
}.

Definition uneeds_more (clock : nat -> Z) (proto : Protocol) (x : bytes) (s : Storage) : Prop :=
  forall o, len o = s_buffer_size cfg -> exists out, len out = len o /\
    process clock proto x o max s = Done (NeedData, out) s.

Definition uanswers (clock : nat -> Z) (proto : Protocol) (x : bytes) (s : Storage)
    (consumed : Z) (response : bytes) (s' : Storage) : Prop :=
  forall o, len o = s_buffer_size cfg -> exists out, len out = len o /\ take (length response) out = response /\
    process clock proto x o max s = Done (Response consumed (len response), out) s'.

(** What belongs to a connection for life. *)
Definition same_client (c c' : Connection) : Prop := fd c' = fd c /\ conn_protocol c' = conn_protocol c.

(** A step of one connection leaves the records and the buffers of all others, and the
    size of the pool. *)
Definition uisolated (id : nat) w w' : Prop :=
  (forall other, other <> id -> conns w' !! other = conns w !! other /\
    forall c i, conns w !! other = Some c -> i ∈ uowned c -> buffer w' i = buffer w i) /\
  length (pool_buffers (write_buffers w')) = length (pool_buffers (write_buffers w)).

Lemma uheld_owned m id c i : m !! id = Some c -> i ∈ uowned c -> i ∈ uheld m.
Proof. intros Hc Hi. rewrite (uheld_delete _ _ _ Hc). set_solver. Qed.

Lemma uview_isolated id w0 c X w w' :
  uview id w0 c X w -> registry w' = registry w -> write_buffers w' = write_buffers w -> uisolated id w0 w'.
Proof.
  intros V G B. destruct V as [Vc _ _ (Vf & Vl & _) _ _]. split.
  - intros other Ho. rewrite G, B. split; [by rewrite Vc, lookup_insert_ne|]. intros x i Hx Hi. apply Vf.
    eapply (uheld_owned _ other x); [by rewrite lookup_delete_ne|done].
  - by rewrite B.
Qed.

Lemma uisolated_start id w w1 w' :
  registry w1 = registry w -> write_buffers w1 = write_buffers w -> uisolated id w1 w' -> uisolated id w w'.
Proof. unfold uisolated. by intros -> ->. Qed.

Context (Hcfg : settings_ok cfg).

Lemma recv_more clock id c x d w :
  uwaiting id c x w -> d <> [] -> len x + len d <= s_buffer_size cfg ->
  uneeds_more clock (conn_protocol c) (x ++ d) (storage w) ->
  exists w' c', recv clock id d w = Done (inr tt) w' /\ uwaiting id c' (x ++ d) w' /\
    same_client c c' /\ storage w' = storage w /\ wire w' = wire w /\ uisolated id w w'.
Proof.
  intros [Hw Hc (f & Hp) Hx Hen] Hd Hfit Hneed.
  assert (Hld : 0 < len d) by (destruct d; [done|rewrite len_cons; pose proof (len_nonneg d); lia]).
  destruct (recv_eq clock id c f w d Hw Hc Hp) as
    (w1 & bid & buf & Hu & G1 & B1 & S1 & Q1 & W1 & K1 & Hbuf & Hlb & Hpre & E & Hok); [pose proof (len_nonneg x); lia|].
  assert (Hx1 : accumulated c w1 = x) by (unfold accumulated; by rewrite B1).
  assert (Hc1 : conns w1 !! id = Some c) by (by rewrite G1).
  pose proof (accumulated_len cfg _ _ _ Hu Hc1) as Hacc. rewrite Hx1 in Hacc.
  assert (Hr : wp False (handle_read clock (len d) id (Some bid) max) (fun r w' => r = inr tt /\
    storage w' = storage w /\ wire w' = wire w /\ uisolated id w1 w' /\ exists i b, buffer w' i = Some b /\
    take (Z.to_nat (len (x ++ d))) b = x ++ d /\ conns w' !! id = Some (with_read (Some i) (len (x ++ d)) c) /\
    (1 <= length (free_list (write_buffers w')))%nat) w1).
  { eapply (handle_read_run cfg); try done.
    - intros i b w2 o c' Ho S2 Hb Hl Hin _ Hf. rewrite Hx1, S1 in *. destruct (Hneed o Ho) as (out & Hout & ->).
      split; [done|]. intros j w3 V3 S3 (R3 & H3 & Q3 & K3 & W3) _ Hbi L3. simpl in *.
      unfold apply_result. apply wp_bind. eapply wp_done; [done|]. rewrite (uview_get _ _ _ _ _ V3).
      apply wp_bind. eapply uview_free; [done|]. intros p V4 B4 L4.
      eapply (submit_read_run cfg False id w1 c c' f); try done.
      + eapply conn_good_read; [by apply (u_conn _ _ _ Hu _ _ Hc1)|]. pose proof (len_nonneg x). lia.
      + intros w5 (_ & S5 & _ & _ & _ & W5 & G5 & B5 & _). simpl in *. rewrite len_app, Hacc. split_and!; try congruence.
        { by eapply uview_isolated. }
        exists i, b. rewrite B5, G5, B4. split_and!; try done.
        * by rewrite (uv_conns _ _ _ _ _ V3), lookup_insert_eq.
        * lia.
      + simpl. rewrite Q3, Q1. done.
    - intros c' w' _ _ _ _ [Hne|Hbig]; exfalso; [|lia]. apply Hne. unfold enough. by rewrite B1. }
  apply wp_returns in Hr as (r & w' & E' & -> & Hst & Hwi & Hiso & i & b & Hb & Hxd & Hc' & Hfree). rewrite E' in E.
  exists w', (with_read (Some i) (len (x ++ d)) c). split_and!; try done; [|by eapply uisolated_start].
  split; try done; [by apply Hok|by exists f| ]. unfold accumulated. simpl. rewrite Hb. done.
Qed.

(** The result of a request that is answered: the rest of the input stays, the response
    is submitted. *)
Lemma response_run id w1 c f i j b out total consumed n w :
  uinv cfg (Some (Some id)) w1 -> conns w1 !! id = Some c -> phase c = Established (Reading f) ->
  let c' := with_read (Some i) total c in uview id w1 c' (j :: uowned c') w -> sq_room w = 1%nat ->
  buffer w j = Some out -> buffer w i = Some b -> len b = s_buffer_size cfg ->
  0 <= consumed -> 0 <= total <= s_buffer_size cfg -> 0 <= n <= s_buffer_size cfg ->
  let rest := Z.max 0 (total - consumed) in
  wp False (apply_result id i j total (Response consumed n)) (fun r w' => r = inr tt /\
    storage w' = storage w /\ wire w' = wire w /\ uisolated id w1 w' /\
    exists b', buffer w' i = Some b' /\ buffer w' j = Some out /\
    take (Z.to_nat rest) b' = drop (Z.to_nat consumed) (take (Z.to_nat total) b) /\
    conns w' !! id = Some (with_phase (Established (writing (Z.of_nat j) n)) (with_read (Some i) rest c))) w.
Proof.
  intros Hu Hc Hp c' V Q Hbj Hbi Hlb Hcon Htot Hn rest.
  unfold apply_result. apply wp_bind. eapply wp_done; [done|]. rewrite (uview_get _ _ _ _ _ V).
  assert (Hne : j <> i).
  { pose proof (uv_pool _ _ _ _ _ V) as Hpi. apply held_NoDup, NoDup_app in Hpi as (Hpi & _ & _).
    apply NoDup_cons in Hpi as [Hpi _]. intros ->. apply Hpi. unfold c', uowned. simpl. set_solver. }
  apply wp_bind. eapply keep_leftover_run; [exact V|done| |exact Hbi|lia|lia|].
  { unfold c', uowned. simpl. set_solver. }
  intros w4 b' V4 (S4 & R4 & H4 & Q4 & K4 & W4) B4 _ Hlb' Hrest. fold rest in V4.
  eapply (respond_with_run cfg False id w1 c (with_read (Some i) rest c) f); try done.
  - eapply conn_good_read; [by apply (u_conn _ _ _ Hu _ _ Hc)|]. unfold rest. lia.
  - intros w5 w6 c6 V5 (S5 & _ & _ & _ & _ & W5) B5 (_ & S6 & _ & _ & _ & W6 & G6 & B6 & _).
    split_and!; try congruence; [by eapply uview_isolated|]. exists b'. rewrite B6, B5, B4, G6. split_and!.
    + apply list_lookup_insert_eq. by eapply lookup_lt_Some.
    + by rewrite list_lookup_insert_ne.
    + rewrite <- Hrest. f_equal. unfold rest. lia.
    + by rewrite (uv_conns _ _ _ _ _ V5), lookup_insert_eq.
  - rewrite Q4, Q. done.
Qed.

Lemma recv_last clock id c x d w consumed response s' :
  uwaiting id c x w -> d <> [] -> len x + len d <= s_buffer_size cfg ->
  uanswers clock (conn_protocol c) (x ++ d) (storage w) consumed response s' ->
  exists w' c', recv clock id d w = Done (inr tt) w' /\
    usending id c' response 0 (drop (Z.to_nat consumed) (x ++ d)) w' /\
    same_client c c' /\ storage w' = s' /\ wire w' = wire w /\ uisolated id w w'.
Proof.
  intros [Hw Hc (f & Hp) Hx Hen] Hd Hfit Hans. pose proof (len_nonneg x). pose proof (len_nonneg response).
  assert (Hld : 0 < len d) by (destruct d; [done|rewrite len_cons; pose proof (len_nonneg d); lia]).
  destruct (recv_eq clock id c f w d Hw Hc Hp) as
    (w1 & bid & buf & Hu & G1 & B1 & S1 & Q1 & W1 & K1 & Hbuf & Hlb & Hpre & E & Hok); [lia|].
  assert (Hx1 : accumulated c w1 = x) by (unfold accumulated; by rewrite B1).
  assert (Hc1 : conns w1 !! id = Some c) by (by rewrite G1).
  pose proof (accumulated_len cfg _ _ _ Hu Hc1) as Hacc. rewrite Hx1 in Hacc.
  set (n := Z.max 0 (read_accumulated c + len d - consumed)).
  assert (Hr : wp False (handle_read clock (len d) id (Some bid) max) (fun r w' => r = inr tt /\
    storage w' = s' /\ wire w' = wire w /\ uisolated id w1 w' /\ len response <= s_buffer_size cfg /\
    exists i j b out, buffer w' i = Some b /\ buffer w' j = Some out /\
    take (length response) out = response /\ take (Z.to_nat n) b = drop (Z.to_nat consumed) (x ++ d) /\
    conns w' !! id = Some (with_phase (Established (writing (Z.of_nat j) (len response))) (with_read (Some i) n c))) w1).
  { eapply (handle_read_run cfg); try done.
    - intros i b w2 o c' Ho S2 Hb Hl Hin _ Hf. rewrite Hx1, S1 in *. destruct (Hans o Ho) as (out & Hout & Hresp & Ep).
      rewrite Ep. assert (Hfi : len (x ++ d) <= s_buffer_size cfg) by (rewrite len_app; lia).
      destruct (uprocess_result_in cfg _ _ _ _ _ _ _ Hcfg Hfi Ho Ep) as [_ Hres]. simpl in Hres.
      split; [done|]. intros j w3 V3 S3 (R3 & H3 & Q3 & K3 & W3) Hbj Hbi L3. simpl in R3, H3, Q3, K3, W3.
      eapply wp_mono; [eapply (response_run id w1 c f i j b out); try done; (congruence || lia)|].
      intros r w' (-> & S4 & W4 & Hiso & b' & Hb' & Hj & Hrest & Hc'). split_and!; try congruence; [lia|].
      exists i, j, b', out. rewrite Hin in Hrest. by split_and!.
    - intros c' w' _ _ _ _ [Hne|Hbig]; exfalso; [|lia]. apply Hne. unfold enough. by rewrite B1. }
  apply wp_returns in Hr as (r & w' & E' & -> & Hst & Hwi & Hiso & Hrl & i & j & b & out & Hb & Hj & Hresp & Hrest & Hc').
  rewrite E' in E. eexists w', _. split; [done|].
  split; [|split_and!; [|done|done|by eapply uisolated_start]];
    [split; [by apply Hok|exact Hc'|lia|by exists j, out| |by eexists]|done].
  unfold accumulated. simpl. by rewrite Hb.
Qed.

(** The results of the request layer on which the event loop closes the connection: the
    request layer gives it up, or a value or response is larger than a buffer. *)
Definition uring_hangs (r : ProcessResult) : bool :=
  match r with Quit | Request.Error | NeedChain _ _ | LargeResponse _ _ => true | _ => false end.

Lemma abandon_run id w1 c0 c j w :
  uinv cfg (Some (Some id)) w1 -> conns w1 !! id = Some c0 -> uview id w1 c (j :: uowned c) w ->
  conn_good (s_buffer_size cfg) c ->
  wp False (abandon id j) (fun r w' => r = inr tt /\ conns w' = base.delete id (conns w1) /\
    storage w' = storage w /\ wire w' = wire w /\ uisolated id w1 w') w.
Proof.
  intros Hi Hc V Hg. apply wp_bind. eapply uview_free; [done|]. intros p V1 B1 _.
  pose proof (uview_end _ _ _ _ _ _ Hi Hc V1 Hg) as Hw. pose proof (uv_conns _ _ _ _ _ V1) as Hcs. apply wp_bind.
  eapply wp_mono; [apply (uclose_ok cfg False id _ c Hw); by rewrite Hcs, lookup_insert_eq|].
  intros [] w' (_ & H1 & H2 & _ & _ & _ & H3 & _ & H4). eapply wp_done; [done|]. simpl in Hcs, H1, H2, H3, H4.
  rewrite Hcs, delete_insert_eq in H1. split_and!; try done.
  destruct (uv_frame _ _ _ _ _ V1) as (Vf & Vl & _). simpl in Vf, Vl. split; [|by rewrite H4].
  intros other Ho. rewrite H1, lookup_delete_ne by done. split; [done|]. intros x i Hx Hix. rewrite H4. apply Vf.
  eapply (uheld_owned _ other x); [by rewrite lookup_delete_ne|done].
Qed.

Lemma hang_up_result id w1 c f i j b total w input output res :
  uinv cfg (Some (Some id)) w1 -> conns w1 !! id = Some c -> phase c = Established (Reading f) ->
  let c' := with_read (Some i) total c in uview id w1 c' (j :: uowned c') w ->
  buffer w i = Some b -> len b = s_buffer_size cfg -> 0 <= total <= s_buffer_size cfg ->
  len output = s_buffer_size cfg -> result_in input output max 2 res -> uring_hangs res.1 = true ->
  wp False (apply_result id i j total res.1) (fun r w' => r = inr tt /\ conns w' = base.delete id (conns w1) /\
    storage w' = storage w /\ wire w' = wire w /\ uisolated id w1 w') w.
Proof.
  intros Hu Hc Hp c' V Hb Hlb Ht Ho [_ Hr] Hh. pose proof (u_conn _ _ _ Hu _ _ Hc) as Hg.
  assert (Hg' : conn_good (s_buffer_size cfg) c') by (by eapply conn_good_read).
  unfold apply_result. apply wp_bind. eapply wp_done; [done|]. rewrite (uview_get _ _ _ _ _ V).
  destruct res as [[| command_len value_len| consumed n| consumed d| |] out]; simpl in Hr, Hh |- *; try done;
    try (by eapply (abandon_run id w1 c c')).
  destruct Hr as [Hc1 Hn]. apply wp_bind. eapply keep_leftover_run; [exact V|done| |done|lia|lia|].
  { unfold c', uowned. simpl. set_solver. }
  intros w2 b' V1 (S1 & _ & _ & _ & _ & W1) _ _ _ _. apply wp_bind. eapply wp_done; [done|].
  unfold buffer_size. rewrite (uview_size cfg _ _ _ _ _ (u_size _ _ _ Hu) V1), (proj2 (Z.leb_gt _ _)) by lia.
  rewrite <- S1, <- W1. eapply (abandon_run id w1 c (with_read (Some i) (Z.max 0 (total - consumed)) c')); try done.
  eapply conn_good_read; [done|]. lia.
Qed.

(** The receive after which the connection is closed. *)
Lemma recv_end clock id c x d w s' :
  uwaiting id c x w -> d <> [] -> len x + len d <= s_buffer_size cfg ->
  (forall o, len o = s_buffer_size cfg -> exists r out, uring_hangs r = true /\ len out = len o /\
    process clock (conn_protocol c) (x ++ d) o max (storage w) = Done (r, out) s') ->
  exists w', recv clock id d w = Done (inr tt) w' /\ uworker_ok cfg w' /\
    conns w' = base.delete id (conns w) /\ storage w' = s' /\ wire w' = wire w /\ uisolated id w w'.
Proof.
  intros [Hw Hc (f & Hp) Hx Hen] Hd Hfit Hend. pose proof (len_nonneg x).
  assert (Hld : 0 < len d) by (destruct d; [done|rewrite len_cons; pose proof (len_nonneg d); lia]).
  destruct (recv_eq clock id c f w d Hw Hc Hp) as
    (w1 & bid & buf & Hu & G1 & B1 & S1 & Q1 & W1 & K1 & Hbuf & Hlb & Hpre & E & Hok); [lia|].
  assert (Hx1 : accumulated c w1 = x) by (unfold accumulated; by rewrite B1).
  assert (Hc1 : conns w1 !! id = Some c) by (by rewrite G1).
  pose proof (accumulated_len cfg _ _ _ Hu Hc1) as Hacc. rewrite Hx1 in Hacc.
  assert (Hr : wp False (handle_read clock (len d) id (Some bid) max) (fun r w' => r = inr tt /\
    conns w' = base.delete id (conns w1) /\ storage w' = s' /\ wire w' = wire w /\ uisolated id w1 w') w1).
  { eapply (handle_read_run cfg); try done.
    - intros i b w2 o c' Ho S2 Hb Hl Hin _ Hf. rewrite Hx1, S1 in *. destruct (Hend o Ho) as (r & out & Hh & Hout & Ep).
      rewrite Ep. assert (Hfi : len (x ++ d) <= s_buffer_size cfg) by (rewrite len_app; lia).
      pose proof (uprocess_result_in cfg _ _ _ _ _ _ _ Hcfg Hfi Ho Ep) as Hres.
      split; [done|]. intros j w3 V3 S3 (R3 & H3 & Q3 & K3 & W3) Hbj Hbi L3. simpl in R3, H3, Q3, K3, W3.
      eapply wp_mono; [eapply (hang_up_result id w1 c f i j b _ w3 (x ++ d) o (r, out)); try done; (congruence || lia)|].
      intros r' w' (-> & C4 & S4 & W4 & Hiso). split_and!; try done; congruence.
    - intros c' w' _ _ _ _ [Hne|Hbig]; exfalso; [|lia]. apply Hne. unfold enough. by rewrite B1. }
  apply wp_returns in Hr as (r & w' & E' & -> & Hc' & Hst & Hwi & Hiso). rewrite E' in E.
  exists w'. rewrite G1 in Hc'. split_and!; try done; [by apply Hok|by eapply uisolated_start].
Qed.

(** A write in terms of its handler. *)
Lemma send_eq id c response n x k w :
  usending id c response n x w -> n < len response -> 0 < k ->
  exists w1 j b, let m := Z.min k (len response - n) in
    uinv cfg (Some (Some id)) w1 /\ registry w1 = registry w /\ write_buffers w1 = write_buffers w /\
    storage w1 = storage w /\ sq_room w1 = 1%nat /\
    wire w1 = wire w ++ [(fd c, take (Z.to_nat k) (drop (Z.to_nat n) response))] /\
    phase c = Established (Writing (Z.of_nat j) n (len response)) /\
    buffer w j = Some b /\ take (length response) b = response /\
    send id k w = handle_write m id j w1 /\
    (forall w', send id k w = Done (inr tt) w' -> uworker_ok cfg w').
Proof.
  intros [Hw Hc [Hn Hl] (j & b & Hp & Hb & Hresp) Hx Hr] Hlt Hk.
  destruct (conn_op _ _ _ Hw Hc) as (t & o & e & Ho & He & Ht & Hoe). rewrite Hp, Nat2Z.id in Hoe.
  destruct Hoe as (-> & -> & _). pose proof Hw as [Hi Hri]. unfold send. rewrite Ht, He.
  set (m := Z.min k (len response - n)). set (c0 := mkCqe _ _ _ _ _). set (w0 := submitted_room w).
  pose proof (room_ok w 1 Hw) as Hw0. fold w0 in Hw0.
  destruct (kernel_ok cfg c0 w0 (OpWrite id j) (proj1 Hw0) Ho) as (ts & Ef & Hu).
  assert (Hm : 0 < m) by lia.
  assert (Hpc : take (Z.to_nat m) (drop (Z.to_nat n) b) = take (Z.to_nat k) (drop (Z.to_nat n) response)).
  { assert (Hlb : (length response <= length b)%nat) by (rewrite <- Hresp, length_take; lia).
    rewrite <- Hresp, skipn_firstn_comm, take_take. f_equal. unfold m, len in *. lia. }
  assert (Ek : kernel c0 w0 = with_wire (wire w ++ [(fd c, take (Z.to_nat k) (drop (Z.to_nat n) response))])
    (with_queue (base.delete t (inflight w)) 1 w)).
  { unfold kernel. cbn [user_data c0 result]. change (inflight w0) with (inflight w). rewrite He.
    rewrite (proj2 (Z.ltb_lt 0 m)) by lia. simpl. rewrite Hb. simpl. by rewrite Hpc. }
  exists (with_tokens ts (kernel c0 w0)), j, b. rewrite Ek in *. split_and!; try done.
  - cbn [worker_event]. rewrite (bind_done (modify _) _ _ tt (kernel c0 w0)) by done. rewrite Ek.
    unfold handle_completion. erewrite (bind_done (on_tokens _)) by (unfold on_tokens, zoom; by rewrite Ef). done.
  - intros w' E. assert (Hok : cqe_ok w0 c0).
    { unfold cqe_ok. change (inflight w0 !! user_data c0) with (inflight w !! t). rewrite He. simpl.
      split; [unfold m; lia|done]. }
    assert (Hws : write_succeeds w0 c0).
    { unfold write_succeeds. change (in_flight w0 !! user_data c0) with (in_flight w !! t). by rewrite Ho. }
    pose proof (completion_ok cfg w0 c0 Hw0 Hcfg Hok Hws) as H. unfold wp in H. by rewrite E in H.
Qed.

(** The handler of a write that completes with part of what was left. *)
Lemma handle_write_run id c j n total k w1 :
  uinv cfg (Some (Some id)) w1 -> conns w1 !! id = Some c -> sq_room w1 = 1%nat ->
  phase c = Established (Writing (Z.of_nat j) n total) -> 0 <= n < total -> total <= s_buffer_size cfg -> 0 < k ->
  wp False (handle_write (Z.min k (total - n)) id j) (fun r w' => r = inr tt /\ storage w' = storage w1 /\
    wire w' = wire w1 /\ pool_buffers (write_buffers w') = pool_buffers (write_buffers w1) /\ uisolated id w1 w' /\
    if total <=? n + k then conns w' !! id = Some (with_phase established c) /\
      (1 <= length (free_list (write_buffers w')))%nat
    else conns w' !! id = Some (with_phase (Established (Writing (Z.of_nat j) (n + k) total)) c)) w1.
Proof.
  intros Hu Hc1 Q1 Hp Hn Hl Hk. set (m := Z.min k (total - n)).
  pose proof (uview_start _ _ _ _ _ Hu Hc1) as V. pose proof (u_conn _ _ _ Hu _ _ Hc1) as (Hg1 & Hg2 & _).
  pose proof Hcfg as (_ & Hsz & Hmv & Hbig).
  unfold handle_write. rewrite (proj2 (Z.leb_gt m 0)) by lia. apply wp_bind. eapply wp_done; [done|].
  rewrite (uview_get _ _ _ _ _ V), Hp. apply wp_bind. eapply wp_lift.
  { apply usize_add_small. unfold USIZE_MAX, U64_MAX, I64_MAX in *. lia. }
  apply wp_bind. eapply uview_update; [done|done|]. intros w2 V2 (S2 & _ & _ & Q2 & _ & W2) B2.
  assert (Eo : uowned c = j :: option_list (read_buf_idx c)) by (unfold uowned; rewrite Hp; simpl; by rewrite Nat2Z.id).
  destruct (total <=? n + k) eqn:El; boolify.
  - rewrite (proj2 (Z.leb_le _ _)) by lia. apply wp_bind. rewrite Eo in V2. eapply uview_free; [done|].
    intros p V3 B3 L3. apply wp_bind. eapply uview_update; [done|done|]. intros w4 V4 (S4 & _ & _ & Q4 & _ & W4) B4.
    simpl in *. eapply (submit_read_run cfg False id w1 c (with_phase established c) 0); try done.
    + intros w5 (_ & S5 & _ & _ & _ & W5 & G5 & B5 & _). rewrite B5, G5, B4. simpl.
      split_and!; try congruence; [by eapply uview_isolated|by rewrite (uv_conns _ _ _ _ _ V4), lookup_insert_eq|lia].
    + rewrite Q4, Q2, Q1. done.
  - assert (Em : n + m = n + k) by lia. rewrite (proj2 (Z.leb_gt _ _)) by lia. rewrite Em in *.
    set (c2 := with_phase (Established (Writing (Z.of_nat j) (n + k) total)) c) in *.
    eapply (submit_write_run cfg False id w1 c c2 j (n + k) total); try done.
    + unfold uowned in *. simpl. rewrite Hp in V2. exact V2.
    + split_and!; try done; simpl; lia.
    + intros w5 (_ & S5 & _ & _ & _ & W5 & G5 & B5 & _). rewrite B5, G5.
      split_and!; try congruence; [by eapply uview_isolated|by rewrite (uv_conns _ _ _ _ _ V2), lookup_insert_eq].
    + rewrite Q2, Q1. done.
Qed.

Lemma send_some id c response n x k w :
  usending id c response n x w -> n < len response -> 0 < k ->
  exists w' c', send id k w = Done (inr tt) w' /\ same_client c c' /\ storage w' = storage w /\
    wire w' = wire w ++ [(fd c, take (Z.to_nat k) (drop (Z.to_nat n) response))] /\ uisolated id w w' /\
    if len response <=? n + k then uwaiting id c' x w' else usending id c' response (n + k) x w'.
Proof.
  intros Hs Hlt Hk. destruct (send_eq _ _ _ _ _ _ _ Hs Hlt Hk) as
    (w1 & j & b & Hu & G1 & B1 & S1 & Q1 & W1 & Hp & Hb & Hresp & E & Hok).
  destruct Hs as [Hw Hc [Hn Hl] _ Hx [i Hri]].
  assert (Hc1 : conns w1 !! id = Some c) by (by rewrite G1).
  destruct (wp_returns _ _ _ (handle_write_run id c j n (len response) k w1 Hu Hc1 Q1 Hp ltac:(lia) Hl Hk))
    as (r & w' & E' & -> & Hst & Hwi & Hbf & Hiso & Hend). rewrite E' in E. specialize (Hok w' E).
  apply (uisolated_start _ w) in Hiso; [|done..].
  rewrite W1 in Hwi. rewrite S1 in Hst. rewrite B1 in Hbf.
  unfold accumulated in Hx. rewrite Hri in Hx. destruct (_ <=? _) eqn:El; boolify.
  - destruct Hend as [Hc' Hfree]. exists w', (with_phase established c). split_and!; try done.
    split; try done; [by eexists| |]; unfold accumulated, enough; simpl; rewrite Hri; [by rewrite Hbf|done].
  - eexists w', _. split; [done|]. split; [|split_and!; [done..|]]; [|split; [done|exact Hend|lia| | |]]; try done.
    + exists j, b. rewrite Hbf. done.
    + unfold accumulated. simpl. by rewrite Hri, Hbf.
Qed.

(** ** Several receives, several writes *)

Fixpoint recvs (id : nat) (ds : list ((nat -> Z) * bytes)) : st UWorker (uring_error + unit) :=
  match ds with
  | [] => ok tt
  | (clock, d) :: rest => _ ←? recv clock id d; recvs id rest
  end.

Fixpoint sends (id : nat) (ks : list Z) : st UWorker (uring_error + unit) :=
  match ks with
  | [] => ok tt
  | k :: rest => _ ←? send id k; sends id rest
  end.

Definition ujoined (ds : list ((nat -> Z) * bytes)) : bytes := concat ds.*2.

Lemma recvs_more id c x ds w :
  uwaiting id c x w -> Forall (fun y => y.2 <> []) ds -> len x + len (ujoined ds) <= s_buffer_size cfg ->
  (forall ds1 y ds2, ds = ds1 ++ y :: ds2 -> uneeds_more y.1 (conn_protocol c) (x ++ ujoined (ds1 ++ [y])) (storage w)) ->
  exists w' c', recvs id ds w = Done (inr tt) w' /\ uwaiting id c' (x ++ ujoined ds) w' /\
    same_client c c' /\ storage w' = storage w /\ wire w' = wire w.
Proof.
  revert c x w. induction ds as [|[clock d] ds IH]; intros c x w Hw Hne Hl Hp.
  - exists w, c. unfold ujoined. simpl. rewrite app_nil_r. by split_and!.
  - apply Forall_cons in Hne as [Hd Hne]. unfold ujoined in *. cbn [fmap list_fmap concat snd] in *.
    rewrite len_app in Hl. pose proof (len_nonneg (concat ds.*2)).
    destruct (recv_more clock id c x d w Hw Hd ltac:(lia)) as (w1 & c1 & E1 & Hw1 & Hc1 & S1 & W1 & _).
    { pose proof (Hp [] (clock, d) ds eq_refl) as H1. simpl in H1. by rewrite app_nil_r in H1. }
    destruct (IH c1 (x ++ d) w1 Hw1 Hne) as (w2 & c2 & E2 & Hw2 & Hc2 & S2 & W2).
    { rewrite len_app. lia. }
    { intros ds1 y ds2 ->. rewrite S1. destruct Hc1 as (_ & ->).
      pose proof (Hp ((clock, d) :: ds1) y ds2 eq_refl) as H1. simpl in H1. by rewrite <- app_assoc. }
    exists w2, c2. cbn [recvs]. unfold try. rewrite E1. rewrite app_assoc. split_and!; try done; try congruence.
    destruct Hc1, Hc2. split; congruence.
Qed.

Lemma sends_all id c response n x ms k w :
  usending id c response n x w -> Forall (fun m => 0 < m) ms -> 0 < k -> n + foldr Z.add 0 ms < len response ->
  len response <= n + foldr Z.add 0 ms + k ->
  exists w' c' pieces, sends id (ms ++ [k]) w = Done (inr tt) w' /\
    uwaiting id c' x w' /\ same_client c c' /\ storage w' = storage w /\
    wire w' = wire w ++ ((fd c,.) <$> pieces) /\ concat pieces = drop (Z.to_nat n) response.
Proof.
  revert c n w. induction ms as [|m ms IH]; intros c n w Hsd Hms Hk Hlt Hge; cbn [foldr app sends] in *.
  - destruct (send_some _ _ _ _ _ k _ Hsd ltac:(lia) Hk) as (w' & c' & E & Hc & Hs & Hw & _ & Hd).
    rewrite (proj2 (Z.leb_le _ _)) in Hd by lia. exists w', c', [drop (Z.to_nat n) response].
    unfold try. rewrite E. rewrite take_ge in Hw by (rewrite length_drop; unfold len in *; lia).
    split_and!; try done. simpl. by rewrite app_nil_r.
  - apply Forall_cons in Hms as [Hm Hms].
    assert (0 <= foldr Z.add 0 ms) by (clear -Hms; induction Hms; simpl; lia).
    destruct (send_some _ _ _ _ _ m _ Hsd ltac:(lia) Hm) as (w1 & c1 & E1 & Hc1 & S1 & W1 & _ & Hd1).
    rewrite (proj2 (Z.leb_gt _ _)) in Hd1 by lia.
    destruct (IH c1 (n + m) w1 Hd1 Hms Hk ltac:(lia) ltac:(lia)) as (w2 & c2 & ps & E2 & Hw2 & Hc2 & S2 & W2 & Hps).
    exists w2, c2, (take (Z.to_nat m) (drop (Z.to_nat n) response) :: ps). unfold try. rewrite E1.
    pose proof (us_range _ _ _ _ _ _ Hsd) as [? _]. destruct Hc1 as (Hst & Hpr).
    split_and!; try done; try congruence.
    + destruct Hc2. split; congruence.
    + rewrite W2, W1, <- app_assoc, Hst. done.
    + simpl. rewrite Hps. rewrite <- (take_drop (Z.to_nat m) (drop (Z.to_nat n) response)) at 2.
      rewrite drop_drop. do 2 f_equal. lia.
Qed.

(** ** Coming and going *)

(** A completion that brings no bytes, in terms of its handler. *)
Lemma quiet_completion w t o e f :
  uworker_ok cfg w -> in_flight w !! t = Some o -> inflight w !! t = Some e -> (forall a b c d, e <> SqeWrite a b c d) ->
  exists w1, uinv cfg (Some (op_conn o)) w1 /\ registry w1 = registry w /\ write_buffers w1 = write_buffers w /\
    calm w w1 /\
    worker_event cfg (Completed (mkCqe t f None [] (fun _ => 0))) w =
      match o with
      | OpAccept => handle_accept f (s_protocol cfg)
      | OpRead id => handle_read (fun _ => 0) f id None max
      | OpWrite id b => handle_write f id b
      end w1.
Proof.
  intros [Hi _] Ho He Hne. set (c0 := mkCqe _ _ _ _ _).
  destruct (kernel_ok cfg c0 w o Hi Ho) as (ts & Ef & Hu).
  assert (Ek : kernel c0 w = with_queue (base.delete t (inflight w)) (sq_room w) w).
  { unfold kernel. cbn [user_data c0]. rewrite He. destruct e; [done..|by edestruct Hne]. }
  exists (with_tokens ts (kernel c0 w)). rewrite Ek in *. split_and!; try done.
  cbn [worker_event]. rewrite (bind_done (modify _) _ _ tt (kernel c0 w)) by done. rewrite Ek.
  unfold handle_completion. erewrite (bind_done (on_tokens _)) by (unfold on_tokens, zoom; by rewrite Ef). by destruct o.
Qed.

Lemma handle_accept_run w f :
  uinv cfg (Some None) w -> sq_room w = 2%nat -> 0 <= f ->
  wp False (handle_accept f (s_protocol cfg)) (fun r w' => r = inr tt /\ uinv cfg None w' /\
    write_buffers w' = write_buffers w /\ storage w' = storage w /\ read_buf_ring w' = read_buf_ring w /\
    ring_head w' = ring_head w /\ wire w' = wire w /\
    if s_max_connections cfg <=? Z.of_nat (size (conns w)) then conns w' = conns w
    else exists id, conns w !! id = None /\ conns w' = <[id := conn_new f (s_protocol cfg)]> (conns w)) w.
Proof.
  intros Hi Hq Hf. pose proof Hcfg as (_ & Hsz & _). unfold handle_accept. apply wp_try.
  eapply wp_mono; [apply (submit_ok cfg False w OpAccept SqeAccept); done|].
  intros [e|[]] w1; [intros [_ ?]; congruence|]. intros (Hu & S1 & R1 & H1 & _ & W1 & G1 & B1 & Q1 & _).
  rewrite (proj2 (Z.ltb_ge _ _)) by done. apply wp_bind.
  pose proof (registry_insert_eq (conn_new f (s_protocol cfg)) (registry w1)) as Hins.
  rewrite (proj2 (u_max _ _ _ Hu)) in Hins. unfold registry_len, slab_len in Hins. rewrite G1 in Hins.
  destruct (_ <=? _).
  - eapply wp_zoom; [rewrite G1; exact Hins|]. rewrite <- G1. eapply wp_done; [done|]. simpl. split_and!; try done. by destruct Hu.
  - destruct Hins as (id & r' & E & Hv & Hit & _). rewrite <- G1 in E. eapply wp_zoom; [done|].
    destruct (insert_ok cfg w1 (conn_new f (s_protocol cfg)) id r' Hu) as [Hu2 Hc2]; try done.
    { split_and!; simpl; try done; lia. }
    eapply (submit_read_run cfg False id _ _ _ 0 _ _ Hu2 Hc2 (uview_start _ _ _ _ _ Hu2 Hc2) (u_conn _ _ _ Hu2 _ _ Hc2)); try done.
    + intros w' (Hu3 & S3 & R3 & H3 & _ & W3 & G3 & B3 & _). simpl in *. split_and!; try congruence.
      exists id. rewrite G3. by split.
    + simpl. intros H0. lia.
Qed.

(** A client connects, or is turned away. *)
Lemma connects_run f w :
  uworker_ok cfg w -> 0 <= f ->
  exists w', connects f w = Done (inr tt) w' /\ uworker_ok cfg w' /\ write_buffers w' = write_buffers w /\
    storage w' = storage w /\ wire w' = wire w /\
    if s_max_connections cfg <=? Z.of_nat (size (conns w)) then conns w' = conns w
    else exists id, conns w !! id = None /\ conns w' = <[id := conn_new f (s_protocol cfg)]> (conns w).
Proof.
  intros Hw Hf. pose proof Hw as [Hi Hr]. destruct (u_all _ _ _ Hi None) as (t & o & Ho & Hk); [by left|done|].
  destruct (u_ops _ _ _ Hi _ _ Ho) as (_ & e & He & Hoe). destruct o, e; try done.
  unfold connects. rewrite (op_token_eq _ _ _ _ Hi Ho Hk).
  destruct (quiet_completion _ t OpAccept SqeAccept f (room_ok w 2 Hw)) as (w1 & Hu & G1 & B1 & (S1 & R1 & H1 & Q1 & _ & W1) & ->);
    [done..|]. simpl in *.
  destruct (wp_returns _ _ _ (handle_accept_run w1 f Hu Q1 Hf)) as (r & w' & E & -> & Hi' & B2 & S2 & R2 & H2 & W2 & Hc).
  rewrite G1 in Hc. exists w'. split_and!; try done; try congruence. split; [done|]. by rewrite R2, H2, R1, H1.
Qed.

(** A client closes its connection while nothing is being sent to it. *)
Lemma hangs_up_run id c x w :
  uworker_ok cfg w -> conns w !! id = Some c -> phase c = Established (Reading x) ->
  exists w', hangs_up id w = Done (inr tt) w' /\ uworker_ok cfg w' /\ conns w' = base.delete id (conns w) /\
    pool_buffers (write_buffers w') = pool_buffers (write_buffers w) /\ storage w' = storage w /\ wire w' = wire w.
Proof.
  intros Hw Hc Hp. destruct (conn_op _ _ _ Hw Hc) as (t & o & e & Ho & He & Ht & Hoe). rewrite Hp in Hoe.
  destruct Hoe as [-> ->]. unfold hangs_up. rewrite Ht. pose proof Hw as [_ Hr].
  destruct (quiet_completion _ t (OpRead id) (SqeRecv (fd c)) 0 (room_ok w 1 Hw)) as (w1 & Hu & G1 & B1 & (S1 & R1 & H1 & Q1 & _ & W1) & Ew);
    [done..|]. simpl in *. fold (submitted_room w) in Ew. rewrite Ew.
  destruct (wp_returns _ _ _ (uclose_ok cfg False id w1 c Hu ltac:(by rewrite G1))) as ([] & w' & E & Hi' & C2 & S2 & R2 & H2 & _ & W2 & _ & B2).
  exists w'. unfold handle_read. simpl. rewrite (bind_done _ _ _ tt w1) by done.
  unfold noerr. rewrite (bind_done _ _ _ _ _ E). rewrite G1 in C2. split_and!; try done; try congruence.
  split; [done|]. by rewrite R2, H2, R1, H1.
Qed.

End runs.
