(* ===== verification/UringThms.v ===== *)
(** * Theorems about the io_uring event loop

    Operations, buffers and the buffer ring in every reachable worker, what a
    completion can do, the exchange of a request and its response, and the failed
    write that frees a buffer twice. *)

From S2P Require Import Prelude RustStd Storage Memcached MemcachedThms Resp Ping Echo Request RequestFacts RequestBounds.
From S2P Require Import Concrete Buffer BufferFacts Slab Connection ConnectionThms Token BufRing Uring UringFacts UringRun.

Section theorems.
Context `{BP : BuildProfile, LY : Layout, HO : HashOrder, UC : UnicodeCase, FL : FrameLayout}.
Context `{SL : SlabLib, LW : !SlabLaws}.
Context (cfg : settings).
Implicit Types (w : UWorker).

Abbreviation conns w := (slab_items (connections (registry w))).
Abbreviation in_flight w := (slab_items (ops (tokens w))).

(** A worker after any sequence of submissions and completions in which every write that
    completed has sent at least one byte; the store is shared with other workers.  What
    a write that fails or sends nothing does is [failed_write_frees_twice]. *)
Inductive ureachable : UWorker -> Prop :=
| ureach_start s entries r room w :
    entries <= 32768 -> ring_new entries (s_buffer_size cfg) true true = inr r ->
    worker_new cfg s r room = Done (inr tt) w -> ureachable w
| ureach_submitted w room : ureachable w -> ureachable (with_queue (inflight w) room w)
| ureach_completed w c w' :
    ureachable w -> cqe_ok w c -> write_succeeds w c ->
    worker_event cfg (Completed c) w = Done (inr tt) w' -> ureachable w'
| ureach_others w s : ureachable w -> ureachable (with_storage s w).

Lemma ureachable_ok w : settings_ok cfg -> ureachable w -> uworker_ok cfg w.
Proof.
  intros Hcfg. induction 1 as [s entries r room w He Hr E|w room _ IH|w c w' _ IH Hok Hws E|w s _ [[] ?]].
  - by eapply (uworker_new_ok cfg).
  - by apply room_ok.
  - pose proof (completion_ok cfg w c IH Hcfg Hok Hws) as H. unfold wp in H. by rewrite E in H.
  - by split.
Qed.

(** The operation a connection waits for. *)
Definition pending_op (id : nat) (c : Connection) : OpType :=
  match phase c with Established (Writing b _ _) => OpWrite id (Z.to_nat b) | _ => OpRead id end.

(** C7: As long as every write that completed has sent at least one byte (a write that
    fails, or that sends nothing as the write of an empty response does, frees its
    buffer twice): each connection of a worker has exactly one operation in flight, the
    one its state waits for, the accept is in flight exactly once, and nothing else is;
    the buffers of the connections are distinct, and with the free ones they are the
    whole pool; between completions the read ring queues each of its buffers exactly
    once; connections stay within their limit. *)
Theorem one_operation_per_connection w :
  settings_ok cfg -> ureachable w ->
  (forall id c, conns w !! id = Some c -> exists t, forall t' o,
     in_flight w !! t' = Some o /\ op_conn o = Some id <-> t' = t /\ o = pending_op id c) /\
  (exists t, forall t', in_flight w !! t' = Some OpAccept <-> t' = t) /\
  (forall t o id, in_flight w !! t = Some o -> op_conn o = Some id -> is_Some (conns w !! id)) /\
  NoDup (uheld (conns w)) /\
  available (write_buffers w) + len (uheld (conns w)) = capacity (write_buffers w) /\
  (e_bid <$> queued (ring_head w) (read_buf_ring w)) ≡ₚ all_buffers (len (ring_buffers (read_buf_ring w))) /\
  registry_len (registry w) <= s_max_connections cfg.
Proof.
  intros Hcfg Hr. pose proof (ureachable_ok _ Hcfg Hr) as Hw. pose proof Hw as [Hi Hring]. split_and!.
  - intros id c Hc. destruct (conn_op cfg _ _ _ Hw Hc) as (t & o & e & Ho & _ & _ & Hoe). exists t.
    assert (Eo : o = pending_op id c) by (unfold pending_op; destruct (phase c) as [| |[]|]; naive_solver).
    assert (Hk : op_conn (pending_op id c) = Some id) by (unfold pending_op; by destruct (phase c) as [| |[]|]).
    intros t' o'. split; [|intros [-> ->]; subst o; done]. intros [Ho' Hk'].
    assert (t' = t) as -> by (eapply (u_inj _ _ _ Hi); [done..|congruence]). split; [done|congruence].
  - destruct (u_all _ _ _ Hi None) as (t & o & Ho & Hk); [by left|done|]. exists t. intros t'.
    assert (o = OpAccept) as -> by (by destruct o). split; [|by intros ->]. intros Ho'. by eapply (u_inj _ _ _ Hi).
  - intros t o id Ho Hk. destruct (u_ops _ _ _ Hi _ _ Ho) as (_ & e & _ & Hok).
    destruct o as [|i|i b], e; try done; simpl in *; simplify_eq; destruct Hok as (c & ? & -> & _); by eexists.
  - eapply held_NoDup, (u_pool _ _ _ Hi).
  - destruct (u_pool _ _ _ Hi) as [Hperm _]. apply Permutation_length in Hperm.
    rewrite length_app, length_seq in Hperm. unfold available, capacity, len. lia.
  - destruct Hring as ((n & h & t & Hri & Hn) & _). destruct (ring_queue _ _ _ _ _ _ Hri) as (Hq & _).
    rewrite app_nil_r in Hq. rewrite Hq, (ri_entries _ _ _ _ _ _ Hri). unfold len. by rewrite Hn.
  - unfold registry_len, slab_len. apply (u_max _ _ _ Hi).
Qed.

(** C29: In a worker whose completed writes have all sent something, a completion (a write
    that sends something, a receive, an accept) keeps the worker's invariant.  It makes
    the worker panic only when it is a receive and the request layer does not return on
    the bytes the connection had kept followed by the bytes received, and it ends the
    worker only when the submission queue has room for fewer than two entries. *)
Theorem completion_safe w c :
  settings_ok cfg -> ureachable w -> cqe_ok w c -> write_succeeds w c ->
  match worker_event cfg (Completed c) w with
  | Done (inr _) w' => ureachable w' /\ uworker_ok cfg w'
  | Done (inl e) _ => e = QueueFull /\ (sq_room w <= 1)%nat
  | _ => completion_fails cfg w c
  end.
Proof.
  intros Hcfg Hr Hok Hws. pose proof (completion_ok cfg w c (ureachable_ok _ Hcfg Hr) Hcfg Hok Hws) as H.
  unfold wp in H. destruct (worker_event cfg (Completed c) w) as [[e|[]] w'|w'|w'] eqn:E; try done.
  split; [|done]. by eapply ureach_completed.
Qed.

(** ** Requests and responses *)

(** The completions of one exchange: the receives [ds], the receive of [d] that
    completes the request, and the writes [ms] and [k]. *)
Definition uexchange id ds clock d ms k : st UWorker (uring_error + unit) :=
  _ ←? recvs cfg id (ds ++ [(clock, d)]); sends cfg id (ms ++ [k]).

(** The bytes arrive after [x] in any pieces, each too short for an answer before the
    last. *)
Definition uarrives (proto : Protocol) (s : Storage) (x : bytes) ds : Prop :=
  Forall (fun y => y.2 <> []) ds /\
  forall ds1 y ds2, ds = ds1 ++ y :: ds2 -> uneeds_more cfg y.1 proto (x ++ ujoined (ds1 ++ [y])) s.

(** The socket takes the [total] bytes in any pieces. *)
Definition utaken (total : Z) (ms : list Z) (k : Z) : Prop :=
  Forall (fun m => 0 < m) ms /\ 0 < k /\ foldr Z.add 0 ms < total <= foldr Z.add 0 ms + k.

Lemma recvs_app id ds ds' w w1 :
  recvs cfg id ds w = Done (inr tt) w1 -> recvs cfg id (ds ++ ds') w = recvs cfg id ds' w1.
Proof.
  revert w. induction ds as [|[clock d] ds IH]; intros w; cbn [recvs app]; [by intros [= ->]|].
  unfold try. destruct (recv cfg clock id d w) as [[|[]]| |]; try done. apply IH.
Qed.

Lemma uexchange_run id c x w ds clock d consumed response s' ms k :
  settings_ok cfg -> uwaiting cfg id c x w -> uarrives (conn_protocol c) (storage w) x ds -> d <> [] ->
  len (x ++ ujoined ds ++ d) <= s_buffer_size cfg ->
  uanswers cfg clock (conn_protocol c) (x ++ ujoined ds ++ d) (storage w) consumed response s' ->
  utaken (len response) ms k ->
  exists w' c' pieces, uexchange id ds clock d ms k w = Done (inr tt) w' /\
    uwaiting cfg id c' (drop (Z.to_nat consumed) (x ++ ujoined ds ++ d)) w' /\ same_client c c' /\
    storage w' = s' /\ wire w' = wire w ++ ((fd c,.) <$> pieces) /\ concat pieces = response.
Proof.
  intros Hcfg Hid [Hne Hmore] Hd Hl Hans (Hms & Hk & Hlt & Hge). rewrite !len_app in Hl. pose proof (len_nonneg d).
  destruct (recvs_more cfg Hcfg id c x ds w) as (w1 & c1 & E1 & Hw1 & Hc1 & S1 & W1); [done|done|lia|done|].
  rewrite app_assoc in Hans.
  destruct (recv_last cfg Hcfg clock id c1 (x ++ ujoined ds) d w1 consumed response s')
    as (w2 & c2 & E2 & Hw2 & Hc2 & S2 & W2 & _); [done|done|rewrite len_app; lia| |].
  { destruct Hc1 as (_ & ->). by rewrite S1. }
  destruct (sends_all cfg Hcfg id c2 response 0 (drop (Z.to_nat consumed) ((x ++ ujoined ds) ++ d)) ms k w2)
    as (w3 & c3 & ps & E3 & Hw3 & Hc3 & S3 & W3 & Hps); try done.
  exists w3, c3, ps. destruct Hc1, Hc2, Hc3. split_and!; try congruence; try done.
  - unfold uexchange, try. rewrite (recvs_app _ _ _ _ _ E1). cbn [recvs]. unfold try. by rewrite E2.
  - by rewrite app_assoc.
  - split; congruence.
Qed.

(** C11: A request that, with what was kept before it, fits one buffer and has a non-empty
    response that fits one buffer, on a worker whose pool has the buffers the connection
    needs for it: however its bytes are split over receives and the response over
    writes (each of which sends something), the socket gets exactly the response of the
    request layer and the store becomes what the request layer made of it.  Bytes after
    the request stay in the connection's buffer, in front of what is received next; the
    connection then has a receive in flight, so a request that is already complete there
    is answered only when more bytes arrive. *)
Theorem uring_request_response id c x w ds clock d consumed response s' ms k :
  settings_ok cfg -> uwaiting cfg id c x w -> uarrives (conn_protocol c) (storage w) x ds -> d <> [] ->
  len (x ++ ujoined ds ++ d) <= s_buffer_size cfg ->
  uanswers cfg clock (conn_protocol c) (x ++ ujoined ds ++ d) (storage w) consumed response s' ->
  utaken (len response) ms k ->
  exists w' c' pieces, uexchange id ds clock d ms k w = Done (inr tt) w' /\
    uwaiting cfg id c' (drop (Z.to_nat consumed) (x ++ ujoined ds ++ d)) w' /\
    (exists t, in_flight w' !! t = Some (OpRead id)) /\ same_client c c' /\
    storage w' = s' /\ wire w' = wire w ++ ((fd c,.) <$> pieces) /\ concat pieces = response.
Proof.
  intros Hcfg Hid Ha Hd Hl Hans Ht.
  destruct (uexchange_run id c x w ds clock d consumed response s' ms k Hcfg Hid Ha Hd Hl Hans Ht)
    as (w' & c' & ps & E & Hw & Hrest). exists w', c', ps. split; [done|]. split; [done|]. split; [|done].
  destruct Hw as [Hok Hc (f & Hp) _ _]. destruct (conn_op cfg _ _ _ Hok Hc) as (t & o & e & Ho & _ & _ & Hoe).
  rewrite Hp in Hoe. destruct Hoe as [-> _]. by exists t.
Qed.

(** ** Failed writes *)

Lemma write_fails_run w c id b off total n :
  conns w !! id = Some c -> phase c = Established (Writing (Z.of_nat b) off total) -> n <= 0 ->
  (forall i, i ∈ b :: option_list (read_buf_idx c) -> (i < length (pool_buffers (write_buffers w)))%nat) ->
  wp False (handle_write n id b) (fun r w' => r = inr tt /\ conns w' !! id = None /\
    free_list (write_buffers w') = free_list (write_buffers w) ++ [b; b] ++ option_list (read_buf_idx c)) w.
Proof.
  intros Hc Hp Hn Hin. unfold handle_write. rewrite (proj2 (Z.leb_le _ _)) by lia.
  apply wp_bind. eapply wp_zoom; [apply free_run, Hin; set_solver|]. apply wp_bind. unfold close_connection.
  destruct (registry_remove_eq id (registry w)) as (r' & E & Hi & _).
  assert (Hg : registry_get id (registry w) = Some c) by done. rewrite Hg in E.
  apply wp_bind. eapply wp_zoom; [exact E|]. cbv beta iota. rewrite Hp, Nat2Z.id.
  apply wp_bind. eapply wp_zoom; [apply free_run, Hin; set_solver|]. apply wp_bind.
  destruct (read_buf_idx c) as [i|]; [eapply wp_zoom; [apply free_run, Hin; set_solver|]|eapply wp_done; [done|]];
    (eapply wp_done; [done|]; eapply wp_done; [done|]; simpl; rewrite Hi, lookup_delete_eq, <- !app_assoc; done).
Qed.

(** A write that fails, or that completes with zero bytes as every write of an empty
    response does, frees its buffer twice: the handler frees it, and closing the
    connection, which is still in the writing state, frees it again.  The pool then
    hands the same buffer out to the next two takers (after the connection's
    accumulation buffer). *)
Theorem failed_write_frees_twice w t id b c cqe :
  settings_ok cfg -> ureachable w -> in_flight w !! t = Some (OpWrite id b) -> conns w !! id = Some c ->
  user_data cqe = t -> result cqe <= 0 ->
  exists w' p, worker_event cfg (Completed cqe) w = Done (inr tt) w' /\ conns w' !! id = None /\
    free_list (write_buffers w') = free_list (write_buffers w) ++ [b; b] ++ option_list (read_buf_idx c) /\
    alloc_many (2 + length (option_list (read_buf_idx c))) (write_buffers w') =
      Done (Some (option_list (read_buf_idx c) ++ [b; b])) p.
Proof.
  intros Hcfg Hr Ho Hc <- Hres. pose proof (ureachable_ok _ Hcfg Hr) as [Hi _].
  destruct (kernel_ok cfg cqe w (OpWrite id b) Hi Ho) as (ts & Ef & Hu).
  destruct (u_ops _ _ _ Hi _ _ Ho) as (_ & e & He & Hok). destruct e as [| |f b' off n]; try done.
  destruct Hok as (c' & total & Hc' & Hp & -> & -> & ->). rewrite Hc in Hc'. injection Hc' as <-.
  set (w1 := with_tokens ts (kernel cqe w)) in *.
  assert (Hk : registry (kernel cqe w) = registry w /\ write_buffers (kernel cqe w) = write_buffers w).
  { unfold kernel. rewrite He. by rewrite (proj2 (Z.ltb_ge _ _)) by lia. }
  destruct Hk as [Kr Kb].
  assert (Hin : forall i, i ∈ b :: option_list (read_buf_idx c) -> (i < length (pool_buffers (write_buffers w)))%nat).
  { intros i Hx. destruct (uview_lookup cfg _ _ _ _ _ i (u_size _ _ _ Hi) (uview_start _ _ _ _ _ Hi Hc)) as (x & Hb & _).
    - unfold uowned. rewrite Hp. simpl. by rewrite Nat2Z.id.
    - by eapply lookup_lt_Some. }
  destruct (wp_returns _ _ _ (write_fails_run w1 c id b off total (result cqe) ltac:(simpl; by rewrite Kr) Hp Hres
    ltac:(simpl; by rewrite Kb))) as (r & w' & E & -> & Hnone & Hfree). simpl in Hfree. rewrite Kb in Hfree.
  exists w', (with_free (free_list (write_buffers w)) (write_buffers w')). split_and!; try done.
  - cbn [worker_event]. rewrite (bind_done (modify _) _ _ tt (kernel cqe w)) by done.
    unfold handle_completion. erewrite (bind_done (on_tokens _)) by (unfold on_tokens, zoom; by rewrite Ef). done.
  - pose proof (alloc_many_run _ _ _ Hfree) as Ha. by destruct (read_buf_idx c).
Qed.

End theorems.

(** ** Witnesses and a concrete run *)

Section witnesses.
#[local] Existing Instance Concrete.release.
#[local] Existing Instance linux64.
#[local] Existing Instance by_elements.
#[local] Existing Instance some_unicode.
#[local] Existing Instance frame64.
#[local] Existing Instance lowest_key.
#[local] Existing Instance lowest_key_laws.

Definition ucfg (proto : Protocol) : settings := mkSettings 4 32 100 proto.

Lemma ucfg_ok proto : settings_ok (ucfg proto).
Proof. unfold settings_ok, ucfg, I64_MAX. simpl. lia. Qed.

Definition uclk : nat -> Z := fun _ => SEC.
Definition ring4x32 : BufRing :=
  Eval vm_compute in match ring_new 4 32 true true with inr r => r | inl _ => mkRing [] [] 0 0 0 end.
Definition ustore : Storage := Storage.new 100000 0.
Definition ustart (proto : Protocol) : UWorker := Eval vm_compute in state_of (worker_new (ucfg proto) ustore ring4x32 8).

Lemma ustart_reachable proto : ureachable (ucfg proto) (ustart proto).
Proof. apply (ureach_start _ ustore 4 ring4x32 8); [done|by_vm|by_vm]. Qed.

(** A client connects: the accept, whose token is 0, completes with descriptor [f]. *)
Definition connect (f : Z) : Cqe := mkCqe 0 f None [] uclk.
Definition connected (proto : Protocol) (f : Z) (w : UWorker) : UWorker :=
  state_of (worker_event (ucfg proto) (Completed (connect f)) (with_queue (inflight w) 8 w)).

Definition one_client (proto : Protocol) : UWorker := Eval vm_compute in connected proto 10 (ustart proto).

Lemma one_client_reachable proto : ureachable (ucfg proto) (one_client proto).
Proof.
  apply (ureach_completed _ (with_queue (inflight (ustart proto)) 8 (ustart proto)) (connect 10));
    [apply ureach_submitted, ustart_reachable|vm_compute; reflexivity|exact I|by_vm].
Qed.

Lemma one_operation_per_connection_witness :
  NoDup (uheld (slab_items (connections (registry (one_client PPing))))) /\
  (e_bid <$> queued (ring_head (one_client PPing)) (read_buf_ring (one_client PPing))) ≡ₚ
    all_buffers (len (ring_buffers (read_buf_ring (one_client PPing)))).
Proof.
  destruct (one_operation_per_connection (ucfg PPing) (one_client PPing)) as (_ & _ & _ & H1 & _ & H2 & _).
  - apply ucfg_ok.
  - apply one_client_reachable.
  - by split.
Defined.

(** A ping is received, with room in the submission queue. *)
Definition roomy_client : UWorker := Eval vm_compute in with_queue (inflight (one_client PPing)) 8 (one_client PPing).
Definition ping_received : Cqe := mkCqe 1 6 (Some 0) («"PING"» ++ crlf) uclk.

Lemma completion_safe_witness :
  match worker_event (ucfg PPing) (Completed ping_received) roomy_client with
  | Done (inr _) w' => ureachable (ucfg PPing) w' /\ uworker_ok (ucfg PPing) w'
  | _ => False
  end.
Proof.
  assert (H : ureachable (ucfg PPing) roomy_client) by (apply (ureach_submitted _ (one_client PPing) 8), one_client_reachable).
  assert (Hc : cqe_ok roomy_client ping_received) by (vm_compute; split_and!; [by eexists|done|done]).
  pose proof (completion_safe (ucfg PPing) roomy_client ping_received (ucfg_ok PPing) H Hc I) as Hs.
  revert Hs. destruct (worker_event _ _ _) as [[e|[]] w'|w'|w'] eqn:E;
    [|done|apply (f_equal (fun o => match o with Done (inr _) _ => true | _ => false end)) in E; vm_compute in E; discriminate..].
  apply (f_equal (fun o => match o with Done (inr _) _ => true | _ => false end)) in E. vm_compute in E. discriminate.
Defined.

Definition uping : bytes := «"PING"» ++ crlf.

Lemma uwaiting_first proto : uwaiting (ucfg proto) 0 (conn_new 10 proto) [] (one_client proto).
Proof.
  split.
  - apply ureachable_ok; [apply ucfg_ok|apply one_client_reachable].
  - reflexivity.
  - by exists 0.
  - reflexivity.
  - apply Nat.leb_le. by_vm.
Qed.

(** Two pings in the buffer: the first is answered. *)
Lemma two_pings o :
  len o = 32 -> exists out, len out = len o /\ take (length response_pong) out = response_pong /\
    process uclk PPing (uping ++ uping) o 100 ustore = Done (Response 6 (len response_pong), out) ustore.
Proof.
  intros Ho. assert (Hf : len response_pong <= len o) by (by rewrite Ho).
  exists (filled response_pong o). split; [apply filled_len|].
  destruct (filled_fits response_pong o Hf) as [Hs Ht]. split; [exact Ht|].
  change (respond 6 response_pong o ustore = Done (Response 6 (len response_pong), filled response_pong o) ustore).
  rewrite respond_eq. unfold answer. by rewrite Hs.
Qed.

(** Two pings in two pieces: one answer, and the second ping is kept. *)
Lemma uring_request_response_witness :
  exists w' c' pieces, uexchange (ucfg PPing) 0 [(uclk, «"PI"»)] uclk (drop 2 uping ++ uping) [1] 10 (one_client PPing) =
      Done (inr tt) w' /\
    uwaiting (ucfg PPing) 0 c' uping w' /\
    (exists t, slab_items (ops (tokens w')) !! t = Some (OpRead 0)) /\ same_client (conn_new 10 PPing) c' /\
    storage w' = ustore /\ wire w' = [] ++ ((10,.) <$> pieces) /\ concat pieces = response_pong.
Proof.
  apply (uring_request_response (ucfg PPing) 0 (conn_new 10 PPing) [] (one_client PPing) [(uclk, «"PI"»)] uclk
    (drop 2 uping ++ uping) 6 response_pong ustore [1] 10).
  - apply ucfg_ok.
  - apply uwaiting_first.
  - split; [by repeat constructor|]. intros ds1 y ds2 E.
    destruct ds1 as [|z [|]]; simpl in E; [injection E as <- <-|discriminate..].
    intros o Ho. exists o. split; [done|reflexivity].
  - done.
  - done.
  - exact two_pings.
  - split; [by repeat constructor|]. done.
Defined.

(** A [set] with [noreply]: its response is empty. *)
Definition noreply : bytes := «"set k 0 0 1 noreply"» ++ crlf ++ «"x"» ++ crlf.
Definition answering : UWorker := Eval vm_compute in state_of (recv (ucfg PMemcached) uclk 0 noreply (one_client PMemcached)).

Lemma answering_reachable : ureachable (ucfg PMemcached) answering.
Proof.
  apply (ureach_completed _ (with_queue (inflight (one_client PMemcached)) 1 (one_client PMemcached))
    (mkCqe 1 24 (Some 0) noreply uclk)).
  - apply ureach_submitted, one_client_reachable.
  - vm_compute. split_and!; [by eexists|done|done].
  - vm_compute. exact I.
  - by_vm.
Qed.

Lemma failed_write_frees_twice_witness :
  exists w' p, worker_event (ucfg PMemcached) (Completed (mkCqe 1 0 None [] uclk)) answering = Done (inr tt) w' /\
    slab_items (connections (registry w')) !! 0%nat = None /\
    free_list (write_buffers w') = free_list (write_buffers answering) ++ [6; 6]%nat ++ [7]%nat /\
    alloc_many 3 (write_buffers w') = Done (Some [7; 6; 6]%nat) p.
Proof.
  apply (failed_write_frees_twice (ucfg PMemcached) answering 1 0 6
    (mkConn 10 (Established (Writing 6 0 0)) PMemcached (Some 7%nat) 0) (mkCqe 1 0 None [] uclk)).
  - apply ucfg_ok.
  - apply answering_reachable.
  - by_vm.
  - by_vm.
  - reflexivity.
  - done.
Defined.

(** Three clients on one worker. *)
Definition three_clients : UWorker :=
  Eval vm_compute in connected PMemcached 12 (connected PMemcached 11 (one_client PMemcached)).
Definition secret : bytes := «"set secret 0 0 5"» ++ crlf ++ «"hello"» ++ crlf.

(** Client 10 sends a [noreply] command and its empty response is written; client 11
    asks for a key; client 12 sends a request; the response of client 11 is sent. *)
Definition leak : st UWorker (uring_error + unit) :=
  let cfg := ucfg PMemcached in
  _ ←? recv cfg uclk 0 noreply; _ ←? send cfg 0 100;
  _ ←? recv cfg uclk 1 («"get key"» ++ crlf); _ ←? recv cfg uclk 2 secret;
  send cfg 1 100.

Definition leaked : UWorker := Eval vm_compute in state_of (leak three_clients).

(** After one [noreply] command, clients receive each other's data: the buffer that
    was freed twice holds the response to one client and accumulates the request of
    another, whose bytes are what the first client is sent. *)
Theorem noreply_leaks_requests :
  exists w, leak three_clients = Done (inr tt) w /\ wire w = [(11, take 5 secret)].
Proof. exists leaked. split; by_vm. Qed.

End witnesses.
