(* ===== verification/SockAddr.v ===== *)
(** * Socket addresses: the parser of [std::net] behind [SocketAddr::from_str]

    A parser takes the bytes that are left and returns a value with the rest, or
    nothing, in which case the caller goes on with the bytes it had
    ([Parser::read_atomically]). *)

From S2P Require Import Prelude RustStd RustStdFacts.

Inductive SocketAddr : Type :=
| V4 (octets : Z * Z * Z * Z) (port : Z)
| V6 (segments : list Z) (scope_id port : Z).

Definition parser (A : Type) : Type := bytes -> option (A * bytes).

Definition DOT : byte := Byte.x2e.
Definition COLON : byte := Byte.x3a.
Definition PERCENT : byte := Byte.x25.
Definition LBRACKET : byte := Byte.x5b.
Definition RBRACKET : byte := Byte.x5d.

(** [char::to_digit] *)
Definition to_digit (radix : Z) (b : byte) : option Z :=
  let v := byte_val b in
  let d := if (48 <=? v) && (v <=? 57) then v - 48
           else if (97 <=? v) && (v <=? 122) then v - 87
           else if (65 <=? v) && (v <=? 90) then v - 55 else radix in
  if d <? radix then Some d else None.

Definition read_given_char (c : byte) : parser unit := fun l =>
  match l with
  | b :: l' => if bool_decide (b = c) then Some (tt, l') else None
  | [] => None
  end.

(** The digits of [read_number]: with a limit on their number the value fits into 32
    bits, without one each step is checked against the maximum of the type. *)
Fixpoint number_loop (radix : Z) (max_digits : option nat) (bound result : Z) (count : nat) (l : bytes)
    : option (Z * nat * bytes) :=
  match l with
  | [] => Some (result, count, [])
  | b :: l' =>
      match to_digit radix b with
      | None => Some (result, count, l)
      | Some d =>
          let result' := result * radix + d in
          let stop := match max_digits with
                      | Some m => (m <? S count)%nat
                      | None => bound <? result'
                      end in
          if stop then None else number_loop radix max_digits bound result' (S count) l'
      end
  end.

Definition starts_with_zero (l : bytes) : bool := bool_decide (head l = Some (digit 0)).

Definition read_number (radix : Z) (max_digits : option nat) (allow_zero_prefix : bool) (bound : Z) : parser Z :=
  fun l =>
  match number_loop radix max_digits bound 0 0 l with
  | None => None
  | Some (result, count, r) =>
      if (count =? 0)%nat then None
      else if negb allow_zero_prefix && starts_with_zero l && (1 <? count)%nat then None
      else if result <=? bound then Some (result, r) else None
  end.

Definition read_separator {A} (sep : byte) (i : nat) (inner : parser A) : parser A := fun l =>
  if (0 <? i)%nat then '(_, r) ← read_given_char sep l; inner r else inner l.

Definition read_octet (i : nat) : parser Z := read_separator DOT i (read_number 10 (Some 3%nat) false 255).

Definition read_ipv4_addr : parser (Z * Z * Z * Z) := fun l =>
  '(a, l) ← read_octet 0 l; '(b, l) ← read_octet 1 l; '(c, l) ← read_octet 2 l; '(d, l) ← read_octet 3 l;
  Some ((a, b, c, d), l).

(** [read_groups] on [k] slots, of which the first has index [i]: the groups it read,
    whether the last two are an IPv4 address, and the rest. *)
Fixpoint read_groups (k i : nat) (l : bytes) : list Z * bool * bytes :=
  match k with
  | O => ([], false, l)
  | S k' =>
      match (if (0 <? k')%nat then read_separator COLON i read_ipv4_addr l else None) with
      | Some ((a, b, c, d), r) => ([a * 256 + b; c * 256 + d], true, r)
      | None =>
          match read_separator COLON i (read_number 16 (Some 4%nat) true 65535) l with
          | Some (g, r) => let '(gs, v4, r') := read_groups k' (S i) r in (g :: gs, v4, r')
          | None => ([], false, l)
          end
      end
  end.

Definition read_ipv6_addr : parser (list Z) := fun l =>
  let '(head, head_ipv4, l) := read_groups 8 0 l in
  if (length head =? 8)%nat then Some (head, l)
  else if (head_ipv4 : bool) then None
  else
    '(_, l) ← read_given_char COLON l; '(_, l) ← read_given_char COLON l;
    let '(tail, _, l) := read_groups (7 - length head) 0 l in
    Some (head ++ repeat 0 (8 - length head - length tail) ++ tail, l).

Definition read_port : parser Z := fun l =>
  '(_, l) ← read_given_char COLON l; read_number 10 None true 65535 l.

Definition read_scope_id : parser Z := fun l =>
  '(_, l) ← read_given_char PERCENT l; read_number 10 None true U32_MAX l.

Definition read_socket_addr_v4 : parser SocketAddr := fun l =>
  '(ip, l) ← read_ipv4_addr l; '(port, l) ← read_port l; Some (V4 ip port, l).

Definition read_socket_addr_v6 : parser SocketAddr := fun l =>
  '(_, l) ← read_given_char LBRACKET l; '(ip, l) ← read_ipv6_addr l;
  let '(scope_id, l) := default (0, l) (read_scope_id l) in
  '(_, l) ← read_given_char RBRACKET l; '(port, l) ← read_port l;
  Some (V6 ip scope_id port, l).

(** [str::parse::<SocketAddr>] *)
Definition parse_socket_addr (l : bytes) : option SocketAddr :=
  match (match read_socket_addr_v4 l with Some r => Some r | None => read_socket_addr_v6 l end) with
  | Some (addr, []) => Some addr
  | _ => None
  end.

(** ** Dotted quads *)

(** [Display] of an [Ipv4Addr] *)
Definition print_ipv4 (ip : Z * Z * Z * Z) : bytes :=
  let '(a, b, c, d) := ip in dec a ++ DOT :: dec b ++ DOT :: dec c ++ DOT :: dec d.

Definition is_ipv4 (ip : Z * Z * Z * Z) : Prop :=
  let '(a, b, c, d) := ip in 0 <= a <= 255 /\ 0 <= b <= 255 /\ 0 <= c <= 255 /\ 0 <= d <= 255.

Definition stops (radix : Z) (l : bytes) : Prop :=
  match l with [] => True | b :: _ => to_digit radix b = None end.

Lemma number_loop_stop radix m bound x n l :
  stops radix l -> number_loop radix m bound x n l = Some (x, n, l).
Proof. destruct l as [|b l]; [done|]. simpl. by intros ->. Qed.

(** The limit on digits is not reached on an octet: all 256 of them are checked. *)
Definition octet_ok (a : Z) : bool :=
  let l := dec a in
  match number_loop 10 (Some 3%nat) 255 0 0 l with
  | Some (x, n, []) => (x =? a) && (1 <=? n)%nat && (n <=? 3)%nat && (negb (starts_with_zero l) || (n =? 1)%nat)
  | _ => false
  end.

Lemma octets_ok : forallb octet_ok (seqZ 0 256) = true.
Proof. by_vm. Qed.

Lemma number_loop_app m bound l x n y k rest :
  number_loop 10 m bound x n l = Some (y, k, []) -> stops 10 rest ->
  number_loop 10 m bound x n (l ++ rest) = Some (y, k, rest).
Proof.
  intros H Hr. revert x n H. induction l as [|b l IH]; intros x n; simpl.
  - intros [= -> ->]. by apply number_loop_stop.
  - destruct (to_digit 10 b); [|done]. destruct (if m is Some _ then _ else _); [done|]. apply IH.
Qed.

Lemma read_octet_dec a rest :
  0 <= a <= 255 -> stops 10 rest ->
  read_octet 0 (dec a ++ rest) = Some (a, rest) /\
  forall i, read_octet (S i) (DOT :: dec a ++ rest) = Some (a, rest).
Proof.
  intros Ha Hr. assert (H : octet_ok a = true).
  { pose proof octets_ok as H. rewrite forallb_forall in H. apply H, list_elem_of_In, elem_of_seqZ. lia. }
  assert (E : read_number 10 (Some 3%nat) false 255 (dec a ++ rest) = Some (a, rest)).
  { unfold octet_ok in H. destruct (number_loop _ _ _ _ _ (dec a)) as [[[x n] [|]]|] eqn:En; try done.
    unfold read_number. rewrite (number_loop_app _ _ _ _ _ _ _ _ En Hr). boolify. subst x.
    apply Nat.leb_le in H2. destruct (n =? 0)%nat eqn:E0; [apply Nat.eqb_eq in E0; lia|].
    rewrite (proj2 (Z.leb_le _ _)) by lia.
    assert (Hz : starts_with_zero (dec a ++ rest) = starts_with_zero (dec a)).
    { unfold starts_with_zero. pose proof (dec_nonempty a). by destruct (dec a). }
    rewrite Hz. apply orb_true_iff in H0 as [H0|H0]; [apply negb_true_iff in H0; by rewrite H0|].
    apply Nat.eqb_eq in H0 as ->. by rewrite andb_false_r. }
  done.
Qed.

Lemma number_loop_digits bound l x n y :
  digits_up bound x l = Some y -> number_loop 10 None bound x n l = Some (y, (n + length l)%nat, []).
Proof.
  revert x n. induction l as [|b l IH]; intros x n; simpl.
  - intros [= ->]. by rewrite Nat.add_0_r.
  - destruct (_ && _) eqn:E; [|done]. destruct (_ <=? bound) eqn:E2; [|done]. intros H. boolify.
    unfold to_digit. rewrite (proj2 (andb_true_iff _ _)) by (split; apply Z.leb_le; lia).
    rewrite (proj2 (Z.ltb_lt _ _)), (proj2 (Z.ltb_ge _ _)) by lia. rewrite (IH _ _ H). by rewrite <- Nat.add_succ_comm.
Qed.

Lemma read_port_dec p : 0 <= p <= 65535 -> read_port (COLON :: dec p) = Some (p, []).
Proof.
  intros Hp. unfold read_port, read_number. simpl.
  rewrite (number_loop_digits 65535 (dec p) 0 0 p) by (by apply digits_up_dec). simpl.
  destruct (length (dec p)) eqn:E; [by apply nil_length_inv, dec_nonempty in E|].
  simpl. by rewrite (proj2 (Z.leb_le _ _)) by lia.
Qed.

(** A printed IPv4 address with a port is read back. *)
Lemma parse_ipv4 ip p :
  is_ipv4 ip -> 0 <= p <= 65535 -> parse_socket_addr (print_ipv4 ip ++ COLON :: dec p) = Some (V4 ip p).
Proof.
  destruct ip as [[[a b] c] d]. intros (Ha & Hb & Hc & Hd) Hp. unfold parse_socket_addr, read_socket_addr_v4.
  assert (E : read_ipv4_addr (print_ipv4 (a, b, c, d) ++ COLON :: dec p) = Some ((a, b, c, d), COLON :: dec p)).
  { unfold read_ipv4_addr, print_ipv4. repeat (rewrite <- app_assoc; cbn [app]).
    rewrite (proj1 (read_octet_dec a (DOT :: _) ltac:(done) ltac:(done))). cbn [mbind option_bind].
    rewrite (proj2 (read_octet_dec b (DOT :: _) ltac:(done) ltac:(done)) 0%nat). cbn [mbind option_bind].
    rewrite (proj2 (read_octet_dec c (DOT :: _) ltac:(done) ltac:(done)) 1%nat). cbn [mbind option_bind].
    by rewrite (proj2 (read_octet_dec d (COLON :: _) ltac:(done) ltac:(done)) 2%nat). }
  rewrite E. cbn [mbind option_bind]. by rewrite read_port_dec.
Qed.

(** Nothing but a digit or a bracket starts a socket address. *)
Lemma parse_needs_ip b l :
  to_digit 10 b = None -> b <> LBRACKET -> parse_socket_addr (b :: l) = None.
Proof.
  intros Hb Hn. unfold parse_socket_addr.
  assert (H4 : read_socket_addr_v4 (b :: l) = None).
  { unfold read_socket_addr_v4, read_ipv4_addr, read_octet, read_separator, read_number. simpl. by rewrite Hb. }
  rewrite H4. unfold read_socket_addr_v6. simpl. by rewrite bool_decide_eq_false_2.
Qed.

Example parse_v6 :
  parse_socket_addr «"[::1]:80"» = Some (V6 [0; 0; 0; 0; 0; 0; 0; 1] 0 80) /\
  parse_socket_addr «"[fe80::1%3]:1"» = Some (V6 [65152; 0; 0; 0; 0; 0; 0; 1] 3 1) /\
  parse_socket_addr «"[::ffff:1.2.3.4]:1"» = Some (V6 [0; 0; 0; 0; 0; 65535; 258; 772] 0 1) /\
  parse_socket_addr «"::1:80"» = None /\ parse_socket_addr «"1.2.3.04:80"» = None /\
  parse_socket_addr «"1.2.3.4:99999"» = None.
Proof. split_and!; by_vm. Qed.
