(* ===== verification/Config.v ===== *)
(** * The configuration (src/config.rs)

    The command line and the configuration file are merged into the settings of the
    server.  What clap and the TOML parser hand over is data here: the flags the user
    gave and the entries of the document, all optional; the defaults that the
    attributes of the source add to them are modelled.  Reading the file and parsing
    it are parameters ([Files]). *)

From S2P Require Import Prelude RustStd RustStdFacts SockAddr.

Inductive ProtocolType : Type := Memcached | Resp | Ping | Echo.
Inductive RuntimeType : Type := Mio | IoUring.

#[export] Instance ProtocolType_eq_dec : EqDecision ProtocolType.
Proof. solve_decision. Defined.
#[export] Instance RuntimeType_eq_dec : EqDecision RuntimeType.
Proof. solve_decision. Defined.

Definition ProtocolType_default : ProtocolType := Memcached.
Definition RuntimeType_default : RuntimeType := Mio.

(** ** Command line *)

Record CliArgs := mkCli {
  cli_config : option bytes;
  cli_listen : option bytes;
  cli_max_memory : option Z;
  cli_default_ttl : option Z;
  cli_workers : option Z;
  cli_log_level : bytes;
  cli_protocol : ProtocolType;
  cli_runtime : RuntimeType;
  cli_max_value_size : option Z
}.

(** The flags that were given. *)
Record Flags := mkFlags {
  f_config : option bytes;
  f_listen : option bytes;
  f_max_memory : option Z;
  f_default_ttl : option Z;
  f_workers : option Z;
  f_log_level : option bytes;
  f_protocol : option ProtocolType;
  f_runtime : option RuntimeType;
  f_max_value_size : option Z
}.

(** [CliArgs::parse] on these flags: three of them have a [default_value]. *)
Definition cli_parse (f : Flags) : CliArgs :=
  mkCli (f_config f) (f_listen f) (f_max_memory f) (f_default_ttl f) (f_workers f)
    (default «"info"» (f_log_level f)) (default Memcached (f_protocol f)) (default Mio (f_runtime f))
    (f_max_value_size f).

(** ** Configuration file *)

Definition default_listen : bytes := «"127.0.0.1:11211"».
Definition default_max_memory : Z := 64 * 1024 * 1024.
Definition default_cleanup_interval : Z := 60.
Definition default_log_level : bytes := «"info"».
Definition default_max_value_size : Z := 8 * 1024 * 1024.

Record ServerConfig := mkServer {
  listen : bytes;
  server_workers : option Z;
  server_protocol : ProtocolType
}.

Record StorageConfig := mkStorageConfig {
  storage_max_memory : Z;
  storage_default_ttl : Z;
  storage_cleanup_interval : Z;
  storage_max_value_size : Z
}.

Record LoggingConfig := mkLogging { level : bytes }.

Record TomlConfig := mkToml {
  server : ServerConfig;
  storage : StorageConfig;
  logging : LoggingConfig
}.

Definition ServerConfig_default : ServerConfig := mkServer default_listen None ProtocolType_default.
Definition StorageConfig_default : StorageConfig :=
  mkStorageConfig default_max_memory 0 default_cleanup_interval default_max_value_size.
Definition LoggingConfig_default : LoggingConfig := mkLogging default_log_level.
Definition TomlConfig_default : TomlConfig :=
  mkToml ServerConfig_default StorageConfig_default LoggingConfig_default.

(** The entries of a document, section by section. *)
Record ServerDoc := mkServerDoc {
  d_listen : option bytes;
  d_workers : option Z;
  d_protocol : option ProtocolType
}.

Record StorageDoc := mkStorageDoc {
  d_max_memory : option Z;
  d_default_ttl : option Z;
  d_cleanup_interval : option Z;
  d_max_value_size : option Z
}.

Record TomlDoc := mkDoc {
  d_server : option ServerDoc;
  d_storage : option StorageDoc;
  d_level : option (option bytes)
}.

(** The derived [Deserialize]: a missing entry and a missing section get the value
    that their [serde(default)] attribute names. *)
Definition deserialize_server (d : ServerDoc) : ServerConfig :=
  mkServer (default default_listen (d_listen d)) (d_workers d) (default ProtocolType_default (d_protocol d)).

Definition deserialize_storage (d : StorageDoc) : StorageConfig :=
  mkStorageConfig (default default_max_memory (d_max_memory d)) (default 0 (d_default_ttl d))
    (default default_cleanup_interval (d_cleanup_interval d))
    (default default_max_value_size (d_max_value_size d)).

Definition deserialize_logging (d : option bytes) : LoggingConfig := mkLogging (default default_log_level d).

Definition deserialize (d : TomlDoc) : TomlConfig :=
  mkToml (default ServerConfig_default (deserialize_server <$> d_server d))
    (default StorageConfig_default (deserialize_storage <$> d_storage d))
    (default LoggingConfig_default (deserialize_logging <$> d_level d)).

(** ** Resolution *)

Record Config := mkConfig {
  host : bytes;
  port : Z;
  max_memory : Z;
  default_ttl : Z;
  cleanup_interval : Z;
  workers : Z;
  log_level : bytes;
  protocol : ProtocolType;
  runtime : RuntimeType;
  ring_size : Z;
  buffer_size : Z;
  max_connections : Z;
  batch_size : Z;
  max_value_size : Z
}.

(** The file system and the TOML parser, with their errors. *)
Class Files := {
  read_error : Type;
  toml_error : Type;
  read_to_string : bytes -> read_error + bytes;
  toml_document : bytes -> toml_error + TomlDoc;
  display_read_error : read_error -> bytes;
  display_toml_error : toml_error -> bytes
}.

Section load.
Context `{FS : Files}.

Inductive ConfigError : Type :=
| FileRead (path : bytes) (e : read_error)
| TomlParse (path : bytes) (e : toml_error)
| InvalidAddress (addr : bytes).

(** [str::rsplit_once] at an ASCII character *)
Fixpoint rsplit_once (c : byte) (s : bytes) : option (bytes * bytes) :=
  match s with
  | [] => None
  | b :: s' =>
      match rsplit_once c s' with
      | Some (h, t) => Some (b :: h, t)
      | None => if bool_decide (b = c) then Some ([], s') else None
      end
  end.

Definition parse_listen_address (addr : bytes) : ConfigError + (bytes * Z) :=
  match rsplit_once COLON addr with
  | Some (host, port_str) =>
      match parse_u16 port_str with
      | Some port => inr (host, port)
      | None => inl (InvalidAddress addr)
      end
  | None => inl (InvalidAddress addr)
  end.

Definition load_toml (cli : CliArgs) : ConfigError + TomlConfig :=
  match cli_config cli with
  | Some config_path =>
      match read_to_string config_path with
      | inl e => inl (FileRead config_path e)
      | inr contents =>
          match toml_document contents with
          | inl e => inl (TomlParse config_path e)
          | inr d => inr (deserialize d)
          end
      end
  | None => inr TomlConfig_default
  end.

Definition load (cli : CliArgs) : ConfigError + Config :=
  match load_toml cli with
  | inl e => inl e
  | inr toml_config =>
      let listen := default (listen (server toml_config)) (cli_listen cli) in
      match parse_listen_address listen with
      | inl e => inl e
      | inr (host, port) => inr {|
          host := host;
          port := port;
          max_memory := default (storage_max_memory (storage toml_config)) (cli_max_memory cli);
          default_ttl := default (storage_default_ttl (storage toml_config)) (cli_default_ttl cli);
          cleanup_interval := storage_cleanup_interval (storage toml_config);
          workers := default 0 (cli_workers cli ∪ server_workers (server toml_config));
          log_level := if bool_decide (cli_log_level cli <> «"info"») then cli_log_level cli
                       else level (logging toml_config);
          protocol := if bool_decide (cli_protocol cli <> ProtocolType_default) then cli_protocol cli
                      else server_protocol (server toml_config);
          runtime := cli_runtime cli;
          ring_size := 4096;
          buffer_size := 64 * 1024;
          max_connections := 10000;
          batch_size := 64;
          max_value_size := default (storage_max_value_size (storage toml_config)) (cli_max_value_size cli)
        |}
      end
  end.

(** [Display] of an error *)
Definition display_error (e : ConfigError) : bytes :=
  match e with
  | FileRead path e => «"Failed to read config file '"» ++ path ++ «"': "» ++ display_read_error e
  | TomlParse path e => «"Failed to parse config file '"» ++ path ++ «"': "» ++ display_toml_error e
  | InvalidAddress addr => «"Invalid listen address '"» ++ addr ++ «"': expected host:port"»
  end.

(** ** The listen address *)

Lemma rsplit_once_app c h t : c ∉ t -> rsplit_once c (h ++ c :: t) = Some (h, t).
Proof.
  intros Ht. assert (Hn : rsplit_once c t = None).
  { induction t as [|b t IH]; [done|]. simpl. rewrite IH by set_solver. by rewrite bool_decide_eq_false_2 by set_solver. }
  induction h as [|b h IH]; simpl; [|by rewrite IH]. rewrite Hn. by rewrite bool_decide_eq_true_2.
Qed.

Lemma rsplit_once_spec c s :
  match rsplit_once c s with
  | Some (h, t) => s = h ++ c :: t /\ c ∉ t
  | None => c ∉ s
  end.
Proof.
  induction s as [|b s IH]; simpl; [set_solver|]. destruct (rsplit_once c s) as [[h t]|].
  - destruct IH as [-> ?]. done.
  - case_bool_decide; set_solver.
Qed.

Lemma dec_no_colon p : 0 <= p -> COLON ∉ dec p.
Proof. intros Hp Hin. pose proof (dec_digits p Hp) as H. rewrite Forall_forall in H. by apply H in Hin. Qed.

Lemma parse_address_some addr h p :
  parse_listen_address addr = inr (h, p) <->
  exists s, addr = (h ++ COLON :: s) /\ (COLON ∉ s) /\ parse_u16 s = Some p.
Proof.
  unfold parse_listen_address. pose proof (rsplit_once_spec COLON addr) as Hs. split.
  - destruct (rsplit_once COLON addr) as [[h' t]|]; [|done]. destruct Hs as [-> Ht].
    destruct (parse_u16 t) eqn:E; [|done]. intros [= <- <-]. by exists t.
  - intros (s & -> & Hc & Hp). by rewrite rsplit_once_app, Hp.
Qed.

Lemma parse_address_none addr e : parse_listen_address addr = inl e -> e = InvalidAddress addr.
Proof. unfold parse_listen_address. repeat case_match; congruence. Qed.

(** A listen address is split at its last colon: host and port are found exactly in
    the strings [host:digits] whose number is a 16-bit port (with the sign and the
    leading zeros that [u16::from_str] allows), every other string is
    [InvalidAddress]; printing host and port gives a string that is read back. *)
Theorem listen_address addr :
  (forall h p, parse_listen_address addr = inr (h, p) <->
     exists s, addr = (h ++ COLON :: s) /\ (COLON ∉ s) /\ parse_u16 s = Some p) /\
  (forall e, parse_listen_address addr = inl e <->
     e = InvalidAddress addr /\ forall h s, addr = h ++ COLON :: s -> COLON ∉ s -> parse_u16 s = None) /\
  (forall h p, 0 <= p <= 65535 -> parse_listen_address (h ++ COLON :: dec p) = inr (h, p)) /\
  (forall h p, parse_listen_address addr = inr (h, p) -> 0 <= p <= 65535).
Proof.
  split_and!.
  - intros h p. apply parse_address_some.
  - intros e. split.
    + intros H. pose proof (parse_address_none _ _ H) as ->. split; [done|]. intros h s Ha Hs.
      destruct (parse_u16 s) as [p|] eqn:E; [|done].
      assert (parse_listen_address addr = inr (h, p)) by (apply parse_address_some; eauto). congruence.
    + intros [-> Hno]. destruct (parse_listen_address addr) as [e|[h p]] eqn:E.
      * f_equal. by apply parse_address_none.
      * apply parse_address_some in E as (s & Ha & Hs & Hp). rewrite (Hno h s) in Hp; done.
  - intros h p Hp. apply parse_address_some. exists (dec p). split_and!; [done|apply dec_no_colon; lia|].
    by apply parse_unsigned_dec.
  - intros h p (s & _ & _ & Hp)%parse_address_some. by eapply parse_unsigned_range.
Qed.

(** ** Precedence *)

(** What the documentation says: the flag if it was given, or the entry of the file,
    or the default. *)
Definition layered {A} (cli file : option A) (dflt : A) : A := default dflt (cli ∪ file).

Definition file_server {A} (field : ServerDoc -> option A) (d : TomlDoc) : option A := d_server d ≫= field.
Definition file_storage {A} (field : StorageDoc -> option A) (d : TomlDoc) : option A := d_storage d ≫= field.
Definition file_level (d : TomlDoc) : option bytes := mjoin (d_level d).

Definition documented_listen (f : Flags) (d : TomlDoc) : bytes :=
  layered (f_listen f) (file_server d_listen d) default_listen.

Definition documented (f : Flags) (d : TomlDoc) (host : bytes) (port : Z) : Config := {|
  host := host;
  port := port;
  max_memory := layered (f_max_memory f) (file_storage d_max_memory d) default_max_memory;
  default_ttl := layered (f_default_ttl f) (file_storage d_default_ttl d) 0;
  cleanup_interval := layered None (file_storage d_cleanup_interval d) default_cleanup_interval;
  workers := layered (f_workers f) (file_server d_workers d) 0;
  log_level := layered (f_log_level f) (file_level d) default_log_level;
  protocol := layered (f_protocol f) (file_server d_protocol d) ProtocolType_default;
  runtime := layered (f_runtime f) None RuntimeType_default;
  ring_size := 4096;
  buffer_size := 65536;
  max_connections := 10000;
  batch_size := 64;
  max_value_size := layered (f_max_value_size f) (file_storage d_max_value_size d) default_max_value_size
|}.

(** The document the flags name; without one, a document with no entries. *)
Definition document (f : Flags) : ConfigError + TomlDoc :=
  match f_config f with
  | None => inr (mkDoc None None None)
  | Some path =>
      match read_to_string path with
      | inl e => inl (FileRead path e)
      | inr contents =>
          match toml_document contents with
          | inl e => inl (TomlParse path e)
          | inr d => inr d
          end
      end
  end.

(** A flag that was given with the default value while the file says otherwise. *)
Definition masked {A} (cli : option A) (dflt : A) (file : option A) : Prop :=
  cli = Some dflt /\ exists v, file = Some v /\ v <> dflt.

Definition with_level_protocol (l : bytes) (q : ProtocolType) (c : Config) : Config :=
  mkConfig (host c) (port c) (max_memory c) (default_ttl c) (cleanup_interval c) (workers c) l q (runtime c)
    (ring_size c) (buffer_size c) (max_connections c) (batch_size c) (max_value_size c).

(** How the two flags with a default value are merged. *)
Definition merged {A} `{EqDecision A} (cli : option A) (dflt : A) (file : option A) : A :=
  if bool_decide (default dflt cli <> dflt) then default dflt cli else default dflt file.

Lemma merged_layered {A} `{EqDecision A} (cli : option A) (dflt : A) file :
  merged cli dflt file = layered cli file dflt <-> ~ masked cli dflt file.
Proof.
  unfold merged, layered, masked. destruct cli as [v|], file as [x|]; simpl.
  - case_bool_decide as E; [naive_solver congruence|]. subst v.
    destruct (decide (x = dflt)); naive_solver.
  - case_bool_decide as E; [naive_solver congruence|]. subst v. naive_solver.
  - rewrite bool_decide_eq_false_2 by (by intros []). naive_solver.
  - rewrite bool_decide_eq_false_2 by (by intros []). naive_solver.
Qed.

(** A missing section and a section without entries are the same. *)
Lemma deserialize_entries d :
  deserialize d = mkToml
    (mkServer (default default_listen (file_server d_listen d)) (file_server d_workers d)
       (default ProtocolType_default (file_server d_protocol d)))
    (mkStorageConfig (default default_max_memory (file_storage d_max_memory d))
       (default 0 (file_storage d_default_ttl d))
       (default default_cleanup_interval (file_storage d_cleanup_interval d))
       (default default_max_value_size (file_storage d_max_value_size d)))
    (mkLogging (default default_log_level (file_level d))).
Proof. by destruct d as [[] [] []]. Qed.

Lemma default_layered {A} (cli file : option A) dflt : default (default dflt file) cli = layered cli file dflt.
Proof. by destruct cli, file. Qed.

Lemma load_eq f :
  load (cli_parse f) =
  match document f with
  | inl e => inl e
  | inr d =>
      match parse_listen_address (documented_listen f d) with
      | inl e => inl e
      | inr (h, p) => inr (with_level_protocol (merged (f_log_level f) default_log_level (file_level d))
          (merged (f_protocol f) ProtocolType_default (file_server d_protocol d)) (documented f d h p))
      end
  end.
Proof.
  assert (Ht : load_toml (cli_parse f) =
    match document f with inl e => inl e | inr d => inr (deserialize d) end).
  { unfold load_toml, document. simpl. by destruct (f_config f) as [x|]; [destruct (read_to_string x) as [|y]; [|destruct (toml_document y)]|]. }
  unfold load. rewrite Ht. destruct (document f) as [e|d]; [done|]. rewrite deserialize_entries. simpl.
  rewrite !default_layered. fold (documented_listen f d).
  destruct (parse_listen_address _) as [e|[h p]]; [done|]. unfold documented, with_level_protocol. simpl.
  f_equal. f_equal; [by destruct (file_storage d_cleanup_interval d)|by destruct (f_runtime f)].
Qed.

(** C38: The configuration is the documented one, each setting from the command line, else
    from the file, else its default, with errors of the file before errors of the
    address, except for the log level and the protocol: a flag that repeats the
    default value does not override the file.  Without such a flag there is no
    exception. *)
Theorem flag_precedence f :
  match document f with
  | inl e => load (cli_parse f) = inl e
  | inr d =>
      match parse_listen_address (documented_listen f d) with
      | inl e => load (cli_parse f) = inl e /\ e = InvalidAddress (documented_listen f d)
      | inr (h, p) => exists c, load (cli_parse f) = inr c /\
          with_level_protocol (log_level c) (protocol c) (documented f d h p) = c /\
          (log_level c = log_level (documented f d h p) <->
             ~ masked (f_log_level f) default_log_level (file_level d)) /\
          (protocol c = protocol (documented f d h p) <->
             ~ masked (f_protocol f) ProtocolType_default (file_server d_protocol d))
      end
  end.
Proof.
  pose proof (load_eq f) as E. destruct (document f) as [e|d]; [done|].
  destruct (parse_listen_address _) as [e|[h p]] eqn:Ha; [split; [done|by apply parse_address_none]|].
  eexists. split; [exact E|]. split; [done|]. simpl. split; apply merged_layered.
Qed.

End load.
