(* ===== verification/Server.v ===== *)
(** * Starting the server (src/main.rs, src/runtime/mod.rs and the [run] functions)

    From the flags to the workers: the configuration is loaded, a runtime is chosen,
    the address is parsed and the worker threads are spawned, each of which sets up
    its listener, its buffers and its event loop.  A worker that cannot do so logs the
    error and ends; the others go on, and when there are none [main] returns.  The
    answers of the operating system are parameters ([Os]). *)

From S2P Require Import Prelude RustStd RustStdFacts Storage Memcached Resp Request Buffer Slab Connection Token.
From S2P Require Import Concrete BufRing Mio MioFacts Uring UringFacts UringThms SockAddr Config.

Inductive Target : Type := Linux | MacOS | OtherTarget.
Inductive Domain : Type := IPV4 | IPV6.

Inductive SysCall : Type :=
| PollNew
| PollRegister
| IoUringNew (entries : Z)
| Socket (d : Domain)
| SetReusePort
| SetReuseAddress
| SetNonblocking
| Bind (addr : SocketAddr)
| Listen (backlog : Z)
| AllocateRing
| RegisterRing.

(** [spawned i]: the thread of worker [i] could be created; [answers i c]: call [c] of
    worker [i] succeeds. *)
Class Os := {
  target : Target;
  available_parallelism : option Z;
  spawned : nat -> bool;
  answers : nat -> SysCall -> bool
}.

Inductive run_error : Type := InvalidInput | Unsupported | SpawnFailed.

Section server.
Context `{BP : BuildProfile, LY : Layout, HO : HashOrder, UC : UnicodeCase, FL : FrameLayout}.
Context `{SL : SlabLib, FS : Files, OS : Os}.

Definition map_protocol (p : ProtocolType) : Protocol :=
  match p with
  | Config.Memcached => PMemcached
  | Config.Resp => PResp
  | Config.Ping => PPing
  | Config.Echo => PEcho
  end.

(** ** [run], word for word the same in both event loops *)

Definition num_cpus : Z := default 1 available_parallelism.

Definition num_workers (config : Config) : Z :=
  if workers config =? 0 then num_cpus else workers config.

Definition server_addr (config : Config) : option SocketAddr :=
  parse_socket_addr (host config ++ COLON :: dec (port config)).

(** The threads that were started, and whether all of them were. *)
Fixpoint spawn_workers (ids : list nat) : list nat * bool :=
  match ids with
  | [] => ([], true)
  | i :: ids' => if spawned i then let '(l, b) := spawn_workers ids' in (i :: l, b) else ([], false)
  end.

Definition run (config : Config) : list nat * (run_error + SocketAddr) :=
  match server_addr config with
  | None => ([], inl InvalidInput)
  | Some addr =>
      let '(started, all) := spawn_workers (seq 0 (Z.to_nat (num_workers config))) in
      (started, if (all : bool) then inr addr else inl SpawnFailed)
  end.

Definition uring_run (config : Config) : list nat * (run_error + SocketAddr) := run config.

(** ** The start of a worker *)

Definition domain (addr : SocketAddr) : Domain := match addr with V4 _ _ => IPV4 | V6 _ _ _ => IPV6 end.

Definition create_listener_with_reuseport (id : nat) (addr : SocketAddr) : bool :=
  forallb (answers id) [Socket (domain addr); SetReusePort; SetReuseAddress; SetNonblocking; Bind addr; Listen 1024].

Definition mio_settings (config : Config) : Mio.settings :=
  Mio.mkSettings (max_connections config) (buffer_size config) (max_value_size config)
    (map_protocol (Config.protocol config)).

Definition start_mio (id : nat) (addr : SocketAddr) (config : Config) (s : Storage) : option Worker :=
  if answers id PollNew && create_listener_with_reuseport id addr && answers id PollRegister
  then Some (Mio.worker_new (mio_settings config) s) else None.

Definition uring_settings (config : Config) : Uring.settings :=
  Uring.mkSettings (max_connections config) (buffer_size config) (max_value_size config)
    (map_protocol (Config.protocol config)).

(** The submission queue starts empty, with room for [ring_size] entries. *)
Definition start_uring (id : nat) (addr : SocketAddr) (config : Config) (s : Storage) : comp (option UWorker) :=
  if negb (answers id (IoUringNew (ring_size config)) && create_listener_with_reuseport id addr) then Val None
  else
    entries ← ring_entries_for (max_connections config);
    match ring_new entries (buffer_size config) (answers id AllocateRing) (answers id RegisterRing) with
    | inl _ => Val None
    | inr r =>
        match Uring.worker_new (uring_settings config) s r (Z.to_nat (ring_size config)) with
        | Done (inr _) w => Val (Some w)
        | Done (inl _) _ => Val None
        | _ => Panic
        end
    end.

(** ** [main] *)

(** A worker that has entered its event loop. *)
Inductive running : Type :=
| RunsMio (w : Worker)
| RunsUring (w : UWorker).

(** The body of a worker thread up to its event loop.  A thread that returns an error
    logs it, and the result of a thread that panics is dropped by [join]. *)
Definition start_worker (r : RuntimeType) (id : nat) (addr : SocketAddr) (config : Config) (s : Storage) : option running :=
  match r with
  | Config.Mio => RunsMio <$> start_mio id addr config s
  | IoUring => match start_uring id addr config s with Val (Some w) => Some (RunsUring w) | _ => None end
  end.

(** How [main] goes on: it returns an error, it waits for the workers that entered their
    event loops, or, when none did, it returns [Ok]. *)
Inductive exit : Type :=
| ConfigFailed (e : ConfigError)
| RunFailed (started : list nat) (e : run_error)
| Returned
| Serving (addr : SocketAddr) (config : Config) (s : Storage) (workers : list (nat * running)).

Definition serve (r : RuntimeType) (config : Config) (result : list nat * (run_error + SocketAddr)) : exit :=
  let s := Storage.new (max_memory config) (Config.default_ttl config) in
  match result with
  | (started, inl e) => RunFailed started e
  | (started, inr addr) =>
      match omap (fun id => (id,.) <$> start_worker r id addr config s) started with
      | [] => Returned
      | ws => Serving addr config s ws
      end
  end.

Definition run_mio (config : Config) : exit :=
  match target with
  | Linux | MacOS => serve Config.Mio config (run config)
  | OtherTarget => RunFailed [] Unsupported
  end.

Definition run_uring (config : Config) : exit :=
  match target with
  | Linux => serve IoUring config (uring_run config)
  | _ => RunFailed [] Unsupported
  end.

Definition main (f : Flags) : exit :=
  match load (cli_parse f) with
  | inl e => ConfigFailed e
  | inr config =>
      match runtime config with
      | Config.Mio => run_mio config
      | IoUring => run_uring config
      end
  end.

(** ** Theorems *)

Lemma spawn_all ids : (forall i, i ∈ ids -> spawned i = true) -> spawn_workers ids = (ids, true).
Proof.
  induction ids as [|i ids IH]; intros H; [done|]. simpl. rewrite H by set_solver.
  rewrite IH by set_solver. done.
Qed.

(** A worker's constants come from the configuration that was loaded. *)
Lemma load_constants f c :
  load (cli_parse f) = inr c ->
  ring_size c = 4096 /\ buffer_size c = 65536 /\ max_connections c = 10000 /\
  runtime c = default Config.Mio (f_runtime f) /\ 0 <= port c <= 65535.
Proof.
  rewrite load_eq. destruct (document f) as [e|d]; [done|].
  destruct (parse_listen_address _) as [e|[h p]] eqn:E; [done|]. intros [= <-]. simpl. split_and!; try done.
  1: by destruct (f_runtime f).
  all: apply parse_address_some in E as (s & _ & _ & Hp); destruct (parse_unsigned_range 65535 s p ltac:(lia) Hp); lia.
Qed.

(** A host that [load] accepts but that does not start like a numeric address (a
    host name, an empty host, an IPv6 address without brackets that starts with a
    letter or a colon) ends the server with [InvalidInput] before any worker is
    started: names are never resolved. *)
Theorem host_names_rejected f c b l :
  load (cli_parse f) = inr c -> host c ++ [COLON] = b :: l ->
  (is_digit b = false /\ b <> LBRACKET) -> target = Linux ->
  main f = RunFailed [] InvalidInput.
Proof.
  intros Hl Hh [Hd Hb] Ht.
  assert (Hr : run c = ([], inl InvalidInput)).
  { unfold run, server_addr. change (COLON :: dec (port c)) with ([COLON] ++ dec (port c)).
    rewrite app_assoc, Hh. simpl. rewrite parse_needs_ip; [done| |done].
    unfold is_digit in Hd. unfold to_digit. unfold within in Hd. by destruct b. }
  unfold main, run_mio, run_uring, uring_run, serve. rewrite Hl, Ht, Hr. by destruct (runtime c).
Qed.

Lemma uring_worker_new cfg s r room :
  exists w, Uring.worker_new cfg s r (S room) = Done (inr tt) w /\ Uring.storage w = s /\ read_buf_ring w = r.
Proof.
  unfold Uring.worker_new, submit_accept. set (w0 := mkUWorker _ _ _ _ _ _ _ _ _ _).
  destruct (slab_insert OpAccept (ops (tokens w0))) as [t ts] eqn:E.
  assert (Ha : on_tokens (token_alloc OpAccept) w0 = Done t (with_tokens (mkTokens ts) w0)).
  { unfold on_tokens, zoom, token_alloc. by rewrite E. }
  erewrite bind_done by exact Ha. by eexists.
Qed.

Context `{LW : !SlabLaws}.

(** The system calls a worker makes before its event loop. *)
Definition listener_calls (addr : SocketAddr) : list SysCall :=
  [Socket (domain addr); SetReusePort; SetReuseAddress; SetNonblocking; Bind addr; Listen 1024].

Definition worker_calls (r : RuntimeType) (addr : SocketAddr) (config : Config) : list SysCall :=
  match r with
  | Config.Mio => [PollNew] ++ listener_calls addr ++ [PollRegister]
  | IoUring => [IoUringNew (ring_size config)] ++ listener_calls addr ++ [AllocateRing; RegisterRing]
  end.

(** All of them succeed. *)
Definition can_start (r : RuntimeType) (addr : SocketAddr) (config : Config) (id : nat) : bool :=
  forallb (answers id) (worker_calls r addr config).

(** A worker at the start of its event loop. *)
Definition fresh_worker (config : Config) (s : Storage) (x : running) : Prop :=
  match x with
  | RunsMio w => runtime config = Config.Mio /\ Mio.storage w = s /\ reachable (mio_settings config) w
  | RunsUring w =>
      runtime config = IoUring /\ Uring.storage w = s /\ ureachable (uring_settings config) w /\
      ring_entries (read_buf_ring w) = 4096
  end.

Lemma start_uring_ok c addr s :
  ring_size c = 4096 -> buffer_size c = 65536 -> max_connections c = 10000 ->
  exists w, Uring.storage w = s /\ ureachable (uring_settings c) w /\ ring_entries (read_buf_ring w) = 4096 /\
    forall id, start_uring id addr c s = Val (if can_start IoUring addr c id then Some w else None).
Proof.
  intros Hrs Hbs Hmc.
  assert (He : ring_entries_for 10000 = Val 4096) by done.
  assert (Hr : exists r, ring_new 4096 (buffer_size c) true true = inr r) by (by eexists).
  destruct Hr as [r Hr]. destruct (ring_new_inv 4096 _ _ ltac:(lia) Hr) as (t & Hi).
  destruct (uring_worker_new (uring_settings c) s r (Z.to_nat 4095)) as (w & E & Hs & Hw).
  change (S (Z.to_nat 4095)) with (Z.to_nat 4096) in E. exists w. split_and!; [done|..].
  - by eapply (ureach_start _ s 4096 r (Z.to_nat 4096)).
  - rewrite Hw, (ri_entries _ _ _ _ _ _ Hi). lia.
  - intros id. unfold start_uring, can_start. rewrite Hmc, He. cbn [worker_calls].
    rewrite !forallb_app. change (forallb (answers id) (listener_calls addr)) with (create_listener_with_reuseport id addr).
    cbn [forallb]. rewrite andb_true_r. destruct (answers id (IoUringNew (ring_size c))); [|done].
    destruct (create_listener_with_reuseport id addr); [|done]. cbn [andb negb mbind comp_bind].
    destruct (answers id AllocateRing); [|done]. destruct (answers id RegisterRing); [|done].
    cbn [andb]. by rewrite Hr, Hrs, E.
Qed.

Lemma start_mio_ok c id addr s :
  start_mio id addr c s = if can_start Config.Mio addr c id then Some (Mio.worker_new (mio_settings c) s) else None.
Proof.
  unfold start_mio, can_start. cbn [worker_calls]. rewrite !forallb_app.
  change (forallb (answers id) (listener_calls addr)) with (create_listener_with_reuseport id addr).
  cbn [forallb]. by rewrite !andb_true_r, andb_assoc.
Qed.

(** All workers of a runtime start as the same worker, if they start. *)
Lemma start_worker_ok f c addr s :
  load (cli_parse f) = inr c ->
  exists w, fresh_worker c s w /\
    forall id, start_worker (runtime c) id addr c s = if can_start (runtime c) addr c id then Some w else None.
Proof.
  intros Hl. destruct (load_constants _ _ Hl) as (Hrs & Hbs & Hmc & _). destruct (runtime c) eqn:Er.
  - exists (RunsMio (Mio.worker_new (mio_settings c) s)). split; [split_and!; [done..|apply reach_start]|].
    intros id. simpl. rewrite start_mio_ok. by destruct (can_start _ _ _ _).
  - destruct (start_uring_ok c addr s Hrs Hbs Hmc) as (w & ? & ? & ? & Hw).
    exists (RunsUring w). split; [done|]. intros id. simpl. rewrite Hw. by destruct (can_start _ _ _ _).
Qed.

Lemma omap_started {A} (p : nat -> bool) (w : A) (g : nat -> option A) (l : list nat) :
  (forall i, g i = if p i then Some w else None) ->
  omap (fun i => (i,.) <$> g i) l = (.,w) <$> filter (fun i => p i = true) l.
Proof.
  intros Hg. induction l as [|i l IH]; [done|]. rewrite filter_cons. cbn [omap list_omap]. rewrite Hg.
  destruct (p i) eqn:E; cbn [fmap option_fmap option_map].
  - rewrite decide_True, fmap_cons by done. f_equal. exact IH.
  - rewrite decide_False by done. exact IH.
Qed.

(** C39: With a configuration that loads, a host that is an IPv4 address and a system on
    which threads can be created, [main] spawns the requested number of workers, or one
    per processor, and always at least one.  The workers whose system calls all succeed
    (creating the poll or ring, binding and listening on exactly that address and port,
    and so on) enter their event loops, each as a fresh worker of the runtime with the
    store the configuration asks for; the others end with a log line.  If no worker gets
    that far, [main] returns without an error.  On other targets than Linux, or macOS
    for mio, the runtime is refused as unsupported. *)
Theorem main_serves f c ip :
  load (cli_parse f) = inr c -> is_ipv4 ip -> host c = print_ipv4 ip ->
  0 <= workers c -> (forall n, available_parallelism = Some n -> 0 < n) -> (forall i, spawned i = true) ->
  exists n, (0 < n)%nat /\ Z.of_nat n = (if workers c =? 0 then default 1 available_parallelism else workers c) /\
  let addr := V4 ip (port c) in
  let s := Storage.new (max_memory c) (Config.default_ttl c) in
  match runtime c, target with
  | Config.Mio, OtherTarget | IoUring, MacOS | IoUring, OtherTarget => main f = RunFailed [] Unsupported
  | r, _ => exists w, fresh_worker c s w /\
      main f = match filter (fun id => can_start r addr c id = true) (seq 0 n) with
               | [] => Returned
               | ids => Serving addr c s ((.,w) <$> ids)
               end
  end.
Proof.
  intros Hl Hip Hh Hw Hav Hsp. destruct (load_constants _ _ Hl) as (_ & _ & _ & _ & Hport).
  assert (Hn : 0 < num_workers c).
  { unfold num_workers, num_cpus. destruct (workers c =? 0) eqn:E; boolify; [|lia].
    destruct available_parallelism; simpl; [by apply Hav|lia]. }
  exists (Z.to_nat (num_workers c)). split_and!; [lia|rewrite Z2Nat.id by lia; done|]. cbv zeta.
  set (s := Storage.new _ _). set (addr := V4 ip (port c)).
  assert (Hr : run c = (seq 0 (Z.to_nat (num_workers c)), inr addr)).
  { unfold run, server_addr. rewrite Hh, parse_ipv4 by done. by rewrite spawn_all. }
  destruct (start_worker_ok f c addr s Hl) as (w & Hf & Hst).
  assert (Hserve : serve (runtime c) c (run c) =
    match filter (fun id => can_start (runtime c) addr c id = true) (seq 0 (Z.to_nat (num_workers c))) with
    | [] => Returned
    | ids => Serving addr c s ((.,w) <$> ids)
    end).
  { unfold serve. rewrite Hr. fold s. rewrite (omap_started _ _ _ _ Hst). by destruct (filter _ _). }
  unfold main, run_mio, run_uring, uring_run. rewrite Hl.
  destruct (runtime c), target; try done; exists w; by split.
Qed.

(** Every worker that starts under a loaded configuration starts inside the invariants
    of its event loop, so the theorems about the event loops hold for it; nothing but
    a failed system call keeps a worker from starting, and the io_uring worker's ring
    has 4096 buffers. *)
Theorem workers_start f c id addr s :
  load (cli_parse f) = inr c -> 0 <= max_value_size c <= I64_MAX - 131074 ->
  (forall sc, answers id sc = true) ->
  MioFacts.settings_ok (mio_settings c) /\ UringFacts.settings_ok (uring_settings c) /\
  (exists w, start_mio id addr c s = Some w /\ Mio.storage w = s /\ reachable (mio_settings c) w) /\
  (exists w, start_uring id addr c s = Val (Some w) /\ Uring.storage w = s /\ ureachable (uring_settings c) w /\
     ring_entries (read_buf_ring w) = 4096).
Proof.
  intros Hl Hv Hans. destruct (load_constants _ _ Hl) as (Hrs & Hbs & Hmc & _).
  split_and!.
  - unfold MioFacts.settings_ok, mio_settings, USIZE_MAX, U64_MAX, I64_MAX in *. simpl. lia.
  - unfold UringFacts.settings_ok, uring_settings, I64_MAX in *. simpl. lia.
  - rewrite start_mio_ok. unfold can_start. rewrite (proj2 (forallb_forall _ _)) by (intros; apply Hans).
    eexists. split; [done|]. split; [done|apply reach_start].
  - destruct (start_uring_ok c addr s Hrs Hbs Hmc) as (w & ? & ? & ? & Hw). exists w. rewrite Hw. unfold can_start.
    by rewrite (proj2 (forallb_forall _ _)) by (intros; apply Hans).
Qed.

End server.

(** ** Witnesses *)

Section witnesses.
#[local] Existing Instance Concrete.release.
#[local] Existing Instance linux64.
#[local] Existing Instance by_elements.
#[local] Existing Instance some_unicode.
#[local] Existing Instance frame64.
#[local] Existing Instance lowest_key.
#[local] Existing Instance lowest_key_laws.

(** One configuration file, [c.toml], which chooses the RESP protocol; a system on which
    everything succeeds, and one on which only worker 2 can bind. *)
Definition one_file : Files := {|
  read_error := unit;
  toml_error := unit;
  read_to_string := fun p => if bool_decide (p = «"c.toml"») then inr [] else inl tt;
  toml_document := fun _ => inr (mkDoc (Some (mkServerDoc None None (Some Config.Resp))) None None);
  display_read_error := fun _ => «"not found"»;
  display_toml_error := fun _ => []
|}.

Definition four_cores : Os := {|
  target := Linux;
  available_parallelism := Some 4;
  spawned := fun _ => true;
  answers := fun _ _ => true
|}.

Definition one_binds : Os := {|
  target := Linux;
  available_parallelism := Some 4;
  spawned := fun _ => true;
  answers := fun id c => match c with Bind _ => Nat.eqb id 2 | _ => true end
|}.

#[local] Existing Instance one_file.
#[local] Existing Instance four_cores.

Definition flags (listen : bytes) (p : option ProtocolType) : Flags :=
  mkFlags (Some «"c.toml"») (Some listen) None None None None p (Some IoUring) None.

Definition loaded (h : bytes) (n : Z) (q : ProtocolType) : Config :=
  mkConfig h n 67108864 0 60 0 «"info"» q IoUring 4096 65536 10000 64 8388608.

Definition addr80 : SocketAddr := V4 (10, 0, 0, 255) 80.
Definition config80 : Config := loaded «"10.0.0.255"» 80 Config.Resp.

Lemma main_serves_witness :
  (exists w, fresh_worker config80 (Storage.new 67108864 0) w /\
     main (flags «"10.0.0.255:80"» None) =
       Serving addr80 config80 (Storage.new 67108864 0) [(0%nat, w); (1%nat, w); (2%nat, w); (3%nat, w)]) /\
  (exists w, fresh_worker config80 (Storage.new 67108864 0) w /\
     main (OS := one_binds) (flags «"10.0.0.255:80"» None) =
       Serving addr80 config80 (Storage.new 67108864 0) [(2%nat, w)]).
Proof.
  split.
  - destruct (main_serves (flags «"10.0.0.255:80"» None) config80 (10, 0, 0, 255)) as (n & _ & Hz & Hm);
      [by_vm|simpl; lia|by_vm|simpl; lia|intros n [= <-]; lia|reflexivity|].
    simpl in Hz. assert (n = 4%nat) as -> by lia. exact Hm.
  - destruct (main_serves (OS := one_binds) (flags «"10.0.0.255:80"» None) config80 (10, 0, 0, 255)) as (n & _ & Hz & Hm);
      [by_vm|simpl; lia|by_vm|simpl; lia|intros n [= <-]; lia|reflexivity|].
    simpl in Hz. assert (n = 4%nat) as -> by lia. exact Hm.
Defined.

(** The flag [--protocol memcached] does not override the file here. *)
Example masked_protocol :
  load (cli_parse (flags «"10.0.0.255:80"» (Some Config.Memcached))) =
    inr (loaded «"10.0.0.255"» 80 Config.Resp) /\
  load (cli_parse (flags «"10.0.0.255:80"» (Some Config.Ping))) = inr (loaded «"10.0.0.255"» 80 Config.Ping).
Proof. split; by_vm. Qed.

Lemma host_names_rejected_witness :
  main (flags «"localhost:11211"» None) = RunFailed [] InvalidInput /\
  main (flags «":11211"» None) = RunFailed [] InvalidInput.
Proof.
  split.
  - apply (host_names_rejected (flags «"localhost:11211"» None) (loaded «"localhost"» 11211 Config.Resp)
      Byte.x6c «"ocalhost:"»); [by_vm|by_vm|by split|by_vm].
  - apply (host_names_rejected (flags «":11211"» None) (loaded [] 11211 Config.Resp) COLON []);
      [by_vm|by_vm|by split|by_vm].
Defined.

Lemma workers_start_witness :
  exists w, start_uring 0 (V4 (10, 0, 0, 255) 80) (loaded «"10.0.0.255"» 80 Config.Resp) (Storage.new 67108864 0) =
    Val (Some w) /\ ring_entries (read_buf_ring w) = 4096.
Proof.
  destruct (workers_start (flags «"10.0.0.255:80"» None) (loaded «"10.0.0.255"» 80 Config.Resp) 0
    (V4 (10, 0, 0, 255) 80) (Storage.new 67108864 0)) as (_ & _ & _ & w & E & _ & _ & Hr).
  - by_vm.
  - unfold I64_MAX. simpl. lia.
  - reflexivity.
  - exists w. by split.
Defined.

End witnesses.
