(* ===== verification/Locks.v ===== *)
(** * The locks of the store (src/storage.rs), with many threads

    The store is shared by all workers; its items and its access order are behind one
    reader-writer lock each.  Every operation is the sequence of acquisitions and
    releases it makes on the branch it takes; threads interleave them.  What an
    operation does to the data between two of these steps is left to the sequential
    model: only the order of the locks matters here.

    [prefer] says how the lock treats a reader while a writer waits: the standard
    library leaves it open whether the reader is let in, so both are covered. *)

From S2P Require Import Prelude.

Inductive lock : Type := LData | LOrder.
Inductive mode : Type := R | W.
Inductive act : Type :=
| Acquire (l : lock) (m : mode)
| Release (l : lock).

#[export] Instance lock_eq_dec : EqDecision lock.
Proof. solve_decision. Defined.
#[export] Instance mode_eq_dec : EqDecision mode.
Proof. solve_decision. Defined.

(** ** The operations *)

(** What a lookup of the key finds; an expired item that is deleted afterwards may be
    gone by then. *)
Inductive found : Type := Missing | Live | Expired (still_there : bool).

(** The evictions of [ensure_memory_available]: for each round whether the victim was
    still there, and whether the loop ended because no key was left. *)
Record evictions := mkEvictions { rounds : list bool; exhausted : bool }.

Definition record_access_locks : list act := [Acquire LOrder W; Release LOrder].

Definition delete_locks (present : bool) : list act :=
  [Acquire LData W] ++ (if present then [Acquire LOrder W; Release LOrder] else []) ++ [Release LData].

Definition get_locks (f : found) : list act :=
  match f with
  | Missing => [Acquire LData R; Release LData]
  | Live => [Acquire LData R] ++ record_access_locks ++ [Release LData]
  | Expired present => [Acquire LData R; Release LData] ++ delete_locks present
  end.

Definition get_multi_locks (fs : list found) : list act :=
  [Acquire LData R] ++
  concat ((fun f => match f with Live => record_access_locks | _ => [] end) <$> fs) ++
  [Release LData] ++
  concat ((fun f => match f with Expired present => delete_locks present | _ => [] end) <$> fs).

Definition find_lru_key_locks : list act :=
  [Acquire LOrder R; Acquire LData R; Release LData; Release LOrder].

Definition ensure_memory_locks (e : evictions) : list act :=
  concat ((fun present => find_lru_key_locks ++ delete_locks present) <$> rounds e) ++
  (if exhausted e then find_lru_key_locks else []).

(** Inserting the item and recording the access. *)
Definition store_locks : list act := [Acquire LData W] ++ record_access_locks ++ [Release LData].

Definition set_locks (e : evictions) : list act := ensure_memory_locks e ++ store_locks.

Definition add_locks (not_stored : bool) (e : evictions) : list act :=
  [Acquire LData R; Release LData] ++ (if not_stored then [] else set_locks e).

Definition replace_locks (not_stored : bool) (e : evictions) : list act :=
  [Acquire LData R; Release LData] ++ (if not_stored then [] else set_locks e).

Definition cas_locks (refused : bool) (e : evictions) : list act :=
  if refused then [Acquire LData W; Release LData]
  else [Acquire LData W; Release LData] ++ ensure_memory_locks e ++ store_locks.

(** [append] and [prepend]: refused, in place, or after making room, when the item may
    be gone. *)
Inductive extension : Type := Refused | InPlace | MadeRoom (e : evictions) (gone : bool).

Definition extend_locks (x : extension) : list act :=
  match x with
  | Refused => [Acquire LData W; Release LData]
  | InPlace => store_locks
  | MadeRoom e gone =>
      [Acquire LData W; Release LData] ++ ensure_memory_locks e ++
      (if gone then [Acquire LData W; Release LData] else store_locks)
  end.

Definition cleanup_expired_locks (present : list bool) : list act :=
  [Acquire LData R; Release LData] ++ concat (delete_locks <$> present).

Definition flush_all_locks : list act :=
  [Acquire LData W; Acquire LOrder W; Release LOrder; Release LData].

Definition stats_locks : list act := [Acquire LData R; Release LData].

Inductive call : Type :=
| Get (f : found)
| GetMulti (fs : list found)
| Set_ (e : evictions)
| Add (not_stored : bool) (e : evictions)
| Replace (not_stored : bool) (e : evictions)
| Cas (refused : bool) (e : evictions)
| Delete (present : bool)
| Append (x : extension)
| Prepend (x : extension)
| CleanupExpired (present : list bool)
| FlushAll
| Stats.

Definition call_locks (c : call) : list act :=
  match c with
  | Get f => get_locks f
  | GetMulti fs => get_multi_locks fs
  | Set_ e => set_locks e
  | Add b e => add_locks b e
  | Replace b e => replace_locks b e
  | Cas b e => cas_locks b e
  | Delete b => delete_locks b
  | Append x | Prepend x => extend_locks x
  | CleanupExpired bs => cleanup_expired_locks bs
  | FlushAll => flush_all_locks
  | Stats => stats_locks
  end.

(** The calls that never have to make room. *)
Definition no_round (e : evictions) : bool := match e with mkEvictions [] false => true | _ => false end.

Definition no_eviction (c : call) : bool :=
  match c with
  | Set_ e | Add false e | Replace false e | Cas false e => no_round e
  | Append (MadeRoom e _) | Prepend (MadeRoom e _) => no_round e
  | _ => true
  end.

(** ** Threads *)

Record thread := mkThread { held : list (lock * mode); todo : list act }.

Definition idle : thread := mkThread [] [].

Definition drop_lock (l : lock) (h : list (lock * mode)) : list (lock * mode) :=
  filter (fun x => x.1 <> l) h.

Definition wants_write (l : lock) (t : thread) : bool :=
  match todo t with Acquire l' W :: _ => bool_decide (l' = l) | _ => false end.

(** A thread's locks allow another acquisition of [l]. *)
Definition allows (l : lock) (m : mode) (t : thread) : bool :=
  forallb (fun x => bool_decide (x.1 <> l) || (bool_decide (m = R) && bool_decide (x.2 = R))) (held t).

Section threads.
Context (prefer : bool).

Definition granted (l : lock) (m : mode) (ts : list thread) : bool :=
  forallb (allows l m) ts &&
  (bool_decide (m = W) || negb prefer || forallb (fun t => negb (wants_write l t)) ts).

(** A step of a call in progress; [i] is the thread that moves. *)
Inductive lock_step : list thread -> list thread -> Prop :=
| step_acquire ts i h l m p :
    ts !! i = Some (mkThread h (Acquire l m :: p)) -> granted l m ts = true ->
    lock_step ts (<[i := mkThread ((l, m) :: h) p]> ts)
| step_release ts i h l p :
    ts !! i = Some (mkThread h (Release l :: p)) ->
    lock_step ts (<[i := mkThread (drop_lock l h) p]> ts).

(** An idle thread starts a call that [ok] admits. *)
Inductive step (ok : call -> bool) : list thread -> list thread -> Prop :=
| step_lock ts ts' : lock_step ts ts' -> step ok ts ts'
| step_call ts i h c :
    ts !! i = Some (mkThread h []) -> ok c = true ->
    step ok ts (<[i := mkThread h (call_locks c)]> ts).

(** ** Calls that respect the order of the locks

    [after p h] runs the steps of one thread: [LData] is never acquired by a thread
    that holds a lock, [LOrder] never by one that holds it, and only what is held is
    released. *)

Definition may_acquire (l : lock) (h : list (lock * mode)) : bool :=
  match l with LData => bool_decide (h = []) | LOrder => bool_decide (LOrder ∉ h.*1) end.

Fixpoint after (p : list act) (h : list (lock * mode)) : option (list (lock * mode)) :=
  match p with
  | [] => Some h
  | Acquire l m :: p' => if may_acquire l h then after p' ((l, m) :: h) else None
  | Release l :: p' => if bool_decide (l ∈ h.*1) then after p' (drop_lock l h) else None
  end.

Lemma after_app p q h : after (p ++ q) h = after p h ≫= after q.
Proof.
  revert h. induction p as [|[l m|l] p IH]; intros h; simpl; [done|..]; (case_match; [apply IH|done]).
Qed.

Lemma after_concat ps h : Forall (fun p => after p h = Some h) ps -> after (concat ps) h = Some h.
Proof. induction 1 as [|p ps H _ IH]; [done|]. simpl. rewrite after_app, H. apply IH. Qed.

Lemma ordered_calls c : no_eviction c = true -> after (call_locks c) [] = Some [].
Proof.
  assert (Hn : forall e, no_round e = true -> ensure_memory_locks e = []) by (by intros [[|] []]).
  assert (Hd : forall b h, h = [] -> after (delete_locks b) h = Some h) by (by intros [] ? ->).
  destruct c as [f|fs|e|[] e|[] e|[] e|b|x|x|bs| |]; intros H; try (simpl; unfold set_locks; by rewrite ?(Hn _ H)); try done.
  - by destruct f as [| |[]].
  - change (call_locks (GetMulti fs)) with (get_multi_locks fs). unfold get_multi_locks.
    rewrite after_app. simpl. rewrite after_app, after_concat.
    + simpl. apply after_concat. apply Forall_fmap, Forall_true. intros [| |b]; [done|done|by apply Hd].
    + apply Forall_fmap, Forall_true. by intros [].
  - by destruct b.
  - destruct x as [| |e []]; simpl in *; try done; by rewrite (Hn _ H).
  - destruct x as [| |e []]; simpl in *; try done; by rewrite (Hn _ H).
  - change (after (concat (delete_locks <$> bs)) [] = Some []). apply after_concat.
    apply Forall_fmap, Forall_true. intros b. by apply Hd.
Qed.

(** Every thread follows the order. *)
Definition ordered (t : thread) : Prop := after (todo t) (held t) = Some [].

Lemma ordered_step ts ts' : lock_step ts ts' -> Forall ordered ts -> Forall ordered ts'.
Proof.
  intros H Ho. rewrite Forall_lookup in Ho. destruct H as [ts i h l m p Hi _|ts i h l p Hi].
  - apply Ho in Hi as H. unfold ordered in H. simpl in H. case_match; [|done].
    apply Forall_insert; [by apply Forall_lookup|done].
  - apply Ho in Hi as H. unfold ordered in H. simpl in H. case_match; [|done].
    apply Forall_insert; [by apply Forall_lookup|done].
Qed.

Lemma ordered_reachable n ts : rtc (step no_eviction) (replicate n idle) ts -> Forall ordered ts.
Proof.
  intros H. assert (H0 : Forall ordered (replicate n idle)) by (by apply Forall_replicate).
  induction H as [|ts ts' ts'' Hs _ IH]; [done|]. apply IH. destruct Hs as [ts ts' Hs|ts i h c Hi Hc].
  - by eapply ordered_step.
  - rewrite Forall_lookup in H0. apply H0 in Hi as H. unfold ordered in H. injection H as ->.
    apply Forall_insert; [by apply Forall_lookup|]. by apply ordered_calls.
Qed.

(** ** Progress *)

Definition free (l : lock) (ts : list thread) : Prop := Forall (fun t => l ∉ (held t).*1) ts.

Lemma free_allows l m ts : free l ts -> forallb (allows l m) ts = true.
Proof.
  unfold free. rewrite Forall_forall. intros Hf. apply forallb_forall. intros t Ht%list_elem_of_In.
  apply forallb_forall. intros x Hx%list_elem_of_In. apply orb_true_iff. left. apply bool_decide_eq_true. intros <-.
  apply (Hf t Ht). apply list_elem_of_fmap. by exists x.
Qed.

(** Somebody gets a free lock that somebody waits for: the writer that waits, if any. *)
Lemma free_progress l m ts i h p :
  free l ts -> ts !! i = Some (mkThread h (Acquire l m :: p)) -> exists ts', lock_step ts ts'.
Proof.
  intros Hf Hi. destruct (forallb (fun t => negb (wants_write l t)) ts) eqn:E.
  - eexists. eapply step_acquire; [done|]. unfold granted. by rewrite free_allows, E, !orb_true_r.
  - assert (Hw : exists t, t ∈ ts /\ wants_write l t = true).
    { apply not_true_iff_false in E. destruct (decide (Exists (fun t => wants_write l t = true) ts)) as [Hx|Hx].
      - by apply Exists_exists in Hx.
      - exfalso. apply E, forallb_forall. intros t Ht%list_elem_of_In. apply negb_true_iff, not_true_iff_false.
        intros Hw. apply Hx, Exists_exists. by exists t. }
    destruct Hw as (t & [j Hj]%list_elem_of_lookup & Hw). destruct t as [h' [|[l' []|] q]]; try done.
    unfold wants_write in Hw. simpl in Hw. apply bool_decide_eq_true in Hw as ->.
    eexists. eapply step_acquire; [done|]. unfold granted. by rewrite free_allows.
Qed.

Lemma ordered_progress ts :
  Forall ordered ts -> (forall ts', ~ lock_step ts ts') -> Forall (fun t => t = idle) ts.
Proof.
  intros Ho Hstuck. rewrite Forall_lookup in Ho.
  assert (Hrel : forall i h l p, ts !! i <> Some (mkThread h (Release l :: p))).
  { intros i h l p Hi. eapply Hstuck. by eapply step_release. }
  assert (Hacq : forall l, free l ts -> forall i h m p, ts !! i <> Some (mkThread h (Acquire l m :: p))).
  { intros l Hf i h m p Hi. destruct (free_progress _ _ _ _ _ _ Hf Hi) as [ts' H]. by eapply Hstuck. }
  (* a thread that holds a lock waits for [LOrder] and does not hold it *)
  assert (Hheld : forall i h p, ts !! i = Some (mkThread h p) -> h <> [] ->
    exists m q, p = Acquire LOrder m :: q /\ LOrder ∉ h.*1).
  { intros i h p Hi Hh. pose proof (Ho _ _ Hi) as H. unfold ordered in H. simpl in H.
    destruct p as [|[[] m|l] q]; simpl in H; [congruence| | |by apply Hrel in Hi].
    - rewrite bool_decide_eq_false_2 in H; done.
    - case_bool_decide; [eauto|done]. }
  assert (HO : free LOrder ts).
  { apply Forall_lookup. intros i [h p] Hi Hin. destruct (Hheld _ _ _ Hi) as (m & q & _ & Hn); [|done].
    intros ->. by apply elem_of_nil in Hin. }
  assert (Hnone : forall i h p, ts !! i = Some (mkThread h p) -> h = []).
  { intros i h p Hi. destruct h as [|x h]; [done|]. destruct (Hheld _ _ _ Hi) as (m & q & -> & _); [done|].
    by apply (Hacq LOrder) in Hi. }
  assert (HD : free LData ts).
  { apply Forall_lookup. intros i [h p] Hi. rewrite (Hnone _ _ _ Hi). apply not_elem_of_nil. }
  apply Forall_lookup. intros i [h [|[l m|l] p]] Hi.
  - by rewrite (Hnone _ _ _ Hi).
  - destruct l; [by apply (Hacq LData) in Hi|by apply (Hacq LOrder) in Hi].
  - by apply Hrel in Hi.
Qed.

Definition remaining (ts : list thread) : nat := foldr (fun t n => length (todo t) + n)%nat 0%nat ts.

Lemma remaining_insert ts i t t' :
  ts !! i = Some t -> (remaining (<[i := t']> ts) + length (todo t) = remaining ts + length (todo t'))%nat.
Proof.
  unfold remaining. revert i. induction ts as [|x ts IH]; intros i Hi; [done|]. destruct i as [|i]; simpl in *.
  - injection Hi as ->. lia.
  - specialize (IH _ Hi). lia.
Qed.

Lemma lock_step_remaining ts ts' : lock_step ts ts' -> (remaining ts' < remaining ts)%nat.
Proof.
  destruct 1 as [ts i h l m p Hi _|ts i h l p Hi].
  - pose proof (remaining_insert ts i _ (mkThread ((l, m) :: h) p) Hi). simpl in *. lia.
  - pose proof (remaining_insert ts i _ (mkThread (drop_lock l h) p) Hi). simpl in *. lia.
Qed.

(** C23: As long as no call has to evict, the locks never deadlock, whatever the number of
    threads, the calls they make and the order in which they run: the locks are taken
    in the order data, access order, and a run that starts no new calls ends after as
    many steps as the calls have left, and cannot end before every call has returned. *)
Theorem calls_complete n ts :
  rtc (step no_eviction) (replicate n idle) ts ->
  (forall ts', lock_step ts ts' -> (remaining ts' < remaining ts)%nat) /\
  ((forall ts', ~ lock_step ts ts') -> Forall (fun t => t = idle) ts).
Proof.
  intros H. split; [intros ts'; apply lock_step_remaining|]. apply ordered_progress. by eapply ordered_reachable.
Qed.

(** ** Deadlock *)

Definition needs_data (t : thread) : Prop := todo t = [] \/ exists m, Acquire LData m ∈ todo t.

Lemma call_needs_data c : exists m, Acquire LData m ∈ call_locks c.
Proof.
  assert (Hs : forall e, exists m, Acquire LData m ∈ set_locks e).
  { intros e. exists W. unfold set_locks. apply elem_of_app. right. by left. }
  destruct c as [[]|fs|e|b e|b e|[] e|b|[]|[]|bs| |]; try apply Hs; try (eexists; simpl; by left).
Qed.

(** Two threads that wait for each other; the others, if they are in a call, have [LData]
    still to come. *)
Definition deadlocked (t0 t1 : thread) (ts : list thread) : Prop :=
  exists rest, ts = t0 :: t1 :: rest /\ Forall needs_data rest.

Section deadlock.
Context (p0 p1 : list act).
Let t0 : thread := mkThread [(LOrder, R)] (Acquire LData R :: p0).
Let t1 : thread := mkThread [(LData, W)] (Acquire LOrder W :: p1).

Lemma refused m l rest :
  granted l m (t0 :: t1 :: rest) = true -> l <> LData /\ m <> W.
Proof.
  unfold granted. intros [H _]%andb_true_iff. simpl in H. unfold allows in H. simpl in H.
  destruct l, m; simpl in H; repeat rewrite ?andb_true_iff in H; split; try done; naive_solver.
Qed.

Lemma deadlocked_step ok ts ts' :
  deadlocked t0 t1 ts -> step ok ts ts' ->
  deadlocked t0 t1 ts' /\
  forall i t t', ts !! i = Some t -> ts' !! i = Some t' -> todo t <> [] -> todo t' <> [].
Proof.
  intros (rest & -> & Hr) Hs.
  assert (Hgoal : forall i t t', (t0 :: t1 :: rest) !! i = Some t -> (2 <= i)%nat -> needs_data t' ->
    (todo t <> [] -> todo t' <> []) -> ts' = <[i := t']> (t0 :: t1 :: rest) ->
    deadlocked t0 t1 ts' /\ forall j x x', (t0 :: t1 :: rest) !! j = Some x -> ts' !! j = Some x' ->
      todo x <> [] -> todo x' <> []).
  { intros i t t' Hi Hi2 Hn Ht ->. split.
    - destruct i as [|[|i]]; [lia..|]. exists (<[i := t']> rest). split; [done|]. by apply Forall_insert.
    - intros j x x' Hj Hj'. destruct (decide (i = j)) as [<-|Hne].
      + rewrite list_lookup_insert_eq in Hj' by (by eapply lookup_lt_Some). by simplify_eq.
      + rewrite list_lookup_insert_ne in Hj' by done. congruence. }
  assert (Hrest : forall i t, (t0 :: t1 :: rest) !! i = Some t -> (2 <= i)%nat -> needs_data t).
  { intros [|[|i]] t Hi Hi2; [lia..|]. rewrite Forall_lookup in Hr. by eapply Hr. }
  assert (Hdata : forall t m, Acquire LData m ∈ todo t -> todo t <> []).
  { intros t m Hin E. rewrite E in Hin. by apply elem_of_nil in Hin. }
  inversion Hs as [? ? [? i h l m p Hi Hg|? i h l p Hi]|? i h c Hi]; subst.
  - destruct (refused _ _ _ Hg) as [Hl Hm].
    assert (Hi2 : (2 <= i)%nat) by (destruct i as [|[|i]]; simpl in Hi; simplify_eq; lia).
    destruct (Hrest _ _ Hi Hi2) as [|(m' & Hin)]; [done|]. simpl in Hin.
    apply elem_of_cons in Hin as [[= <- <-]|Hin]; [done|].
    eapply (Hgoal i _ (mkThread ((l, m) :: h) p)); [done|done|right; by eexists|intros _; by eapply Hdata|done].
  - assert (Hi2 : (2 <= i)%nat) by (destruct i as [|[|i]]; simpl in Hi; simplify_eq; lia).
    destruct (Hrest _ _ Hi Hi2) as [|(m' & Hin)]; [done|]. simpl in Hin.
    apply elem_of_cons in Hin as [|Hin]; [done|].
    eapply (Hgoal i _ (mkThread (drop_lock l h) p)); [done|done|right; by eexists|intros _; by eapply Hdata|done].
  - assert (Hi2 : (2 <= i)%nat) by (destruct i as [|[|i]]; simpl in Hi; simplify_eq; lia).
    eapply (Hgoal i _ (mkThread h (call_locks c))); [done|done|right; apply call_needs_data| |done]. done.
Qed.

End deadlock.

Abbreviation any_call := (fun _ : call => true).

(** The first thread evicts, the second deletes. *)
Definition evicting (e : evictions) : thread := mkThread [(LOrder, R)] (drop 1 (set_locks e)).
Definition deleting : thread := mkThread [(LData, W)] (drop 1 (delete_locks true)).

Lemma eviction_starts e :
  no_round e = false -> exists q, set_locks e = Acquire LOrder R :: Acquire LData R :: q.
Proof. destruct e as [[|b bs] []]; intros H; [by eexists|discriminate H|by eexists..]. Qed.

Lemma idle_allows l m k : forallb (allows l m) (replicate k idle) = true.
Proof. by induction k. Qed.

Lemma idle_no_write l k : forallb (fun t => negb (wants_write l t)) (replicate k idle) = true.
Proof. by induction k. Qed.

Lemma deadlock_reached e k :
  no_round e = false ->
  rtc (step any_call) (replicate (S (S k)) idle) (evicting e :: deleting :: replicate k idle).
Proof.
  intros (q & Eq)%eviction_starts. unfold evicting. rewrite Eq. simpl.
  eapply (rtc_l _ _ (mkThread [] (set_locks e) :: idle :: replicate k idle));
    [by eapply (step_call _ (idle :: idle :: replicate k idle) 0 [] (Set_ e))|].
  rewrite Eq. eapply (rtc_l _ _ (mkThread [(LOrder, R)] (Acquire LData R :: q) :: idle :: replicate k idle)).
  { eapply step_lock, (step_acquire (_ :: idle :: replicate k idle) 0); [done|]. unfold granted. simpl.
    by rewrite idle_allows, idle_no_write, orb_true_r. }
  eapply (rtc_l _ _ (_ :: mkThread [] (delete_locks true) :: replicate k idle));
    [by eapply (step_call _ (_ :: idle :: replicate k idle) 1 [] (Delete true))|].
  apply rtc_once, step_lock, (step_acquire (_ :: _ :: replicate k idle) 1); [done|]. unfold granted. simpl.
  by rewrite idle_allows.
Qed.

(** C24: One thread that evicts and one that deletes can deadlock: the eviction holds the
    access order and waits for the data, the deletion holds the data and waits for the
    access order.  From then on neither ever takes another step, and no call of any
    other thread ever returns. *)
Theorem eviction_deadlocks e k :
  no_round e = false ->
  exists ts, rtc (step any_call) (replicate (S (S k)) idle) ts /\
    ts !! 0%nat = Some (evicting e) /\ ts !! 1%nat = Some deleting /\
    forall ts' ts'', rtc (step any_call) ts ts' -> step any_call ts' ts'' ->
      ts'' !! 0%nat = Some (evicting e) /\ ts'' !! 1%nat = Some deleting /\
      forall i t t', ts' !! i = Some t -> ts'' !! i = Some t' -> todo t <> [] -> todo t' <> [].
Proof.
  intros He. exists (evicting e :: deleting :: replicate k idle). split_and!; [by apply deadlock_reached|done|done|].
  intros ts' ts'' Hr Hs. destruct (eviction_starts _ He) as (q & Eq).
  assert (E0 : evicting e = mkThread [(LOrder, R)] (Acquire LData R :: q)) by (unfold evicting; by rewrite Eq).
  assert (H0 : deadlocked (evicting e) deleting (evicting e :: deleting :: replicate k idle)).
  { exists (replicate k idle). split; [done|]. apply Forall_replicate. by left. }
  assert (Hd : deadlocked (evicting e) deleting ts').
  { rewrite E0 in *. clear Hs. induction Hr as [|x y z Hxy _ IH]; [done|]. apply IH. by eapply deadlocked_step. }
  rewrite E0 in *. destruct (deadlocked_step q _ _ _ _ Hd Hs) as ((rest & -> & _) & H). by split_and!.
Qed.

End threads.

(** ** Witnesses *)

(** A thread that looks up a live key, in the middle of its call, next to an idle one. *)
Lemma calls_complete_witness :
  Forall (fun t => t = idle) [idle; idle] /\
  forall ts', lock_step true [mkThread [(LData, R)] (drop 1 (get_locks Live)); idle] ts' -> (remaining ts' < 3)%nat.
Proof.
  split.
  - apply (calls_complete true 2 [idle; idle]); [apply rtc_refl|].
    intros ts' H. inversion H as [? i h l m p Hi|? i h l p Hi]; subst; by destruct i as [|[|]].
  - apply (calls_complete true 2 [mkThread [(LData, R)] (drop 1 (get_locks Live)); idle]).
    eapply (rtc_l _ _ [mkThread [] (get_locks Live); idle]);
      [by eapply (step_call _ _ [idle; idle] 0 [] (Get Live))|].
    apply rtc_once, step_lock. by apply (step_acquire true [mkThread [] (get_locks Live); idle] 0 [] LData R).
Defined.

Lemma eviction_deadlocks_witness :
  exists ts, rtc (step false (fun _ => true)) (replicate 4 idle) ts /\
    ts !! 0%nat = Some (evicting (mkEvictions [true] false)) /\ ts !! 1%nat = Some deleting.
Proof.
  destruct (eviction_deadlocks false (mkEvictions [true] false) 2 eq_refl) as (ts & H & H0 & H1 & _).
  by exists ts.
Defined.
