(* ===== verification/Concurrent.v ===== *)
(** * The store shared by several threads (src/storage.rs)

    The same operations as in [Storage], cut into the pieces that other threads can
    see apart.  A thread inside an operation is at a program point [pc]; [act] is what
    it does in one piece, and [move] lets one thread of several do its next piece.
    Runs over all schedules are all interleavings.

    The pieces: what happens under the guard of [data] is hidden from the threads that
    need this guard, but [memory_used] and [cas_counter] are also read and written
    without it, and readers share the guard while they record accesses.  A piece
    therefore touches at most one counter that another thread can reach at that
    moment, and a guard is released where the code drops it.  Each piece reads the
    clock on its own.  Waiting for a guard is waiting for a turn at which it is free;
    which waits never end is the subject of [Locks]. *)

From S2P Require Import Prelude RustStd Storage StorageOps.

(** The guard of [data] a thread holds or asks for. *)
Inductive guard : Type := Shared | Exclusive.

#[export] Instance guard_eq_dec : EqDecision guard.
Proof. solve_decision. Defined.

(** What is left to do after [ensure_memory_available]. *)
Inductive task : Type :=
| TSet (key : bytes) (item : CacheItem)
| TCas (key : bytes) (item : CacheItem)
| TExtend (key extra : bytes) (front : bool).

(** What a reader goes on with after recording an access: [get] returns the item,
    [get_multi] scans the remaining keys. *)
Inductive reader : Type :=
| ThenReturn (item : CacheItem)
| ThenScan (keys : list bytes) (results : list (bytes * CacheItem)) (expired_keys : list bytes).

Inductive pc : Type :=
| Begin (o : op)
| Build (key val : bytes) (flg ttl : Z)
| Ensure (needed : Z) (t : task)
| FindLru (needed : Z) (t : task)
| Evict (key : bytes) (needed : Z) (t : task)
| Finish (t : task)
| Replacing (key : bytes) (item : CacheItem)
| Matched (key : bytes) (old_item : CacheItem) (val : bytes) (flg ttl : Z)
| Refund (key : bytes) (old_item item : CacheItem)
| Extending (key : bytes) (item : CacheItem) (extra : bytes) (front : bool)
| Writing (key : bytes) (item : CacheItem) (additional_size : Z)
| Scanning (keys : list bytes) (results : list (bytes * CacheItem)) (expired_keys : list bytes)
| Recording (key : bytes) (seq : Z) (rd : reader)
| DeleteAll (keys : list bytes) (r : reply)
| Return (r : reply).

(** The guard a thread keeps between two pieces. *)
Definition holds (p : pc) : option guard :=
  match p with
  | Replacing _ _ | Matched _ _ _ _ _ | Refund _ _ _ | Extending _ _ _ _ | Writing _ _ _ => Some Exclusive
  | Scanning _ _ _ | Recording _ _ _ => Some Shared
  | _ => None
  end.

(** The guard the next piece starts by taking. *)
Definition wants (p : pc) : option guard :=
  match p with
  | Begin o =>
      match o with
      | OpGet _ | OpGetMulti _ | OpAdd _ _ _ _ | OpReplace _ _ _ _ | OpCleanup | OpStats => Some Shared
      | OpCas _ _ _ _ _ | OpAppend _ _ | OpPrepend _ _ | OpDelete _ | OpFlush => Some Exclusive
      | OpSet _ _ _ _ => None
      end
  | FindLru _ _ => Some Shared
  | Evict _ _ _ | Finish _ | DeleteAll (_ :: _) _ => Some Exclusive
  | _ => None
  end.

(** The new value of [append] and [prepend]. *)
Definition extend_value (front : bool) (extra val : bytes) : bytes :=
  if front then extra ++ val else val ++ extra.

Section threads.
Context `{BP : BuildProfile, LY : Layout, HO : HashOrder}.

(** What [ensure_memory_available] is asked for. *)
Definition task_need (t : task) : Z :=
  match t with
  | TSet key item | TCas key item => memory_size item + len key
  | TExtend _ extra _ => len extra
  end.

(** The two halves of [record_access]. *)
Definition next_access : st Storage Z := fun s =>
  Done (access_counter s)
    (mkStorage (data s) (memory_used s) (max_memory s) (default_ttl s) (cas_counter s)
       (access_order s) (u64 (access_counter s + 1)) (data_poisoned s)).
Definition insert_order (key : bytes) (seq : Z) : st Storage unit :=
  modify (with_order (<[key := seq]>)).

(** The head of [set], before it makes room. *)
Definition build_item (now : Z) (key val : bytes) (flg ttl : Z) : st Storage pc :=
  expires ← calculate_expiry now ttl;
  cas ← next_cas_unique;
  let t := TSet key (mkItem val flg expires cas now) in
  mret (Ensure (task_need t) t).

(** The lookup of [append] and [prepend], up to the memory check. *)
Definition begin_extend (now : Z) (key extra : bytes) (front : bool) : st Storage pc :=
  lock_data;;
  d ← gets data;
  match d !! key with
  | None => mret (Return (RRes NotStored))
  | Some item =>
      if is_expired now item then remove_expired key item;; mret (Return (RRes NotStored))
      else
        current_used ← gets memory_used;
        total ← holding_write (lift (usize_add current_used (len extra)));
        max ← gets max_memory;
        if max <? total then mret (Ensure (len extra) (TExtend key extra front))
        else mret (Extending key item extra front)
  end.

(** The first piece of each operation. *)
Definition begin_get (now : Z) (key : bytes) : st Storage pc := fun s =>
  if data_poisoned s then Done (Return (RItem None)) s
  else match data s !! key with
       | Some item =>
           if is_expired now item then Done (DeleteAll [key] (RItem None)) s
           else (seq ← next_access; mret (Recording key seq (ThenReturn item))) s
       | None => Done (Return (RItem None)) s
       end.

Definition begin_get_multi (keys : list bytes) : st Storage pc :=
  lock_data;; mret (Scanning keys [] []).

Definition begin_add (now : Z) (key val : bytes) (flg ttl : Z) : st Storage pc :=
  lock_data;;
  d ← gets data;
  match d !! key with
  | Some item => if negb (is_expired now item) then mret (Return (RRes NotStored))
                 else mret (Build key val flg ttl)
  | None => mret (Build key val flg ttl)
  end.

Definition begin_replace (now : Z) (key val : bytes) (flg ttl : Z) : st Storage pc :=
  lock_data;;
  d ← gets data;
  match d !! key with
  | Some item => if negb (is_expired now item) then mret (Build key val flg ttl)
                 else mret (Return (RRes NotStored))
  | None => mret (Return (RRes NotStored))
  end.

Definition begin_cas (now : Z) (key val : bytes) (flg ttl unique : Z) : st Storage pc :=
  lock_data;;
  d ← gets data;
  match d !! key with
  | None => mret (Return (RRes NotFound))
  | Some item =>
      if is_expired now item then remove_expired key item;; mret (Return (RRes NotFound))
      else if negb (cas_unique item =? unique) then mret (Return (RRes CasMismatch))
      else mret (Matched key item val flg ttl)
  end.

Definition begin_cleanup (now : Z) : st Storage pc :=
  lock_data;;
  d ← gets data;
  mret (DeleteAll (expired_keys now d) (RCount (len (expired_keys now d)))).

Definition begin (now : Z) (o : op) : st Storage pc :=
  match o with
  | OpGet key => begin_get now key
  | OpGetMulti keys => begin_get_multi keys
  | OpSet key val flg ttl => build_item now key val flg ttl
  | OpAdd key val flg ttl => begin_add now key val flg ttl
  | OpReplace key val flg ttl => begin_replace now key val flg ttl
  | OpCas key val flg ttl unique => begin_cas now key val flg ttl unique
  | OpAppend key extra => begin_extend now key extra false
  | OpPrepend key extra => begin_extend now key extra true
  | OpDelete key => r ← delete key; mret (Return (RRes r))
  | OpCleanup => begin_cleanup now
  | OpFlush => flush_all;; mret (Return RUnit)
  | OpStats => x ← stats; mret (Return (RStats x))
  end.

(** One round of the loop of [ensure_memory_available]: the load of the counter, the
    search for the entry to evict. *)
Definition check_room (needed : Z) (t : task) : st Storage pc := fun s =>
  match usize_add (memory_used s) needed with
  | Panic => Panicked s
  | Val total => if max_memory s <? total then Done (FindLru needed t) s else Done (Finish t) s
  end.

Definition choose_victim (now needed : Z) (t : task) : st Storage pc := fun s =>
  match find_lru_key now s with
  | Some key => Done (Evict key needed t) s
  | None => Done (Finish t) s
  end.

(** The guard is taken again after making room. *)
Definition finish_set (key : bytes) (item : CacheItem) : st Storage pc :=
  d ← gets data;
  match d !! key with
  | Some old_item => fetch_sub (memory_size old_item + len key)
  | None => mret tt
  end;;
  mret (Replacing key item).

Definition finish_extend (now : Z) (key extra : bytes) (front : bool) : st Storage pc :=
  d ← gets data;
  match d !! key with
  | Some item =>
      if negb (is_expired now item) then mret (Extending key item extra front)
      else mret (Return (RRes NotStored))
  | None => mret (Return (RRes NotStored))
  end.

Definition finish (now : Z) (t : task) : st Storage pc :=
  lock_data;;
  match t with
  | TSet key item => finish_set key item
  | TCas key item => mret (Writing key item (memory_size item + len key))
  | TExtend key extra front => finish_extend now key extra front
  end.

(** The two pieces of [cas] between the comparison and the release of the guard. *)
Definition build_successor (now : Z) (key : bytes) (old_item : CacheItem) (val : bytes) (flg ttl : Z) : st Storage pc :=
  expires ← holding_write (calculate_expiry now ttl);
  c ← next_cas_unique;
  mret (Refund key old_item (mkItem val flg expires c now)).

Definition refund (key : bytes) (old_item item : CacheItem) : st Storage pc :=
  fetch_sub (memory_size old_item + len key);;
  mret (Ensure (task_need (TCas key item)) (TCas key item)).

(** [append] and [prepend] give the longer value a new token. *)
Definition extended (now : Z) (key : bytes) (item : CacheItem) (extra : bytes) (front : bool) : st Storage pc :=
  c ← next_cas_unique;
  mret (Writing key (mkItem (extend_value front extra (value item)) (flags item)
                       (expires_at item) c now) (len extra)).

(** The tail of every write: count the bytes, put the item in place, record the
    access and release the guard. *)
Definition write_item (key : bytes) (item : CacheItem) (size : Z) : st Storage pc :=
  fetch_add size;;
  modify (with_data (<[key := item]>));;
  record_access key;;
  mret (Return (RRes Stored)).

(** One key of [get_multi]. *)
Definition scan (now : Z) (keys : list bytes) (results : list (bytes * CacheItem)) (expired : list bytes) :
    st Storage pc := fun s =>
  match keys with
  | [] => Done (DeleteAll expired (RItems results)) s
  | key :: keys' =>
      match data s !! key with
      | Some item =>
          if is_expired now item then Done (Scanning keys' results (expired ++ [key])) s
          else (seq ← next_access;
                mret (Recording key seq (ThenScan keys' (results ++ [(key, item)]) expired))) s
      | None => Done (Scanning keys' results expired) s
      end
  end.

Definition recorded (key : bytes) (seq : Z) (rd : reader) : st Storage pc :=
  insert_order key seq;;
  match rd with
  | ThenReturn item => mret (Return (RItem (Some item)))
  | ThenScan keys results expired => mret (Scanning keys results expired)
  end.

(** The deletions of expired entries by [get], [get_multi] and [cleanup_expired]. *)
Definition delete_next (keys : list bytes) (r : reply) : st Storage pc :=
  match keys with
  | [] => mret (Return r)
  | key :: keys' => delete key;; mret (DeleteAll keys' r)
  end.

(** One piece of an operation, from a program point to the next. *)
Definition act (now : Z) (p : pc) : st Storage pc :=
  match p with
  | Begin o => begin now o
  | Build key val flg ttl => build_item now key val flg ttl
  | Ensure needed t => check_room needed t
  | FindLru needed t => choose_victim now needed t
  | Evict key needed t => delete key;; mret (Ensure needed t)
  | Finish t => finish now t
  | Replacing key item => write_item key item (memory_size item + len key)
  | Matched key old_item val flg ttl => build_successor now key old_item val flg ttl
  | Refund key old_item item => refund key old_item item
  | Extending key item extra front => extended now key item extra front
  | Writing key item size => write_item key item size
  | Scanning keys results expired => scan now keys results expired
  | Recording key seq rd => recorded key seq rd
  | DeleteAll keys r => delete_next keys r
  | Return r => mret (Return r)
  end.

(** ** Threads and schedules *)

Inductive thread : Type :=
| Idle
| Busy (o : op) (p : pc)
| Crashed (o : op).

Record config := mkConfig { store : Storage; threads : list thread }.

(** What can be seen of a run: calls, replies, and the entries the store drops on its
    own (eviction and expiry). *)
Inductive event : Type :=
| Call (i : nat) (o : op)
| Ret (i : nat) (r : reply)
| Forgot (key : bytes).

Definition guard_of (t : thread) : option guard :=
  match t with Busy _ p => holds p | _ => None end.

(** The guard is granted when no other thread's guard excludes it. *)
Definition granted (p : pc) (ts : list thread) : bool :=
  match wants p with
  | None => true
  | Some Shared => forallb (fun t => bool_decide (guard_of t <> Some Exclusive)) ts
  | Some Exclusive => forallb (fun t => bool_decide (guard_of t = None)) ts
  end.

(** The entry a piece drops although no client asked for it. *)
Definition forgets (now : Z) (p : pc) (s : Storage) : list event :=
  if data_poisoned s then [] else
  match p with
  | Evict key _ _ | DeleteAll (key :: _) _ =>
      match data s !! key with Some _ => [Forgot key] | None => [] end
  | Begin (OpCas key _ _ _ _) | Begin (OpAppend key _) | Begin (OpPrepend key _) =>
      match data s !! key with
      | Some item => if is_expired now item then [Forgot key] else []
      | None => []
      end
  | _ => []
  end.

(** After a piece: a thread that returned is idle, a thread that panicked is gone. *)
Definition settle (i : nat) (o : op) (out : outcome Storage pc) : list event * thread * Storage :=
  match out with
  | Done (Return r) s => ([Ret i r], Idle, s)
  | Done p s => ([], Busy o p, s)
  | Panicked s | Running s => ([], Crashed o, s)
  end.

(** A turn of thread [i]: it starts an operation, or does its next piece at [now]. *)
Inductive turn : Type := Start (o : op) | Go (now : Z).

Definition move (c : config) (i : nat) (u : turn) : option (list event * config) :=
  match threads c !! i, u with
  | Some Idle, Start o =>
      Some ([Call i o], mkConfig (store c) (<[i := Busy o (Begin o)]> (threads c)))
  | Some (Busy o p), Go now =>
      if granted p (threads c) then
        let '(evs, t, s) := settle i o (act now p (store c)) in
        Some (forgets now p (store c) ++ evs, mkConfig s (<[i := t]> (threads c)))
      else None
  | _, _ => None
  end.

(** A schedule, run from [c]. *)
Fixpoint play (c : config) (sched : list (nat * turn)) : option (list event * config) :=
  match sched with
  | [] => Some ([], c)
  | (i, u) :: sched' =>
      '(evs, c1) ← move c i u;
      '(evs', c2) ← play c1 sched';
      Some (evs ++ evs', c2)
  end.

Definition start (n : nat) (s : Storage) : config := mkConfig s (replicate n Idle).

End threads.

Arguments begin_get /.
Arguments begin_get_multi /.
Arguments begin_add /.
Arguments begin_replace /.
Arguments begin_cas /.
Arguments begin_cleanup /.
Arguments check_room /.
Arguments choose_victim /.
Arguments finish_set /.
Arguments finish_extend /.
Arguments build_successor /.
Arguments refund /.
Arguments extended /.
Arguments scan /.
Arguments recorded /.
Arguments delete_next /.
