(* ===== verification/ConcurrentSolo.v ===== *)
(** * One thread alone runs the sequential operations

    A thread that nobody interrupts does, piece by piece, exactly what [run] says: the
    operations of [Concurrent] are those of [Storage], only cut open. *)

From S2P Require Import Prelude RustStd Storage Concrete StorageFacts StorageInv StorageOps StorageThms.
From S2P Require Import Concurrent.

Section solo.
Context `{BP : BuildProfile, LY : Layout, HO : HashOrder}.
Implicit Types (s : Storage) (k : bytes) (it : CacheItem) (t : task).

(** ** Pieces in sequence *)

Definition piece (now : Z) (x y : outcome Storage pc) : Prop :=
  exists p s, x = Done p s /\ y = act now p s.

Definition leads (now : Z) (p : pc) s (y : outcome Storage pc) : Prop := rtc (piece now) (Done p s) y.

(** What a computation ends in, its value being a program point after [f]. *)
Definition thence {A} (f : A -> pc) (x : outcome Storage A) : outcome Storage pc :=
  match x with
  | Done a s => Done (f a) s
  | Panicked s => Panicked s
  | Running s => Running s
  end.

Lemma leads_act now p s : leads now p s (act now p s).
Proof. apply rtc_once. by exists p, s. Qed.

Lemma leads_trans now p s p1 s1 y : leads now p s (Done p1 s1) -> leads now p1 s1 y -> leads now p s y.
Proof. unfold leads. intros. by etrans. Qed.

Lemma leads_step now p s p1 s1 y : act now p s = Done p1 s1 -> leads now p1 s1 y -> leads now p s y.
Proof. intros E. apply leads_trans. rewrite <- E. apply leads_act. Qed.

Lemma leads_end now p s y : act now p s = y -> leads now p s y.
Proof. intros <-. apply leads_act. Qed.

(** ** The parts of the operations *)

Lemma leads_evict f now needed t s :
  (forall s', evict_loop f now needed s <> Running s') ->
  leads now (Ensure needed t) s (thence (fun _ => Finish t) (evict_loop f now needed s)).
Proof.
  revert s. induction f as [|f IH]; intros s Hr; [by destruct (Hr s)|]. revert Hr. cbn [evict_loop].
  destruct (usize_add _ _) as [tot|] eqn:E; [|intros _; apply leads_end; simpl; by rewrite E].
  destruct (max_memory s <? tot) eqn:Em; [|intros _; apply leads_end; simpl; by rewrite E, Em].
  destruct (find_lru_key now s) as [k|] eqn:Ek; intros Hr;
    (eapply leads_step; [simpl; by rewrite E, Em|]).
  2: { apply leads_end. simpl. by rewrite Ek. }
  eapply leads_step; [simpl; by rewrite Ek|]. revert Hr. unfold mbind, st_bind.
  destruct (delete k s) as [a s1|s1|s1] eqn:Ed; intros Hr.
  - eapply leads_step; [simpl; unfold mbind, st_bind; by rewrite Ed|]. by apply IH.
  - apply leads_end. simpl. unfold mbind, st_bind. by rewrite Ed.
  - by destruct (Hr s1).
Qed.

Lemma leads_ensure now needed t s :
  leads now (Ensure needed t) s (thence (fun _ => Finish t) (ensure_memory_available now needed s)).
Proof. apply leads_evict. intros s'. apply evict_loop_terminates. lia. Qed.

(** Making room and then [p], against the same in one run. *)
Lemma leads_ensure_then now needed t s (rest : st Storage reply) :
  (forall s1, leads now (Finish t) s1 (thence Return (rest s1))) ->
  leads now (Ensure needed t) s
    (thence Return ((ensure_memory_available now needed ≫= fun _ => rest) s)).
Proof.
  intros H. pose proof (leads_ensure now needed t s) as He. unfold mbind, st_bind.
  destruct (ensure_memory_available now needed s) as [[] s1|s1|s1]; [|done..].
  eapply leads_trans; [exact He|apply H].
Qed.

Lemma leads_set_tail now k it s :
  leads now (Finish (TSet k it)) s (thence Return ((
    lock_data;;
    d ← gets data;
    match d !! k with
    | Some old_item => fetch_sub (memory_size old_item + len k)
    | None => mret tt
    end;;
    fetch_add (memory_size it + len k);;
    modify (with_data (<[k := it]>));;
    record_access k;;
    mret (RRes Stored)) s)).
Proof.
  unfold_st. unfold lock_data. destruct (data_poisoned s) eqn:Hp.
  { apply leads_end. simpl. unfold finish, finish_set, lock_data. unfold_st. by rewrite Hp. }
  destruct (data s !! k) as [old|] eqn:Ek;
    (eapply leads_step; [simpl; unfold finish, finish_set, lock_data; unfold_st; by rewrite Hp, Ek|by apply leads_end]).
Qed.

Lemma leads_build now k v f ttl s p :
  act now p s = build_item now k v f ttl s ->
  leads now p s (thence Return ((r ← set now k v f ttl; mret (RRes r)) s)).
Proof.
  intros Ha. unfold set. revert Ha. unfold build_item. unfold_st.
  destruct (calculate_expiry now ttl s) as [e s0|s0|s0] eqn:Ee; [|by apply leads_end..].
  simpl. intros Ha. eapply leads_step; [exact Ha|].
  eapply eq_rect; [apply (leads_ensure_then now _ (TSet k _) _ _ (fun s1 => leads_set_tail now k _ s1))|].
  f_equal. unfold_st. destruct (ensure_memory_available _ _ _) as [[] s1|s1|s1]; [|done..].
  unfold lock_data. destruct (data_poisoned s1); [done|]. by destruct (data s1 !! k).
Qed.

Lemma leads_delete_all now keys r s :
  leads now (DeleteAll keys r) s (thence (fun _ => Return r) (delete_all keys s)).
Proof.
  revert s. induction keys as [|k keys IH]; intros s; [by apply leads_end|]. simpl. unfold_st.
  destruct (delete k s) as [a s1|s1|s1] eqn:E.
  - eapply leads_step; [simpl; unfold_st; by rewrite E|apply IH].
  - apply leads_end. simpl. unfold_st. by rewrite E.
  - apply leads_end. simpl. unfold_st. by rewrite E.
Qed.

Lemma leads_scan now keys results expired s :
  leads now (Scanning keys results expired) s
    (thence (fun x => DeleteAll (expired ++ x.2) (RItems (results ++ x.1))) (get_multi_scan now keys s)).
Proof.
  revert results expired s. induction keys as [|k keys IH]; intros results expired s.
  { apply leads_end. simpl. by rewrite !app_nil_r. }
  cbn [get_multi_scan]. destruct (data s !! k) as [it|] eqn:Ek.
  2: { eapply leads_step; [simpl; by rewrite Ek|apply IH]. }
  unfold_st. destruct (is_expired now it) eqn:Ex.
  - eapply leads_step; [simpl; by rewrite Ek, Ex|].
    eapply eq_rect; [apply IH|]. destruct (get_multi_scan now keys s) as [[]| |]; [|done..].
    simpl. by rewrite <- app_assoc.
  - eapply leads_step; [simpl; unfold_st; by rewrite Ek, Ex|].
    eapply leads_step; [done|]. eapply eq_rect; [apply IH|]. unfold record_access. simpl.
    destruct (get_multi_scan _ _ _) as [[]| |]; [|done..]. simpl. by rewrite <- app_assoc.
Qed.

(** The in-place update of [append] and [prepend]. *)
Lemma leads_extending now k it x front s :
  leads now (Extending k it x front) s
    (thence (fun r => Return (RRes r))
       (update_in_place now k it (extend_value front x (value it)) (len x) s)).
Proof. eapply leads_step; [done|]. by apply leads_end. Qed.

Lemma leads_extend now k x front s p :
  act now p s = begin_extend now k x front s ->
  leads now p s (thence (fun r => Return (RRes r)) (extend_item now k x (extend_value front x) s)).
Proof.
  unfold begin_extend, extend_item. unfold_st. destruct (lock_data s) as [[] s0|s0|s0] eqn:El; [|by apply leads_end..].
  destruct (data s0 !! k) as [it|]; [|by apply leads_end].
  destruct (is_expired now it); [by apply leads_end|].
  destruct (holding_write _ s0) as [tot s1|s1|s1]; [|by apply leads_end..].
  destruct (max_memory s1 <? tot); intros Ha; (eapply leads_step; [exact Ha|]); [|apply leads_extending].
  pose proof (leads_ensure now (len x) (TExtend k x front) s1) as He.
  destruct (ensure_memory_available _ _ s1) as [[] s2|s2|s2]; [|done..]. simpl in He.
  eapply leads_trans; [exact He|]. destruct (lock_data s2) as [[] s3|s3|s3] eqn:E2;
    [|apply leads_end; simpl; unfold finish, finish_extend; unfold_st; by rewrite E2..].
  assert (Hf : act now (Finish (TExtend k x front)) s2 =
    match data s3 !! k with
    | Some it' => if negb (is_expired now it') then Done (Extending k it' x front) s3
                  else Done (Return (RRes NotStored)) s3
    | None => Done (Return (RRes NotStored)) s3
    end).
  { simpl. unfold finish, finish_extend. unfold_st. rewrite E2. destruct (data s3 !! k); [|done]. by destruct (negb _). }
  destruct (data s3 !! k) as [it'|]; [|by apply leads_end].
  destruct (negb _); [|by apply leads_end]. eapply leads_step; [exact Hf|apply leads_extending].
Qed.

(** The part of [cas] after the new item is built. *)
Lemma leads_refund now k old it s :
  leads now (Refund k old it) s (thence (fun r => Return (RRes r)) ((
    fetch_sub (memory_size old + len k);;
    ensure_memory_available now (memory_size it + len k);;
    lock_data;;
    fetch_add (memory_size it + len k);;
    modify (with_data (<[k := it]>));;
    record_access k;;
    mret Stored) s)).
Proof.
  eapply leads_step; [done|]. unfold_st. unfold modify. set (s2 := with_memory _ _).
  pose proof (leads_ensure now (memory_size it + len k) (TCas k it) s2) as He.
  destruct (ensure_memory_available _ _ _) as [[] s3|s3|s3]; [|exact He..].
  eapply leads_trans; [exact He|]. unfold lock_data. destruct (data_poisoned s3) eqn:Hp.
  { apply leads_end. simpl. unfold finish, lock_data. unfold_st. by rewrite Hp. }
  eapply leads_step; [simpl; unfold finish, lock_data; unfold_st; by rewrite Hp|]. by apply leads_end.
Qed.

Lemma leads_cas now k v f ttl u s :
  leads now (Begin (OpCas k v f ttl u)) s (thence (fun r => Return (RRes r)) (cas now k v f ttl u s)).
Proof.
  unfold cas. unfold_st. destruct (lock_data s) as [[] s0|s0|s0] eqn:El;
    [|apply leads_end; simpl; unfold_st; by rewrite El..].
  destruct (data s0 !! k) as [it|] eqn:Ek; [|apply leads_end; simpl; unfold_st; by rewrite El, Ek].
  destruct (is_expired now it) eqn:Ex; [apply leads_end; simpl; unfold_st; by rewrite El, Ek, Ex|].
  destruct (negb _) eqn:Eu; [apply leads_end; simpl; unfold_st; by rewrite El, Ek, Ex, Eu|].
  eapply leads_step; [simpl; unfold_st; by rewrite El, Ek, Ex, Eu|].
  destruct (holding_write _ s0) as [e s1|s1|s1] eqn:E; [|apply leads_end; simpl; unfold_st; by rewrite E..].
  eapply leads_step; [simpl; unfold_st; by rewrite E|]. apply leads_refund.
Qed.

(** [add] and [replace] check the key and go on with [set], or refuse. *)
Lemma leads_checked now o k v f ttl s (refuse : CacheItem -> bool) (absent : bool) :
  begin now o s = (lock_data;; d ← gets data;
    if match d !! k with Some it => refuse it | None => absent end
    then mret (Return (RRes NotStored)) else mret (Build k v f ttl)) s ->
  leads now (Begin o) s (thence (fun r => Return (RRes r)) ((
    lock_data;; d ← gets data;
    if match d !! k with Some it => refuse it | None => absent end
    then mret NotStored else set now k v f ttl) s)).
Proof.
  intros Hb. change (begin now o s) with (act now (Begin o) s) in Hb. revert Hb. unfold_st.
  destruct (lock_data s) as [[] s0|s0|s0]; [|by intros; apply leads_end..].
  destruct (match data s0 !! k with Some it => refuse it | None => absent end); intros Hb; [by apply leads_end|].
  eapply leads_step; [exact Hb|]. pose proof (leads_build now k v f ttl s0 (Build k v f ttl) eq_refl) as H.
  revert H. unfold_st. by destruct (set now k v f ttl s0).
Qed.

Lemma leads_get now k s :
  leads now (Begin (OpGet k)) s (thence (fun i => Return (RItem i)) (get now k s)).
Proof.
  unfold get. unfold_st. destruct (data_poisoned s) eqn:Hp; [apply leads_end; simpl; by rewrite Hp|].
  destruct (data s !! k) as [it|] eqn:Ek; [|apply leads_end; simpl; by rewrite Hp, Ek].
  destruct (is_expired now it) eqn:Ex.
  - eapply leads_step; [simpl; by rewrite Hp, Ek, Ex|].
    pose proof (leads_delete_all now [k] (RItem None) s) as Hd. simpl in Hd. revert Hd. unfold_st.
    by destruct (delete k s).
  - eapply leads_step; [simpl; unfold_st; by rewrite Hp, Ek, Ex|]. by apply leads_end.
Qed.

Lemma leads_get_multi now ks s :
  leads now (Begin (OpGetMulti ks)) s (thence (fun l => Return (RItems l)) (get_multi now ks s)).
Proof.
  unfold get_multi. unfold_st. destruct (lock_data s) as [[] s0|s0|s0] eqn:El;
    [|apply leads_end; simpl; unfold_st; by rewrite El..].
  eapply leads_step; [simpl; unfold_st; by rewrite El|].
  pose proof (leads_scan now ks [] [] s0) as Hs. destruct (get_multi_scan now ks s0) as [[l e] s1| |]; [|done..].
  eapply leads_trans; [exact Hs|]. pose proof (leads_delete_all now e (RItems l) s1) as Hd. simpl.
  by destruct (delete_all e s1) as [[]| |].
Qed.

Lemma leads_cleanup now s :
  leads now (Begin OpCleanup) s (thence (fun n => Return (RCount n)) (cleanup_expired now s)).
Proof.
  unfold cleanup_expired. unfold_st. destruct (lock_data s) as [[] s0|s0|s0] eqn:El;
    [|apply leads_end; simpl; unfold_st; by rewrite El..].
  eapply leads_step; [simpl; unfold_st; by rewrite El|].
  pose proof (leads_delete_all now (expired_keys now (data s0)) (RCount (len (expired_keys now (data s0)))) s0) as Hd.
  by destruct (delete_all _ s0) as [[]| |].
Qed.

(** ** Whole operations *)

Lemma thence_ret {A} (m : st Storage A) (f : A -> reply) s :
  thence (fun a => Return (f a)) (m s) = thence Return ((a ← m; mret (f a)) s).
Proof. unfold_st. by destruct (m s). Qed.

Lemma leads_run now o s : leads now (Begin o) s (thence Return (run now o s)).
Proof.
  destruct o as [k|ks|k v f t|k v f t|k v f t|k v f t u|k x|k x|k| | |]; cbn [run];
    rewrite <- ?thence_ret.
  - apply leads_get.
  - apply leads_get_multi.
  - rewrite thence_ret. by apply leads_build.
  - eapply eq_rect; [apply (leads_checked now _ k v f t s (fun it => negb (is_expired now it)) false)|].
    + simpl. unfold_st. destruct (lock_data s) as [[] s0| |]; [|done..]. by destruct (data s0 !! k); [step|].
    + f_equal. unfold add. unfold_st. destruct (lock_data s) as [[] s0| |]; [|done..].
      by destruct (data s0 !! k); [step|].
  - eapply eq_rect; [apply (leads_checked now _ k v f t s (is_expired now) true)|].
    + simpl. unfold_st. destruct (lock_data s) as [[] s0| |]; [|done..].
      destruct (data s0 !! k); [|done]. by destruct (is_expired _ _).
    + f_equal. unfold replace. unfold_st. destruct (lock_data s) as [[] s0| |]; [|done..].
      destruct (data s0 !! k); [|done]. by destruct (is_expired _ _).
  - apply leads_cas.
  - by apply (leads_extend now k x false).
  - by apply (leads_extend now k x true).
  - rewrite thence_ret. apply leads_end. simpl. unfold_st. by destruct (delete k s).
  - apply leads_cleanup.
  - apply leads_end. simpl. unfold_st. by destruct (flush_all s) as [[]| |].
  - rewrite thence_ret. apply leads_end. simpl. unfold_st. by destruct (stats s).
Qed.

(** ** A schedule with one thread *)

(** The replies a run gives, in order. *)
Definition replies (evs : list event) : list reply :=
  omap (fun e => match e with Ret _ r => Some r | _ => None end) evs.

Lemma replies_app evs evs' : replies (evs ++ evs') = replies evs ++ replies evs'.
Proof. apply omap_app. Qed.

Lemma replies_forgets now p s : replies (forgets now p s) = [].
Proof. unfold forgets. by repeat step. Qed.

Lemma granted_alone o p : granted p [Busy o p] = true.
Proof. unfold granted. destruct p as [[]| | | | | | | | | | | | |[]|]; done. Qed.

(** How a thread stands after an outcome. *)
Definition standing (o : op) (y : outcome Storage pc) : thread :=
  match y with Done (Return _) _ => Idle | Done p _ => Busy o p | _ => Crashed o end.

Definition answer (y : outcome Storage pc) : list reply :=
  match y with Done (Return r) _ => [r] | _ => [] end.

Lemma leads_return now r s y : leads now (Return r) s y -> y = Done (Return r) s.
Proof.
  intros H. unfold leads in H. remember (Done (Return r) s) as x eqn:Ex.
  induction H as [|x y z (p & s' & -> & ->) _ IH]; [done|]. simplify_eq. by apply IH.
Qed.

Lemma move_alone now o p s :
  exists evs, move (mkConfig s [Busy o p]) 0 (Go now) =
    Some (evs, mkConfig (state_of (act now p s)) [standing o (act now p s)]) /\
    replies evs = answer (act now p s).
Proof.
  unfold move. cbn -[act granted forgets]. rewrite granted_alone.
  destruct (act now p s) as [p' s'|s'|s'] eqn:E; [destruct p'| |]; simpl; eexists; (split; [done|]);
    by rewrite replies_app, replies_forgets.
Qed.

Lemma play_leads now o p s y :
  leads now p s y -> (forall r, p <> Return r) -> (forall p' s', y = Done p' s' -> exists r, p' = Return r) ->
  exists n evs, play (mkConfig s [Busy o p]) (replicate n (0%nat, Go now)) =
    Some (evs, mkConfig (state_of y) [standing o y]) /\ replies evs = answer y.
Proof.
  intros H Hp Hy. unfold leads in H. remember (Done p s) as x eqn:Ex. revert p s Ex Hp.
  induction H as [y|x x1 y (q & s0 & -> & ->) Hr IH]; intros p s Ex Hp; simplify_eq.
  { destruct (Hy p s eq_refl) as [r ->]. by destruct (Hp r). }
  destruct (move_alone now o p s) as (evs & Hm & Ha).
  assert (Hend : y = act now p s \/ exists p1 s1, act now p s = Done p1 s1 /\ forall r, p1 <> Return r).
  { destruct (act now p s) as [p1 s1|s1|s1] eqn:E.
    - destruct p1; try (right; by eauto). left. by apply leads_return in Hr.
    - left. inversion Hr as [|? ? ? (? & ? & ? & ?)]; by subst.
    - left. inversion Hr as [|? ? ? (? & ? & ? & ?)]; by subst. }
  destruct Hend as [->|(p1 & s1 & E & Hn)].
  - exists 1%nat, (evs ++ []). cbn [replicate play]. rewrite Hm. simpl. by rewrite app_nil_r.
  - destruct (IH Hy p1 s1 E Hn) as (n & evs' & Hpl & Ha'). exists (S n), (evs ++ evs').
    cbn [replicate play]. rewrite Hm. simpl. rewrite E in Ha |- *.
    assert (Hst : standing o (Done p1 s1) = Busy o p1) by (destruct p1; try done; by destruct (Hn r)).
    rewrite Hst. simpl. rewrite Hpl. simpl. split; [done|]. rewrite replies_app, Ha, Ha'.
    destruct p1; done.
Qed.

(** C19: One thread alone runs the sequential operations: whatever the operation and the
    state, a schedule in which only this thread moves brings it to the state and to the
    reply of the sequential model, and when the operation panics there, the thread
    panics here and leaves the same state behind. *)
Theorem alone_is_sequential now o s :
  exists n evs,
    play (start 1 s) ((0%nat, Start o) :: replicate n (0%nat, Go now)) =
      Some (evs, mkConfig (state_of (run now o s))
                   [match run now o s with Done _ _ => Idle | _ => Crashed o end]) /\
    replies evs = match run now o s with Done r _ => [r] | _ => [] end.
Proof.
  destruct (play_leads now o _ _ _ (leads_run now o s)) as (n & evs & Hpl & Ha); [done| |].
  { intros p' s'. destruct (run now o s); simpl; [|done..]. intros [= <- _]. by eexists. }
  exists n, (Call 0 o :: evs). cbn [play]. simpl. rewrite Hpl. simpl. rewrite Ha.
  by destruct (run now o s).
Qed.

End solo.
