(* ===== verification/ConcurrentSpec.v ===== *)
(** * The cache that concurrent threads see

    The contract of the shared store: a map on which operations take effect between
    their call and their reply, and from which entries may disappear.  All operations
    but three take effect in one step.  [add], [replace] and [cas] need two: one that
    tests the entry, and, when the test passes, a later one that stores, over whatever
    is there by then.  A thread of the contract is idle, has called, has passed the
    test of one of the three, has had its effect and owes the reply, or is gone. *)

From S2P Require Import Prelude RustStd Storage Concrete StorageFacts StorageInv StorageOps Concurrent.

(** ** The contract *)

Section spec.
Context `{HO : HashOrder}.
Implicit Types (m d : gmap bytes CacheItem) (k : bytes) (it : CacheItem).

(** What a reader sees under a key at an instant. *)
Definition visible (now : Z) m k : option CacheItem :=
  match m !! k with
  | Some it => if is_expired now it then None else Some it
  | None => None
  end.

(** The items found for a list of keys, each looked up at its own instant. *)
Inductive reads m : list bytes -> list (bytes * CacheItem) -> Prop :=
| reads_nil : reads m [] []
| reads_miss ks l now k : reads m ks l -> visible now m k = None -> reads m (ks ++ [k]) l
| reads_hit ks l now k it :
    reads m ks l -> visible now m k = Some it -> reads m (ks ++ [k]) (l ++ [(k, it)]).

(** The item a request to store builds. *)
Definition item_for (dttl : Z) (v : bytes) (f ttl : Z) it : Prop :=
  value it = v /\ flags it = f /\ exists now, expiry now ttl dttl = Val (expires_at it).

(** The item [append] or [prepend] makes of an item. *)
Definition extends (front : bool) (x : bytes) it it' : Prop :=
  value it' = extend_value front x (value it) /\ flags it' = flags it /\ expires_at it' = expires_at it.

(** The operations that test the map in one step and store in another, and the tests:
    for [add] nothing may be visible, for [replace] something must be, and for [cas]
    an item with the token of the request. *)
Definition tests (o : op) : bool :=
  match o with OpAdd _ _ _ _ | OpReplace _ _ _ _ | OpCas _ _ _ _ _ => true | _ => false end.

Inductive passes : op -> gmap bytes CacheItem -> Prop :=
| pass_add now k v f t m : visible now m k = None -> passes (OpAdd k v f t) m
| pass_replace now k v f t m : is_Some (visible now m k) -> passes (OpReplace k v f t) m
| pass_cas now k v f t u it m :
    visible now m k = Some it -> cas_unique it = u -> passes (OpCas k v f t u) m.

(** What such an operation puts in the map once its test has passed. *)
Inductive puts (dttl : Z) : op -> bytes -> CacheItem -> Prop :=
| puts_add k v f t it : item_for dttl v f t it -> puts dttl (OpAdd k v f t) k it
| puts_replace k v f t it : item_for dttl v f t it -> puts dttl (OpReplace k v f t) k it
| puts_cas k v f t u it : item_for dttl v f t it -> puts dttl (OpCas k v f t u) k it.

(** The effect of an operation on the map in one step, with its reply: for the three
    operations above, the replies when the test fails.  [broken] says that a thread has
    died while it was writing: readers then see nothing. *)
Inductive effect (dttl : Z) (broken : bool) :
  op -> gmap bytes CacheItem -> reply -> gmap bytes CacheItem -> Prop :=
| eff_get now k x m : visible now m k = x -> effect dttl broken (OpGet k) m (RItem x) m
| eff_get_broken k m : broken = true -> effect dttl broken (OpGet k) m (RItem None) m
| eff_get_multi ks l m : reads m ks l -> effect dttl broken (OpGetMulti ks) m (RItems l) m
| eff_set k v f t it m :
    item_for dttl v f t it -> effect dttl broken (OpSet k v f t) m (RRes Stored) (<[k := it]> m)
| eff_add_refused now k v f t m :
    is_Some (visible now m k) -> effect dttl broken (OpAdd k v f t) m (RRes NotStored) m
| eff_replace_refused now k v f t m :
    visible now m k = None -> effect dttl broken (OpReplace k v f t) m (RRes NotStored) m
| eff_cas_absent k v f t u m :
    m !! k = None -> effect dttl broken (OpCas k v f t u) m (RRes NotFound) m
| eff_cas_mismatch now k v f t u it m :
    visible now m k = Some it -> cas_unique it <> u -> effect dttl broken (OpCas k v f t u) m (RRes CasMismatch) m
| eff_append_refused now k x m :
    visible now m k = None -> effect dttl broken (OpAppend k x) m (RRes NotStored) m
| eff_append now k x it it' m :
    visible now m k = Some it -> extends false x it it' ->
    effect dttl broken (OpAppend k x) m (RRes Stored) (<[k := it']> m)
| eff_prepend_refused now k x m :
    visible now m k = None -> effect dttl broken (OpPrepend k x) m (RRes NotStored) m
| eff_prepend now k x it it' m :
    visible now m k = Some it -> extends true x it it' ->
    effect dttl broken (OpPrepend k x) m (RRes Stored) (<[k := it']> m)
| eff_delete k it m :
    m !! k = Some it -> effect dttl broken (OpDelete k) m (RRes Deleted) (base.delete k m)
| eff_delete_absent k m :
    m !! k = None -> effect dttl broken (OpDelete k) m (RRes NotFound) m
| eff_cleanup now m : effect dttl broken OpCleanup m (RCount (len (expired_keys now m))) m
| eff_flush m : effect dttl broken OpFlush m RUnit ∅
| eff_stats x m : stat_item_count x = Z.of_nat (size m) -> effect dttl broken OpStats m (RStats x) m.

Lemma visible_live now m k it : m !! k = Some it -> is_expired now it = false -> visible now m k = Some it.
Proof. unfold visible. by intros -> ->. Qed.

Lemma visible_expired now m k it : m !! k = Some it -> is_expired now it = true -> visible now m k = None.
Proof. unfold visible. by intros -> ->. Qed.

Lemma visible_absent now m k : m !! k = None -> visible now m k = None.
Proof. unfold visible. by intros ->. Qed.

Lemma visible_is_Some now m k it : m !! k = Some it -> is_expired now it = false -> is_Some (visible now m k).
Proof. intros. eexists. by apply visible_live. Qed.

Inductive athread : Type :=
| AIdle
| APending (o : op)
| AChecked (o : op)
| ADecided (o : op) (r : reply)
| ACrashed (o : op).

(** A step of thread [i], on the map, the flag [broken] and the thread. *)
Inductive astep (dttl : Z) (i : nat) :
  gmap bytes CacheItem * bool * athread -> list event -> gmap bytes CacheItem * bool * athread -> Prop :=
| a_call m b o : astep dttl i (m, b, AIdle) [Call i o] (m, b, APending o)
| a_effect m b o r m' :
    effect dttl b o m r m' -> astep dttl i (m, b, APending o) [] (m', b, ADecided o r)
| a_check m b o : passes o m -> astep dttl i (m, b, APending o) [] (m, b, AChecked o)
| a_store m b o k it :
    puts dttl o k it -> astep dttl i (m, b, AChecked o) [] (<[k := it]> m, b, ADecided o (RRes Stored))
| a_ret m b o r : astep dttl i (m, b, ADecided o r) [Ret i r] (m, b, AIdle)
| a_forget m b t k it :
    m !! k = Some it -> astep dttl i (m, b, t) [Forgot k] (base.delete k m, b, t)
| a_crash m b b' t o :
    t = APending o \/ t = AChecked o \/ (exists r, t = ADecided o r) -> (b = true -> b' = true) ->
    astep dttl i (m, b, t) [] (m, b', ACrashed o).

Record aconfig := mkA { amap : gmap bytes CacheItem; abroken : bool; athreads : list athread }.

(** Runs of the contract, with what can be seen of them. *)
Inductive aruns (dttl : Z) : aconfig -> list event -> aconfig -> Prop :=
| aruns_nil a : aruns dttl a [] a
| aruns_step m b ts i t evs m' b' t' evs' a :
    ts !! i = Some t -> astep dttl i (m, b, t) evs (m', b', t') ->
    aruns dttl (mkA m' b' (<[i := t']> ts)) evs' a ->
    aruns dttl (mkA m b ts) (evs ++ evs') a.

Definition astart (n : nat) m (b : bool) : aconfig := mkA m b (replicate n AIdle).

(** ** Runs of one thread *)

Inductive tsteps (dttl : Z) (i : nat) :
  gmap bytes CacheItem * bool * athread -> list event -> gmap bytes CacheItem * bool * athread -> Prop :=
| ts_nil x : tsteps dttl i x [] x
| ts_step x evs y evs' z :
    astep dttl i x evs y -> tsteps dttl i y evs' z -> tsteps dttl i x (evs ++ evs') z.

Lemma ts_once dttl i x evs y : astep dttl i x evs y -> tsteps dttl i x evs y.
Proof. intros. rewrite <- (app_nil_r evs). by econstructor; [|constructor]. Qed.

Lemma ts_app dttl i x evs y evs' z :
  tsteps dttl i x evs y -> tsteps dttl i y evs' z -> tsteps dttl i x (evs ++ evs') z.
Proof. induction 1; [done|]. intros. rewrite <- app_assoc. by econstructor; eauto. Qed.

Lemma aruns_app dttl a evs a1 evs' a2 :
  aruns dttl a evs a1 -> aruns dttl a1 evs' a2 -> aruns dttl a (evs ++ evs') a2.
Proof. induction 1; [done|]. intros. rewrite <- app_assoc. by econstructor; eauto. Qed.

Lemma tsteps_aruns dttl i m b t evs m' b' t' ts :
  tsteps dttl i (m, b, t) evs (m', b', t') -> ts !! i = Some t ->
  aruns dttl (mkA m b ts) evs (mkA m' b' (<[i := t']> ts)).
Proof.
  intros H. remember (m, b, t) as x eqn:Ex. remember (m', b', t') as y eqn:Ey.
  revert m b t ts Ex. induction H as [x|x evs [[m1 b1] t1] evs' z Hs _ IH]; intros m b t ts -> Hi; simplify_eq.
  - rewrite list_insert_id by done. constructor.
  - econstructor; [done..|]. rewrite <- (list_insert_insert_eq ts i t' t1).
    eapply IH; [done..|]. apply list_lookup_insert_eq. by eapply lookup_lt_Some.
Qed.

(** An operation that decides, and one that also returns. *)
Lemma ts_decide dttl i m b o r m' :
  effect dttl b o m r m' -> tsteps dttl i (m, b, APending o) [] (m', b, ADecided o r).
Proof. intros. by apply ts_once, a_effect. Qed.

Lemma ts_answer dttl i m b o r m' :
  effect dttl b o m r m' -> tsteps dttl i (m, b, APending o) [Ret i r] (m', b, AIdle).
Proof. intros. apply (ts_step _ _ _ [] _ [Ret i r]  _ (a_effect _ _ _ _ _ _ _ H)), ts_once. constructor. Qed.

Lemma ts_check dttl i m b o : passes o m -> tsteps dttl i (m, b, APending o) [] (m, b, AChecked o).
Proof. intros. by apply ts_once, a_check. Qed.

Lemma ts_store dttl i m b o k it :
  puts dttl o k it -> tsteps dttl i (m, b, AChecked o) [Ret i (RRes Stored)] (<[k := it]> m, b, AIdle).
Proof.
  intros. apply (ts_step _ _ _ [] _ [Ret i (RRes Stored)] _ (a_store _ _ _ _ _ _ _ H)), ts_once. constructor.
Qed.

Lemma ts_forget dttl i m b t k it evs y :
  m !! k = Some it -> tsteps dttl i (base.delete k m, b, t) evs y ->
  tsteps dttl i (m, b, t) (Forgot k :: evs) y.
Proof. intros. apply (ts_step _ _ _ [Forgot k] _ evs _ (a_forget _ _ _ _ _ _ _ H)); auto. Qed.

End spec.

Create HintDb contract.
#[export] Hint Constructors effect passes : contract.
#[export] Hint Resolve visible_live visible_expired visible_absent visible_is_Some : contract.
#[export] Hint Extern 1 (base.delete _ _ !! _ = None) => apply lookup_delete_eq : contract.
#[export] Hint Extern 1 (item_for _ _ _ _ _) => eassumption : contract.
