(* ===== verification/ConcurrentThms.v ===== *)
(** * Every interleaving refines the contract of the shared store

    The guards exclude each other, a thread that holds one knows what is in the map,
    and each piece of an operation is a run of the contract of [ConcurrentSpec]. *)

From S2P Require Import Prelude RustStd Storage Concrete StorageFacts StorageInv StorageOps Concurrent.
From S2P Require Import ConcurrentSpec.

(** ** Opening a piece *)

Ltac inner x :=
  match x with
  | context [match ?y with _ => _ end] => inner y
  | _ => destruct x eqn:?
  end.

(** Open every case of a piece, the innermost scrutinee first. *)
Ltac pieces :=
  repeat first
    [ progress simplify_eq | progress simpl in *
    | match goal with
      | |- context [match ?x with _ => _ end] => inner x
      | H : context [match ?x with _ => _ end] |- _ => inner x
      end ].

Ltac open_act :=
  cbn [act begin holds wants];
  unfold begin_get, begin_get_multi, begin_add, begin_replace, begin_cas, begin_cleanup, check_room, choose_victim,
    finish, finish_set, finish_extend, build_successor, refund, extended, scan, recorded, delete_next,
    begin_extend, build_item, write_item, delete, flush_all, stats, remove_expired, lock_data,
    holding_write, next_cas_unique, record_access, next_access, insert_order;
  unfold_st; unfold modify, gets; rewrite ?calculate_expiry_eq; unfold lift.

Section refinement.
Context `{BP : BuildProfile, LY : Layout, HO : HashOrder}.
Implicit Types (s : Storage) (d : gmap bytes CacheItem) (k : bytes) (it : CacheItem).

(** ** What a piece leaves alone *)

Lemma act_static now p s :
  default_ttl (state_of (act now p s)) = default_ttl s /\ max_memory (state_of (act now p s)) = max_memory s.
Proof. destruct p as [[]| | | | |[]| | | | | |[]|? ? []|[]|]; open_act; pieces; done. Qed.

Lemma act_data now p s :
  holds p <> Some Exclusive -> wants p <> Some Exclusive -> data (state_of (act now p s)) = data s.
Proof.
  destruct p as [[]| | | | |[]| | | | | |[]|? ? []|[]|]; try done; intros _ _; open_act; pieces; done.
Qed.

Lemma act_guard now p s p' s' g :
  act now p s = Done p' s' -> holds p' = Some g -> holds p = Some g \/ wants p = Some g.
Proof.
  destruct p as [[]| | | | |[]| | | | | |[]|? ? []|[]|]; open_act; intros H Hg; pieces; auto.
Qed.

(** ** What a thread knows at its program point *)

Definition fits (dttl : Z) (o : op) (t : task) : Prop :=
  match t with
  | TSet k it =>
      match o with
      | OpSet k' v f ttl | OpAdd k' v f ttl | OpReplace k' v f ttl => k' = k /\ item_for dttl v f ttl it
      | _ => False
      end
  | TCas k it =>
      match o with OpCas k' v f ttl _ => k' = k /\ item_for dttl v f ttl it | _ => False end
  | TExtend k x front => o = if front then OpPrepend k x else OpAppend k x
  end.

(** The item had not expired at the instant the thread looked. *)
Definition live it : Prop := exists now, is_expired now it = false.

Definition knows (dttl : Z) (o : op) d (p : pc) : Prop :=
  match p with
  | Begin o' => o' = o
  | Build k v f ttl => o = OpAdd k v f ttl \/ o = OpReplace k v f ttl
  | Ensure n t | FindLru n t | Evict _ n t => n = task_need t /\ fits dttl o t
  | Finish t => fits dttl o t
  | Replacing k it => fits dttl o (TSet k it)
  | Matched k _ v f ttl => exists u, o = OpCas k v f ttl u
  | Refund k _ it => fits dttl o (TCas k it)
  | Extending k it x front => fits dttl o (TExtend k x front) /\ d !! k = Some it /\ live it
  | Writing k it n =>
      (fits dttl o (TCas k it) /\ n = task_need (TCas k it)) \/
      exists x front old, fits dttl o (TExtend k x front) /\ n = len x /\
        d !! k = Some old /\ live old /\ extends front x old it
  | Scanning ks l _ | Recording _ _ (ThenScan ks l _) =>
      exists ks0, o = OpGetMulti (ks0 ++ ks) /\ reads d ks0 l
  | Recording k _ (ThenReturn _) => o = OpGet k
  | DeleteAll _ _ => True
  | Return _ => False
  end.

Lemma item_for_new now ttl dttl e v f c :
  expiry now ttl dttl = Val e -> item_for dttl v f ttl (mkItem v f e c now).
Proof. intros. split_and!; [done..|by exists now]. Qed.

Lemma act_knows_reader now p s p' s' o :
  act now p s = Done p' s' -> (forall r, p' <> Return r) -> holds p = Some Shared ->
  knows (default_ttl s) o (data s) p -> knows (default_ttl s) o (data s') p'.
Proof.
  destruct p as [| | | | | | | | | | |[|k ks]|? ? []| |]; try done; open_act; intros H Hn _ Hk; pieces; try done.
  all: try (by destruct (Hn _ eq_refl)).
  all: destruct Hk as (ks0 & -> & Hr); exists (ks0 ++ [k]); rewrite <- app_assoc; (split; [done|]).
  - eapply (reads_miss _ _ _ now); [done|]. unfold visible. by rewrite Heqo0, Heqb.
  - apply (reads_hit _ _ _ now); [done|]. unfold visible. by rewrite Heqo0, Heqb.
  - eapply (reads_miss _ _ _ now); [done|]. unfold visible. by rewrite Heqo0.
Qed.

Lemma act_knows now p s p' s' o :
  act now p s = Done p' s' -> (forall r, p' <> Return r) ->
  knows (default_ttl s) o (data s) p -> knows (default_ttl s) o (data s') p'.
Proof.
  intros H Hn Hk. destruct (decide (holds p = Some Shared)) as [Hs|Hs]; [by eapply act_knows_reader|].
  revert H Hn Hk. destruct p as [[]| | | | |[]| | | | | | | |[]|]; try done; open_act; intros H Hn Hk; pieces;
    repeat match goal with
    | H : exists _, _ |- _ => destruct H
    | H : _ /\ _ |- _ => destruct H
    | H : _ \/ _ |- _ => destruct H
    end; simplify_eq; eauto 8 using item_for_new; try (by destruct (Hn _ eq_refl)).
  all: boolify; try (split_and!; [done..|by exists now]).
  all: try (split; [done|by eapply item_for_new]).
  - exists []. by split; [|constructor].
  - right. by exists extra, false, item.
  - right. by exists extra, true, item.
Qed.

(** ** Pieces are runs of the contract *)

Definition decided (p : pc) : option reply :=
  match p with
  | DeleteAll _ r | Return r => Some r
  | Recording _ _ (ThenReturn it) => Some (RItem (Some it))
  | _ => None
  end.

Definition aview (t : thread) : athread :=
  match t with
  | Idle => AIdle
  | Busy o p =>
      match decided p, p with
      | Some r, _ => ADecided o r
      | None, Begin _ => APending o
      | None, _ => if tests o then AChecked o else APending o
      end
  | Crashed o => ACrashed o
  end.

(** The run of the contract that matches a piece. *)
Definition matches (i : nat) (now : Z) (o : op) (p : pc) s : Prop :=
  let '(evs, t, s') := settle i o (act now p s) in
  tsteps (default_ttl s) i (data s, data_poisoned s, aview (Busy o p)) (forgets now p s ++ evs)
    (data s', data_poisoned s', aview t).

Ltac poisoning := repeat match goal with H : data_poisoned ?s = _ |- context [data_poisoned ?s] => rewrite H end.

Ltac leaf :=
  first
    [ apply ts_nil
    | apply ts_once, a_crash; [by eauto|done]
    | apply ts_once, a_ret
    | apply ts_check; solve [eauto with contract]
    | apply ts_answer; solve [eauto with contract]
    | apply ts_decide; solve [eauto with contract]
    | eapply ts_forget; [eassumption|leaf] ].

Lemma piece_begin i now o s : matches i now o (Begin o) s.
Proof.
  unfold matches, forgets. destruct o; open_act; unfold settle; pieces; poisoning; boolify; leaf.
  Unshelve. all: exact now.
Qed.

(** The pieces that put an item in place. *)
Lemma replacing_stores dttl i b o d k it :
  knows dttl o d (Replacing k it) ->
  tsteps dttl i (d, b, aview (Busy o (Replacing k it))) [Ret i (RRes Stored)] (<[k := it]> d, b, AIdle).
Proof. simpl. destruct o; try done; intros [-> ?]; [apply ts_answer|apply ts_store..]; by constructor. Qed.

Lemma writing_stores dttl i b o d k it n :
  knows dttl o d (Writing k it n) ->
  tsteps dttl i (d, b, aview (Busy o (Writing k it n))) [Ret i (RRes Stored)] (<[k := it]> d, b, AIdle).
Proof.
  intros [[Hf _]|(x & front & old & Hf & _ & Hd & [now Hl] & He)]; simpl in Hf.
  - destruct o; try done. destruct Hf as [-> ?]. apply ts_store. by constructor.
  - subst o. pose proof (visible_live now _ _ _ Hd Hl). destruct front; apply ts_answer; by econstructor.
Qed.

Lemma scanned_decides dttl i b o d l e :
  knows dttl o d (Scanning [] l e) ->
  tsteps dttl i (d, b, aview (Busy o (Scanning [] l e))) [] (d, b, ADecided o (RItems l)).
Proof. intros (ks0 & -> & Hr). apply ts_decide. rewrite app_nil_r. by constructor. Qed.

Lemma piece_matches i now o p s : knows (default_ttl s) o (data s) p -> matches i now o p s.
Proof.
  intros Hk. destruct p as [o'| | | | |[]|k it| | | |k it n|[]|? ? []|[]|]; [simpl in Hk; subst; apply piece_begin|..];
    unfold matches, forgets; open_act; unfold settle; simpl;
    try (destruct (data_poisoned s); solve [by apply replacing_stores|by eapply writing_stores|by eapply scanned_decides]);
    simpl in Hk; pieces; poisoning; boolify; try solve [done|leaf].
  Unshelve. all: exact now.
Qed.

(** ** All threads *)

(** While a thread holds the guard exclusively, no other thread holds it. *)
Definition exclusion (ts : list thread) : Prop :=
  forall i j t1 t2, i <> j -> ts !! i = Some t1 -> ts !! j = Some t2 ->
    guard_of t1 = Some Exclusive -> guard_of t2 = None.

Record coherent (c : config) : Prop := {
  coh_guards : exclusion (threads c);
  coh_knows : forall i o p, threads c !! i = Some (Busy o p) ->
    knows (default_ttl (store c)) o (data (store c)) p
}.

Definition abstract (c : config) : aconfig :=
  mkA (data (store c)) (data_poisoned (store c)) (aview <$> threads c).

Lemma coherent_start n s : coherent (start n s).
Proof.
  split; simpl; intros i.
  - intros j t1 t2 _ [-> _]%lookup_replicate _. done.
  - by intros o p [? _]%lookup_replicate.
Qed.

Lemma granted_lookup p ts g j t :
  granted p ts = true -> wants p = Some g -> ts !! j = Some t ->
  guard_of t = None \/ (g = Shared /\ guard_of t <> Some Exclusive).
Proof.
  unfold granted. intros Hg Hw Hj. rewrite Hw in Hg. apply list_elem_of_lookup_2, list_elem_of_In in Hj.
  destruct g; rewrite forallb_forall in Hg; specialize (Hg _ Hj); apply bool_decide_eq_true in Hg; auto.
Qed.

(** What the guards of the others allow a thread that moves. *)
Lemma others_guard ts i o p j t :
  exclusion ts -> ts !! i = Some (Busy o p) -> granted p ts = true -> i <> j -> ts !! j = Some t ->
  (holds p = Some Exclusive \/ wants p = Some Exclusive -> guard_of t = None) /\
  (holds p = Some Shared \/ wants p = Some Shared -> guard_of t <> Some Exclusive).
Proof.
  intros He Hi Hg Hij Hj. split; intros [H|H].
  - by eapply (He i j).
  - by destruct (granted_lookup _ _ _ _ _ Hg H Hj) as [|[]].
  - intros Ht. pose proof (He j i _ _ (not_eq_sym Hij) Hj Hi Ht) as Hn. simpl in Hn. congruence.
  - destruct (granted_lookup _ _ _ _ _ Hg H Hj) as [->|[_ ?]]; done.
Qed.

Lemma knows_stable dttl o d d' p : holds p = None \/ d' = d -> knows dttl o d p -> knows dttl o d' p.
Proof. intros [H| ->]; [|done]. by destruct p as [| | | | | | | | | | | |? ? []| |]. Qed.

Lemma settle_thread i o out evs t s' :
  settle i o out = (evs, t, s') ->
  s' = state_of out /\
  (guard_of t = None /\ (forall o' p', t <> Busy o' p') \/
   exists p', out = Done p' s' /\ t = Busy o p' /\ forall r, p' <> Return r).
Proof.
  destruct out as [p' s1|s1|s1]; simpl; [|intros [= <- <- <-]; by auto..].
  destruct p'; intros [= <- <- <-]; simpl; (split; [done|]); try (right; eexists; by split_and!). by left.
Qed.

(** A turn of a busy thread keeps the threads coherent. *)
Lemma act_coherent s ts i o p now evs t s' :
  coherent (mkConfig s ts) -> ts !! i = Some (Busy o p) -> granted p ts = true ->
  settle i o (act now p s) = (evs, t, s') -> coherent (mkConfig s' (<[i := t]> ts)).
Proof.
  intros [He Hk] Hi Hg Hs. simpl in *. apply settle_thread in Hs as [-> Ht].
  destruct (act_static now p s) as [Hdt _].
  assert (Hgt : forall g, guard_of t = Some g -> holds p = Some g \/ wants p = Some g).
  { intros g Htg. destruct Ht as [[? _]|(p' & E & -> & _)]; [congruence|]. by eapply act_guard. }
  split; simpl.
  - intros a b t1 t2 Hab Ha Hb Hx. rewrite list_lookup_insert in Ha, Hb.
    destruct (decide (i = a /\ _)) as [[-> _]|Hna] in Ha; [simplify_eq|].
    + destruct (decide (a = b /\ _)) as [[-> _]|Hnb] in Hb; [done|].
      eapply others_guard; [done..|]. by apply Hgt.
    + destruct (decide (i = b /\ _)) as [[-> _]|Hnb] in Hb; [simplify_eq|by eapply (He a b)].
      destruct (guard_of t2) as [g|] eqn:Eg; [|done]. exfalso.
      destruct (others_guard _ _ _ _ a t1 He Hi Hg) as [H1 H2]; [congruence|done|].
      destruct g; [by destruct (H2 (Hgt _ eq_refl))|]. rewrite (H1 (Hgt _ eq_refl)) in Hx. done.
  - intros j o' p' Hj. rewrite Hdt. rewrite list_lookup_insert in Hj.
    destruct (decide (i = j /\ _)) as [[-> _]|Hn] in Hj.
    + destruct Ht as [[_ Hb]|(q & E & -> & Hr)]; [by destruct (Hb o' p'); simplify_eq|]. simplify_eq.
      rewrite E. simpl. by eapply act_knows; [|done|by apply (Hk j)].
    + assert (Hij : i <> j).
      { intros ->. apply Hn. split; [done|]. by eapply lookup_lt_Some. }
      apply (knows_stable _ _ (data s)); [|by apply (Hk j)].
      destruct (others_guard _ _ _ _ j _ He Hi Hg Hij Hj) as [H1 _]. simpl in H1.
      destruct (decide (holds p = Some Exclusive)); [by auto|].
      destruct (decide (wants p = Some Exclusive)); [by auto|]. right. by apply act_data.
Qed.

Lemma move_refines c i u evs c' :
  coherent c -> move c i u = Some (evs, c') ->
  coherent c' /\ default_ttl (store c') = default_ttl (store c) /\
  aruns (default_ttl (store c)) (abstract c) evs (abstract c').
Proof.
  destruct c as [s ts]. unfold move. simpl. intros Hc.
  destruct (ts !! i) as [[|o p|o]|] eqn:Hi; [|destruct u as [|now]|done..]; [destruct u as [o|]| |]; [|done..|].
  - intros [= <- <-]. destruct Hc as [He Hk]. split_and!; [split; simpl|done|].
    + intros a b t1 t2 Hab Ha Hb Hx. rewrite list_lookup_insert in Ha, Hb.
      repeat case_decide; simplify_eq; try done. by eapply (He a b).
    + intros j o' p' Hj. rewrite list_lookup_insert in Hj. case_decide; [by simplify_eq|by apply (Hk j)].
    + unfold abstract. simpl. rewrite list_fmap_insert. apply tsteps_aruns with AIdle; [apply ts_once, a_call|].
      by rewrite list_lookup_fmap, Hi.
  - destruct (granted p ts) eqn:Hg; [|done].
    destruct (settle i o (act now p s)) as [[evs' t] s'] eqn:Hs. intros [= <- <-].
    pose proof (piece_matches i now o p s (coh_knows _ Hc _ _ _ Hi)) as Hm. unfold matches in Hm. rewrite Hs in Hm.
    split_and!; [by eapply act_coherent| |].
    + apply settle_thread in Hs as [-> _]. apply act_static.
    + unfold abstract. simpl. rewrite list_fmap_insert. eapply tsteps_aruns; [exact Hm|].
      by rewrite list_lookup_fmap, Hi.
Qed.

Lemma play_refines c sched evs c' :
  coherent c -> play c sched = Some (evs, c') ->
  coherent c' /\ aruns (default_ttl (store c)) (abstract c) evs (abstract c').
Proof.
  revert c evs. induction sched as [|[i u] sched IH]; intros c evs Hc; simpl.
  - intros [= <- <-]. split; [done|constructor].
  - destruct (move c i u) as [[e1 c1]|] eqn:Hm; [|done]. simpl.
    destruct (play c1 sched) as [[e2 c2]|] eqn:Hp; [|done]. simpl. intros [= <- <-].
    destruct (move_refines _ _ _ _ _ Hc Hm) as (Hc1 & Hd & Ha). destruct (IH _ _ Hc1 Hp) as [Hc2 Ha2].
    split; [done|]. eapply aruns_app; [exact Ha|]. by rewrite <- Hd.
Qed.

(** ** Entries stay *)

(** The operation may change the entry of [k]. *)
Definition writes (o : op) k : bool :=
  match o with
  | OpSet k' _ _ _ | OpAdd k' _ _ _ | OpReplace k' _ _ _ | OpCas k' _ _ _ _
  | OpAppend k' _ | OpPrepend k' _ | OpDelete k' => bool_decide (k' = k)
  | OpFlush => true
  | _ => false
  end.

Lemma effect_frame dttl b o d r d' k : effect dttl b o d r d' -> writes o k = false -> d' !! k = d !! k.
Proof.
  destruct 1; simpl; try done; intros ?%bool_decide_eq_false; by rewrite ?lookup_insert_ne, ?lookup_delete_ne.
Qed.

(** No thread of the contract has a write of [k] ahead of it. *)
Definition ahead (t : athread) (o : op) : Prop := t = APending o \/ t = AChecked o.
Definition calm k (ts : list athread) : Prop :=
  forall i t o, ts !! i = Some t -> ahead t o -> writes o k = false.

Lemma puts_frame dttl o k it d k' : puts dttl o k it -> writes o k' = false -> <[k := it]> d !! k' = d !! k'.
Proof. destruct 1; simpl; intros ?%bool_decide_eq_false; by rewrite lookup_insert_ne. Qed.

(** The visible events neither call for a write of [k] nor drop it. *)
Definition spares k (evs : list event) : Prop :=
  (forall i o, Call i o ∈ evs -> writes o k = false) /\ Forgot k ∉ evs.

Lemma astep_frame dttl i d b t evs d' b' t' k :
  astep dttl i (d, b, t) evs (d', b', t') -> (forall o, ahead t o -> writes o k = false) -> spares k evs ->
  d' !! k = d !! k /\ (forall o, ahead t' o -> writes o k = false).
Proof.
  unfold ahead. intros H Ht [Hc Hf]. inversion H; subst; try (by split; [|naive_solver]).
  - split; [done|]. intros o' [[= <-]|[=]]. apply (Hc i). by left.
  - split; [eapply effect_frame; [done|by auto]|naive_solver].
  - split; [eapply puts_frame; [done|by auto]|naive_solver].
  - split; [|done]. rewrite lookup_delete_ne; [done|]. intros ->. apply Hf. by left.
Qed.

Lemma aruns_frame dttl a evs a' k :
  aruns dttl a evs a' -> calm k (athreads a) -> spares k evs -> amap a' !! k = amap a !! k.
Proof.
  induction 1 as [a|d b ts i t evs d' b' t' evs' a' Hi Hs _ IH]; intros Hq [Hc Hf]; [done|].
  assert (Hsp : spares k evs /\ spares k evs').
  { split; (split; [intros j o Hj; apply (Hc j); apply elem_of_app; by auto|]);
      intros Hj; apply Hf, elem_of_app; by auto. }
  destruct (astep_frame _ _ _ _ _ _ _ _ _ k Hs) as [He Ht]; [intros o; by eapply (Hq i)|apply Hsp|].
  simpl. rewrite <- He. apply IH; [|apply Hsp]. intros j t2 o. simpl. intros Hj.
  rewrite list_lookup_insert in Hj. case_decide; simplify_eq; eauto.
Qed.

(** C21: An entry of the shared store stays as it is through any interleaving, with any
    number of threads at work on other keys, until a call that writes its key is made or
    was already under way, or the run shows that it was dropped by eviction or expiry. *)
Theorem entries_stay n s sched evs c sched' evs' c' k :
  play (start n s) sched = Some (evs, c) -> play c sched' = Some (evs', c') ->
  (forall i o p, threads c !! i = Some (Busy o p) -> decided p = None -> writes o k = false) ->
  spares k evs' -> data (store c') !! k = data (store c) !! k.
Proof.
  intros Hp Hp' Hq Hs. destruct (play_refines _ _ _ _ (coherent_start n s) Hp) as [Hc _].
  destruct (play_refines _ _ _ _ Hc Hp') as [_ Ha]. eapply (aruns_frame _ _ _ _ k) in Ha; [exact Ha| |done].
  intros i t o. simpl. rewrite list_lookup_fmap. unfold ahead.
  destruct (threads c !! i) as [[|o' p|o']|] eqn:Hi; simpl; try naive_solver.
  destruct (decided p) eqn:Ed; [naive_solver|]. intros [= <-] Ho.
  assert (o' = o) as -> by (destruct p, (tests o'); naive_solver). by eapply Hq.
Qed.


End refinement.

Section witnesses.
#[local] Existing Instances release linux64 by_elements.

(** A reader between the check and the store of a writer. *)
Definition set_and_get : list (nat * turn) :=
  [(0%nat, Start (OpSet «"a"» «"1"» 0 0)); (0%nat, Go 0); (0%nat, Go 0);
   (1%nat, Start (OpGet «"a"»)); (1%nat, Go 1); (0%nat, Go 2); (0%nat, Go 2)].

Definition after_set_and_get : list event * config :=
  Eval vm_compute in default ([], start 2 (new 200 0)) (play (start 2 (new 200 0)) set_and_get).




(** While thread 1 stores ["b"], the entry of ["a"] stays. *)
Definition set_other : list (nat * turn) :=
  [(1%nat, Start (OpSet «"b"» «"2"» 0 0)); (1%nat, Go 3); (1%nat, Go 3); (1%nat, Go 3); (1%nat, Go 3)].

Definition after_set_other : list event * config :=
  Eval vm_compute in default ([], start 2 (new 200 0)) (play after_set_and_get.2 set_other).

Lemma entries_stay_witness :
  data (store after_set_other.2) !! «"a"» = data (store after_set_and_get.2) !! «"a"».
Proof.
  apply (entries_stay 2 (new 200 0) set_and_get after_set_and_get.1 after_set_and_get.2
           set_other after_set_other.1).
  - by_vm.
  - by_vm.
  - intros i o p H. destruct i as [|[|i]]; discriminate.
  - split.
    + intros i o [H|[H|H%elem_of_nil]%elem_of_cons]%elem_of_cons; [|discriminate|done].
      injection H as -> ->. reflexivity.
    + intros [H|[H|H%elem_of_nil]%elem_of_cons]%elem_of_cons; [discriminate..|done].
Defined.

End witnesses.
