(* ===== verification/ConcurrentMem.v ===== *)
(** * The memory counter under interleavings

    [ensure_memory_available] reads the counter without a lock, so threads that store at
    the same time can all find room.  The counter still equals the size of the stored
    entries whenever nobody is writing, and it passes the limit by at most one entry
    per further thread.  [cas] is left out: it drops its guard after it has given the
    old entry's bytes back, see [ConcurrentRaces]. *)

From S2P Require Import Prelude RustStd Storage Concrete StorageFacts StorageInv StorageOps StorageSpec.
From S2P Require Import Concurrent ConcurrentSpec ConcurrentThms.

Section memory.
Context `{BP : BuildProfile, LY : Layout, HO : HashOrder}.
Implicit Types (s : Storage) (d : gmap bytes CacheItem) (k : bytes) (it : CacheItem).

(** ** Sums over the threads *)

Definition sum_of (f : thread -> Z) (ts : list thread) : Z := foldr (fun t n => f t + n) 0 ts.

Lemma sum_insert f ts i t t' :
  ts !! i = Some t -> sum_of f (<[i := t']> ts) = sum_of f ts - f t + f t'.
Proof.
  revert i. induction ts as [|x ts IH]; intros [|i] Hi; try done; simpl in *.
  - simplify_eq. lia.
  - rewrite (IH _ Hi). lia.
Qed.

Lemma sum_bound f ts n : 0 <= n -> (forall t, t ∈ ts -> f t <= n) -> sum_of f ts <= len ts * n.
Proof.
  intros Hn. induction ts as [|x ts IH]; intros H; simpl; [unfold len; simpl; lia|].
  pose proof (H x (list_elem_of_here _ _)). rewrite len_cons.
  assert (sum_of f ts <= len ts * n) by (apply IH; intros t Ht; apply H; by right). nia.
Qed.

Lemma sum_nonneg f ts : (forall t, t ∈ ts -> 0 <= f t) -> 0 <= sum_of f ts.
Proof.
  induction ts as [|x ts IH]; intros H; simpl; [done|]. pose proof (H x (list_elem_of_here _ _)).
  assert (0 <= sum_of f ts) by (apply IH; intros t Ht; apply H; by right). lia.
Qed.

(** The sum over the others. *)
Lemma sum_others f ts i t n :
  ts !! i = Some t -> 0 <= n -> (forall t', t' ∈ ts -> f t' <= n) -> sum_of f ts - f t <= (len ts - 1) * n.
Proof.
  revert i. induction ts as [|x ts IH]; intros [|i] Hi Hn H; try done; simpl in *; rewrite len_cons.
  - simplify_eq. pose proof (sum_bound f ts n Hn). assert (sum_of f ts <= len ts * n); [|lia].
    apply sum_bound; [done|]. intros t' Ht'. apply H. by right.
  - pose proof (H x (list_elem_of_here _ _)).
    assert (sum_of f ts - f t <= (len ts - 1) * n); [|lia].
    eapply IH; [done..|]. intros t' Ht'. apply H. by right.
Qed.

Lemma sum_single f ts i t :
  ts !! i = Some t -> (forall j t', i <> j -> ts !! j = Some t' -> f t' = 0) -> sum_of f ts = f t.
Proof.
  revert i. induction ts as [|x ts IH]; intros [|i] Hi H; try done; simpl in *.
  - simplify_eq. assert (sum_of f ts = 0); [|lia].
    assert (Hz : forall t', t' ∈ ts -> f t' = 0).
    { intros t' [j Hj]%list_elem_of_lookup. by apply (H (S j)). }
    clear -Hz. induction ts as [|y ts IH]; [done|]. simpl. rewrite (Hz y (list_elem_of_here _ _)).
    rewrite IH; [done|]. intros. apply Hz. by right.
  - rewrite (H 0%nat x) by done. rewrite (IH i) by (try done; intros j t' Hij; apply (H (S j)); congruence). lia.
Qed.

(** ** What a thread has promised and what it has in flight *)

(** The bytes a thread that has passed the memory check will add. *)
Definition promise (p : pc) : Z :=
  match p with
  | Finish t => task_need t
  | Replacing k it => memory_size it + len k
  | Extending _ _ x _ => len x
  | Writing _ _ n => n
  | _ => 0
  end.

(** The bytes of an entry that [set] has subtracted and not yet replaced. *)
Definition gap d (p : pc) : Z :=
  match p with
  | Replacing k _ => match d !! k with Some it => entry_size k it | None => 0 end
  | _ => 0
  end.

Definition tpromise (t : thread) : Z := match t with Busy _ p => promise p | _ => 0 end.
Definition tgap d (t : thread) : Z := match t with Busy _ p => gap d p | _ => 0 end.

Definition is_cas (o : op) : bool := match o with OpCas _ _ _ _ _ => true | _ => false end.

Lemma fits_need dttl o t : fits dttl o t -> task_need t = op_need o.
Proof.
  destruct t as [k it|k it|k x []]; simpl; [| |by intros ->..].
  - destruct o; try done; intros [-> [<- _]]; unfold op_need, op_size, new_size, memory_size; lia.
  - destruct o; try done; intros [-> [<- _]]; unfold op_need, op_size, new_size, memory_size; lia.
Qed.

Lemma op_need_nonneg o : 0 <= op_need o.
Proof.
  pose proof size_of_CacheItem_pos. destruct o; unfold op_need, op_size, new_size; try done;
    repeat match goal with |- context [len ?l] => pose proof (len_nonneg l); generalize dependent (len l); intros end; lia.
Qed.

Lemma promise_range dttl o d p : knows dttl o d p -> 0 <= promise p <= op_need o.
Proof.
  pose proof (op_need_nonneg o). destruct p as [| | | | |t|k it| | |k it x f|k it n| | | |]; simpl; try lia.
  - intros Hf. rewrite (fits_need _ _ _ Hf). lia.
  - intros Hf. pose proof (fits_need dttl o (TSet k it) Hf) as E. simpl in E. lia.
  - intros [Hf _]. pose proof (fits_need dttl o (TExtend k x f) Hf) as E. simpl in E. lia.
  - intros [[Hf ->]|(x & f & old & Hf & -> & _)].
    + pose proof (fits_need dttl o (TCas k it) Hf) as E. simpl in E. lia.
    + pose proof (fits_need dttl o (TExtend k x f) Hf) as E. simpl in E. lia.
Qed.

Lemma gap_guard d t : guard_of t <> Some Exclusive -> tgap d t = 0.
Proof. destruct t as [|o []|]; simpl; try done. Qed.

(** ** One piece *)

(** A piece keeps the sum of counter and promise, or makes a promise that the counter
    has room for. *)
Definition within (o : op) s m n m' n' : Prop :=
  m' + n' <= m + n \/ (m' = m /\ m + n' <= Z.max (max_memory s) (op_need o)).

Definition out_promise (y : outcome Storage pc) : Z := match y with Done p _ => promise p | _ => 0 end.
Definition out_gap (y : outcome Storage pc) : Z := match y with Done p s => gap (data s) p | _ => 0 end.

Lemma u64_sub_entry s k it :
  data s !! k = Some it -> memory_used s = total (data s) -> memory_used s <= U64_MAX ->
  u64 (memory_used s - (memory_size it + len k)) = total (base.delete k (data s)) /\
  total (base.delete k (data s)) <= memory_used s /\ 0 <= total (base.delete k (data s)).
Proof.
  intros Hk Hm Hb. pose proof (total_entry _ _ _ Hk) as He. unfold entry_size in He.
  pose proof (entry_size_pos k it) as Hp. unfold entry_size in Hp.
  rewrite (total_delete _ _ _ Hk). unfold entry_size. rewrite u64_small by lia. pose proof (total_nonneg (data s)). lia.
Qed.

(** What is to be shown of a piece. *)
Definition keeps_memory (o : op) (p : pc) s (y : outcome Storage pc) : Prop :=
  memory_used (state_of y) = total (data (state_of y)) - out_gap y /\
  data_poisoned (state_of y) = false /\ 0 <= memory_used (state_of y) /\
  within o s (memory_used s) (promise p) (memory_used (state_of y)) (out_promise y).

Lemma write_memory o p s k it n :
  data_poisoned s = false -> 0 <= memory_used s -> 0 <= n -> memory_used s + n <= U64_MAX ->
  promise p = n -> total (<[k := it]> (data s)) = memory_used s + n ->
  keeps_memory o p s (write_item k it n s).
Proof.
  intros Hp H0 Hn Hb Hpr Ht. unfold keeps_memory, within, write_item. unfold_st. simpl.
  rewrite u64_small by lia. split_and!; [lia|done|lia|lia].
Qed.

Lemma replacing_memory now o k it s :
  knows (default_ttl s) o (data s) (Replacing k it) -> data_poisoned s = false ->
  memory_used s = total (data s) - gap (data s) (Replacing k it) ->
  0 <= memory_used s -> memory_used s + op_need o <= U64_MAX ->
  keeps_memory o (Replacing k it) s (act now (Replacing k it) s).
Proof.
  intros Hk Hp Hm H0 Hb. pose proof (promise_range _ _ _ _ Hk) as Hpr. simpl in Hpr, Hm.
  apply write_memory; [done|done|lia|lia|done|]. destruct (data s !! k) as [old|] eqn:E.
  - rewrite (total_insert _ _ _ _ E), Hm. unfold entry_size. lia.
  - rewrite (total_insert_new _ _ _ E), Hm. unfold entry_size. lia.
Qed.

Lemma extends_size front x k old it : extends front x old it -> entry_size k it = entry_size k old + len x.
Proof.
  intros (Hv & _). unfold entry_size, memory_size. rewrite Hv. unfold extend_value.
  destruct front; rewrite len_app; lia.
Qed.

Lemma writing_memory now o k it n s :
  knows (default_ttl s) o (data s) (Writing k it n) -> is_cas o = false -> data_poisoned s = false ->
  memory_used s = total (data s) - 0 -> 0 <= memory_used s -> memory_used s + op_need o <= U64_MAX ->
  keeps_memory o (Writing k it n) s (act now (Writing k it n) s).
Proof.
  intros Hk Hc Hp Hm H0 Hb. pose proof (promise_range _ _ _ _ Hk) as Hpr. simpl in Hpr.
  apply write_memory; [done|done|lia|lia|done|].
  destruct Hk as [[Hf _]|(x & front & old & _ & -> & E & _ & He)]; [by destruct o|].
  rewrite (total_insert _ _ _ _ E), (extends_size _ _ _ _ _ He). lia.
Qed.

Lemma find_lru_memory now o n t s :
  knows (default_ttl s) o (data s) (FindLru n t) -> data_poisoned s = false ->
  memory_used s = total (data s) - 0 -> keeps_memory o (FindLru n t) s (act now (FindLru n t) s).
Proof.
  intros [_ Hf] Hp Hm. pose proof (total_nonneg (data s)). unfold keeps_memory, within. simpl.
  destruct (find_lru_key now s) eqn:E; simpl; (split_and!; [done|done|lia|]); [lia|right].
  apply find_lru_key_None in E; [|done]. rewrite (fits_need _ _ _ Hf), Hm, E, total_empty. lia.
Qed.

Lemma finish_memory now o t s :
  knows (default_ttl s) o (data s) (Finish t) -> is_cas o = false -> data_poisoned s = false ->
  memory_used s = total (data s) - 0 -> memory_used s + op_need o <= U64_MAX ->
  keeps_memory o (Finish t) s (act now (Finish t) s).
Proof.
  intros Hk Hc Hp Hm Hb. pose proof (promise_range _ _ _ _ Hk) as Hpr. pose proof (total_nonneg (data s)).
  unfold keeps_memory, within. destruct t as [k it|k it|k x front]; [|by destruct o|].
  - open_act. rewrite Hp. destruct (data s !! k) as [old|] eqn:E; simpl; rewrite E; [|split_and!; solve [done|lia]].
    destruct (u64_sub_entry _ _ _ E) as (-> & ? & ?); [lia..|]. rewrite (total_delete _ _ _ E) in *.
    split_and!; solve [done|lia].
  - open_act. rewrite Hp. simpl in Hpr. pieces; split_and!; solve [done|lia].
Qed.

Lemma extend_memory now o k x front s :
  op_need o = len x -> data_poisoned s = false -> memory_used s = total (data s) - 0 ->
  memory_used s + op_need o <= U64_MAX ->
  keeps_memory o (Begin o) s (begin_extend now k x front s).
Proof.
  intros Ho Hp Hm Hb. pose proof (op_need_nonneg o). pose proof (total_nonneg (data s)). unfold keeps_memory, within. open_act.
  rewrite Hp. destruct (data s !! k) as [it|] eqn:E; [|simpl; split_and!; solve [done|lia]].
  destruct (is_expired now it).
  { simpl. destruct (u64_sub_entry _ _ _ E) as (-> & ? & ?); [lia..|]. split_and!; solve [done|lia]. }
  rewrite usize_add_small by (unfold USIZE_MAX; lia).
  destruct (_ <? _) eqn:Em; boolify; simpl; split_and!; solve [done|lia].
Qed.

Lemma piece_memory now o p s :
  knows (default_ttl s) o (data s) p -> is_cas o = false -> data_poisoned s = false ->
  holds p <> None \/ wants p <> None -> memory_used s = total (data s) - gap (data s) p ->
  0 <= memory_used s -> memory_used s + op_need o <= U64_MAX ->
  keeps_memory o p s (act now p s).
Proof.
  intros Hk Hc Hp Hg Hm H0 Hb. pose proof (op_need_nonneg o) as Hn.
  destruct p as [o'| | |n t| |t|k it|k|k| |k it n| |? ? []|[]|];
    try (by destruct Hg); try (by destruct o).
  - simpl in Hk. subst o'. destruct o; try (by destruct Hg); try done; try (by apply extend_memory);
      unfold keeps_memory, within; open_act; rewrite ?Hp; simpl in Hm; pieces;
      rewrite ?total_empty; try (split_and!; solve [done|lia]).
    destruct (u64_sub_entry _ _ _ Heqo ltac:(lia) ltac:(lia)) as (? & ? & ?); split_and!; solve [done|lia].
  - by apply find_lru_memory.
  - unfold keeps_memory, within. open_act. rewrite Hp. simpl in Hm. pieces; try (split_and!; solve [done|lia]).
    destruct (u64_sub_entry _ _ _ Heqo0 ltac:(lia) ltac:(lia)) as (? & ? & ?); split_and!; solve [done|lia].
  - by apply finish_memory.
  - by apply replacing_memory.
  - by destruct Hk as [u ->].
  - simpl in Hm. unfold keeps_memory, within. simpl. split_and!; solve [done|lia].
  - by apply writing_memory.
  - unfold keeps_memory, within. open_act. simpl in Hm. pieces; split_and!; solve [done|lia].
  - unfold keeps_memory, within. simpl. simpl in Hm. split_and!; solve [done|lia].
  - unfold keeps_memory, within. simpl. simpl in Hm. split_and!; solve [done|lia].
  - unfold keeps_memory, within. open_act. rewrite Hp. simpl in Hm. pieces; try (split_and!; solve [done|lia]).
    destruct (u64_sub_entry _ _ _ Heqo0 ltac:(lia) ltac:(lia)) as (? & ? & ?); split_and!; solve [done|lia].
Qed.

(** The pieces without a guard leave the store's data alone. *)
Lemma free_memory now o p s (y := act now p s) :
  knows (default_ttl s) o (data s) p -> holds p = None -> wants p = None ->
  memory_used s + op_need o <= U64_MAX ->
  memory_used (state_of y) = memory_used s /\ data (state_of y) = data s /\
  data_poisoned (state_of y) = data_poisoned s /\ out_gap y = 0 /\ gap (data s) p = 0 /\
  within o s (memory_used s) (promise p) (memory_used (state_of y)) (out_promise y).
Proof.
  intros Hk Hh Hw Hb. subst y. unfold within. destruct p as [[]| |n t| | | | | | | | | |? ? []|[]|]; try done.
  - open_act. pieces; split_and!; solve [done|lia].
  - open_act. pieces; split_and!; solve [done|lia].
  - destruct Hk as [-> Hf]. pose proof (fits_need _ _ _ Hf) as E. simpl.
    rewrite usize_add_small by (unfold USIZE_MAX; lia).
    destruct (_ <? _) eqn:Em; boolify; simpl; split_and!; solve [done|lia].
  - simpl. split_and!; solve [done|lia].
Qed.

(** ** All threads *)

Section bound.
Context (max M : Z).
Context (HM : 0 <= M).

(** With [n] threads: the limit, or one entry if that is larger, and one entry for each
    further thread. *)
Definition ceiling (n : Z) : Z := Z.max max M + (n - 1) * M.

(** Calls other than [cas] that ask for at most [M] bytes. *)
Definition modest (o : op) : Prop := is_cas o = false /\ op_need o <= M.

Record accounted (c : config) : Prop := {
  acc_coherent : coherent c;
  acc_max : max_memory (store c) = max;
  acc_lock : data_poisoned (store c) = false;
  acc_modest : forall i o p, threads c !! i = Some (Busy o p) -> modest o;
  acc_total : memory_used (store c) = total (data (store c)) - sum_of (tgap (data (store c))) (threads c);
  acc_nonneg : 0 <= memory_used (store c);
  acc_budget : memory_used (store c) + sum_of tpromise (threads c) <= ceiling (len (threads c))
}.

Lemma tpromise_range c t : accounted c -> t ∈ threads c -> 0 <= tpromise t <= M.
Proof.
  intros Hc [i Hi]%list_elem_of_lookup. destruct t as [|o p|o]; simpl; [lia| |lia].
  pose proof (promise_range _ _ _ _ (coh_knows _ (acc_coherent _ Hc) _ _ _ Hi)).
  destruct (acc_modest _ Hc _ _ _ Hi). lia.
Qed.

Lemma accounted_bound c : accounted c -> memory_used (store c) <= ceiling (len (threads c)).
Proof.
  intros Hc. pose proof (acc_budget _ Hc). pose proof (sum_nonneg tpromise (threads c)) as H0.
  assert (0 <= sum_of tpromise (threads c)); [|lia]. apply H0. intros t Ht. by apply (tpromise_range c).
Qed.

(** The gap is the mover's own when the guards keep the others out. *)
Lemma gap_mover ts i o p d :
  exclusion ts -> ts !! i = Some (Busy o p) -> granted p ts = true ->
  holds p <> None \/ wants p <> None -> sum_of (tgap d) ts = gap d p.
Proof.
  intros He Hi Hg Hh. apply (sum_single (tgap d) ts i (Busy o p) Hi). intros j t Hij Hj. apply gap_guard.
  destruct (others_guard _ _ _ _ _ _ He Hi Hg Hij Hj) as [H1 H2].
  destruct Hh as [Hh|Hh]; [destruct (holds p) as [[]|] eqn:E|destruct (wants p) as [[]|] eqn:E]; try done;
    try (by apply H2; auto); rewrite H1; auto; done.
Qed.

Lemma within_budget c i o p m' n' :
  accounted c -> threads c !! i = Some (Busy o p) ->
  within o (store c) (memory_used (store c)) (promise p) m' n' ->
  m' + (sum_of tpromise (threads c) - promise p + n') <= ceiling (len (threads c)).
Proof.
  intros Hc Hi [Hw|[-> Hw]]; pose proof (acc_budget _ Hc) as Hb; [lia|].
  destruct (acc_modest _ Hc _ _ _ Hi) as [_ Hn]. rewrite (acc_max _ Hc) in Hw. unfold ceiling in *.
  pose proof (sum_others tpromise (threads c) i _ M Hi HM) as Hs. simpl in Hs.
  assert (sum_of tpromise (threads c) - promise p <= (len (threads c) - 1) * M); [|lia].
  apply Hs. intros t Ht. by apply (tpromise_range c).
Qed.

Lemma settle_sums i o y evs t s' :
  settle i o y = (evs, t, s') ->
  s' = state_of y /\ tpromise t = out_promise y /\ tgap (data s') t = out_gap y.
Proof. destruct y as [p s|s|s]; simpl; [destruct p|..]; by intros [= <- <- <-]. Qed.

(** A piece of a busy thread. *)
Lemma act_accounted s ts i o p now evs t s' :
  accounted (mkConfig s ts) -> ceiling (len ts) + M <= U64_MAX ->
  ts !! i = Some (Busy o p) -> granted p ts = true ->
  settle i o (act now p s) = (evs, t, s') -> accounted (mkConfig s' (<[i := t]> ts)).
Proof.
  intros Hc Hu Hi Hg Hs. pose proof (act_coherent _ _ _ _ _ _ _ _ _ (acc_coherent _ Hc) Hi Hg Hs) as Hco.
  pose proof (settle_thread _ _ _ _ _ _ Hs) as [_ Ht]. apply settle_sums in Hs as (-> & Hpr & Hgp).
  pose proof (accounted_bound _ Hc) as Hb. destruct (acc_modest _ Hc _ _ _ Hi) as [Hcas Hn].
  pose proof (coh_knows _ (acc_coherent _ Hc) _ _ _ Hi) as Hk. pose proof (acc_lock _ Hc) as Hp.
  pose proof (coh_guards _ (acc_coherent _ Hc)) as He. pose proof (acc_nonneg _ Hc) as H0.
  pose proof (acc_total _ Hc) as Hm. destruct (act_static now p s) as [_ Hmx]. simpl in *.
  assert (Hk' : memory_used (state_of (act now p s)) =
      total (data (state_of (act now p s))) - sum_of (tgap (data (state_of (act now p s)))) (<[i := t]> ts) /\
    data_poisoned (state_of (act now p s)) = false /\ 0 <= memory_used (state_of (act now p s)) /\
    within o s (memory_used s) (promise p) (memory_used (state_of (act now p s))) (out_promise (act now p s))).
  { rewrite (sum_insert _ _ _ _ t Hi), Hgp. simpl.
    destruct (decide (holds p = None /\ wants p = None)) as [[Hh Hw]|Hh].
    - destruct (free_memory now o p s Hk Hh Hw) as (-> & -> & -> & -> & -> & Hwi); [lia|].
      split_and!; [lia|done|done|exact Hwi].
    - assert (Hor : holds p <> None \/ wants p <> None).
      { destruct (holds p); [by left|]. destruct (wants p); [by right|]. by destruct Hh. }
      rewrite (gap_mover _ _ _ _ _ He Hi Hg Hor) in Hm. rewrite (gap_mover _ _ _ _ _ He Hi Hg Hor).
      destruct (piece_memory now o p s) as (H1 & H2 & H3 & H4); [done..|lia|]. split_and!; [lia|done|lia|exact H4]. }
  destruct Hk' as (H1 & H2 & H3 & H4). split; simpl; try done.
  - rewrite Hmx. apply (acc_max _ Hc).
  - intros j o' p' Hj. rewrite list_lookup_insert in Hj. case_decide; [|by apply (acc_modest _ Hc j o' p')].
    destruct Ht as [[_ Hb']|(q & _ & -> & _)]; [by destruct (Hb' o' p'); simplify_eq|]. by simplify_eq.
  - rewrite (sum_insert _ _ _ _ t Hi), Hpr. unfold len. rewrite length_insert.
    by apply (within_budget (mkConfig s ts) i o).
Qed.

(** The turns of a schedule that are admitted. *)
Definition modest_turn (x : nat * turn) : Prop := match x.2 with Start o => modest o | Go _ => True end.

Lemma move_accounted c i u evs c' :
  accounted c -> ceiling (len (threads c)) + M <= U64_MAX -> modest_turn (i, u) ->
  move c i u = Some (evs, c') -> accounted c' /\ len (threads c') = len (threads c).
Proof.
  intros Hc Hu Ht Hmv. pose proof (move_refines _ _ _ _ _ (acc_coherent _ Hc) Hmv) as (Hco & _ & _).
  destruct c as [s ts]. unfold move in Hmv. simpl in *.
  destruct (ts !! i) as [[|o p|o]|] eqn:Hi; [destruct u as [o|]|destruct u as [|now]|done..]; [|done..|].
  - simplify_eq. split; [|unfold len; simpl; by rewrite length_insert]. destruct Hc as [_ ? ? Hmo Htot ? Hbu].
    simpl in *. split; simpl; try done.
    + intros j o' p' Hj. rewrite list_lookup_insert in Hj. case_decide; [by simplify_eq|by apply (Hmo j o' p')].
    + rewrite (sum_insert _ _ _ _ _ Hi). simpl. lia.
    + rewrite (sum_insert _ _ _ _ _ Hi). unfold len. rewrite length_insert. simpl. unfold len in Hbu. lia.
  - destruct (granted p ts) eqn:Hg; [|done].
    destruct (settle i o (act now p s)) as [[evs' t] s'] eqn:Hs. simplify_eq.
    split; [by eapply act_accounted|]. unfold len. simpl. by rewrite length_insert.
Qed.

Lemma play_accounted c sched evs c' :
  accounted c -> ceiling (len (threads c)) + M <= U64_MAX -> Forall modest_turn sched ->
  play c sched = Some (evs, c') -> accounted c' /\ len (threads c') = len (threads c).
Proof.
  revert c evs. induction sched as [|[i u] sched IH]; intros c evs Hc Hu Hs; simpl.
  - by intros [= <- <-].
  - apply Forall_cons in Hs as [Ht Hs]. destruct (move c i u) as [[e1 c1]|] eqn:Hm; [|done]. simpl.
    destruct (play c1 sched) as [[e2 c2]|] eqn:Hp; [|done]. simpl. intros [= <- <-].
    destruct (move_accounted _ _ _ _ _ Hc Hu Ht Hm) as [Hc1 Hl]. rewrite <- Hl in *. by eapply IH.
Qed.

Lemma accounted_start n s :
  wf s -> max_memory s = max -> memory_used s <= Z.max max M -> (0 < n)%nat -> accounted (start n s).
Proof.
  intros Hw Hmx Hle Hn. destruct (wf_mem _ Hw) as [Hm _]. pose proof (total_nonneg (data s)).
  assert (Hz : forall f : thread -> Z, f Idle = 0 -> sum_of f (replicate n Idle) = 0).
  { intros f Hf. clear Hn. induction n as [|n IH]; [done|]. simpl. by rewrite Hf, IH. }
  split; simpl; [apply coherent_start|done|apply Hw| | |lia|].
  - by intros i o p [? _]%lookup_replicate.
  - rewrite Hz by done. lia.
  - rewrite Hz by done. unfold ceiling, len. rewrite length_replicate. nia.
Qed.

End bound.
(** C20: With any number of threads and in every interleaving of calls other than [cas],
    the memory counter equals the size of the stored entries whenever no thread is
    writing, and it exceeds the limit (or one entry, where an entry is larger than the
    limit) by at most one entry for each further thread: the check and the store are
    not one step, but each thread has at most one entry on its way.  The lock is never
    poisoned. *)
Theorem concurrent_memory_bound n s max M sched evs c :
  wf s -> max_memory s = max -> memory_used s <= Z.max max M -> 0 <= M -> (0 < n)%nat ->
  ceiling max M (Z.of_nat n) + M <= U64_MAX -> Forall (modest_turn M) sched ->
  play (start n s) sched = Some (evs, c) ->
  memory_used (store c) <= ceiling max M (Z.of_nat n) /\ data_poisoned (store c) = false /\
  (Forall (fun t => guard_of t <> Some Exclusive) (threads c) ->
   memory_used (store c) = total (data (store c))).
Proof.
  intros Hw Hmx Hle HM Hn Hu Hs Hp.
  assert (Hl : len (threads (start n s)) = Z.of_nat n) by (unfold len; simpl; by rewrite length_replicate).
  destruct (play_accounted max M HM (start n s) sched evs c) as [Hc Hlc]; [by apply accounted_start|by rewrite Hl|done..|].
  pose proof (accounted_bound max M HM c Hc) as Hb. rewrite Hlc, Hl in Hb.
  split_and!; [done|apply Hc|]. intros Hf. rewrite (acc_total _ _ _ Hc).
  assert (Hz : sum_of (tgap (data (store c))) (threads c) = 0); [|lia].
  clear -Hf. induction Hf as [|t ts Ht _ IH]; [done|]. simpl. rewrite gap_guard by done. lia.
Qed.

End memory.

Section witnesses.
#[local] Existing Instances release linux64 by_elements.

(** A limit of 80 bytes, and two threads that store an entry of 75 bytes each: both
    find room before either stores. *)
Definition both_store : list (nat * turn) :=
  [(0%nat, Start (OpSet «"a"» «"11"» 0 0)); (1%nat, Start (OpSet «"b"» «"22"» 0 0));
   (0%nat, Go 0); (1%nat, Go 0); (0%nat, Go 0); (1%nat, Go 0);
   (0%nat, Go 0); (0%nat, Go 0); (1%nat, Go 0); (1%nat, Go 0)].

Definition both_stored : list event * config :=
  Eval vm_compute in default ([], start 2 (new 80 0)) (play (start 2 (new 80 0)) both_store).

Lemma both_store_plays : play (start 2 (new 80 0)) both_store = Some both_stored.
Proof. by_vm. Qed.

Lemma concurrent_memory_bound_witness :
  memory_used (store both_stored.2) = 150 /\
  (memory_used (store both_stored.2) <= 155 /\ data_poisoned (store both_stored.2) = false /\
   (Forall (fun t => guard_of t <> Some Exclusive) (threads both_stored.2) ->
    memory_used (store both_stored.2) = total (data (store both_stored.2)))).
Proof.
  split; [reflexivity|].
  apply (concurrent_memory_bound 2 (new 80 0) 80 75 both_store both_stored.1).
  - apply wf_new.
  - reflexivity.
  - vm_compute; discriminate.
  - lia.
  - lia.
  - vm_compute; discriminate.
  - repeat constructor; vm_compute; discriminate.
  - apply both_store_plays.
Defined.

End witnesses.
