(* ===== verification/ConcurrentTokens.v ===== *)
(** * CAS tokens under interleavings

    An item gets its token when it is built, before its thread waits for room and for
    the guard.  Tokens in the store and tokens of items on their way are all different,
    so a token names one version of one entry, whatever the threads do. *)

From S2P Require Import Prelude RustStd Storage Concrete StorageFacts StorageInv StorageOps Concurrent.
From S2P Require Import ConcurrentSpec ConcurrentThms.

Section tokens.
Context `{BP : BuildProfile, LY : Layout, HO : HashOrder}.
Implicit Types (s : Storage) (d : gmap bytes CacheItem) (k : bytes) (it : CacheItem).

Definition task_token (t : task) : option Z :=
  match t with TSet _ it | TCas _ it => Some (cas_unique it) | TExtend _ _ _ => None end.

(** The token of the item a thread is about to store. *)
Definition token (p : pc) : option Z :=
  match p with
  | Ensure _ t | FindLru _ t | Evict _ _ t | Finish t => task_token t
  | Replacing _ it | Refund _ _ it | Writing _ it _ => Some (cas_unique it)
  | _ => None
  end.

Definition ttoken (t : thread) : option Z := match t with Busy _ p => token p | _ => None end.
Definition out_token (y : outcome Storage pc) : option Z := match y with Done p _ => token p | _ => None end.

(** ** One piece

    A piece drops entries, draws a token, or puts the item it holds in place. *)

Inductive token_move (p : pc) s (y : outcome Storage pc) : Prop :=
| tm_quiet :
    cas_counter (state_of y) = cas_counter s -> data (state_of y) ⊆ data s ->
    out_token y = None \/ out_token y = token p -> token_move p s y
| tm_draw :
    cas_counter (state_of y) = u64 (cas_counter s + 1) -> data (state_of y) = data s ->
    out_token y = Some (cas_counter s) -> token_move p s y
| tm_write k it :
    cas_counter (state_of y) = cas_counter s -> data (state_of y) = <[k := it]> (data s) ->
    token p = Some (cas_unique it) -> out_token y = None -> token_move p s y.

Lemma act_token now p s : token_move p s (act now p s).
Proof.
  destruct p as [[]| | | | |[]| | | | | |[]|? ? []|[]|]; open_act; pieces;
    first
      [ apply tm_quiet; simpl; [done|first [done|apply delete_subseteq|apply map_empty_subseteq]|by auto]
      | by apply tm_draw
      | by eapply tm_write ].
Qed.

(** ** All threads *)

Record distinct (c : config) : Prop := {
  dis_data : cas_ok (store c);
  dis_range : forall i t q, threads c !! i = Some t -> ttoken t = Some q -> 1 <= q < cas_counter (store c);
  dis_threads : forall i j t1 t2 q, threads c !! i = Some t1 -> threads c !! j = Some t2 ->
    ttoken t1 = Some q -> ttoken t2 = Some q -> i = j;
  dis_stored : forall i t q k it, threads c !! i = Some t -> ttoken t = Some q ->
    data (store c) !! k = Some it -> cas_unique it <> q
}.

Lemma distinct_start n s : wf s -> distinct (start n s).
Proof.
  intros Hw. split; [apply Hw|..]; simpl; intros i.
  - by intros t q [-> _]%lookup_replicate.
  - by intros j t1 t2 q [-> _]%lookup_replicate.
  - by intros t q k it [-> _]%lookup_replicate.
Qed.

Lemma cas_ok_sub s s' : cas_ok s -> data s' ⊆ data s -> cas_counter s' = cas_counter s -> cas_ok s'.
Proof.
  intros (H1 & H2 & H3) Hd Hc. unfold cas_ok. rewrite Hc. split_and!; [|..|lia|lia].
  - intros k it Hk. eapply H1. by eapply lookup_weaken.
  - intros k1 k2 i1 i2 Hk1 Hk2. apply H2; by eapply lookup_weaken.
Qed.

Lemma insert_cases {A} (l : list A) i j x y :
  <[i := x]> l !! j = Some y -> (j = i /\ y = x) \/ (j <> i /\ l !! j = Some y).
Proof.
  rewrite list_lookup_insert_Some. intros [(-> & -> & _)|[? ?]]; [by left|right; by split].
Qed.

(** The mover's new thread carries no token or the one it had. *)
Lemma distinct_quiet s ts i t0 t s' :
  distinct (mkConfig s ts) -> ts !! i = Some t0 -> ttoken t = None \/ ttoken t = ttoken t0 ->
  cas_counter s' = cas_counter s -> data s' ⊆ data s -> distinct (mkConfig s' (<[i := t]> ts)).
Proof.
  intros [Hd Hr Ht Hs] Hi Hq Hc Hda. simpl in *.
  assert (Hq' : forall q, ttoken t = Some q -> ttoken t0 = Some q) by (intros q E; destruct Hq; congruence).
  split; simpl.
  - by apply (cas_ok_sub s).
  - intros j t' q Hj Htq. rewrite Hc. apply insert_cases in Hj as [[-> ->]|[_ Hj]]; eauto.
  - intros a b t1 t2 q Ha Hb H1 H2.
    apply insert_cases in Ha as [[-> ->]|[_ Ha]]; apply insert_cases in Hb as [[-> ->]|[_ Hb]]; eauto.
  - intros j t' q k it Hj Htq Hk. assert (data s !! k = Some it) by by eapply lookup_weaken.
    apply insert_cases in Hj as [[-> ->]|[_ Hj]]; eauto.
Qed.

Lemma distinct_draw s ts i t s' :
  distinct (mkConfig s ts) -> ttoken t = Some (cas_counter s) ->
  cas_counter s' = cas_counter s + 1 -> cas_counter s < U64_MAX -> data s' = data s ->
  distinct (mkConfig s' (<[i := t]> ts)).
Proof.
  intros [(Hd1 & Hd2 & Hd3) Hr Ht Hs] Hq Hc Hu Hda. simpl in *. split; simpl.
  - unfold cas_ok. rewrite Hc, Hda. split_and!; [|done|lia|lia]. intros k it Hk. specialize (Hd1 _ _ Hk). lia.
  - intros j t' q Hj Htq. rewrite Hc. apply insert_cases in Hj as [[-> ->]|[_ Hj]]; [simplify_eq; lia|].
    specialize (Hr _ _ _ Hj Htq). lia.
  - intros a b t1 t2 q Ha Hb H1 H2.
    apply insert_cases in Ha as [[-> ->]|[_ Ha]]; apply insert_cases in Hb as [[-> ->]|[_ Hb]]; [done| | |by eauto].
    + specialize (Hr _ _ _ Hb H2). simplify_eq. lia.
    + specialize (Hr _ _ _ Ha H1). simplify_eq. lia.
  - intros j t' q k it Hj Htq Hk. rewrite Hda in Hk.
    apply insert_cases in Hj as [[-> ->]|[_ Hj]]; [|by eauto]. specialize (Hd1 _ _ Hk). simplify_eq. lia.
Qed.

Lemma distinct_write s ts i t0 t s' k0 it0 :
  distinct (mkConfig s ts) -> ts !! i = Some t0 -> ttoken t0 = Some (cas_unique it0) -> ttoken t = None ->
  cas_counter s' = cas_counter s -> data s' = <[k0 := it0]> (data s) ->
  distinct (mkConfig s' (<[i := t]> ts)).
Proof.
  intros [(Hd1 & Hd2 & Hd3) Hr Ht Hs] Hi Hp Hq Hc Hda. simpl in *. pose proof (Hr _ _ _ Hi Hp) as Hmine.
  split; simpl.
  - unfold cas_ok. rewrite Hc, Hda. split_and!; [| |lia|lia].
    + intros k it. rewrite lookup_insert_Some. intros [[_ <-]|[_ ?]]; [done|by eapply Hd1].
    + intros k1 k2 i1 i2. rewrite !lookup_insert_Some. intros [[<- <-]|[_ E1]] [[<- <-]|[_ E2]] E; [done| | |by eauto].
      * by destruct (Hs _ _ _ _ _ Hi Hp E2).
      * by destruct (Hs _ _ _ _ _ Hi Hp E1).
  - intros j t' q Hj Htq. rewrite Hc. apply insert_cases in Hj as [[-> ->]|[_ Hj]]; [congruence|eauto].
  - intros a b t1 t2 q Ha Hb H1 H2. apply insert_cases in Ha as [[-> ->]|[_ Ha]]; [congruence|].
    apply insert_cases in Hb as [[-> ->]|[_ Hb]]; [congruence|eauto].
  - intros j t' q k it Hj Htq Hk Hx. rewrite Hda in Hk.
    apply insert_cases in Hj as [[-> ->]|[Hn Hj]]; [congruence|].
    apply lookup_insert_Some in Hk as [[_ <-]|[_ Hk]]; [|by eapply Hs]. subst q.
    apply Hn. by eapply (Ht j i).
Qed.

Lemma settle_token i o y evs t s' :
  settle i o y = (evs, t, s') -> s' = state_of y /\ ttoken t = out_token y.
Proof. destruct y as [p s|s|s]; simpl; [destruct p|..]; by intros [= <- <- <-]. Qed.

Lemma move_distinct c i u evs c' :
  distinct c -> cas_counter (store c) < U64_MAX -> move c i u = Some (evs, c') ->
  distinct c' /\ cas_counter (store c') <= cas_counter (store c) + 1.
Proof.
  destruct c as [s ts]. unfold move. simpl. intros Hc Hu. pose proof (dis_data _ Hc) as (_ & _ & Hr). simpl in Hr.
  destruct (ts !! i) as [[|o p|o]|] eqn:Hi; [destruct u as [o|]|destruct u as [|now]|done..]; [|done..|].
  - intros [= <- <-]. simpl. split; [|lia]. eapply distinct_quiet; [done..| |done|done]. by left.
  - destruct (granted p ts); [|done]. destruct (settle i o (act now p s)) as [[evs' t] s'] eqn:Hs.
    intros [= <- <-]. apply settle_token in Hs as [-> Hq]. simpl.
    destruct (act_token now p s) as [Hcc Hda Ho|Hcc Hda Ho|k0 it0 Hcc Hda Hp Ho]; rewrite ?Ho in Hq.
    + rewrite Hcc. split; [|lia]. eapply distinct_quiet; [done..| |done|done]. rewrite Hq. by destruct Ho; auto.
    + rewrite u64_small in Hcc by lia. split; [|lia]. by eapply distinct_draw.
    + rewrite Hcc. split; [|lia]. by eapply distinct_write.
Qed.

Lemma play_distinct c sched evs c' :
  distinct c -> cas_counter (store c) + len sched <= U64_MAX -> play c sched = Some (evs, c') -> distinct c'.
Proof.
  revert c evs. induction sched as [|[i u] sched IH]; intros c evs Hc Hu; [by intros [= <- <-]|].
  rewrite len_cons in Hu. pose proof (len_nonneg sched). cbn [play].
  destruct (move c i u) as [[e1 c1]|] eqn:Hm; [|done]. simpl.
  destruct (play c1 sched) as [[e2 c2]|] eqn:Hp; [|done]. simpl. intros [= <- <-].
  destruct (move_distinct _ _ _ _ _ Hc ltac:(lia) Hm) as [Hc1 Hle]. eapply IH; [done|lia|done].
Qed.

(** C22: In every interleaving of any calls, [cas] included, no two entries of the store
    have the same CAS token, and no entry has the token of an item that a thread is
    still about to store; a token names one version of one entry.  The hypothesis on
    the length of the schedule keeps the 64-bit counter from wrapping. *)
Theorem concurrent_tokens_unique n s sched evs c :
  wf s -> cas_counter s + len sched <= U64_MAX -> play (start n s) sched = Some (evs, c) ->
  cas_ok (store c) /\
  (forall i o p q k it, threads c !! i = Some (Busy o p) -> token p = Some q ->
     data (store c) !! k = Some it -> cas_unique it <> q).
Proof.
  intros Hw Hu Hp. destruct (play_distinct _ _ _ _ (distinct_start n s Hw) Hu Hp) as [Hd _ _ Hs].
  split; [done|]. intros i o p q k it Hi Hq Hk. by eapply (Hs i (Busy o p)).
Qed.

End tokens.

Section witnesses.
#[local] Existing Instances release linux64 by_elements.

(** Two writers of one key, one of them stopped before it stores. *)
Definition two_writers : list (nat * turn) :=
  [(0%nat, Start (OpSet «"a"» «"1"» 0 0)); (1%nat, Start (OpSet «"a"» «"2"» 0 0));
   (0%nat, Go 0); (1%nat, Go 0); (1%nat, Go 0); (1%nat, Go 0); (1%nat, Go 0)].

Definition one_written : list event * config :=
  Eval vm_compute in default ([], start 2 (new 200 0)) (play (start 2 (new 200 0)) two_writers).

Lemma concurrent_tokens_unique_witness :
  cas_ok (store one_written.2) /\
  (forall i o p q k it, threads one_written.2 !! i = Some (Busy o p) -> token p = Some q ->
     data (store one_written.2) !! k = Some it -> cas_unique it <> q).
Proof.
  apply (concurrent_tokens_unique 2 (new 200 0) two_writers one_written.1).
  - apply wf_new.
  - vm_compute; discriminate.
  - by_vm.
Defined.

End witnesses.
