(* ===== verification/ConcurrentRaces.v ===== *)
(** * Races of the store

    Schedules in which two threads see more than one step of an operation: [add] and
    [cas] check and store in separate steps, [cas] gives the old entry's bytes back
    before it stores, and [get] deletes an expired key after it has released the guard.
    Each run is played by [play] on two threads. *)

From S2P Require Import Prelude RustStd Storage Concrete StorageFacts StorageInv StorageOps StorageThms.
From S2P Require Import Concurrent ConcurrentSpec ConcurrentThms ConcurrentSolo.

Section races.
#[local] Existing Instances release linux64 by_elements.

(** [n] turns of thread [i] at an instant. *)
Definition goes (i n : nat) (now : Z) : list (nat * turn) := replicate n (i, Go now).

(** A store with one entry, whose token is 1. *)
Definition one_entry : Storage := Eval vm_compute in state_of (run 0 (OpSet «"a"» «"1"» 0 0) (new 1000 0)).

(** The same, with a lifetime of one second. *)
Definition short_lived : Storage := Eval vm_compute in state_of (run 0 (OpSet «"a"» «"1"» 0 1) (new 1000 0)).

Definition dropped (evs : list event) : list bytes :=
  omap (fun e => match e with Forgot k => Some k | _ => None end) evs.

(** Both threads look the key up before either stores. *)
Definition add_race : list (nat * turn) :=
  [(0%nat, Start (OpAdd «"a"» «"1"» 0 0)); (1%nat, Start (OpAdd «"a"» «"2"» 0 0))] ++
  goes 0 1 0 ++ goes 1 1 0 ++ goes 0 4 0 ++ goes 1 4 0.

(** Thread 1 compares and swaps while thread 0 has released the guard to make room. *)
Definition cas_race : list (nat * turn) :=
  [(0%nat, Start (OpCas «"a"» «"2"» 0 0 1)); (1%nat, Start (OpCas «"a"» «"3"» 0 0 1))] ++
  goes 0 3 0 ++ goes 1 6 0 ++ goes 0 3 0.

(** Thread 1 deletes the key while thread 0 has released the guard. *)
Definition cas_delete_race : list (nat * turn) :=
  [(0%nat, Start (OpCas «"a"» «"2"» 0 0 1)); (1%nat, Start (OpDelete «"a"»))] ++
  goes 0 3 0 ++ goes 1 1 0 ++ goes 0 3 0.

(** Thread 0 sees an expired item; thread 1 stores a new one before it is deleted. *)
Definition get_race : list (nat * turn) :=
  [(0%nat, Start (OpGet «"a"»)); (1%nat, Start (OpSet «"a"» «"2"» 0 0))] ++
  goes 0 1 (2 * SEC) ++ goes 1 4 (2 * SEC) ++ goes 0 2 (2 * SEC).

(** The end of a run: the replies, the keys dropped, the value under ["a"], the counter
    and the size of what is stored. *)
Definition summary (x : option (list event * config))
    : option (list reply * list bytes * option bytes * Z * Z) :=
  '(evs, c) ← x;
  Some (replies evs, dropped evs, value <$> data (store c) !! «"a"», memory_used (store c), total (data (store c))).

(** The checks of [add] and [cas] are not atomic with their stores.  Two [add]s of one
    key both answer [Stored] although no entry was dropped in between, and the second
    overwrites the first; two [cas] with the same token both answer [Stored], although
    the first had changed the entry; and when the key is deleted between the two steps
    of a [cas], the bytes of its old entry are subtracted twice and the counter stays
    below the size of what is stored. *)
Theorem checks_are_not_atomic :
  summary (play (start 2 (new 1000 0)) add_race) =
    Some ([RRes Stored; RRes Stored], [], Some «"2"», 74, 74) /\
  summary (play (start 2 one_entry) cas_race) =
    Some ([RRes Stored; RRes Stored], [], Some «"2"», 74, 74) /\
  summary (play (start 2 one_entry) cas_delete_race) =
    Some ([RRes Deleted; RRes Stored], [], Some «"2"», 0, 74).
Proof. split_and!; by_vm. Qed.

(** [get] releases the guard before it deletes an expired key: an item that another
    thread stores in between is deleted, although it has not expired and the memory is
    not short. *)
Theorem get_drops_fresh_item :
  summary (play (start 2 short_lived) get_race) =
    Some ([RRes Stored; RItem None], [«"a"»], None, 0, 0).
Proof. by_vm. Qed.

End races.
