(* ===== verification/Runtimes.v ===== *)
(** * Conversations: the two runtimes against one specification

    The specification of a conversation is the request layer alone: each request in
    turn, sent on its own, is answered from the store the previous one left.  Both event
    loops implement it, however the bytes are split, so for requests and responses that
    fit one buffer the choice of the runtime does not change what a client receives or
    what the store becomes.  Pipelined requests are outside of it: mio loses them, and
    io_uring keeps them until more bytes arrive. *)

From S2P Require Import Prelude RustStd RustStdFacts Storage Memcached Resp Ping Request RequestFacts Buffer Slab Connection Token.
From S2P Require Import Concrete BufRing Mio MioFacts MioRun MioThms Uring UringFacts UringRun UringThms SockAddr Config Server.

(** A request in the pieces in which it arrives, the last one with its clock, and the
    sizes of the writes that take the response. *)
Record round := mkRound {
  pieces_in : list ((nat -> Z) * bytes);
  last_clock : nat -> Z;
  last_in : bytes;
  pieces_out : list Z;
  last_out : Z
}.

Definition request (r : round) : bytes := joined (pieces_in r) ++ last_in r.

(** The same request at the same time, split in any other way. *)
Definition same_request (r r' : round) : Prop := request r = request r' /\ last_clock r = last_clock r'.

Section runtimes.
Context `{BP : BuildProfile, LY : Layout, HO : HashOrder, UC : UnicodeCase, FL : FrameLayout}.
Context `{SL : SlabLib, LW : !SlabLaws}.
Context (config : Config) (proto : Protocol).

Abbreviation mcfg := (mio_settings config).
Abbreviation ucfg := (uring_settings config).

(** What the request layer makes of the requests, one after the other: their responses
    and the store at the end. *)
Inductive served : Storage -> list round -> list bytes -> Storage -> Prop :=
| served_nil s : served s [] [] s
| served_cons s r response s1 rs responses s2 :
    arrives mcfg proto s (pieces_in r) -> last_in r <> [] -> len (request r) <= buffer_size config ->
    MioRun.answers mcfg (last_clock r) proto (request r) s (len (request r)) response s1 ->
    taken (len response) (pieces_out r) (last_out r) ->
    served s1 rs responses s2 -> served s (r :: rs) (response :: responses) s2.

(** The specification does not depend on how the bytes are split. *)
Lemma answers_det clock x s n n' resp resp' s1 s1' :
  0 <= buffer_size config -> MioRun.answers mcfg clock proto x s n resp s1 -> MioRun.answers mcfg clock proto x s n' resp' s1' ->
  resp = resp' /\ s1 = s1'.
Proof.
  intros Hb H H'. set (o := repeat Byte.x00 (Z.to_nat (buffer_size config))).
  assert (Ho : len o = buffer_size config) by (unfold o, len; rewrite repeat_length; lia).
  destruct (H o Ho) as (out & _ & Hr & E). destruct (H' o Ho) as (out' & _ & Hr' & E').
  rewrite E in E'. injection E' as _ Hl <- ->. split; [|done]. apply Nat2Z.inj in Hl. congruence.
Qed.

Lemma served_det s rs rs' resps resps' s1 s1' :
  0 <= buffer_size config -> Forall2 same_request rs rs' ->
  served s rs resps s1 -> served s rs' resps' s1' -> resps = resps' /\ s1 = s1'.
Proof.
  intros Hb Hsame H. revert rs' resps' s1' Hsame.
  induction H as [s|s r response s1 rs resps s2 _ _ _ Ha _ _ IH]; intros rs' resps' s1' Hsame H'.
  - inversion Hsame; subst. by inversion H'.
  - inversion Hsame as [|? r' ? rs0 [Hreq Hclk] Hrest]; subst.
    inversion H' as [|? ? resp' s1'' ? resps0 ? _ _ _ Ha' _ H'']; subst. rewrite Hreq, Hclk in Ha.
    destruct (answers_det _ _ _ _ _ _ _ _ _ Hb Ha Ha') as [-> ->].
    by destruct (IH _ _ _ Hrest H'') as [-> ->].
Qed.

(** ** mio *)

Definition mio_events (id : nat) (rs : list round) : list Mio.Event :=
  concat ((fun r => exchange id (pieces_in r) (last_clock r) (last_in r) (pieces_out r) (last_out r)) <$> rs).

Lemma mio_conversation id c w s rs resps s' :
  MioFacts.settings_ok mcfg -> idle mcfg id c w -> Mio.protocol c = proto -> Mio.storage w = s ->
  served s rs resps s' ->
  exists w' c' ps, Mio.worker_loop mcfg (mio_events id rs) w = Done (inr tt) w' /\
    idle mcfg id c' w' /\ Mio.storage w' = s' /\
    Mio.wire w' = Mio.wire w ++ ((stream c,.) <$> ps) /\ concat ps = concat resps.
Proof.
  intros Hcfg Hid Hp Hs H. revert c w Hid Hp Hs.
  induction H as [s|s r response s1 rs resps s2 Ha Hd Hl Hans Ht _ IH]; intros c w Hid Hp Hs.
  - exists w, c, []. split_and!; try done. by rewrite app_nil_r.
  - destruct (exchange_run mcfg id c w (pieces_in r) (last_clock r) (last_in r) (len (request r)) response s1
      (pieces_out r) (last_out r)) as (w1 & c1 & ps1 & E1 & Hid1 & Hc1 & S1 & W1 & P1); try (by rewrite ?Hp, ?Hs); try done.
    destruct Hc1 as (Hst & Hpr & _).
    destruct (IH c1 w1 Hid1) as (w2 & c2 & ps2 & E2 & Hid2 & S2 & W2 & P2); [congruence|done|].
    exists w2, c2, (ps1 ++ ps2). split_and!; try done.
    + unfold mio_events. cbn [fmap list_fmap concat]. by rewrite (worker_loop_app _ _ _ _ _ E1).
    + rewrite W2, W1, <- app_assoc, fmap_app. by rewrite Hst.
    + rewrite concat_app. cbn [concat]. congruence.
Qed.

(** ** io_uring *)

Fixpoint uring_rounds (id : nat) (rs : list round) : st UWorker (uring_error + unit) :=
  match rs with
  | [] => ok tt
  | r :: rs =>
      _ ←? uexchange ucfg id (pieces_in r) (last_clock r) (last_in r) (pieces_out r) (last_out r);
      uring_rounds id rs
  end.

Lemma uring_conversation id c w s rs resps s' :
  UringFacts.settings_ok ucfg -> uwaiting ucfg id c [] w -> conn_protocol c = proto -> Uring.storage w = s ->
  served s rs resps s' ->
  exists w' c' ps, uring_rounds id rs w = Done (inr tt) w' /\ uwaiting ucfg id c' [] w' /\
    Uring.storage w' = s' /\ Uring.wire w' = Uring.wire w ++ ((fd c,.) <$> ps) /\ concat ps = concat resps.
Proof.
  intros Hcfg Hid Hp Hs H. revert c w Hid Hp Hs.
  induction H as [s|s r response s1 rs resps s2 Ha Hd Hl Hans Ht _ IH]; intros c w Hid Hp Hs.
  - exists w, c, []. split_and!; try done. by rewrite app_nil_r.
  - destruct (uexchange_run ucfg id c [] w (pieces_in r) (last_clock r) (last_in r) (len (request r)) response s1
      (pieces_out r) (last_out r)) as (w1 & c1 & ps1 & E1 & Hid1 & [Hst Hpr] & S1 & W1 & P1);
      try (by rewrite ?Hp, ?Hs); try done.
    change ([] ++ ujoined (pieces_in r) ++ last_in r) with (request r) in Hid1.
    unfold len in Hid1. rewrite Nat2Z.id, drop_all in Hid1.
    destruct (IH c1 w1 Hid1) as (w2 & c2 & ps2 & E2 & Hid2 & S2 & W2 & P2); [congruence|done|].
    exists w2, c2, (ps1 ++ ps2). split_and!; try done.
    + cbn [uring_rounds]. unfold try. by rewrite E1.
    + rewrite W2, W1, <- app_assoc, fmap_app. by rewrite Hst.
    + rewrite concat_app. cbn [concat]. congruence.
Qed.

(** C12: A conversation of single requests is the same on both runtimes.  From the same
    store, a client of the mio worker and a client of the io_uring worker of one
    configuration send the same requests at the same times, one at a time and each split
    in its own way; each request fits one buffer and has a non-empty response that fits
    one buffer, and the pool of the io_uring worker has the buffers its client needs.
    Then both are sent the same bytes, the responses of the request layer, and leave the
    same store. *)
Theorem runtimes_agree id c w uid uc uw rs rs' resps resps' s' s'' :
  MioFacts.settings_ok mcfg -> UringFacts.settings_ok ucfg ->
  idle mcfg id c w -> Mio.protocol c = proto ->
  uwaiting ucfg uid uc [] uw -> conn_protocol uc = proto -> Uring.storage uw = Mio.storage w ->
  Forall2 same_request rs rs' ->
  served (Mio.storage w) rs resps s' -> served (Mio.storage w) rs' resps' s'' ->
  exists w' uw' ps ups,
    Mio.worker_loop mcfg (mio_events id rs) w = Done (inr tt) w' /\
    uring_rounds uid rs' uw = Done (inr tt) uw' /\
    Mio.wire w' = Mio.wire w ++ ((stream c,.) <$> ps) /\ Uring.wire uw' = Uring.wire uw ++ ((fd uc,.) <$> ups) /\
    concat ps = concat ups /\ concat ps = concat resps /\
    Mio.storage w' = Uring.storage uw' /\ Mio.storage w' = s'.
Proof.
  intros Hm Hu Hid Hp Hw Hq Hs Hsame H H'.
  destruct (mio_conversation id c w _ rs resps s' Hm Hid Hp eq_refl H) as (w' & c' & ps & E & _ & S1 & W1 & P1).
  destruct (uring_conversation uid uc uw _ rs' resps' s'' Hu Hw Hq Hs H') as (uw' & uc' & ups & E' & _ & S2 & W2 & P2).
  destruct (served_det _ _ _ _ _ _ _ ltac:(apply Z.lt_le_incl, Hm) Hsame H H') as [<- <-].
  exists w', uw', ps, ups. split_and!; congruence.
Qed.

End runtimes.

(** ** Witness *)

Section witness.
#[local] Existing Instance Concrete.release.
#[local] Existing Instance linux64.
#[local] Existing Instance by_elements.
#[local] Existing Instance some_unicode.
#[local] Existing Instance frame64.
#[local] Existing Instance lowest_key.
#[local] Existing Instance lowest_key_laws.

(** Four connections, buffers of 32 bytes, the ping protocol. *)
Definition small : Config :=
  mkConfig «"127.0.0.1"» 7 100000 0 60 1 «"info"» Config.Ping Config.Mio 4096 32 4 64 100.

Lemma small_idle : idle (mio_settings small) 0 (mkMio 7 reading 11 10 None None PPing) (accepted (mio_settings small)).
Proof.
  split_and!; [|reflexivity|reflexivity].
  eapply (reach_event _ (Mio.worker_new (mio_settings small) fresh_store) (ListenerReady [(7, true)]));
    [apply reach_start|reflexivity].
Qed.

(** Two pings, whole or in two pieces with the answer in two. *)
Definition whole : round := mkRound [] clk ping [] 6.
Definition halves : round := mkRound [(clk, «"PI"»)] clk (drop 2 ping) [1; 2] 100.

Lemma halves_arrive s : arrives (mio_settings small) PPing s (pieces_in halves).
Proof.
  split; [by repeat constructor|]. intros ds1 y ds2 E.
  destruct ds1 as [|z [|]]; simpl in E; [injection E as <- <-|discriminate..].
  intros o Ho. exists o. split; [done|reflexivity].
Qed.

Lemma pings_served s r rs resps :
  r = whole \/ r = halves -> served small PPing s rs resps s -> served small PPing s (r :: rs) (response_pong :: resps) s.
Proof.
  intros Hr Hrs. assert (Ereq : request r = ping ++ []) by (by destruct Hr; subst r).
  eapply served_cons; [| | | | |exact Hrs].
  - destruct Hr; subst r; [apply nothing_arrives|apply halves_arrive].
  - by destruct Hr; subst r.
  - by rewrite Ereq.
  - rewrite Ereq. apply (ping_answers (mio_settings small)); [done|by left].
  - destruct Hr; subst r; (split; [by repeat constructor|done]).
Qed.

Lemma runtimes_agree_witness :
  exists w' uw' ps ups,
    Mio.worker_loop (mio_settings small) (mio_events 0 [halves; whole]) (accepted (mio_settings small)) = Done (inr tt) w' /\
    uring_rounds small 0 [whole; halves] (one_client PPing) = Done (inr tt) uw' /\
    Mio.wire w' = [] ++ ((7,.) <$> ps) /\ Uring.wire uw' = [] ++ ((10,.) <$> ups) /\
    concat ps = concat ups /\ concat ps = concat [response_pong; response_pong] /\
    Mio.storage w' = Uring.storage uw' /\ Mio.storage w' = fresh_store.
Proof.
  apply (runtimes_agree small PPing 0 (mkMio 7 reading 11 10 None None PPing) (accepted (mio_settings small)) 0
    (conn_new 10 PPing) (one_client PPing) [halves; whole] [whole; halves] [response_pong; response_pong]
    [response_pong; response_pong] fresh_store fresh_store).
  - unfold MioFacts.settings_ok, USIZE_MAX, U64_MAX, I64_MAX. simpl. lia.
  - apply ucfg_ok.
  - apply small_idle.
  - done.
  - apply uwaiting_first.
  - done.
  - done.
  - by repeat constructor.
  - apply pings_served; [by right|]. apply pings_served; [by left|]. apply served_nil.
  - apply pings_served; [by left|]. apply pings_served; [by right|]. apply served_nil.
Defined.

End witness.
