(* ===== verification/Clients.v ===== *)
(** * Several clients of one worker: the specification

    Clients connect to a worker, send one request at a time and leave, and other workers
    change the shared store in between.  The specification gives each client a session
    of its own: the bytes of a request collected so far, or a response on its way; only
    the store is shared.  A client is named by the descriptor of its socket, which a
    later client may get again.  [MioClients] and [UringClients] show that the two event
    loops implement it. *)

From S2P Require Import Prelude RustStd Storage Resp Request.

Inductive session : Type :=
| Waits (x : bytes)
| Sends (response : bytes) (n : Z).

(** What happens next: a client connects, its bytes arrive, its socket takes bytes of its
    response, it closes the connection while nothing is sent to it, its connection fails
    while something is, or another worker leaves the store in another state. *)
Inductive happening : Type :=
| Connect (f : Z)
| Arrive (f : Z) (clock : nat -> Z) (d : bytes)
| Take (f k : Z)
| Leave (f : Z)
| Break (f : Z)
| Elsewhere (s : Storage).

Section clients.
Context `{BP : BuildProfile, LY : Layout, HO : HashOrder, UC : UnicodeCase, FL : FrameLayout}.

(** The number of clients the worker is configured for and the number it has buffers for,
    the size of the buffers, the limit on values and the protocol of the worker; the
    results of the request layer on which it closes the connection; and whether it
    survives a write that fails or sends nothing. *)
Context (limit room size max : Z) (proto : Protocol) (hangs : ProcessResult -> bool) (survives : bool).
Implicit Types (m : gmap Z session).

(** The request layer asks for more than the bytes [x], whatever the output buffer
    holds; it answers them with [response], and nothing of them is left over; it gives a
    result on which the connection is closed. *)
Definition asks_more (clock : nat -> Z) (x : bytes) (s : Storage) : Prop :=
  forall o, len o = size -> exists out, len out = len o /\
    process clock proto x o max s = Done (NeedData, out) s.

Definition responds (clock : nat -> Z) (x : bytes) (s : Storage) (response : bytes) (s' : Storage) : Prop :=
  exists consumed, len x <= consumed /\
  forall o, len o = size -> exists out, len out = len o /\ take (length response) out = response /\
    process clock proto x o max s = Done (Response consumed (len response), out) s'.

Definition ends (clock : nat -> Z) (x : bytes) (s s' : Storage) : Prop :=
  forall o, len o = size -> exists r out, hangs r = true /\ len out = len o /\
    process clock proto x o max s = Done (r, out) s'.

(** One step on the store and the sessions, with the response that the request layer
    gives a client and the bytes that are sent to a client.  A client beyond the limit is
    turned away.  The bytes of one request and its response each fit a buffer.  A client
    whose request has an empty response loses its connection when its socket is
    writable. *)
Inductive client_step : Storage * gmap Z session -> happening -> list (Z * bytes) -> list (Z * bytes) ->
    Storage * gmap Z session -> Prop :=
| step_connect s m f :
    0 <= f -> m !! f = None -> Z.of_nat (base.size m) < limit -> Z.of_nat (base.size m) < room ->
    client_step (s, m) (Connect f) [] [] (s, <[f := Waits []]> m)
| step_refuse s m f :
    0 <= f -> m !! f = None -> limit <= Z.of_nat (base.size m) ->
    client_step (s, m) (Connect f) [] [] (s, m)
| step_more s m f clock x d :
    m !! f = Some (Waits x) -> d <> [] -> len x + len d <= size -> asks_more clock (x ++ d) s ->
    client_step (s, m) (Arrive f clock d) [] [] (s, <[f := Waits (x ++ d)]> m)
| step_answer s m f clock x d response s' :
    m !! f = Some (Waits x) -> d <> [] -> len x + len d <= size ->
    responds clock (x ++ d) s response s' -> response <> [] \/ survives = true ->
    client_step (s, m) (Arrive f clock d) [(f, response)] [] (s', <[f := Sends response 0]> m)
| step_end s m f clock x d s' :
    m !! f = Some (Waits x) -> d <> [] -> len x + len d <= size -> ends clock (x ++ d) s s' ->
    client_step (s, m) (Arrive f clock d) [] [] (s', base.delete f m)
| step_take s m f response n k :
    m !! f = Some (Sends response n) -> response <> [] -> 0 < k ->
    client_step (s, m) (Take f k) [] [(f, take (Z.to_nat k) (drop (Z.to_nat n) response))]
      (s, <[f := if len response <=? n + k then Waits [] else Sends response (n + k)]> m)
| step_silent s m f k :
    m !! f = Some (Sends [] 0) -> 0 < k -> client_step (s, m) (Take f k) [] [] (s, base.delete f m)
| step_leave s m f x :
    m !! f = Some (Waits x) -> client_step (s, m) (Leave f) [] [] (s, base.delete f m)
| step_break s m f response n :
    m !! f = Some (Sends response n) -> survives = true ->
    client_step (s, m) (Break f) [] [] (s, base.delete f m)
| step_elsewhere s m s' : client_step (s, m) (Elsewhere s') [] [] (s', m).

Inductive client_steps : Storage * gmap Z session -> list happening -> list (Z * bytes) ->
    list (Z * bytes) -> Storage * gmap Z session -> Prop :=
| steps_nil a : client_steps a [] [] [] a
| steps_cons a h ans out a1 hs anss outs a2 :
    client_step a h ans out a1 -> client_steps a1 hs anss outs a2 ->
    client_steps a (h :: hs) (ans ++ anss) (out ++ outs) a2.

Lemma steps_quiet a h a1 hs anss outs a2 :
  client_step a h [] [] a1 -> client_steps a1 hs anss outs a2 -> client_steps a (h :: hs) anss outs a2.
Proof. apply (steps_cons a h [] []). Qed.

Lemma steps_answer a h x a1 hs anss outs a2 :
  client_step a h [x] [] a1 -> client_steps a1 hs anss outs a2 -> client_steps a (h :: hs) (x :: anss) outs a2.
Proof. apply (steps_cons a h [x] []). Qed.

Lemma steps_sent a h x a1 hs anss outs a2 :
  client_step a h [] [x] a1 -> client_steps a1 hs anss outs a2 -> client_steps a (h :: hs) anss (x :: outs) a2.
Proof. apply (steps_cons a h [] [x]). Qed.

(** The bytes of one client, and what is still to be sent to it. *)
Definition bytes_of (f : Z) (l : list (Z * bytes)) : bytes :=
  concat ((fun x => if bool_decide (x.1 = f) then x.2 else []) <$> l).

Definition unsent m (f : Z) : bytes :=
  match m !! f with Some (Sends response n) => drop (Z.to_nat n) response | _ => [] end.

Lemma bytes_of_app f l k : bytes_of f (l ++ k) = bytes_of f l ++ bytes_of f k.
Proof. unfold bytes_of. by rewrite fmap_app, concat_app. Qed.

Lemma bytes_of_single f g x : bytes_of f [(g, x)] = if bool_decide (g = f) then x else [].
Proof. unfold bytes_of. simpl. by rewrite app_nil_r. Qed.

Lemma unsent_insert m g ss f :
  unsent (<[g := ss]> m) f = if bool_decide (g = f) then unsent {[f := ss]} f else unsent m f.
Proof.
  unfold unsent. case_bool_decide; [subst; by rewrite lookup_insert_eq, lookup_singleton_eq|by rewrite lookup_insert_ne].
Qed.

(** A session that ends while nothing is owed. *)
Lemma unsent_delete m g f : unsent m g = [] -> unsent (base.delete g m) f = unsent m f.
Proof.
  intros Hg. destruct (decide (f = g)) as [->|]; [rewrite Hg; unfold unsent; by rewrite lookup_delete_eq|].
  unfold unsent. by rewrite lookup_delete_ne.
Qed.

(** Progress inside a response is never negative. *)
Definition sane m : Prop := forall f response n, m !! f = Some (Sends response n) -> 0 <= n.

Lemma sane_insert m f ss : sane m -> (forall response n, ss = Sends response n -> 0 <= n) -> sane (<[f := ss]> m).
Proof. intros H Hss g r n. rewrite lookup_insert_Some. intros [[_ ?]|[_ ?]]; eauto. Qed.

Lemma sane_delete m f : sane m -> sane (base.delete f m).
Proof. intros H g r n [_ ?]%lookup_delete_Some. eauto. Qed.

Lemma step_sane a h ans out a' : client_step a h ans out a' -> sane a.2 -> sane a'.2.
Proof.
  intros H Hs. destruct H; simpl in *; try done; try by apply sane_delete; try by apply sane_insert.
  all: try (by apply sane_insert). all: apply sane_insert; [done|].
  - by intros ? ? [= <- <-].
  - intros r' n'. destruct (_ <=? _); [done|]. intros [= <- <-]. enough (0 <= n) by lia. by eapply Hs.
Qed.

Lemma step_conserves a h ans out a' f :
  client_step a h ans out a' -> h <> Break f -> sane a.2 ->
  bytes_of f out ++ unsent a'.2 f = unsent a.2 f ++ bytes_of f ans.
Proof.
  intros H Hh Hs. destruct H as [s m g _ Hg _ _|s m g _ _ _|s m g clock x d Hg _ _ _|s m g clock x d resp s' Hg _ _ _ _
    |s m g clock x d s' Hg _ _ _|s m g resp n k Hg Hne Hk|s m g k Hg Hk|s m g x Hg|s m g resp n Hg _|s m s']; simpl in *;
    rewrite ?app_nil_r; try done;
    try (rewrite unsent_delete; [done|unfold unsent; by rewrite Hg]);
    try (unfold unsent; rewrite lookup_delete_ne; [done|congruence]);
    rewrite ?unsent_insert, ?bytes_of_single; case_bool_decide; subst; try done;
    unfold unsent; rewrite ?lookup_singleton_eq, ?Hg, ?app_nil_r; try done.
  pose proof (Hs _ _ _ Hg) as Hn. destruct (len resp <=? n + k) eqn:El; boolify.
  - rewrite app_nil_r. apply take_ge. rewrite length_drop. unfold len in El. lia.
  - rewrite Z2Nat.inj_add, <- drop_drop by lia. apply take_drop.
Qed.

(** From a worker without clients: what a client was sent and what it is still owed are
    the responses to its requests, unless its connection failed in the middle of one. *)
Lemma steps_conserve a hs anss outs a' f :
  client_steps a hs anss outs a' -> Break f ∉ hs -> sane a.2 ->
  bytes_of f outs ++ unsent a'.2 f = unsent a.2 f ++ bytes_of f anss.
Proof.
  induction 1 as [a|a h ans out a1 hs anss outs a2 H _ IH]; intros Hb Hs; [by rewrite app_nil_r|].
  apply not_elem_of_cons in Hb as [Hb1 Hb2].
  pose proof (step_conserves _ _ _ _ _ f H (not_eq_sym Hb1) Hs) as E1. apply step_sane in H; [|done].
  rewrite !bytes_of_app, <- app_assoc, (IH Hb2 H), app_assoc, E1. by rewrite app_assoc.
Qed.

Lemma fresh_conserves s hs anss outs a' f :
  client_steps (s, ∅) hs anss outs a' -> Break f ∉ hs -> bytes_of f outs ++ unsent a'.2 f = bytes_of f anss.
Proof. intros H Hb. apply (steps_conserve _ _ _ _ _ f) in H; [exact H|done|]. simpl. by intros ? ? ? ?%lookup_empty_Some. Qed.

End clients.

(** ** Connections by their sockets *)

Section sockets.
Context {A : Type} (socket : A -> Z).
Implicit Types (conns : gmap nat A).

(** The key of the connection with the socket [f]. *)
Definition key_of (f : Z) conns : option nat :=
  fst <$> head (filter (fun x => socket x.2 = f) (map_to_list conns)).

(** No two connections share a socket. *)
Definition apart conns : Prop :=
  forall k1 k2 c1 c2, conns !! k1 = Some c1 -> conns !! k2 = Some c2 -> socket c1 = socket c2 -> k1 = k2.

Lemma key_of_eq f conns k c : apart conns -> conns !! k = Some c -> socket c = f -> key_of f conns = Some k.
Proof.
  intros Ha Hc Hf. unfold key_of.
  assert (Hin : (k, c) ∈ filter (fun x => socket x.2 = f) (map_to_list conns))
    by (apply list_elem_of_filter; split; [done|by apply elem_of_map_to_list]).
  destruct (filter _ _) as [|[k' c'] l] eqn:E; [by apply not_elem_of_nil in Hin|]. simpl. f_equal.
  assert (Hx : (k', c') ∈ filter (fun x => socket x.2 = f) (map_to_list conns)) by (rewrite E; apply list_elem_of_here).
  apply list_elem_of_filter in Hx as [Hx1 Hx2]. apply elem_of_map_to_list in Hx2. simpl in *.
  eapply Ha; [done..|congruence].
Qed.

(** Every connection has a session. *)
Definition known {B} conns (m : gmap Z B) : Prop := forall k c, conns !! k = Some c -> is_Some (m !! socket c).

(** A connection comes or changes, a connection goes. *)
Lemma tracked_insert {B} conns conns' (m : gmap Z B) id c b :
  apart conns -> known conns m -> (forall other, other <> id -> conns' !! other = conns !! other) ->
  conns' !! id = Some c -> (forall c0, conns !! id = Some c0 -> socket c0 = socket c) ->
  (conns !! id = None -> m !! socket c = None) -> apart conns' /\ known conns' (<[socket c := b]> m).
Proof.
  intros Ha Hk Ho Hid Hold Hnew.
  assert (Hdiff : forall other x, conns !! other = Some x -> other <> id -> socket x <> socket c).
  { intros other x Hx Hne Hf. destruct (conns !! id) as [c0|] eqn:E0.
    - apply Hne. eapply Ha; [done..|]. rewrite Hf. symmetry. by apply Hold.
    - destruct (Hk _ _ Hx) as [ss Hs]. by rewrite Hf, (Hnew eq_refl) in Hs. }
  assert (Hcase : forall k x, conns' !! k = Some x -> (k = id /\ x = c) \/ (k <> id /\ conns !! k = Some x)).
  { intros k x Hx. destruct (decide (k = id)) as [->|N]; [left; split; [done|congruence]|right; by rewrite <- Ho]. }
  split.
  - intros k1 k2 c1 c2 [[-> ->]|[N1 H1]]%Hcase [[-> ->]|[N2 H2]]%Hcase E; [done| | |by eapply Ha].
    + by destruct (Hdiff _ _ H2 N2).
    + by destruct (Hdiff _ _ H1 N1).
  - intros k x [[-> ->]|[N Hx]]%Hcase; [by rewrite lookup_insert_eq|].
    rewrite lookup_insert_ne; [by eapply Hk|]. intros E. by destruct (Hdiff _ _ Hx N).
Qed.

Lemma tracked_delete {B} conns (m : gmap Z B) id c :
  apart conns -> known conns m -> conns !! id = Some c ->
  apart (base.delete id conns) /\ known (base.delete id conns) (base.delete (socket c) m).
Proof.
  intros Ha Hk Hc. split.
  - intros k1 k2 c1 c2 [_ ?]%lookup_delete_Some [_ ?]%lookup_delete_Some. by apply Ha.
  - intros k x [Hne Hx]%lookup_delete_Some. rewrite lookup_delete_ne; [by eapply Hk|].
    intros E. apply Hne. by eapply Ha.
Qed.

(** The sessions of [m] and the connections are the same clients. *)
Lemma same_size {B} conns (m : gmap Z B) :
  apart conns -> known conns m ->
  (forall f b, m !! f = Some b -> exists k c, conns !! k = Some c /\ socket c = f) ->
  base.size m = base.size conns.
Proof.
  intros Ha H1 H2. set (l := (fun x => socket x.2) <$> map_to_list conns).
  assert (Hl : list_to_set l = (dom m : gset Z)).
  { apply set_eq. intros f. rewrite elem_of_list_to_set, elem_of_dom. unfold l. rewrite list_elem_of_fmap. split.
    - intros ([k c] & -> & Hc%elem_of_map_to_list). by eapply H1.
    - intros [b Hb]. destruct (H2 _ _ Hb) as (k & c & Hc & <-). exists (k, c). split; [done|by apply elem_of_map_to_list]. }
  rewrite <- (size_dom m), <- Hl, size_list_to_set.
  - unfold l. by rewrite length_fmap, length_map_to_list.
  - unfold l. apply NoDup_fmap_2_strong; [|apply NoDup_map_to_list].
    intros [k1 c1] [k2 c2] Hc1%elem_of_map_to_list Hc2%elem_of_map_to_list E. simpl in E.
    assert (k1 = k2) by (by eapply Ha). by simplify_eq.
Qed.

End sockets.
