(* ===== verification/MioClients.v ===== *)
(** * Several clients of one mio worker

    In whatever order clients connect and leave and their sockets become ready, a mio
    worker shows every client its own session. *)

From S2P Require Import Prelude RustStd Storage Memcached Resp Ping Request RequestFacts Clients.
From S2P Require Import Buffer BufferFacts Slab Connection Concrete Mio MioFacts MioRun MioThms.

Section clients.
Context `{BP : BuildProfile, LY : Layout, HO : HashOrder, UC : UnicodeCase, FL : FrameLayout}.
Context `{SL : SlabLib, LW : !SlabLaws}.
Context (cfg : settings) (Hcfg : settings_ok cfg).
Implicit Types (w : Worker) (m : gmap Z session).

Abbreviation items w := (slab_items (connections w)).

(** The specification for this worker: it has buffers for all the clients it is configured
    for, and closes a connection when the request layer says so. *)
Definition mio_hangs (r : ProcessResult) : bool := match r with Quit | Request.Error => true | _ => false end.

Definition mio_step :=
  client_step (s_max_connections cfg) (s_max_connections cfg) (s_buffer_size cfg) (s_max_value_size cfg)
    (s_protocol cfg) mio_hangs true.
Definition mio_steps :=
  client_steps (s_max_connections cfg) (s_max_connections cfg) (s_buffer_size cfg) (s_max_value_size cfg)
    (s_protocol cfg) mio_hangs true.

(** ** The worker *)

(** The event of the connection whose socket is [f]. *)
Definition on_socket (f : Z) (e : conn_event) : st Worker (io_error + unit) := fun w =>
  match key_of stream f (items w) with
  | Some id => worker_event cfg (ConnReady id e) w
  | None => Done (inl OsError) w
  end.

Definition happen (h : happening) : st Worker (io_error + unit) :=
  match h with
  | Connect f => worker_event cfg (ListenerReady [(f, true)])
  | Arrive f clock d => on_socket f (read_event clock d)
  | Take f k => on_socket f (write_event k)
  | Leave f => on_socket f (read_event (fun _ => 0) [])
  | Break f => on_socket f broken_event
  | Elsewhere s => fun w => Done (inr tt) (with_storage s w)
  end.

Fixpoint happens (hs : list happening) : st Worker (io_error + unit) :=
  match hs with
  | [] => ok tt
  | h :: hs' => _ ←? happen h; happens hs'
  end.

(** A connection is where its session says. *)
Definition at_session (id : nat) (c : MioConnection) (ss : session) w : Prop :=
  match ss with
  | Waits x => waiting cfg id c x w
  | Sends response n => sending cfg id c response n w /\ (n < len response \/ response = [])
  end.

(** The connection of a client: it speaks the protocol of the worker and has no chain. *)
Definition serves (id : nat) (c : MioConnection) (ss : session) w : Prop :=
  at_session id c ss w /\ protocol c = s_protocol cfg /\ read_chain c = None.

(** The connections of the worker are the sessions [m]. *)
Record shows m w : Prop := {
  sh_inv : winv cfg None w;
  sh_apart : apart stream (items w);
  sh_conn : known stream (items w) m;
  sh_session : forall f ss, m !! f = Some ss -> exists id c, serves id c ss w /\ stream c = f
}.

Lemma at_session_items id c ss w : at_session id c ss w -> items w !! id = Some c.
Proof. destruct ss; [by intros []|by intros [[] _]]. Qed.

Lemma at_session_single id c ss w : at_session id c ss w -> write_chain c = None.
Proof.
  destruct ss as [x|response n]; simpl.
  - intros [Hi Hc Hs _]. pose proof (wi_state _ _ _ Hi _ _ Hc) as Hok. unfold state_ok in Hok. rewrite Hs in Hok. apply Hok.
  - intros [Hsd _]. by eapply sending_single.
Qed.

Lemma shows_lookup m w f ss :
  shows m w -> m !! f = Some ss ->
  exists id c, serves id c ss w /\ stream c = f /\ key_of stream f (items w) = Some id.
Proof.
  intros Hsh Hf. destruct (sh_session _ _ Hsh _ _ Hf) as (id & c & Hs & Hst). exists id, c. split_and!; try done.
  eapply key_of_eq; [apply Hsh|eapply at_session_items, Hs|done].
Qed.

Lemma shows_size m w : shows m w -> size m = size (items w).
Proof.
  intros Hsh. apply (same_size stream); [apply Hsh|apply Hsh|]. intros f ss Hf.
  destruct (sh_session _ _ Hsh _ _ Hf) as (id & c & [Hs _] & Hst). exists id, c. split; [|done]. by eapply at_session_items.
Qed.

(** ** Other clients are not touched *)

Lemma isolated_session id w w' other c ss :
  isolated id w w' -> winv cfg None w' -> other <> id -> serves other c ss w -> serves other c ss w'.
Proof.
  intros [Hiso _] Hi Hne [Hss ?]. destruct (Hiso other Hne) as (Hit & _ & Hbuf). split; [|done].
  destruct ss as [x|response n]; simpl in *.
  - destruct Hss as [_ Hc Hs (b & Hb & Hx)]. split; [done|congruence|done|]. exists b. split; [|done].
    by rewrite (Hbuf c _ Hc (read_owned c)).
  - destruct Hss as [[_ Hc Hs Hr (b & Hb & Hx)] Hn]. split; [|done]. split; [done|congruence|done|done|]. exists b. split; [|done].
    by rewrite (Hbuf c _ Hc (write_owned c)).
Qed.

(** The session of one client begins or moves, the others stay. *)
Lemma shows_step m w w' id c ss :
  shows m w -> isolated id w w' -> winv cfg None w' -> serves id c ss w' ->
  (forall c0, items w !! id = Some c0 -> stream c0 = stream c) -> (items w !! id = None -> m !! stream c = None) ->
  shows (<[stream c := ss]> m) w'.
Proof.
  intros [Hi Ha Hc Hm] Hiso Hi' Hss Hold Hnew. pose proof (at_session_items _ _ _ _ (proj1 Hss)) as Hid.
  destruct (tracked_insert stream (items w) (items w') m id c ss) as [Ha' Hc']; [done|done|intros other Ho; by apply Hiso|done..|].
  split; [done..|]. intros g ss'. rewrite lookup_insert_Some. intros [[<- <-]|[Hne Hg]]; [by exists id, c|].
  destruct (Hm _ _ Hg) as (other & x & Hx & Hxs). exists other, x. split; [|done]. eapply isolated_session; [done..| |done].
  intros ->. apply Hne. rewrite <- Hxs. symmetry. by apply Hold, (at_session_items _ _ _ _ (proj1 Hx)).
Qed.

Lemma event_isolated id e w w' :
  winv cfg None w -> worker_event cfg (ConnReady id e) w = Done (inr tt) w' -> winv cfg None w' /\ isolated id w w'.
Proof.
  intros Hi E. pose proof (conn_event_ok cfg id e w Hi Hcfg) as H. unfold wp in H. rewrite E in H. by destruct H as (_ & ? & ?).
Qed.

(** An event of a client that stays. *)
Lemma shows_event m w w' id c c' f ss ss' e :
  shows m w -> serves id c ss w -> stream c = f -> m !! f = Some ss -> worker_event cfg (ConnReady id e) w = Done (inr tt) w' ->
  at_session id c' ss' w' -> same_conn c c' -> (read_chain c = None -> read_chain c' = None) ->
  shows (<[f := ss']> m) w'.
Proof.
  intros Hsh [Hs [Hp Hr]] Hf Hm E Hs' (Q1 & Q2 & _) Hr'. pose proof (at_session_items _ _ _ _ Hs) as Hc.
  destruct (event_isolated _ _ _ _ (sh_inv _ _ Hsh) E) as [Hi' Hiso].
  rewrite <- Hf, <- Q1. apply (shows_step m w w' id c'); try done.
  - split_and!; [done|congruence|by apply Hr'].
  - intros c0 Hc0. congruence.
  - congruence.
Qed.

Lemma shows_elsewhere m w s : shows m w -> shows m (with_storage s w).
Proof.
  intros [Hi Ha Hc Hm]. assert (Hi' : winv cfg None (with_storage s w)) by (by destruct Hi; split).
  split; [done..|]. intros f ss Hf. destruct (Hm _ _ Hf) as (id & c & [Hs ?] & ?). exists id, c. split; [split|]; [|done..].
  destruct ss as [x|response n]; [|destruct Hs as [Hs ?]; split; [|done]]; by destruct Hs; split.
Qed.

(** ** Connecting and leaving *)

Lemma held_plain (x : gmap nat MioConnection) :
  (forall id c, x !! id = Some c -> length (owned c) = 2%nat) -> length (held x) = (2 * size x)%nat.
Proof.
  induction x as [|id c x Hid IH] using map_ind; intros H; [done|].
  rewrite (Permutation_length (held_insert _ _ _ Hid)), length_app, map_size_insert_None by done.
  rewrite IH, (H id c); [lia|by apply lookup_insert_eq|]. intros j y Hj. apply (H j). rewrite lookup_insert_ne by congruence. done.
Qed.

(** While there is room for a client there are two buffers for it. *)
Lemma two_free m w :
  shows m w -> slab_len (connections w) < s_max_connections cfg -> (2 <= length (free_list (buffers w)))%nat.
Proof.
  intros Hsh Hlt. destruct (wi_pool _ _ _ (sh_inv _ _ Hsh)) as [Hp _]. apply Permutation_length in Hp.
  rewrite length_app, length_seq, held_plain in Hp.
  - pose proof (wi_count _ _ _ (sh_inv _ _ Hsh)) as Hcnt. unfold len, slab_len in *. lia.
  - intros id c Hc. destruct (sh_conn _ _ Hsh _ _ Hc) as [ss Hss].
    destruct (shows_lookup _ _ _ _ Hsh Hss) as (id' & c' & (Hs & _ & Hr) & Hst & _).
    pose proof (at_session_items _ _ _ _ Hs) as Hc'. assert (id' = id) as -> by (by eapply (sh_apart _ _ Hsh)).
    rewrite Hc in Hc'. simplify_eq. unfold owned. rewrite Hr, (at_session_single _ _ _ _ Hs). done.
Qed.

Lemma alloc_some p held : pool_inv held p -> (0 < length (free_list p))%nat ->
  exists i p', alloc p = Done (Some i) p' /\ pool_inv (i :: held) p' /\ pool_buffers p' = pool_buffers p /\
    pool_buffer_size p' = pool_buffer_size p /\ length (free_list p) = S (length (free_list p')).
Proof.
  intros Hp Hf. destruct (alloc_cases _ _ Hp) as [E|(i & p' & E & ? & ? & ?)].
  - unfold alloc in E. destruct (pop (free_list p)) as [[]|] eqn:Ep; [done|]. apply pop_None in Ep. rewrite Ep in Hf. simpl in Hf. lia.
  - exists i, p'. split_and!; try done. destruct (alloc_inv _ _ _ _ Hp E) as (_ & -> & _). unfold push. rewrite length_app. simpl. lia.
Qed.

Lemma accept_run m w f :
  shows m w -> m !! f = None -> Z.of_nat (size m) < s_max_connections cfg ->
  exists w', worker_event cfg (ListenerReady [(f, true)]) w = Done (inr tt) w' /\ shows (<[f := Waits []]> m) w' /\
    storage w' = storage w /\ wire w' = wire w.
Proof.
  intros Hsh Hf Hlt. rewrite (shows_size _ _ Hsh) in Hlt. pose proof (two_free _ _ Hsh Hlt) as Hfree.
  pose proof (sh_inv _ _ Hsh) as Hi.
  destruct (alloc_some _ _ (wi_pool _ _ _ Hi) ltac:(lia)) as (i & p1 & E1 & P1 & B1 & S1 & L1).
  destruct (alloc_some _ _ P1 ltac:(lia)) as (j & p2 & E2 & P2 & B2 & S2 & _).
  set (c := mkMio f reading i j None None (s_protocol cfg)). destruct (slab_insert c (connections w)) as [k s] eqn:Es.
  pose proof (slab_insert_vacant _ c (connections w)) as Hv. pose proof (slab_insert_items _ c (connections w)) as Hit.
  rewrite Es in Hv, Hit. simpl in Hv, Hit.
  set (w' := with_poll (<[k := READABLE]> (poll w)) (with_connections s (with_buffers p2 w))).
  assert (Hi' : winv cfg None w') by (apply (winv_insert cfg w f (s_protocol cfg) i j p2 s k); try done; congruence).
  assert (Hfr : forall b, pool_buffers (buffers w') !! b = pool_buffers (buffers w) !! b) by (intros b; simpl; by rewrite B2, B1).
  exists w'. split_and!; [| |done..].
  - simpl. unfold try, accept_one, gets. unfold mbind, st_bind. rewrite (proj2 (Z.leb_gt _ _)) by done.
    unfold on_buffers at 1, zoom at 1. rewrite E1. unfold on_buffers at 1, zoom at 1. simpl. rewrite E2. simpl. fold c. by rewrite Es.
  - apply (shows_step m w w' k c (Waits [])); try done.
    + split.
      * intros other Ho. simpl. rewrite Hit, !lookup_insert_ne by done. split_and!; try done.
      * exists []. split; [by rewrite app_nil_r|]. set_solver.
    + split_and!; [|done..]. split; [done|simpl; by rewrite Hit, lookup_insert_eq|done|].
      destruct (view_lookup cfg _ _ _ _ _ _ Hi' (view_start _ _ _ _ _ Hi' ltac:(simpl; rewrite Hit; apply lookup_insert_eq)) (read_owned c))
        as (b & Hb & _). by exists b.
    + intros c0 Hc0. by rewrite Hv in Hc0.
Qed.

Lemma refuse_run m w f :
  shows m w -> s_max_connections cfg <= Z.of_nat (size m) ->
  worker_event cfg (ListenerReady [(f, true)]) w = Done (inr tt) w.
Proof.
  intros Hsh Hle. rewrite (shows_size _ _ Hsh) in Hle. simpl. unfold try, accept_one, gets, mbind, st_bind.
  by rewrite (proj2 (Z.leb_le _ _)).
Qed.

(** The connection of one client goes. *)
Lemma shows_gone m w w' f ss id c e :
  shows m w -> m !! f = Some ss -> serves id c ss w -> stream c = f ->
  worker_event cfg (ConnReady id e) w = Done (inr tt) w' -> items w' = base.delete id (items w) ->
  shows (base.delete f m) w'.
Proof.
  intros Hsh Hf [Hs _] Hst E Hit. pose proof (at_session_items _ _ _ _ Hs) as Hc.
  destruct (event_isolated _ _ _ _ (sh_inv _ _ Hsh) E) as [Hi' Hiso].
  destruct (tracked_delete stream (items w) m id c) as [Ha' Hc']; [apply Hsh|apply Hsh|done|].
  rewrite <- Hit in Ha', Hc'. rewrite Hst in Hc'.
  split; [done..|]. intros g ss' [Hne Hg]%lookup_delete_Some.
  destruct (shows_lookup _ _ _ _ Hsh Hg) as (k & y & Hy & Hys & _). exists k, y.
  split; [|done]. eapply isolated_session; [done..| |done].
  intros ->. pose proof (at_session_items _ _ _ _ (proj1 Hy)). congruence.
Qed.

Lemma leave_run id c x w :
  waiting cfg id c x w ->
  exists w', worker_event cfg (ConnReady id (read_event (fun _ => 0) [])) w = Done (inr tt) w' /\
    items w' = base.delete id (items w) /\ storage w' = storage w /\ wire w' = wire w.
Proof.
  intros Hw. destruct (waiting_start _ _ _ _ _ Hw) as (b & o & Hb & Hlb & _ & _ & _ & Hxb). destruct Hw as [Hi Hc Hs _].
  assert (E : wp False (handle_readable (fun _ => 0) id (s_max_value_size cfg) (ReadOk []) true)
    (fun r w' => r = inl ConnectionReset /\ w' = w) w).
  { eapply (handle_readable_none cfg _ _ _ _ c (len x) b); [done|done|pose proof (len_nonneg x); lia|done|].
    simpl. by rewrite take_nil. }
  apply wp_returns in E as (r & w' & E & -> & ->).
  erewrite read_event_err by (done || by rewrite Hc). by apply (closed_run cfg id None); [|left].
Qed.

(** ** The refinement *)

(** An event that ends the connection of a client. *)
Lemma gone_refines m w f ss id c e s' :
  shows m w -> m !! f = Some ss -> serves id c ss w -> stream c = f ->
  (exists w', worker_event cfg (ConnReady id e) w = Done (inr tt) w' /\ items w' = base.delete id (items w) /\
    storage w' = s' /\ wire w' = wire w) ->
  exists w', worker_event cfg (ConnReady id e) w = Done (inr tt) w' /\ shows (base.delete f m) w' /\
    storage w' = s' /\ wire w' = wire w ++ [].
Proof.
  intros Hsh Hf Hs Hst (w' & E & Hit & S1 & W1). exists w'. rewrite app_nil_r. split_and!; try done.
  by eapply shows_gone.
Qed.

Lemma step_refines a h ans out a' w :
  mio_step a h ans out a' -> shows a.2 w -> storage w = a.1 ->
  exists w', happen h w = Done (inr tt) w' /\ shows a'.2 w' /\ storage w' = a'.1 /\ wire w' = wire w ++ out.
Proof.
  intros H Hsh Hst. destruct H as [s m f _ Hf Hlt _|s m f _ Hf Hle|s m f clock x d Hf Hd Hl Hn
    |s m f clock x d resp s' Hf Hd Hl (n & _ & Ha) Hne|s m f clock x d s' Hf Hd Hl He|s m f resp n k Hf Hne Hk
    |s m f k Hf Hk|s m f x Hf|s m f resp n Hf _|s m s']; simpl in Hsh, Hst; subst s; cbn [happen fst snd];
    try (destruct (shows_lookup _ _ _ _ Hsh Hf) as (id & c & Hs & Hso & Hkey); unfold on_socket; rewrite Hkey;
         pose proof Hs as (Hw & Hpr & _)).
  - destruct (accept_run m w f Hsh Hf Hlt) as (w' & E & ? & ? & W). exists w'. by rewrite W, app_nil_r.
  - exists w. rewrite app_nil_r. split_and!; try done. by apply (refuse_run m).
  - destruct (read_more cfg Hcfg id c x d clock w) as (w' & c' & E & Hw' & Hsame & Hch & S1 & W1); [done..|by rewrite Hpr|].
    exists w'. split_and!; [done| |done|by rewrite app_nil_r]. by eapply (shows_event m w w' id c c' f (Waits x)).
  - destruct (read_last cfg Hcfg id c x d clock w n resp s') as (w' & c' & E & Hw' & Hsame & Hch & S1 & W1); [done..|by rewrite Hpr|].
    exists w'. split_and!; [done| |done|by rewrite app_nil_r]. eapply (shows_event m w w' id c c' f (Waits x)); try done.
    split; [done|]. destruct resp; [by right|left]. rewrite len_cons. pose proof (len_nonneg resp). lia.
  - eapply gone_refines; [done..|]. apply (read_end cfg Hcfg id c x d clock); [done..|]. intros o Ho. rewrite Hpr.
    destruct (He o Ho) as (r & out & Hr & Hout & E). exists r, out. split_and!; [destruct r; auto|done..]; done.
  - destruct Hw as [Hsd Hlt]. assert (n < len resp) by (by destruct Hlt).
    destruct (write_some cfg Hcfg id c resp n k w Hsd) as (w' & c' & E & Hsame & Hch & S1 & W1 & Hw'); [done..|].
    exists w'. split_and!; [done| |done|by rewrite W1, Hso].
    eapply (shows_event m w w' id c c' f (Sends resp n)); try done.
    destruct (len resp <=? n + k) eqn:El; [done|]. boolify. by split; [|left].
  - destruct Hw as [Hsd _]. eapply gone_refines; [done..|]. by eapply (write_nothing cfg Hcfg).
  - eapply gone_refines; [done..|]. by eapply leave_run.
  - destruct Hw as [Hsd _]. eapply gone_refines; [done..|]. by eapply (write_fails cfg Hcfg).
  - exists (with_storage s' w). split_and!; [done|by apply shows_elsewhere|done|by rewrite app_nil_r].
Qed.

Lemma steps_refine a hs anss outs a' w :
  mio_steps a hs anss outs a' -> shows a.2 w -> storage w = a.1 ->
  exists w', happens hs w = Done (inr tt) w' /\ shows a'.2 w' /\ storage w' = a'.1 /\ wire w' = wire w ++ outs.
Proof.
  intros H. revert w. induction H as [a|a h ans out a1 hs anss outs a2 Hs _ IH]; intros w Hsh Hst.
  - exists w. split_and!; try done. by rewrite app_nil_r.
  - destruct (step_refines _ _ _ _ _ _ Hs Hsh Hst) as (w1 & E1 & Hsh1 & S1 & W1).
    destruct (IH w1 Hsh1 S1) as (w2 & E2 & Hsh2 & S2 & W2). exists w2. split_and!; try done.
    + cbn [happens]. unfold try. by rewrite E1.
    + by rewrite W2, W1, app_assoc.
Qed.

Lemma shows_new s : shows ∅ (worker_new cfg s).
Proof.
  split; [by apply winv_new|..]; simpl; rewrite ?slab_items_new.
  - by intros ? ? ? ? ?%lookup_empty_Some.
  - by intros ? ? ?%lookup_empty_Some.
  - by intros ? ? ?%lookup_empty_Some.
Qed.

(** C8: From its start a mio worker serves the clients that connect to it as if each had
    it for itself.  Clients send one request at a time, in any pieces, each fitting one
    buffer, with a response that fits one buffer.  In whatever order they connect, send
    bytes, take bytes of their responses, leave between requests or break off while a
    response is sent, and however other workers change the shared store in between: the
    worker makes of the store what the request layer makes of each complete request in
    turn; the bytes sent on a socket, followed by those still owed, are the responses to
    the requests that came in on it, one after the other, unless the client broke off in
    the middle of one; a client that quits or sends what the request layer rejects is
    disconnected, and so is one whose request has an empty response; and a client is
    turned away only when the configured number of clients is connected. *)
Theorem clients_are_served s hs anss outs s' m' :
  mio_steps (s, ∅) hs anss outs (s', m') ->
  exists w', happens hs (worker_new cfg s) = Done (inr tt) w' /\ shows m' w' /\ storage w' = s' /\ wire w' = outs /\
    forall f, Break f ∉ hs -> bytes_of f outs ++ unsent m' f = bytes_of f anss.
Proof.
  intros Hs. destruct (steps_refine _ _ _ _ _ (worker_new cfg s) Hs (shows_new s) eq_refl) as (w' & E & Hsh & Hst & Hw).
  exists w'. split_and!; try done. intros f. exact (fresh_conserves _ _ _ _ _ _ _ _ _ _ _ _ f Hs).
Qed.

End clients.

(** ** Witness *)

Section witness.
#[local] Existing Instance Concrete.release.
#[local] Existing Instance linux64.
#[local] Existing Instance by_elements.
#[local] Existing Instance some_unicode.
#[local] Existing Instance frame64.
#[local] Existing Instance lowest_key.
#[local] Existing Instance lowest_key_laws.

Definition quit : bytes := «"QUIT"» ++ crlf.

Lemma quit_ends s : ends 16 100 PPing mio_hangs clk quit s s.
Proof. intros o Ho. exists Quit, o. split_and!; reflexivity. Qed.

(** The second client overtakes the first, whose ping comes in two pieces, and quits; the
    next client gets its descriptor and breaks off while it is answered. *)
Definition overtaking : list happening :=
  [Connect 7; Connect 8; Arrive 7 clk «"PI"»; Arrive 8 clk ping; Elsewhere (Storage.new 5 0); Take 8 6;
   Arrive 8 clk quit; Connect 8; Arrive 8 clk ping; Break 8; Arrive 7 clk (drop 2 ping); Take 7 3].

Definition end_sessions : gmap Z session := {[ 7 := Sends response_pong 3 ]}.

Lemma ping_responds s x d : x ++ d = ping -> responds 16 100 PPing clk (x ++ d) s response_pong s.
Proof.
  intros ->. exists 6. split; [done|]. rewrite <- (app_nil_r ping). apply (ping_answers cfg16); [done|by left].
Qed.

Lemma overtaking_steps :
  mio_steps cfg16 (fresh_store, ∅) overtaking [(8, response_pong); (8, response_pong); (7, response_pong)]
    [(8, response_pong); (7, take 3 response_pong)] (Storage.new 5 0, end_sessions).
Proof.
  eapply steps_quiet; [by apply step_connect|]. eapply steps_quiet; [by apply step_connect|].
  eapply steps_quiet.
  { apply (step_more _ _ _ _ _ _ _ _ _ _ _ [] «"PI"»); [reflexivity|done|done|].
    intros o Ho. exists o. split; [done|reflexivity]. }
  eapply steps_answer.
  { apply (step_answer _ _ _ _ _ _ _ _ _ _ _ [] ping response_pong fresh_store); [reflexivity|done|done| |by left].
    by apply ping_responds. }
  eapply steps_quiet; [apply (step_elsewhere _ _ _ _ _ _ _ _ _ (Storage.new 5 0))|].
  eapply steps_sent; [by apply (step_take _ _ _ _ _ _ _ _ _ 8 response_pong 0 6)|].
  eapply steps_quiet.
  { apply (step_end _ _ _ _ _ _ _ _ _ _ _ [] quit (Storage.new 5 0)); [reflexivity|done|done|apply quit_ends]. }
  eapply steps_quiet; [by apply step_connect|].
  eapply steps_answer.
  { apply (step_answer _ _ _ _ _ _ _ _ _ _ _ [] ping response_pong (Storage.new 5 0)); [reflexivity|done|done| |by left].
    by apply ping_responds. }
  eapply steps_quiet; [by apply (step_break _ _ _ _ _ _ _ _ _ 8 response_pong 0)|].
  eapply steps_answer.
  { apply (step_answer _ _ _ _ _ _ _ _ _ _ _ «"PI"» (drop 2 ping) response_pong (Storage.new 5 0)); [reflexivity|done|done| |by left].
    by apply ping_responds. }
  eapply steps_sent; [by apply (step_take _ _ _ _ _ _ _ _ _ 7 response_pong 0 3)|]. apply steps_nil.
Qed.

Lemma clients_are_served_witness :
  exists w', happens cfg16 overtaking (worker_new cfg16 fresh_store) = Done (inr tt) w' /\ shows cfg16 end_sessions w' /\
    storage w' = Storage.new 5 0 /\ wire w' = [(8, response_pong); (7, take 3 response_pong)] /\
    forall f, Break f ∉ overtaking ->
      bytes_of f [(8, response_pong); (7, take 3 response_pong)] ++ unsent end_sessions f =
      bytes_of f [(8, response_pong); (8, response_pong); (7, response_pong)].
Proof.
  apply (clients_are_served cfg16 (settings_of_ok 16 PPing ltac:(lia)) fresh_store overtaking).
  apply overtaking_steps.
Defined.

End witness.
