(* ===== verification/UringClients.v ===== *)
(** * Several clients of one io_uring worker

    In whatever order clients connect and leave and their operations complete, an
    io_uring worker shows every client its own session, as long as it has two buffers
    for each of them: then it never runs out of buffers.  The pool of the workers that
    [main] starts is enough for 4096 clients at once. *)

From S2P Require Import Prelude RustStd Storage Memcached Resp Ping Request RequestFacts Clients.
From S2P Require Import Buffer BufferFacts Slab Connection Token Concrete BufRing Uring UringFacts UringRun UringThms.

Section clients.
Context `{BP : BuildProfile, LY : Layout, HO : HashOrder, UC : UnicodeCase, FL : FrameLayout}.
Context `{SL : SlabLib, LW : !SlabLaws}.
Context (cfg : settings) (Hcfg : settings_ok cfg).
Implicit Types (w : UWorker) (m : gmap Z session).

Abbreviation conns w := (slab_items (connections (registry w))).
Abbreviation buffer w i := (pool_buffers (write_buffers w) !! i).

(** The specification for this worker: it has two buffers for each of up to 4096 clients,
    and a value or response larger than a buffer costs the client its connection. *)
Definition pool_clients : Z := Z.min (s_max_connections cfg * 2) 8192 / 2.

Definition uring_step :=
  client_step (s_max_connections cfg) pool_clients (s_buffer_size cfg) (s_max_value_size cfg) (s_protocol cfg)
    uring_hangs false.
Definition uring_steps :=
  client_steps (s_max_connections cfg) pool_clients (s_buffer_size cfg) (s_max_value_size cfg) (s_protocol cfg)
    uring_hangs false.

(** ** Enough buffers *)

(** Two buffers for every connection. *)
Definition two_each w : Prop := (2 * size (conns w) <= length (pool_buffers (write_buffers w)))%nat.

Lemma uheld_count (x : gmap nat Connection) : (length (uheld x) <= 2 * size x)%nat.
Proof.
  induction x as [|id c x Hid IH] using map_ind; [done|].
  rewrite (Permutation_length (uheld_insert _ _ _ Hid)), length_app, map_size_insert_None by done.
  assert (length (uowned c) <= 2)%nat; [|lia]. unfold uowned, phase_bufs.
  destruct (phase c) as [| |[]|], (read_buf_idx c); simpl; lia.
Qed.

Lemma always_enough id c x w :
  uinv cfg None w -> two_each w -> conns w !! id = Some c -> phase c = Established (Reading x) -> enough c w.
Proof.
  intros Hi Ht Hc Hp. destruct (u_pool _ _ _ Hi) as [Hpool _]. destruct (u_max _ _ _ Hi) as [Hmax _].
  apply Permutation_length in Hpool. rewrite length_app, length_seq in Hpool. unfold two_each in Ht.
  rewrite (Permutation_length (uheld_delete _ _ _ Hc)), length_app in Hpool. clear Hmax.
  pose proof (uheld_count (base.delete id (conns w))) as Hcnt. rewrite map_size_delete_Some in Hcnt by (by eexists).
  assert (0 < size (conns w))%nat.
  { destruct (size (conns w)) eqn:E; [|lia]. apply map_size_empty_inv in E. rewrite E in Hc. done. }
  unfold enough. unfold uowned in Hpool. rewrite Hp in Hpool. destruct (read_buf_idx c); simpl in *; lia.
Qed.

(** ** The worker *)

(** An operation of the connection whose socket is [f]. *)
Definition uon_socket (f : Z) (m : nat -> st UWorker (uring_error + unit)) : st UWorker (uring_error + unit) := fun w =>
  match key_of fd f (conns w) with
  | Some id => m id w
  | None => Done (inl NotFound) w
  end.

Definition uhappen (h : happening) : st UWorker (uring_error + unit) :=
  match h with
  | Connect f => connects cfg f
  | Arrive f clock d => uon_socket f (fun id => recv cfg clock id d)
  | Take f k => uon_socket f (fun id => send cfg id k)
  | Leave f => uon_socket f (hangs_up cfg)
  | Break f => uon_socket f (fun id => send cfg id (-1))
  | Elsewhere s => fun w => Done (inr tt) (with_storage s w)
  end.

Fixpoint uhappens (hs : list happening) : st UWorker (uring_error + unit) :=
  match hs with
  | [] => ok tt
  | h :: hs' => _ ←? uhappen h; uhappens hs'
  end.

(** A connection is where its session says. *)
Definition usession (id : nat) (c : Connection) (ss : session) w : Prop :=
  match ss with
  | Waits x => uwaiting cfg id c x w
  | Sends response n => usending cfg id c response n [] w /\ n < len response
  end.

(** The connections of the worker are the sessions [m]. *)
Record ushows m w : Prop := {
  us_worker : uworker_ok cfg w;
  us_two : two_each w;
  us_pool : Z.of_nat (length (pool_buffers (write_buffers w))) = Z.min (s_max_connections cfg * 2) 8192;
  us_apart : apart fd (conns w);
  us_known : known fd (conns w) m;
  us_session : forall f ss, m !! f = Some ss ->
    exists id c, usession id c ss w /\ conn_protocol c = s_protocol cfg /\ fd c = f
}.

Lemma usession_conns id c ss w : usession id c ss w -> conns w !! id = Some c.
Proof. destruct ss; [by intros []|by intros [[] _]]. Qed.

Lemma ushows_lookup m w f ss :
  ushows m w -> m !! f = Some ss ->
  exists id c, usession id c ss w /\ conn_protocol c = s_protocol cfg /\ fd c = f /\ key_of fd f (conns w) = Some id.
Proof.
  intros Hsh Hf. destruct (us_session _ _ Hsh _ _ Hf) as (id & c & Hs & Hp & Hst). exists id, c. split_and!; try done.
  eapply key_of_eq; [apply Hsh|by eapply usession_conns|done].
Qed.

Lemma ushows_size m w : ushows m w -> size m = size (conns w).
Proof.
  intros Hsh. apply (same_size fd); [apply Hsh|apply Hsh|]. intros f ss Hf.
  destruct (us_session _ _ Hsh _ _ Hf) as (id & c & Hs & _ & Hst). exists id, c. split; [by eapply usession_conns|done].
Qed.

(** ** Other clients are not touched *)

Lemma accumulated_frame c w w' :
  (forall i, i ∈ uowned c -> buffer w' i = buffer w i) -> accumulated c w' = accumulated c w.
Proof.
  intros H. unfold accumulated. destruct (read_buf_idx c) as [i|] eqn:E; [|done].
  rewrite H; [done|]. unfold uowned. rewrite E. set_solver.
Qed.

Lemma uisolated_session id w w' other c ss :
  uisolated id w w' -> uworker_ok cfg w' -> two_each w' -> other <> id ->
  usession other c ss w -> usession other c ss w'.
Proof.
  intros [Hiso _] Hok Ht Hne. destruct (Hiso _ Hne) as [Hc' Hb]. destruct ss as [x|response n]; simpl.
  - intros [_ Hc (f & Hp) Hx _]. split; [done|congruence|by exists f| |].
    + rewrite (accumulated_frame c w w'); [done|]. intros i. by apply Hb.
    + apply (always_enough other c f); [apply Hok|done|congruence|done].
  - intros [[_ Hc Hr (j & b & Hp & Hj & Hresp) Hx Hrd] Hn].
    split; [|done]. split; try done; [congruence|..].
    + exists j, b. split_and!; try done. rewrite (Hb c); [done..|]. unfold uowned. rewrite Hp. simpl.
      rewrite Nat2Z.id. set_solver.
    + rewrite (accumulated_frame c w w'); [done|]. intros i. by apply Hb.
Qed.

Lemma usession_ok id c ss w : usession id c ss w -> uworker_ok cfg w.
Proof. destruct ss; [by intros []|by intros [[] _]]. Qed.

(** The connections after a step of one of them. *)
Lemma uisolated_conns id w w' c : uisolated id w w' -> conns w' !! id = Some c -> conns w' = <[id := c]> (conns w).
Proof.
  intros [Hiso _] Hc. apply map_eq. intros k. destruct (decide (k = id)) as [->|Hk]; [by rewrite lookup_insert_eq|].
  rewrite lookup_insert_ne by done. by apply Hiso.
Qed.

(** The session of one client begins or moves, the others stay. *)
Lemma ushows_step m w w' id c ss :
  ushows m w -> uisolated id w w' -> usession id c ss w' -> conn_protocol c = s_protocol cfg -> two_each w' ->
  (forall c0, conns w !! id = Some c0 -> fd c0 = fd c) -> (conns w !! id = None -> m !! fd c = None) ->
  ushows (<[fd c := ss]> m) w'.
Proof.
  intros [_ _ Hpl Ha Hk Hm] Hiso Hss Hpr Ht' Hold Hnew. pose proof (usession_ok _ _ _ _ Hss) as Hok.
  destruct (tracked_insert fd (conns w) (conns w') m id c ss) as [Ha' Hk'];
    [done|done|intros other Ho; by apply Hiso|by eapply usession_conns|done..|].
  split; [done|done|by rewrite (proj2 Hiso)|done..|]. intros g ss'. rewrite lookup_insert_Some. intros [[<- <-]|[Hne Hg]]; [by exists id, c|].
  destruct (Hm _ _ Hg) as (other & x & Hx & Hxp & Hxs). exists other, x. split_and!; [|done..].
  eapply uisolated_session; [done..| |done].
  intros ->. apply Hne. rewrite <- Hxs. symmetry. by eapply Hold, usession_conns.
Qed.

(** An event of a client that stays. *)
Lemma ushows_event m w w' id c c' f ss ss' :
  ushows m w -> usession id c ss w -> conn_protocol c = s_protocol cfg -> fd c = f -> same_client c c' ->
  uisolated id w w' -> usession id c' ss' w' -> ushows (<[f := ss']> m) w'.
Proof.
  intros Hsh Hs Hp Hf [Q1 Q2] Hiso Hs'. pose proof (usession_conns _ _ _ _ Hs) as Hc. rewrite <- Hf, <- Q1.
  apply (ushows_step m w w' id c'); try done; [congruence| |intros c0 Hc0; congruence|congruence].
  unfold two_each. rewrite (uisolated_conns _ _ _ _ Hiso (usession_conns _ _ _ _ Hs')), (proj2 Hiso).
  rewrite map_size_insert_Some by (by eexists). apply Hsh.
Qed.

Lemma ushows_elsewhere m w s : ushows m w -> ushows m (with_storage s w).
Proof.
  intros [[Hi Hr] Ht Hpl Ha Hk Hm]. assert (Hok : uworker_ok cfg (with_storage s w)) by (by destruct Hi; split).
  split; [done..|]. intros f ss Hf. destruct (Hm _ _ Hf) as (id & c & Hc & ? & ?). exists id, c. split_and!; [|done..].
  destruct ss as [x|response n]; [|destruct Hc as [Hc ?]; split; [|done]]; by destruct Hc; split.
Qed.

(** ** Connecting and leaving *)

Lemma accept_shows m w f :
  ushows m w -> 0 <= f -> m !! f = None ->
  s_max_connections cfg <= Z.of_nat (size m) \/ Z.of_nat (size m) < pool_clients ->
  exists w', connects cfg f w = Done (inr tt) w' /\ storage w' = storage w /\ wire w' = wire w /\
    ushows (if s_max_connections cfg <=? Z.of_nat (size m) then m else <[f := Waits []]> m) w'.
Proof.
  intros Hsh Hf Hm Hroom. destruct (connects_run cfg Hcfg f w (us_worker _ _ Hsh) Hf) as (w' & E & Hok & B & Hst & W & Hc).
  exists w'. rewrite (ushows_size _ _ Hsh) in Hroom |- *. split_and!; try done.
  destruct (_ <=? _) eqn:El; boolify.
  - assert (Ht : two_each w') by (unfold two_each; rewrite B, Hc; apply Hsh).
    destruct Hsh as [_ _ Hpl Ha Hk Hss]. split; [done|done|by rewrite B|by rewrite Hc..|]. intros g ss Hg.
    destruct (Hss _ _ Hg) as (id & c & Hs & Hp & Hfd). exists id, c. split_and!; try done.
    apply (uisolated_session (S id) w w'); try done. split; [|by rewrite B]. intros other _. by rewrite Hc, B.
  - destruct Hc as (id & Hv & Hc). set (c := conn_new f (s_protocol cfg)) in *.
    assert (Hid : conns w' !! id = Some c) by (rewrite Hc; apply lookup_insert_eq).
    assert (Ht : two_each w').
    { unfold two_each, pool_clients in *. rewrite B, Hc, map_size_insert_None by done. pose proof (us_pool _ _ Hsh).
      pose proof (Z.mul_div_le (Z.min (s_max_connections cfg * 2) 8192) 2). lia. }
    apply (ushows_step m w w' id c); try done.
    + split; [|by rewrite B]. intros other Ho. by rewrite Hc, B, lookup_insert_ne.
    + split; [done|done|by exists 0|done|]. by eapply (always_enough id c 0); [apply Hok|..].
    + intros c0 Hc0. by rewrite Hv in Hc0.
Qed.

(** The connection of one client goes. *)
Lemma ushows_gone m w w' f ss id c :
  ushows m w -> m !! f = Some ss -> usession id c ss w -> fd c = f ->
  uworker_ok cfg w' -> conns w' = base.delete id (conns w) -> uisolated id w w' -> ushows (base.delete f m) w'.
Proof.
  intros Hsh Hf Hs Hst Hok' C Hiso. pose proof (usession_conns _ _ _ _ Hs) as Hc.
  assert (Ht : two_each w').
  { unfold two_each. rewrite (proj2 Hiso), C, map_size_delete_Some by (by eexists). pose proof (us_two _ _ Hsh) as H.
    unfold two_each in H. lia. }
  destruct (tracked_delete fd (conns w) m id c) as [Ha' Hk']; [apply Hsh|apply Hsh|done|]. rewrite <- C in Ha', Hk'. rewrite Hst in Hk'.
  split; [done|done|rewrite (proj2 Hiso); apply Hsh|done..|]. intros g ss' [Hne Hg]%lookup_delete_Some.
  destruct (ushows_lookup _ _ _ _ Hsh Hg) as (k & z & Hz & Hzp & Hzs & _). exists k, z. split_and!; [|done..].
  eapply (uisolated_session id); [done..| |done].
  intros ->. pose proof (usession_conns _ _ _ _ Hz). congruence.
Qed.

(** ** The refinement *)

Lemma ustep_refines a h ans out a' w :
  uring_step a h ans out a' -> ushows a.2 w -> storage w = a.1 ->
  exists w', uhappen h w = Done (inr tt) w' /\ ushows a'.2 w' /\ storage w' = a'.1 /\ wire w' = wire w ++ out.
Proof.
  intros H Hsh Hst. destruct H as [s m f H0 Hf Hlt Hr|s m f H0 Hf Hle|s m f clock x d Hf Hd Hl Hn
    |s m f clock x d resp s' Hf Hd Hl (n & Hall & Ha) Hne|s m f clock x d s' Hf Hd Hl He|s m f resp n k Hf Hne Hk
    |s m f k Hf Hk|s m f x Hf|s m f resp n Hf Hb|s m s']; simpl in Hsh, Hst; subst s; cbn [uhappen fst snd];
    try (destruct (ushows_lookup _ _ _ _ Hsh Hf) as (id & c & Hw & Hpr & Hso & Hkey); unfold uon_socket; rewrite Hkey).
  - destruct (accept_shows m w f Hsh H0 Hf ltac:(by right)) as (w' & E & S & W & Hs). rewrite (proj2 (Z.leb_gt _ _)) in Hs by done.
    exists w'. by rewrite W, app_nil_r.
  - destruct (accept_shows m w f Hsh H0 Hf ltac:(by left)) as (w' & E & S & W & Hs). rewrite (proj2 (Z.leb_le _ _)) in Hs by done.
    exists w'. by rewrite W, app_nil_r.
  - destruct (recv_more cfg Hcfg clock id c x d w) as (w' & c' & E & Hw' & Hsame & S1 & W1 & Hiso); [done..|by rewrite Hpr|].
    exists w'. split_and!; [done| |done|by rewrite app_nil_r]. by eapply (ushows_event m w w' id c c' f (Waits x)).
  - destruct (recv_last cfg Hcfg clock id c x d w n resp s') as (w' & c' & E & Hw' & Hsame & S1 & W1 & Hiso); [done..|by rewrite Hpr|].
    rewrite drop_ge in Hw' by (unfold len in Hall; lia).
    exists w'. split_and!; [done| |done|by rewrite app_nil_r]. eapply (ushows_event m w w' id c c' f (Waits x)); try done.
    split; [done|]. destruct resp; [by destruct Hne|]. rewrite len_cons. pose proof (len_nonneg resp). lia.
  - destruct (recv_end cfg Hcfg clock id c x d w s') as (w' & E & Hok & C & S1 & W1 & Hiso); [done..|by rewrite Hpr|].
    exists w'. split_and!; [done| |done|by rewrite app_nil_r]. by eapply ushows_gone.
  - destruct Hw as [Hsd Hlt].
    destruct (send_some cfg Hcfg id c resp n [] k w Hsd Hlt Hk) as (w' & c' & E & Hsame & S1 & W1 & Hiso & Hw').
    exists w'. split_and!; [done| |done|by rewrite W1, Hso].
    eapply (ushows_event m w w' id c c' f (Sends resp n)); try done.
    destruct (len resp <=? n + k) eqn:El; [done|]. boolify. by split.
  - destruct Hw as [_ Hlt]. by vm_compute in Hlt.
  - pose proof Hw as [Hok Hc (y & Hp) _ _].
    destruct (hangs_up_run cfg id c y w Hok Hc Hp) as (w' & E & Hok' & C & B & S & W).
    exists w'. split_and!; [done| |done|by rewrite app_nil_r]. eapply ushows_gone; try done.
    split; [|by rewrite B]. intros other Ho. by rewrite C, B, lookup_delete_ne.
  - done.
  - exists (with_storage s' w). split_and!; [done|by apply ushows_elsewhere|done|by rewrite app_nil_r].
Qed.

Lemma usteps_refine a hs anss outs a' w :
  uring_steps a hs anss outs a' -> ushows a.2 w -> storage w = a.1 ->
  exists w', uhappens hs w = Done (inr tt) w' /\ ushows a'.2 w' /\ storage w' = a'.1 /\ wire w' = wire w ++ outs.
Proof.
  intros H. revert w. induction H as [a|a h ans out a1 hs anss outs a2 Hs _ IH]; intros w Hsh Hst.
  - exists w. split_and!; try done. by rewrite app_nil_r.
  - destruct (ustep_refines _ _ _ _ _ _ Hs Hsh Hst) as (w1 & E1 & Hsh1 & S1 & W1).
    destruct (IH w1 Hsh1 S1) as (w2 & E2 & Hsh2 & S2 & W2). exists w2. split_and!; try done.
    + cbn [uhappens]. unfold try. by rewrite E1.
    + by rewrite W2, W1, app_assoc.
Qed.

(** The worker before its first client. *)
Lemma worker_new_eq s r room w :
  worker_new cfg s r room = Done (inr tt) w ->
  conns w = ∅ /\ storage w = s /\ wire w = [] /\
  write_buffers w = pool_new (Z.to_nat (Z.min (s_max_connections cfg * 2) 8192)) (s_buffer_size cfg).
Proof.
  unfold worker_new, submit_accept. unfold mbind, st_bind, on_tokens, zoom.
  destruct (token_alloc_eq OpAccept tokens_new) as (t & ts & E & _). simpl. rewrite E. unfold push_sqe, gets. simpl.
  unfold mbind, st_bind. simpl. destruct room as [|room]; simpl.
  - unfold on_tokens, zoom. simpl. destruct (token_free_eq t ts) as (ts' & E' & _). rewrite E'. done.
  - intros [= <-]. simpl. by rewrite slab_items_new.
Qed.

Lemma ushows_new s r entries room w :
  entries <= 32768 -> ring_new entries (s_buffer_size cfg) true true = inr r ->
  worker_new cfg s r room = Done (inr tt) w -> ushows ∅ w.
Proof.
  intros He Hr E. destruct (worker_new_eq _ _ _ _ E) as (Hc & _ & _ & Hb).
  split; [by eapply uworker_new_ok|..]; rewrite ?Hc.
  - unfold two_each. rewrite Hc, map_size_empty. lia.
  - rewrite Hb. simpl. rewrite repeat_length. pose proof Hcfg as (? & _). lia.
  - by intros ? ? ? ? ?%lookup_empty_Some.
  - by intros ? ? ?%lookup_empty_Some.
  - by intros ? ? ?%lookup_empty_Some.
Qed.

(** C9: From its start an io_uring worker serves the clients that connect to it as if each
    had it for itself, as long as no more than 4096 of them (or half the buffers of a
    smaller pool) are connected at once, whatever the configured limit.  Clients send
    one request at a time, in any pieces, each fitting one buffer and with a non-empty
    response, and do not break off while a response is sent.  In whatever order they
    connect, send bytes, take bytes of their responses and leave between requests, and
    however other workers change the shared store in between: the worker makes of the
    store what the request layer makes of each complete request in turn; the bytes sent
    on a socket, followed by those still owed, are the responses to the requests that
    came in on it, one after the other; a client that quits, sends what the request layer
    rejects, or needs a value or response larger than a buffer is disconnected; and the
    pool is never empty when a buffer is needed. *)
Theorem uring_clients_are_served s r entries room w hs anss outs s' m' :
  entries <= 32768 -> ring_new entries (s_buffer_size cfg) true true = inr r ->
  worker_new cfg s r room = Done (inr tt) w ->
  uring_steps (s, ∅) hs anss outs (s', m') ->
  exists w', uhappens hs w = Done (inr tt) w' /\ ushows m' w' /\ storage w' = s' /\ wire w' = outs /\
    forall f, Break f ∉ hs -> bytes_of f outs ++ unsent m' f = bytes_of f anss.
Proof.
  intros He Hr Ew Hs. destruct (worker_new_eq _ _ _ _ Ew) as (_ & Hst & Hwi & _).
  destruct (usteps_refine _ _ _ _ _ w Hs) as (w' & E & Hsh & Hst' & Hw); [by eapply ushows_new|done|].
  exists w'. rewrite Hwi in Hw. split_and!; try done. intros f. exact (fresh_conserves _ _ _ _ _ _ _ _ _ _ _ _ f Hs).
Qed.

End clients.

(** ** Witness *)

Section witness.
#[local] Existing Instance Concrete.release.
#[local] Existing Instance linux64.
#[local] Existing Instance by_elements.
#[local] Existing Instance some_unicode.
#[local] Existing Instance frame64.
#[local] Existing Instance lowest_key.
#[local] Existing Instance lowest_key_laws.

Definition uquit : bytes := «"QUIT"» ++ crlf.

(** The second client overtakes the first and quits; the first has sent half a ping and
    leaves, and another client gets its descriptor. *)
Definition half_and_quit : list happening :=
  [Connect 10; Connect 11; Arrive 10 uclk «"PI"»; Arrive 11 uclk uping; Leave 10;
   Elsewhere (Storage.new 5 0); Connect 10; Take 11 4; Take 11 2; Arrive 11 uclk uquit].

Definition after_quit : gmap Z session := {[ 10 := Waits [] ]}.

Lemma uping_responds s : responds 32 100 PPing uclk ([] ++ uping) s response_pong s.
Proof.
  exists 6. split; [done|]. intros o Ho. assert (Hf : len response_pong <= len o) by (by rewrite Ho).
  exists (filled response_pong o). split; [apply filled_len|].
  destruct (filled_fits response_pong o Hf) as [Hs Ht]. split; [exact Ht|].
  change (respond 6 response_pong o s = Done (Response 6 (len response_pong), filled response_pong o) s).
  rewrite respond_eq. unfold answer. by rewrite Hs.
Qed.

Lemma half_and_quit_steps :
  uring_steps (ucfg PPing) (ustore, ∅) half_and_quit [(11, response_pong)]
    [(11, take 4 response_pong); (11, drop 4 response_pong)] (Storage.new 5 0, after_quit).
Proof.
  eapply steps_quiet; [by apply step_connect|]. eapply steps_quiet; [by apply step_connect|].
  eapply steps_quiet.
  { apply (step_more _ _ _ _ _ _ _ _ _ _ _ [] «"PI"»); [reflexivity|done|done|].
    intros o Ho. exists o. split; [done|reflexivity]. }
  eapply steps_answer.
  { apply (step_answer _ _ _ _ _ _ _ _ _ _ _ [] uping response_pong ustore); [reflexivity|done|done| |by left].
    apply uping_responds. }
  eapply steps_quiet; [by apply (step_leave _ _ _ _ _ _ _ _ _ 10 «"PI"»)|].
  eapply steps_quiet; [apply (step_elsewhere _ _ _ _ _ _ _ _ _ (Storage.new 5 0))|].
  eapply steps_quiet; [by apply step_connect|].
  eapply steps_sent; [by apply (step_take _ _ _ _ _ _ _ _ _ 11 response_pong 0 4)|].
  eapply steps_sent; [by apply (step_take _ _ _ _ _ _ _ _ _ 11 response_pong 4 2)|].
  eapply steps_quiet.
  { apply (step_end _ _ _ _ _ _ _ _ _ _ _ [] uquit (Storage.new 5 0)); [reflexivity|done|done|].
    intros o Ho. exists Quit, o. split_and!; reflexivity. }
  apply steps_nil.
Qed.

Lemma uring_clients_are_served_witness :
  exists w', uhappens (ucfg PPing) half_and_quit (ustart PPing) = Done (inr tt) w' /\
    ushows (ucfg PPing) after_quit w' /\ storage w' = Storage.new 5 0 /\
    wire w' = [(11, take 4 response_pong); (11, drop 4 response_pong)] /\
    forall f, Break f ∉ half_and_quit ->
      bytes_of f [(11, take 4 response_pong); (11, drop 4 response_pong)] ++ unsent after_quit f =
      bytes_of f [(11, response_pong)].
Proof.
  apply (uring_clients_are_served (ucfg PPing) (ucfg_ok PPing) ustore ring4x32 4 8 (ustart PPing) half_and_quit).
  - lia.
  - by_vm.
  - by_vm.
  - apply half_and_quit_steps.
Defined.

End witness.
