(* ===== verification/Tests.v ===== *)
(** * The repository's unit tests

    The [#[test]] functions of the sources, run on the model.  A test is a computation
    with assertions; it passes when it does not panic.  This file has what the tests
    share, [TestsStorage], [TestsMemcached], [TestsResp], [TestsPing], [TestsEcho] and
    [TestsRuntime] the tests of each module. *)

From S2P Require Import Prelude.

(** [assert!(b)] *)
Definition assert {S} (b : bool) : st S unit := fun s => if b then Done tt s else Panicked s.

(** [assert_eq!(x, y)] *)
Definition assert_eq {S A} `{EqDecision A} (x y : A) : st S unit := assert (bool_decide (x = y)).

(** [o.unwrap()], on an [Option] and on a [Result] *)
Definition unwrap {S A} (o : option A) : st S A := fun s =>
  match o with Some a => Done a s | None => Panicked s end.
Definition unwrap_ok {S E A} (r : E + A) : st S A := fun s =>
  match r with inr a => Done a s | inl _ => Panicked s end.

(** [panic!(..)] *)
Definition panic {S} : st S unit := fun s => Panicked s.

Definition is_some {A} (o : option A) : bool := match o with Some _ => true | None => false end.
Definition is_none {A} (o : option A) : bool := negb (is_some o).

Definition passes {S} (test : st S unit) (s : S) : bool :=
  match test s with Done _ _ => true | _ => false end.
