(* ===== verification/TestsStorage.v ===== *)
(** * The tests of src/storage.rs

    Each test runs on the store it creates, at the instant [now]; [thread::sleep]
    lets the clock advance. *)

From S2P Require Import Prelude RustStd Storage Concrete StorageFacts StorageInv StorageOps Tests.

Section tests.
Context `{BP : BuildProfile, LY : Layout, HO : HashOrder}.
Context (now : Z).

(** [Storage::new(1024 * 1024, 0)], the store of most tests. *)
Definition megabyte : Storage := new (1024 * 1024) 0.

Definition test_basic_set_get : bool := passes (
  result ← set now «"key1"» «"value1"» 0 0;
  assert_eq result Stored;;
  i ← get now «"key1"»; item ← unwrap i;
  assert_eq (value item) «"value1"»;;
  assert_eq (flags item) 0) megabyte.

Definition test_get_nonexistent : bool := passes (
  i ← get now «"nonexistent"»;
  assert (is_none i)) megabyte.

Definition test_delete : bool := passes (
  set now «"key1"» «"value1"» 0 0;;
  i ← get now «"key1"»; assert (is_some i);;
  result ← delete «"key1"»;
  assert_eq result Deleted;;
  i ← get now «"key1"»; assert (is_none i);;
  result ← delete «"key1"»;
  assert_eq result NotFound) megabyte.

Definition test_add_existing : bool := passes (
  set now «"key1"» «"value1"» 0 0;;
  result ← add now «"key1"» «"value2"» 0 0;
  assert_eq result NotStored;;
  i ← get now «"key1"»; item ← unwrap i;
  assert_eq (value item) «"value1"») megabyte.

Definition test_add_new : bool := passes (
  result ← add now «"key1"» «"value1"» 0 0;
  assert_eq result Stored;;
  i ← get now «"key1"»; item ← unwrap i;
  assert_eq (value item) «"value1"») megabyte.

Definition test_replace_existing : bool := passes (
  set now «"key1"» «"value1"» 0 0;;
  result ← replace now «"key1"» «"value2"» 0 0;
  assert_eq result Stored;;
  i ← get now «"key1"»; item ← unwrap i;
  assert_eq (value item) «"value2"») megabyte.

Definition test_replace_nonexistent : bool := passes (
  result ← replace now «"key1"» «"value1"» 0 0;
  assert_eq result NotStored) megabyte.

Definition test_cas_success : bool := passes (
  set now «"key1"» «"value1"» 0 0;;
  i ← get now «"key1"»; item ← unwrap i;
  let token := cas_unique item in
  result ← cas now «"key1"» «"value2"» 0 0 token;
  assert_eq result Stored;;
  i ← get now «"key1"»; item ← unwrap i;
  assert_eq (value item) «"value2"») megabyte.

Definition test_cas_mismatch : bool := passes (
  set now «"key1"» «"value1"» 0 0;;
  i ← get now «"key1"»; item ← unwrap i;
  let token := cas_unique item in
  set now «"key1"» «"value2"» 0 0;;
  result ← cas now «"key1"» «"value3"» 0 0 token;
  assert_eq result CasMismatch;;
  i ← get now «"key1"»; item ← unwrap i;
  assert_eq (value item) «"value2"») megabyte.

Definition test_cas_not_found : bool := passes (
  result ← cas now «"nonexistent"» «"value"» 0 0 1;
  assert_eq result NotFound) megabyte.

(** [thread::sleep(Duration::from_millis(1100))] *)
Definition after_sleep : Z := now + 1100000000.

Definition test_expiration : bool := passes (
  set now «"key1"» «"value1"» 0 1;;
  i ← get now «"key1"»; assert (is_some i);;
  i ← get after_sleep «"key1"»; assert (is_none i)) megabyte.

(** The [for] loop of the test of the memory limit. *)
Fixpoint set_keys (i : nat) (n : nat) : st Storage unit :=
  match n with
  | O => mret tt
  | S n' =>
      set now («"key"» ++ dec (Z.of_nat i)) (repeat Byte.x00 50) 0 0;;
      set_keys (S i) n'
  end.

Definition test_memory_limit : bool := passes (
  set_keys 0 20;;
  x ← stats;
  assert (stat_memory_used x <=? 500)) (new 500 0).

Definition test_get_multi : bool := passes (
  set now «"key1"» «"value1"» 0 0;;
  set now «"key2"» «"value2"» 0 0;;
  set now «"key3"» «"value3"» 0 0;;
  results ← get_multi now [«"key1"»; «"key2"»; «"nonexistent"»];
  assert_eq (len results) 2) megabyte.

Definition test_append : bool := passes (
  set now «"key1"» «"Hello"» 0 0;;
  result ← append now «"key1"» «" World"»;
  assert_eq result Stored;;
  i ← get now «"key1"»; item ← unwrap i;
  assert_eq (value item) «"Hello World"») megabyte.

Definition test_prepend : bool := passes (
  set now «"key1"» «"World"» 0 0;;
  result ← prepend now «"key1"» «"Hello "»;
  assert_eq result Stored;;
  i ← get now «"key1"»; item ← unwrap i;
  assert_eq (value item) «"Hello World"») megabyte.

Definition test_flush_all : bool := passes (
  set now «"key1"» «"value1"» 0 0;;
  set now «"key2"» «"value2"» 0 0;;
  flush_all;;
  i ← get now «"key1"»; assert (is_none i);;
  i ← get now «"key2"»; assert (is_none i);;
  x ← stats;
  assert_eq (stat_item_count x) 0;;
  assert_eq (stat_memory_used x) 0) megabyte.

End tests.

(** ** Results *)

Section results.
#[local] Existing Instances linux64 by_elements.
Context `{BP : BuildProfile}.

(** The tests that do not wait. *)
Definition storage_tests (now : Z) : list bool :=
  [test_basic_set_get now; test_get_nonexistent now; test_delete now; test_add_existing now; test_add_new now;
   test_replace_existing now; test_replace_nonexistent now; test_cas_success now; test_cas_mismatch now;
   test_cas_not_found now; test_memory_limit now; test_get_multi now; test_append now; test_prepend now;
   test_flush_all now].

Lemma storage_tests_pass now : forallb id (storage_tests now) = true.
Proof. by_vm. Qed.

(** The item with a lifetime of a second, and the store that holds it. *)
Definition brief (now : Z) : CacheItem := mkItem «"value1"» 0 (Some (now + 1 * NANOS)) 1 now.
Definition holds_brief (now : Z) : Storage := put «"key1"» (brief now) 82 (bump_cas megabyte).

Lemma set_brief now :
  now / NANOS + 1 <= I64_MAX -> set now «"key1"» «"value1"» 0 1 megabyte = Done Stored (holds_brief now).
Proof.
  intros Hn. rewrite set_eq. unfold expiry, instant_add. simpl. by rewrite (proj2 (Z.leb_le _ _) Hn).
Qed.

Lemma brief_expiry now t : is_expired t (brief now) = (now + 1 * NANOS <=? t).
Proof. done. Qed.

Lemma test_expiration_passes now : now / NANOS + 1 <= I64_MAX -> test_expiration now = true.
Proof.
  intros Hn. unfold test_expiration, passes. rewrite (bind_done _ _ _ _ _ (set_brief now Hn)).
  assert (Hg : get now «"key1"» (holds_brief now) = Done (Some (brief now)) (touch «"key1"» (holds_brief now))).
  { rewrite get_eq by done. change (data (holds_brief now) !! «"key1"») with (Some (brief now)).
    cbn beta iota. by rewrite brief_expiry, (proj2 (Z.leb_gt _ _)) by (unfold NANOS; lia). }
  rewrite (bind_done _ _ _ _ _ Hg). cbn [is_some]. unfold mbind at 1, st_bind at 1. cbn [assert].
  rewrite (bind_done _ _ _ None (evict «"key1"» (brief now) (touch «"key1"» (holds_brief now)))); [done|].
  rewrite get_eq by done. change (data (touch «"key1"» (holds_brief now)) !! «"key1"») with (Some (brief now)).
  cbn beta iota. by rewrite brief_expiry, (proj2 (Z.leb_le _ _)) by (unfold after_sleep, NANOS; lia).
Qed.

End results.
