(* ===== verification/TestsConfig.v ===== *)
(** * The tests of src/config.rs

    The document parser is a parameter; what the second test needs of it is that it
    reads the document of the test. *)

From S2P Require Import Prelude RustStd Config Tests.

Section config.
Context `{FS : Files}.

Definition test_default_config : bool := passes (
  let config := TomlConfig_default in
  assert_eq (listen (server config)) «"127.0.0.1:11211"»;;
  assert_eq (storage_max_memory (storage config)) (64 * 1024 * 1024);;
  assert_eq (storage_default_ttl (storage config)) 0) tt.

(** The document of the test; line breaks and quotes are written as bytes. *)
Definition quoted (s : bytes) : bytes := [Byte.x22] ++ s ++ [Byte.x22].
Definition indented (s : bytes) : bytes := repeat Byte.x20 12 ++ s ++ [LF].
Definition toml_str : bytes :=
  [LF] ++ indented «"[server]"» ++ indented («"listen = "» ++ quoted «"0.0.0.0:11211"») ++
  indented «"workers = 4"» ++ [LF] ++ indented «"[storage]"» ++ indented «"max_memory = 134217728"» ++
  indented «"default_ttl = 3600"» ++ [LF] ++ indented «"[logging]"» ++
  indented («"level = "» ++ quoted «"debug"») ++ repeat Byte.x20 8.

(** [toml::from_str] is the document parser and the derived [Deserialize]. *)
Definition test_toml_parsing : bool := passes (
  d ← unwrap_ok (toml_document toml_str);
  let config := deserialize d in
  assert_eq (listen (server config)) «"0.0.0.0:11211"»;;
  assert_eq (server_workers (server config)) (Some 4);;
  assert_eq (storage_max_memory (storage config)) 134217728;;
  assert_eq (storage_default_ttl (storage config)) 3600;;
  assert_eq (level (logging config)) «"debug"») tt.

Lemma test_default_config_passes : test_default_config = true.
Proof. reflexivity. Qed.

(** The entries of the document. *)
Definition toml_entries : TomlDoc :=
  mkDoc (Some (mkServerDoc (Some «"0.0.0.0:11211"») (Some 4) None))
    (Some (mkStorageDoc (Some 134217728) (Some 3600) None None)) (Some (Some «"debug"»)).

Lemma test_toml_parsing_passes : toml_document toml_str = inr toml_entries -> test_toml_parsing = true.
Proof. intros H. unfold test_toml_parsing, passes. by rewrite H. Qed.

End config.
