(* ===== verification/TestsMemcached.v ===== *)
(** * The tests of src/protocols/memcached/parser.rs *)

From S2P Require Import Prelude RustStd Memcached Tests.

Section tests.
Context `{BP : BuildProfile, UC : UnicodeCase}.

(** A command line, as the tests write it. *)
Definition cmd (s : bytes) : bytes := s ++ crlf.

Definition test_parse_get : bool := passes (
  r ← lift (parse (cmd «"get key1 key2 key3"»));
  match r with
  | Complete (CmdGet keys) bytes =>
      assert_eq keys [«"key1"»; «"key2"»; «"key3"»];;
      assert_eq bytes 20
  | _ => panic
  end) tt.

Definition test_parse_gets : bool := passes (
  r ← lift (parse (cmd «"gets key1"»));
  match r with
  | Complete (CmdGets keys) _ => assert_eq keys [«"key1"»]
  | _ => panic
  end) tt.

Definition test_parse_set : bool := passes (
  r ← lift (parse (cmd «"set mykey 0 3600 5"»));
  match r with
  | NeedData command_bytes data_bytes =>
      assert_eq command_bytes 20;;
      assert_eq data_bytes 5
  | _ => panic
  end) tt.

Definition test_parse_set_with_data : bool := passes (
  r ← lift (parse_with_data (cmd «"set mykey 0 3600 5"» ++ cmd «"hello"»));
  match r with
  | Complete (CmdSet key flags exptime bytes noreply) total =>
      assert_eq key «"mykey"»;;
      assert_eq flags 0;;
      assert_eq exptime 3600;;
      assert_eq bytes 5;;
      assert (negb noreply);;
      assert_eq total 27
  | _ => panic
  end) tt.

Definition test_parse_set_noreply : bool := passes (
  r ← lift (parse_with_data (cmd «"set mykey 0 3600 5 noreply"» ++ cmd «"hello"»));
  match r with
  | Complete (CmdSet _ _ _ _ noreply) _ => assert noreply
  | _ => panic
  end) tt.

Definition test_parse_cas : bool := passes (
  r ← lift (parse_with_data (cmd «"cas mykey 0 3600 5 12345"» ++ cmd «"hello"»));
  match r with
  | Complete (CmdCas key _ _ _ cas_unique _) _ =>
      assert_eq key «"mykey"»;;
      assert_eq cas_unique 12345
  | _ => panic
  end) tt.

Definition test_parse_delete : bool := passes (
  r ← lift (parse (cmd «"delete mykey"»));
  match r with
  | Complete (CmdDelete key noreply) _ =>
      assert_eq key «"mykey"»;;
      assert (negb noreply)
  | _ => panic
  end) tt.

Definition test_parse_delete_noreply : bool := passes (
  r ← lift (parse (cmd «"delete mykey noreply"»));
  match r with
  | Complete (CmdDelete key noreply) _ =>
      assert_eq key «"mykey"»;;
      assert noreply
  | _ => panic
  end) tt.

Definition test_parse_flush_all : bool := passes (
  r ← lift (parse (cmd «"flush_all"»));
  match r with
  | Complete (CmdFlushAll delay noreply) _ =>
      assert_eq delay 0;;
      assert (negb noreply)
  | _ => panic
  end) tt.

Definition test_parse_flush_all_with_delay : bool := passes (
  r ← lift (parse (cmd «"flush_all 30"»));
  match r with
  | Complete (CmdFlushAll delay _) _ => assert_eq delay 30
  | _ => panic
  end) tt.

Definition test_parse_stats : bool := passes (
  r ← lift (parse (cmd «"stats"»));
  match r with Complete CmdStats _ => mret tt | _ => panic end) tt.

Definition test_parse_version : bool := passes (
  r ← lift (parse (cmd «"version"»));
  match r with Complete CmdVersion _ => mret tt | _ => panic end) tt.

Definition test_parse_quit : bool := passes (
  r ← lift (parse (cmd «"quit"»));
  match r with Complete CmdQuit _ => mret tt | _ => panic end) tt.

Definition test_parse_incomplete : bool := passes (
  r ← lift (parse «"get key"»);
  match r with Error Incomplete => mret tt | _ => panic end) tt.

Definition test_parse_unknown_command : bool := passes (
  r ← lift (parse (cmd «"unknown command"»));
  match r with
  | Error (UnknownCommand c) => assert_eq c «"unknown"»
  | _ => panic
  end) tt.

Definition test_response_value : bool := passes (
  assert_eq (Response.value «"key1"» 0 «"hello"» None) (cmd «"VALUE key1 0 5"» ++ cmd «"hello"»)) tt.

Definition test_response_value_with_cas : bool := passes (
  assert_eq (Response.value «"key1"» 0 «"hello"» (Some 12345))
    (cmd «"VALUE key1 0 5 12345"» ++ cmd «"hello"»)) tt.

Definition test_key_too_long : bool := passes (
  let long_key := concat (repeat «"k"» (Z.to_nat (MAX_KEY_LENGTH + 1))) in
  r ← lift (parse (cmd («"get "» ++ long_key)));
  match r with Error (KeyTooLong _) => mret tt | _ => panic end) tt.

Definition test_parse_incr : bool := passes (
  r ← lift (parse (cmd «"incr counter 5"»));
  match r with
  | Complete (CmdIncr key value noreply) _ =>
      assert_eq key «"counter"»;;
      assert_eq value 5;;
      assert (negb noreply)
  | _ => panic
  end) tt.

Definition test_parse_decr : bool := passes (
  r ← lift (parse (cmd «"decr counter 3 noreply"»));
  match r with
  | Complete (CmdDecr key value noreply) _ =>
      assert_eq key «"counter"»;;
      assert_eq value 3;;
      assert noreply
  | _ => panic
  end) tt.

(** ** Results *)

Definition memcached_tests : list bool :=
  [test_parse_get; test_parse_gets; test_parse_set; test_parse_set_with_data; test_parse_set_noreply;
   test_parse_cas; test_parse_delete; test_parse_delete_noreply; test_parse_flush_all;
   test_parse_flush_all_with_delay; test_parse_stats; test_parse_version; test_parse_quit;
   test_parse_incomplete; test_parse_unknown_command; test_response_value; test_response_value_with_cas;
   test_key_too_long; test_parse_incr; test_parse_decr].

Lemma memcached_tests_pass : forallb id memcached_tests = true.
Proof. by_vm. Qed.

End tests.
