(* ===== verification/TestsResp.v ===== *)
(** * The tests of src/protocols/resp/parser.rs *)

From S2P Require Import Prelude RustStd Resp Concrete Tests.

Section tests.
Context `{BP : BuildProfile, FL : FrameLayout}.

(** A line, as the tests write it. *)
Definition ln (s : bytes) : bytes := s ++ crlf.

Definition test_parse_simple_string : bool := passes (
  r ← lift (parse (ln «"+OK"»));
  match r with
  | Complete (Simple s) consumed => assert_eq s «"OK"»;; assert_eq consumed 5
  | _ => panic
  end) tt.

Definition test_parse_error : bool := passes (
  r ← lift (parse (ln «"-ERR unknown command"»));
  match r with
  | Complete (FError s) consumed => assert_eq s «"ERR unknown command"»;; assert_eq consumed 22
  | _ => panic
  end) tt.

Definition test_parse_integer : bool := passes (
  r ← lift (parse (ln «":1000"»));
  match r with
  | Complete (Integer n) consumed => assert_eq n 1000;; assert_eq consumed 7
  | _ => panic
  end) tt.

Definition test_parse_negative_integer : bool := passes (
  r ← lift (parse (ln «":-42"»));
  match r with
  | Complete (Integer n) _ => assert_eq n (-42)
  | _ => panic
  end) tt.

Definition test_parse_bulk_string : bool := passes (
  r ← lift (parse (ln «"$5"» ++ ln «"hello"»));
  match r with
  | Complete (Bulk (Some data)) consumed => assert_eq data «"hello"»;; assert_eq consumed 11
  | _ => panic
  end) tt.

Definition test_parse_null_bulk_string : bool := passes (
  r ← lift (parse (ln «"$-1"»));
  match r with
  | Complete (Bulk None) consumed => assert_eq consumed 5
  | _ => panic
  end) tt.

Definition test_parse_empty_bulk_string : bool := passes (
  r ← lift (parse (ln «"$0"» ++ ln []));
  match r with
  | Complete (Bulk (Some data)) consumed => assert_eq (len data) 0;; assert_eq consumed 6
  | _ => panic
  end) tt.

Definition is_bulk (f : Frame) (s : bytes) : st unit unit :=
  match f with Bulk (Some data) => assert_eq data s | _ => panic end.

Definition test_parse_array : bool := passes (
  r ← lift (parse (ln «"*2"» ++ ln «"$3"» ++ ln «"foo"» ++ ln «"$3"» ++ ln «"bar"»));
  match r with
  | Complete (Array (Some frames)) consumed =>
      assert_eq (len frames) 2;;
      assert_eq consumed 22;;
      f0 ← lift (index frames 0); is_bulk f0 «"foo"»;;
      f1 ← lift (index frames 1); is_bulk f1 «"bar"»
  | _ => panic
  end) tt.

Definition test_parse_null_array : bool := passes (
  r ← lift (parse (ln «"*-1"»));
  match r with
  | Complete (Array None) consumed => assert_eq consumed 5
  | _ => panic
  end) tt.

Definition test_parse_empty_array : bool := passes (
  r ← lift (parse (ln «"*0"»));
  match r with
  | Complete (Array (Some frames)) consumed => assert_eq (len frames) 0;; assert_eq consumed 4
  | _ => panic
  end) tt.

Definition is_incomplete (r : ParseResult) : st unit unit :=
  match r with Incomplete => mret tt | _ => panic end.

Definition test_parse_incomplete : bool := passes (
  r ← lift (parse «"+OK"»); is_incomplete r;;
  r ← lift (parse (ln «"$5"» ++ «"hel"»)); is_incomplete r;;
  r ← lift (parse (ln «"*2"» ++ ln «"$3"» ++ ln «"foo"»)); is_incomplete r) tt.

Definition test_encode_simple_string : bool := passes (
  let frame := simple «"OK"» in
  assert_eq (encode frame) (ln «"+OK"»)) tt.

Definition test_encode_error : bool := passes (
  let frame := error «"ERR unknown"» in
  assert_eq (encode frame) (ln «"-ERR unknown"»)) tt.

Definition test_encode_integer : bool := passes (
  let frame := integer 42 in
  assert_eq (encode frame) (ln «":42"»)) tt.

Definition test_encode_bulk_string : bool := passes (
  let frame := bulk «"hello"» in
  assert_eq (encode frame) (ln «"$5"» ++ ln «"hello"»)) tt.

Definition test_encode_null : bool := passes (
  let frame := null in
  assert_eq (encode frame) (ln «"$-1"»)) tt.

Definition test_encode_array : bool := passes (
  let frame := array [bulk «"foo"»; bulk «"bar"»] in
  assert_eq (encode frame) (ln «"*2"» ++ ln «"$3"» ++ ln «"foo"» ++ ln «"$3"» ++ ln «"bar"»)) tt.

Definition resp_tests : list bool :=
  [test_parse_simple_string; test_parse_error; test_parse_integer; test_parse_negative_integer;
   test_parse_bulk_string; test_parse_null_bulk_string; test_parse_empty_bulk_string; test_parse_array;
   test_parse_null_array; test_parse_empty_array; test_parse_incomplete; test_encode_simple_string;
   test_encode_error; test_encode_integer; test_encode_bulk_string; test_encode_null; test_encode_array].

End tests.

(** ** Results *)

Lemma resp_tests_pass `{BP : BuildProfile} : forallb id (resp_tests (FL := frame64)) = true.
Proof. by_vm. Qed.
