(* ===== verification/TestsPing.v ===== *)
(** * The tests of src/protocols/ping/parser.rs *)

From S2P Require Import Prelude RustStd Ping Tests.

Definition test_parse_ping : bool := passes (
  r ← lift (parse («"PING"» ++ crlf));
  match r with Complete Ping 6 => mret tt | _ => panic end;;
  r ← lift (parse («"ping"» ++ crlf));
  match r with Complete Ping 6 => mret tt | _ => panic end) tt.

Definition test_parse_ping_msg : bool := passes (
  r ← lift (parse («"PING hello"» ++ crlf));
  match r with Complete (PingMsg msg) 12 => assert_eq msg «"hello"» | _ => panic end) tt.

Definition test_parse_quit : bool := passes (
  r ← lift (parse («"QUIT"» ++ crlf));
  match r with Complete Quit 6 => mret tt | _ => panic end) tt.

Definition test_incomplete : bool := passes (
  r ← lift (parse «"PING"»);
  match r with Incomplete => mret tt | _ => panic end) tt.

Definition test_unknown_command : bool := passes (
  r ← lift (parse («"FOO"» ++ crlf));
  match r with Error => mret tt | _ => panic end) tt.

Definition ping_tests : list bool :=
  [test_parse_ping; test_parse_ping_msg; test_parse_quit; test_incomplete; test_unknown_command].

Lemma ping_tests_pass : forallb id ping_tests = true.
Proof. by_vm. Qed.
