(* ===== verification/TestsEcho.v ===== *)
(** * The tests of src/protocols/echo/parser.rs *)

From S2P Require Import Prelude RustStd Echo Tests.

Definition test_parse_echo : bool := passes (
  r ← lift (parse («"100"» ++ crlf));
  match r with
  | Complete (Echo length header_len) => assert_eq length 100;; assert_eq header_len 5
  | _ => panic
  end) tt.

Definition test_parse_quit : bool := passes (
  r ← lift (parse («"QUIT"» ++ crlf));
  match r with Complete Quit => mret tt | _ => panic end) tt.

Definition test_incomplete : bool := passes (
  r ← lift (parse «"100"»);
  match r with Incomplete => mret tt | _ => panic end) tt.

Definition test_invalid_length : bool := passes (
  r ← lift (parse («"abc"» ++ crlf));
  match r with InvalidLength => mret tt | _ => panic end) tt.

Definition test_response_header : bool := passes (
  let buf := repeat Byte.x00 20 in
  '(n, buf) ← lift (response_header 12345 buf);
  s ← lift (slice buf 0 n);
  assert_eq s («"12345"» ++ crlf)) tt.

Definition echo_tests : list bool :=
  [test_parse_echo; test_parse_quit; test_incomplete; test_invalid_length; test_response_header].

Lemma echo_tests_pass : forallb id echo_tests = true.
Proof. by_vm. Qed.
