(* ===== verification/TestsRuntime.v ===== *)
(** * The tests of src/runtime/buffer.rs, connection.rs and uring/token.rs

    The tests of chains run on a chain and a pool; the store of the [slab] crate is the
    one that reuses the lowest free key, as the test of the tokens expects. *)

From S2P Require Import Prelude RustStd Resp Request Slab Buffer Connection Token Tests.

(** ** Buffers *)

Section buffers.
Context `{BP : BuildProfile}.

Definition test_buffer_pool_basic : bool := passes (
  p ← gets id; assert_eq (capacity p) 4;;
  assert_eq (available p) 4;;
  assert_eq (buffer_size p) 1024;;
  b0 ← alloc; b0 ← unwrap b0;
  b1 ← alloc; b1 ← unwrap b1;
  b2 ← alloc; b2 ← unwrap b2;
  b3 ← alloc; b3 ← unwrap b3;
  p ← gets id; assert_eq (available p) 0;;
  x ← alloc; assert (is_none x);;
  free b1;;
  p ← gets id; assert_eq (available p) 1;;
  b4 ← alloc; b4 ← unwrap b4;
  assert_eq b4 b1;;
  write_buffer b0 0 1 [Byte.x2a];;
  p ← gets id; buf ← lift (get_buffer p b0); x ← lift (index buf 0);
  assert_eq x Byte.x2a;;
  free b0;; free b2;; free b3;; free b4;;
  p ← gets id; assert_eq (available p) 4) (pool_new 4 1024).

(** A chain created for a pool. *)
Definition chain_for (p : BufferPool) : BufferChain * BufferPool := (chain_new (buffer_size p), p).

Definition the_pool : chain_st BufferPool := gets snd.

(** [chain.append(data, &mut pool).unwrap()] *)
Definition append_ok (d : bytes) : chain_st unit := r ← append d; unwrap_ok r.

(** [as_contiguous] lends the bytes of a single buffer and assembles those of several. *)
Definition is_borrowed (c : BufferChain) : bool :=
  match chain_buffers c with [] | [_] => true | _ => false end.

Definition test_buffer_chain_single_buffer : bool := passes (
  let data := «"hello world"» in
  append_ok data;;
  c ← the_chain; p ← the_pool;
  assert_eq (chain_len c) 11;;
  assert_eq (buffer_count c) 1;;
  assert_eq (available p) 3;;
  result ← lift (as_contiguous c p);
  assert_eq result data;;
  assert (is_borrowed c);;
  release;;
  c ← the_chain; p ← the_pool;
  assert_eq (available p) 4;;
  assert_eq (chain_len c) 0) (chain_for (pool_new 4 1024)).

(** [(0..250u8).collect()] *)
Definition counting (n : nat) : bytes := (fun i => default Byte.x00 (Byte.of_nat i)) <$> seq 0 n.

Definition test_buffer_chain_multi_buffer : bool := passes (
  let data := counting 250 in
  append_ok data;;
  c ← the_chain; p ← the_pool;
  assert_eq (chain_len c) 250;;
  assert_eq (buffer_count c) 3;;
  assert_eq (available p) 7;;
  result ← lift (as_contiguous c p);
  assert_eq result data;;
  assert (negb (is_borrowed c));;
  cs ← lift (chunks c p);
  assert_eq (len cs) 3;;
  x ← lift (index cs 0); assert_eq (len x) 100;;
  x ← lift (index cs 1); assert_eq (len x) 100;;
  x ← lift (index cs 2); assert_eq (len x) 50;;
  release;;
  p ← the_pool; assert_eq (available p) 10) (chain_for (pool_new 10 100)).

Definition test_buffer_chain_append_incremental : bool := passes (
  append_ok «"hello "»;;
  append_ok «"world"»;;
  c ← the_chain; p ← the_pool;
  assert_eq (chain_len c) 11;;
  assert_eq (buffer_count c) 1;;
  result ← lift (as_contiguous c p);
  assert_eq result «"hello world"»;;
  release) (chain_for (pool_new 10 100)).

Definition test_buffer_chain_pool_exhausted : bool := passes (
  append_ok (repeat Byte.x00 200);;
  p ← the_pool; assert_eq (available p) 0;;
  result ← append (repeat Byte.x00 10);
  match result with inl PoolExhausted => mret tt | _ => panic end;;
  release) (chain_for (pool_new 2 100)).

Definition test_buffer_chain_first_n_bytes : bool := passes (
  append_ok «"HEADER:value data here"»;;
  c ← the_chain; p ← the_pool;
  r ← lift (first_n_bytes 7 c p); header ← unwrap r;
  assert_eq header «"HEADER:"»;;
  r ← lift (first_n_bytes 100 c p); assert (is_none r);;
  release) (chain_for (pool_new 4 100)).

Definition test_buffer_chain_clear_reuse : bool := passes (
  append_ok «"first request"»;;
  c ← the_chain; assert_eq (buffer_count c) 1;;
  first_buf ← lift (index (buffer_indices c) 0);
  on_chain clear;;
  c ← the_chain; assert_eq (chain_len c) 0;;
  assert_eq (buffer_count c) 1;;
  append_ok «"second request"»;;
  c ← the_chain; idx ← lift (index (buffer_indices c) 0);
  assert_eq idx first_buf;;
  release) (chain_for (pool_new 4 100)).

Definition buffer_tests : list bool :=
  [test_buffer_pool_basic; test_buffer_chain_single_buffer; test_buffer_chain_multi_buffer;
   test_buffer_chain_append_incremental; test_buffer_chain_pool_exhausted; test_buffer_chain_first_n_bytes;
   test_buffer_chain_clear_reuse].

End buffers.

Lemma buffer_tests_pass `{BP : BuildProfile} : forallb id buffer_tests = true.
Proof. destruct BP as [[] []]; by_vm. Qed.

(** ** Connections *)

Section connections.
Context `{BP : BuildProfile}.

Definition test_data_state_creation : bool := passes (
  match reading with Reading 0 => mret tt | _ => panic end;;
  match reading_with 100 with Reading 100 => mret tt | _ => panic end;;
  match writing 5 200 with Writing 5 0 200 => mret tt | _ => panic end) tt.

Definition test_conn_phase_transitions : bool := passes (
  let phase := Accepting in
  assert (negb (is_established phase));;
  let phase := established in
  assert (is_established phase);;
  assert (is_some (data_state phase));;
  let phase := Closing in
  assert (is_closing phase)) tt.

Definition test_connection_state_transitions : bool := passes (
  conn ← gets id; assert (is_reading conn);;
  assert (negb (is_writing conn));;
  start_writing 1 100;;
  conn ← gets id; assert (is_writing conn);;
  assert (negb (is_reading conn));;
  assert_eq (write_state conn) (Some (1, 0, 100));;
  finished ← advance_write 50; assert (negb finished);;
  conn ← gets id; assert_eq (write_state conn) (Some (1, 50, 100));;
  finished ← advance_write 50; assert finished;;
  start_reading;;
  conn ← gets id; assert (is_reading conn);;
  close;;
  conn ← gets id; match phase conn with Closing => mret tt | _ => panic end) (conn_new 42 PMemcached).

Definition test_connection_accepting_to_established : bool := passes (
  conn ← gets id; match phase conn with Accepting => mret tt | _ => panic end;;
  establish;;
  conn ← gets id; assert (is_reading conn)) (new_accepting 42 PResp).

Definition connection_tests : list bool :=
  [test_data_state_creation; test_conn_phase_transitions; test_connection_state_transitions;
   test_connection_accepting_to_established].

End connections.

Lemma connection_tests_pass `{BP : BuildProfile} : forallb id connection_tests = true.
Proof. destruct BP as [[] []]; by_vm. Qed.

(** ** Registry and tokens *)

Section slabs.
#[local] Existing Instance lowest_key.

Definition test_connection_registry : bool := passes (
  let c1 := conn_new 10 PMemcached in
  let c2 := conn_new 11 PResp in
  let c3 := conn_new 12 PMemcached in
  id1 ← registry_insert c1; id1 ← unwrap id1;
  id2 ← registry_insert c2; id2 ← unwrap id2;
  x ← registry_insert c3; assert (is_none x);;
  r ← gets id; assert_eq (registry_len r) 2;;
  c ← unwrap (registry_get id1 r); assert_eq (fd c) 10;;
  c ← unwrap (registry_get id2 r);
  match conn_protocol c with PResp => mret tt | _ => panic end;;
  registry_remove id1;;
  r ← gets id; assert (negb (registry_contains id1 r));;
  assert_eq (registry_len r) 1) (registry_new 2).

Definition test_token_allocator : bool := passes (
  t1 ← token_alloc OpAccept;
  t2 ← token_alloc (OpRead 1);
  a ← gets id; assert_eq (tokens_len a) 2;;
  match token_get t1 a with Some OpAccept => mret tt | _ => panic end;;
  match token_get t2 a with Some (OpRead 1) => mret tt | _ => panic end;;
  token_free t1;;
  a ← gets id; assert (is_none (token_get t1 a));;
  assert_eq (tokens_len a) 1;;
  t3 ← token_alloc OpAccept;
  assert_eq t3 t1) tokens_new.

Lemma slab_tests_pass : test_connection_registry && test_token_allocator = true.
Proof. by_vm. Qed.

End slabs.
