(* ===== verification/TestsPass.v ===== *)
(** * All unit tests pass

    The tests of the repository, together: whatever the build profile, the table of
    Unicode cases and the instant at which they start. *)

From S2P Require Import Prelude RustStd Storage Resp Concrete Config Slab Tests TestsStorage TestsConfig.
From S2P Require Import TestsMemcached TestsResp TestsPing TestsEcho TestsRuntime.

Section pass.
Context `{BP : BuildProfile, UC : UnicodeCase, FS : Files}.

(** Every [#[test]] of the sources. *)
Definition unit_tests (now : Z) : list bool :=
  storage_tests now ++ [test_expiration (LY := linux64) (HO := by_elements) now] ++
  memcached_tests ++ resp_tests (FL := frame64) ++ ping_tests ++ echo_tests ++
  buffer_tests ++ connection_tests ++ [test_connection_registry && test_token_allocator] ++
  [test_default_config; test_toml_parsing].

(** All 78 unit tests of the repository pass on the model, in debug and in release
    builds and at any instant the clock can represent, provided that the TOML parser
    reads the document of the configuration test. *)
Theorem unit_tests_pass now :
  now / NANOS + 1 <= I64_MAX -> toml_document toml_str = inr toml_entries ->
  forallb id (unit_tests now) = true.
Proof.
  intros Hn Ht. unfold unit_tests. rewrite !forallb_app, !andb_true_iff. split_and!;
    [apply storage_tests_pass| |apply memcached_tests_pass|apply resp_tests_pass|apply ping_tests_pass
    |apply echo_tests_pass|apply buffer_tests_pass|apply connection_tests_pass| |]; cbn [forallb]; unfold id.
  - by rewrite test_expiration_passes.
  - by rewrite slab_tests_pass.
  - by rewrite test_default_config_passes, test_toml_parsing_passes.
Qed.

End pass.

Section witness.
#[local] Existing Instances debug some_unicode.

(** A file system with a TOML parser that knows one document. *)
Definition one_document : Files := {|
  read_error := unit;
  toml_error := unit;
  read_to_string := fun _ => inl tt;
  toml_document := fun s => if bool_decide (s = toml_str) then inr toml_entries else inl tt;
  display_read_error := fun _ => [];
  display_toml_error := fun _ => []
|}.
#[local] Existing Instance one_document.

Lemma unit_tests_pass_witness : forallb id (unit_tests 5) = true.
Proof.
  apply (unit_tests_pass 5).
  - vm_compute; discriminate.
  - vm_compute; reflexivity.
Defined.

End witness.
